(* ===== verification/_CoqProject ===== *)
-Q . S2P
Prelude.v
Proto.v
Errors.v
Path.v
Xdr.v
Ops.v
Rpc.v
Compound.v
Reply.v
Replies.v
Slots.v
Exchange.v
Owner.v
Session.v
SessionFacts.v
Reads.v
ReadPipeline.v
ReadsFacts.v
Writes.v
WritesFacts.v
Service.v
CloseWorker.v
Put.v
PutFacts.v
Naming.v
Publication.v
Directory.v
DirectoryFacts.v
SweepFacts.v
Deletion.v
Cleanup.v
Reconnect.v
ReconnectFacts.v
Efs.v
Tls.v
Builder.v
Connect.v
Transport.v
Float64.v
BenchModel.v
BenchSuite.v
BenchStats.v
FileSystem.v
BenchMount.v
BenchWork.v
BenchWorkFacts.v
BenchExec.v
BenchRun.v
BenchFacts.v
