(* ===== verification/Prelude.v ===== *)
(** * nfs-crust: a verification development

    nfs-crust is an asynchronous NFSv4.1 client for one export.  A public
    client (src/client.rs) runs its operations on a session
    (src/nfs4/session.rs); a session sends COMPOUND requests, each on one of
    its slots (src/nfs4/slots.rs), encodes them and decodes their replies
    (src/nfs4/codec.rs, src/nfs4/ops.rs, src/nfs4.rs, src/xdr.rs), and hands
    them to an RPC transport (src/rpc.rs) that frames records, matches replies
    to calls and watches the connection.  src/path.rs checks paths,
    src/error.rs classifies failures, src/aws_efs.rs makes the certificate an
    EFS file system with IAM authorization asks for.  A benchmark harness
    (bench/src/) measures the client against a mounted file system.

    ** Conventions

    A fallible function is a [res] (success, error, panic), a function that
    changes state is an [st] (state passing with the same three outcomes), so
    that a panic is a value and its absence a theorem.  Integers are [Z] with
    the width's bounds and wrap-around written out; bytes are lists of [Z] with
    [bytes_wf]; strings are their UTF-8 bytes.  An error message is the
    template of the source.  Loops that are not structural take fuel; the
    theorems that claim a result show that the fuel given is enough.  Code that
    is not in the repository is an argument: the network ([call]), the
    resolver, the TLS library, ULIDs, the completion order of futures in flight
    ([order]), hash functions, signatures and certificates, and for the
    harness the clock, the kernel's counters and the faults of the mount.

    ** The files

    - Prelude: results, the state monad, machine words, strings, generic
      lemmas, the triples [runs] and the parser predicate [parser].
    - Proto, Errors, Path: constants and opcodes (src/nfs4.rs), the error type
      (src/error.rs), path parsing (src/path.rs).
    - Xdr, Ops: the XDR codec (src/xdr.rs); operations, their encoding and
      length, bitmaps, the configuration (src/nfs4/ops.rs, src/nfs4.rs).
    - Rpc: credentials, call headers, record marking, reading of records,
      decoding of replies, routing by XID (src/rpc.rs).
    - Transport: [call_with_timeout], the reader and the writer task as a state
      machine (src/rpc.rs).
    - Compound, Reply, Replies: requests with their limits, the bodies of
      replies, and every [decode_*_compound] (src/nfs4/codec.rs).  [replied],
      [answer_stops] and [answer_whole] say, of the bytes of an answer, which
      operations of the request the server carried out and which it failed;
      the theorems about retries, publication, closes and removals are stated
      with them.
    - Slots: [SlotTable] and [SlotGuard] as a machine of concurrent tasks, with
      one step for each access to shared state (src/nfs4/slots.rs).
    - Exchange: the same slots with requests in flight, for the discipline of
      sequence ids under concurrency (src/nfs4/session.rs,
      [compound_raw_once]).
    - Owner: client owner, verifier, open owners (src/nfs4.rs).
    - Session, SessionFacts: every operation of [NfsSession], its retries, the
      closing and publishing compounds, the fused put, [connect]
      (src/nfs4/session.rs).
    - Reads, ReadPipeline, ReadsFacts: the reads of the client, sequential and
      pipelined (src/client.rs).  [ReadService] is the interface they use,
      [ReadContract] what it promises, [session_reads] the session as such a
      service.
    - Writes, WritesFacts: the writes of a body, with [WriteService] and
      [WriteContract].
    - Put, PutFacts: [put], the classification of failures, the retry on a new
      session ([retrying_session_operation]), with [PutService] and
      [PutContract]; [client_puts] is the client over a session.
    - Naming: what the error of a decoder says about the operations that ran,
      for the compounds that publish.
    - Publication: [put] over the session, down to the requests that are sent.
    - CloseWorker: [run_deferred_close_worker] with the channel that feeds it
      and the tasks that defer, as a state machine (src/nfs4/session.rs).
    - Directory, DirectoryFacts, SweepFacts: [list_page], [entry_info],
      [delete], [sweep_temp_files] and the public reads, with [DirService] and
      the contracts of any server ([SweepContract], [DeleteContract]) and of a
      directory that nobody else changes ([DirContract]).
    - Deletion, Cleanup: [delete] and [sweep_temp_files] over the session, down
      to the requests that are sent.
    - Reconnect, ReconnectFacts: the reconnect coordinator as a state machine
      of callers and tasks.
    - Service: the session as an instance of [ReadContract] and
      [WriteContract], over any transport.
    - Efs: src/aws_efs.rs.
    - Tls: TLS settings, the TLS client made of them, and
      [RpcClient::connect] (src/rpc.rs).
    - Builder: settings, validation, the EFS write cap, the connection.
    - Connect: what [NfsSession::connect] establishes, and [reconnect] as one
      caller sees it, over the session it sets up (src/nfs4/session.rs,
      src/client.rs).
    - Float64, FileSystem: binary64 arithmetic, and the calls on a mounted tree
      that may fail with or without effect, as the harness uses them.
    - BenchModel, BenchSuite, BenchStats, BenchMount: scenarios and results,
      the suite and its shuffle, distributions, the reads and puts of the
      mounted backend (bench/src/model.rs, suite.rs, stats.rs, mount.rs).
    - BenchWork, BenchExec, BenchRun with BenchWorkFacts and BenchFacts: the
      harness (bench/src/main.rs): what an operation does, the loops of
      workers, a scenario, the run.

    ** What is proved

    - Wire formats: encoders produce the specified bytes with the announced
      length, segmented and contiguous encodings agree, requests that pass
      validation fit the negotiated limits; decoders never panic, report success
      only on an answer that has a reply with status OK for every operation of
      the request, and otherwise an index and a status that stand in the bytes;
      the fused put's
      reply, records and directory pages are read back as they were written;
      the fast path for attributes equals the general one.
    - Transport: a reply reaches the call whose XID the received record
      carries, and no other; a batch of records is written exactly or, with one
      that is too large in it, not at all; a request reported as
      not sent was never written; no call waits on a connection that ended; a
      client configured for TLS never works without the handshake asked for.
    - Slots and session: no two tasks hold a slot, a retired slot is not used
      again, sequence ids of a slot are consecutive also under concurrency; an
      exchange refines its specification on every branch; retries are bounded
      and sent only after an answer that stops before any OPEN, CLOSE, LINK or
      RENAME ran; a publish is sent again only after an answer that stops
      before it; a session is
      set up in the order the protocol asks for and satisfies the invariant
      that its operations start from ([Connect]).
    - Client: against a server that answers from a file, reads return the
      file; against any server, reads through a session return the bytes it
      sent for the path, with the end of file it reported ([Service]); the
      pipelined read equals the sequential one;
      a body is written completely and under one verifier; of all the requests
      of a put at most the last one published, across a reconnect too
      ([Publication], [Connect]), since what it concludes from an answer is
      what the server did ([Naming]); every file it leaves to the worker is
      closed by a request that the server carried out, or its CLOSE is asked
      for on its own ([CloseWorker]); a removal is sent again only after an
      answer, or the lack of a request, that shows that nothing was removed
      ([Deletion]); a sweep removes exactly the temporary files created at or
      before the cutoff and ends; continuation
      tokens list every entry once; sessions are replaced one at a time and
      nobody waits for ever.
    - Harness: every operation a loop starts gives one sample, under any
      interleaving; percentiles computed in floating point are the exact ones;
      the mounted put is atomic under faults; a result that is not marked
      invalid was measured and validated.
    - Findings: a slot's active flag can be cleared under its holder
      ([Slots.active_flag_lost_by_release_order]); an acquire can miss its
      wakeup ([Slots.acquire_lost_wakeup]); after a reconnect a sweep counts
      from zero and forgets the files it removed before
      ([SweepFacts.sweep_forgets_removals]); a transient status on the fused
      put is returned, not waited for ([PutFacts.fused_transient_returned]).

    ** Bounds and fuel

    The pipelines turn at most once for each byte (reads) or chunk (writes,
    removals); the retry loop of compounds has one turn for each configured
    retry; [retrying_session_operation] runs an operation at most twice
    ([PutFacts.retrying_runs_twice]); a draw of an XID needs one try more than
    there are calls.  A sweep has no bound in the code: against a directory of
    [n] entries, [k] of them stale, [(k + 1) * (n + 2)] listing turns are
    enough ([SweepFacts.sweep_complete]).  The reconnect machine is proved for
    fewer than 2^64 actions, so that the generation does not wrap.  In the
    harness a closed loop of [n] workers and [l] operations has [n * (l + 1)]
    turns, an open loop one for each launch of its window, and a direct read
    one for each byte and interruption; distributions are exact up to 2^40
    samples, where the rounding of the rank stays below the distance to the
    next integer.  The capacity of the writer's queue is proved not to panic
    for up to 2^32 calls in flight; a call waits while the queue is full
    (Transport).

    ** Not modelled

    The TLS library, key generation, hashes and certificate encoding are
    library calls.  Tracing has no effect on results.  Of the harness, the
    parsing of the command line, the text of the console, the JSON form of the
    artifacts and the commands that describe the host are left out; the JSON
    text and the writers of the artifact files, which may fail, belong to the
    harness's world.  The crate
    root (src/lib.rs) has only declarations.  In the client's operations the
    calls of one operation are atomic with respect to each other: concurrency
    is modelled where it is the subject (Slots, Exchange, Transport, Reconnect,
    the loops of the harness).  A reconnect task is assumed to run to its end
    (it is spawned and not aborted by the code).

    ** Limits

    The theorems about requests over the session (Publication, Cleanup) take
    any outcome of the codec into account, a panic included; that none occurs
    is shown for the operations of reads, writes, deletion and deferred closes
    (Service, Deletion, CloseWorker) and for the set-up of a session
    (Connect).  That a new session sends no request that could publish is
    proved for the reconnect of the client (Connect); for the sweep, whose
    model has no client around the session, that it sends no REMOVE is a
    hypothesis.  [replied] fixes the order, the operation and the status of the
    replies in an answer and leaves the bytes of their results open.  That the
    errors of the transport carry no NFS status is a hypothesis ([Statusless])
    where a conclusion is drawn from a status.  When the timer of a set-up fires, the requests it had sent are
    assumed to be requests of a set-up.  Operations of the client that run at
    the same time on one session are treated through the slots (Exchange), not
    as interleaved runs of whole operations. *)

From stdpp Require Export base tactics option list numbers strings.
From Stdlib Require Export ZArith Lia.

#[global] Open Scope Z_scope.
#[global] Set Default Goal Selector "1".

(** ** Results

    A fallible Rust function returns [Result<T, E>]; it can also panic (an
    [expect], a slice index, a [bytes] accessor past the end of the buffer).
    [res] keeps the three outcomes apart, so that the absence of panics is a
    theorem about the code instead of an assumption of the model. *)

Inductive res (E A : Type) : Type :=
| Ok (a : A)
| Err (e : E)
| Panic.
Arguments Ok {E A} a.
Arguments Err {E A} e.
Arguments Panic {E A}.

Definition rbind {E A B} (m : res E A) (k : A → res E B) : res E B :=
  match m with
  | Ok a => k a
  | Err e => Err e
  | Panic => Panic
  end.

Definition map_err {E F A} (f : E → F) (m : res E A) : res F A :=
  match m with
  | Ok a => Ok a
  | Err e => Err (f e)
  | Panic => Panic
  end.

Definition ok_or {E A} (o : option A) (e : E) : res E A :=
  match o with
  | Some a => Ok a
  | None => Err e
  end.

Definition is_ok {E A} (m : res E A) : bool :=
  match m with Ok _ => true | _ => false end.

(** ** State passing

    A method with a [&mut self] receiver is a function from the state of the
    receiver to the outcome and the new state.  The state survives an error:
    a decoder that fails half way has consumed what it had read. *)

Definition st (S E A : Type) : Type := S → res E A * S.

Definition sret {S E A} (a : A) : st S E A := λ s, (Ok a, s).
Definition sfail {S E A} (e : E) : st S E A := λ s, (Err e, s).
Definition spanic {S E A} : st S E A := λ s, (Panic, s).

Definition sbind {S E A B} (m : st S E A) (k : A → st S E B) : st S E B :=
  λ s, match m s with
       | (Ok a, s') => k a s'
       | (Err e, s') => (Err e, s')
       | (Panic, s') => (Panic, s')
       end.

Definition slift {S E A} (r : res E A) : st S E A := λ s, (r, s).

Definition smap_err {S E F A} (f : E → F) (m : st S E A) : st S F A :=
  λ s, let '(r, s') := m s in (map_err f r, s').

Declare Scope crust_scope.
Delimit Scope crust_scope with crust.
#[global] Open Scope crust_scope.

Notation "'let?' x := m 'in' k" := (rbind m (fun x => k))
  (at level 10, x pattern, m at level 200, k at level 200) : crust_scope.
Notation "'let!' x := m 'in' k" := (sbind m (fun x => k))
  (at level 10, x pattern, m at level 200, k at level 200) : crust_scope.

(** ** Loops

    [for x in l { f(x)?; }] *)
Fixpoint for_each {S E A} (f : A → st S E unit) (l : list A) : st S E unit :=
  match l with
  | [] => sret tt
  | x :: l' => let! _ := f x in for_each f l'
  end.

(** [for _ in 0..n { body()? }] *)
Fixpoint repeat_n {S E} (n : nat) (body : st S E unit) : st S E unit :=
  match n with
  | O => sret tt
  | Datatypes.S n' => let! _ := body in repeat_n n' body
  end.

(** ** Machine integers

    Integers are [Z] with their width written out.  The target has 64-bit
    pointers, so [usize] and [u64] share a range and [u32 as usize] is the
    identity. *)

Definition u8_max : Z := 2 ^ 8 - 1.
Definition u32_max : Z := 2 ^ 32 - 1.
Definition u64_max : Z := 2 ^ 64 - 1.
Definition usize_max : Z := u64_max.

Definition is_u8 (z : Z) : Prop := 0 ≤ z ≤ u8_max.
Definition is_u32 (z : Z) : Prop := 0 ≤ z ≤ u32_max.
Definition is_u64 (z : Z) : Prop := 0 ≤ z ≤ u64_max.
Definition is_usize (z : Z) : Prop := 0 ≤ z ≤ usize_max.

Definition wrap32 (z : Z) : Z := z `mod` 2 ^ 32.
Definition wrap64 (z : Z) : Z := z `mod` 2 ^ 64.
Definition as_u32 (z : Z) : Z := wrap32 z.

Definition saturating_add (a b : Z) : Z := Z.min (a + b) usize_max.
Definition saturating_mul (a b : Z) : Z := Z.min (a * b) usize_max.
Definition saturating_sub (a b : Z) : Z := Z.max (a - b) 0.
Definition checked_add (a b : Z) : option Z :=
  if a + b <=? usize_max then Some (a + b) else None.
Definition checked_sub (a b : Z) : option Z :=
  if b <=? a then Some (a - b) else None.
Definition checked_mul (a b : Z) : option Z :=
  if a * b <=? usize_max then Some (a * b) else None.
Definition is_multiple_of (a b : Z) : bool := a `mod` b =? 0.

Ltac unfold_widths :=
  unfold is_u8, is_u32, is_u64, is_usize, usize_max, u64_max, u32_max, u8_max in *.

(** [ulia]: linear arithmetic over the machine widths. *)
Ltac ulia :=
  unfold saturating_add, saturating_mul, saturating_sub in *; unfold_widths; lia.

(** ** Bytes and strings *)

Abbreviation bytes := (list Z) (only parsing).
Definition bytes_wf (b : bytes) : Prop := Forall is_u8 b.

Definition blen {A} (l : list A) : Z := Z.of_nat (length l).

(** A [&str] or a [String] is its UTF-8 bytes. *)
Abbreviation str := (list Z) (only parsing).

Definition str_of (s : string) : str :=
  (λ c, Z.of_nat (Ascii.nat_of_ascii c)) <$> String.list_ascii_of_string s.

Definition str_eqb (a b : str) : bool := bool_decide (a = b).

(** [std::str::from_utf8]: the well-formed byte sequences of UTF-8. *)
Definition utf8_cont (b : Z) : bool := (0x80 <=? b) && (b <=? 0xBF).
Definition in_range (lo hi b : Z) : bool := (lo <=? b) && (b <=? hi).

Fixpoint utf8_valid (b : bytes) : bool :=
  match b with
  | [] => true
  | x :: rest =>
      if x <? 0x80 then utf8_valid rest
      else
        match rest with
        | [] => false
        | y :: rest2 =>
            if in_range 0xC2 0xDF x then utf8_cont y && utf8_valid rest2
            else
              match rest2 with
              | [] => false
              | z :: rest3 =>
                  if in_range 0xE0 0xEF x then
                    (((x =? 0xE0) && in_range 0xA0 0xBF y)
                     || (in_range 0xE1 0xEC x && in_range 0x80 0xBF y)
                     || ((x =? 0xED) && in_range 0x80 0x9F y)
                     || (in_range 0xEE 0xEF x && in_range 0x80 0xBF y))
                    && utf8_cont z && utf8_valid rest3
                  else
                    match rest3 with
                    | [] => false
                    | w :: rest4 =>
                        (((x =? 0xF0) && in_range 0x90 0xBF y)
                         || (in_range 0xF1 0xF3 x && in_range 0x80 0xBF y)
                         || ((x =? 0xF4) && in_range 0x80 0x8F y))
                        && utf8_cont z && utf8_cont w && utf8_valid rest4
                    end
              end
        end
  end.

(** [str::is_char_boundary] *)
Definition is_char_boundary (s : str) (index : nat) : bool :=
  if (index =? 0)%nat then true
  else if (index =? length s)%nat then true
  else match s !! index with
       | Some b => negb (utf8_cont b)
       | None => false
       end.

(** [&s[start..end]]: panics unless the range is ordered, inside the string,
    and on character boundaries. *)
Definition slice_str {E} (s : str) (start end_ : nat) : res E str :=
  if (start <=? end_)%nat && (end_ <=? length s)%nat
     && is_char_boundary s start && is_char_boundary s end_
  then Ok (take (end_ - start) (drop start s))
  else Panic.

(** [str::starts_with] / [str::strip_prefix]. *)
Fixpoint strip_prefix (prefix s : str) : option str :=
  match prefix, s with
  | [], _ => Some s
  | p :: prefix', x :: s' => if p =? x then strip_prefix prefix' s' else None
  | _ :: _, [] => None
  end.

Definition starts_with (prefix s : str) : bool :=
  match strip_prefix prefix s with Some _ => true | None => false end.

(** [slice::join] *)
Fixpoint join_with (separator : str) (l : list str) : str :=
  match l with
  | [] => []
  | [x] => x
  | x :: l => x ++ separator ++ join_with separator l
  end.

(** Big-endian words ([u32::to_be_bytes], [BufMut::put_u32] and relatives). *)
Fixpoint be_bytes (n : nat) (v : Z) : bytes :=
  match n with
  | O => []
  | S n' => ((v / 256 ^ Z.of_nat n') `mod` 256) :: be_bytes n' v
  end.

Fixpoint be_value (b : bytes) : Z :=
  match b with
  | [] => 0
  | x :: rest => x * 256 ^ blen rest + be_value rest
  end.

(** ** Lemmas on lengths and lists *)

Lemma blen_nil {A} : blen (@nil A) = 0.
Proof. done. Qed.

Lemma blen_cons {A} (x : A) l : blen (x :: l) = 1 + blen l.
Proof. unfold blen. simpl. lia. Qed.

Lemma blen_app {A} (l1 l2 : list A) : blen (l1 ++ l2) = blen l1 + blen l2.
Proof. unfold blen. rewrite length_app. lia. Qed.

Lemma blen_nonneg {A} (l : list A) : 0 ≤ blen l.
Proof. unfold blen. lia. Qed.

Lemma blen_replicate {A} n (x : A) : blen (replicate n x) = Z.of_nat n.
Proof. unfold blen. by rewrite length_replicate. Qed.

Lemma blen_take {A} (n : nat) (l : list A) :
  Z.of_nat n ≤ blen l → blen (take n l) = Z.of_nat n.
Proof. unfold blen. rewrite length_take. lia. Qed.

Lemma blen_drop {A} (n : nat) (l : list A) :
  Z.of_nat n ≤ blen l → blen (drop n l) = blen l - Z.of_nat n.
Proof. unfold blen. rewrite length_drop. lia. Qed.

Lemma blen_0_nil {A} (l : list A) : blen l = 0 → l = [].
Proof. destruct l; [done|]. rewrite blen_cons. pose proof (blen_nonneg l). lia. Qed.

Lemma take_app_blen {A} (l1 l2 : list A) n :
  n = length l1 → take n (l1 ++ l2) = l1.
Proof. intros ->. by rewrite take_app_length. Qed.

Lemma drop_app_blen {A} (l1 l2 : list A) n :
  n = length l1 → drop n (l1 ++ l2) = l2.
Proof. intros ->. by rewrite drop_app_length. Qed.

Lemma filter_all {A} (P : A → Prop) `{!∀ x, Decision (P x)} (l : list A) : Forall P l → filter P l = l.
Proof. induction 1 as [|x l Hx Hl IH]; [done|]. by rewrite filter_cons_True, IH. Qed.

Lemma str_eqb_eq a b : str_eqb a b = true ↔ a = b.
Proof. unfold str_eqb. by rewrite bool_decide_eq_true. Qed.

Lemma str_eqb_neq a b : str_eqb a b = false ↔ a ≠ b.
Proof. unfold str_eqb. by rewrite bool_decide_eq_false. Qed.

Lemma suffix_drop {A} n (l : list A) : drop n l `suffix_of` l.
Proof. exists (take n l). by rewrite take_drop. Qed.

Lemma suffix_blen {A} (l1 l2 : list A) : l1 `suffix_of` l2 → blen l1 ≤ blen l2.
Proof. intros [k ->]. rewrite blen_app. pose proof (blen_nonneg k). lia. Qed.

Lemma suffix_wf b1 b2 : b1 `suffix_of` b2 → bytes_wf b2 → bytes_wf b1.
Proof. intros [k ->] H. by apply Forall_app in H as [_ ?]. Qed.

Lemma bytes_wf_app b1 b2 : bytes_wf (b1 ++ b2) ↔ bytes_wf b1 ∧ bytes_wf b2.
Proof. apply Forall_app. Qed.

Lemma bytes_wf_take n b : bytes_wf b → bytes_wf (take n b).
Proof. apply Forall_take. Qed.

Lemma bytes_wf_drop n b : bytes_wf b → bytes_wf (drop n b).
Proof. apply Forall_drop. Qed.

Lemma mjoin_app {A} (l1 l2 : list (list A)) : mjoin (l1 ++ l2) = mjoin l1 ++ mjoin l2.
Proof. induction l1 as [|x l1 IH]; [done|]. cbn. rewrite <- app_assoc. f_equal. exact IH. Qed.

Lemma mjoin_cons {A} (x : list A) l : mjoin (x :: l) = x ++ mjoin l.
Proof. done. Qed.

(** ** Lemmas on UTF-8 and prefixes *)

Lemma strip_prefix_spec prefix s rest : strip_prefix prefix s = Some rest ↔ s = prefix ++ rest.
Proof.
  induction prefix as [|p prefix IH] in s |- *; simpl; [naive_solver|].
  destruct s as [|x s]; [naive_solver|].
  destruct (Z.eqb_spec p x); [rewrite IH|]; naive_solver.
Qed.

Lemma starts_with_spec prefix s : starts_with prefix s = true ↔ ∃ rest, s = prefix ++ rest.
Proof.
  unfold starts_with. destruct (strip_prefix prefix s) as [rest|] eqn:Hs.
  - apply strip_prefix_spec in Hs. naive_solver.
  - split; [done|]. intros [rest H%strip_prefix_spec]. congruence.
Qed.

(** Where a character starts: never at a continuation byte. *)
Lemma utf8_valid_head x b : utf8_valid (x :: b) = true → utf8_cont x = false.
Proof.
  simpl. unfold utf8_cont, in_range.
  destruct (Z.ltb_spec x 0x80); [lia|].
  destruct b as [|y [|z [|w b]]]; repeat case_match; try done; lia.
Qed.

(** The decoder of a valid string resumes at a character start. *)
Lemma utf8_valid_step x b : utf8_valid (x :: b) = true →
  ∃ chunk rest, x :: b = chunk ++ rest ∧ utf8_valid rest = true ∧ chunk ≠ [] ∧
    (x < 0x80 ∧ chunk = [x] ∨ Forall (λ c, 0x80 ≤ c) chunk).
Proof.
  simpl. unfold utf8_cont, in_range. destruct (Z.ltb_spec x 0x80) as [Hx|Hx].
  { intros H. exists [x], b. naive_solver. }
  destruct b as [|y b2]; [done|]. case_match eqn:E1.
  { intros [Hy H]%andb_prop. exists [x; y], b2. split_and!; [done..|].
    right. repeat constructor; lia. }
  destruct b2 as [|z b3]; [done|]. case_match eqn:E2.
  { intros [Hyz H]%andb_prop. exists [x; y; z], b3. split_and!; [done..|].
    right. repeat constructor; lia. }
  destruct b3 as [|w b4]; [done|].
  intros [Hyz H]%andb_prop. exists [x; y; z; w], b4. split_and!; [done..|].
  right. repeat constructor; lia.
Qed.

(** After an ASCII byte of a valid string a character starts. *)
Lemma utf8_valid_after_ascii b i c d :
  utf8_valid b = true → b !! i = Some c → c < 0x80 → b !! S i = Some d → utf8_cont d = false.
Proof.
  revert i. induction b as [b IH] using (induction_ltof1 _ (@length Z)). intros i.
  unfold ltof in IH.
  destruct b as [|x b]; [done|]. intros Hv Hi Hc Hd.
  pose proof (utf8_valid_step _ _ Hv) as (chunk & rest & Heq & Hrest & Hne & Hchunk).
  rewrite Heq in Hi, Hd.
  destruct (decide (i < length chunk)%nat) as [Hlt|Hge].
  - rewrite lookup_app_l in Hi by done.
    destruct Hchunk as [[Hx ->]|Hall].
    + destruct i; [|simpl in Hlt; lia]. simpl in Hd. destruct rest as [|y rest]; [done|].
      simplify_eq/=. by eapply utf8_valid_head.
    + rewrite Forall_lookup in Hall. specialize (Hall _ _ Hi). simpl in Hall. lia.
  - rewrite lookup_app_r in Hi, Hd by lia.
    eapply (IH rest); [|done|exact Hi|done|].
    + apply (f_equal length) in Heq. rewrite length_app in Heq. simpl in Heq.
      destruct chunk; [done|]. simpl in *. lia.
    + rewrite <- Hd. f_equal. lia.
Qed.

(** ** Lemmas on big-endian words *)

Lemma length_be_bytes n v : length (be_bytes n v) = n.
Proof. induction n; simpl; auto. Qed.

Lemma blen_be_bytes n v : blen (be_bytes n v) = Z.of_nat n.
Proof. unfold blen. by rewrite length_be_bytes. Qed.

Lemma be_bytes_wf n v : bytes_wf (be_bytes n v).
Proof.
  induction n; constructor; auto.
  pose proof (Z.mod_pos_bound (v / 256 ^ Z.of_nat n) 256 ltac:(lia)).
  unfold_widths. lia.
Qed.

Lemma be_value_be_bytes n v : be_value (be_bytes n v) = v `mod` 256 ^ Z.of_nat n.
Proof.
  induction n as [|n IH]; [by rewrite Z.mod_1_r|].
  cbn [be_bytes be_value]. rewrite IH, blen_be_bytes.
  rewrite Nat2Z.inj_succ, Z.pow_succ_r by lia.
  rewrite (Z.mul_comm 256), Z.rem_mul_r by lia. lia.
Qed.

Lemma be_value_be_bytes_id n v :
  0 ≤ v < 256 ^ Z.of_nat n → be_value (be_bytes n v) = v.
Proof. intros. rewrite be_value_be_bytes. by apply Z.mod_small. Qed.

Lemma be_value_bound b : bytes_wf b → 0 ≤ be_value b < 256 ^ blen b.
Proof.
  induction 1 as [|x b Hx _ IH]; [done|].
  cbn [be_value]. rewrite blen_cons, Z.pow_add_r by (pose proof (blen_nonneg b); lia).
  unfold_widths. nia.
Qed.

Lemma be_bytes_mod n v w :
  v `mod` 256 ^ Z.of_nat n = w `mod` 256 ^ Z.of_nat n → be_bytes n v = be_bytes n w.
Proof.
  induction n as [|n IHn] in v, w |- *; intros Hvw; [done|]. cbn [be_bytes].
  rewrite Nat2Z.inj_succ, Z.pow_succ_r in Hvw by lia.
  rewrite (Z.mul_comm 256), !Z.rem_mul_r in Hvw by lia.
  pose proof (Z.mod_pos_bound v (256 ^ Z.of_nat n) ltac:(lia)).
  pose proof (Z.mod_pos_bound w (256 ^ Z.of_nat n) ltac:(lia)).
  assert ((v / 256 ^ Z.of_nat n) `mod` 256 = (w / 256 ^ Z.of_nat n) `mod` 256) by nia.
  f_equal; [done|]. apply IHn. nia.
Qed.

Lemma be_bytes_be_value b : bytes_wf b → be_bytes (length b) (be_value b) = b.
Proof.
  induction 1 as [|x b Hx Hb IH]; [done|].
  pose proof (be_value_bound b Hb) as Hv. unfold blen in Hv.
  cbn [be_value be_bytes length]. unfold blen. f_equal.
  - rewrite Z.div_add_l, Z.div_small by lia. rewrite Z.mod_small; [lia|]. unfold_widths. lia.
  - etrans; [|exact IH]. apply be_bytes_mod. rewrite Z.add_comm, Z.mod_add; [done|lia].
Qed.

(** ** Panic freedom and consumption of a decoder

    [parser Q m]: on every well-formed buffer [m] returns without panicking,
    what it leaves is a suffix of what it was given (it never reads twice and
    never past the end), and a result it returns satisfies [Q]. *)

Definition parser {E A} (Q : A → Prop) (m : st bytes E A) : Prop :=
  ∀ b, bytes_wf b →
    match m b with
    | (Ok a, b') => b' `suffix_of` b ∧ Q a
    | (Err _, b') => b' `suffix_of` b
    | (Panic, _) => False
    end.

Lemma parser_ret {E A} (Q : A → Prop) (a : A) : Q a → parser (E:=E) Q (sret a).
Proof. intros HQ b Hb. simpl. by split. Qed.

Lemma parser_fail {E A} (Q : A → Prop) (e : E) : parser Q (sfail e).
Proof. intros b Hb. simpl. done. Qed.

Lemma parser_bind {E A B} (P : A → Prop) (Q : B → Prop) (m : st bytes E A) k :
  parser P m → (∀ a, P a → parser Q (k a)) → parser Q (sbind m k).
Proof.
  intros Hm Hk b Hb. specialize (Hm b Hb). unfold sbind.
  destruct (m b) as [[a|e|] b']; [|done|done]. destruct Hm as [Hs HP].
  specialize (Hk a HP b' (suffix_wf _ _ Hs Hb)).
  destruct (k a b') as [[c|e|] b'']; [|by etrans|done].
  destruct Hk as [? ?]. split; [by etrans|done].
Qed.

Lemma parser_weaken {E A} (P Q : A → Prop) (m : st bytes E A) :
  parser P m → (∀ a, P a → Q a) → parser Q m.
Proof.
  intros Hm HPQ b Hb. specialize (Hm b Hb).
  destruct (m b) as [[a|e|] b']; naive_solver.
Qed.

Lemma parser_map_err {E F A} (Q : A → Prop) (f : E → F) (m : st bytes E A) :
  parser Q m → parser Q (smap_err f m).
Proof.
  intros Hm b Hb. specialize (Hm b Hb). unfold smap_err.
  by destruct (m b) as [[a|e|] b'].
Qed.

Lemma parser_lift {E A} (Q : A → Prop) (r : res E A) :
  match r with Ok a => Q a | Err _ => True | Panic => False end →
  parser Q (slift r).
Proof. intros H b _. unfold slift. by destruct r. Qed.

Create HintDb parser discriminated.
#[export] Hint Resolve parser_ret parser_fail parser_map_err : parser.

(** The trivial postcondition. *)
Definition any {A} : A → Prop := λ _, True.
#[export] Hint Extern 0 (any _) => exact I : parser core.

(** ** Triples

    [runs I m Q X]: from a state that satisfies [I], [m] returns without
    panicking to a state that satisfies [I]; a result satisfies [Q], an error
    satisfies [X]. *)

Definition runs {S E A} (I : S → Prop) (m : st S E A) (Q : A → Prop) (X : E → Prop) : Prop :=
  ∀ s, I s →
    match m s with
    | (Ok a, s') => I s' ∧ Q a
    | (Err e, s') => I s' ∧ X e
    | (Panic, _) => False
    end.

Section runs.
Context {S E : Type} (I : S → Prop) (X : E → Prop).

Lemma runs_ret {A} (Q : A → Prop) (a : A) : Q a → runs I (sret a) Q X.
Proof. by intros HQ s Hs. Qed.

Lemma runs_fail {A} (Q : A → Prop) (e : E) : X e → runs I (sfail e) Q X.
Proof. by intros HX s Hs. Qed.

Lemma runs_bind {A B} (P : A → Prop) (Q : B → Prop) (m : st S E A) k :
  runs I m P X → (∀ a, P a → runs I (k a) Q X) → runs I (sbind m k) Q X.
Proof.
  intros Hm Hk s Hs. specialize (Hm s Hs). unfold sbind.
  destruct (m s) as [[a|e|] s']; [|done..]. destruct Hm as [Hs' HP]. by apply Hk.
Qed.

Lemma runs_lift {A} (Q : A → Prop) (r : res E A) :
  match r with Ok a => Q a | Err e => X e | Panic => False end → runs I (slift r) Q X.
Proof. intros H s Hs. unfold slift. by destruct r. Qed.

Lemma runs_weaken {A} (P Q : A → Prop) (m : st S E A) :
  runs I m P X → (∀ a, P a → Q a) → runs I m Q X.
Proof.
  intros Hm HPQ s Hs. specialize (Hm s Hs). destruct (m s) as [[a|e|] s']; naive_solver.
Qed.

(** Reading the state. *)
Lemma runs_ask {A B} (f : S → A) (Q : B → Prop) (k : A → st S E B) :
  (∀ s, I s → runs I (k (f s)) Q X) → runs I (sbind (λ s, (Ok (f s), s)) k) Q X.
Proof. intros Hk s Hs. exact (Hk s Hs s Hs). Qed.
End runs.
