(* ===== verification/Proto.v ===== *)
(** * Protocol constants, operation codes and statuses (src/nfs4.rs)

    The NFSv4.1 numbers the client puts on the wire and compares replies
    with, the [OpCode] enumeration with its numeric codes and display names,
    and [NfsStatus].  Everything here is data; [Errors], [Ops] and [Codec]
    are written over it. *)

From S2P Require Import Prelude.

Definition NFS_PROGRAM : Z := 100003.
Definition NFS_VERSION : Z := 4.
Definition NFS_MINOR_VERSION : Z := 1.
Definition NFSPROC4_COMPOUND : Z := 1.

(** NFSv4.1 status codes. *)
Module status.

Definition OK : Z := 0.
Definition PERM : Z := 1.
Definition NOENT : Z := 2.
Definition ACCESS : Z := 13.
Definition INVAL : Z := 22.
Definition EXIST : Z := 17.
Definition DELAY : Z := 10008.
Definition GRACE : Z := 10013.
Definition NOTSUPP : Z := 10004.
Definition WRONGSEC : Z := 10016.
Definition STALE_CLIENTID : Z := 10022.
Definition BAD_STATEID : Z := 10025.
Definition NOT_SAME : Z := 10027.
Definition OP_ILLEGAL : Z := 10044.
Definition BADSESSION : Z := 10052.
Definition BADSLOT : Z := 10053.
Definition COMPLETE_ALREADY : Z := 10054.
Definition SEQ_MISORDERED : Z := 10063.
Definition BAD_HIGH_SLOT : Z := 10077.
Definition DEADSESSION : Z := 10078.
End status.

Definition NF4REG : Z := 1.
Definition NF4DIR : Z := 2.
Definition FATTR4_TYPE : Z := 1.
Definition FATTR4_SIZE : Z := 4.
Definition FATTR4_MODE : Z := 33.
Definition FATTR4_SIZE_WORD : Z := Z.shiftl 1 FATTR4_SIZE.
Definition FATTR4_TYPE_AND_SIZE_WORD : Z := (Z.lor (Z.shiftl 1 FATTR4_TYPE) FATTR4_SIZE_WORD).
Definition OPEN4_SHARE_ACCESS_WRITE : Z := 0x00000002.
Definition OPEN4_SHARE_ACCESS_WANT_NO_DELEG : Z := 0x00000400.
Definition OPEN4_SHARE_DENY_NONE : Z := 0.
Definition OPEN4_RESULT_CONFIRM : Z := 0x00000002.
Definition OPEN_CREATE : Z := 1.
Definition CREATE_GUARDED : Z := 1.
Definition CLAIM_NULL : Z := 0.
Definition OPEN_DELEGATE_NONE : Z := 0.
Definition OPEN_DELEGATE_READ : Z := 1.
Definition OPEN_DELEGATE_WRITE : Z := 2.
Definition OPEN_DELEGATE_NONE_EXT : Z := 3.
Definition WND4_CONTENTION : Z := 1.
Definition WND4_RESOURCE : Z := 2.
Definition EXCHGID4_FLAG_USE_NON_PNFS : Z := 0x00010000.
Definition SP4_NONE : Z := 0.
Definition SP4_MACH_CRED : Z := 1.
Definition SP4_SSV : Z := 2.
Definition UNSTABLE4 : Z := 0.
Definition DATA_SYNC4 : Z := 1.
Definition FILE_SYNC4 : Z := 2.
Definition CHANNEL_PAYLOAD_RESERVE : Z := 1024.
Definition DEFAULT_MAX_RESPONSE_SIZE : Z := 1024 * 1024 + CHANNEL_PAYLOAD_RESERVE.
Definition READDIR_ENTRY_BYTE_HINT : Z := 512.
Definition MAX_FUSED_PUT_BYTES : Z := 128 * 1024.
Definition READDIR_DECODE_PREALLOC_LIMIT : Z := 256.
Definition READDIR_MIN_HINT_BYTES : Z := 4096.
Definition NFS4_FHSIZE : Z := 128.
Definition SEQUENCE_RESULT_LEN : Z := 16 + 5 * 4.
Definition MIN_SEQUENCE_COMPOUND_RESPONSE_SIZE : Z := 24 + 12 + 8 + SEQUENCE_RESULT_LEN.
Definition CHANGE_INFO_AFTER_ATOMIC_LEN : Z := 2 * 8.
Definition IMPLEMENTATION_ID_TIMESTAMP_LEN : Z := 8 + 4.
Definition IMPLEMENTATION_ID_MIN_LEN : Z := 4 + 4 + IMPLEMENTATION_ID_TIMESTAMP_LEN.
Definition OPEN_OWNER_PREFIX : str := str_of "nfs-crust-open-".
Definition DEFERRED_CLOSE_QUEUE_CAPACITY : Z := 256.
Definition MAX_DEFERRED_CLOSE_BATCH : Z := 16.
Definition SEQ4_STATUS_CB_PATH_DOWN : Z := 0x00000001.
Definition SEQ4_STATUS_CB_GSS_CONTEXTS_EXPIRING : Z := 0x00000002.
Definition SEQ4_STATUS_CB_GSS_CONTEXTS_EXPIRED : Z := 0x00000004.
Definition SEQ4_STATUS_EXPIRED_ALL_STATE_REVOKED : Z := 0x00000008.
Definition SEQ4_STATUS_EXPIRED_SOME_STATE_REVOKED : Z := 0x00000010.
Definition SEQ4_STATUS_ADMIN_STATE_REVOKED : Z := 0x00000020.
Definition SEQ4_STATUS_RECALLABLE_STATE_REVOKED : Z := 0x00000040.
Definition SEQ4_STATUS_LEASE_MOVED : Z := 0x00000080.
Definition SEQ4_STATUS_RESTART_RECLAIM_NEEDED : Z := 0x00000100.
Definition SEQ4_STATUS_CB_PATH_DOWN_SESSION : Z := 0x00000200.
Definition SEQ4_STATUS_BACKCHANNEL_FAULT : Z := 0x00000400.
Definition SEQ4_STATUS_DEVID_CHANGED : Z := 0x00000800.
Definition SEQ4_STATUS_DEVID_DELETED : Z := 0x00001000.
Definition SEQ4_STATUS_KNOWN : Z := (Z.lor (Z.lor (Z.lor (Z.lor (Z.lor (Z.lor (Z.lor (Z.lor (Z.lor (Z.lor (Z.lor (Z.lor SEQ4_STATUS_CB_PATH_DOWN SEQ4_STATUS_CB_GSS_CONTEXTS_EXPIRING) SEQ4_STATUS_CB_GSS_CONTEXTS_EXPIRED) SEQ4_STATUS_EXPIRED_ALL_STATE_REVOKED) SEQ4_STATUS_EXPIRED_SOME_STATE_REVOKED) SEQ4_STATUS_ADMIN_STATE_REVOKED) SEQ4_STATUS_RECALLABLE_STATE_REVOKED) SEQ4_STATUS_LEASE_MOVED) SEQ4_STATUS_RESTART_RECLAIM_NEEDED) SEQ4_STATUS_CB_PATH_DOWN_SESSION) SEQ4_STATUS_BACKCHANNEL_FAULT) SEQ4_STATUS_DEVID_CHANGED) SEQ4_STATUS_DEVID_DELETED).
Definition SEQ4_STATUS_STATE_LOST : Z := (Z.lor (Z.lor (Z.lor SEQ4_STATUS_EXPIRED_ALL_STATE_REVOKED SEQ4_STATUS_EXPIRED_SOME_STATE_REVOKED) SEQ4_STATUS_ADMIN_STATE_REVOKED) SEQ4_STATUS_RECALLABLE_STATE_REVOKED).

Module OpCode.

Inductive t : Type :=
| Access
| Close
| Commit
| Create
| DelegPurge
| DelegReturn
| GetAttr
| GetFh
| Link
| Lock
| LockT
| LockU
| Lookup
| LookupP
| NVerify
| Open
| OpenAttr
| OpenConfirm
| OpenDowngrade
| PutFh
| PutPubFh
| PutRootFh
| Read
| ReadDir
| ReadLink
| Remove
| Rename
| Renew
| RestoreFh
| SaveFh
| SecInfo
| SetAttr
| SetClientId
| SetClientIdConfirm
| Verify
| Write
| ReleaseLockOwner
| BackchannelCtl
| BindConnToSession
| ExchangeId
| CreateSession
| DestroySession
| FreeStateId
| GetDirDelegation
| GetDeviceInfo
| GetDeviceList
| LayoutCommit
| LayoutGet
| LayoutReturn
| SecInfoNoName
| Sequence
| SetSsv
| TestStateId
| WantDelegation
| DestroyClientId
| ReclaimComplete
| Illegal.

(** [op as u32] *)
Definition as_u32 (op : t) : Z :=
  match op with
  | Access => 3
  | Close => 4
  | Commit => 5
  | Create => 6
  | DelegPurge => 7
  | DelegReturn => 8
  | GetAttr => 9
  | GetFh => 10
  | Link => 11
  | Lock => 12
  | LockT => 13
  | LockU => 14
  | Lookup => 15
  | LookupP => 16
  | NVerify => 17
  | Open => 18
  | OpenAttr => 19
  | OpenConfirm => 20
  | OpenDowngrade => 21
  | PutFh => 22
  | PutPubFh => 23
  | PutRootFh => 24
  | Read => 25
  | ReadDir => 26
  | ReadLink => 27
  | Remove => 28
  | Rename => 29
  | Renew => 30
  | RestoreFh => 31
  | SaveFh => 32
  | SecInfo => 33
  | SetAttr => 34
  | SetClientId => 35
  | SetClientIdConfirm => 36
  | Verify => 37
  | Write => 38
  | ReleaseLockOwner => 39
  | BackchannelCtl => 40
  | BindConnToSession => 41
  | ExchangeId => 42
  | CreateSession => 43
  | DestroySession => 44
  | FreeStateId => 45
  | GetDirDelegation => 46
  | GetDeviceInfo => 47
  | GetDeviceList => 48
  | LayoutCommit => 49
  | LayoutGet => 50
  | LayoutReturn => 51
  | SecInfoNoName => 52
  | Sequence => 53
  | SetSsv => 54
  | TestStateId => 55
  | WantDelegation => 56
  | DestroyClientId => 57
  | ReclaimComplete => 58
  | Illegal => 10044
  end.

(** The match of [OpCode::from_u32]; the error it returns on an unknown value
    is added in [Types], where [Error] is available. *)
Definition of_u32 (value : Z) : option t :=
  match value with
  | 3 => Some Access
  | 4 => Some Close
  | 5 => Some Commit
  | 6 => Some Create
  | 7 => Some DelegPurge
  | 8 => Some DelegReturn
  | 9 => Some GetAttr
  | 10 => Some GetFh
  | 11 => Some Link
  | 12 => Some Lock
  | 13 => Some LockT
  | 14 => Some LockU
  | 15 => Some Lookup
  | 16 => Some LookupP
  | 17 => Some NVerify
  | 18 => Some Open
  | 19 => Some OpenAttr
  | 20 => Some OpenConfirm
  | 21 => Some OpenDowngrade
  | 22 => Some PutFh
  | 23 => Some PutPubFh
  | 24 => Some PutRootFh
  | 25 => Some Read
  | 26 => Some ReadDir
  | 27 => Some ReadLink
  | 28 => Some Remove
  | 29 => Some Rename
  | 30 => Some Renew
  | 31 => Some RestoreFh
  | 32 => Some SaveFh
  | 33 => Some SecInfo
  | 34 => Some SetAttr
  | 35 => Some SetClientId
  | 36 => Some SetClientIdConfirm
  | 37 => Some Verify
  | 38 => Some Write
  | 39 => Some ReleaseLockOwner
  | 40 => Some BackchannelCtl
  | 41 => Some BindConnToSession
  | 42 => Some ExchangeId
  | 43 => Some CreateSession
  | 44 => Some DestroySession
  | 45 => Some FreeStateId
  | 46 => Some GetDirDelegation
  | 47 => Some GetDeviceInfo
  | 48 => Some GetDeviceList
  | 49 => Some LayoutCommit
  | 50 => Some LayoutGet
  | 51 => Some LayoutReturn
  | 52 => Some SecInfoNoName
  | 53 => Some Sequence
  | 54 => Some SetSsv
  | 55 => Some TestStateId
  | 56 => Some WantDelegation
  | 57 => Some DestroyClientId
  | 58 => Some ReclaimComplete
  | 10044 => Some Illegal
  | _ => None
  end.

Definition name (op : t) : string :=
  match op with
  | Access => "ACCESS"
  | Close => "CLOSE"
  | Commit => "COMMIT"
  | Create => "CREATE"
  | DelegPurge => "DELEGPURGE"
  | DelegReturn => "DELEGRETURN"
  | GetAttr => "GETATTR"
  | GetFh => "GETFH"
  | Link => "LINK"
  | Lock => "LOCK"
  | LockT => "LOCKT"
  | LockU => "LOCKU"
  | Lookup => "LOOKUP"
  | LookupP => "LOOKUPP"
  | NVerify => "NVERIFY"
  | Open => "OPEN"
  | OpenAttr => "OPENATTR"
  | OpenConfirm => "OPEN_CONFIRM"
  | OpenDowngrade => "OPEN_DOWNGRADE"
  | PutFh => "PUTFH"
  | PutPubFh => "PUTPUBFH"
  | PutRootFh => "PUTROOTFH"
  | Read => "READ"
  | ReadDir => "READDIR"
  | ReadLink => "READLINK"
  | Remove => "REMOVE"
  | Rename => "RENAME"
  | Renew => "RENEW"
  | RestoreFh => "RESTOREFH"
  | SaveFh => "SAVEFH"
  | SecInfo => "SECINFO"
  | SetAttr => "SETATTR"
  | SetClientId => "SETCLIENTID"
  | SetClientIdConfirm => "SETCLIENTID_CONFIRM"
  | Verify => "VERIFY"
  | Write => "WRITE"
  | ReleaseLockOwner => "RELEASE_LOCKOWNER"
  | BackchannelCtl => "BACKCHANNEL_CTL"
  | BindConnToSession => "BIND_CONN_TO_SESSION"
  | ExchangeId => "EXCHANGE_ID"
  | CreateSession => "CREATE_SESSION"
  | DestroySession => "DESTROY_SESSION"
  | FreeStateId => "FREE_STATEID"
  | GetDirDelegation => "GET_DIR_DELEGATION"
  | GetDeviceInfo => "GETDEVICEINFO"
  | GetDeviceList => "GETDEVICELIST"
  | LayoutCommit => "LAYOUTCOMMIT"
  | LayoutGet => "LAYOUTGET"
  | LayoutReturn => "LAYOUTRETURN"
  | SecInfoNoName => "SECINFO_NO_NAME"
  | Sequence => "SEQUENCE"
  | SetSsv => "SET_SSV"
  | TestStateId => "TEST_STATEID"
  | WantDelegation => "WANT_DELEGATION"
  | DestroyClientId => "DESTROY_CLIENTID"
  | ReclaimComplete => "RECLAIM_COMPLETE"
  | Illegal => "ILLEGAL"
  end.

(** Every operation code, for finite case analysis. *)
Definition all : list t :=
  [Access; Close; Commit; Create; DelegPurge; DelegReturn; GetAttr; GetFh; Link; Lock; LockT; LockU; Lookup; LookupP; NVerify; Open; OpenAttr; OpenConfirm; OpenDowngrade; PutFh; PutPubFh; PutRootFh; Read; ReadDir; ReadLink; Remove; Rename; Renew; RestoreFh; SaveFh; SecInfo; SetAttr; SetClientId; SetClientIdConfirm; Verify; Write; ReleaseLockOwner; BackchannelCtl; BindConnToSession; ExchangeId; CreateSession; DestroySession; FreeStateId; GetDirDelegation; GetDeviceInfo; GetDeviceList; LayoutCommit; LayoutGet; LayoutReturn; SecInfoNoName; Sequence; SetSsv; TestStateId; WantDelegation; DestroyClientId; ReclaimComplete; Illegal].

Lemma of_u32_as_u32 op : of_u32 (as_u32 op) = Some op.
Proof. by destruct op. Qed.

Lemma as_u32_inj op1 op2 : as_u32 op1 = as_u32 op2 → op1 = op2.
Proof. intros H. apply (f_equal of_u32) in H. rewrite !of_u32_as_u32 in H. by injection H. Qed.

#[global] Instance eq_dec : EqDecision t.
Proof.
  intros op1 op2. destruct (decide (as_u32 op1 = as_u32 op2)) as [H|H].
  - left. by apply as_u32_inj.
  - right. by intros ->.
Defined.

Lemma as_u32_range op : is_u32 (as_u32 op).
Proof. destruct op; unfold_widths; simpl; lia. Qed.

(** [name] read backwards: the first operation with that display name. *)
Definition of_name (s : string) : option t :=
  snd <$> list_find (λ op, name op = s) all.

Lemma of_name_name op : of_name (name op) = Some op.
Proof. by destruct op. Qed.

Lemma name_inj op1 op2 : name op1 = name op2 → op1 = op2.
Proof. intros H. apply (f_equal of_name) in H. rewrite !of_name_name in H. by injection H. Qed.

End OpCode.

(** [struct NfsStatus(u32)] *)
Abbreviation NfsStatus := Z (only parsing).

Module NfsStatus.

Definition NOENT : NfsStatus := status.NOENT.
Definition EXIST : NfsStatus := status.EXIST.
Definition DELAY : NfsStatus := status.DELAY.
Definition GRACE : NfsStatus := status.GRACE.
Definition COMPLETE_ALREADY : NfsStatus := status.COMPLETE_ALREADY.

Definition code (s : NfsStatus) : Z := s.
Definition is_ok (s : NfsStatus) : bool := s =? status.OK.

Lemma is_ok_spec s : is_ok s = true ↔ s = 0.
Proof. unfold is_ok, status.OK. lia. Qed.

End NfsStatus.

(** [fused_put_size_viable] *)
Definition fused_put_size_viable (len write_chunk_size : Z) : bool :=
  (len <=? write_chunk_size) && (len <=? MAX_FUSED_PUT_BYTES).
