(* ===== verification/Errors.v ===== *)
(** * Errors (src/error.rs)

    The public [Error] enum with its constructors, the internal builders, and
    the classification every retry and every outcome decision rests on:
    [is_retryable], [requires_session_rebuild], [is_nfs_error] and relatives.

    A human-readable message is carried as the literal template of the source
    (the string given to [format!]); the values interpolated into it are only
    ever displayed, no code reads them back.  Everything a program can observe
    (status codes, operation names, paths, sizes, timeouts, the wrapped error)
    is carried in full. *)

From S2P Require Import Prelude Proto.

(** [Duration], in nanoseconds. *)
Abbreviation Duration := Z (only parsing).

Module Error.

Inductive t : Type :=
| Io (kind : string)
| Rpc (message : string)
| ConnectionLost (message : string)
| RequestNotSent (source : t)
| Xdr (message : string)
| Nfs (status_code : Z) (operation : string)
| Protocol (message : string)
| InvalidPath (message : string)
| AlreadyExists (path : str)
| OutcomeUnknown (operation : string) (path : str) (reason : string)
| FileSizeMismatch (expected : Z) (actual : option Z)
| InvalidConfig (message : string)
| Unsupported (message : string)
| Timeout (timeout : Duration)
| BufferedReadTooLarge (size : option Z) (limit : Z).

Definition protocol (message : string) : t := Protocol message.
Definition rpc (message : string) : t := Rpc message.
Definition connection_lost (message : string) : t := ConnectionLost message.
Definition xdr (message : string) : t := Xdr message.
Definition invalid_config (message : string) : t := InvalidConfig message.
Definition already_exists (path : str) : t := AlreadyExists path.
Definition outcome_unknown (operation : string) (path : str) (reason : string) : t :=
  OutcomeUnknown operation path reason.
Definition file_size_mismatch (expected : Z) (actual : option Z) : t :=
  FileSizeMismatch expected actual.
Definition nfs (s : NfsStatus) (op : OpCode.t) : t :=
  Nfs (NfsStatus.code s) (OpCode.name op).

Definition request_not_sent (source : t) : t :=
  match source with
  | RequestNotSent _ => source
  | source => RequestNotSent source
  end.

Definition is_nfs_status (e : t) (s : NfsStatus) : bool :=
  match e with
  | Nfs status_code _ => status_code =? NfsStatus.code s
  | _ => false
  end.

Definition is_nfs_error (e : t) (s : NfsStatus) (op : OpCode.t) : bool :=
  match e with
  | Nfs status_code operation =>
      (status_code =? NfsStatus.code s) && String.eqb operation (OpCode.name op)
  | _ => false
  end.

Definition is_nfs_operation (e : t) (op : OpCode.t) : bool :=
  match e with
  | Nfs _ operation => String.eqb operation (OpCode.name op)
  | _ => false
  end.

(** The status codes [is_retryable] lists. *)
Definition retryable_status (c : Z) : bool :=
  (c =? status.DELAY) || (c =? status.GRACE) || (c =? status.STALE_CLIENTID)
  || (c =? status.BADSESSION) || (c =? status.BADSLOT) || (c =? status.SEQ_MISORDERED)
  || (c =? status.BAD_HIGH_SLOT) || (c =? status.DEADSESSION).

Fixpoint is_retryable (e : t) : bool :=
  match e with
  | Io _ | ConnectionLost _ | Timeout _ => true
  | RequestNotSent source => is_retryable source
  | Nfs status_code _ => retryable_status status_code
  | _ => false
  end.

(** The status codes [requires_session_rebuild] lists. *)
Definition rebuild_status (c : Z) : bool :=
  (c =? status.STALE_CLIENTID) || (c =? status.BADSESSION) || (c =? status.BADSLOT)
  || (c =? status.SEQ_MISORDERED) || (c =? status.BAD_HIGH_SLOT) || (c =? status.DEADSESSION).

Fixpoint requires_session_rebuild (e : t) : bool :=
  match e with
  | Io _ | ConnectionLost _ | Timeout _ => true
  | RequestNotSent source => requires_session_rebuild source
  | Nfs status_code _ => rebuild_status status_code
  | _ => false
  end.

Definition with_close_failure (self close_err : t) : t :=
  let message := "{self}; additionally failed to close NFS file: {close_err}"%string in
  if requires_session_rebuild self || requires_session_rebuild close_err then
    connection_lost message
  else if is_retryable self then self
  else if is_retryable close_err then close_err
  else protocol message.

Definition is_not_found (e : t) : bool :=
  is_nfs_error e NfsStatus.NOENT OpCode.Lookup
  || is_nfs_error e NfsStatus.NOENT OpCode.Open
  || is_nfs_error e NfsStatus.NOENT OpCode.Remove.

Definition is_permission_denied (e : t) : bool :=
  match e with
  | Nfs c _ => (c =? status.PERM) || (c =? status.ACCESS) || (c =? status.WRONGSEC)
  | _ => false
  end.

Definition is_outcome_unknown (e : t) : bool :=
  match e with OutcomeUnknown _ _ _ => true | _ => false end.

Definition is_request_not_sent (e : t) : bool :=
  match e with RequestNotSent _ => true | _ => false end.

Definition is_buffered_read_too_large (e : t) : bool :=
  match e with BufferedReadTooLarge _ _ => true | _ => false end.

Definition nfs_status_code (e : t) : option Z :=
  match e with Nfs c _ => Some c | _ => None end.

Definition nfs_operation (e : t) : option string :=
  match e with Nfs _ op => Some op | _ => None end.

(** ** Facts shared by the clients of the classification *)

Lemma is_nfs_operation_nfs s op op' :
  is_nfs_operation (nfs s op) op' = bool_decide (op = op').
Proof.
  unfold is_nfs_operation, nfs. destruct (String.eqb_spec (OpCode.name op) (OpCode.name op')) as [H|H].
  - apply OpCode.name_inj in H. by rewrite bool_decide_eq_true_2.
  - rewrite bool_decide_eq_false_2; [done|]. by intros ->.
Qed.

Lemma is_nfs_error_nfs s op s' op' :
  is_nfs_error (nfs s op) s' op' = bool_decide (s = s' ∧ op = op').
Proof.
  unfold is_nfs_error, nfs, NfsStatus.code.
  destruct (String.eqb_spec (OpCode.name op) (OpCode.name op')) as [H|H].
  - apply OpCode.name_inj in H. subst. rewrite andb_true_r.
    destruct (Z.eqb_spec s s'); [rewrite bool_decide_eq_true_2|rewrite bool_decide_eq_false_2]; naive_solver.
  - rewrite andb_false_r, bool_decide_eq_false_2; [done|]. by intros [_ ->].
Qed.

Lemma rebuild_status_retryable c : rebuild_status c = true → retryable_status c = true.
Proof. unfold rebuild_status, retryable_status. lia. Qed.

Lemma rebuild_retryable e : requires_session_rebuild e = true → is_retryable e = true.
Proof. induction e; simpl; auto using rebuild_status_retryable. Qed.

(** A retryable error that does not need a new session is a transient status:
    the server asked the client to wait and issue the same call again. *)
Lemma retryable_without_rebuild e :
  is_retryable e = true → requires_session_rebuild e = false →
  ∃ c op, (c = status.DELAY ∨ c = status.GRACE) ∧
          (e = Nfs c op ∨ ∃ e', e = RequestNotSent e' ∧ is_retryable e' = true).
Proof.
  destruct e; simpl; try discriminate; intros Hr Hb.
  - exists status.DELAY, ""%string. split; [by left|]. right. eauto.
  - exists status_code, operation. split; [|by left].
    unfold retryable_status, rebuild_status in *. lia.
Qed.

Lemma request_not_sent_flag e : is_request_not_sent (request_not_sent e) = true.
Proof. by destruct e. Qed.

Lemma request_not_sent_retryable e : is_retryable (request_not_sent e) = is_retryable e.
Proof. by destruct e. Qed.

Lemma request_not_sent_rebuild e :
  requires_session_rebuild (request_not_sent e) = requires_session_rebuild e.
Proof. by destruct e. Qed.

(** How [with_close_failure] combines the two errors: the combination needs a
    rebuild exactly when one of them does, and is retryable exactly when one
    of them is. *)
Lemma with_close_failure_rebuild e c :
  requires_session_rebuild (with_close_failure e c)
  = requires_session_rebuild e || requires_session_rebuild c.
Proof.
  unfold with_close_failure.
  destruct (requires_session_rebuild e) eqn:He, (requires_session_rebuild c) eqn:Hc; simpl; try done.
  destruct (is_retryable e); [done|]. destruct (is_retryable c); [done|reflexivity].
Qed.

Lemma with_close_failure_retryable e c :
  is_retryable (with_close_failure e c) = is_retryable e || is_retryable c.
Proof.
  unfold with_close_failure.
  destruct (requires_session_rebuild e) eqn:He; simpl.
  { by rewrite (rebuild_retryable _ He). }
  destruct (requires_session_rebuild c) eqn:Hc; simpl.
  { rewrite (rebuild_retryable _ Hc). by rewrite orb_true_r. }
  destruct (is_retryable e) eqn:Hre; [done|]. by destruct (is_retryable c) eqn:Hrc.
Qed.

End Error.
