(* ===== verification/Path.v ===== *)
(** * Export-relative paths (src/path.rs)

    [parse_components] walks the bytes of a path with an index and the start
    of the current component, exactly as the source does; [scan_list] is the
    same walk over lists, without indices, and [scan_refines] relates the two
    for every string that is valid UTF-8 (a Rust [&str] always is), including
    that no slice of the source panics. *)

From S2P Require Import Prelude Proto Errors.

Definition slash : Z := 47.
Definition TEMP_FILE_PREFIX : str := str_of ".nfs-crust-tmp-".

Record NfsPath := { components : list str }.

Module path.

(** [while start < bytes.len() && bytes[start] == b'/' { start += 1 }] *)
Fixpoint trim_start (b : bytes) : nat :=
  match b with
  | x :: rest => if x =? slash then S (trim_start rest) else 0
  | [] => 0
  end.

(** [while end > start && bytes[end - 1] == b'/' { end -= 1 }] *)
Fixpoint trim_end (b : bytes) (start end_ : nat) : nat :=
  match end_ with
  | O => O
  | S e =>
      if (start <? end_)%nat && bool_decide (b !! e = Some slash)
      then trim_end b start e
      else end_
  end.

Definition push_component (value : str) (start end_ : nat) (comps : list str)
    : res Error.t (list str) :=
  let? component := slice_str value start end_ in
  if str_eqb component (str_of ".") || str_eqb component (str_of "..") then
    Err (Error.InvalidPath "reserved path component {component:?} is not valid in paths")
  else Ok (comps ++ [component]).

(** The [for (offset, byte) in bytes[start..end].iter().enumerate()] loop:
    [rest] is what remains of the slice, [index] the position of its head. *)
Fixpoint scan (value : str) (rest : bytes) (index component_start : nat) (comps : list str)
    : res Error.t (nat * list str) :=
  match rest with
  | [] => Ok (component_start, comps)
  | x :: rest' =>
      if x =? 0 then Err (Error.InvalidPath "NUL bytes are not valid in paths")
      else if x =? slash then
        if (index =? component_start)%nat then
          Err (Error.InvalidPath "empty path components are not valid paths")
        else
          let? comps' := push_component value component_start index comps in
          scan value rest' (S index) (S index) comps'
      else scan value rest' (S index) component_start comps
  end.

Definition parse_components (value : str) : res Error.t NfsPath :=
  let start := trim_start value in
  let end_ := trim_end value start (length value) in
  if (start =? end_)%nat then Ok {| components := [] |}
  else
    let? (component_start, comps) :=
      scan value (take (end_ - start) (drop start value)) start start [] in
    let? comps' := push_component value component_start end_ comps in
    Ok {| components := comps' |}.

Definition validate_user_components (comps : list str) : res Error.t unit :=
  match list_find (λ c, starts_with TEMP_FILE_PREFIX c = true) comps with
  | Some _ =>
      Err (Error.InvalidPath
        "path component {component:?} uses the reserved nfs-crust temporary-file namespace")
  | None => Ok tt
  end.

Definition file (value : str) : res Error.t NfsPath :=
  let? parsed := parse_components value in
  match components parsed with
  | [] => Err (Error.InvalidPath "file path must not be empty")
  | _ => let? _ := validate_user_components (components parsed) in Ok parsed
  end.

Definition directory (value : str) : res Error.t NfsPath :=
  let? parsed := parse_components value in
  let? _ := validate_user_components (components parsed) in
  Ok parsed.

(** [split_last] *)
Definition parent_and_name (p : NfsPath) : res Error.t (list str * str) :=
  match last (components p) with
  | Some name => Ok (removelast (components p), name)
  | None => Err (Error.InvalidPath "file path must not be empty")
  end.

Definition parse_export (export : str) : res Error.t NfsPath := parse_components export.

(** ** Specification: what a component is, and what a path denotes *)

Definition good_component (c : str) : Prop :=
  c ≠ [] ∧ (c ≠ str_of ".") ∧ (c ≠ str_of "..") ∧ (slash ∉ c) ∧ (0 ∉ c).

Fixpoint join (comps : list str) : str :=
  match comps with
  | [] => []
  | [c] => c
  | c :: rest => c ++ slash :: join rest
  end.

(** ** The walk over lists *)

Definition push_list (cur : str) (comps : list str) : res Error.t (list str) :=
  if str_eqb cur (str_of ".") || str_eqb cur (str_of "..") then
    Err (Error.InvalidPath "reserved path component {component:?} is not valid in paths")
  else Ok (comps ++ [cur]).

Fixpoint scan_list (cur : str) (rest : bytes) (comps : list str) : res Error.t (list str) :=
  match rest with
  | [] => push_list cur comps
  | x :: rest' =>
      if x =? 0 then Err (Error.InvalidPath "NUL bytes are not valid in paths")
      else if x =? slash then
        match cur with
        | [] => Err (Error.InvalidPath "empty path components are not valid paths")
        | _ => let? comps' := push_list cur comps in scan_list [] rest' comps'
        end
      else scan_list (cur ++ [x]) rest' comps
  end.

(** A cut next to an ASCII byte, or at an end of the string, is on a character
    boundary. *)
Lemma boundary_after_ascii (pre post : bytes) c :
  utf8_valid (pre ++ c :: post) = true → c < 0x80 →
  is_char_boundary (pre ++ c :: post) (length (pre ++ [c])) = true.
Proof.
  intros Hv Hc. unfold is_char_boundary. case_match; [done|]. case_match; [done|].
  destruct ((pre ++ c :: post) !! length (pre ++ [c])) as [d|] eqn:Hd.
  - rewrite (utf8_valid_after_ascii _ (length pre) c d Hv); [done| |done|].
    + by rewrite list_lookup_middle.
    + rewrite <- Hd. f_equal. rewrite length_app. simpl. lia.
  - apply lookup_ge_None in Hd. rewrite !length_app in *. simpl in *.
    destruct post; simpl in *; try lia.
    match goal with H : (_ =? _)%nat = false |- _ => apply Nat.eqb_neq in H end. lia.
Qed.

Lemma boundary_at_ascii (pre post : bytes) c :
  c < 0x80 → is_char_boundary (pre ++ c :: post) (length pre) = true.
Proof.
  intros Hc. unfold is_char_boundary. case_match; [done|]. case_match; [done|].
  rewrite list_lookup_middle by done. unfold utf8_cont.
  destruct (Z.leb_spec 0x80 c); [lia|done].
Qed.

Lemma slice_middle (pre cur post : bytes) :
  is_char_boundary (pre ++ cur ++ post) (length pre) = true →
  is_char_boundary (pre ++ cur ++ post) (length (pre ++ cur)) = true →
  @slice_str Error.t (pre ++ cur ++ post) (length pre) (length (pre ++ cur)) = Ok cur.
Proof.
  intros H1 H2. unfold slice_str. rewrite H1, H2, !length_app.
  rewrite (proj2 (Nat.leb_le _ _)), (proj2 (Nat.leb_le _ _)) by lia. simpl.
  rewrite drop_app_length. do 2 f_equal. replace (_ - _)%nat with (length cur) by lia.
  by rewrite take_app_length.
Qed.

Lemma push_component_slice value pre cur post comps :
  value = pre ++ cur ++ post →
  is_char_boundary value (length pre) = true →
  is_char_boundary value (length (pre ++ cur)) = true →
  push_component value (length pre) (length (pre ++ cur)) comps = push_list cur comps.
Proof. intros -> H1 H2. unfold push_component. by rewrite slice_middle. Qed.

Lemma boundary_end (pre post : bytes) :
  (post = [] ∨ ∃ post', post = slash :: post') →
  is_char_boundary (pre ++ post) (length pre) = true.
Proof.
  intros [->|[post' ->]]; [|by apply boundary_at_ascii].
  unfold is_char_boundary. rewrite app_nil_r, Nat.eqb_refl. by case_match.
Qed.

Lemma scan_refines value pre cur rest post comps :
  value = pre ++ cur ++ rest ++ post →
  utf8_valid value = true →
  is_char_boundary value (length pre) = true →
  (post = [] ∨ ∃ post', post = slash :: post') →
  (let? (component_start, comps') :=
     scan value rest (length (pre ++ cur)) (length pre) comps in
   push_component value component_start (length (pre ++ cur ++ rest)) comps')
  = scan_list cur rest comps.
Proof.
  induction rest as [|x rest IH] in pre, cur, comps |- *; intros Hval Hv Hb Hpost; simpl.
  { rewrite app_nil_r. apply (push_component_slice _ _ _ post); [done..|].
    rewrite Hval, app_assoc. simpl. by apply boundary_end. }
  destruct (Z.eqb_spec x 0) as [->|Hx0]; [done|].
  destruct (Z.eqb_spec x slash) as [->|Hxs]; simpl.
  - assert (value = (pre ++ cur) ++ slash :: rest ++ post) as Hval' by (rewrite Hval; by rewrite <- !app_assoc).
    destruct cur as [|c cur]; simpl.
    { rewrite app_nil_r, Nat.eqb_refl. done. }
    case_match eqn:Heq.
    { apply Nat.eqb_eq in Heq. rewrite length_app in Heq. simpl in Heq. lia. }
    rewrite (push_component_slice value pre (c :: cur) (slash :: rest ++ post)); [|done|done|].
    2:{ rewrite Hval'. by apply boundary_at_ascii. }
    destruct (push_list (c :: cur) comps) as [comps'|e|]; simpl; [|done|done].
    rewrite <- (IH (pre ++ (c :: cur) ++ [slash]) [] comps'); simpl.
    + rewrite !app_nil_r. rewrite !length_app. simpl. rewrite !length_app. simpl.
      replace (S (length pre + S (length cur)))%nat with (length pre + S (length cur + 1))%nat by lia.
      destruct (scan value rest _ _ comps') as [[cs cs']|e|]; simpl; [|done|done].
      f_equal. lia.
    + rewrite Hval'. rewrite <- !app_assoc. simpl. by rewrite <- !app_assoc.
    + done.
    + replace (pre ++ c :: cur ++ [slash]) with ((pre ++ c :: cur) ++ [slash])
        by (by rewrite <- app_assoc).
      rewrite Hval'. apply boundary_after_ascii; [by rewrite <- Hval'|done].
    + done.
  - rewrite <- (IH pre (cur ++ [x]) comps); [|by rewrite Hval, <- !app_assoc|done..].
    rewrite <- !app_assoc. simpl. rewrite !length_app. simpl.
    replace (S (length pre + length cur))%nat with (length pre + (length cur + 1))%nat by lia.
    done.
Qed.

(** Trimming removes exactly the slashes at both ends. *)
Lemma trim_start_spec b :
  ∃ rest, b = replicate (trim_start b) slash ++ rest ∧ head rest ≠ Some slash.
Proof.
  induction b as [|x b IH]; simpl; [by exists []|].
  destruct (Z.eqb_spec x slash) as [->|Hx]; simpl.
  - destruct IH as (rest & Hb & Hh). exists rest. split; [by rewrite <- Hb|done].
  - exists (x :: b). naive_solver.
Qed.

Lemma trim_end_spec (pre mid : bytes) n :
  (n ≤ length mid)%nat →
  ∃ m k, (n = length m + k)%nat ∧ take n mid = m ++ replicate k slash ∧ last m ≠ Some slash ∧
    trim_end (pre ++ mid) (length pre) (length pre + n) = (length pre + length m)%nat.
Proof.
  induction n as [|n IH]; intros Hn.
  { exists [], 0%nat. rewrite Nat.add_0_r. simpl. split_and!; [done..|].
    destruct (length pre) as [|p] eqn:Hp; [done|]. simpl.
    by rewrite (proj2 (Nat.ltb_ge _ _)) by lia. }
  destruct (lookup_lt_is_Some_2 mid n ltac:(lia)) as [x Hx].
  rewrite Nat.add_succ_r. cbn [trim_end]. rewrite (proj2 (Nat.ltb_lt _ _)) by lia.
  rewrite lookup_app_r by lia. replace (length pre + n - length pre)%nat with n by lia.
  rewrite Hx. rewrite (take_S_r _ _ _ Hx). simpl.
  destruct (decide (x = slash)) as [->|Hne].
  - rewrite bool_decide_eq_true_2 by done.
    destruct (IH ltac:(lia)) as (m & k & Hl & Ht & Hlast & He).
    exists m, (S k). split_and!; [lia| |done|done].
    rewrite Ht, <- app_assoc. f_equal. by rewrite <- replicate_cons_app.
  - rewrite bool_decide_eq_false_2 by congruence.
    exists (take n mid ++ [x]), 0%nat. rewrite last_snoc, length_app, length_take. simpl.
    split_and!; [lia|by rewrite app_nil_r|congruence|lia].
Qed.

Lemma boundary_after_slashes k (post : bytes) :
  utf8_valid (replicate k slash ++ post) = true →
  is_char_boundary (replicate k slash ++ post) (length (replicate k slash)) = true.
Proof.
  destruct k as [|k]; [done|]. rewrite replicate_S_end. intros Hv.
  rewrite <- app_assoc in *. simpl in *. by apply boundary_after_ascii.
Qed.

(** The parser is the list walk over the path without its outer slashes. *)
Lemma parse_components_scan value :
  utf8_valid value = true →
  ∃ k mid j, value = replicate k slash ++ mid ++ replicate j slash ∧
    head mid ≠ Some slash ∧ last mid ≠ Some slash ∧
    parse_components value =
      match mid with
      | [] => Ok {| components := [] |}
      | _ => let? comps := scan_list [] mid [] in Ok {| components := comps |}
      end.
Proof.
  intros Hv. destruct (trim_start_spec value) as (rest & Hval & Hhead).
  set (k := trim_start value) in *.
  destruct (trim_end_spec (replicate k slash) rest (length rest)) as (m & j & Hl & Ht & Hlast & He); [lia|].
  rewrite take_ge in Ht by lia. rewrite length_replicate in He.
  exists k, m, j. rewrite <- Ht. split_and!; [done| |done|].
  { rewrite Ht in Hhead. destruct m; [done|]. by simpl in *. }
  unfold parse_components. fold k.
  replace (length value) with (k + length rest)%nat by (rewrite Hval, length_app, length_replicate; lia).
  rewrite <- Hval in He. rewrite He. destruct m as [|x m].
  { simpl. rewrite Nat.add_0_r. by rewrite Nat.eqb_refl. }
  case_match eqn:Heq; [apply Nat.eqb_eq in Heq; simpl in Heq; lia|clear Heq].
  replace (k + length (x :: m) - k)%nat with (length (x :: m)) by lia.
  replace (take _ (drop k value)) with (x :: m); last first.
  { rewrite Hval. rewrite drop_app_length' by (by rewrite length_replicate).
    rewrite Ht. by rewrite take_app_length. }
  rewrite <- (scan_refines value (replicate k slash) [] (x :: m) (replicate j slash) []).
  - rewrite app_nil_r, length_app, length_replicate. simpl app.
    by destruct (scan value (x :: m) k k []) as [[cs comps]|e|]; simpl.
  - simpl. rewrite Hval at 1. by rewrite Ht.
  - done.
  - rewrite Hval in Hv |- *. by apply boundary_after_slashes.
  - destruct j; simpl; eauto.
Qed.

Lemma scan_list_chars c cur rest comps :
  slash ∉ c → 0 ∉ c → scan_list cur (c ++ rest) comps = scan_list (cur ++ c) rest comps.
Proof.
  induction c as [|x c IH] in cur |- *; simpl; [by rewrite app_nil_r|].
  intros Hs H0. apply not_elem_of_cons in Hs as [? ?], H0 as [? ?].
  destruct (Z.eqb_spec x 0); [congruence|]. destruct (Z.eqb_spec x slash); [congruence|].
  rewrite IH by done. by rewrite <- app_assoc.
Qed.

Lemma push_list_good c comps : good_component c → push_list c comps = Ok (comps ++ [c]).
Proof.
  intros (_ & H1 & H2 & _). unfold push_list.
  by rewrite (proj2 (str_eqb_neq _ _)), (proj2 (str_eqb_neq _ _)).
Qed.

Lemma scan_list_complete comps acc :
  comps ≠ [] → Forall good_component comps →
  scan_list [] (join comps) acc = Ok (acc ++ comps).
Proof.
  intros Hne Hall. induction Hall as [|c comps Hc Hall IH] in acc, Hne |- *; [done|].
  destruct comps as [|d comps]; simpl.
  - rewrite <- (app_nil_r c) at 1. rewrite scan_list_chars by apply Hc. simpl. by apply push_list_good.
  - rewrite scan_list_chars by apply Hc. simpl.
    assert (∀ A (a b : A), match c with [] => a | _ => b end = b) as Hmatch.
    { intros. destruct c; [by destruct Hc|done]. }
    rewrite Hmatch, push_list_good by done. simpl. rewrite IH by done. by rewrite <- app_assoc.
Qed.

Lemma scan_list_sound cur rest acc out :
  slash ∉ cur → 0 ∉ cur → cur ++ rest ≠ [] → last (cur ++ rest) ≠ Some slash →
  scan_list cur rest acc = Ok out →
  ∃ comps, out = acc ++ comps ∧ comps ≠ [] ∧ Forall good_component comps ∧
           join comps = cur ++ rest.
Proof.
  induction rest as [|x rest IH] in cur, acc |- *; simpl; intros Hs H0 Hne Hlast Hscan.
  { rewrite app_nil_r in *. unfold push_list in Hscan.
    destruct (str_eqb cur (str_of ".")) eqn:E1; [done|].
    destruct (str_eqb cur (str_of "..")) eqn:E2; [done|]. simplify_eq/=.
    apply str_eqb_neq in E1, E2. exists [cur]. split_and!; [done..| |done].
    constructor; [|done]. by repeat split. }
  destruct (Z.eqb_spec x 0) as [->|Hx0]; [done|].
  destruct (Z.eqb_spec x slash) as [->|Hxs].
  - destruct cur as [|c cur]; [done|]. unfold push_list in Hscan.
    destruct (str_eqb (c :: cur) (str_of ".")) eqn:E1; [done|].
    destruct (str_eqb (c :: cur) (str_of "..")) eqn:E2; [done|]. simpl in Hscan.
    apply str_eqb_neq in E1, E2.
    rewrite last_app_cons in Hlast. destruct rest as [|y rest]; [done|].
    rewrite last_cons_cons in Hlast.
    apply IH in Hscan as (comps & -> & Hcne & Hall & Hjoin); [|apply not_elem_of_nil..|done|done].
    exists ((c :: cur) :: comps). split_and!; [by rewrite <- app_assoc|done| |].
    + constructor; [|done]. by repeat split.
    + destruct comps as [|d comps]; [done|]. cbn [join]. simpl in Hjoin. by rewrite Hjoin.
  - replace (cur ++ x :: rest) with ((cur ++ [x]) ++ rest) in * by (by rewrite <- app_assoc).
    eapply IH; eauto.
    + rewrite not_elem_of_app, list_elem_of_singleton. split; [done|congruence].
    + rewrite not_elem_of_app, list_elem_of_singleton. split; [done|congruence].
Qed.

(** ** The contract of the parser *)

Lemma slashes_inj_l k1 k2 (r1 r2 : bytes) :
  replicate k1 slash ++ r1 = replicate k2 slash ++ r2 →
  head r1 ≠ Some slash → head r2 ≠ Some slash → r1 = r2.
Proof.
  induction k1 as [|k1 IH] in k2 |- *; destruct k2 as [|k2]; simpl; intros Heq H1 H2; [done|..].
  - subst r1. done.
  - subst r2. done.
  - injection Heq as Heq. eauto.
Qed.

Lemma head_reverse_last (l : bytes) : head (reverse l) = last l.
Proof. induction l using rev_ind; [done|]. by rewrite reverse_snoc, last_snoc. Qed.

Lemma trimmed_inj k1 j1 k2 j2 (m1 m2 : bytes) :
  replicate k1 slash ++ m1 ++ replicate j1 slash = replicate k2 slash ++ m2 ++ replicate j2 slash →
  head m1 ≠ Some slash → last m1 ≠ Some slash →
  head m2 ≠ Some slash → last m2 ≠ Some slash → m1 = m2.
Proof.
  intros Heq Hh1 Hl1 Hh2 Hl2.
  assert (∀ m j, head m ≠ Some slash → last m ≠ Some slash → m ≠ [] →
            head (m ++ replicate j slash) ≠ Some slash) as Hh by (by intros [|??] ???).
  destruct m1 as [|x1 m1], m2 as [|x2 m2]; [done| | |].
  - rewrite app_nil_l, <- replicate_add in Heq.
    rewrite <- (app_nil_r (replicate (k1 + j1) slash)) in Heq.
    apply slashes_inj_l in Heq; [done|done|]. by apply Hh.
  - rewrite (app_nil_l (replicate j2 slash)), <- replicate_add in Heq.
    rewrite <- (app_nil_r (replicate (k2 + j2) slash)) in Heq.
    apply slashes_inj_l in Heq; [done| |done]. by apply Hh.
  - apply slashes_inj_l in Heq; [|by apply Hh..].
    apply (f_equal reverse) in Heq. rewrite !reverse_app, !reverse_replicate in Heq.
    apply slashes_inj_l in Heq; [|by rewrite head_reverse_last..].
    by apply (inj reverse) in Heq.
Qed.

Lemma head_join comps : Forall good_component comps → head (join comps) ≠ Some slash.
Proof.
  destruct 1 as [|c comps (Hne & _ & _ & Hs & _) _]; [done|].
  destruct c as [|x c]; [done|]. apply not_elem_of_cons in Hs as [? _].
  destruct comps; simpl; congruence.
Qed.

Lemma last_join comps : Forall good_component comps → last (join comps) ≠ Some slash.
Proof.
  induction 1 as [|c comps (Hne & _ & _ & Hs & _) Hall IH]; [done|].
  destruct comps as [|d comps].
  - simpl. intros Hl. apply last_Some in Hl as [l' ->]. apply Hs. rewrite elem_of_app. right. by constructor.
  - change (join (c :: d :: comps)) with (c ++ slash :: join (d :: comps)).
    rewrite last_app_cons. inversion Hall as [|?? (Hdne & _)]; subst.
    destruct (join (d :: comps)) as [|y l] eqn:Ej; [|by rewrite last_cons_cons].
    destruct d; [done|]. by destruct comps.
Qed.

Lemma join_nonempty comps : Forall good_component comps → comps ≠ [] → join comps ≠ [].
Proof.
  intros [|c comps' (Hne & _) _] ?; [done|]. destruct c; [done|]. by destruct comps'.
Qed.

Lemma parse_components_spec value p :
  utf8_valid value = true →
  parse_components value = Ok p ↔
    Forall good_component (components p) ∧
    ∃ k j, value = replicate k slash ++ join (components p) ++ replicate j slash.
Proof.
  intros Hv. destruct (parse_components_scan value Hv) as (k & mid & j & Hval & Hh & Hl & Hparse).
  split.
  - intros Hok. rewrite Hok in Hparse. destruct mid as [|x mid].
    { simplify_eq/=. split; [done|]. eauto. }
    destruct (scan_list [] (x :: mid) []) as [out|e|] eqn:Hscan; simplify_eq/=.
    apply (scan_list_sound [] (x :: mid)) in Hscan
      as (comps & -> & _ & Hall & Hjoin); [|apply not_elem_of_nil..|done|done].
    simpl in *. split; [done|]. rewrite Hjoin. eauto.
  - intros [Hall (k' & j' & Hval')]. rewrite Hparse. rewrite Hval in Hval'.
    apply trimmed_inj in Hval'; [|done|done|by apply head_join|by apply last_join].
    destruct p as [comps]; simpl in *. destruct comps as [|c comps]; [by subst mid|].
    pose proof (join_nonempty _ Hall ltac:(done)) as Hne. rewrite <- Hval' in Hne.
    destruct mid as [|x mid]; [done|]. rewrite Hval'. by rewrite scan_list_complete.
Qed.

Lemma scan_list_no_panic cur rest acc : scan_list cur rest acc ≠ Panic.
Proof.
  induction rest as [|x rest IH] in cur, acc |- *; simpl; unfold push_list; repeat case_match; try done.
  simpl. apply IH.
Qed.

Lemma parse_components_no_panic value : utf8_valid value = true → parse_components value ≠ Panic.
Proof.
  intros Hv. destruct (parse_components_scan value Hv) as (k & mid & j & _ & _ & _ & ->).
  destruct mid; [done|]. destruct (scan_list _ _ _) eqn:E; try done.
  by apply scan_list_no_panic in E.
Qed.

Lemma validate_user_components_spec comps :
  validate_user_components comps =
    if decide (Forall (λ c, starts_with TEMP_FILE_PREFIX c = false) comps)
    then Ok tt
    else Err (Error.InvalidPath
      "path component {component:?} uses the reserved nfs-crust temporary-file namespace").
Proof.
  unfold validate_user_components. destruct (list_find _ comps) as [[i c]|] eqn:Hf; case_decide as Hd; try done.
  - apply list_find_Some in Hf as (Hi & Hc & _). rewrite Forall_lookup in Hd.
    specialize (Hd _ _ Hi). simpl in *. congruence.
  - apply list_find_None in Hf. destruct Hd. eapply Forall_impl; [exact Hf|].
    intros c Hc. simpl in Hc. by destruct (starts_with _ _).
Qed.

(** C40: A file path is accepted exactly when, without its outer slashes, it is
    a non-empty list of components joined by single slashes, each of them
    non-empty, free of slashes and NUL bytes, different from [.] and [..] and
    outside the reserved temporary-file namespace; the parsed components are
    that list.  No accepted path can therefore climb out of the export. *)
Theorem file_spec value p :
  utf8_valid value = true →
  file value = Ok p ↔
    components p ≠ [] ∧
    Forall good_component (components p) ∧
    Forall (λ c, starts_with TEMP_FILE_PREFIX c = false) (components p) ∧
    ∃ k j, value = replicate k slash ++ join (components p) ++ replicate j slash.
Proof.
  intros Hv. unfold file. split.
  - destruct (parse_components value) as [q|e|] eqn:Hp; [|done|done]. simpl.
    destruct (components q) as [|c comps] eqn:Hc; [done|].
    rewrite validate_user_components_spec. case_decide; [|done]. simpl.
    intros [= <-]. apply (parse_components_spec value q Hv) in Hp as [? ?].
    rewrite Hc in *. done.
  - intros (Hne & Hg & Ht & Hkj).
    rewrite (proj2 (parse_components_spec value p Hv) (conj Hg Hkj)). simpl.
    rewrite validate_user_components_spec, decide_True by done. simpl.
    by destruct (components p).
Qed.

Lemma file_spec_witness :
  utf8_valid (str_of "///a/b.txt/") = true ∧
  file (str_of "///a/b.txt/") = Ok {| components := [str_of "a"; str_of "b.txt"] |}.
Proof.
  split; [reflexivity|]. apply (file_spec (str_of "///a/b.txt/")); [reflexivity|].
  split; [discriminate|]. split.
  - repeat constructor; try discriminate;
      intros H; repeat (apply elem_of_cons in H as [H|H]; [discriminate H|]);
      by apply not_elem_of_nil in H.
  - split; [by repeat constructor|]. by exists 3%nat, 1%nat.
Defined.

(** No path argument can make the parser panic: every slice it takes is in
    bounds and on a UTF-8 character boundary. *)
Theorem path_no_panic value :
  utf8_valid value = true →
  file value ≠ Panic ∧ directory value ≠ Panic ∧ parse_export value ≠ Panic.
Proof.
  intros Hv. pose proof (parse_components_no_panic value Hv) as Hp.
  unfold file, directory, parse_export.
  destruct (parse_components value) as [q|e|]; simpl; [|done|done].
  rewrite validate_user_components_spec. split_and!; [|by case_decide|done].
  destruct (components q); [done|]. by case_decide.
Qed.

Lemma path_no_panic_witness :
  utf8_valid (str_of "a//../b") = true ∧ file (str_of "a//../b") ≠ Panic.
Proof. split; [reflexivity|]. apply (path_no_panic (str_of "a//../b")). reflexivity. Defined.

(** For every accepted file path the parent and the name handed to the
    mutating operations recompose to the parsed components. *)
Theorem parent_and_name_spec value p :
  file value = Ok p →
  ∃ parent name, parent_and_name p = Ok (parent, name) ∧ components p = parent ++ [name].
Proof.
  intros Hf. unfold file in Hf.
  destruct (parse_components value) as [q|e|]; [|done|done]. simpl in Hf.
  assert (components q ≠ [] ∧ p = q) as [Hne ->].
  { rewrite validate_user_components_spec in Hf.
    destruct (components q); [done|]. by case_decide; simplify_eq/=. }
  destruct (exists_last Hne) as (parent & name & Heq). exists parent, name.
  unfold parent_and_name. rewrite Heq, last_snoc, removelast_last. done.
Qed.

Lemma parent_and_name_spec_witness :
  file (str_of "a/b/c") = Ok {| components := [str_of "a"; str_of "b"; str_of "c"] |} ∧
  ∃ parent name, parent_and_name {| components := [str_of "a"; str_of "b"; str_of "c"] |}
    = Ok (parent, name) ∧ [str_of "a"; str_of "b"; str_of "c"] = parent ++ [name].
Proof. split; [reflexivity|]. apply (parent_and_name_spec (str_of "a/b/c")). reflexivity. Defined.

End path.
