(* ===== verification/Xdr.v ===== *)
(** * XDR encoding and decoding (src/xdr.rs)

    [XdrEncoder] appends to a growing buffer, [XdrDecoder] consumes one from
    the front.  The [bytes] accessors the source calls ([get_u32], [advance],
    [copy_to_bytes], ...) panic past the end of the buffer, and so do their
    counterparts in [buf]; that the decoder never lets them is proved here
    ([parser] lemmas), once per method, and used by every reply decoder.

    The lemmas come in three families: [emits m out] (what an encoder step
    appends), [reads m inp a] (what a decoder step returns on its encoding,
    whatever follows) and [parser Q m] (what it guarantees on any input). *)

From S2P Require Import Prelude Proto Errors.

Abbreviation dec A := (st bytes Error.t A) (only parsing).
Abbreviation enc A := (st bytes Error.t A) (only parsing).

(** ** Lengths *)

Definition xdr_padding (len : Z) : Z := Z.land (4 - Z.land len 3) 3.

Definition xdr_fixed_opaque_len (len : Z) : Z := saturating_add len (xdr_padding len).

Definition xdr_opaque_len (len : Z) : Z := saturating_add 4 (xdr_fixed_opaque_len len).

(** [u32::try_from(len).expect(..)] *)
Definition xdr_length_word (len : Z) : res Error.t Z :=
  if len <=? u32_max then Ok len else Panic.

Definition decode_bool_word (value : Z) : res Error.t bool :=
  if value =? 0 then Ok false
  else if value =? 1 then Ok true
  else Err (Error.xdr "invalid XDR bool value {value}").

Definition opaque_padded_len (len : Z) : res Error.t Z :=
  ok_or (checked_add len (xdr_padding len)) (Error.xdr "opaque length overflow").

Definition opaque_remaining_len (len consumed : Z) : res Error.t Z :=
  let? remaining_value :=
    ok_or (checked_sub len consumed)
      (Error.xdr "opaque decoder consumed {consumed} bytes from a {len} byte value") in
  ok_or (checked_add remaining_value (xdr_padding len)) (Error.xdr "opaque length overflow").

(** ** The buffer primitives *)

Module buf.

(** Removes the first [n] bytes; panics when fewer remain. *)
Definition split_to (n : Z) : dec bytes := λ b,
  if n <=? blen b then (Ok (take (Z.to_nat n) b), drop (Z.to_nat n) b) else (Panic, b).

Definition get_u32 : dec Z := let! w := split_to 4 in sret (be_value w).
Definition get_u64 : dec Z := let! w := split_to 8 in sret (be_value w).
Definition advance (n : Z) : dec unit := let! _ := split_to n in sret tt.
Definition copy_to_slice (n : Z) : dec bytes := split_to n.
Definition copy_to_bytes (n : Z) : dec bytes := split_to n.

Definition extend_from_slice (value : bytes) : enc unit := λ b, (Ok tt, b ++ value).
Definition put_u32 (value : Z) : enc unit := extend_from_slice (be_bytes 4 value).
Definition put_u64 (value : Z) : enc unit := extend_from_slice (be_bytes 8 value).

End buf.

(** ** Encoder *)

Module XdrEncoder.

Definition with_capacity (capacity : Z) : bytes := [].

Definition put_u32 (value : Z) : enc unit := buf.put_u32 value.
Definition put_u64 (value : Z) : enc unit := buf.put_u64 value.
Definition put_bool (value : bool) : enc unit := put_u32 (Z.b2z value).
Definition put_bytes (value : bytes) : enc unit := buf.extend_from_slice value.

(** [&ZERO_PADDING[..padding]] *)
Definition put_padding (len : Z) : enc unit :=
  let padding := xdr_padding len in
  if negb (padding =? 0) then buf.extend_from_slice (replicate (Z.to_nat padding) 0)
  else sret tt.

Definition put_opaque (value : bytes) : enc unit :=
  let! word := slift (xdr_length_word (blen value)) in
  let! _ := put_u32 word in
  match value with
  | [] => sret tt
  | _ =>
      let! _ := put_bytes value in
      put_padding (blen value)
  end.

Definition put_string (value : str) : enc unit := put_opaque value.

End XdrEncoder.

(** Runs an encoder from an empty buffer and freezes it. *)
Definition freeze {A} (m : enc A) : res Error.t bytes :=
  match m [] with
  | (Ok _, b) => Ok b
  | (Err e, _) => Err e
  | (Panic, _) => Panic
  end.

(** ** Decoder *)

Module XdrDecoder.

Definition remaining : dec Z := λ b, (Ok (blen b), b).

Definition require (len : Z) : dec unit := λ b,
  if blen b <? len then (Err (Error.xdr "buffer underflow: need {len} bytes, have {}"), b)
  else (Ok tt, b).

Definition read_u32_after_require : dec Z := buf.get_u32.
Definition read_u64_after_require : dec Z := buf.get_u64.

Definition read_u32 : dec Z :=
  let! _ := require 4 in
  read_u32_after_require.

Definition read_u64 : dec Z :=
  let! _ := require 8 in
  read_u64_after_require.

Definition read_u32_pair : dec (Z * Z) :=
  let! _ := require 8 in
  let! a := read_u32_after_require in
  let! b := read_u32_after_require in
  sret (a, b).

Definition read_u32_triple : dec (Z * Z * Z) :=
  let! _ := require 12 in
  let! a := read_u32_after_require in
  let! b := read_u32_after_require in
  let! c := read_u32_after_require in
  sret (a, b, c).

Definition read_u32_and_bytes (N : Z) : dec (Z * bytes) :=
  let! total_len := slift (ok_or (checked_add 4 N) (Error.xdr "fixed read length overflow")) in
  let! _ := require total_len in
  let! word := read_u32_after_require in
  let! out := buf.copy_to_slice N in
  sret (word, out).

Definition read_u32_pair_and_bytes (N : Z) : dec (Z * Z * bytes) :=
  let! total_len := slift (ok_or (checked_add 8 N) (Error.xdr "fixed read length overflow")) in
  let! _ := require total_len in
  let! first := read_u32_after_require in
  let! second := read_u32_after_require in
  let! out := buf.copy_to_slice N in
  sret (first, second, out).

Definition read_bool : dec bool :=
  let! w := read_u32 in
  slift (decode_bool_word w).

Definition read_bool_and_skip (skip_len : Z) : dec bool :=
  let! total_len := slift (ok_or (checked_add 4 skip_len) (Error.xdr "bool skip length overflow")) in
  let! _ := require total_len in
  let! w := read_u32_after_require in
  let! out := slift (decode_bool_word w) in
  let! _ := buf.advance skip_len in
  sret out.

Definition read_bytes (N : Z) : dec bytes :=
  let! _ := require N in
  buf.copy_to_slice N.

Definition skip_bytes_after_require (len : Z) : dec unit := buf.advance len.

Definition skip_bytes (len : Z) : dec unit :=
  let! _ := require len in
  skip_bytes_after_require len.

Definition read_opaque_bytes (len : Z) : dec bytes :=
  if len =? 0 then sret []
  else
    let padding := xdr_padding len in
    let! total_len := slift (opaque_padded_len len) in
    let! _ := require total_len in
    let! out := buf.copy_to_bytes len in
    let! _ := buf.advance padding in
    sret out.

Definition read_opaque : dec bytes :=
  let! len := read_u32 in
  read_opaque_bytes len.

Definition read_bool_and_opaque : dec (bool * bytes) :=
  let! (value, len) := read_u32_pair in
  let! value := slift (decode_bool_word value) in
  let! data := read_opaque_bytes len in
  sret (value, data).

Definition read_opaque_extent_len : dec Z :=
  let! len := read_u32 in
  let! padded := slift (opaque_padded_len len) in
  let! _ := require padded in
  sret len.

Definition finish_opaque_after_require (len consumed : Z) : dec unit :=
  let! skip_len := slift (opaque_remaining_len len consumed) in
  buf.advance skip_len.

(** [&self.buf[..len]], without consuming it. *)
Definition peek (len : Z) : dec bytes := λ b,
  if len <=? blen b then (Ok (take (Z.to_nat len) b), b) else (Panic, b).

Definition read_string_unless (skip : bytes → bool) : dec (option str) :=
  let! len := read_u32 in
  let padding := xdr_padding len in
  let! total_len := slift (ok_or (checked_add len padding) (Error.xdr "string length overflow")) in
  let! _ := require total_len in
  let! value := peek len in
  let! string :=
    if skip value then sret None
    else if utf8_valid value then sret (Some value)
    else sfail (Error.xdr "invalid utf-8 sequence") in
  let! _ := buf.advance total_len in
  sret string.

Definition read_u32_skip_opaque_and_read_u32 : dec (Z * Z) :=
  let! (first, len) := read_u32_pair in
  let! skip_len := slift (opaque_padded_len len) in
  let! total_len := slift (ok_or (checked_add skip_len 4) (Error.xdr "opaque skip length overflow")) in
  let! _ := require total_len in
  let! _ := buf.advance skip_len in
  let! second := read_u32_after_require in
  sret (first, second).

Definition skip_opaque : dec unit :=
  let! len := read_u32 in
  let! skip_len := slift (opaque_padded_len len) in
  if skip_len =? 0 then sret tt
  else
    let! _ := require skip_len in
    buf.advance skip_len.

Definition into_remaining : dec bytes :=
  let! len := remaining in
  if len =? 0 then sret [] else buf.copy_to_bytes len.

End XdrDecoder.

(** ** Padding arithmetic *)

Lemma xdr_padding_mod len : xdr_padding len = (- len) `mod` 4.
Proof.
  unfold xdr_padding. change 3 with (Z.ones 2). rewrite !Z.land_ones by lia.
  change (2 ^ 2) with 4. rewrite Zminus_mod_idemp_r.
  replace (4 - len) with (- len + 1 * 4) by lia. by rewrite Z.mod_add.
Qed.

Lemma xdr_padding_bound len : 0 ≤ xdr_padding len ≤ 3.
Proof. rewrite xdr_padding_mod. pose proof (Z.mod_pos_bound (- len) 4). lia. Qed.

Lemma xdr_padding_aligns len : (4 | len + xdr_padding len).
Proof.
  rewrite xdr_padding_mod. exists (- ((- len) / 4)).
  pose proof (Z.div_mod (- len) 4 ltac:(lia)). lia.
Qed.

Lemma xdr_padding_0 : xdr_padding 0 = 0.
Proof. done. Qed.

Lemma opaque_padded_len_ok len :
  0 ≤ len ≤ u32_max → opaque_padded_len len = Ok (len + xdr_padding len).
Proof.
  intros H. unfold opaque_padded_len, checked_add. pose proof (xdr_padding_bound len).
  destruct (Z.leb_spec (len + xdr_padding len) usize_max); [done|ulia].
Qed.

Lemma xdr_opaque_len_small len :
  0 ≤ len ≤ u32_max → xdr_opaque_len len = 4 + len + xdr_padding len.
Proof.
  intros H. unfold xdr_opaque_len, xdr_fixed_opaque_len.
  pose proof (xdr_padding_bound len). ulia.
Qed.

(** ** What an encoder step appends *)

Definition emits {E A} (m : st bytes E A) (a : A) (out : bytes) : Prop :=
  ∀ b, m b = (Ok a, b ++ out).

Lemma emits_ret {E A} (a : A) : emits (E:=E) (sret a) a [].
Proof. intros b. unfold sret. by rewrite app_nil_r. Qed.

Lemma emits_bind {E A B} (m : st bytes E A) (k : A → st bytes E B) a c out1 out2 :
  emits m a out1 → emits (k a) c out2 → emits (sbind m k) c (out1 ++ out2).
Proof. intros Hm Hk b. unfold sbind. by rewrite Hm, Hk, app_assoc. Qed.

Lemma emits_eq {E A} (m : st bytes E A) a out out' : emits m a out' → out = out' → emits m a out.
Proof. by intros ? ->. Qed.

Lemma emits_freeze {A} (m : enc A) a out : emits m a out → freeze m = Ok out.
Proof. intros H. unfold freeze. by rewrite H. Qed.

(** The wire image of the primitive types. *)
Definition wire_u32 (v : Z) : bytes := be_bytes 4 v.
Definition wire_u64 (v : Z) : bytes := be_bytes 8 v.
Definition wire_bool (v : bool) : bytes := wire_u32 (Z.b2z v).
Definition wire_pad (len : Z) : bytes := replicate (Z.to_nat (xdr_padding len)) 0.
Definition wire_opaque (v : bytes) : bytes := wire_u32 (blen v) ++ v ++ wire_pad (blen v).

Lemma emits_put_u32 v : emits (XdrEncoder.put_u32 v) tt (wire_u32 v).
Proof. by intros b. Qed.

Lemma emits_put_u64 v : emits (XdrEncoder.put_u64 v) tt (wire_u64 v).
Proof. by intros b. Qed.

Lemma emits_put_bool v : emits (XdrEncoder.put_bool v) tt (wire_bool v).
Proof. by intros b. Qed.

Lemma emits_put_bytes v : emits (XdrEncoder.put_bytes v) tt v.
Proof. by intros b. Qed.

Lemma emits_put_padding len : emits (XdrEncoder.put_padding len) tt (wire_pad len).
Proof.
  intros b. unfold XdrEncoder.put_padding, wire_pad.
  destruct (Z.eqb_spec (xdr_padding len) 0) as [->|]; simpl; [|done].
  unfold sret. by rewrite app_nil_r.
Qed.

Lemma emits_put_opaque v : blen v ≤ u32_max → emits (XdrEncoder.put_opaque v) tt (wire_opaque v).
Proof.
  intros Hv b. unfold XdrEncoder.put_opaque, xdr_length_word, wire_opaque.
  destruct (Z.leb_spec (blen v) u32_max); [|lia]. unfold sbind at 1, slift.
  destruct v as [|x v]; [done|].
  unfold sbind. rewrite emits_put_u32, emits_put_bytes, emits_put_padding.
  by rewrite !app_assoc.
Qed.

(** A value whose length does not fit the length word cannot be encoded. *)
Lemma put_opaque_too_long v b : u32_max < blen v → XdrEncoder.put_opaque v b = (Panic, b).
Proof.
  intros Hv. unfold XdrEncoder.put_opaque, xdr_length_word.
  destruct (Z.leb_spec (blen v) u32_max); [lia|]. done.
Qed.

Create HintDb emits discriminated.
#[export] Hint Resolve emits_ret emits_put_u32 emits_put_u64 emits_put_bool emits_put_bytes
  emits_put_padding emits_put_opaque : emits.

Lemma blen_wire_u32 v : blen (wire_u32 v) = 4.
Proof. apply (blen_be_bytes 4). Qed.

Lemma blen_wire_u64 v : blen (wire_u64 v) = 8.
Proof. apply (blen_be_bytes 8). Qed.

Lemma blen_wire_bool v : blen (wire_bool v) = 4.
Proof. apply blen_wire_u32. Qed.

Lemma blen_wire_pad len : blen (wire_pad len) = xdr_padding len.
Proof. unfold wire_pad. rewrite blen_replicate. pose proof (xdr_padding_bound len). lia. Qed.

Lemma blen_wire_opaque v : blen (wire_opaque v) = 4 + blen v + xdr_padding (blen v).
Proof. unfold wire_opaque. rewrite !blen_app, blen_wire_u32, blen_wire_pad. lia. Qed.

Lemma blen_wire_opaque_len v :
  blen v ≤ u32_max → blen (wire_opaque v) = xdr_opaque_len (blen v).
Proof.
  intros. rewrite blen_wire_opaque, xdr_opaque_len_small; [lia|].
  pose proof (blen_nonneg v). lia.
Qed.

Create Rewrite HintDb wire.
#[export] Hint Rewrite @blen_nil @blen_cons @blen_app blen_wire_u32 blen_wire_u64 blen_wire_bool
  blen_wire_pad blen_wire_opaque : wire.

(** Brings in the bounds of the lengths and paddings of the goal. *)
Ltac length_bounds :=
  repeat match goal with
  | |- context [blen ?l] =>
      lazymatch goal with
      | _ : 0 ≤ blen l |- _ => fail
      | _ => pose proof (blen_nonneg l)
      end
  | |- context [xdr_padding ?l] =>
      lazymatch goal with
      | _ : 0 ≤ xdr_padding l ≤ 3 |- _ => fail
      | _ => pose proof (xdr_padding_bound l)
      end
  end.

(** ** What a decoder step returns on its encoding *)

Definition reads {E A} (m : st bytes E A) (inp : bytes) (a : A) : Prop :=
  ∀ rest, m (inp ++ rest) = (Ok a, rest).

Lemma reads_ret {E A} (a : A) : reads (E:=E) (sret a) [] a.
Proof. by intros rest. Qed.

Lemma reads_bind {E A B} (m : st bytes E A) (k : A → st bytes E B) inp1 inp2 a c :
  reads m inp1 a → reads (k a) inp2 c → reads (sbind m k) (inp1 ++ inp2) c.
Proof. intros Hm Hk rest. unfold sbind. by rewrite <- app_assoc, Hm, Hk. Qed.

Lemma reads_bind_lift {E A B} (r : res E A) (k : A → st bytes E B) inp a c :
  r = Ok a → reads (k a) inp c → reads (sbind (slift r) k) inp c.
Proof. intros -> Hk rest. apply Hk. Qed.

Lemma reads_map_err {E F A} (f : E → F) (m : st bytes E A) inp a :
  reads m inp a → reads (smap_err f m) inp a.
Proof. intros Hm rest. unfold smap_err. by rewrite Hm. Qed.

Lemma reads_require {A} n (k : unit → dec A) inp a :
  n ≤ blen inp → reads (k tt) inp a → reads (sbind (XdrDecoder.require n) k) inp a.
Proof.
  intros Hn Hk rest. unfold sbind, XdrDecoder.require. rewrite blen_app.
  pose proof (blen_nonneg rest). destruct (Z.ltb_spec (blen inp + blen rest) n); [lia|apply Hk].
Qed.

Lemma reads_split n v : n = blen v → reads (buf.split_to n) v v.
Proof.
  intros -> rest. unfold buf.split_to. rewrite blen_app.
  pose proof (blen_nonneg rest). destruct (Z.leb_spec (blen v) (blen v + blen rest)); [|lia].
  unfold blen. rewrite Nat2Z.id, take_app_length, drop_app_length. done.
Qed.

Lemma reads_advance n v : n = blen v → reads (buf.advance n) v tt.
Proof.
  intros H rest. unfold buf.advance, sbind. by rewrite (reads_split n v H).
Qed.

Lemma reads_get_u32 v : is_u32 v → reads buf.get_u32 (wire_u32 v) v.
Proof.
  intros Hv rest. unfold buf.get_u32, sbind. rewrite (reads_split 4 (wire_u32 v)) by done.
  unfold sret, wire_u32. rewrite be_value_be_bytes_id; [done|]. simpl. ulia.
Qed.

Lemma get_u32_eq b : 4 ≤ blen b → buf.get_u32 b = (Ok (be_value (take 4 b)), drop 4 b).
Proof.
  intros H. unfold buf.get_u32, sbind, buf.split_to. by destruct (Z.leb_spec 4 (blen b)); [|lia].
Qed.

Lemma reads_get_u64 v : is_u64 v → reads buf.get_u64 (wire_u64 v) v.
Proof.
  intros Hv rest. unfold buf.get_u64, sbind. rewrite (reads_split 8 (wire_u64 v)) by done.
  unfold sret, wire_u64. rewrite be_value_be_bytes_id; [done|]. simpl. ulia.
Qed.

Lemma reads_u32 v : is_u32 v → reads XdrDecoder.read_u32 (wire_u32 v) v.
Proof.
  intros Hv. apply reads_require; [by rewrite blen_wire_u32|]. by apply reads_get_u32.
Qed.

Lemma reads_u64 v : is_u64 v → reads XdrDecoder.read_u64 (wire_u64 v) v.
Proof.
  intros Hv. apply reads_require; [by rewrite blen_wire_u64|]. by apply reads_get_u64.
Qed.

Lemma decode_bool_b2z v : decode_bool_word (Z.b2z v) = Ok v.
Proof. by destruct v. Qed.

Lemma b2z_u32 v : is_u32 (Z.b2z v).
Proof. destruct v; simpl; ulia. Qed.

Lemma reads_bool v : reads XdrDecoder.read_bool (wire_bool v) v.
Proof.
  intros rest. unfold XdrDecoder.read_bool, sbind, wire_bool.
  rewrite reads_u32 by apply b2z_u32. by rewrite decode_bool_b2z.
Qed.

Lemma reads_u32_pair a b : is_u32 a → is_u32 b →
  reads XdrDecoder.read_u32_pair (wire_u32 a ++ wire_u32 b) (a, b).
Proof.
  intros Ha Hb. unfold XdrDecoder.read_u32_pair. apply reads_require.
  { autorewrite with wire. lia. }
  eapply reads_bind; [by apply reads_get_u32|].
  rewrite <- (app_nil_r (wire_u32 b)). eapply reads_bind; [by apply reads_get_u32|apply reads_ret].
Qed.

Lemma reads_bytes n v : n = blen v → reads (XdrDecoder.read_bytes n) v v.
Proof. intros ->. apply reads_require; [lia|]. by apply reads_split. Qed.

Lemma reads_opaque_bytes v : blen v ≤ u32_max →
  reads (XdrDecoder.read_opaque_bytes (blen v)) (v ++ wire_pad (blen v)) v.
Proof.
  intros Hv. unfold XdrDecoder.read_opaque_bytes.
  destruct (Z.eqb_spec (blen v) 0) as [H0|H0].
  { rewrite H0. apply blen_0_nil in H0 as ->. apply reads_ret. }
  pose proof (blen_nonneg v). pose proof (xdr_padding_bound (blen v)).
  eapply reads_bind_lift; [apply opaque_padded_len_ok; lia|].
  apply reads_require; [autorewrite with wire; lia|].
  eapply reads_bind; [by apply reads_split|].
  rewrite <- (app_nil_r (wire_pad _)).
  eapply reads_bind; [apply reads_advance; by rewrite blen_wire_pad|apply reads_ret].
Qed.

Lemma reads_opaque v : blen v ≤ u32_max → reads XdrDecoder.read_opaque (wire_opaque v) v.
Proof.
  intros Hv. pose proof (blen_nonneg v). eapply reads_bind; [apply reads_u32; ulia|].
  by apply reads_opaque_bytes.
Qed.

Lemma reads_u32_triple a b c : is_u32 a → is_u32 b → is_u32 c →
  reads XdrDecoder.read_u32_triple (wire_u32 a ++ wire_u32 b ++ wire_u32 c) (a, b, c).
Proof.
  intros Ha Hb Hc. apply reads_require; [autorewrite with wire; lia|].
  eapply reads_bind; [by apply reads_get_u32|]. eapply reads_bind; [by apply reads_get_u32|].
  rewrite <- (app_nil_r (wire_u32 c)). eapply reads_bind; [by apply reads_get_u32|apply reads_ret].
Qed.

Lemma reads_u32_skip_opaque_and_read_u32 a v b : is_u32 a → is_u32 b → blen v ≤ u32_max →
  reads XdrDecoder.read_u32_skip_opaque_and_read_u32 (wire_u32 a ++ wire_opaque v ++ wire_u32 b) (a, b).
Proof.
  intros Ha Hb Hv. pose proof (blen_nonneg v). unfold wire_opaque. rewrite <- app_assoc, (app_assoc (wire_u32 a)).
  eapply reads_bind; [apply reads_u32_pair; [done|ulia]|].
  pose proof (xdr_padding_bound (blen v)).
  eapply reads_bind_lift; [apply opaque_padded_len_ok; lia|].
  eapply reads_bind_lift.
  { unfold checked_add. destruct (Z.leb_spec (blen v + xdr_padding (blen v) + 4) usize_max); [done|ulia]. }
  apply reads_require; [autorewrite with wire; lia|].
  eapply reads_bind; [apply reads_advance; autorewrite with wire; lia|].
  rewrite <- (app_nil_r (wire_u32 b)). eapply reads_bind; [by apply reads_get_u32|apply reads_ret].
Qed.

(** ** What a decoder step guarantees on any input

    [room n Q m]: like [parser Q m], on the buffers with at least [n] bytes
    left; a [require n] turns it into [parser Q]. *)

Definition room {E A} (n : Z) (Q : A → Prop) (m : st bytes E A) : Prop :=
  ∀ b, bytes_wf b → n ≤ blen b →
    match m b with
    | (Ok a, b') => b' `suffix_of` b ∧ Q a
    | (Err _, b') => b' `suffix_of` b
    | (Panic, _) => False
    end.

Lemma parser_room {E A} n (Q : A → Prop) (m : st bytes E A) : parser Q m → room n Q m.
Proof. intros Hm b Hb _. by apply Hm. Qed.

Lemma parser_require {A} n (Q : A → Prop) (k : unit → dec A) :
  room n Q (k tt) → parser Q (sbind (XdrDecoder.require n) k).
Proof.
  intros Hk b Hb. unfold sbind, XdrDecoder.require.
  destruct (Z.ltb_spec (blen b) n); [done|]. by apply Hk.
Qed.

Lemma parser_bind_lift {E A B} (P : A → Prop) (Q : B → Prop) (r : res E A) (k : A → st bytes E B) :
  match r with Ok a => P a | Err _ => True | Panic => False end →
  (∀ a, P a → parser Q (k a)) → parser Q (sbind (slift r) k).
Proof. intros Hr Hk. eapply parser_bind; [by apply parser_lift|done]. Qed.

Lemma room_bind_lift {E A B} n (P : A → Prop) (Q : B → Prop) (r : res E A) (k : A → st bytes E B) :
  match r with Ok a => P a | Err _ => True | Panic => False end →
  (∀ a, P a → room n Q (k a)) → room n Q (sbind (slift r) k).
Proof. intros Hr Hk b Hb Hn. unfold sbind, slift. destruct r; [by apply Hk|done|done]. Qed.

(** The split primitive, in a buffer known to hold [n ≥ k] bytes. *)
Lemma room_split {A} n k (Q : A → Prop) (f : bytes → dec A) :
  0 ≤ k ≤ n →
  (∀ w, bytes_wf w → blen w = k → room (n - k) Q (f w)) →
  room n Q (sbind (buf.split_to k) f).
Proof.
  intros Hk Hf b Hb Hn. unfold sbind, buf.split_to.
  destruct (Z.leb_spec k (blen b)); [|lia].
  assert (Ht : blen (take (Z.to_nat k) b) = k) by (rewrite blen_take; lia).
  specialize (Hf _ (bytes_wf_take _ _ Hb) Ht (drop (Z.to_nat k) b) (bytes_wf_drop _ _ Hb)).
  rewrite blen_drop in Hf by lia. specialize (Hf ltac:(lia)).
  destruct (f _ _) as [[a|e|] b']; [|by etrans; [|apply suffix_drop]|done].
  destruct Hf as [Hs ?]. split; [|done]. etrans; [exact Hs|apply suffix_drop].
Qed.

Lemma sbind_assoc {S E A B C} (m : st S E A) (k : A → st S E B) (h : B → st S E C) s :
  sbind (sbind m k) h s = sbind m (λ a, sbind (k a) h) s.
Proof. unfold sbind. by destruct (m s) as [[a|e|] s']. Qed.

Lemma room_assoc {E A B C} n (Q : C → Prop) (m : st bytes E A) (k : A → st bytes E B) h :
  room n Q (sbind m (λ a, sbind (k a) h)) → room n Q (sbind (sbind m k) h).
Proof. intros H b Hb Hn. rewrite sbind_assoc. by apply H. Qed.

Lemma room_u32 {A} n (Q : A → Prop) (f : Z → dec A) :
  4 ≤ n → (∀ v, is_u32 v → room (n - 4) Q (f v)) → room n Q (sbind buf.get_u32 f).
Proof.
  intros Hn Hf. apply room_assoc, room_split; [lia|]. intros w Hw Hlen.
  change (room (n - 4) Q (f (be_value w))). apply Hf.
  pose proof (be_value_bound w Hw) as Hv. rewrite Hlen in Hv. ulia.
Qed.

Lemma room_u64 {A} n (Q : A → Prop) (f : Z → dec A) :
  8 ≤ n → (∀ v, is_u64 v → room (n - 8) Q (f v)) → room n Q (sbind buf.get_u64 f).
Proof.
  intros Hn Hf. apply room_assoc, room_split; [lia|]. intros w Hw Hlen.
  change (room (n - 8) Q (f (be_value w))). apply Hf.
  pose proof (be_value_bound w Hw) as Hv. rewrite Hlen in Hv. ulia.
Qed.

Lemma room_advance {A} n k (Q : A → Prop) (f : unit → dec A) :
  0 ≤ k ≤ n → room (n - k) Q (f tt) → room n Q (sbind (buf.advance k) f).
Proof. intros Hk Hf. apply room_assoc, room_split; [done|]. intros w _ _. exact Hf. Qed.

Lemma sbind_ret_r {S E A} (m : st S E A) s : sbind m sret s = m s.
Proof. unfold sbind. by destruct (m s) as [[a|e|] s']. Qed.

Lemma room_ret_r {E A} n (Q : A → Prop) (m : st bytes E A) :
  room n Q (sbind m sret) → room n Q m.
Proof. intros H b Hb Hn. rewrite <- sbind_ret_r. by apply H. Qed.

Lemma room_ret {E A} n (Q : A → Prop) (a : A) : Q a → room (E:=E) n Q (sret a).
Proof. intros. apply parser_room. by apply parser_ret. Qed.

Lemma ok_or_checked_add {E} a b (e : E) :
  match ok_or (checked_add a b) e with Ok c => c = a + b | Err _ => True | Panic => False end.
Proof. unfold checked_add. by destruct (Z.leb_spec (a + b) usize_max). Qed.

Lemma decode_bool_word_total w :
  match decode_bool_word w with Ok a => any a | Err _ => True | Panic => False end.
Proof. unfold decode_bool_word. by repeat case_match. Qed.

Lemma opaque_padded_len_total len :
  match opaque_padded_len len with
  | Ok n => n = len + xdr_padding len | Err _ => True | Panic => False end.
Proof. apply ok_or_checked_add. Qed.

Lemma parser_read_u32 : parser is_u32 XdrDecoder.read_u32.
Proof. apply parser_require, room_ret_r, room_u32; [lia|]. intros. by apply room_ret. Qed.

Lemma parser_read_u64 : parser is_u64 XdrDecoder.read_u64.
Proof. apply parser_require, room_ret_r, room_u64; [lia|]. intros. by apply room_ret. Qed.

Lemma parser_read_u32_pair :
  parser (λ '(a, b), is_u32 a ∧ is_u32 b) XdrDecoder.read_u32_pair.
Proof.
  apply parser_require. apply room_u32; [lia|]. intros a Ha.
  apply room_u32; [lia|]. intros b Hb. by apply room_ret.
Qed.

Lemma parser_read_u32_triple :
  parser (λ '(a, b, c), is_u32 a ∧ is_u32 b ∧ is_u32 c) XdrDecoder.read_u32_triple.
Proof.
  apply parser_require. apply room_u32; [lia|]. intros a Ha.
  apply room_u32; [lia|]. intros b Hb. apply room_u32; [lia|]. intros c Hc. by apply room_ret.
Qed.

Lemma parser_read_u32_and_bytes N : 0 ≤ N →
  parser (λ '(a, w), is_u32 a ∧ bytes_wf w ∧ blen w = N) (XdrDecoder.read_u32_and_bytes N).
Proof.
  intros HN. eapply parser_bind_lift; [apply ok_or_checked_add|]. intros ? ->.
  apply parser_require. apply room_u32; [lia|]. intros a Ha.
  apply room_split; [lia|]. intros w Hw Hl. by apply room_ret.
Qed.

Lemma parser_read_u32_pair_and_bytes N : 0 ≤ N →
  parser (λ '(a, b, w), is_u32 a ∧ is_u32 b ∧ bytes_wf w ∧ blen w = N)
    (XdrDecoder.read_u32_pair_and_bytes N).
Proof.
  intros HN. eapply parser_bind_lift; [apply ok_or_checked_add|]. intros ? ->.
  apply parser_require. apply room_u32; [lia|]. intros a Ha.
  apply room_u32; [lia|]. intros b Hb.
  apply room_split; [lia|]. intros w Hw Hl. by apply room_ret.
Qed.

Lemma parser_read_bool : parser any XdrDecoder.read_bool.
Proof.
  eapply parser_bind; [apply parser_read_u32|]. intros w Hw.
  apply parser_lift, decode_bool_word_total.
Qed.

Lemma parser_read_bool_and_skip n : 0 ≤ n → parser any (XdrDecoder.read_bool_and_skip n).
Proof.
  intros Hn. eapply parser_bind_lift; [apply ok_or_checked_add|]. intros ? ->.
  apply parser_require. apply room_u32; [lia|]. intros a Ha.
  eapply room_bind_lift; [apply decode_bool_word_total|]. intros v _.
  apply room_advance; [lia|]. by apply room_ret.
Qed.

Lemma parser_read_bytes N : 0 ≤ N →
  parser (λ w, bytes_wf w ∧ blen w = N) (XdrDecoder.read_bytes N).
Proof.
  intros HN. apply parser_require, room_ret_r, room_split; [lia|].
  intros w Hw Hl. by apply room_ret.
Qed.

Lemma parser_skip_bytes N : 0 ≤ N → parser any (XdrDecoder.skip_bytes N).
Proof. intros HN. apply parser_require, room_ret_r, room_advance; [lia|]. by apply room_ret. Qed.

Lemma parser_read_opaque_bytes len : 0 ≤ len →
  parser (λ w, bytes_wf w ∧ blen w = len) (XdrDecoder.read_opaque_bytes len).
Proof.
  intros Hlen. unfold XdrDecoder.read_opaque_bytes.
  destruct (Z.eqb_spec len 0) as [->|]; [by apply parser_ret; split; [constructor|]|].
  pose proof (xdr_padding_bound len).
  eapply parser_bind_lift; [apply opaque_padded_len_total|]. intros ? ->.
  apply parser_require. apply room_split; [lia|]. intros w Hw Hl.
  apply room_advance; [lia|]. by apply room_ret.
Qed.

Lemma parser_read_opaque :
  parser (λ w, bytes_wf w ∧ blen w ≤ u32_max) XdrDecoder.read_opaque.
Proof.
  eapply parser_bind; [apply parser_read_u32|]. intros len Hlen.
  eapply parser_weaken; [apply parser_read_opaque_bytes; ulia|]. intros w [Hw Hl]. split; [done|ulia].
Qed.

Lemma parser_read_bool_and_opaque :
  parser (λ '(_, w), bytes_wf w ∧ blen w ≤ u32_max) XdrDecoder.read_bool_and_opaque.
Proof.
  eapply parser_bind; [apply parser_read_u32_pair|]. intros [v len] [Hv Hlen].
  eapply parser_bind_lift; [apply decode_bool_word_total|]. intros b _.
  eapply parser_bind; [apply parser_read_opaque_bytes; ulia|]. intros w [Hw Hl].
  apply parser_ret. split; [done|ulia].
Qed.

Lemma parser_read_string_unless skip :
  parser (λ o, ∀ v, o = Some v → bytes_wf v ∧ utf8_valid v = true ∧ skip v = false)
    (XdrDecoder.read_string_unless skip).
Proof.
  eapply parser_bind; [apply parser_read_u32|]. intros len Hlen.
  pose proof (xdr_padding_bound len). eapply parser_bind_lift; [apply ok_or_checked_add|]. intros ? ->.
  apply parser_require. intros b Hb Hn. unfold sbind at 1, XdrDecoder.peek.
  destruct (Z.leb_spec len (blen b)); [|ulia].
  set (v := take _ b). unfold sbind at 1.
  assert (Hadv : ∀ o : option str,
    (∀ v, o = Some v → bytes_wf v ∧ utf8_valid v = true ∧ skip v = false) →
    room (len + xdr_padding len) (λ o : option str, ∀ v, o = Some v → bytes_wf v ∧ utf8_valid v = true ∧ skip v = false)
      (sbind (buf.advance (len + xdr_padding len)) (λ _, sret o))).
  { intros o Ho. apply room_advance; [ulia|]. by apply room_ret. }
  destruct (skip v) eqn:Hskip; [by apply Hadv|].
  destruct (utf8_valid v) eqn:Hutf; [|by simpl].
  apply Hadv; [|done|done]. intros ? [= <-]. split; [|done]. by apply bytes_wf_take.
Qed.

Lemma parser_read_u32_skip_opaque_and_read_u32 :
  parser (λ '(a, b), is_u32 a ∧ is_u32 b) XdrDecoder.read_u32_skip_opaque_and_read_u32.
Proof.
  eapply parser_bind; [apply parser_read_u32_pair|]. intros [first len] [Hf Hlen].
  pose proof (xdr_padding_bound len).
  eapply parser_bind_lift; [apply opaque_padded_len_total|]. intros ? ->.
  eapply parser_bind_lift; [apply ok_or_checked_add|]. intros ? ->.
  apply parser_require. apply room_advance; [ulia|]. apply room_u32; [lia|].
  intros v Hv. by apply room_ret.
Qed.

Lemma parser_skip_opaque : parser any XdrDecoder.skip_opaque.
Proof.
  eapply parser_bind; [apply parser_read_u32|]. intros len Hlen.
  pose proof (xdr_padding_bound len).
  eapply parser_bind_lift; [apply opaque_padded_len_total|]. intros ? ->.
  case_match; [by apply parser_ret|].
  apply parser_require, room_ret_r, room_advance; [ulia|]. by apply room_ret.
Qed.

Lemma parser_into_remaining : parser bytes_wf XdrDecoder.into_remaining.
Proof.
  intros b Hb. unfold XdrDecoder.into_remaining, XdrDecoder.remaining, sbind.
  destruct (Z.eqb_spec (blen b) 0); [by split; [|constructor]|].
  unfold buf.copy_to_bytes, buf.split_to. destruct (Z.leb_spec (blen b) (blen b)); [|lia].
  split; [apply suffix_drop|by apply bytes_wf_take].
Qed.

#[export] Hint Resolve parser_read_u32 parser_read_u64 parser_read_u32_pair parser_read_u32_triple
  parser_read_bool parser_read_opaque parser_read_bool_and_opaque parser_read_string_unless
  parser_read_u32_skip_opaque_and_read_u32 parser_skip_opaque parser_into_remaining : parser.

(** Encoding a variable-length opaque of at most [u32::MAX] bytes never
    fails, takes exactly [xdr_opaque_len] bytes (a multiple of four), and
    [read_opaque] returns the same bytes and leaves exactly what followed; a
    longer value is refused by a panic before a byte is written. *)
Theorem opaque_roundtrip (v rest : bytes) :
  (blen v ≤ u32_max →
   ∃ w, freeze (XdrEncoder.put_opaque v) = Ok w
      ∧ blen w = xdr_opaque_len (blen v) ∧ (4 | blen w)
      ∧ XdrDecoder.read_opaque (w ++ rest) = (Ok v, rest))
  ∧ (u32_max < blen v → XdrEncoder.put_opaque v rest = (Panic, rest)).
Proof.
  split; [|by apply put_opaque_too_long]. intros Hv. exists (wire_opaque v). split_and!.
  - eapply emits_freeze. by apply emits_put_opaque.
  - by apply blen_wire_opaque_len.
  - rewrite blen_wire_opaque, <- Z.add_assoc.
    apply Z.divide_add_r; [by exists 1|apply xdr_padding_aligns].
  - by apply reads_opaque.
Qed.
