(* ===== verification/Ops.v ===== *)
(** * NFS data types and compound operations (src/nfs4.rs, src/nfs4/ops.rs)

    The records and enums the client exchanges with the server, the request
    operations [NfsOp] with their XDR encoding and the length the client
    computes for it beforehand, attribute sets and bitmaps, and the iterator
    over the attributes of a bitmap.  The small encoders and length helpers
    of src/nfs4/codec.rs that [NfsOp] calls are here too.

    [NfsOp.wire] is the reference image of an operation; the theorems are
    that [encode] appends exactly it, that [encoded_len] is its length, and
    that the bitmap iterator yields exactly the set bits in order. *)

From Stdlib Require Import Sorted.
From S2P Require Import Prelude Proto Errors Xdr.

(** ** Data *)

(** [struct FileHandle(Bytes)] *)
Abbreviation FileHandle := (list Z) (only parsing).

Module FileHandle.

Definition encode (fh : FileHandle) : enc unit := XdrEncoder.put_opaque fh.
Definition encoded_len (fh : FileHandle) : Z := xdr_opaque_len (blen fh).

End FileHandle.

Module StateId.

Record t : Type := mk { seqid : Z; other : bytes }.

Definition anonymous : t := mk 0 (replicate 12 0).
Definition current : t := mk 1 (replicate 12 0).

Definition encode (s : t) : enc unit :=
  let! _ := XdrEncoder.put_u32 (seqid s) in
  XdrEncoder.put_bytes (other s).

Definition encoded_len : Z := 4 + xdr_fixed_opaque_len 12.

Definition decode : dec t :=
  let! (seqid, other) := XdrDecoder.read_u32_and_bytes 12 in
  sret (mk seqid other).

(** [other] is a twelve-byte array. *)
Definition wf (s : t) : Prop := is_u32 (seqid s) ∧ bytes_wf (other s) ∧ blen (other s) = 12.

Definition wire (s : t) : bytes := wire_u32 (seqid s) ++ other s.

#[global] Instance eq_dec : EqDecision t.
Proof. solve_decision. Defined.

Lemma emits_stateid s : emits (encode s) tt (wire s).
Proof. eapply emits_bind; [apply emits_put_u32|apply emits_put_bytes]. Qed.

Lemma blen_wire s : wf s → blen (wire s) = encoded_len.
Proof. intros (_ & _ & H). unfold wire. by rewrite blen_app, blen_wire_u32, H. Qed.

Lemma parser_decode : parser wf decode.
Proof.
  eapply parser_bind; [by apply parser_read_u32_and_bytes|]. intros [a w] (Ha & Hw & Hl).
  by apply parser_ret.
Qed.

Lemma reads_decode s : wf s → reads decode (wire s) s.
Proof.
  intros (Hs & Hw & Hl) rest. unfold decode, XdrDecoder.read_u32_and_bytes, wire.
  rewrite sbind_assoc. revert rest. apply (reads_bind_lift _ _ _ 16); [done|].
  intros rest. rewrite sbind_assoc. revert rest. apply reads_require.
  { rewrite blen_app, blen_wire_u32. lia. }
  intros rest. rewrite sbind_assoc. revert rest. eapply reads_bind; [by apply reads_get_u32|].
  intros rest. unfold sbind, buf.copy_to_slice. rewrite (reads_split 12 (other s)) by lia.
  by destruct s.
Qed.

End StateId.
#[export] Hint Resolve StateId.parser_decode : parser.
#[export] Hint Resolve StateId.emits_stateid : emits.

Module OpenedFile.
Record t : Type := mk {
  fh : FileHandle;
  stateid : StateId.t;
  close_seqid : Z;
}.
End OpenedFile.

Module FileType.

Inductive t : Type :=
| Regular
| Directory
| Other (raw : Z).

Definition from_raw (value : Z) : t :=
  if value =? NF4REG then Regular
  else if value =? NF4DIR then Directory
  else Other value.

#[global] Instance eq_dec : EqDecision t.
Proof. solve_decision. Defined.

End FileType.

Module FileAttrs.
Record t : Type := mk {
  file_type : option FileType.t;
  size : option Z;
}.

Definition default : t := mk None None.
End FileAttrs.

Module DirEntry.
Record t : Type := mk { name : str }.
End DirEntry.

Module DirPage.
Record t : Type := mk {
  entries : list DirEntry.t;
  eof : bool;
  verifier : bytes;
  last_cookie : Z;
}.
End DirPage.

Module SequenceArgs.
Record t : Type := mk {
  sessionid : bytes;
  sequenceid : Z;
  slotid : Z;
  highest_slotid : Z;
  cachethis : bool;
}.
End SequenceArgs.

Module NfsConfig.

Record t : Type := mk {
  export : str;
  read_chunk_size : Z;
  read_granularity : Z;
  write_chunk_size : Z;
  pipeline_write_chunks : bool;
  readdir_dircount : Z;
  readdir_maxcount : Z;
  file_mode : Z;
  dir_mode : Z;
  session_slots : Z;
  max_request_size : Z;
  max_response_size : Z;
  max_compound_ops : Z;
  operation_timeout : option Duration;
  transient_retries : Z;
  transient_retry_delay : Duration;
}.

(** [Duration::from_secs] *)
Definition from_secs (s : Z) : Duration := s * 10 ^ 9.

Definition new (export : str) : t :=
  mk export (1024 * 1024) (128 * 1024) (1024 * 1024) true (64 * 1024) (1024 * 1024)
     420 (* 0o644 *) 493 (* 0o755 *) 64 (16 * 1024 * 1024) DEFAULT_MAX_RESPONSE_SIZE u32_max
     (Some (from_secs 30)) 5 (from_secs 1).

(** The [u32] fields. *)
Definition wf (c : t) : Prop :=
  is_u32 (read_chunk_size c) ∧ is_u32 (read_granularity c) ∧ is_u32 (write_chunk_size c)
  ∧ is_u32 (readdir_dircount c) ∧ is_u32 (readdir_maxcount c) ∧ is_u32 (file_mode c)
  ∧ is_u32 (dir_mode c) ∧ is_u32 (session_slots c) ∧ is_u32 (max_request_size c)
  ∧ is_u32 (max_response_size c) ∧ is_u32 (max_compound_ops c) ∧ is_u32 (transient_retries c).

End NfsConfig.

Module WriteStability.

Inductive t : Type := Unstable | DataSync | FileSync.

#[global] Instance eq_dec : EqDecision t.
Proof. solve_decision. Defined.

Definition from_raw (value : Z) : res Error.t t :=
  if value =? UNSTABLE4 then Ok Unstable
  else if value =? DATA_SYNC4 then Ok DataSync
  else if value =? FILE_SYNC4 then Ok FileSync
  else Err (Error.protocol "server returned invalid write stable_how {other}").

End WriteStability.

Module ReadData.
Record t : Type := mk { eof : bool; data : bytes }.
End ReadData.

Module WriteData.
Record t : Type := mk { count : Z; committed : WriteStability.t; verifier : bytes }.

Definition requires_commit (w : t) : bool :=
  negb (bool_decide (committed w = WriteStability.FileSync)).
End WriteData.

(** ** Length helpers (src/nfs4/codec.rs) *)

Definition xdr_string_len (value : str) : Z := xdr_opaque_len (blen value).

Definition saturating_encoded_len (parts : list Z) : Z := foldl saturating_add 0 parts.

Definition channel_attrs_len : Z := 7 * 4.

Definition encode_channel_attrs (max_request max_response slots : Z) : enc unit :=
  let! _ := XdrEncoder.put_u32 0 in
  let! _ := XdrEncoder.put_u32 max_request in
  let! _ := XdrEncoder.put_u32 max_response in
  let! _ := XdrEncoder.put_u32 max_response in
  let! _ := XdrEncoder.put_u32 64 in
  let! _ := XdrEncoder.put_u32 slots in
  XdrEncoder.put_u32 0.

Definition require_bitmap_words (len : Z) : dec Z :=
  let! bytes := slift (ok_or (checked_mul len 4) (Error.xdr "bitmap byte length overflow")) in
  let! remaining := XdrDecoder.remaining in
  if remaining <? bytes then
    sfail (Error.xdr "bitmap length {len} exceeds remaining XDR words")
  else sret bytes.

(** ** Attribute sets and bitmaps *)

Module SetAttrs.

Record t : Type := mk { size : option Z; mode : option Z }.

Definition is_some {A} (o : option A) : bool := match o with Some _ => true | None => false end.

Definition bitmap_words (a : t) : Z :=
  if is_some (mode a) then FATTR4_MODE / 32 + 1
  else if is_some (size a) then FATTR4_SIZE / 32 + 1
  else 0.

Definition bitmap_word (a : t) (word_index : Z) : Z :=
  let word := 0 in
  let word :=
    if is_some (size a) && (FATTR4_SIZE / 32 =? as_u32 word_index)
    then Z.lor word (Z.shiftl 1 (FATTR4_SIZE `mod` 32)) else word in
  if is_some (mode a) && (FATTR4_MODE / 32 =? as_u32 word_index)
  then Z.lor word (Z.shiftl 1 (FATTR4_MODE `mod` 32)) else word.

Definition values_len (a : t) : Z :=
  saturating_add
    (match size a with Some _ => 8 | None => 0 end)
    (match mode a with Some _ => 4 | None => 0 end).

Definition encode (a : t) : enc unit :=
  let words := bitmap_words a in
  let! _ := XdrEncoder.put_u32 (as_u32 words) in
  let! _ := for_each (λ word_index, XdrEncoder.put_u32 (bitmap_word a word_index))
                     (seqZ 0 words) in
  let values := values_len a in
  let! _ := XdrEncoder.put_u32 (as_u32 values) in
  let! _ := match size a with Some size => XdrEncoder.put_u64 size | None => sret tt end in
  match mode a with Some mode => XdrEncoder.put_u32 mode | None => sret tt end.

Definition encoded_len (a : t) : Z :=
  let bitmap_len := saturating_add 4 (saturating_mul (bitmap_words a) 4) in
  saturating_add bitmap_len (xdr_opaque_len (values_len a)).

End SetAttrs.

(** [struct Bitmap { words }] *)
Module Bitmap.

Record t : Type := mk { words : list Z }.

Definition inline_word (word : Z) : t := mk [word].
Definition empty : t := mk [].
Definition size_attr : t := inline_word (Z.shiftl 1 FATTR4_SIZE).
Definition type_and_size_attrs : t :=
  inline_word (Z.lor (Z.shiftl 1 FATTR4_TYPE) (Z.shiftl 1 FATTR4_SIZE)).

Definition encode (b : t) : enc unit :=
  let! _ := XdrEncoder.put_u32 (as_u32 (blen (words b))) in
  for_each XdrEncoder.put_u32 (words b).

Definition encoded_len (b : t) : Z := saturating_add 4 (saturating_mul (blen (words b)) 4).

(** [for _ in 0..len { words.push(dec.read_u32_after_require()) }] *)
Fixpoint read_words (n : nat) : dec (list Z) :=
  match n with
  | O => sret []
  | S n' =>
      let! w := XdrDecoder.read_u32_after_require in
      let! ws := read_words n' in
      sret (w :: ws)
  end.

Definition decode_after_len (len : Z) : dec t :=
  let! _ := require_bitmap_words len in
  let! words := read_words (Z.to_nat len) in
  sret (mk words).

Definition wf (b : t) : Prop := Forall is_u32 (words b).

End Bitmap.

Module AttrRequest.

Inductive t : Type := Size | TypeAndSize.

Definition bitmap (r : t) : Bitmap.t :=
  match r with
  | Size => Bitmap.size_attr
  | TypeAndSize => Bitmap.type_and_size_attrs
  end.

End AttrRequest.

(** [u32::trailing_zeros] *)
Fixpoint pos_trailing_zeros (p : positive) : Z :=
  match p with
  | xO p' => 1 + pos_trailing_zeros p'
  | _ => 0
  end.

Definition trailing_zeros (w : Z) : Z :=
  match w with Zpos p => pos_trailing_zeros p | _ => 32 end.

Module BitmapAttrs.

Record t : Type := mk {
  words : list Z;
  word_index : nat;
  current_word : Z;
  current_word_index : Z;
}.

(** The body of [next]'s loop runs at most once per word left and once more;
    [next] gives it that much fuel. *)
Fixpoint next_loop (fuel : nat) (it : t) : option Z * t :=
  match fuel with
  | O => (None, it)
  | S fuel' =>
      if negb (current_word it =? 0) then
        let bit := trailing_zeros (current_word it) in
        let it' := mk (words it) (word_index it)
                      (Z.land (current_word it) (current_word it - 1)) (current_word_index it) in
        (Some (wrap32 (current_word_index it * 32 + bit)), it')
      else
        match words it !! word_index it with
        | None => (None, it)
        | Some w =>
            next_loop fuel'
              (mk (words it) (word_index it + 1) w (as_u32 (Z.of_nat (word_index it))))
        end
  end.

Definition next (it : t) : option Z * t :=
  next_loop (S (S (length (words it) - word_index it))) it.

(** A [for] loop over the iterator sees the values [next] returns until it
    returns [None]. *)
Fixpoint collect_loop (fuel : nat) (it : t) : list Z :=
  match fuel with
  | O => []
  | S fuel' =>
      match next it with
      | (Some a, it') => a :: collect_loop fuel' it'
      | (None, _) => []
      end
  end.

Definition collect (it : t) : list Z := collect_loop (S (32 * length (words it))) it.

End BitmapAttrs.

Definition Bitmap_attrs (b : Bitmap.t) : BitmapAttrs.t := BitmapAttrs.mk (Bitmap.words b) 0 0 0.

(** ** Operations *)

Module NfsOp.

Inductive t : Type :=
| PutRootFh
| PutFh (fh : FileHandle)
| Lookup (name : str)
| SaveFh
| RestoreFh
| GetFh
| GetAttr (bitmap : Bitmap.t)
| Open (seqid clientid : Z) (owner : bytes) (name : str) (file_mode : Z)
| Close (seqid : Z) (stateid : StateId.t)
| Read (stateid : StateId.t) (offset count : Z)
| Write (stateid : StateId.t) (offset : Z) (data : bytes)
| Commit (offset count : Z)
| Link (name : str)
| Remove (name : str)
| Verify (size : Z)
| Rename (old_name new_name : str)
| CreateDir (name : str) (mode : Z)
| ReadDir (cookie : Z) (verifier : bytes) (dircount maxcount : Z) (attrs : Bitmap.t)
| ExchangeId (verifier owner : bytes)
| CreateSession (clientid sequenceid : Z) (config : NfsConfig.t)
| ReclaimComplete (one_fs : bool).

Definition opcode (op : t) : OpCode.t :=
  match op with
  | PutRootFh => OpCode.PutRootFh
  | PutFh _ => OpCode.PutFh
  | Lookup _ => OpCode.Lookup
  | SaveFh => OpCode.SaveFh
  | RestoreFh => OpCode.RestoreFh
  | GetFh => OpCode.GetFh
  | GetAttr _ => OpCode.GetAttr
  | Open _ _ _ _ _ => OpCode.Open
  | Close _ _ => OpCode.Close
  | Read _ _ _ => OpCode.Read
  | Write _ _ _ => OpCode.Write
  | Commit _ _ => OpCode.Commit
  | Link _ => OpCode.Link
  | Remove _ => OpCode.Remove
  | Verify _ => OpCode.Verify
  | Rename _ _ => OpCode.Rename
  | CreateDir _ _ => OpCode.Create
  | ReadDir _ _ _ _ _ => OpCode.ReadDir
  | ExchangeId _ _ => OpCode.ExchangeId
  | CreateSession _ _ _ => OpCode.CreateSession
  | ReclaimComplete _ => OpCode.ReclaimComplete
  end.

Definition put_op (op : OpCode.t) : enc unit := XdrEncoder.put_u32 (OpCode.as_u32 op).

Definition encode (op : t) : enc unit :=
  match op with
  | PutRootFh => put_op OpCode.PutRootFh
  | PutFh fh =>
      let! _ := put_op OpCode.PutFh in
      FileHandle.encode fh
  | Lookup name =>
      let! _ := put_op OpCode.Lookup in
      XdrEncoder.put_string name
  | SaveFh => put_op OpCode.SaveFh
  | RestoreFh => put_op OpCode.RestoreFh
  | Verify size =>
      let! _ := put_op OpCode.Verify in
      SetAttrs.encode (SetAttrs.mk (Some size) None)
  | GetFh => put_op OpCode.GetFh
  | GetAttr bitmap =>
      let! _ := put_op OpCode.GetAttr in
      Bitmap.encode bitmap
  | Open seqid clientid owner name file_mode =>
      let! _ := put_op OpCode.Open in
      let! _ := XdrEncoder.put_u32 seqid in
      let! _ := XdrEncoder.put_u32
                  (Z.lor OPEN4_SHARE_ACCESS_WRITE OPEN4_SHARE_ACCESS_WANT_NO_DELEG) in
      let! _ := XdrEncoder.put_u32 OPEN4_SHARE_DENY_NONE in
      let! _ := XdrEncoder.put_u64 clientid in
      let! _ := XdrEncoder.put_opaque owner in
      let! _ := XdrEncoder.put_u32 OPEN_CREATE in
      let! _ := XdrEncoder.put_u32 CREATE_GUARDED in
      let! _ := SetAttrs.encode (SetAttrs.mk (Some 0) (Some file_mode)) in
      let! _ := XdrEncoder.put_u32 CLAIM_NULL in
      XdrEncoder.put_string name
  | Close seqid stateid =>
      let! _ := put_op OpCode.Close in
      let! _ := XdrEncoder.put_u32 seqid in
      StateId.encode stateid
  | Read stateid offset count =>
      let! _ := put_op OpCode.Read in
      let! _ := StateId.encode stateid in
      let! _ := XdrEncoder.put_u64 offset in
      XdrEncoder.put_u32 count
  | Write stateid offset data =>
      let! _ := put_op OpCode.Write in
      let! _ := StateId.encode stateid in
      let! _ := XdrEncoder.put_u64 offset in
      let! _ := XdrEncoder.put_u32 UNSTABLE4 in
      XdrEncoder.put_opaque data
  | Commit offset count =>
      let! _ := put_op OpCode.Commit in
      let! _ := XdrEncoder.put_u64 offset in
      XdrEncoder.put_u32 count
  | Link name =>
      let! _ := put_op OpCode.Link in
      XdrEncoder.put_string name
  | Remove name =>
      let! _ := put_op OpCode.Remove in
      XdrEncoder.put_string name
  | Rename old_name new_name =>
      let! _ := put_op OpCode.Rename in
      let! _ := XdrEncoder.put_string old_name in
      XdrEncoder.put_string new_name
  | CreateDir name mode =>
      let! _ := put_op OpCode.Create in
      let! _ := XdrEncoder.put_u32 NF4DIR in
      let! _ := XdrEncoder.put_string name in
      SetAttrs.encode (SetAttrs.mk None (Some mode))
  | ReadDir cookie verifier dircount maxcount attrs =>
      let! _ := put_op OpCode.ReadDir in
      let! _ := XdrEncoder.put_u64 cookie in
      let! _ := XdrEncoder.put_bytes verifier in
      let! _ := XdrEncoder.put_u32 dircount in
      let! _ := XdrEncoder.put_u32 maxcount in
      Bitmap.encode attrs
  | ExchangeId verifier owner =>
      let! _ := put_op OpCode.ExchangeId in
      let! _ := XdrEncoder.put_bytes verifier in
      let! _ := XdrEncoder.put_opaque owner in
      let! _ := XdrEncoder.put_u32 EXCHGID4_FLAG_USE_NON_PNFS in
      let! _ := XdrEncoder.put_u32 SP4_NONE in
      XdrEncoder.put_u32 0
  | CreateSession clientid sequenceid config =>
      let! _ := put_op OpCode.CreateSession in
      let! _ := XdrEncoder.put_u64 clientid in
      let! _ := XdrEncoder.put_u32 sequenceid in
      let! _ := XdrEncoder.put_u32 0 in
      let! _ := encode_channel_attrs (NfsConfig.max_request_size config)
                  (NfsConfig.max_response_size config) (NfsConfig.session_slots config) in
      let! _ := encode_channel_attrs 8192 8192 1 in
      let! _ := XdrEncoder.put_u32 0 in
      XdrEncoder.put_u32 0
  | ReclaimComplete one_fs =>
      let! _ := put_op OpCode.ReclaimComplete in
      XdrEncoder.put_bool one_fs
  end.

Definition encoded_len (op : t) : Z :=
  let payload_len :=
    match op with
    | PutRootFh | GetFh | SaveFh | RestoreFh => 0
    | Verify _ => SetAttrs.encoded_len (SetAttrs.mk (Some 0) None)
    | PutFh fh => FileHandle.encoded_len fh
    | Lookup name | Link name | Remove name => xdr_string_len name
    | GetAttr bitmap => Bitmap.encoded_len bitmap
    | Open _ _ owner name _ =>
        let create_len :=
          saturating_add 4 (SetAttrs.encoded_len (SetAttrs.mk (Some 0) (Some 0))) in
        saturating_encoded_len
          [4; 4; 4; 8; xdr_opaque_len (blen owner); 4; create_len; 4; xdr_string_len name]
    | Close _ _ => saturating_add 4 StateId.encoded_len
    | Read _ _ _ => saturating_encoded_len [StateId.encoded_len; 8; 4]
    | Write _ _ data =>
        saturating_encoded_len [StateId.encoded_len; 8; 4; xdr_opaque_len (blen data)]
    | Commit _ _ => saturating_add 8 4
    | Rename old_name new_name =>
        saturating_add (xdr_string_len old_name) (xdr_string_len new_name)
    | CreateDir name _ =>
        saturating_encoded_len
          [4; xdr_string_len name; SetAttrs.encoded_len (SetAttrs.mk None (Some 0))]
    | ReadDir _ _ _ _ attrs =>
        saturating_encoded_len [8; xdr_fixed_opaque_len 8; 4; 4; Bitmap.encoded_len attrs]
    | ExchangeId _ owner =>
        saturating_encoded_len [xdr_fixed_opaque_len 8; xdr_opaque_len (blen owner); 4; 4; 4]
    | CreateSession _ _ _ =>
        saturating_encoded_len [8; 4; 4; channel_attrs_len; channel_attrs_len; 4; 4]
    | ReclaimComplete _ => 4
    end in
  saturating_add 4 payload_len.

(** ** The reference image of an operation *)

(** An attribute set with a size has bit 4 of word 0, with a mode bit 1 of
    word 1 (attribute 33); the values follow as one opaque in bit order. *)
Definition wire_attrs (a : SetAttrs.t) : bytes :=
  match SetAttrs.size a, SetAttrs.mode a with
  | None, None => wire_u32 0 ++ wire_u32 0
  | Some s, None => wire_u32 1 ++ wire_u32 16 ++ wire_opaque (wire_u64 s)
  | None, Some m => wire_u32 2 ++ wire_u32 0 ++ wire_u32 2 ++ wire_opaque (wire_u32 m)
  | Some s, Some m =>
      wire_u32 2 ++ wire_u32 16 ++ wire_u32 2 ++ wire_opaque (wire_u64 s ++ wire_u32 m)
  end.

Definition wire_bitmap (b : Bitmap.t) : bytes :=
  wire_u32 (blen (Bitmap.words b)) ++ mjoin (wire_u32 <$> Bitmap.words b).

Definition wire_channel (max_request max_response slots : Z) : bytes :=
  wire_u32 0 ++ wire_u32 max_request ++ wire_u32 max_response ++ wire_u32 max_response
  ++ wire_u32 64 ++ wire_u32 slots ++ wire_u32 0.

Definition wire_args (op : t) : bytes :=
  match op with
  | PutRootFh | SaveFh | RestoreFh | GetFh => []
  | PutFh fh => wire_opaque fh
  | Lookup name | Link name | Remove name => wire_opaque name
  | GetAttr b => wire_bitmap b
  | Open seqid clientid owner name mode =>
      wire_u32 seqid ++ wire_u32 0x402 ++ wire_u32 0 ++ wire_u64 clientid ++ wire_opaque owner
      ++ wire_u32 1 ++ wire_u32 1 ++ wire_attrs (SetAttrs.mk (Some 0) (Some mode))
      ++ wire_u32 0 ++ wire_opaque name
  | Close seqid stateid => wire_u32 seqid ++ StateId.wire stateid
  | Read stateid offset count => StateId.wire stateid ++ wire_u64 offset ++ wire_u32 count
  | Write stateid offset data =>
      StateId.wire stateid ++ wire_u64 offset ++ wire_u32 0 ++ wire_opaque data
  | Commit offset count => wire_u64 offset ++ wire_u32 count
  | Verify size => wire_attrs (SetAttrs.mk (Some size) None)
  | Rename old_name new_name => wire_opaque old_name ++ wire_opaque new_name
  | CreateDir name mode =>
      wire_u32 2 ++ wire_opaque name ++ wire_attrs (SetAttrs.mk None (Some mode))
  | ReadDir cookie verifier dircount maxcount attrs =>
      wire_u64 cookie ++ verifier ++ wire_u32 dircount ++ wire_u32 maxcount ++ wire_bitmap attrs
  | ExchangeId verifier owner =>
      verifier ++ wire_opaque owner ++ wire_u32 0x10000 ++ wire_u32 0 ++ wire_u32 0
  | CreateSession clientid sequenceid config =>
      wire_u64 clientid ++ wire_u32 sequenceid ++ wire_u32 0
      ++ wire_channel (NfsConfig.max_request_size config)
           (NfsConfig.max_response_size config) (NfsConfig.session_slots config)
      ++ wire_channel 8192 8192 1 ++ wire_u32 0 ++ wire_u32 0
  | ReclaimComplete one_fs => wire_bool one_fs
  end.

Definition wire (op : t) : bytes := wire_u32 (OpCode.as_u32 (opcode op)) ++ wire_args op.

(** The fixed-size arrays have their size and no variable-length field
    overflows its 32-bit length word. *)
Definition wf (op : t) : Prop :=
  match op with
  | PutFh v | Lookup v | Link v | Remove v => blen v ≤ u32_max
  | GetAttr b => blen (Bitmap.words b) ≤ u32_max
  | Open _ _ owner name _ => blen owner ≤ u32_max ∧ blen name ≤ u32_max
  | Close _ s | Read s _ _ => StateId.wf s
  | Write s _ data => StateId.wf s ∧ blen data ≤ u32_max
  | Rename a b => blen a ≤ u32_max ∧ blen b ≤ u32_max
  | CreateDir name _ => blen name ≤ u32_max
  | ReadDir _ verifier _ _ b => blen verifier = 8 ∧ blen (Bitmap.words b) ≤ u32_max
  | ExchangeId verifier owner => blen verifier = 8 ∧ blen owner ≤ u32_max
  | _ => True
  end.

Lemma emits_for_each {A} (f : A → enc unit) (g : A → bytes) l :
  (∀ x, x ∈ l → emits (f x) tt (g x)) → emits (for_each f l) tt (mjoin (g <$> l)).
Proof.
  induction l as [|x l IH]; intros H; [apply emits_ret|]. cbn [for_each fmap list_fmap mjoin list_join].
  eapply emits_bind; [apply H; left|]. apply IH. intros y Hy. apply H. by right.
Qed.

Lemma emits_attrs a : emits (SetAttrs.encode a) tt (wire_attrs a).
Proof.
  destruct a as [[s|] [m|]]; unfold SetAttrs.encode; cbn [SetAttrs.size SetAttrs.mode];
    (eapply emits_eq;
     [ eapply emits_bind; [apply emits_put_u32|];
       eapply emits_bind; [apply emits_for_each; intros; apply emits_put_u32|];
       eapply emits_bind; [apply emits_put_u32|];
       eapply emits_bind; eauto with emits
     | done ]).
Qed.

Lemma emits_bitmap b : blen (Bitmap.words b) ≤ u32_max →
  emits (Bitmap.encode b) tt (wire_bitmap b).
Proof.
  intros Hb. eapply emits_bind; [|apply emits_for_each; intros; apply emits_put_u32].
  unfold as_u32, wrap32. rewrite Z.mod_small; [apply emits_put_u32|].
  pose proof (blen_nonneg (Bitmap.words b)). ulia.
Qed.

Lemma emits_channel a b c : emits (encode_channel_attrs a b c) tt (wire_channel a b c).
Proof. repeat (eapply emits_bind; [solve [eauto with emits]|]). eauto with emits. Qed.

Lemma emits_put_op op : emits (put_op op) tt (wire_u32 (OpCode.as_u32 op)).
Proof. apply emits_put_u32. Qed.

Lemma emits_put_string v : blen v ≤ u32_max → emits (XdrEncoder.put_string v) tt (wire_opaque v).
Proof. apply emits_put_opaque. Qed.

Lemma emits_put_fh v : blen v ≤ u32_max → emits (FileHandle.encode v) tt (wire_opaque v).
Proof. apply emits_put_opaque. Qed.

#[local] Hint Resolve emits_attrs emits_bitmap emits_channel emits_put_op emits_put_string
  emits_put_fh : emits.

(** The encoder appends the reference image. *)
Lemma emits_encode op : wf op → emits (encode op) tt (wire op).
Proof.
  destruct op; cbn [wf]; intros Hwf; destruct_and?; unfold wire; cbn [opcode wire_args encode];
    rewrite ?app_nil_r;
    repeat first [solve [eauto with emits] | eapply emits_bind; [solve [eauto with emits]|]].
Qed.

(** ** Lengths *)

Lemma blen_join_u32 ws : blen (mjoin (wire_u32 <$> ws)) = 4 * blen ws.
Proof.
  induction ws as [|w ws IH]; [done|].
  change (mjoin _) with (wire_u32 w ++ mjoin (wire_u32 <$> ws)).
  rewrite blen_app, blen_wire_u32, blen_cons. lia.
Qed.

Lemma blen_wire_attrs a : blen (wire_attrs a) = SetAttrs.encoded_len a.
Proof.
  destruct a as [[s|] [m|]]; cbn -[wire_u32 wire_u64 wire_opaque blen SetAttrs.encoded_len];
    autorewrite with wire; reflexivity.
Qed.

Lemma blen_wire_bitmap b : blen (wire_bitmap b) = 4 + 4 * blen (Bitmap.words b).
Proof. unfold wire_bitmap. by rewrite blen_app, blen_wire_u32, blen_join_u32. Qed.

Lemma blen_wire_channel a b c : blen (wire_channel a b c) = channel_attrs_len.
Proof. unfold wire_channel. autorewrite with wire. done. Qed.

(** [encoded_len] is the number of bytes [encode] writes: the capacity
    reserved is exact and the size checked against the negotiated limit is
    the size sent. *)
Lemma encoded_len_wire op : wf op → encoded_len op = blen (wire op).
Proof.
  intros Hwf. unfold wire. rewrite blen_app, blen_wire_u32.
  assert (Hlen : encoded_len op = 4 + blen (wire_args op)); [|lia].
  destruct op; cbn [wf] in Hwf; destruct_and?; unfold encoded_len; cbn [wire_args];
    unfold FileHandle.encoded_len, xdr_string_len, Bitmap.encoded_len, saturating_encoded_len;
    rewrite ?blen_app, ?blen_wire_u32, ?blen_wire_u64, ?blen_wire_bool, ?blen_wire_attrs,
      ?blen_wire_bitmap, ?blen_wire_channel, ?StateId.blen_wire, ?blen_wire_opaque_len by done;
    length_bounds; rewrite ?xdr_opaque_len_small by done; length_bounds;
    repeat match goal with
    | |- context [SetAttrs.encoded_len ?a] =>
        let v := eval vm_compute in (SetAttrs.encoded_len a) in
        change (SetAttrs.encoded_len a) with v
    end;
    change StateId.encoded_len with 16; change channel_attrs_len with 28;
    change (xdr_fixed_opaque_len 8) with 8; change (xdr_fixed_opaque_len 12) with 12;
    cbn [foldl]; solve [done | ulia].
Qed.

End NfsOp.

(** Every operation whose variable-length fields fit their 32-bit length
    words is encoded without a panic as exactly its RFC image ([NfsOp.wire]),
    appended to the buffer; [encoded_len] is exactly the number of bytes
    written. *)
Theorem op_encode_exact (op : NfsOp.t) (b : bytes) :
  NfsOp.wf op →
  NfsOp.encode op b = (Ok tt, b ++ NfsOp.wire op)
  ∧ NfsOp.encoded_len op = blen (NfsOp.wire op).
Proof.
  intros Hwf. split; [by apply NfsOp.emits_encode|by apply NfsOp.encoded_len_wire].
Qed.

Lemma op_encode_exact_witness :
  NfsOp.encode (NfsOp.Open 7 9 [1; 2; 3] (str_of "data.bin") 420) []
    = (Ok tt, [] ++ NfsOp.wire (NfsOp.Open 7 9 [1; 2; 3] (str_of "data.bin") 420))
  ∧ NfsOp.encoded_len (NfsOp.Open 7 9 [1; 2; 3] (str_of "data.bin") 420)
    = blen (NfsOp.wire (NfsOp.Open 7 9 [1; 2; 3] (str_of "data.bin") 420)).
Proof. apply op_encode_exact. split; vm_compute; discriminate. Defined.

(** ** Decoding bitmaps *)

Lemma room_read_words n : room (4 * Z.of_nat n) (λ ws, Forall is_u32 ws ∧ length ws = n)
  (Bitmap.read_words n).
Proof.
  induction n as [|n IH]; [by apply room_ret|]. cbn [Bitmap.read_words].
  apply room_u32; [lia|]. intros w Hw b Hb Hn.
  specialize (IH b Hb ltac:(lia)). unfold sbind. destruct (Bitmap.read_words n b) as [[ws|e|] b'].
  - destruct IH as [Hs [Hws Hl]]. split; [done|]. split; [by constructor|simpl; lia].
  - done.
  - done.
Qed.

Lemma require_bitmap_words_ok len b :
  0 ≤ len → 4 * len ≤ blen b → 4 * len ≤ usize_max →
  require_bitmap_words len b = (Ok (4 * len), b).
Proof.
  intros H0 H1 H2. unfold require_bitmap_words, checked_mul, sbind, slift.
  destruct (Z.leb_spec (len * 4) usize_max); [|lia]. cbn -[Z.mul].
  destruct (Z.ltb_spec (blen b) (len * 4)); [lia|]. unfold sret. do 2 f_equal. lia.
Qed.

Lemma parser_require_bitmap_words {A} len (Q : A → Prop) (f : Z → dec A) :
  (0 ≤ len * 4 → room (len * 4) Q (f (len * 4))) → 0 ≤ len →
  parser Q (sbind (require_bitmap_words len) f).
Proof.
  intros Hf Hlen b Hb. unfold require_bitmap_words, checked_mul, sbind, slift.
  destruct (Z.leb_spec (len * 4) usize_max); [|by simpl]. cbn -[Z.mul].
  destruct (Z.ltb_spec (blen b) (len * 4)); [by simpl|]. unfold sret.
  apply Hf; [lia|done|lia].
Qed.

Lemma parser_decode_after_len len : 0 ≤ len → parser Bitmap.wf (Bitmap.decode_after_len len).
Proof.
  intros Hlen. apply parser_require_bitmap_words; [|done]. intros _ b Hb Hn.
  pose proof (room_read_words (Z.to_nat len) b Hb ltac:(lia)) as H. unfold sbind.
  destruct (Bitmap.read_words _ b) as [[ws|e|] b']; [|done|done].
  destruct H as [Hs [Hws _]]. by split.
Qed.

Lemma reads_read_words ws : Forall is_u32 ws →
  reads (Bitmap.read_words (length ws)) (mjoin (wire_u32 <$> ws)) ws.
Proof.
  induction 1 as [|w ws Hw _ IH]; [apply reads_ret|].
  change (mjoin _) with (wire_u32 w ++ mjoin (wire_u32 <$> ws)). cbn [length Bitmap.read_words].
  eapply reads_bind; [by apply reads_get_u32|]. rewrite <- (app_nil_r (mjoin _)).
  eapply reads_bind; [exact IH|apply reads_ret].
Qed.

Lemma reads_bitmap b : Bitmap.wf b → blen (Bitmap.words b) ≤ u32_max →
  reads (Bitmap.decode_after_len (blen (Bitmap.words b)))
    (mjoin (wire_u32 <$> Bitmap.words b)) b.
Proof.
  intros Hwf Hlen rest. pose proof (blen_nonneg (Bitmap.words b)). unfold Bitmap.decode_after_len, sbind at 1.
  rewrite require_bitmap_words_ok; [|lia| |ulia].
  2:{ rewrite blen_app, NfsOp.blen_join_u32. pose proof (blen_nonneg rest). lia. }
  unfold sbind, blen. rewrite Nat2Z.id, reads_read_words by done. by destruct b.
Qed.

(** ** The bitmap iterator *)

Lemma pos_trailing_zeros_nonneg p : 0 ≤ pos_trailing_zeros p.
Proof. induction p; simpl; lia. Qed.

(** Clearing the lowest set bit: [w & (w - 1)] keeps every other bit. *)
Lemma trailing_zeros_spec w j : 0 < w → 0 ≤ j →
  Z.testbit w (trailing_zeros w) = true
  ∧ (j < trailing_zeros w → Z.testbit w j = false)
  ∧ Z.testbit (Z.land w (w - 1)) j = Z.testbit w j && negb (j =? trailing_zeros w).
Proof.
  destruct w as [|p|]; [lia| |lia]. intros _. cbn [trailing_zeros]. revert j.
  induction p as [p IH|p IH|]; intros j Hj; cbn [pos_trailing_zeros].
  - split; [done|]. split; [lia|].
    replace (Z.pos p~1 - 1) with (2 * Z.pos p) by lia. replace (Z.pos p~1) with (2 * Z.pos p + 1) by lia.
    rewrite Z.land_spec. destruct (decide (j = 0)) as [->|Hj0].
    { rewrite Z.testbit_odd_0, Z.testbit_even_0. done. }
    replace j with (Z.succ (j - 1)) by lia.
    rewrite Z.testbit_odd_succ, Z.testbit_even_succ by lia.
    destruct (Z.eqb_spec (Z.succ (j - 1)) 0); [lia|]. by rewrite andb_diag, andb_true_r.
  - pose proof (pos_trailing_zeros_nonneg p).
    change (Z.pos p~0) with (2 * Z.pos p). replace (1 + pos_trailing_zeros p) with (Z.succ (pos_trailing_zeros p)) by lia.
    rewrite Z.testbit_even_succ by lia. split; [apply (IH 0); lia|].
    replace (2 * Z.pos p - 1) with (2 * (Z.pos p - 1) + 1) by lia. rewrite Z.land_spec.
    destruct (decide (j = 0)) as [->|Hj0].
    { rewrite Z.testbit_even_0. done. }
    replace j with (Z.succ (j - 1)) by lia.
    rewrite Z.testbit_odd_succ, Z.testbit_even_succ by lia.
    destruct (IH (j - 1) ltac:(lia)) as (_ & Hlow & Hclr). rewrite Z.land_spec in Hclr. split.
    + intros. apply Hlow. lia.
    + rewrite Hclr. f_equal. f_equal. destruct (Z.eqb_spec (j - 1) (pos_trailing_zeros p));
        destruct (Z.eqb_spec (Z.succ (j - 1)) (Z.succ (pos_trailing_zeros p))); lia.
  - split; [done|]. split; [lia|]. change (1 - 1) with 0. rewrite Z.land_0_r, Z.bits_0.
    destruct (Z.eqb_spec j 0) as [->|]; [done|]. rewrite andb_true_r. symmetry.
    apply Z.bits_above_log2; simpl; lia.
Qed.

(** Attribute [a] is set in a bitmap. *)
Definition attr_set (words : list Z) (a : Z) : Prop :=
  0 ≤ a ∧ ∃ w, words !! Z.to_nat (a / 32) = Some w ∧ Z.testbit w (a `mod` 32) = true.

(** What the iterator still has to yield. *)
Definition attr_pending (it : BitmapAttrs.t) (a : Z) : Prop :=
  (0 ≤ a ∧ a / 32 = BitmapAttrs.current_word_index it
     ∧ Z.testbit (BitmapAttrs.current_word it) (a `mod` 32) = true)
  ∨ (Z.of_nat (BitmapAttrs.word_index it) ≤ a / 32 ∧ attr_set (BitmapAttrs.words it) a).

Definition iter_inv (it : BitmapAttrs.t) : Prop :=
  Forall is_u32 (BitmapAttrs.words it) ∧ Z.of_nat (length (BitmapAttrs.words it)) ≤ 2 ^ 27
  ∧ is_u32 (BitmapAttrs.current_word it)
  ∧ (BitmapAttrs.word_index it ≤ length (BitmapAttrs.words it))%nat
  ∧ (BitmapAttrs.current_word it ≠ 0 →
     BitmapAttrs.current_word_index it + 1 = Z.of_nat (BitmapAttrs.word_index it))
  ∧ 0 ≤ BitmapAttrs.current_word_index it.

Lemma testbit_u32_high w j : is_u32 w → Z.testbit w j = true → 0 ≤ j < 32.
Proof.
  intros Hw Hj. destruct (decide (0 ≤ j)); [|by rewrite Z.testbit_neg_r in Hj by lia].
  split; [done|]. destruct (decide (j < 32)); [done|].
  rewrite (Z.bits_above_log2 w j) in Hj; [done|ulia|].
  destruct (decide (w = 0)) as [->|]; [simpl; lia|].
  apply Z.log2_lt_pow2; [ulia|]. assert (2 ^ 32 ≤ 2 ^ j) by (apply Z.pow_le_mono_r; lia). ulia.
Qed.

Lemma land_u32 a b : is_u32 a → is_u32 (Z.land a b).
Proof.
  intros Ha. assert (Hones : Z.land a (Z.ones 32) = a).
  { rewrite Z.land_ones by lia. apply Z.mod_small. ulia. }
  rewrite <- Hones, <- Z.land_assoc, (Z.land_comm (Z.ones 32)), Z.land_assoc, Z.land_ones by lia.
  pose proof (Z.mod_pos_bound (Z.land a b) (2 ^ 32) ltac:(lia)). ulia.
Qed.

(** Yielding the lowest bit of the current word. *)
Lemma next_bit it : iter_inv it → BitmapAttrs.current_word it ≠ 0 →
  let a := wrap32 (BitmapAttrs.current_word_index it * 32
                   + trailing_zeros (BitmapAttrs.current_word it)) in
  let it' := BitmapAttrs.mk (BitmapAttrs.words it) (BitmapAttrs.word_index it)
               (Z.land (BitmapAttrs.current_word it) (BitmapAttrs.current_word it - 1))
               (BitmapAttrs.current_word_index it) in
  iter_inv it' ∧ attr_pending it a ∧ a < 32 * Z.of_nat (length (BitmapAttrs.words it))
  ∧ (∀ b, attr_pending it' b ↔ attr_pending it b ∧ a < b) ∧ (∀ b, attr_pending it b → a ≤ b).
Proof.
  destruct it as [words wi cw cwi]. unfold iter_inv, attr_pending. cbn.
  intros (Hws & Hlen & Hcw & Hwi & Hidx & Hcwi) Hne. specialize (Hidx Hne).
  assert (Hpos : 0 < cw) by ulia.
  destruct (trailing_zeros_spec cw 0 Hpos ltac:(lia)) as (Hbit & _ & _).
  pose proof (testbit_u32_high _ _ Hcw Hbit) as Htz. set (tz := trailing_zeros cw) in *.
  assert (Hwrap : wrap32 (cwi * 32 + tz) = cwi * 32 + tz) by (apply Z.mod_small; lia).
  rewrite Hwrap. clear Hwrap.
  assert (Hdiv : (cwi * 32 + tz) / 32 = cwi) by (rewrite Z.div_add_l, Z.div_small; lia).
  assert (Hmod : (cwi * 32 + tz) `mod` 32 = tz) by (rewrite Z.add_comm, Z.mod_add, Z.mod_small; lia).
  pose proof (land_u32 cw (cw - 1) Hcw) as Hland.
  assert (Hlow : ∀ b, b / 32 = cwi → Z.testbit cw (b `mod` 32) = true → cwi * 32 + tz ≤ b).
  { intros b Hb1 Hb2. pose proof (Z.div_mod b 32 ltac:(lia)).
    pose proof (Z.mod_pos_bound b 32 ltac:(lia)).
    destruct (trailing_zeros_spec cw (b `mod` 32) Hpos ltac:(lia)) as (_ & Hz & _).
    destruct (decide (b `mod` 32 < tz)); [|lia]. rewrite Hz in Hb2 by done. done. }
  split_and!; try done; try ulia.
  - left. rewrite Hdiv, Hmod. split_and!; [lia|done|done].
  - intros b. pose proof (Z.div_mod b 32 ltac:(lia)). pose proof (Z.mod_pos_bound b 32 ltac:(lia)).
    destruct (trailing_zeros_spec cw (b `mod` 32) Hpos ltac:(lia)) as (_ & _ & Hclr).
    rewrite Hclr. split.
    + intros [(Hb0 & Hb1 & [Hb2 Hb3]%andb_prop)|[Hb1 Hb2]].
      * pose proof (Hlow b Hb1 Hb2). split; [by left|].
        apply negb_true_iff, Z.eqb_neq in Hb3. fold tz in Hb3. lia.
      * split; [by right|lia].
    + intros [[(Hb0 & Hb1 & Hb2)|Hb] Hlt]; [left|by right].
      split_and!; [done|done|]. rewrite Hb2. simpl. apply negb_true_iff, Z.eqb_neq. fold tz. lia.
  - intros b [(Hb0 & Hb1 & Hb2)|[Hb1 Hb2]]; [by apply Hlow|].
    pose proof (Z.div_mod b 32 ltac:(lia)). pose proof (Z.mod_pos_bound b 32 ltac:(lia)). lia.
Qed.

(** Loading the next word keeps what is pending. *)
Lemma load_word it w : iter_inv it → BitmapAttrs.current_word it = 0 →
  BitmapAttrs.words it !! BitmapAttrs.word_index it = Some w →
  let it' := BitmapAttrs.mk (BitmapAttrs.words it) (BitmapAttrs.word_index it + 1) w
               (as_u32 (Z.of_nat (BitmapAttrs.word_index it))) in
  iter_inv it' ∧ ∀ b, attr_pending it' b ↔ attr_pending it b.
Proof.
  destruct it as [words wi cw cwi]. unfold iter_inv, attr_pending. cbn.
  intros (Hws & Hlen & Hcw & Hwi & Hidx & Hcwi) -> Hw.
  pose proof (lookup_lt_Some _ _ _ Hw) as Hlt.
  assert (Has : as_u32 (Z.of_nat wi) = Z.of_nat wi) by (apply Z.mod_small; lia). rewrite Has.
  split.
  { split_and!; try done; try lia. by eapply (Forall_lookup_1 is_u32). }
  intros b. rewrite Z.bits_0. split.
  - intros [(Hb0 & Hb1 & Hb2)|[Hb1 Hb2]].
    + right. split; [lia|]. split; [done|]. exists w. split; [|done]. rewrite <- Hw. f_equal. lia.
    + right. split; [lia|done].
  - intros [(_ & _ & [=])|[Hb1 Hb2]]. destruct (decide (b / 32 = Z.of_nat wi)) as [Heq|].
    + left. destruct Hb2 as (Hb0 & w' & Hw' & Hbit). split_and!; [done|done|].
      rewrite Heq, Nat2Z.id, Hw in Hw'. by simplify_eq.
    + right. split; [lia|done].
Qed.

Lemma next_loop_spec fuel it : iter_inv it →
  (if decide (BitmapAttrs.current_word it = 0%Z)
   then S (length (BitmapAttrs.words it) - BitmapAttrs.word_index it) < fuel else 0 < fuel)%nat →
  match BitmapAttrs.next_loop fuel it with
  | (Some a, it') =>
      iter_inv it' ∧ BitmapAttrs.words it' = BitmapAttrs.words it
      ∧ attr_pending it a ∧ a < 32 * Z.of_nat (length (BitmapAttrs.words it))
      ∧ (∀ b, attr_pending it' b ↔ attr_pending it b ∧ a < b) ∧ (∀ b, attr_pending it b → a ≤ b)
  | (None, _) => ∀ a, ¬ attr_pending it a
  end.
Proof.
  induction fuel as [|fuel IH] in it |- *; intros Hinv Hfuel; [case_decide; lia|].
  cbn [BitmapAttrs.next_loop]. destruct (Z.eqb_spec (BitmapAttrs.current_word it) 0) as [H0|H0]; cbn [negb].
  - rewrite decide_True in Hfuel by done.
    destruct (BitmapAttrs.words it !! BitmapAttrs.word_index it) as [w|] eqn:Hw.
    + destruct (load_word it w Hinv H0 Hw) as [Hinv' Hpend].
      pose proof (lookup_lt_Some _ _ _ Hw).
      specialize (IH _ Hinv'). cbn [BitmapAttrs.words BitmapAttrs.current_word BitmapAttrs.word_index] in IH.
      specialize (IH ltac:(case_decide; lia)).
      destruct (BitmapAttrs.next_loop fuel _) as [[a|] it'].
      * destruct IH as (? & ? & ? & ? & Hb & Hm). split_and!; [done|done|by apply Hpend|done| |].
        { intros b. rewrite Hb. by rewrite Hpend. }
        intros b ?. by apply Hm, Hpend.
      * intros a. by rewrite <- Hpend.
    + apply lookup_ge_None in Hw. intros a [(_ & _ & Hbit)|(Hge & Ha & w & Hw' & _)].
      * by rewrite H0, Z.bits_0 in Hbit.
      * apply lookup_lt_Some in Hw'. lia.
  - destruct (next_bit it Hinv H0) as (? & ? & ? & ? & ?). done.
Qed.

Lemma next_spec it : iter_inv it →
  match BitmapAttrs.next it with
  | (Some a, it') =>
      iter_inv it' ∧ BitmapAttrs.words it' = BitmapAttrs.words it
      ∧ attr_pending it a ∧ a < 32 * Z.of_nat (length (BitmapAttrs.words it))
      ∧ (∀ b, attr_pending it' b ↔ attr_pending it b ∧ a < b) ∧ (∀ b, attr_pending it b → a ≤ b)
  | (None, _) => ∀ a, ¬ attr_pending it a
  end.
Proof. intros Hinv. apply next_loop_spec; [done|]. case_decide; lia. Qed.

Lemma collect_loop_spec fuel it lo : iter_inv it → (∀ a, attr_pending it a → lo ≤ a) →
  32 * Z.of_nat (length (BitmapAttrs.words it)) - lo < Z.of_nat fuel →
  StronglySorted Z.lt (BitmapAttrs.collect_loop fuel it)
  ∧ ∀ a, a ∈ BitmapAttrs.collect_loop fuel it ↔ attr_pending it a.
Proof.
  induction fuel as [|fuel IH] in it, lo |- *; intros Hinv Hlo Hfuel.
  - split; [constructor|]. intros a. split; [by intros ?%elem_of_nil|]. intros Ha.
    pose proof (next_spec it Hinv) as Hn. destruct (BitmapAttrs.next it) as [[c|] it'].
    + destruct Hn as (_ & _ & Hc & Hlt & _). specialize (Hlo c Hc). lia.
    + by apply Hn in Ha.
  - cbn [BitmapAttrs.collect_loop]. pose proof (next_spec it Hinv) as Hn.
    destruct (BitmapAttrs.next it) as [[c|] it'].
    + destruct Hn as (Hinv' & Hw & Hc & Hlt & Hpend & Hmin).
      destruct (IH it' (c + 1) Hinv') as [Hs Hin].
      { intros a [_ ?]%Hpend. lia. }
      { rewrite Hw. specialize (Hlo c Hc). lia. }
      split.
      * constructor; [done|]. apply Forall_forall. intros a Ha%Hin%Hpend. lia.
      * intros a. rewrite elem_of_cons, Hin, Hpend. split; [naive_solver|].
        intros Ha. specialize (Hmin a Ha). destruct (decide (a = c)); [by left|right]. split; [done|lia].
    + split; [constructor|]. intros a. split; [by intros ?%elem_of_nil|]. by intros ?%Hn.
Qed.

Lemma collect_attrs b : Bitmap.wf b → blen (Bitmap.words b) ≤ 2 ^ 27 →
  StronglySorted Z.lt (BitmapAttrs.collect (Bitmap_attrs b))
  ∧ ∀ a, a ∈ BitmapAttrs.collect (Bitmap_attrs b) ↔ attr_set (Bitmap.words b) a.
Proof.
  intros Hwf Hlen. destruct (collect_loop_spec (S (32 * length (Bitmap.words b))) (Bitmap_attrs b) 0)
    as [Hs Hin].
  - unfold iter_inv. cbn. split_and!; try done; try (unfold blen in *; lia).
  - intros a [(? & _)|(_ & ? & _)]; done.
  - cbn [Bitmap_attrs BitmapAttrs.words]. lia.
  - split; [done|]. intros a. unfold BitmapAttrs.collect. cbn [Bitmap_attrs BitmapAttrs.words].
    rewrite Hin. unfold attr_pending, attr_set. cbn. split.
    + intros [(_ & _ & Hb)|[_ ?]]; [by rewrite Z.bits_0 in Hb|done].
    + intros Ha. right. split; [|done]. destruct Ha as [Ha _]. apply Z.div_pos; lia.
Qed.

(** The attribute iterator of a decoded bitmap (of up to 2^27 words, where
    attribute numbers still fit 32 bits) terminates and yields exactly the
    numbers of the set bits, each once, in ascending order: the order in
    which the server lays out the attribute values. *)
Theorem bitmap_attrs_spec (b : Bitmap.t) :
  Bitmap.wf b → blen (Bitmap.words b) ≤ 2 ^ 27 →
  StronglySorted Z.lt (BitmapAttrs.collect (Bitmap_attrs b))
  ∧ ∀ a, a ∈ BitmapAttrs.collect (Bitmap_attrs b) ↔ attr_set (Bitmap.words b) a.
Proof. apply collect_attrs. Qed.

Lemma bitmap_attrs_spec_witness :
  BitmapAttrs.collect (Bitmap_attrs (Bitmap.mk [18; 0; 2])) = [1; 4; 65]
  ∧ ∀ a, a ∈ BitmapAttrs.collect (Bitmap_attrs (Bitmap.mk [18; 0; 2])) ↔ attr_set [18; 0; 2] a.
Proof.
  split; [reflexivity|]. apply bitmap_attrs_spec; [repeat constructor; discriminate|discriminate].
Defined.
