(* ===== verification/Rpc.v ===== *)
(** * ONC RPC: credentials, records, replies and call routing (src/rpc.rs)

    - [AuthSys]: the AUTH_SYS credential, its limits and its encoding;
    - [RpcPayload], the call header, and [write_record_batch], which sends a
      batch of records with vectored writes that may be short;
    - [read_record], which reassembles a record from its fragments out of a
      stream that hands over its bytes in arbitrary chunks;
    - [decode_reply], and the map of pending calls with the XIDs that route
      each reply to its call.

    The socket is a list of chunks to be read and a list of counts the writer
    accepts.  Clocks, process ids and the group list of the process are
    arguments. *)

From stdpp Require Import gmap.
From S2P Require Import Prelude Proto Errors Xdr.

Definition RPC_VERSION : Z := 2.
Definition CALL : Z := 0.
Definition REPLY : Z := 1.
Definition MSG_ACCEPTED : Z := 0.
Definition MSG_DENIED : Z := 1.
Definition SUCCESS : Z := 0.
Definition AUTH_SYS : Z := 1.
Definition AUTH_SYS_MAX_MACHINE_NAME_LEN : Z := 255.
Definition AUTH_SYS_MAX_GIDS : Z := 16.
Definition AUTH_SYS_MAX_BODY_LEN : Z := 400.
Definition LAST_FRAGMENT : Z := 0x80000000.
Definition FRAGMENT_SIZE_MASK : Z := 0x7fffffff.
Definition RPC_CALL_HEADER_LEN : Z := 8 * 4.
Definition RPC_AUTH_NONE_VERIFIER : bytes := replicate 8 0.
Definition MAX_WRITE_BATCH_RECORDS : nat := 32.

(** [&ZERO_PADDING[..len]] *)
Definition zero_padding (len : Z) : bytes := replicate (Z.to_nat len) 0.

(** ** Credentials *)

(** A hash of the clock, in nanoseconds since the epoch (0 before it), and the
    process id; it stamps the credential and starts the XIDs. *)
Definition auth_stamp (now : Duration) (process_id : Z) : Z :=
  wrap32 (wrap64 (Z.lxor (wrap64 now) process_id + now / 1000000000)).

Module AuthSys.

Record t : Type := mk {
  machine_name : str;
  uid : Z;
  gid : Z;
  gids : list Z;
}.

Definition new (machine_name : str) (uid gid : Z) : t := mk machine_name uid gid [].

Definition with_gids (a : t) (gids : list Z) : t := mk (machine_name a) (uid a) (gid a) gids.

Definition encoded_body_len (a : t) : res Error.t Z :=
  let? group_bytes :=
    ok_or (checked_mul (blen (gids a)) 4)
      (Error.invalid_config "AUTH_SYS group list length overflow") in
  ok_or
    (match checked_add 16 (xdr_opaque_len (blen (machine_name a))) with
     | Some len => checked_add len group_bytes
     | None => None
     end)
    (Error.invalid_config "AUTH_SYS credential length overflow").

Definition validate (a : t) : res Error.t unit :=
  if AUTH_SYS_MAX_MACHINE_NAME_LEN <? blen (machine_name a) then
    Err (Error.invalid_config
           "AUTH_SYS machine name is {} bytes; the maximum is {AUTH_SYS_MAX_MACHINE_NAME_LEN}")
  else if AUTH_SYS_MAX_GIDS <? blen (gids a) then
    Err (Error.invalid_config
           "AUTH_SYS has {} additional groups; the maximum is {AUTH_SYS_MAX_GIDS}")
  else
    let? body_len := encoded_body_len a in
    if AUTH_SYS_MAX_BODY_LEN <? body_len then
      Err (Error.invalid_config
             "AUTH_SYS credential body is {body_len} bytes; the maximum is {AUTH_SYS_MAX_BODY_LEN}")
    else Ok tt.

(** [stamp] is [auth_stamp()]. *)
Definition encode_body (stamp : Z) (a : t) : res Error.t bytes :=
  let? _ := validate a in
  let? encoded_body_len := encoded_body_len a in
  let? group_count :=
    if blen (gids a) <=? u32_max then Ok (blen (gids a))
    else Err (Error.invalid_config "AUTH_SYS group count does not fit in u32") in
  freeze
    (let! _ := XdrEncoder.put_u32 stamp in
     let! _ := XdrEncoder.put_string (machine_name a) in
     let! _ := XdrEncoder.put_u32 (uid a) in
     let! _ := XdrEncoder.put_u32 (gid a) in
     let! _ := XdrEncoder.put_u32 group_count in
     for_each XdrEncoder.put_u32 (gids a)).

Definition wire (stamp : Z) (a : t) : bytes :=
  wire_u32 stamp ++ wire_opaque (machine_name a) ++ wire_u32 (uid a) ++ wire_u32 (gid a)
  ++ wire_u32 (blen (gids a)) ++ mjoin (wire_u32 <$> gids a).

End AuthSys.

Definition checked_unix_id (value : Z) : res Error.t Z :=
  if (0 <=? value) && (value <=? u32_max) then Ok value
  else Err (Error.invalid_config "{name} does not fit in u32").

(** The loop of [current_supplementary_groups] over the list [getgroups]
    returned: every group but the primary one, once each, in order, up to the
    protocol maximum. *)
Fixpoint select_groups (primary_gid : Z) (raw_groups gids : list Z) : res Error.t (list Z) :=
  match raw_groups with
  | [] => Ok gids
  | raw_gid :: rest =>
      let? gid := checked_unix_id raw_gid in
      if negb (gid =? primary_gid) && negb (bool_decide (gid ∈ gids)) then
        let gids' := gids ++ [gid] in
        if blen gids' =? AUTH_SYS_MAX_GIDS then Ok gids'
        else select_groups primary_gid rest gids'
      else select_groups primary_gid rest gids
  end.

Definition current_supplementary_groups (getgroups : res Error.t (list Z)) (primary_gid : Z)
  : res Error.t (list Z) :=
  let? raw_groups := getgroups in
  select_groups primary_gid raw_groups [].

(** [AuthSys::current_user] on Unix; [hostname] is the environment variable,
    [euid], [egid] and [getgroups] the answers of the system calls. *)
Definition current_user (hostname : option str) (euid egid : Z)
    (getgroups : res Error.t (list Z)) : res Error.t AuthSys.t :=
  let machine_name :=
    match hostname with
    | Some value => if bool_decide (value = []) then str_of "nfs-crust" else value
    | None => str_of "nfs-crust"
    end in
  let? uid := checked_unix_id euid in
  let? gid := checked_unix_id egid in
  let? gids := current_supplementary_groups getgroups gid in
  let auth := AuthSys.with_gids (AuthSys.new machine_name uid gid) gids in
  let? _ := AuthSys.validate auth in
  Ok auth.

(** ** Payloads and calls *)

Module RpcPayload.

Record t : Type := mk { segments : list bytes; len : Z }.

Fixpoint from_segments_loop (segments : list bytes) (out : list bytes) (len : Z) : t :=
  match segments with
  | [] => mk out len
  | segment :: rest =>
      match segment with
      | [] => from_segments_loop rest out len
      | _ => from_segments_loop rest (out ++ [segment]) (saturating_add len (blen segment))
      end
  end.

Definition from_segments (segments : list bytes) : t := from_segments_loop segments [] 0.

(** [From<Bytes> for RpcPayload] *)
Definition from (payload : bytes) : t := mk [payload] (blen payload).

(** The bytes of the payload, in order. *)
Definition to_bytes (p : t) : bytes := mjoin (segments p).

Definition wf (p : t) : Prop := len p = blen (to_bytes p).

End RpcPayload.

Module RpcRequest.
Record t : Type := mk {
  header : bytes;
  payload : RpcPayload.t;
  payload_padding_len : Z;
  record_len : Z;
}.
End RpcRequest.

(** [out[offset..offset + 4].copy_from_slice(&value.to_be_bytes())]; every
    caller passes a constant offset inside the 32-byte array. *)
Definition put_header_u32_at (out : bytes) (offset : nat) (value : Z) : bytes :=
  take offset out ++ be_bytes 4 value ++ drop (offset + 4) out.

Definition rpc_call_header_template (auth_body_len : Z) : res Error.t bytes :=
  let? auth_body_len :=
    if auth_body_len <=? u32_max then Ok auth_body_len
    else Err (Error.invalid_config "AUTH_SYS credential length does not fit in u32") in
  let header := replicate (Z.to_nat RPC_CALL_HEADER_LEN) 0 in
  let header := put_header_u32_at header 4 CALL in
  let header := put_header_u32_at header 8 RPC_VERSION in
  let header := put_header_u32_at header 24 AUTH_SYS in
  let header := put_header_u32_at header 28 auth_body_len in
  Ok header.

Definition encode_call_header_from_template (template : bytes)
    (xid program version procedure : Z) : bytes :=
  let header := template in
  let header := put_header_u32_at header 0 xid in
  let header := put_header_u32_at header 12 program in
  let header := put_header_u32_at header 16 version in
  let header := put_header_u32_at header 20 procedure in
  header.

(** The part of [RpcClientInner] that does not change during a call. *)
Module RpcClient.

Record t : Type := mk {
  auth_body : bytes;
  auth_padding_len : Z;
  call_header_template : bytes;
}.

(** The computations of [connect] before the transport is opened. *)
Definition prepare (stamp : Z) (auth : AuthSys.t) : res Error.t t :=
  let? auth_body := AuthSys.encode_body stamp auth in
  let auth_padding_len := xdr_padding (blen auth_body) in
  let? call_header_template := rpc_call_header_template (blen auth_body) in
  Ok (mk auth_body auth_padding_len call_header_template).

Definition encoded_call_len (c : t) (payload_len : Z) : Z :=
  foldl saturating_add 0
    [RPC_CALL_HEADER_LEN; blen (auth_body c); auth_padding_len c;
     blen RPC_AUTH_NONE_VERIFIER; payload_len; xdr_padding payload_len].

Definition encode_call (c : t) (xid program version procedure : Z) (payload : RpcPayload.t)
  : RpcRequest.t :=
  RpcRequest.mk
    (encode_call_header_from_template (call_header_template c) xid program version procedure)
    payload
    (xdr_padding (RpcPayload.len payload))
    (encoded_call_len c (RpcPayload.len payload)).

End RpcClient.

(** ** Writing a batch of records *)

Fixpoint markers (batch : list RpcRequest.t) : res Error.t (list bytes) :=
  match batch with
  | [] => Ok []
  | request :: rest =>
      if FRAGMENT_SIZE_MASK <? RpcRequest.record_len request then
        Err (Error.rpc "RPC payload too large: {} bytes")
      else
        let? ms := markers rest in
        Ok (be_bytes 4 (Z.lor LAST_FRAGMENT (as_u32 (RpcRequest.record_len request))) :: ms)
  end.

(** The slices of one record: the empty ones among the first five and an
    empty payload padding are left out. *)
Definition record_slices (auth_body : bytes) (auth_padding_len : Z)
    (request : RpcRequest.t) (marker : bytes) : list bytes :=
  filter (λ part, part ≠ [])
    [marker; RpcRequest.header request; auth_body; zero_padding auth_padding_len;
     RPC_AUTH_NONE_VERIFIER]
  ++ RpcPayload.segments (RpcRequest.payload request)
  ++ filter (λ part, part ≠ []) [zero_padding (RpcRequest.payload_padding_len request)].

(** [IoSlice::advance_slices]: drops [n] bytes from the front; panics past
    the end. *)
Fixpoint advance_slices (slices : list bytes) (n : Z) : res Error.t (list bytes) :=
  match slices with
  | [] => if n =? 0 then Ok [] else Panic
  | s :: rest =>
      if blen s <=? n then advance_slices rest (n - blen s)
      else Ok (drop (Z.to_nat n) s :: rest)
  end.

(** The vectored-write loop.  [accepts] is the answer of the writer to each
    call: the number of bytes it took, or [None] for an I/O error; a writer
    that reports more than it was given is outside the contract of
    [poll_write_vectored], so the count is capped.  The result is the outcome
    and the bytes put on the wire; [None] when [accepts] ends first (the
    write is still pending). *)
Fixpoint write_slices (accepts : list (option Z)) (remaining : list bytes) (wire : bytes)
  : option (res Error.t unit * bytes) :=
  match remaining with
  | [] => Some (Ok tt, wire)
  | _ =>
      match accepts with
      | [] => None
      | None :: _ => Some (Err (Error.Io "write"), wire)
      | Some n :: accepts' =>
          let all := mjoin remaining in
          let written := Z.max 0 (Z.min n (blen all)) in
          let wire' := wire ++ take (Z.to_nat written) all in
          if written =? 0 then Some (Err (Error.Io "WriteZero"), wire')
          else
            match advance_slices remaining written with
            | Ok remaining' => write_slices accepts' remaining' wire'
            | Err e => Some (Err e, wire')
            | Panic => Some (Panic, wire')
            end
      end
  end.

Definition write_record_batch (accepts : list (option Z)) (batch : list RpcRequest.t) (auth_body : bytes)
    (auth_padding_len : Z) : option (res Error.t unit * bytes) :=
  match markers (take MAX_WRITE_BATCH_RECORDS batch) with
  | Ok ms =>
      let slices :=
        mjoin (zip_with (record_slices auth_body auth_padding_len) batch ms) in
      write_slices accepts slices []
  | Err e => Some (Err e, [])
  | Panic => Some (Panic, [])
  end.

(** ** Reading a record *)

(** The reader: the chunks successive reads would return at most, then end of
    file. *)
Abbreviation reader A := (st (list bytes) Error.t A) (only parsing).

(** [read_buf(&mut out.limit(limit))]: some bytes of the stream, none at its
    end. *)
Definition read_buf (limit : Z) : reader bytes := λ chunks,
  match chunks with
  | [] => (Ok [], [])
  | c :: rest =>
      if blen c <=? limit then (Ok c, rest)
      else (Ok (take (Z.to_nat limit) c), drop (Z.to_nat limit) c :: rest)
  end.

(** The [while out.len() < target_len] loop: every turn appends at least one
    byte, so as many turns as bytes missing are enough. *)
Fixpoint read_exact_loop (fuel : nat) (out : bytes) (target_len : Z) : reader bytes :=
  if blen out <? target_len then
    match fuel with
    | O => spanic
    | S fuel' =>
        let remaining := target_len - blen out in
        let! read := read_buf remaining in
        match read with
        | [] => sfail (Error.Io "UnexpectedEof")
        | _ => read_exact_loop fuel' (out ++ read) target_len
        end
    end
  else sret out.

Definition read_exact_into_buf (out : bytes) (len : Z) : reader bytes :=
  let! target_len := slift (ok_or (checked_add (blen out) len)
                              (Error.rpc "RPC response length overflow")) in
  read_exact_loop (Z.to_nat len) out target_len.

(** [AsyncReadExt::read_u32]: exactly four bytes or [UnexpectedEof]. *)
Definition read_u32 : reader Z :=
  let! w := read_exact_loop 4 [] 4 in
  sret (be_value w).

(** The fragments after the first.  [limits] is the value each load of the
    shared [max_response_bytes] returns (it may be lowered meanwhile); every
    fragment takes at least its four-byte marker off the stream, which bounds
    the fuel. *)
Fixpoint read_fragments (fuel : nat) (limits : nat → Z) (i : nat) (out : bytes) : reader bytes :=
  match fuel with
  | O => spanic
  | S fuel' =>
      let! marker := read_u32 in
      let last := negb (Z.land marker LAST_FRAGMENT =? 0) in
      let size := Z.land marker FRAGMENT_SIZE_MASK in
      let response_limit := limits i in
      if response_limit <? saturating_add (blen out) size then
        sfail (Error.rpc "RPC response exceeded {response_limit} bytes")
      else
        let! out := read_exact_into_buf out size in
        if last then sret out
        else read_fragments fuel' limits (S i) out
  end.

Definition read_record (limits : nat → Z) : reader bytes := λ chunks,
  (let! marker := read_u32 in
   let last := negb (Z.land marker LAST_FRAGMENT =? 0) in
   let size := Z.land marker FRAGMENT_SIZE_MASK in
   let response_limit := limits 0%nat in
   if response_limit <? size then
     sfail (Error.rpc "RPC response exceeded {response_limit} bytes")
   else
     let! out := read_exact_into_buf [] size in
     if last then sret out
     else read_fragments (S (length (mjoin chunks))) limits 1 out) chunks.

(** ** Replies *)

Definition peek_xid (response : bytes) : res Error.t Z :=
  if blen response <? 4 then Err (Error.rpc "short RPC reply without xid")
  else Ok (be_value (take 4 response)).

Definition decode_reply_message (expected_xid : Z) : dec bytes :=
  let! (xid, message_type, reply_stat) := XdrDecoder.read_u32_triple in
  if negb (xid =? expected_xid) then
    sfail (Error.rpc "RPC xid mismatch: expected {expected_xid}, got {xid}")
  else if negb (message_type =? REPLY) then
    sfail (Error.rpc "expected RPC reply message, got type {message_type}")
  else if reply_stat =? MSG_DENIED then
    sfail (Error.rpc "RPC call was denied by server")
  else if negb (reply_stat =? MSG_ACCEPTED) then
    sfail (Error.rpc "unknown RPC reply status {other}")
  else
    let! (_, accept_stat) := XdrDecoder.read_u32_skip_opaque_and_read_u32 in
    if accept_stat =? SUCCESS then XdrDecoder.into_remaining
    else if accept_stat =? 1 then sfail (Error.rpc "RPC program unavailable")
    else if accept_stat =? 2 then
      let! (_, _) := XdrDecoder.read_u32_pair in
      sfail (Error.rpc "RPC program version mismatch: server supports {low}..={high}")
    else if accept_stat =? 3 then sfail (Error.rpc "RPC procedure unavailable")
    else if accept_stat =? 4 then sfail (Error.rpc "RPC server could not decode arguments")
    else if accept_stat =? 5 then sfail (Error.rpc "RPC system error")
    else sfail (Error.rpc "unknown RPC accept status {other}").

Definition decode_reply (expected_xid : Z) (response : bytes) : res Error.t bytes :=
  fst (decode_reply_message expected_xid response).

Definition rpc_transport_stopped_error : Error.t :=
  Error.connection_lost "RPC transport is closed".

Definition rpc_request_not_sent_error : Error.t :=
  Error.request_not_sent rpc_transport_stopped_error.

(** ** Routing replies to calls

    [pending] maps the XID of every registered call to its reply sender,
    until the sender is taken; senders are numbered, and [replied] is what
    each has sent. *)

Module Routing.

Record t : Type := mk {
  xid : Z;
  pending : gmap Z (option nat);
  transport_closed : bool;
  next_call : nat;
  replied : gmap nat (res Error.t bytes);
}.

(** [next_xid], its two [fetch_add]s taken together. *)
Definition next_xid (x : Z) : Z * Z :=
  let xid := wrap32 (x + 1) in
  if xid =? 0 then (wrap32 (wrap32 (x + 1) + 1), wrap32 (x + 2)) else (xid, wrap32 (x + 1)).

(** The registration loop of [call_with_timeout]: a fresh XID is drawn until
    one is free ([PendingRegistration::try_insert]).  One draw more than there
    are pending calls is enough. *)
Fixpoint draw_xid (fuel : nat) (x : Z) (pending : gmap Z (option nat)) : option (Z * Z) :=
  match fuel with
  | O => None
  | S fuel' =>
      let '(xid, x') := next_xid x in
      match pending !! xid with
      | Some _ => draw_xid fuel' x' pending
      | None => Some (xid, x')
      end
  end.

(** Registering a call: the call number and its XID.  [None] would be a loop
    that never ends. *)
Definition register (s : t) : option (nat * Z * t) :=
  match draw_xid (S (size (pending s))) (xid s) (pending s) with
  | None => None
  | Some (id, x') =>
      Some (next_call s, id,
            mk x' (<[id := Some (next_call s)]> (pending s)) (transport_closed s)
               (S (next_call s)) (replied s))
  end.

(** [Drop for PendingRegistration] *)
Definition unregister (id : Z) (s : t) : t :=
  mk (xid s) (delete id (pending s)) (transport_closed s) (next_call s) (replied s).

(** [fail_all], after the transport was marked closed. *)
Definition fail_all (s : t) : t :=
  let failed :=
    map_fold (λ _ call acc,
        match call with
        | Some tx => <[tx := Err (Error.ConnectionLost "{err}")]> acc
        | None => acc
        end) (replied s) (pending s) in
  mk (xid s) ∅ true (next_call s) failed.

(** One turn of [read_loop] on a record (or on the error reading it). *)
Definition receive (response : res Error.t bytes) (s : t) : t :=
  match response with
  | Ok response =>
      match peek_xid response with
      | Ok id =>
          match pending s !! id with
          | Some (Some tx) =>
              mk (xid s) (<[id := None]> (pending s)) (transport_closed s) (next_call s)
                 (<[tx := decode_reply id response]> (replied s))
          | _ => s
          end
      | _ => fail_all s
      end
  | _ => fail_all s
  end.

End Routing.

(** ** Credentials: theorems *)

Lemma emits_for_each_u32 (l : list Z) :
  emits (E:=Error.t) (for_each XdrEncoder.put_u32 l) tt (mjoin (wire_u32 <$> l)).
Proof.
  induction l as [|x l IH]; [apply emits_ret|].
  change (mjoin _) with (wire_u32 x ++ mjoin (wire_u32 <$> l)). cbn [for_each].
  eapply emits_bind; [apply emits_put_u32|exact IH].
Qed.

Lemma blen_join_wire_u32 l : blen (mjoin (wire_u32 <$> l)) = 4 * blen l.
Proof.
  induction l as [|w l IH]; [done|].
  change (mjoin _) with (wire_u32 w ++ mjoin (wire_u32 <$> l)).
  rewrite blen_app, blen_wire_u32, blen_cons. lia.
Qed.

Lemma encoded_body_len_small a :
  blen (AuthSys.machine_name a) ≤ 255 → blen (AuthSys.gids a) ≤ 16 →
  AuthSys.encoded_body_len a
  = Ok (16 + xdr_opaque_len (blen (AuthSys.machine_name a)) + 4 * blen (AuthSys.gids a)).
Proof.
  intros Hn Hg. unfold AuthSys.encoded_body_len, checked_mul, checked_add. length_bounds.
  rewrite xdr_opaque_len_small by ulia. length_bounds.
  destruct (Z.leb_spec (blen (AuthSys.gids a) * 4) usize_max); [|ulia]. cbn [ok_or rbind].
  repeat (match goal with |- context [?a <=? ?b] => destruct (Z.leb_spec a b); [|ulia] end).
  cbn. f_equal. lia.
Qed.

Lemma validate_ok a :
  AuthSys.validate a = Ok tt ↔
  blen (AuthSys.machine_name a) ≤ 255 ∧ blen (AuthSys.gids a) ≤ 16.
Proof.
  unfold AuthSys.validate, AUTH_SYS_MAX_MACHINE_NAME_LEN, AUTH_SYS_MAX_GIDS, AUTH_SYS_MAX_BODY_LEN.
  destruct (Z.ltb_spec 255 (blen (AuthSys.machine_name a))); [split; [done|lia]|].
  destruct (Z.ltb_spec 16 (blen (AuthSys.gids a))); [split; [done|lia]|].
  rewrite encoded_body_len_small by done. cbn [rbind]. length_bounds.
  rewrite xdr_opaque_len_small by ulia. length_bounds.
  destruct (Z.ltb_spec 400 (16 + (4 + blen (AuthSys.machine_name a)
    + xdr_padding (blen (AuthSys.machine_name a))) + 4 * blen (AuthSys.gids a))); [lia|done].
Qed.

Lemma encode_body_ok stamp a :
  AuthSys.validate a = Ok tt → AuthSys.encode_body stamp a = Ok (AuthSys.wire stamp a).
Proof.
  intros Hv. pose proof Hv as [Hn Hg]%validate_ok. unfold AuthSys.encode_body. rewrite Hv. cbn [rbind].
  rewrite encoded_body_len_small by done. cbn [rbind].
  destruct (Z.leb_spec (blen (AuthSys.gids a)) u32_max); [|ulia]. cbn [rbind].
  eapply emits_freeze. unfold AuthSys.wire.
  repeat (eapply emits_bind; [first [apply emits_put_u32 | apply emits_put_opaque; ulia]|]).
  apply emits_for_each_u32.
Qed.

Lemma blen_auth_wire stamp a : AuthSys.validate a = Ok tt →
  AuthSys.encoded_body_len a = Ok (blen (AuthSys.wire stamp a)) ∧ blen (AuthSys.wire stamp a) ≤ 400.
Proof.
  intros [Hn Hg]%validate_ok. rewrite encoded_body_len_small by done.
  unfold AuthSys.wire. rewrite !blen_app, !blen_wire_u32, blen_join_wire_u32, blen_wire_opaque_len by ulia.
  length_bounds. rewrite xdr_opaque_len_small by ulia. length_bounds.
  split; [f_equal; lia|lia].
Qed.

Lemma select_groups_spec primary raw gids out :
  NoDup gids → blen gids < 16 → primary ∉ gids → Forall is_u32 raw →
  select_groups primary raw gids = Ok out →
  NoDup out ∧ blen out ≤ 16 ∧ primary ∉ out ∧ (∀ g, g ∈ out → g ∈ gids ∨ g ∈ raw)
  ∧ (blen out < 16 → ∀ g, g ∈ raw → g ≠ primary → g ∈ out) ∧ (gids `prefix_of` out).
Proof.
  intros Hnd Hlen Hp Hraw. induction Hraw as [|g raw Hg _ IH] in gids, Hnd, Hlen, Hp |- *; cbn [select_groups].
  { intros [= <-]. split_and!; [done|lia|done|by left|by intros _ ? ?%elem_of_nil|done]. }
  unfold checked_unix_id. replace ((0 <=? g) && (g <=? u32_max)) with true by ulia. cbn [rbind].
  destruct (Z.eqb_spec g primary) as [->|Hgp]; cbn [negb andb].
  { intros H. destruct (IH gids Hnd Hlen Hp H) as (? & ? & ? & Hin & Hall & ?). split_and!; try done.
    - intros x Hx. rewrite elem_of_cons. naive_solver.
    - intros ? x [->|?]%elem_of_cons ?; naive_solver. }
  case_bool_decide as Hin; cbn [negb].
  { intros H. destruct (IH gids Hnd Hlen Hp H) as (? & ? & ? & Hin' & Hall & Hpre). split_and!; try done.
    - intros x Hx. rewrite elem_of_cons. naive_solver.
    - intros ? x [->|?]%elem_of_cons ?; [|naive_solver].
      destruct Hpre as [k ->]. apply elem_of_app. by left. }
  assert (Hnd' : NoDup (gids ++ [g])).
  { apply NoDup_app. split_and!; [done| |apply NoDup_singleton]. intros x Hx Hx'%list_elem_of_singleton. by subst. }
  assert (Hp' : primary ∉ gids ++ [g]).
  { rewrite elem_of_app, list_elem_of_singleton. naive_solver. }
  assert (Hl' : blen (gids ++ [g]) = blen gids + 1) by (rewrite blen_app; done).
  unfold AUTH_SYS_MAX_GIDS. destruct (Z.eqb_spec (blen (gids ++ [g])) 16).
  - intros [= <-]. split_and!; [done|lia|done| | |by exists [g]].
    + intros x [?|Hx%list_elem_of_singleton]%elem_of_app; [by left|subst; right; left].
    + lia.
  - intros H. destruct (IH _ Hnd' ltac:(lia) Hp' H) as (? & ? & ? & Hin' & Hall & Hpre). split_and!; try done.
    + intros x Hx. rewrite elem_of_cons. destruct (Hin' x Hx) as [[?|Hx'%list_elem_of_singleton]%elem_of_app|?]; subst; auto.
    + intros ? x [->|?]%elem_of_cons ?; [|naive_solver].
      destruct Hpre as [k ->]. rewrite !elem_of_app. left. right. by apply list_elem_of_singleton.
    + etrans; [|exact Hpre]. by exists [g].
Qed.

(** AUTH_SYS credentials: [validate] accepts exactly the machine names of
    up to 255 bytes with up to 16 groups; an accepted credential is encoded
    as its RFC body, whose length is the one computed beforehand and at most
    the 400 bytes RFC 5531 allows; a rejected one is not encoded. *)
Theorem auth_sys_limits (stamp : Z) (a : AuthSys.t) :
  (AuthSys.validate a = Ok tt ↔
     blen (AuthSys.machine_name a) ≤ 255 ∧ blen (AuthSys.gids a) ≤ 16)
  ∧ (AuthSys.validate a = Ok tt →
       AuthSys.encode_body stamp a = Ok (AuthSys.wire stamp a)
       ∧ AuthSys.encoded_body_len a = Ok (blen (AuthSys.wire stamp a))
       ∧ blen (AuthSys.wire stamp a) ≤ 400)
  ∧ (is_ok (AuthSys.validate a) = false → is_ok (AuthSys.encode_body stamp a) = false).
Proof.
  split; [apply validate_ok|]. split.
  - intros H. split; [by apply encode_body_ok|]. by apply blen_auth_wire.
  - unfold AuthSys.encode_body. by destruct (AuthSys.validate a) as [[]| |].
Qed.

(** The supplementary groups taken from the process are distinct, leave
    out the primary group, number at most 16, and are all of them when fewer
    than 16 are kept. *)
Theorem supplementary_groups_spec (raw out : list Z) (primary : Z) :
  Forall is_u32 raw →
  current_supplementary_groups (Ok raw) primary = Ok out →
  NoDup out ∧ blen out ≤ 16 ∧ primary ∉ out ∧ (∀ g, g ∈ out → g ∈ raw)
  ∧ (blen out < 16 → ∀ g, g ∈ raw → g ≠ primary → g ∈ out).
Proof.
  intros Hraw H. destruct (select_groups_spec primary raw [] out) as (? & ? & ? & Hin & ? & _);
    [constructor|done|apply not_elem_of_nil|done|done|].
  split_and!; try done. intros g Hg. destruct (Hin g Hg) as [?%elem_of_nil|?]; done.
Qed.

Lemma supplementary_groups_spec_witness :
  Forall is_u32 [20; 12; 20; 61] ∧ current_supplementary_groups (Ok [20; 12; 20; 61]) 12 = Ok [20; 61]
  ∧ NoDup [20; 61].
Proof.
  assert (H : Forall is_u32 [20; 12; 20; 61]) by (repeat constructor; discriminate).
  split; [done|]. split; [reflexivity|].
  apply (supplementary_groups_spec [20; 12; 20; 61] [20; 61] 12 H). reflexivity.
Defined.

(** ** Calls and records: theorems *)

Lemma from_segments_loop_spec segs out n :
  0 ≤ n → n + blen (mjoin segs) ≤ usize_max →
  RpcPayload.to_bytes (RpcPayload.from_segments_loop segs out n) = mjoin out ++ mjoin segs
  ∧ RpcPayload.len (RpcPayload.from_segments_loop segs out n) = n + blen (mjoin segs).
Proof.
  induction segs as [|s segs IH] in out, n |- *; intros Hn Hmax.
  { cbn [RpcPayload.from_segments_loop]. unfold RpcPayload.to_bytes. cbn.
    split; [by rewrite app_nil_r|]. rewrite blen_nil. lia. }
  rewrite mjoin_cons, blen_app in *. pose proof (blen_nonneg s). pose proof (blen_nonneg (mjoin segs)).
  destruct s as [|x s]; [apply IH; rewrite ?blen_nil in *; lia|]. cbn [RpcPayload.from_segments_loop].
  destruct (IH (out ++ [x :: s]) (saturating_add n (blen (x :: s)))) as [-> ->]; [ulia|ulia|].
  rewrite mjoin_app. cbn. rewrite app_nil_r, <- app_assoc. split; [done|ulia].
Qed.

Lemma from_segments_spec segs : blen (mjoin segs) ≤ usize_max →
  RpcPayload.to_bytes (RpcPayload.from_segments segs) = mjoin segs
  ∧ RpcPayload.wf (RpcPayload.from_segments segs).
Proof.
  intros H. destruct (from_segments_loop_spec segs [] 0) as [Hb Hl]; [lia|lia|].
  unfold RpcPayload.wf, RpcPayload.from_segments. rewrite Hb, Hl. split; [done|cbn; lia].
Qed.

(** The call header: the words RFC 5531 prescribes up to the credential. *)
Definition wire_call_header (xid program version procedure auth_len : Z) : bytes :=
  wire_u32 xid ++ wire_u32 CALL ++ wire_u32 RPC_VERSION ++ wire_u32 program ++ wire_u32 version
  ++ wire_u32 procedure ++ wire_u32 AUTH_SYS ++ wire_u32 auth_len.

Lemma call_header_spec auth_len t xid program version procedure :
  rpc_call_header_template auth_len = Ok t →
  encode_call_header_from_template t xid program version procedure
  = wire_call_header xid program version procedure auth_len.
Proof.
  unfold rpc_call_header_template. destruct (auth_len <=? u32_max); [|done]. cbn [rbind].
  intros H. injection H as <-. reflexivity.
Qed.

(** The record of a call, without its marker. *)
Definition wire_call (c : RpcClient.t) (xid program version procedure : Z) (payload : bytes) : bytes :=
  wire_call_header xid program version procedure (blen (RpcClient.auth_body c))
  ++ RpcClient.auth_body c ++ wire_pad (blen (RpcClient.auth_body c))
  ++ RPC_AUTH_NONE_VERIFIER ++ payload ++ wire_pad (blen payload).

Definition client_wf (c : RpcClient.t) : Prop :=
  RpcClient.auth_padding_len c = xdr_padding (blen (RpcClient.auth_body c))
  ∧ rpc_call_header_template (blen (RpcClient.auth_body c)) = Ok (RpcClient.call_header_template c).

Lemma prepare_wf stamp auth c : RpcClient.prepare stamp auth = Ok c → client_wf c.
Proof.
  unfold RpcClient.prepare. destruct (AuthSys.encode_body stamp auth) as [b| |]; [|done|done]. cbn [rbind].
  destruct (rpc_call_header_template (blen b)) as [t| |] eqn:Ht; [|done|done].
  intros [= <-]. by split.
Qed.

Lemma blen_wire_call c xid program version procedure payload :
  client_wf c → blen (wire_call c xid program version procedure payload) ≤ usize_max →
  RpcClient.encoded_call_len c (blen payload) = blen (wire_call c xid program version procedure payload).
Proof.
  intros [Hp Ht] Hmax. revert Hmax. unfold RpcClient.encoded_call_len, wire_call, wire_call_header.
  cbn [foldl]. rewrite Hp. autorewrite with wire.
  change (blen RPC_AUTH_NONE_VERIFIER) with 8. unfold RPC_CALL_HEADER_LEN.
  length_bounds. ulia.
Qed.

(** The slices of a record hold the marker and the record. *)
Lemma mjoin_filter_nonempty (l : list bytes) : mjoin (filter (λ part, part ≠ []) l) = mjoin l.
Proof.
  induction l as [|x l IH]; [done|]. rewrite filter_cons. case_decide as Hx.
  - rewrite !mjoin_cons. by f_equal.
  - rewrite IH. by destruct x.
Qed.

Definition framed (c : RpcClient.t) (request : RpcRequest.t) : bytes :=
  RpcRequest.header request ++ RpcClient.auth_body c ++ zero_padding (RpcClient.auth_padding_len c)
  ++ RPC_AUTH_NONE_VERIFIER ++ RpcPayload.to_bytes (RpcRequest.payload request)
  ++ zero_padding (RpcRequest.payload_padding_len request).

Definition marker (last : bool) (len : Z) : bytes :=
  be_bytes 4 (if last then Z.lor LAST_FRAGMENT len else len).

Lemma mjoin_record_slices c request m :
  mjoin (record_slices (RpcClient.auth_body c) (RpcClient.auth_padding_len c) request m)
  = m ++ framed c request.
Proof.
  unfold record_slices, framed, RpcPayload.to_bytes. rewrite !mjoin_app, !mjoin_filter_nonempty.
  unfold zero_padding. rewrite !mjoin_cons. cbn [mjoin list_join]. by rewrite !app_nil_r, <- !app_assoc.
Qed.

Lemma framed_encode_call c xid program version procedure p :
  client_wf c → RpcPayload.wf p →
  framed c (RpcClient.encode_call c xid program version procedure p)
  = wire_call c xid program version procedure (RpcPayload.to_bytes p).
Proof.
  intros [Hp Ht] Hwf. unfold framed, wire_call, RpcClient.encode_call. cbn.
  rewrite (call_header_spec _ _ _ _ _ _ Ht), Hp, Hwf. done.
Qed.

Lemma markers_ok batch :
  Forall (λ r, 0 ≤ RpcRequest.record_len r ≤ FRAGMENT_SIZE_MASK) batch →
  markers batch = Ok ((λ r, marker true (RpcRequest.record_len r)) <$> batch).
Proof.
  induction 1 as [|r batch Hr _ IH]; [done|]. cbn [markers].
  destruct (Z.ltb_spec FRAGMENT_SIZE_MASK (RpcRequest.record_len r)); [lia|]. rewrite IH. cbn [rbind fmap list_fmap].
  unfold marker, as_u32, wrap32. rewrite Z.mod_small; [done|]. unfold FRAGMENT_SIZE_MASK in *. lia.
Qed.

Lemma markers_too_large batch r :
  r ∈ batch → FRAGMENT_SIZE_MASK < RpcRequest.record_len r →
  markers batch = Err (Error.rpc "RPC payload too large: {} bytes").
Proof.
  induction 1 as [x batch|x y batch _ IH]; intros Hr; cbn [markers].
  - by destruct (Z.ltb_spec FRAGMENT_SIZE_MASK (RpcRequest.record_len x)); [|lia].
  - case_match; [done|]. by rewrite IH.
Qed.

Lemma advance_slices_spec slices n : 0 ≤ n ≤ blen (mjoin slices) →
  ∃ rest, advance_slices slices n = Ok rest ∧ mjoin rest = drop (Z.to_nat n) (mjoin slices)
    ∧ (rest = [] ↔ n = blen (mjoin slices)).
Proof.
  induction slices as [|s slices IH] in n |- *; intros Hn.
  { change (blen (mjoin [])) with 0 in *. exists []. cbn [advance_slices].
    destruct (Z.eqb_spec n 0); [|lia]. subst. done. }
  rewrite mjoin_cons, blen_app in *. pose proof (blen_nonneg (mjoin slices)). cbn [advance_slices].
  destruct (Z.leb_spec (blen s) n).
  - destruct (IH (n - blen s) ltac:(lia)) as (rest & Hr & Hj & Hnil).
    exists rest. split; [done|]. split.
    + rewrite Hj. unfold blen in *. rewrite drop_app_ge by lia. f_equal. lia.
    + rewrite Hnil. lia.
  - exists (drop (Z.to_nat n) s :: slices). split; [done|]. rewrite mjoin_cons. split.
    + unfold blen in *. rewrite drop_app_le by lia. done.
    + split; [done|lia].
Qed.

(** Whatever the writer does, a prefix of the slices goes out, all of them
    exactly when the loop succeeds. *)
Lemma write_slices_prefix accepts slices w r out :
  write_slices accepts slices w = Some (r, out) →
  r ≠ Panic ∧ ∃ sent unsent, out = w ++ sent ∧ mjoin slices = sent ++ unsent ∧ (r = Ok tt → unsent = []).
Proof.
  induction accepts as [|a accepts IH] in slices, w |- *; intros H.
  { destruct slices; [|done]. cbn in H. injection H as <- <-. split; [done|].
    exists [], []. by rewrite app_nil_r. }
  destruct slices as [|s slices].
  { destruct a; cbn in H; injection H as <- <-; (split; [done|]); exists [], []; by rewrite app_nil_r. }
  destruct a as [n|]; cbn [write_slices] in H; [|injection H as <- <-; split; [done|];
    exists [], (mjoin (s :: slices)); by rewrite app_nil_r].
  set (all := mjoin (s :: slices)) in *. pose proof (blen_nonneg all).
  set (k := Z.max 0 (Z.min n (blen all))) in *. destruct (Z.eqb_spec k 0).
  { injection H as <- <-. split; [done|]. exists (take (Z.to_nat k) all), (drop (Z.to_nat k) all).
    by rewrite take_drop. }
  destruct (advance_slices_spec (s :: slices) k) as (rest & Hr & Hj & Hnil); [fold all; lia|].
  rewrite Hr in H. destruct (IH _ _ H) as (Hp & sent & unsent & -> & Hsplit & Hok). split; [done|].
  exists (take (Z.to_nat k) all ++ sent), unsent. rewrite app_assoc. split; [done|].
  split; [|done]. rewrite <- app_assoc, <- Hsplit, Hj. by rewrite take_drop.
Qed.

(** A writer that accepts something every time finishes. *)
Lemma write_slices_complete accepts slices w :
  Forall (λ a, ∃ n, a = Some n ∧ 0 < n) accepts → 0 < blen (mjoin slices) →
  blen (mjoin slices) ≤ blen accepts →
  write_slices accepts slices w = Some (Ok tt, w ++ mjoin slices).
Proof.
  intros Hacc. induction Hacc as [|a accepts (n & -> & Hn) _ IH] in slices, w |- *; intros H0 Hlen.
  { rewrite blen_nil in Hlen. lia. }
  destruct slices as [|s slices]; [done|]. cbn [write_slices].
  set (all := mjoin (s :: slices)) in *. rewrite blen_cons in Hlen.
  set (k := Z.max 0 (Z.min n (blen all))) in *. destruct (Z.eqb_spec k 0); [lia|].
  destruct (advance_slices_spec (s :: slices) k) as (rest & Hr & Hj & Hnil); [fold all; lia|].
  rewrite Hr. fold all in Hj, Hnil. destruct (decide (k = blen all)) as [Hk|Hk].
  - rewrite (proj2 Hnil Hk). rewrite Hk. unfold blen. rewrite Nat2Z.id, take_ge by lia.
    by destruct accepts.
  - assert (Hlr : blen (mjoin rest) = blen all - k) by (rewrite Hj, blen_drop; lia).
    rewrite IH by lia. rewrite Hj, <- app_assoc, take_drop. done.
Qed.

Lemma batch_slices c batch :
  mjoin (mjoin (zip_with (record_slices (RpcClient.auth_body c) (RpcClient.auth_padding_len c)) batch
           ((λ r, marker true (RpcRequest.record_len r)) <$> batch)))
  = mjoin ((λ r, marker true (RpcRequest.record_len r) ++ framed c r) <$> batch).
Proof.
  induction batch as [|r batch IH]; [done|]. cbn [fmap list_fmap zip_with]. rewrite !mjoin_cons, mjoin_app.
  by rewrite mjoin_record_slices, IH.
Qed.

Lemma markers_refuse batch :
  Exists (λ q, FRAGMENT_SIZE_MASK < RpcRequest.record_len q) batch →
  markers batch = Err (Error.rpc "RPC payload too large: {} bytes").
Proof.
  induction batch as [|q batch IH]; intros H; [by apply Exists_nil in H|]. cbn [markers].
  destruct (Z.ltb_spec FRAGMENT_SIZE_MASK (RpcRequest.record_len q)); [done|].
  apply Exists_cons in H as [?|H]; [lia|]. by rewrite (IH H).
Qed.

(** C27: Vectored writes.  For a batch of records that fit a fragment, and
    whatever short writes or errors the socket answers with, what reaches the
    wire is a prefix of the records in order, each with its record marker;
    success is reported only when every byte was sent, and a socket that
    accepts something every time is driven to success.  A batch with a record
    that does not fit a fragment is refused before a byte is written, whatever
    the socket would accept. *)
Theorem write_record_batch_exact (c : RpcClient.t) (batch : list RpcRequest.t) accepts :
  (length batch ≤ MAX_WRITE_BATCH_RECORDS)%nat →
  Forall (λ q, 0 ≤ RpcRequest.record_len q) batch →
  let run := write_record_batch accepts batch (RpcClient.auth_body c) (RpcClient.auth_padding_len c) in
  let image := mjoin ((λ q, marker true (RpcRequest.record_len q) ++ framed c q) <$> batch) in
  (Exists (λ q, FRAGMENT_SIZE_MASK < RpcRequest.record_len q) batch → ∃ e, run = Some (Err e, []))
  ∧ (Forall (λ q, RpcRequest.record_len q ≤ FRAGMENT_SIZE_MASK) batch →
     (∀ r out, run = Some (r, out) → r ≠ Panic ∧ ∃ unsent, image = out ++ unsent ∧ (r = Ok tt → unsent = []))
     ∧ (batch ≠ [] → Forall (λ a, ∃ n, a = Some n ∧ 0 < n) accepts → blen image ≤ blen accepts →
        run = Some (Ok tt, image))).
Proof.
  intros Hlen Hpos. cbn zeta. unfold write_record_batch. rewrite take_ge by done. split.
  { intros Hbig. rewrite (markers_refuse _ Hbig). by eexists. }
  intros Hok.
  assert (Hfit : Forall (λ q, 0 ≤ RpcRequest.record_len q ≤ FRAGMENT_SIZE_MASK) batch) by (by apply Forall_and).
  rewrite (markers_ok _ Hfit). split.
  - intros r out H. apply write_slices_prefix in H as (Hp & sent & unsent & -> & Hsplit & Hfin).
    rewrite batch_slices in Hsplit. split; [done|]. by exists unsent.
  - intros Hne Hacc Hbig. rewrite <- batch_slices in *. rewrite write_slices_complete; [done|done| |done].
    rewrite batch_slices. destruct batch as [|q batch]; [done|]. cbn [fmap list_fmap].
    rewrite mjoin_cons, !blen_app. unfold marker. rewrite blen_be_bytes. length_bounds. lia.
Qed.

(** A record goes out byte by byte; a batch with one that is too long does not
    go out at all. *)
Lemma write_record_batch_exact_witness :
  let c := RpcClient.mk [1; 2; 3; 4] 0 (replicate 32 0) in
  let q := RpcRequest.mk (replicate 32 7) (RpcPayload.from [9; 9; 9; 9]) 0 48 in
  let big := RpcRequest.mk (replicate 32 7) (RpcPayload.from []) 0 (FRAGMENT_SIZE_MASK + 1) in
  write_record_batch (replicate 60 (Some 1)) [q] [1; 2; 3; 4] 0
  = Some (Ok tt, mjoin ((λ q, marker true (RpcRequest.record_len q) ++ framed c q) <$> [q]))
  ∧ ∃ e, write_record_batch (replicate 60 (Some 1)) [q; big] [1; 2; 3; 4] 0 = Some (Err e, []).
Proof.
  intros c q big. split.
  - apply (write_record_batch_exact c [q] (replicate 60 (Some 1))).
    + vm_compute. lia.
    + constructor; [vm_compute; discriminate|constructor].
    + constructor; [vm_compute; discriminate|constructor].
    + discriminate.
    + apply Forall_forall. intros x Hx. apply elem_of_replicate in Hx as [-> _]. by exists 1.
    + vm_compute. discriminate.
  - apply (write_record_batch_exact c [q; big] (replicate 60 (Some 1))).
    + vm_compute. lia.
    + repeat constructor; vm_compute; discriminate.
    + apply Exists_cons_tl, Exists_cons_hd. reflexivity.
Defined.

(** ** Reading: theorems *)

Definition chunks_wf (chunks : list bytes) : Prop := Forall (λ c, c ≠ []) chunks.

Lemma read_buf_spec limit chunks : 0 < limit → chunks_wf chunks →
  ∃ read rest, read_buf limit chunks = (Ok read, rest) ∧ chunks_wf rest
    ∧ mjoin chunks = read ++ mjoin rest ∧ blen read ≤ limit ∧ (read = [] ↔ mjoin chunks = []).
Proof.
  intros Hl Hwf. destruct chunks as [|c chunks]; [exists [], []; split_and!; try done; rewrite blen_nil; lia|].
  apply Forall_cons in Hwf as [Hc Hwf]. cbn [read_buf]. rewrite mjoin_cons.
  destruct (Z.leb_spec (blen c) limit) as [Hle|Hgt].
  - exists c, chunks. split_and!; try done. destruct c; naive_solver.
  - exists (take (Z.to_nat limit) c), (drop (Z.to_nat limit) c :: chunks).
    unfold blen in *. split_and!; try done.
    + constructor; [|done]. intros H%(f_equal length). rewrite length_drop in H. cbn in H. lia.
    + rewrite mjoin_cons, app_assoc, take_drop. done.
    + rewrite length_take. lia.
    + destruct c; [done|]. destruct (Z.to_nat limit) eqn:E; [lia|]. cbn. naive_solver.
Qed.

(** Exactly the missing bytes are read, however the stream is chunked. *)
Lemma read_exact_loop_spec fuel out target chunks :
  chunks_wf chunks → (Z.to_nat (target - blen out) ≤ fuel)%nat →
  let k := Z.to_nat (target - blen out) in
  (k ≤ length (mjoin chunks) → ∃ rest, read_exact_loop fuel out target chunks
      = (Ok (out ++ take k (mjoin chunks)), rest)
      ∧ chunks_wf rest ∧ mjoin rest = drop k (mjoin chunks))%nat
  ∧ (length (mjoin chunks) < k → ∃ rest, read_exact_loop fuel out target chunks
      = (Err (Error.Io "UnexpectedEof"), rest))%nat.
Proof.
  cbn zeta. induction fuel as [|fuel IH] in out, chunks |- *; intros Hwf Hfuel; cbn [read_exact_loop].
  { destruct (Z.ltb_spec (blen out) target); [lia|].
    replace (Z.to_nat (target - blen out)) with 0%nat by lia. split; [|intros; lia].
    intros _. exists chunks. cbn. rewrite app_nil_r. done. }
  destruct (Z.ltb_spec (blen out) target) as [Hlt|Hge].
  2:{ replace (Z.to_nat (target - blen out)) with 0%nat by lia. split; [|intros; lia].
      intros _. exists chunks. cbn. rewrite app_nil_r. done. }
  destruct (read_buf_spec (target - blen out) chunks) as (read & rest & Hr & Hwf' & Hj & Hlim & Hnil); [lia|done|].
  unfold sbind. rewrite Hr. destruct read as [|x read].
  { destruct Hnil as [Hnil _]. rewrite (Hnil eq_refl). cbn. split; [lia|]. intros _. by exists rest. }
  set (rd := x :: read) in *. assert (Hrd : blen (out ++ rd) = blen out + blen rd) by apply blen_app.
  assert (0 < blen rd) by (unfold rd; rewrite blen_cons; length_bounds; lia).
  destruct (IH (out ++ rd) rest Hwf') as [IHok IHerr]; [lia|].
  assert (Hk : Z.to_nat (target - blen out) = (length rd + Z.to_nat (target - blen (out ++ rd)))%nat)
    by (unfold blen in *; lia).
  rewrite Hj, Hk, length_app. split.
  - intros Hle. destruct IHok as (rest' & -> & Hwf'' & Hrest'); [lia|].
    exists rest'. rewrite take_app_add, drop_app_add, <- app_assoc. done.
  - intros Hgt. apply IHerr. lia.
Qed.

Lemma read_exact_into_buf_ok out len chunks :
  chunks_wf chunks → 0 ≤ len → blen out + len ≤ usize_max → len ≤ blen (mjoin chunks) →
  ∃ rest, read_exact_into_buf out len chunks
     = (Ok (out ++ take (Z.to_nat len) (mjoin chunks)), rest)
  ∧ chunks_wf rest ∧ mjoin rest = drop (Z.to_nat len) (mjoin chunks).
Proof.
  intros Hwf H0 Hmax Hlen. unfold read_exact_into_buf, checked_add, sbind, slift.
  destruct (Z.leb_spec (blen out + len) usize_max); [|lia]. cbn [ok_or].
  replace len with (blen out + len - blen out) by lia.
  replace (blen out + (blen out + len - blen out)) with (blen out + len) by lia.
  apply read_exact_loop_spec; [done|lia|]. unfold blen in *. lia.
Qed.

Lemma read_u32_ok chunks w rest : chunks_wf chunks → blen w = 4 → mjoin chunks = w ++ rest →
  ∃ chunks', read_u32 chunks = (Ok (be_value w), chunks') ∧ chunks_wf chunks' ∧ mjoin chunks' = rest.
Proof.
  intros Hwf Hw Hj. destruct (read_exact_loop_spec 4 [] 4 chunks Hwf) as [(r & Hr & Hwf' & Hj') _].
  - rewrite blen_nil. lia.
  - rewrite Hj, length_app. unfold blen in *. cbn. lia.
  - exists r. unfold read_u32, sbind. rewrite Hr, Hj. rewrite Hj in Hj'. revert Hj'.
    change (Z.to_nat (4 - blen [])) with 4%nat. unfold blen in Hw.
    rewrite take_app_blen, drop_app_blen by lia. done.
Qed.

Lemma marker_last last len : 0 ≤ len ≤ FRAGMENT_SIZE_MASK →
  negb (Z.land (be_value (marker last len)) LAST_FRAGMENT =? 0) = last
  ∧ Z.land (be_value (marker last len)) FRAGMENT_SIZE_MASK = len.
Proof.
  intros Hlen. unfold FRAGMENT_SIZE_MASK, marker in *. change LAST_FRAGMENT with (2 ^ 31).
  assert (Hl31 : Z.land len (2 ^ 31) = 0).
  { apply Z.bits_inj'. intros n Hn. rewrite Z.land_spec, Z.pow2_bits_eqb, Z.bits_0 by lia.
    destruct (Z.eqb_spec 31 n) as [<-|]; [|by rewrite andb_false_r].
    rewrite (Z.bits_above_log2 len 31); [done|lia|].
    destruct (decide (len = 0)) as [->|]; [cbn; lia|apply Z.log2_lt_pow2; lia]. }
  assert (Hlor : Z.lor (2 ^ 31) len = len + 1 * 2 ^ 31).
  { rewrite <- Z.lxor_lor by (by rewrite Z.land_comm). rewrite <- Z.add_nocarry_lxor by (by rewrite Z.land_comm). lia. }
  rewrite be_value_be_bytes_id by (destruct last; rewrite ?Hlor; cbn; lia).
  change 0x7fffffff with (Z.ones 31). rewrite Z.land_ones by lia. split.
  - destruct last; [|by rewrite Hl31]. by rewrite Z.land_lor_distr_l, Hl31, Z.lor_0_r.
  - destruct last; [rewrite Hlor, Z.mod_add by lia|]; apply Z.mod_small; cbn; lia.
Qed.

(** A record cut into fragments, each behind its marker. *)
Fixpoint frames (frags : list bytes) : bytes :=
  match frags with
  | [] => []
  | [f] => marker true (blen f) ++ f
  | f :: rest => marker false (blen f) ++ f ++ frames rest
  end.

Lemma blen_marker last len : blen (marker last len) = 4.
Proof. apply (blen_be_bytes 4). Qed.

(** One fragment: its marker is recognised and its body appended. *)
Lemma read_fragment_step chunks last out f rest :
  chunks_wf chunks → blen f ≤ FRAGMENT_SIZE_MASK → blen (out ++ f) ≤ usize_max →
  mjoin chunks = (marker last (blen f) ++ f) ++ rest →
  ∃ c1 c2, read_u32 chunks = (Ok (be_value (marker last (blen f))), c1)
    ∧ negb (Z.land (be_value (marker last (blen f))) LAST_FRAGMENT =? 0) = last
    ∧ Z.land (be_value (marker last (blen f))) FRAGMENT_SIZE_MASK = blen f
    ∧ read_exact_into_buf out (blen f) c1 = (Ok (out ++ f), c2)
    ∧ chunks_wf c2 ∧ mjoin c2 = rest.
Proof.
  intros Hwf Hf Hmax Hj. pose proof (blen_nonneg f).
  destruct (read_u32_ok chunks (marker last (blen f)) (f ++ rest)) as (c1 & Hr & Hwf1 & Hj1);
    [done|apply blen_marker|by rewrite Hj, app_assoc|].
  destruct (marker_last last (blen f)) as [Hlast Hsize]; [done|].
  destruct (read_exact_into_buf_ok out (blen f) c1) as (c2 & Hb & Hwf2 & Hj2); [done|done| |..].
  { by rewrite blen_app in Hmax. }
  { rewrite Hj1, blen_app. length_bounds. lia. }
  exists c1, c2. rewrite Hb, Hj1. rewrite Hj1 in Hj2. revert Hj2.
  replace (Z.to_nat (blen f)) with (length f) by (unfold blen; lia).
  rewrite take_app_length, drop_app_length. done.
Qed.

Lemma read_fragments_ok fuel limits i out frags chunks rest :
  chunks_wf chunks → frags ≠ [] → (length frags ≤ fuel)%nat →
  Forall (λ f, blen f ≤ FRAGMENT_SIZE_MASK) frags →
  blen (out ++ mjoin frags) ≤ usize_max → (∀ j, blen (out ++ mjoin frags) ≤ limits j) →
  mjoin chunks = frames frags ++ rest →
  ∃ chunks', read_fragments fuel limits i out chunks = (Ok (out ++ mjoin frags), chunks')
    ∧ mjoin chunks' = rest ∧ chunks_wf chunks'.
Proof.
  induction fuel as [|fuel IH] in i, out, frags, chunks |- *; intros Hwf Hne Hfuel Hsz Hmax Hlim Hj;
    [destruct frags; [done|cbn in Hfuel; lia]|].
  destruct frags as [|f frags]; [done|]. apply Forall_cons in Hsz as [Hf Hsz]. rewrite mjoin_cons in *.
  assert (Hbound : blen (out ++ f) ≤ blen (out ++ f ++ mjoin frags)).
  { rewrite !blen_app. length_bounds. lia. }
  assert (Hjf : mjoin chunks
    = (marker (bool_decide (frags = [])) (blen f) ++ f) ++ (if decide (frags = []) then [] else frames frags) ++ rest).
  { rewrite Hj. destruct frags; [by cbn|]. rewrite bool_decide_eq_false_2, decide_False by done.
    cbn [frames]. by rewrite <- !app_assoc. }
  destruct (read_fragment_step _ _ out _ _ Hwf Hf ltac:(lia) Hjf) as (c1 & c2 & Hr & Hl & Hs & Hb & Hwf2 & Hj2).
  cbn [read_fragments]. unfold sbind. rewrite Hr, Hs.
  specialize (Hlim i) as Hlimi. pose proof (blen_nonneg out). pose proof (blen_nonneg f).
  destruct (Z.ltb_spec (limits i) (saturating_add (blen out) (blen f))).
  { rewrite !blen_app in *. ulia. }
  rewrite Hb, Hl. destruct frags as [|f' frags].
  - rewrite bool_decide_eq_true_2 by done. cbn in Hj2. exists c2.
    change (mjoin []) with (@nil Z). rewrite app_nil_r. done.
  - rewrite bool_decide_eq_false_2 by done. rewrite decide_False in Hj2 by done.
    rewrite app_assoc in Hmax. cbn [length] in Hfuel.
    destruct (IH (S i) (out ++ f) (f' :: frags) c2) as (c3 & Hc3 & Hj3); try done; [cbn; lia| |].
    { intros j. rewrite <- app_assoc. apply Hlim. }
    exists c3. rewrite Hc3, <- app_assoc. done.
Qed.

(** C28: Reassembling a record.  However the record is cut into fragments and
    however the stream delivers its bytes, [read_record] returns the bytes of
    the fragments in order and leaves the stream right behind the record,
    provided the record stays within the response limit. *)
Theorem read_record_frames (limits : nat → Z) (frags chunks : list bytes) (rest : bytes) :
  chunks_wf chunks → frags ≠ [] →
  Forall (λ f, blen f ≤ FRAGMENT_SIZE_MASK) frags →
  blen (mjoin frags) ≤ usize_max → (∀ j, blen (mjoin frags) ≤ limits j) →
  mjoin chunks = frames frags ++ rest →
  ∃ chunks', read_record limits chunks = (Ok (mjoin frags), chunks')
    ∧ mjoin chunks' = rest ∧ chunks_wf chunks'.
Proof.
  intros Hwf Hne Hsz Hmax Hlim Hj. destruct frags as [|f frags]; [done|].
  apply Forall_cons in Hsz as [Hf Hsz]. rewrite mjoin_cons, blen_app in *.
  assert (Hjf : mjoin chunks
    = (marker (bool_decide (frags = [])) (blen f) ++ f) ++ (if decide (frags = []) then [] else frames frags) ++ rest).
  { rewrite Hj. destruct frags; [by cbn|]. rewrite bool_decide_eq_false_2, decide_False by done.
    cbn [frames]. by rewrite <- !app_assoc. }
  assert (Hfs : (length frags ≤ length (mjoin chunks))%nat).
  { rewrite Hj. clear. rewrite length_app.
    assert (length (f :: frags) ≤ length (frames (f :: frags)))%nat; [|cbn in *; lia].
    generalize (f :: frags). clear. induction l as [|f [|g l] IH]; [cbn; lia| |].
    - cbn [frames length]. rewrite length_app. unfold marker. rewrite length_be_bytes. lia.
    - change (frames (f :: g :: l)) with (marker false (blen f) ++ f ++ frames (g :: l)).
      rewrite !length_app. unfold marker. rewrite length_be_bytes. cbn [length] in *. lia. }
  pose proof (blen_nonneg (mjoin frags)). pose proof (blen_nonneg f).
  destruct (read_fragment_step _ _ [] _ _ Hwf Hf ltac:(cbn; lia) Hjf)
    as (c1 & c2 & Hr & Hl & Hs & Hb & Hwf2 & Hj2).
  unfold read_record, sbind. rewrite Hr, Hs. specialize (Hlim 0%nat) as Hlim0.
  destruct (Z.ltb_spec (limits 0%nat) (blen f)); [lia|]. rewrite Hb, Hl. cbn [app].
  destruct frags as [|f' frags].
  - rewrite bool_decide_eq_true_2 by done. exists c2. change (mjoin []) with (@nil Z).
    rewrite app_nil_r. done.
  - rewrite bool_decide_eq_false_2 by done. rewrite decide_False in Hj2 by done.
    apply (read_fragments_ok _ limits 1 f (f' :: frags) c2 rest); try done; [cbn in *; lia|..].
    + rewrite blen_app. lia.
    + intros j. rewrite blen_app. apply Hlim.
Qed.

Lemma read_record_frames_witness :
  ∃ chunks', read_record (λ _, 6) [[0; 0]; [0; 2; 11; 12; 128]; [0; 0; 3; 13; 14; 15; 77]]
               = (Ok [11; 12; 13; 14; 15], chunks')
    ∧ mjoin chunks' = [77] ∧ chunks_wf chunks'.
Proof.
  apply (read_record_frames (λ _, 6) [[11; 12]; [13; 14; 15]]); try done.
  - repeat constructor; discriminate.
  - repeat constructor; discriminate.
Defined.

(** Bytes never appear from nowhere: the outcomes of the reading loop. *)
Lemma read_exact_into_buf_cases out len chunks : chunks_wf chunks → 0 ≤ len →
  match read_exact_into_buf out len chunks with
  | (Ok out', rest) => blen out' = blen out + len ∧ blen out + len ≤ usize_max ∧ chunks_wf rest
      ∧ (length (mjoin rest) ≤ length (mjoin chunks))%nat
  | (Err _, _) => True
  | (Panic, _) => False
  end.
Proof.
  intros Hwf Hlen. unfold read_exact_into_buf, checked_add, sbind, slift.
  destruct (Z.leb_spec (blen out + len) usize_max); [|done]. cbn [ok_or].
  destruct (read_exact_loop_spec (Z.to_nat len) out (blen out + len) chunks Hwf ltac:(lia)) as [Hok Herr].
  destruct (decide (Z.to_nat (blen out + len - blen out) ≤ length (mjoin chunks))%nat) as [Hk|Hk].
  - destruct (Hok Hk) as (rest & -> & Hwf' & Hj). split_and!; [|done|done|rewrite Hj, length_drop; lia].
    rewrite blen_app, blen_take; unfold blen in *; lia.
  - destruct Herr as (rest & ->); [lia|done].
Qed.

Lemma read_u32_cases chunks : chunks_wf chunks →
  match read_u32 chunks with
  | (Ok _, rest) => chunks_wf rest ∧ (length (mjoin rest) + 4 = length (mjoin chunks))%nat
  | (Err _, _) => True
  | (Panic, _) => False
  end.
Proof.
  intros Hwf. destruct (read_exact_loop_spec 4 [] 4 chunks Hwf ltac:(done)) as [Hok Herr].
  unfold read_u32, sbind. change (Z.to_nat (4 - blen [])) with 4%nat in *.
  destruct (decide (4 ≤ length (mjoin chunks))%nat) as [Hk|Hk].
  - destruct (Hok Hk) as (rest & -> & Hwf' & Hj). cbn. split; [done|]. rewrite Hj, length_drop. lia.
  - destruct Herr as (rest & ->); [lia|done].
Qed.

Lemma land_mask_nonneg m : 0 ≤ Z.land m FRAGMENT_SIZE_MASK.
Proof. apply Z.land_nonneg. right. done. Qed.

Lemma read_fragments_cases fuel limits i out chunks : chunks_wf chunks →
  (length (mjoin chunks) < fuel)%nat →
  match read_fragments fuel limits i out chunks with
  | (Ok out', _) => ∃ j, blen out' ≤ limits j
  | (Err _, _) => True
  | (Panic, _) => False
  end.
Proof.
  induction fuel as [|fuel IH] in i, out, chunks |- *; intros Hwf Hfuel; [lia|].
  cbn [read_fragments]. unfold sbind. pose proof (read_u32_cases chunks Hwf) as Hu.
  destruct (read_u32 chunks) as [[m| |] c1]; [|done|done]. destruct Hu as [Hwf1 Hl1].
  pose proof (land_mask_nonneg m) as Hm. destruct (Z.ltb_spec (limits i) (saturating_add (blen out) (Z.land m FRAGMENT_SIZE_MASK)))
    as [Hlim|Hlim]; [done|].
  pose proof (read_exact_into_buf_cases out _ c1 Hwf1 Hm) as Hb.
  destruct (read_exact_into_buf out _ c1) as [[out'| |] c2]; [|done|done].
  destruct Hb as (Hlen & Hmax & Hwf2 & Hl2). destruct (negb _); [|apply IH; [done|lia]].
  exists i. ulia.
Qed.

(** Whatever a server sends, reading a record terminates without a panic,
    and a record that is accepted is no longer than a response limit in force
    while it was read. *)
Theorem read_record_bounded (limits : nat → Z) (chunks : list bytes) :
  chunks_wf chunks →
  match read_record limits chunks with
  | (Ok out, _) => ∃ j, blen out ≤ limits j
  | (Err _, _) => True
  | (Panic, _) => False
  end.
Proof.
  intros Hwf. unfold read_record, sbind. pose proof (read_u32_cases chunks Hwf) as Hu.
  destruct (read_u32 chunks) as [[m| |] c1]; [|done|done]. destruct Hu as [Hwf1 Hl1].
  pose proof (land_mask_nonneg m) as Hm. destruct (Z.ltb_spec (limits 0%nat) (Z.land m FRAGMENT_SIZE_MASK)) as [Hlim|Hlim]; [done|].
  pose proof (read_exact_into_buf_cases [] _ c1 Hwf1 Hm) as Hb.
  destruct (read_exact_into_buf [] _ c1) as [[out| |] c2]; [|done|done].
  destruct Hb as (Hlen & Hmax & Hwf2 & Hl2). destruct (negb _).
  - exists 0%nat. rewrite Hlen, blen_nil. lia.
  - apply read_fragments_cases; [done|lia].
Qed.

Lemma read_record_bounded_witness :
  chunks_wf [[128; 0; 0; 9; 1]] ∧
  match read_record (λ _, 4) [[128; 0; 0; 9; 1]] with
  | (Ok out, _) => ∃ j, blen out ≤ (λ _ : nat, 4) j
  | (Err _, _) => True
  | (Panic, _) => False
  end.
Proof.
  assert (H : chunks_wf [[128; 0; 0; 9; 1]]) by (repeat constructor; discriminate).
  split; [exact H|]. apply read_record_bounded. exact H.
Defined.

(** ** Replies: theorems *)

Lemma fst_bind {S E A B} (m : st S E A) (k : A → st S E B) s :
  fst (sbind m k s)
  = match m s with (Ok a, s') => fst (k a s') | (Err e, _) => Err e | (Panic, _) => Panic end.
Proof. unfold sbind. by destruct (m s) as [[a|e|] s']. Qed.

(** An accepted, successful reply as a server sends it. *)
Definition wire_reply (xid flavor : Z) (verifier body : bytes) : bytes :=
  (wire_u32 xid ++ wire_u32 REPLY ++ wire_u32 MSG_ACCEPTED)
  ++ (wire_u32 flavor ++ wire_opaque verifier ++ wire_u32 SUCCESS) ++ body.

Lemma into_remaining_all b : XdrDecoder.into_remaining b = (Ok b, []).
Proof.
  unfold XdrDecoder.into_remaining, XdrDecoder.remaining, sbind.
  destruct (Z.eqb_spec (blen b) 0) as [H|H]; [by apply blen_0_nil in H as ->|].
  unfold buf.copy_to_bytes, buf.split_to. destruct (Z.leb_spec (blen b) (blen b)); [|lia].
  unfold blen. rewrite Nat2Z.id, take_ge, drop_ge by lia. done.
Qed.

Lemma decode_reply_xid xid response body :
  bytes_wf response → decode_reply xid response = Ok body → peek_xid response = Ok xid.
Proof.
  intros Hwf. unfold decode_reply, decode_reply_message, peek_xid. rewrite fst_bind.
  unfold XdrDecoder.read_u32_triple at 1, sbind at 1, XdrDecoder.require.
  destruct (Z.ltb_spec (blen response) 12) as [|H12]; [done|].
  destruct (Z.ltb_spec (blen response) 4) as [|H4]; [lia|].
  unfold XdrDecoder.read_u32_after_require, sbind.
  rewrite !get_u32_eq by (rewrite ?blen_drop; rewrite ?blen_drop; lia). unfold sret.
  destruct (Z.eqb_spec (be_value (take 4 response)) xid) as [->|]; done.
Qed.

Lemma parser_decode_reply xid : parser bytes_wf (decode_reply_message xid).
Proof.
  eapply parser_bind; [apply parser_read_u32_triple|]. intros [[a b] c] _.
  repeat (case_match; [apply parser_fail|]).
  eapply parser_bind; [apply parser_read_u32_skip_opaque_and_read_u32|]. intros [d e] _.
  case_match; [apply parser_into_remaining|].
  case_match; [apply parser_fail|]. case_match.
  - eapply parser_bind; [apply parser_read_u32_pair|]. intros [lo hi] _. apply parser_fail.
  - repeat (case_match; [apply parser_fail|]). apply parser_fail.
Qed.

(** Decoding a reply.  On any bytes it returns without a panic; the body
    of an accepted, successful reply is returned unchanged whatever verifier
    precedes it; and a reply is only ever accepted under the XID it carries. *)
Theorem decode_reply_spec (xid flavor : Z) (verifier body response : bytes) :
  is_u32 xid → is_u32 flavor → blen verifier ≤ u32_max → bytes_wf response →
  decode_reply xid (wire_reply xid flavor verifier body) = Ok body
  ∧ decode_reply xid response ≠ Panic
  ∧ (is_ok (decode_reply xid response) = true → peek_xid response = Ok xid).
Proof.
  intros Hx Hf Hv Hwf. split_and!.
  - unfold decode_reply, decode_reply_message, wire_reply. rewrite fst_bind, reads_u32_triple by (done || ulia).
    rewrite Z.eqb_refl. cbn [negb]. change (REPLY =? REPLY) with true. cbn [negb].
    change (MSG_ACCEPTED =? MSG_DENIED) with false. change (MSG_ACCEPTED =? MSG_ACCEPTED) with true. cbn [negb].
    rewrite fst_bind, reads_u32_skip_opaque_and_read_u32 by (done || ulia).
    change (SUCCESS =? SUCCESS) with true. by rewrite into_remaining_all.
  - unfold decode_reply. pose proof (parser_decode_reply xid response Hwf) as Hp.
    by destruct (decode_reply_message xid response) as [[]].
  - destruct (decode_reply xid response) eqn:Hd; try done. intros _. by eapply decode_reply_xid.
Qed.

Lemma decode_reply_spec_witness :
  decode_reply 7 (wire_reply 7 0 [] [1; 2; 3; 4]) = Ok [1; 2; 3; 4]
  ∧ decode_reply 7 [0; 0; 0; 8] ≠ Panic
  ∧ (is_ok (decode_reply 7 [0; 0; 0; 8]) = true → peek_xid [0; 0; 0; 8] = Ok 7).
Proof.
  apply (decode_reply_spec 7 0 [] [1; 2; 3; 4] [0; 0; 0; 8]);
    [split; discriminate|split; discriminate|discriminate|repeat constructor; discriminate].
Defined.

(** ** Routing: theorems *)

Module RoutingFacts.
Import Routing.

(** The XIDs drawn walk through 1 .. 2^32 - 1 in a cycle, never 0. *)
Lemma next_xid_cycle x : is_u32 x →
  next_xid x = (x `mod` u32_max + 1, x `mod` u32_max + 1) ∧ 1 ≤ x `mod` u32_max + 1 ≤ u32_max.
Proof.
  intros Hx. unfold next_xid, wrap32. pose proof (Z.mod_pos_bound x u32_max ltac:(done)).
  split; [|ulia]. destruct (decide (x = u32_max)) as [->|].
  - rewrite Z_mod_same_full. reflexivity.
  - rewrite (Z.mod_small x u32_max) by ulia. rewrite (Z.mod_small (x + 1)) by ulia.
    destruct (Z.eqb_spec (x + 1) 0); [ulia|done].
Qed.

(** Two draws closer than a cycle differ. *)
Lemma cycle_inj x i j : 0 ≤ i < u32_max → 0 ≤ j < u32_max →
  (x + i) `mod` u32_max = (x + j) `mod` u32_max → i = j.
Proof.
  intros Hi Hj H. pose proof (Z.div_mod (x + i) u32_max ltac:(done)).
  pose proof (Z.div_mod (x + j) u32_max ltac:(done)). unfold_widths. nia.
Qed.

Lemma draw_xid_none fuel x (p : gmap Z (option nat)) k : is_u32 x →
  draw_xid fuel x p = None → 0 ≤ k < Z.of_nat fuel →
  is_Some (p !! ((x + k) `mod` u32_max + 1)).
Proof.
  induction fuel as [|fuel IH] in x, k |- *; intros Hx Hd Hk; [lia|]. cbn [draw_xid] in Hd.
  destruct (next_xid_cycle x Hx) as [Heq Hr]. rewrite Heq in Hd.
  destruct (p !! (x `mod` u32_max + 1)) eqn:Hp; [|done].
  destruct (decide (k = 0)) as [->|]; [by rewrite Z.add_0_r, Hp|].
  specialize (IH (x `mod` u32_max + 1) (k - 1) ltac:(ulia) Hd ltac:(lia)).
  replace ((x + k) `mod` u32_max) with ((x `mod` u32_max + 1 + (k - 1)) `mod` u32_max); [done|].
  replace (x `mod` u32_max + 1 + (k - 1)) with (x `mod` u32_max + k) by lia.
  by rewrite Z.add_mod_idemp_l.
Qed.

Lemma draw_xid_some fuel x (p : gmap Z (option nat)) id x' : is_u32 x →
  draw_xid fuel x p = Some (id, x') → p !! id = None ∧ 1 ≤ id ≤ u32_max ∧ x' = id.
Proof.
  induction fuel as [|fuel IH] in x |- *; intros Hx Hd; [done|]. cbn [draw_xid] in Hd.
  destruct (next_xid_cycle x Hx) as [Heq Hr]. rewrite Heq in Hd.
  destruct (p !! (x `mod` u32_max + 1)) eqn:Hp; [|by simplify_eq].
  eapply IH; [|exact Hd]. ulia.
Qed.

Lemma draw_xid_terminates x (p : gmap Z (option nat)) : is_u32 x →
  Z.of_nat (size p) < u32_max → is_Some (draw_xid (S (size p)) x p).
Proof.
  intros Hx Hsize. destruct (draw_xid (S (size p)) x p) eqn:Hd; [done|exfalso].
  set (draws := (λ k, (x + Z.of_nat k) `mod` u32_max + 1) <$> seq 0 (S (size p))).
  assert (Hnd : NoDup draws).
  { apply NoDup_fmap_2_strong; [|apply NoDup_seq].
    intros i j Hi%elem_of_seq Hj%elem_of_seq H.
    assert (Z.of_nat i = Z.of_nat j) by (apply (cycle_inj x); lia). lia. }
  assert (Hsub : list_to_set (C := gset Z) draws ⊆ dom p).
  { intros id Hid%elem_of_list_to_set. apply list_elem_of_fmap in Hid as (k & -> & Hk%elem_of_seq).
    apply elem_of_dom. eapply draw_xid_none; [done|exact Hd|lia]. }
  apply subseteq_size in Hsub. rewrite size_list_to_set, size_dom in Hsub by done.
  unfold draws in Hsub. rewrite length_fmap, length_seq in Hsub. lia.
Qed.

Lemma fail_all_replied s tx :
  ((∃ id, pending s !! id = Some (Some tx)) →
     replied (fail_all s) !! tx = Some (Err (Error.ConnectionLost "{err}")))
  ∧ ((∀ id, pending s !! id ≠ Some (Some tx)) → replied (fail_all s) !! tx = replied s !! tx).
Proof.
  unfold fail_all. cbn [replied]. generalize (pending s). clear.
  apply (map_fold_weak_ind (λ r m,
    ((∃ id, m !! id = Some (Some tx)) → r !! tx = Some (Err (Error.ConnectionLost "{err}")))
    ∧ ((∀ id, m !! id ≠ Some (Some tx)) → r !! tx = replied s !! tx))).
  - split; [|done]. by intros [id ?%lookup_empty_Some].
  - intros id call m r Hid [IH1 IH2]. split.
    + intros [id' Hid']. destruct (decide (id = id')) as [->|].
      * rewrite lookup_insert_eq in Hid'. simplify_eq. by rewrite lookup_insert_eq.
      * rewrite lookup_insert_ne in Hid' by done. destruct call as [tx'|]; [|by apply IH1; exists id'].
        destruct (decide (tx' = tx)) as [->|]; [by rewrite lookup_insert_eq|].
        rewrite lookup_insert_ne by done. apply IH1. by exists id'.
    + intros Hno. assert (Hno' : ∀ id', m !! id' ≠ Some (Some tx)).
      { intros id' Hid'. apply (Hno id'). rewrite lookup_insert_ne; [done|]. intros ->. congruence. }
      destruct call as [tx'|]; [|by apply IH2]. destruct (decide (tx' = tx)) as [->|].
      * exfalso. apply (Hno id). by rewrite lookup_insert_eq.
      * rewrite lookup_insert_ne by done. by apply IH2.
Qed.

(** ** Runs of the routing machine

    [regs] is the XID each call registered, [records] the records that were
    read from the connection, in order. *)
Inductive step : t * list Z * list bytes → t * list Z * list bytes → Prop :=
| step_register s regs records call id s' :
    register s = Some (call, id, s') → step (s, regs, records) (s', regs ++ [id], records)
| step_receive s regs records record :
    bytes_wf record → step (s, regs, records) (receive (Ok record) s, regs, records ++ [record])
| step_fail s regs records e : step (s, regs, records) (receive (Err e) s, regs, records)
| step_drop s regs records call id :
    regs !! call = Some id → step (s, regs, records) (unregister id s, regs, records).

Definition initial (x : Z) : t := mk x ∅ false 0 ∅.

Inductive reachable (x : Z) : t * list Z * list bytes → Prop :=
| reach_init : reachable x (initial x, [], [])
| reach_step c c' : reachable x c → step c c' → reachable x c'.

(** The answer [body] of a call that registered [id] is the body of a record
    that was read and carries that XID. *)
Definition answered_from (records : list bytes) (id : Z) (body : bytes) : Prop :=
  ∃ record, record ∈ records ∧ peek_xid record = Ok id ∧ decode_reply id record = Ok body.

Definition inv (c : t * list Z * list bytes) : Prop :=
  let '(s, regs, records) := c in
  is_u32 (xid s)
  ∧ length regs = next_call s
  ∧ (∀ id tx, pending s !! id = Some (Some tx) → regs !! tx = Some id ∧ replied s !! tx = None)
  ∧ (∀ tx r, replied s !! tx = Some r → (tx < next_call s)%nat)
  ∧ (∀ tx body, replied s !! tx = Some (Ok body) →
       ∃ id, regs !! tx = Some id ∧ answered_from records id body).

Lemma inv_fail_all s regs records : inv (s, regs, records) → inv (fail_all s, regs, records).
Proof.
  intros (Hx & Hl & Hp & Hr & Hok). split_and!; [done|done|by intros ??[=]| |].
  - intros tx r Htx. destruct (fail_all_replied s tx) as [_ Hno].
    destruct (decide (tx < next_call s)%nat) as [|Hge]; [done|].
    rewrite Hno in Htx; [by eapply Hr|]. intros id [Hid _]%Hp.
    apply lookup_lt_Some in Hid. lia.
  - intros tx body Htx. destruct (fail_all_replied s tx) as [Hyes Hno].
    destruct (replied s !! tx) as [r|] eqn:Hrep.
    + apply Hok. rewrite <- Htx, Hrep. symmetry. apply Hno. intros id [_ ?]%Hp. congruence.
    + exfalso. destruct (decide (map_Exists (λ _ c, c = Some tx) (pending s))) as [(id & c & Hc & ->)|Hne].
      * rewrite Hyes in Htx by eauto. done.
      * rewrite Hno in Htx; [congruence|]. intros id Hid. apply Hne. by exists id, (Some tx).
Qed.

Lemma inv_record s regs records record : inv (s, regs, records) → inv (s, regs, records ++ [record]).
Proof.
  intros (Hx & Hl & Hp & Hr & Hok). split_and!; try done. intros tx body (id & Hid & b & Hb & Hd)%Hok.
  exists id. split; [done|]. exists b. split; [|done]. apply elem_of_app. by left.
Qed.

Lemma inv_step c c' : inv c → step c c' → inv c'.
Proof.
  intros Hinv Hstep. destruct Hstep as [s regs records call id s' Hreg|s regs records b Hwf|s regs records e|s regs records call id Hid].
  - destruct Hinv as (Hx & Hl & Hp & Hr & Hok). unfold register in Hreg.
    destruct (draw_xid _ _ _) as [[id' x']|] eqn:Hd; [|done]. simplify_eq.
    apply draw_xid_some in Hd as (Hnone & Hrange & ->); [|done]. cbn.
    split_and!; [ulia|by rewrite length_app, Hl; cbn; lia| | |].
    + intros id' tx Htx. destruct (decide (id' = id)) as [->|].
      * rewrite lookup_insert_eq in Htx. simplify_eq. rewrite lookup_app_r, Hl, Nat.sub_diag by lia.
        split; [done|]. destruct (replied s !! next_call s) eqn:E; [|done]. apply Hr in E. lia.
      * rewrite lookup_insert_ne in Htx by done. apply Hp in Htx as [Htx ?].
        split; [|done]. by apply lookup_app_l_Some.
    + intros tx r Htx. apply Hr in Htx. lia.
    + intros tx body Htx. apply Hok in Htx as (id' & ? & ?). exists id'.
      split; [by apply lookup_app_l_Some|done].
  - apply (inv_record _ _ _ b) in Hinv. cbn [receive].
    destruct (peek_xid b) as [id| |] eqn:Hpeek; [|by apply inv_fail_all..].
    destruct (pending s !! id) as [[tx|]|] eqn:Hpend; [|done|done].
    destruct Hinv as (Hx & Hl & Hp & Hr & Hok). destruct (Hp _ _ Hpend) as [Hreg Hnone]. cbn.
    split_and!; [done|done| | |].
    + intros id' tx' Htx'. destruct (decide (id' = id)) as [->|]; [by rewrite lookup_insert_eq in Htx'|].
      rewrite lookup_insert_ne in Htx' by done. destruct (Hp _ _ Htx') as [? ?].
      split; [done|]. rewrite lookup_insert_ne; [done|]. intros ->. congruence.
    + intros tx' r. destruct (decide (tx' = tx)) as [->|].
      * intros _. apply lookup_lt_Some in Hreg. lia.
      * rewrite lookup_insert_ne by done. apply Hr.
    + intros tx' body. destruct (decide (tx' = tx)) as [->|].
      * rewrite lookup_insert_eq. intros [= Hdec]. exists id. split; [done|]. exists b.
        split; [|done]. apply elem_of_app. right. by apply list_elem_of_singleton.
      * rewrite lookup_insert_ne by done. apply Hok.
  - by apply inv_fail_all.
  - destruct Hinv as (Hx & Hl & Hp & Hr & Hok). cbn. split_and!; try done.
    intros id' tx [_ ?]%lookup_delete_Some. by apply Hp.
Qed.

Lemma reachable_inv x c : is_u32 x → reachable x c → inv c.
Proof.
  intros Hx. induction 1 as [|c c' _ IH Hstep]; [|by eapply inv_step].
  split_and!; try done; by intros ? ? [=].
Qed.

Lemma fail_all_stable s regs records tx r : inv (s, regs, records) →
  replied s !! tx = Some r → replied (fail_all s) !! tx = Some r.
Proof.
  intros (_ & _ & Hp & _) Htx. destruct (fail_all_replied s tx) as [_ Hno].
  rewrite Hno; [done|]. intros id [_ ?]%Hp. congruence.
Qed.

(** A sender fires once. *)
Lemma replied_stable x c c' tx r : is_u32 x → reachable x c → step c c' →
  replied c.1.1 !! tx = Some r → replied c'.1.1 !! tx = Some r.
Proof.
  intros Hx Hreach Hstep Hrep. pose proof (reachable_inv x c Hx Hreach) as Hinv.
  destruct Hstep as [s regs records call id s' Hreg|s regs records b Hwf|s regs records e|s regs records call id Hid];
    cbn in *.
  - unfold register in Hreg. destruct (draw_xid _ _ _) as [[id' x']|]; [|done]. by simplify_eq.
  - destruct (peek_xid b) as [id| |]; [|by eapply fail_all_stable..].
    destruct (pending s !! id) as [[tx'|]|] eqn:Hpend; [|done|done].
    destruct Hinv as (_ & _ & Hp & _). apply Hp in Hpend as [_ ?]. cbn.
    rewrite lookup_insert_ne; [done|]. intros ->. congruence.
  - by eapply fail_all_stable.
  - done.
Qed.

(** A record answers the call that waits under its XID, and no other. *)
Lemma receive_delivers s b id tx : peek_xid b = Ok id →
  replied (receive (Ok b) s) !! tx
  = if decide (pending s !! id = Some (Some tx)) then Some (decode_reply id b) else replied s !! tx.
Proof.
  intros Hpeek. cbn [receive]. rewrite Hpeek. destruct (pending s !! id) as [[tx'|]|] eqn:Hp; cbn.
  - destruct (decide (tx' = tx)) as [->|Hne].
    + rewrite decide_True by done. apply lookup_insert_eq.
    + rewrite decide_False by congruence. by rewrite lookup_insert_ne.
  - by rewrite decide_False.
  - by rewrite decide_False.
Qed.

End RoutingFacts.

(** Call registration terminates.  While fewer than 2^32 - 1 calls are
    pending, drawing XIDs ends with one that is not zero, not in use, and now
    reserved for the call. *)
Theorem register_terminates (s : Routing.t) :
  is_u32 (Routing.xid s) → Z.of_nat (size (Routing.pending s)) < u32_max →
  ∃ call id s', Routing.register s = Some (call, id, s')
    ∧ Routing.pending s !! id = None ∧ 1 ≤ id ≤ u32_max
    ∧ Routing.pending s' = <[id := Some call]> (Routing.pending s).
Proof.
  intros Hx Hsize. unfold Routing.register.
  destruct (RoutingFacts.draw_xid_terminates _ _ Hx Hsize) as [[id x'] Hd]. rewrite Hd.
  apply RoutingFacts.draw_xid_some in Hd as (Hnone & Hr & _); [|done].
  eexists _, id, _. split; [reflexivity|]. done.
Qed.

Lemma register_terminates_witness :
  ∃ call id s', Routing.register (Routing.mk u32_max {[1 := Some 0%nat]} false 1 ∅) = Some (call, id, s')
    ∧ Routing.pending (Routing.mk u32_max {[1 := Some 0%nat]} false 1 ∅) !! id = None ∧ 1 ≤ id ≤ u32_max
    ∧ Routing.pending s' = <[id := Some call]> (Routing.pending (Routing.mk u32_max {[1 := Some 0%nat]} false 1 ∅)).
Proof.
  apply register_terminates; [split; vm_compute; discriminate|]. cbn [Routing.pending].
  rewrite map_size_singleton. reflexivity.
Defined.

(** C26: Routing.  In every reachable state of the pending map (any order of
    registrations, records, transport failures and dropped calls): a call
    waiting under an XID registered that XID and has no answer yet; a call
    that received a body registered an XID that a record read from the
    connection carries, and the body is that of this record; the next record
    answers the call that waits under its XID, if there is one, and changes
    the answer of no other call; and an answer once given is never replaced. *)
Theorem routing_sound (x : Z) (s : Routing.t) (regs : list Z) (records : list bytes) :
  is_u32 x → RoutingFacts.reachable x (s, regs, records) →
  (∀ id tx, Routing.pending s !! id = Some (Some tx) →
     regs !! tx = Some id ∧ Routing.replied s !! tx = None)
  ∧ (∀ tx body, Routing.replied s !! tx = Some (Ok body) →
       ∃ id record, regs !! tx = Some id ∧ record ∈ records ∧ peek_xid record = Ok id
         ∧ decode_reply id record = Ok body)
  ∧ (∀ record id tx, peek_xid record = Ok id →
       Routing.replied (Routing.receive (Ok record) s) !! tx
       = if decide (Routing.pending s !! id = Some (Some tx)) then Some (decode_reply id record)
         else Routing.replied s !! tx)
  ∧ (∀ c' tx r, RoutingFacts.step (s, regs, records) c' →
       Routing.replied s !! tx = Some r → Routing.replied c'.1.1 !! tx = Some r).
Proof.
  intros Hx Hreach. pose proof (RoutingFacts.reachable_inv _ _ Hx Hreach) as (_ & _ & Hp & _ & Hok).
  split_and!; [done| | |].
  - intros tx body (id & Hid & record & H)%Hok. by exists id, record.
  - intros record id tx. apply RoutingFacts.receive_delivers.
  - intros c' tx r Hstep. by apply (RoutingFacts.replied_stable x (s, regs, records)).
Qed.

(** A transport failure answers every waiting call with a retryable
    connection-lost error and leaves none waiting. *)
Theorem fail_all_answers_everyone (s : Routing.t) (id : Z) (tx : nat) :
  Routing.pending s !! id = Some (Some tx) →
  Routing.pending (Routing.fail_all s) = ∅
  ∧ Routing.transport_closed (Routing.fail_all s) = true
  ∧ ∃ e, Routing.replied (Routing.fail_all s) !! tx = Some (Err e)
       ∧ Error.is_retryable e = true ∧ Error.requires_session_rebuild e = true.
Proof.
  intros H. split_and!; [done|done|]. exists (Error.ConnectionLost "{err}"). split; [|done].
  apply RoutingFacts.fail_all_replied. by exists id.
Qed.

Lemma fail_all_answers_everyone_witness :
  let s := Routing.mk 5 {[4 := Some 0%nat; 5 := Some 1%nat]} false 2 ∅ in
  Routing.pending (Routing.fail_all s) = ∅
  ∧ Routing.transport_closed (Routing.fail_all s) = true
  ∧ ∃ e, Routing.replied (Routing.fail_all s) !! 1%nat = Some (Err e)
       ∧ Error.is_retryable e = true ∧ Error.requires_session_rebuild e = true.
Proof. intros s. apply (fail_all_answers_everyone s 5 1). reflexivity. Defined.

(** A call registers XID 1 and the reply to it arrives. *)
Definition sample_record : bytes :=
  wire_u32 1 ++ wire_u32 1 ++ wire_u32 0 ++ wire_u32 0 ++ wire_u32 0 ++ wire_u32 0 ++ [8; 9; 10; 11].

Lemma routing_sound_witness :
  let s := Routing.receive (Ok sample_record) (Routing.mk 1 {[1 := Some 0%nat]} false 1 ∅) in
  RoutingFacts.reachable 0 (s, [1], [sample_record]) ∧ Routing.replied s !! 0%nat = Some (Ok [8; 9; 10; 11])
  ∧ ∃ id record, [1] !! 0%nat = Some id ∧ record ∈ [sample_record] ∧ peek_xid record = Ok id
      ∧ decode_reply id record = Ok [8; 9; 10; 11].
Proof.
  intros s.
  assert (H : RoutingFacts.reachable 0 (s, [1], [sample_record])).
  { eapply RoutingFacts.reach_step; [eapply RoutingFacts.reach_step; [apply RoutingFacts.reach_init|]|].
    - apply (RoutingFacts.step_register (RoutingFacts.initial 0) [] [] 0 1 (Routing.mk 1 {[1 := Some 0%nat]} false 1 ∅)).
      reflexivity.
    - apply (RoutingFacts.step_receive _ [1] [] sample_record). vm_compute. repeat constructor; discriminate. }
  assert (Hr : Routing.replied s !! 0%nat = Some (Ok [8; 9; 10; 11])) by (vm_compute; reflexivity).
  split; [exact H|]. split; [exact Hr|].
  destruct (routing_sound 0 s [1] [sample_record] ltac:(split; discriminate) H) as (_ & Hok & _). exact (Hok _ _ Hr).
Defined.
