(* ===== verification/Compound.v ===== *)
(** * Compound requests (src/nfs4/codec.rs, request side; src/nfs4.rs, builders)

    A request is a tag, the minor version, an operation count and the encoded
    operations, SEQUENCE first when it runs on a session.  It is encoded
    twice in the source: contiguously ([encode_compound_inner]) and as
    segments that leave the bytes of a WRITE where the caller has them
    ([encode_compound_with_sequence]).  The theorems are that the two put the
    same bytes on the wire, that the length computed beforehand is exact, and
    hence that a request that passes the limit check fits the limits.

    [RequestEncoder] is the interface the session relies on: an encoder with
    its announced length and the law that they agree. *)

From S2P Require Import Prelude Proto Errors Xdr Ops Rpc.

(** ** Operation lists (src/nfs4.rs) *)

Definition root_path_ops_with_extra (components : list str) (extra_ops : Z) : list NfsOp.t :=
  NfsOp.PutRootFh :: (NfsOp.Lookup <$> components).

Definition extend_export_path_ops (ops : list NfsOp.t) (export_root : FileHandle)
    (components : list str) : list NfsOp.t :=
  (ops ++ [NfsOp.PutFh export_root]) ++ (NfsOp.Lookup <$> components).

Definition export_path_ops_with_extra (export_root : FileHandle) (components : list str)
    (extra_ops : Z) : list NfsOp.t :=
  extend_export_path_ops [] export_root components.

(** [u32::try_from(bytes).unwrap_or(0)] *)
Definition commit_count (bytes : Z) : Z := if bytes <=? u32_max then bytes else 0.

Definition write_and_commit_ops (opened : OpenedFile.t) (offset : Z) (data : bytes)
  : list NfsOp.t :=
  let count := commit_count (blen data) in
  [NfsOp.PutFh (OpenedFile.fh opened);
   NfsOp.Write (OpenedFile.stateid opened) offset data;
   NfsOp.Commit offset count].

Definition bounded_readdir_counts (config : NfsConfig.t) (max_entries_hint : option Z) : Z * Z :=
  let hinted_maxcount :=
    match max_entries_hint with
    | Some entries =>
        as_u32 (Z.min (Z.max (saturating_mul entries READDIR_ENTRY_BYTE_HINT)
                             READDIR_MIN_HINT_BYTES) u32_max)
    | None => NfsConfig.readdir_maxcount config
    end in
  let maxcount := Z.max (Z.min (NfsConfig.readdir_maxcount config) hinted_maxcount) 1 in
  let dircount := Z.max (Z.min (NfsConfig.readdir_dircount config) maxcount) 1 in
  (dircount, maxcount).

Definition readdir_op (config : NfsConfig.t) (cookie : Z) (verifier : bytes)
    (max_entries_hint : option Z) : NfsOp.t :=
  let '(dircount, maxcount) := bounded_readdir_counts config max_entries_hint in
  NfsOp.ReadDir cookie verifier dircount maxcount Bitmap.empty.

(** ** Lengths *)

Definition sequence_op_encoded_len : Z :=
  saturating_encoded_len [4; xdr_fixed_opaque_len 16; 4; 4; 4; 4].

Definition compound_encoded_len (tag : str) (ops : list NfsOp.t) : Z :=
  foldl (λ total op, saturating_add total (NfsOp.encoded_len op))
    (saturating_encoded_len [xdr_string_len tag; 4; 4]) ops.

Definition compound_with_sequence_encoded_len (tag : str) (ops : list NfsOp.t) : Z :=
  saturating_add (compound_encoded_len tag ops) sequence_op_encoded_len.

Definition write_data_len (ops : list NfsOp.t) : Z :=
  foldl (λ total op,
      match op with
      | NfsOp.Write _ _ data => saturating_add total (blen data)
      | _ => total
      end) 0 ops.

Definition validate_compound_request_limits (tag : str) (ops : list NfsOp.t)
    (max_compound_ops max_request_size encoded_call_len : Z) : res Error.t unit :=
  let operation_count := saturating_add (blen ops) 1 in
  if max_compound_ops <? operation_count then
    Err (Error.protocol "{tag} compound has {operation_count} operations, exceeding negotiated limit {max_compound_ops}")
  else if max_request_size <? encoded_call_len then
    Err (Error.protocol "{tag} RPC request is {encoded_call_len} bytes, exceeding negotiated request limit {max_request_size}")
  else Ok tt.

(** ** Encoding *)

Definition encode_sequence_op (sequence : SequenceArgs.t) : enc unit :=
  let! _ := XdrEncoder.put_u32 (OpCode.as_u32 OpCode.Sequence) in
  let! _ := XdrEncoder.put_bytes (SequenceArgs.sessionid sequence) in
  let! _ := XdrEncoder.put_u32 (SequenceArgs.sequenceid sequence) in
  let! _ := XdrEncoder.put_u32 (SequenceArgs.slotid sequence) in
  let! _ := XdrEncoder.put_u32 (SequenceArgs.highest_slotid sequence) in
  XdrEncoder.put_bool (SequenceArgs.cachethis sequence).

Definition encode_compound_inner (tag : str) (sequence : option SequenceArgs.t)
    (ops : list NfsOp.t) : res Error.t bytes :=
  let op_count :=
    match sequence with
    | Some _ => saturating_add (blen ops) 1
    | None => blen ops
    end in
  freeze
    (let! _ := XdrEncoder.put_string tag in
     let! _ := XdrEncoder.put_u32 NFS_MINOR_VERSION in
     let! _ := XdrEncoder.put_u32 (as_u32 op_count) in
     let! _ := match sequence with
               | Some sequence => encode_sequence_op sequence
               | None => sret tt
               end in
     for_each NfsOp.encode ops).

Definition encode_compound (tag : str) (ops : list NfsOp.t) : res Error.t bytes :=
  encode_compound_inner tag None ops.

(** The loop of [encode_compound_with_sequence]: the state is the encoder
    under way and the segments finished so far. *)
Definition encode_segment_op (op : NfsOp.t) : st (bytes * list bytes) Error.t unit :=
  λ '(enc, segments),
    match op with
    | NfsOp.Write stateid offset data =>
        match (let! _ := XdrEncoder.put_u32 (OpCode.as_u32 OpCode.Write) in
               let! _ := StateId.encode stateid in
               let! _ := XdrEncoder.put_u64 offset in
               let! _ := XdrEncoder.put_u32 UNSTABLE4 in
               XdrEncoder.put_u32 (as_u32 (blen data))) enc with
        | (Ok _, enc) =>
            let segments := segments ++ [enc] in
            let segments := segments ++ [data] in
            let '(r, enc) :=
              XdrEncoder.put_bytes (replicate (Z.to_nat (xdr_padding (blen data))) 0)
                (XdrEncoder.with_capacity 128) in
            (r, (enc, segments))
        | (Err e, enc) => (Err e, (enc, segments))
        | (Panic, enc) => (Panic, (enc, segments))
        end
    | _ =>
        let '(r, enc) := NfsOp.encode op enc in
        (r, (enc, segments))
    end.

Definition encode_compound_with_sequence (tag : str) (sequence : SequenceArgs.t)
    (ops : list NfsOp.t) : res Error.t RpcPayload.t :=
  let capacity :=
    saturating_sub (compound_with_sequence_encoded_len tag ops) (write_data_len ops) in
  let? enc :=
    freeze
      (let! _ := XdrEncoder.put_string tag in
       let! _ := XdrEncoder.put_u32 NFS_MINOR_VERSION in
       let! _ := XdrEncoder.put_u32 (as_u32 (saturating_add (blen ops) 1)) in
       encode_sequence_op sequence) in
  match for_each encode_segment_op ops (enc, []) with
  | (Ok _, (enc, segments)) => Ok (RpcPayload.from_segments (segments ++ [enc]))
  | (Err e, _) => Err e
  | (Panic, _) => Panic
  end.

(** ** The reference image *)

Definition wire_sequence (s : SequenceArgs.t) : bytes :=
  wire_u32 (OpCode.as_u32 OpCode.Sequence) ++ SequenceArgs.sessionid s
  ++ wire_u32 (SequenceArgs.sequenceid s) ++ wire_u32 (SequenceArgs.slotid s)
  ++ wire_u32 (SequenceArgs.highest_slotid s) ++ wire_bool (SequenceArgs.cachethis s).

Definition wire_compound (tag : str) (sequence : option SequenceArgs.t) (ops : list NfsOp.t) : bytes :=
  wire_opaque tag ++ wire_u32 NFS_MINOR_VERSION
  ++ wire_u32 (blen ops + match sequence with Some _ => 1 | None => 0 end)
  ++ match sequence with Some s => wire_sequence s | None => [] end
  ++ mjoin (NfsOp.wire <$> ops).

(** A request whose pieces are encodable and whose size fits the address
    space. *)
Definition request_wf (tag : str) (sequence : option SequenceArgs.t) (ops : list NfsOp.t) : Prop :=
  blen tag ≤ u32_max ∧ blen ops < u32_max ∧ Forall NfsOp.wf ops
  ∧ match sequence with Some s => blen (SequenceArgs.sessionid s) = 16 | None => True end
  ∧ blen (wire_compound tag sequence ops) ≤ usize_max.

(** ** Lemmas *)

Lemma emits_sequence s : emits (encode_sequence_op s) tt (wire_sequence s).
Proof. repeat (eapply emits_bind; [eauto with emits|]). apply emits_put_bool. Qed.

Lemma emits_ops ops : Forall NfsOp.wf ops → emits (for_each NfsOp.encode ops) tt (mjoin (NfsOp.wire <$> ops)).
Proof.
  intros Hwf. apply NfsOp.emits_for_each. intros op Hop. apply NfsOp.emits_encode.
  rewrite Forall_forall in Hwf. by apply Hwf.
Qed.

Lemma op_count_small (n : Z) (ops : list NfsOp.t) :
  0 ≤ n ≤ 1 → blen ops < u32_max → as_u32 (saturating_add (blen ops) n) = blen ops + n.
Proof.
  intros Hn Hops. pose proof (blen_nonneg ops). unfold as_u32, wrap32, saturating_add.
  rewrite Z.min_l by ulia. apply Z.mod_small. ulia.
Qed.

Lemma encode_compound_inner_ok tag sequence ops : request_wf tag sequence ops →
  encode_compound_inner tag sequence ops = Ok (wire_compound tag sequence ops).
Proof.
  intros (Htag & Hops & Hwf & _ & _). unfold encode_compound_inner, wire_compound.
  eapply emits_freeze. eapply emits_bind; [by apply emits_put_opaque|].
  eapply emits_bind; [apply emits_put_u32|].
  eapply emits_bind.
  { replace (match sequence with Some _ => saturating_add (blen ops) 1 | None => blen ops end)
      with (saturating_add (blen ops) (match sequence with Some _ => 1 | None => 0 end)).
    - rewrite op_count_small; [apply emits_put_u32| |done]. destruct sequence; lia.
    - pose proof (blen_nonneg ops). destruct sequence; ulia. }
  eapply emits_bind; [|by apply emits_ops].
  destruct sequence; [apply emits_sequence|apply emits_ret].
Qed.

(** The segment loop: the segments and the encoder under way hold the images
    of the operations, in order. *)
Lemma segment_loop ops : Forall NfsOp.wf ops → ∀ enc segments,
  ∃ enc' segments', for_each encode_segment_op ops (enc, segments) = (Ok tt, (enc', segments'))
    ∧ mjoin (segments' ++ [enc']) = mjoin (segments ++ [enc]) ++ mjoin (NfsOp.wire <$> ops).
Proof.
  induction 1 as [|op ops Hop _ IH]; intros enc segments.
  { exists enc, segments. split; [done|]. cbn. by rewrite app_nil_r. }
  assert (Hstep : ∃ enc' segments', encode_segment_op op (enc, segments) = (Ok tt, (enc', segments'))
    ∧ mjoin (segments' ++ [enc']) = mjoin (segments ++ [enc]) ++ NfsOp.wire op).
  { destruct op as [| | | | | | | | | |stateid offset data| | | | | | | | | |];
      try (cbn [encode_segment_op]; rewrite (NfsOp.emits_encode _ Hop);
           eexists _, _; split; [reflexivity|]; rewrite !mjoin_app, <- app_assoc; cbn;
           rewrite !app_nil_r; reflexivity).
    destruct Hop as [_ Hlen]. pose proof (blen_nonneg data).
    assert (Hhead : emits (E:=Error.t)
      (let! _ := XdrEncoder.put_u32 (OpCode.as_u32 OpCode.Write) in
       let! _ := StateId.encode stateid in
       let! _ := XdrEncoder.put_u64 offset in
       let! _ := XdrEncoder.put_u32 UNSTABLE4 in
       XdrEncoder.put_u32 (as_u32 (blen data))) tt
      (wire_u32 (OpCode.as_u32 OpCode.Write) ++ StateId.wire stateid ++ wire_u64 offset
       ++ wire_u32 0 ++ wire_u32 (blen data))).
    { repeat (eapply emits_bind; [eauto with emits|]). unfold as_u32, wrap32.
      rewrite Z.mod_small by ulia. apply emits_put_u32. }
    cbn [encode_segment_op]. rewrite Hhead. eexists _, _. split; [reflexivity|].
    unfold NfsOp.wire. cbn [NfsOp.opcode NfsOp.wire_args].
    rewrite !mjoin_app. cbn [mjoin list_join app XdrEncoder.with_capacity].
    rewrite !app_nil_r, <- !app_assoc. unfold wire_opaque. by rewrite <- ?app_assoc. }
  destruct Hstep as (e1 & s1 & Hs1 & Hj1). destruct (IH e1 s1) as (e2 & s2 & Hs2 & Hj2).
  exists e2, s2. cbn [for_each]. unfold sbind. rewrite Hs1, Hs2. split; [done|].
  rewrite Hj2, Hj1, <- app_assoc. done.
Qed.

Lemma segments_ok tag s ops : request_wf tag (Some s) ops →
  ∃ p, encode_compound_with_sequence tag s ops = Ok p
    ∧ RpcPayload.to_bytes p = wire_compound tag (Some s) ops ∧ RpcPayload.wf p.
Proof.
  intros (Htag & Hops & Hwf & Hsid & Hmax). unfold encode_compound_with_sequence.
  set (head := wire_opaque tag ++ wire_u32 NFS_MINOR_VERSION ++ wire_u32 (blen ops + 1) ++ wire_sequence s).
  rewrite (emits_freeze _ tt head).
  2:{ eapply emits_bind; [by apply emits_put_opaque|]. eapply emits_bind; [apply emits_put_u32|].
      eapply emits_bind; [rewrite op_count_small by lia; apply emits_put_u32|apply emits_sequence]. }
  cbn [rbind]. destruct (segment_loop ops Hwf head []) as (e & segs & -> & Hj).
  assert (Himg : mjoin (segs ++ [e]) = wire_compound tag (Some s) ops).
  { rewrite Hj. cbn [app]. rewrite mjoin_cons. change (mjoin []) with (@nil Z). rewrite app_nil_r.
    unfold head, wire_compound. by rewrite <- !app_assoc. }
  destruct (from_segments_spec (segs ++ [e])) as [Hb Hwfp]; [by rewrite Himg|].
  eexists. split; [reflexivity|]. by rewrite Hb.
Qed.

(** ** Lengths are exact *)

Lemma compound_len_fold ops acc : Forall NfsOp.wf ops → 0 ≤ acc →
  acc + blen (mjoin (NfsOp.wire <$> ops)) ≤ usize_max →
  foldl (λ total op, saturating_add total (NfsOp.encoded_len op)) acc ops
  = acc + blen (mjoin (NfsOp.wire <$> ops)).
Proof.
  intros Hwf. induction Hwf as [|op ops Hop _ IH] in acc |- *; intros Hacc Hmax.
  { cbn. change (blen []) with 0. lia. }
  cbn [fmap list_fmap foldl] in *. rewrite mjoin_cons, blen_app in *. rewrite NfsOp.encoded_len_wire by done.
  pose proof (blen_nonneg (NfsOp.wire op)). pose proof (blen_nonneg (mjoin (NfsOp.wire <$> ops))).
  assert (Hs : saturating_add acc (blen (NfsOp.wire op)) = acc + blen (NfsOp.wire op)) by ulia.
  rewrite Hs, IH by lia. lia.
Qed.

Lemma encoded_len_exact tag s ops : request_wf tag (Some s) ops →
  compound_with_sequence_encoded_len tag ops = blen (wire_compound tag (Some s) ops).
Proof.
  intros (Htag & Hops & Hwf & Hsid & Hmax). revert Hmax.
  unfold compound_with_sequence_encoded_len, compound_encoded_len, wire_compound, wire_sequence.
  autorewrite with wire. rewrite Hsid. change sequence_op_encoded_len with 36.
  unfold saturating_encoded_len, xdr_string_len. cbn [foldl]. length_bounds.
  rewrite xdr_opaque_len_small by ulia. intros Hmax. rewrite compound_len_fold; [ulia|done|ulia|ulia].
Qed.

(** ** The interface to the transport

    What the transport needs of a request: an encoder whose payload holds the
    image of the request, and an announced length that is its length. *)

Class RequestEncoder (Req : Type) : Type := {
  req_encode : Req → res Error.t RpcPayload.t;
  req_len : Req → Z;
  req_image : Req → bytes;
  req_ok : Req → Prop;
  req_law : ∀ r, req_ok r →
    ∃ p, req_encode r = Ok p ∧ RpcPayload.to_bytes p = req_image r ∧ RpcPayload.wf p
       ∧ req_len r = blen (req_image r);
}.

Section transport.
Context {Req : Type} `{!RequestEncoder Req} (c : RpcClient.t) (Hc : client_wf c).

(** The record of an encoded request is the call header, the credential and
    the image, and has the length the transport announces in its marker. *)
Lemma record_exact (r : Req) (xid program version procedure : Z) :
  req_ok r →
  blen (wire_call c xid program version procedure (req_image r)) ≤ usize_max →
  ∃ p, req_encode r = Ok p
    ∧ framed c (RpcClient.encode_call c xid program version procedure p)
      = wire_call c xid program version procedure (req_image r)
    ∧ RpcRequest.record_len (RpcClient.encode_call c xid program version procedure p)
      = RpcClient.encoded_call_len c (req_len r)
    ∧ RpcClient.encoded_call_len c (req_len r)
      = blen (wire_call c xid program version procedure (req_image r)).
Proof.
  intros Hok Hmax. destruct (req_law r Hok) as (p & Hp & Hb & Hwf & Hlen).
  exists p. rewrite (framed_encode_call c _ _ _ _ p Hc Hwf), Hb. split_and!; [done|done| |].
  - cbn. rewrite Hwf, Hb, Hlen. done.
  - rewrite Hlen. by apply blen_wire_call.
Qed.

End transport.

(** A compound on a session. *)
Record SessionRequest : Type := mkSessionRequest {
  rq_tag : str;
  rq_sequence : SequenceArgs.t;
  rq_ops : list NfsOp.t;
}.

Lemma session_request_law (r : SessionRequest) :
  request_wf (rq_tag r) (Some (rq_sequence r)) (rq_ops r) →
  ∃ p, encode_compound_with_sequence (rq_tag r) (rq_sequence r) (rq_ops r) = Ok p
    ∧ RpcPayload.to_bytes p = wire_compound (rq_tag r) (Some (rq_sequence r)) (rq_ops r)
    ∧ RpcPayload.wf p
    ∧ compound_with_sequence_encoded_len (rq_tag r) (rq_ops r)
      = blen (wire_compound (rq_tag r) (Some (rq_sequence r)) (rq_ops r)).
Proof.
  intros Hok. destruct (segments_ok _ _ _ Hok) as (p & Hp & Hb & Hwf).
  exists p. split_and!; [done|done|done|]. by apply encoded_len_exact.
Qed.

#[export] Instance session_request_encoder : RequestEncoder SessionRequest := {|
  req_encode r := encode_compound_with_sequence (rq_tag r) (rq_sequence r) (rq_ops r);
  req_len r := compound_with_sequence_encoded_len (rq_tag r) (rq_ops r);
  req_image r := wire_compound (rq_tag r) (Some (rq_sequence r)) (rq_ops r);
  req_ok r := request_wf (rq_tag r) (Some (rq_sequence r)) (rq_ops r);
  req_law := session_request_law;
|}.

(** C19: Scatter-gather encoding.  The segmented encoding of a compound, which
    never copies WRITE data, puts on the wire exactly the bytes the
    contiguous encoder produces for the same operations; both are the RFC
    image, neither panics, and the length announced beforehand is exact. *)
Theorem segmented_equals_contiguous (tag : str) (s : SequenceArgs.t) (ops : list NfsOp.t) :
  request_wf tag (Some s) ops →
  ∃ p, encode_compound_with_sequence tag s ops = Ok p
    ∧ encode_compound_inner tag (Some s) ops = Ok (RpcPayload.to_bytes p)
    ∧ RpcPayload.to_bytes p = wire_compound tag (Some s) ops
    ∧ RpcPayload.len p = compound_with_sequence_encoded_len tag ops.
Proof.
  intros Hwf. destruct (segments_ok tag s ops Hwf) as (p & Hp & Hb & Hpwf). exists p.
  rewrite (encode_compound_inner_ok _ _ _ Hwf), Hb, (encoded_len_exact _ _ _ Hwf). split_and!; try done.
  by rewrite Hpwf, Hb.
Qed.

Lemma segmented_equals_contiguous_witness :
  ∃ p, encode_compound_with_sequence (str_of "put") (SequenceArgs.mk (replicate 16 1) 5 0 3 false)
         [NfsOp.PutFh [7]; NfsOp.Write StateId.current 0 [1; 2; 3; 4; 5]; NfsOp.Commit 0 5] = Ok p
    ∧ RpcPayload.segments p <> []
    ∧ encode_compound_inner (str_of "put") (Some (SequenceArgs.mk (replicate 16 1) 5 0 3 false))
        [NfsOp.PutFh [7]; NfsOp.Write StateId.current 0 [1; 2; 3; 4; 5]; NfsOp.Commit 0 5]
      = Ok (RpcPayload.to_bytes p).
Proof.
  destruct (segmented_equals_contiguous (str_of "put") (SequenceArgs.mk (replicate 16 1) 5 0 3 false)
    [NfsOp.PutFh [7]; NfsOp.Write StateId.current 0 [1; 2; 3; 4; 5]; NfsOp.Commit 0 5])
    as (p & Hp & Hi & _).
  - split; [discriminate|]. split; [reflexivity|]. split; [|split; [reflexivity|vm_compute; discriminate]].
    repeat constructor; discriminate.
  - exists p. split; [exact Hp|]. split; [|exact Hi]. vm_compute in Hp. injection Hp as <-. discriminate.
Defined.

(** C29: Negotiated limits.  A compound that passes the limit check with the
    length computed before encoding is encoded into a record of exactly that
    length; the record (header, credential and all) and the number of
    operations (SEQUENCE included) are within what the server agreed to. *)
Theorem validated_request_fits (c : RpcClient.t) (tag : str) (s : SequenceArgs.t) (ops : list NfsOp.t)
    (max_ops max_request xid program version procedure : Z) :
  client_wf c → request_wf tag (Some s) ops → is_u32 max_request →
  validate_compound_request_limits tag ops max_ops max_request
    (RpcClient.encoded_call_len c (compound_with_sequence_encoded_len tag ops)) = Ok tt →
  blen (wire_call c xid program version procedure (wire_compound tag (Some s) ops)) ≤ usize_max →
  ∃ p, encode_compound_with_sequence tag s ops = Ok p
    ∧ let r := RpcClient.encode_call c xid program version procedure p in
      framed c r = wire_call c xid program version procedure (wire_compound tag (Some s) ops)
      ∧ blen (framed c r) = RpcRequest.record_len r
      ∧ RpcRequest.record_len r ≤ max_request
      ∧ blen ops + 1 ≤ max_ops.
Proof.
  intros Hc Hwf Hmr Hv Hmax.
  destruct (@record_exact _ session_request_encoder c Hc (mkSessionRequest tag s ops) xid program version procedure Hwf Hmax)
    as (p & Hp & Hf & Hl & He). cbn [req_len req_image session_request_encoder rq_tag rq_ops rq_sequence] in *.
  exists p. split; [exact Hp|]. cbn zeta. rewrite Hf, Hl. revert Hv. unfold validate_compound_request_limits.
  destruct (Z.ltb_spec max_ops (saturating_add (blen ops) 1)) as [|Hops]; [done|].
  destruct (Z.ltb_spec max_request (RpcClient.encoded_call_len c (compound_with_sequence_encoded_len tag ops)));
    [done|]. intros _. split_and!; [done|by rewrite He|done|].
  destruct Hwf as (_ & Hn & _). pose proof (blen_nonneg ops). ulia.
Qed.

Lemma validated_request_fits_witness :
  ∃ c, client_wf c
    ∧ validate_compound_request_limits (str_of "read")
        [NfsOp.PutFh [7]; NfsOp.Read StateId.anonymous 0 4096] 8 1024
        (RpcClient.encoded_call_len c (compound_with_sequence_encoded_len (str_of "read")
           [NfsOp.PutFh [7]; NfsOp.Read StateId.anonymous 0 4096])) = Ok tt
    ∧ ∃ p, encode_compound_with_sequence (str_of "read") (SequenceArgs.mk (replicate 16 1) 5 0 3 false)
             [NfsOp.PutFh [7]; NfsOp.Read StateId.anonymous 0 4096] = Ok p
        ∧ let r := RpcClient.encode_call c 9 NFS_PROGRAM NFS_VERSION NFSPROC4_COMPOUND p in
          framed c r = wire_call c 9 NFS_PROGRAM NFS_VERSION NFSPROC4_COMPOUND
            (wire_compound (str_of "read") (Some (SequenceArgs.mk (replicate 16 1) 5 0 3 false))
               [NfsOp.PutFh [7]; NfsOp.Read StateId.anonymous 0 4096])
          ∧ blen (framed c r) = RpcRequest.record_len r
          ∧ RpcRequest.record_len r ≤ 1024
          ∧ blen [NfsOp.PutFh [7]; NfsOp.Read StateId.anonymous 0 4096] + 1 ≤ 8.
Proof.
  destruct (RpcClient.prepare 1 (AuthSys.new (str_of "host") 0 0)) as [c| |] eqn:Hc; [|discriminate Hc..].
  exists c. pose proof (prepare_wf _ _ _ Hc) as Hwf. split; [exact Hwf|].
  assert (Hv : validate_compound_request_limits (str_of "read")
        [NfsOp.PutFh [7]; NfsOp.Read StateId.anonymous 0 4096] 8 1024
        (RpcClient.encoded_call_len c (compound_with_sequence_encoded_len (str_of "read")
           [NfsOp.PutFh [7]; NfsOp.Read StateId.anonymous 0 4096])) = Ok tt).
  { vm_compute in Hc. injection Hc as <-. reflexivity. }
  split; [exact Hv|].
  apply (validated_request_fits c (str_of "read") (SequenceArgs.mk (replicate 16 1) 5 0 3 false) _ 8 1024);
    [exact Hwf| |split; discriminate|exact Hv|].
  - split; [discriminate|]. split; [reflexivity|]. split; [|split; [reflexivity|vm_compute; discriminate]].
    repeat constructor; discriminate.
  - vm_compute in Hc. injection Hc as <-. vm_compute. discriminate.
Defined.
