(* ===== verification/Reply.v ===== *)
(** * Result bodies (src/nfs4/codec.rs, reply side)

    The decoder of each operation's result and of the pieces results are made
    of: filehandles, stateids, attributes, directory pages, EXCHANGE_ID and
    CREATE_SESSION results, and the channel negotiation computed from the
    last.  [Replies] runs these decoders inside compound replies.

    Shown here: none of them panics or reads past its input whatever the
    server sends; the attribute fast paths agree with the general decoder; a
    directory page loses no entry, with or without an entry limit; negotiated
    limits are within both sides' limits. *)

From Stdlib Require Import Sorted.
From S2P Require Import Prelude Proto Errors Xdr Ops.

(** [OpCode::from_u32] *)
Definition OpCode_from_u32 (value : Z) : res Error.t OpCode.t :=
  ok_or (OpCode.of_u32 value) (Error.protocol "unknown NFS operation {other}").

Definition skip_sequence_data : dec unit := XdrDecoder.skip_bytes SEQUENCE_RESULT_LEN.

Definition decode_file_handle : dec FileHandle :=
  let! handle := XdrDecoder.read_opaque in
  if NFS4_FHSIZE <? blen handle then
    sfail (Error.protocol "server returned a {}-byte filehandle, exceeding the NFSv4 maximum of {NFS4_FHSIZE}")
  else sret handle.

Definition decode_read_data : dec ReadData.t :=
  let! (eof, data) := XdrDecoder.read_bool_and_opaque in
  sret (ReadData.mk eof data).

Definition decode_write_data : dec WriteData.t :=
  let! (count, committed, verifier) := XdrDecoder.read_u32_pair_and_bytes 8 in
  let! committed := slift (WriteStability.from_raw committed) in
  sret (WriteData.mk count committed verifier).

Definition ensure_write_verifier (expected actual : bytes) : res Error.t unit :=
  if negb (bool_decide (actual = expected)) then
    Err (Error.connection_lost "NFS write verifier changed before COMMIT completed")
  else Ok tt.

Definition skip_stateid : dec unit := XdrDecoder.skip_bytes StateId.encoded_len.

Definition skip_change_info : dec unit :=
  let! _ := XdrDecoder.read_bool_and_skip CHANGE_INFO_AFTER_ATOMIC_LEN in
  sret tt.

Definition skip_bitmap_after_len (len : Z) : dec unit :=
  let! bytes := require_bitmap_words len in
  XdrDecoder.skip_bytes_after_require bytes.

Definition skip_bitmap : dec unit :=
  let! len := XdrDecoder.read_u32 in
  skip_bitmap_after_len len.

Definition decode_open_delegation : dec unit :=
  let! delegation_type := XdrDecoder.read_u32 in
  if delegation_type =? OPEN_DELEGATE_NONE then sret tt
  else if delegation_type =? OPEN_DELEGATE_NONE_EXT then
    let! why := XdrDecoder.read_u32 in
    if (why =? WND4_CONTENTION) || (why =? WND4_RESOURCE) then
      let! _ := XdrDecoder.read_bool in
      sret tt
    else sret tt
  else if (delegation_type =? OPEN_DELEGATE_READ) || (delegation_type =? OPEN_DELEGATE_WRITE) then
    sfail (Error.Unsupported "server returned an OPEN delegation; callbacks are not implemented")
  else sfail (Error.protocol "server returned invalid OPEN delegation type {other}").

Definition decode_open_stateid : dec StateId.t :=
  let! stateid := StateId.decode in
  let! _ := skip_change_info in
  let! (rflags, attrs_set_len) := XdrDecoder.read_u32_pair in
  let! _ := skip_bitmap_after_len attrs_set_len in
  let! _ := decode_open_delegation in
  if negb (Z.land rflags OPEN4_RESULT_CONFIRM =? 0) then
    sfail (Error.Unsupported "server requested OPEN_CONFIRM, which is obsolete in NFSv4.1")
  else sret stateid.

(** ** Attributes *)

Definition require_attr_len (actual needed : Z) : res Error.t unit :=
  if actual <? needed then
    Err (Error.xdr "attribute value length {actual} is shorter than required {needed} bytes")
  else Ok tt.

Definition decode_size_attr : dec FileAttrs.t :=
  let! len := XdrDecoder.read_opaque_extent_len in
  let! _ := slift (require_attr_len len 8) in
  let! size := XdrDecoder.read_u64_after_require in
  let! _ := if 8 <? len then XdrDecoder.finish_opaque_after_require len 8 else sret tt in
  sret (FileAttrs.mk None (Some size)).

Definition decode_type_and_size_attrs : dec FileAttrs.t :=
  let! len := XdrDecoder.read_opaque_extent_len in
  let! _ := slift (require_attr_len len 12) in
  let! raw := XdrDecoder.read_u32_after_require in
  let file_type := FileType.from_raw raw in
  let! size := XdrDecoder.read_u64_after_require in
  let! _ := if 12 <? len then XdrDecoder.finish_opaque_after_require len 12 else sret tt in
  sret (FileAttrs.mk (Some file_type) (Some size)).

(** The new value of [*value_remaining]. *)
Definition consume_attr_bytes (value_remaining attr needed : Z) : res Error.t Z :=
  if value_remaining <? needed then
    Err (Error.xdr "attribute {attr} requires {needed} bytes, only {} remain")
  else Ok (value_remaining - needed).

Definition read_attr_u32 (value_remaining attr : Z) : dec (Z * Z) :=
  let! value_remaining := slift (consume_attr_bytes value_remaining attr 4) in
  let! v := XdrDecoder.read_u32_after_require in
  sret (v, value_remaining).

Definition read_attr_u64 (value_remaining attr : Z) : dec (Z * Z) :=
  let! value_remaining := slift (consume_attr_bytes value_remaining attr 8) in
  let! v := XdrDecoder.read_u64_after_require in
  sret (v, value_remaining).

(** The [for attr in bitmap.attrs()] loop. *)
Fixpoint fattr_loop (list : list Z) (value_remaining : Z) (attrs : FileAttrs.t)
  : dec (Z * FileAttrs.t) :=
  match list with
  | [] => sret (value_remaining, attrs)
  | attr :: rest =>
      if attr =? FATTR4_TYPE then
        let! (raw, value_remaining) := read_attr_u32 value_remaining attr in
        fattr_loop rest value_remaining
          (FileAttrs.mk (Some (FileType.from_raw raw)) (FileAttrs.size attrs))
      else if attr =? FATTR4_SIZE then
        let! (size, value_remaining) := read_attr_u64 value_remaining attr in
        fattr_loop rest value_remaining (FileAttrs.mk (FileAttrs.file_type attrs) (Some size))
      else if attr =? FATTR4_MODE then
        let! (_, value_remaining) := read_attr_u32 value_remaining attr in
        fattr_loop rest value_remaining attrs
      else sfail (Error.Unsupported "server returned unrequested or unsupported attribute {other}")
  end.

Definition decode_fattr_values (bitmap : Bitmap.t) : dec FileAttrs.t :=
  let! len := XdrDecoder.read_opaque_extent_len in
  let! (value_remaining, attrs) :=
    fattr_loop (BitmapAttrs.collect (Bitmap_attrs bitmap)) len FileAttrs.default in
  let! _ := XdrDecoder.finish_opaque_after_require len (len - value_remaining) in
  sret attrs.

Definition decode_fattr_single_bitmap_word (bitmap_word : Z) : dec FileAttrs.t :=
  if bitmap_word =? FATTR4_SIZE_WORD then decode_size_attr
  else if bitmap_word =? FATTR4_TYPE_AND_SIZE_WORD then decode_type_and_size_attrs
  else decode_fattr_values (Bitmap.inline_word bitmap_word).

Definition decode_fattr : dec FileAttrs.t :=
  let! bitmap_len := XdrDecoder.read_u32 in
  if bitmap_len =? 1 then
    let! bitmap_word := XdrDecoder.read_u32 in
    decode_fattr_single_bitmap_word bitmap_word
  else
    let! bitmap := Bitmap.decode_after_len bitmap_len in
    decode_fattr_values bitmap.

Definition validate_file_attrs (request : AttrRequest.t) (attrs : FileAttrs.t) (shape : string)
  : res Error.t unit :=
  match request with
  | AttrRequest.Size =>
      match FileAttrs.size attrs with
      | None => Err (Error.protocol "{shape} response did not include GETATTR size result")
      | Some _ => Ok tt
      end
  | AttrRequest.TypeAndSize =>
      match FileAttrs.file_type attrs, FileAttrs.size attrs with
      | Some _, Some _ => Ok tt
      | _, _ => Err (Error.protocol "{shape} response did not include GETATTR type and size result")
      end
  end.

(** ** Directory pages *)

Definition skip_fattr : dec unit :=
  let! _ := skip_bitmap in
  XdrDecoder.skip_opaque.

Definition readdir_entries_capacity (remaining : Z) (max_entries : option Z) : Z :=
  let hinted := Z.min (remaining / READDIR_ENTRY_BYTE_HINT) READDIR_DECODE_PREALLOC_LIMIT in
  match max_entries with
  | Some max_entries => Z.min hinted max_entries
  | None => hinted
  end.

Definition is_dot_readdir_name (name : bytes) : bool :=
  bool_decide (name = str_of ".") || bool_decide (name = str_of "..").

(** The entry loop; every turn reads at least the four bytes of a flag, so
    one turn per byte of input is more than enough. *)
Fixpoint readdir_loop (fuel : nat) (entry_limit : Z) (verifier : bytes)
    (entries : list DirEntry.t) (last_cookie : Z) : dec DirPage.t :=
  match fuel with
  | O => spanic
  | S fuel' =>
      let! has_entry := XdrDecoder.read_bool in
      if negb has_entry then
        let! eof := XdrDecoder.read_bool in
        sret (DirPage.mk entries eof verifier last_cookie)
      else if blen entries =? entry_limit then
        sret (DirPage.mk entries false verifier last_cookie)
      else
        let! cookie := XdrDecoder.read_u64 in
        let! name := XdrDecoder.read_string_unless is_dot_readdir_name in
        let! _ := skip_fattr in
        let entries :=
          match name with
          | Some name => entries ++ [DirEntry.mk name]
          | None => entries
          end in
        readdir_loop fuel' entry_limit verifier entries cookie
  end.

Definition decode_readdir (max_entries : option Z) : dec DirPage.t :=
  let! verifier := XdrDecoder.read_bytes 8 in
  let! remaining := XdrDecoder.remaining in
  let entry_limit := match max_entries with Some n => n | None => usize_max end in
  readdir_loop (S (Z.to_nat remaining)) entry_limit verifier [] 0.

(** ** Session setup *)

Module ExchangeIdResult.
Record t : Type := mk { clientid : Z; sequenceid : Z }.
End ExchangeIdResult.

Module ChannelAttrs.
Record t : Type := mk {
  max_request_size : Z;
  max_response_size : Z;
  maxoperations : Z;
  maxrequests : Z;
}.
End ChannelAttrs.

Module CreateSessionResult.
Record t : Type := mk { sessionid : bytes; fore_attrs : ChannelAttrs.t }.
End CreateSessionResult.

Definition decode_state_protect : dec unit :=
  let! mode := XdrDecoder.read_u32 in
  if mode =? SP4_NONE then sret tt
  else if mode =? SP4_MACH_CRED then
    sfail (Error.Unsupported "server requires machine-credential state protection that the client did not request")
  else if mode =? SP4_SSV then
    sfail (Error.Unsupported "server requires SSV state protection; AUTH_SYS-only client cannot continue")
  else sfail (Error.protocol "unknown state protection mode {other}").

Definition skip_impl_id_array : dec unit :=
  let! len := XdrDecoder.read_u32 in
  let! remaining := XdrDecoder.remaining in
  if remaining / IMPLEMENTATION_ID_MIN_LEN <? len then
    sfail (Error.xdr "implementation id array length {len} exceeds remaining XDR data")
  else
    repeat_n (Z.to_nat len)
      (let! _ := XdrDecoder.skip_opaque in
       let! _ := XdrDecoder.skip_opaque in
       XdrDecoder.skip_bytes IMPLEMENTATION_ID_TIMESTAMP_LEN).

Definition decode_exchange_id : dec ExchangeIdResult.t :=
  let! clientid := XdrDecoder.read_u64 in
  let! sequenceid := XdrDecoder.read_u32 in
  let! _flags := XdrDecoder.read_u32 in
  let! _ := decode_state_protect in
  let! _server_minor_id := XdrDecoder.read_u64 in
  let! _ := XdrDecoder.skip_opaque in
  let! _ := XdrDecoder.skip_opaque in
  let! _ := skip_impl_id_array in
  sret (ExchangeIdResult.mk clientid sequenceid).

Definition nonzero_channel_limit (value : Z) : res Error.t Z :=
  if value =? 0 then Err (Error.protocol "CREATE_SESSION returned zero {field}") else Ok value.

Definition decode_channel_attrs : dec ChannelAttrs.t :=
  let! _headerpadsize := XdrDecoder.read_u32 in
  let! v := XdrDecoder.read_u32 in
  let! max_request_size := slift (nonzero_channel_limit v) in
  let! v := XdrDecoder.read_u32 in
  let! max_response_size := slift (nonzero_channel_limit v) in
  let! _maxresponsesize_cached := XdrDecoder.read_u32 in
  let! v := XdrDecoder.read_u32 in
  let! maxoperations := slift (nonzero_channel_limit v) in
  let! v := XdrDecoder.read_u32 in
  let! maxrequests := slift (nonzero_channel_limit v) in
  let! rdma_ird_len := XdrDecoder.read_u32 in
  let! remaining := XdrDecoder.remaining in
  if remaining / 4 <? rdma_ird_len then
    sfail (Error.xdr "RDMA IRD array length {rdma_ird_len} exceeds remaining XDR words")
  else
    let! _ := XdrDecoder.skip_bytes_after_require (rdma_ird_len * 4) in
    sret (ChannelAttrs.mk max_request_size max_response_size maxoperations maxrequests).

Definition validate_fore_channel_minimums (attrs : ChannelAttrs.t) (minimum_request_size : Z)
  : res Error.t unit :=
  if ChannelAttrs.maxoperations attrs <? 2 then
    Err (Error.protocol "CREATE_SESSION ca_maxoperations {} cannot fit SEQUENCE plus an operation")
  else if ChannelAttrs.max_request_size attrs <? minimum_request_size then
    Err (Error.protocol "CREATE_SESSION ca_maxrequestsize {} cannot fit the minimum {minimum_request_size}-byte RPC SEQUENCE request")
  else if ChannelAttrs.max_response_size attrs <? MIN_SEQUENCE_COMPOUND_RESPONSE_SIZE then
    Err (Error.protocol "CREATE_SESSION ca_maxresponsesize {} cannot fit the minimum {MIN_SEQUENCE_COMPOUND_RESPONSE_SIZE}-byte RPC SEQUENCE response")
  else Ok tt.

Definition decode_create_session (expected_sequenceid minimum_request_size : Z)
  : dec CreateSessionResult.t :=
  let! sessionid := XdrDecoder.read_bytes 16 in
  let! sequenceid := XdrDecoder.read_u32 in
  if negb (sequenceid =? expected_sequenceid) then
    sfail (Error.protocol "CREATE_SESSION response sequence ID {sequenceid} did not match request {expected_sequenceid}")
  else
    let! _flags := XdrDecoder.read_u32 in
    let! fore_attrs := decode_channel_attrs in
    let! _ := slift (validate_fore_channel_minimums fore_attrs minimum_request_size) in
    let! _back_attrs := decode_channel_attrs in
    sret (CreateSessionResult.mk sessionid fore_attrs).

Definition channel_payload_size (channel_size : Z) : Z :=
  Z.max (saturating_sub channel_size CHANNEL_PAYLOAD_RESERVE) 1.

Definition negotiated_config (config : NfsConfig.t) (fore_attrs : ChannelAttrs.t) : NfsConfig.t :=
  let max_request_size :=
    Z.min (NfsConfig.max_request_size config) (ChannelAttrs.max_request_size fore_attrs) in
  let max_response_size :=
    Z.min (NfsConfig.max_response_size config) (ChannelAttrs.max_response_size fore_attrs) in
  let max_request_payload := channel_payload_size max_request_size in
  let max_response_payload := channel_payload_size max_response_size in
  let write_chunk_size := Z.min (NfsConfig.write_chunk_size config) max_request_payload in
  let read_chunk_size := Z.min (NfsConfig.read_chunk_size config) max_response_payload in
  let read_granularity := Z.min (NfsConfig.read_granularity config) read_chunk_size in
  let readdir_maxcount := Z.min (NfsConfig.readdir_maxcount config) max_response_payload in
  let readdir_dircount := Z.max (Z.min (NfsConfig.readdir_dircount config) readdir_maxcount) 1 in
  NfsConfig.mk (NfsConfig.export config) read_chunk_size read_granularity write_chunk_size
    (NfsConfig.pipeline_write_chunks config) readdir_dircount readdir_maxcount
    (NfsConfig.file_mode config) (NfsConfig.dir_mode config) (NfsConfig.session_slots config)
    max_request_size max_response_size (ChannelAttrs.maxoperations fore_attrs)
    (NfsConfig.operation_timeout config) (NfsConfig.transient_retries config)
    (NfsConfig.transient_retry_delay config).

(** ** No result body makes a decoder panic *)

Lemma parser_skip_sequence_data : parser any skip_sequence_data.
Proof. by apply parser_skip_bytes. Qed.

Lemma parser_decode_file_handle :
  parser (λ h, bytes_wf h ∧ blen h ≤ NFS4_FHSIZE) decode_file_handle.
Proof.
  eapply parser_bind; [apply parser_read_opaque|]. intros h [Hh _].
  destruct (Z.ltb_spec NFS4_FHSIZE (blen h)); [apply parser_fail|by apply parser_ret].
Qed.

Lemma parser_decode_read_data :
  parser (λ r, bytes_wf (ReadData.data r) ∧ blen (ReadData.data r) ≤ u32_max) decode_read_data.
Proof.
  eapply parser_bind; [apply parser_read_bool_and_opaque|]. intros [eof data] H. by apply parser_ret.
Qed.

Lemma from_raw_total v :
  match WriteStability.from_raw v with Ok a => any a | Err _ => True | Panic => False end.
Proof. unfold WriteStability.from_raw. by repeat case_match. Qed.

Lemma parser_decode_write_data :
  parser (λ w, is_u32 (WriteData.count w) ∧ blen (WriteData.verifier w) = 8) decode_write_data.
Proof.
  eapply parser_bind; [by apply parser_read_u32_pair_and_bytes|].
  intros [[count raw] ver] (Hc & _ & _ & Hv).
  eapply parser_bind_lift; [apply from_raw_total|]. intros s _. by apply parser_ret.
Qed.

Lemma parser_skip_stateid : parser any skip_stateid.
Proof. by apply parser_skip_bytes. Qed.

Lemma parser_skip_change_info : parser any skip_change_info.
Proof.
  eapply parser_bind; [by apply parser_read_bool_and_skip|]. intros b _. by apply parser_ret.
Qed.

Lemma parser_skip_bitmap_after_len len : 0 ≤ len → parser any (skip_bitmap_after_len len).
Proof.
  intros Hlen. apply parser_require_bitmap_words; [|done]. intros Hb.
  apply room_ret_r, room_advance; [lia|]. by apply room_ret.
Qed.

Lemma parser_skip_bitmap : parser any skip_bitmap.
Proof.
  eapply parser_bind; [apply parser_read_u32|]. intros len Hlen.
  apply parser_skip_bitmap_after_len. ulia.
Qed.

Lemma parser_decode_open_delegation : parser any decode_open_delegation.
Proof.
  eapply parser_bind; [apply parser_read_u32|]. intros d _. case_match; [by apply parser_ret|].
  case_match.
  - eapply parser_bind; [apply parser_read_u32|]. intros why _. case_match; [|by apply parser_ret].
    eapply parser_bind; [apply parser_read_bool|]. intros b _. by apply parser_ret.
  - case_match; apply parser_fail.
Qed.

Lemma parser_decode_open_stateid : parser StateId.wf decode_open_stateid.
Proof.
  eapply parser_bind; [apply StateId.parser_decode|]. intros s Hs.
  eapply parser_bind; [apply parser_skip_change_info|]. intros _ _.
  eapply parser_bind; [apply parser_read_u32_pair|]. intros [rflags len] [_ Hlen].
  eapply parser_bind; [apply parser_skip_bitmap_after_len; ulia|]. intros _ _.
  eapply parser_bind; [apply parser_decode_open_delegation|]. intros _ _.
  case_match; [apply parser_fail|by apply parser_ret].
Qed.

(** ** Attributes

    [read_opaque_extent_len] leaves the value and its padding in the buffer. *)

Lemma parser_extent {A} (Q : A → Prop) (f : Z → dec A) :
  (∀ len, is_u32 len → room (len + xdr_padding len) Q (f len)) →
  parser Q (sbind XdrDecoder.read_opaque_extent_len f).
Proof.
  intros Hf b Hb. unfold XdrDecoder.read_opaque_extent_len. rewrite sbind_assoc.
  revert b Hb. eapply parser_bind; [apply parser_read_u32|]. intros len Hlen b Hb.
  rewrite sbind_assoc. unfold sbind at 1, slift. rewrite opaque_padded_len_ok by ulia.
  revert b Hb. intros b Hb. rewrite sbind_assoc. revert b Hb.
  apply parser_require. intros b Hb Hroom. unfold sbind, sret. by apply (Hf len Hlen).
Qed.

Lemma opaque_remaining_ok len consumed : is_u32 len → 0 ≤ consumed ≤ len →
  opaque_remaining_len len consumed = Ok (len - consumed + xdr_padding len).
Proof.
  intros Hl Hc. unfold opaque_remaining_len, checked_sub, checked_add.
  destruct (Z.leb_spec consumed len); [|lia]. cbn [ok_or rbind]. pose proof (xdr_padding_bound len).
  destruct (Z.leb_spec (len - consumed + xdr_padding len) usize_max); [done|ulia].
Qed.

Lemma room_finish {A} len consumed n (Q : A → Prop) (f : unit → dec A) :
  is_u32 len → 0 ≤ consumed ≤ len → n = len - consumed + xdr_padding len →
  (∀ b, room 0 Q (f b)) →
  room n Q (sbind (XdrDecoder.finish_opaque_after_require len consumed) f).
Proof.
  intros Hl Hc -> Hf. unfold XdrDecoder.finish_opaque_after_require.
  rewrite opaque_remaining_ok by done. apply room_assoc.
  eapply room_bind_lift; [exact (eq_refl (len - consumed + xdr_padding len))|]. intros ? <-.
  pose proof (xdr_padding_bound len). apply room_advance; [lia|]. rewrite Z.sub_diag. apply Hf.
Qed.

Lemma require_attr_len_total a n :
  match require_attr_len a n with Ok _ => n ≤ a | Err _ => True | Panic => False end.
Proof. unfold require_attr_len. by destruct (Z.ltb_spec a n). Qed.

(** The attributes a decoder can return: a size is a [u64]. *)
Definition attrs_wf (attrs : FileAttrs.t) : Prop := ∀ size, FileAttrs.size attrs = Some size → is_u64 size.

Lemma attrs_wf_some t v : is_u64 v → attrs_wf (FileAttrs.mk t (Some v)).
Proof. by intros Hv ? [= <-]. Qed.

Lemma parser_decode_size_attr : parser attrs_wf decode_size_attr.
Proof.
  apply parser_extent. intros len Hlen.
  eapply room_bind_lift with (P := λ _, 8 ≤ len); [apply require_attr_len_total|]. intros _ H8.
  pose proof (xdr_padding_bound len).
  apply room_u64; [lia|]. intros v Hv. destruct (Z.ltb_spec 8 len).
  - apply room_finish; [done|lia|lia|]. intros. by apply room_ret, attrs_wf_some.
  - by apply (room_ret _ _ (FileAttrs.mk None (Some v))), attrs_wf_some.
Qed.

Lemma parser_decode_type_and_size_attrs : parser attrs_wf decode_type_and_size_attrs.
Proof.
  apply parser_extent. intros len Hlen.
  eapply room_bind_lift with (P := λ _, 12 ≤ len); [apply require_attr_len_total|]. intros _ H12.
  pose proof (xdr_padding_bound len).
  apply room_u32; [lia|]. intros t _. apply room_u64; [lia|]. intros v Hv. destruct (Z.ltb_spec 12 len).
  - apply room_finish; [done|lia|lia|]. intros. by apply room_ret, attrs_wf_some.
  - by apply (room_ret _ _ (FileAttrs.mk (Some (FileType.from_raw t)) (Some v))), attrs_wf_some.
Qed.

Lemma consume_total vr attr n :
  match consume_attr_bytes vr attr n with Ok r => r = vr - n ∧ n ≤ vr | Err _ => True | Panic => False end.
Proof. unfold consume_attr_bytes. by destruct (Z.ltb_spec vr n). Qed.

Lemma room_read_attr_u32 {A} n vr attr (Q : A → Prop) (f : Z * Z → dec A) :
  vr ≤ n → (4 ≤ vr → ∀ v, is_u32 v → room (n - 4) Q (f (v, vr - 4))) →
  room n Q (sbind (read_attr_u32 vr attr) f).
Proof.
  intros Hn Hf. apply room_assoc. eapply room_bind_lift; [apply consume_total|]. intros ? [-> H4].
  apply room_assoc, room_u32; [lia|]. intros v Hv b Hb Hr. by apply Hf.
Qed.

Lemma room_read_attr_u64 {A} n vr attr (Q : A → Prop) (f : Z * Z → dec A) :
  vr ≤ n → (8 ≤ vr → ∀ v, is_u64 v → room (n - 8) Q (f (v, vr - 8))) →
  room n Q (sbind (read_attr_u64 vr attr) f).
Proof.
  intros Hn Hf. apply room_assoc. eapply room_bind_lift; [apply consume_total|]. intros ? [-> H4].
  apply room_assoc, room_u64; [lia|]. intros v Hv b Hb Hr. by apply Hf.
Qed.

(** The values read stay inside the value bytes; the rest is left for the
    continuation. *)
Lemma room_fattr_loop {A} l pad vr attrs (Q : A → Prop) (f : Z * FileAttrs.t → dec A) :
  0 ≤ vr → 0 ≤ pad → attrs_wf attrs →
  (∀ vr' attrs', 0 ≤ vr' ≤ vr → attrs_wf attrs' → room (vr' + pad) Q (f (vr', attrs'))) →
  room (vr + pad) Q (sbind (fattr_loop l vr attrs) f).
Proof.
  intros Hvr Hpad. induction l as [|a l IH] in vr, attrs, Hvr |- *; intros Hwf Hf; cbn [fattr_loop].
  { intros b Hb Hr. unfold sbind, sret. apply Hf; [lia|done|done|done]. }
  case_match; [|case_match; [|case_match]].
  - apply room_assoc, room_read_attr_u32; [lia|]. intros H4 v _.
    replace (vr + pad - 4) with (vr - 4 + pad) by lia. apply IH; [lia|done|]. intros. apply Hf; [lia|done].
  - apply room_assoc, room_read_attr_u64; [lia|]. intros H8 v Hv.
    replace (vr + pad - 8) with (vr - 8 + pad) by lia. apply IH; [lia|by apply attrs_wf_some|].
    intros. apply Hf; [lia|done].
  - apply room_assoc, room_read_attr_u32; [lia|]. intros H4 v _.
    replace (vr + pad - 4) with (vr - 4 + pad) by lia. apply IH; [lia|done|]. intros. apply Hf; [lia|done].
  - intros b Hb Hr. by unfold sbind, sfail.
Qed.

Lemma parser_decode_fattr_values bitmap : parser attrs_wf (decode_fattr_values bitmap).
Proof.
  apply parser_extent. intros len Hlen. pose proof (xdr_padding_bound len).
  apply room_fattr_loop; [ulia|lia|by intros ?|]. intros vr attrs Hvr Hwf.
  apply room_finish; [done|lia|lia|]. intros. by apply room_ret.
Qed.

Lemma parser_decode_fattr : parser attrs_wf decode_fattr.
Proof.
  eapply parser_bind; [apply parser_read_u32|]. intros len Hlen. case_match.
  - eapply parser_bind; [apply parser_read_u32|]. intros w _. unfold decode_fattr_single_bitmap_word.
    case_match; [apply parser_decode_size_attr|].
    case_match; [apply parser_decode_type_and_size_attrs|apply parser_decode_fattr_values].
  - eapply parser_bind; [apply parser_decode_after_len; ulia|]. intros bm _.
    apply parser_decode_fattr_values.
Qed.

(** ** Directory pages: safety *)

Lemma read_u32_eq b :
  XdrDecoder.read_u32 b
  = if blen b <? 4 then (Err (Error.xdr "buffer underflow: need {len} bytes, have {}"), b)
    else (Ok (be_value (take 4 b)), drop 4 b).
Proof.
  unfold XdrDecoder.read_u32, sbind, XdrDecoder.require, XdrDecoder.read_u32_after_require.
  destruct (Z.ltb_spec (blen b) 4); [done|]. by rewrite get_u32_eq.
Qed.

(** A flag read takes four bytes. *)
Lemma read_bool_consumes b v b' : XdrDecoder.read_bool b = (Ok v, b') → blen b' + 4 = blen b.
Proof.
  unfold XdrDecoder.read_bool, sbind. rewrite read_u32_eq.
  destruct (Z.ltb_spec (blen b) 4); [done|]. unfold slift. intros [= _ <-]. rewrite blen_drop; lia.
Qed.

Definition entry_wf (e : DirEntry.t) : Prop :=
  utf8_valid (DirEntry.name e) = true ∧ is_dot_readdir_name (DirEntry.name e) = false.

Definition page_wf (entry_limit : Z) (p : DirPage.t) : Prop :=
  blen (DirPage.entries p) ≤ entry_limit ∧ Forall entry_wf (DirPage.entries p)
  ∧ blen (DirPage.verifier p) = 8.

Lemma parser_skip_fattr : parser any skip_fattr.
Proof.
  eapply parser_bind; [apply parser_skip_bitmap|]. intros _ _. apply parser_skip_opaque.
Qed.

(** [parser_upto n Q m]: [parser Q m] on the buffers of at most [n] bytes;
    what a loop whose fuel is bounded by the input satisfies. *)
Definition parser_upto {E A} (n : Z) (Q : A → Prop) (m : st bytes E A) : Prop :=
  ∀ b, bytes_wf b → blen b ≤ n →
    match m b with
    | (Ok a, b') => b' `suffix_of` b ∧ Q a
    | (Err _, b') => b' `suffix_of` b
    | (Panic, _) => False
    end.

Lemma parser_parser_upto {E A} n (Q : A → Prop) (m : st bytes E A) : parser Q m → parser_upto n Q m.
Proof. intros H b Hb _. by apply H. Qed.

Lemma parser_upto_bind {E A B} n k (P : A → Prop) (Q : B → Prop) (m : st bytes E A) f :
  parser P m → (∀ b a b', m b = (Ok a, b') → blen b' + k ≤ blen b) →
  (∀ a, P a → parser_upto (n - k) Q (f a)) → parser_upto n Q (sbind m f).
Proof.
  intros Hm Hk Hf b Hb Hn. specialize (Hm b Hb). specialize (Hk b). unfold sbind.
  destruct (m b) as [[a| |] b1]; [|done|done]. destruct Hm as [Hs HP]. specialize (Hk a b1 eq_refl).
  specialize (Hf a HP b1 (suffix_wf _ _ Hs Hb) ltac:(lia)).
  destruct (f a b1) as [[c| |] b2]; [destruct Hf; split; [by etrans|done]|by etrans|done].
Qed.

Lemma parser_upto_seq {E A B} n (P : A → Prop) (Q : B → Prop) (m : st bytes E A) f :
  parser P m → (∀ a, P a → parser_upto n Q (f a)) → parser_upto n Q (sbind m f).
Proof.
  intros Hm Hf b Hb Hn. specialize (Hm b Hb). unfold sbind.
  destruct (m b) as [[a| |] b1]; [|done|done]. destruct Hm as [Hs HP].
  pose proof (suffix_blen _ _ Hs). specialize (Hf a HP b1 (suffix_wf _ _ Hs Hb) ltac:(lia)).
  destruct (f a b1) as [[c| |] b2]; [destruct Hf; split; [by etrans|done]|by etrans|done].
Qed.

Lemma readdir_loop_safe fuel entry_limit verifier entries last_cookie n :
  n < Z.of_nat fuel → blen verifier = 8 → blen entries ≤ entry_limit → Forall entry_wf entries →
  parser_upto n (page_wf entry_limit) (readdir_loop fuel entry_limit verifier entries last_cookie).
Proof.
  induction fuel as [|fuel IH] in entries, last_cookie, n |- *; intros Hn Hv Hlim Hwf.
  { intros b _ Hb. pose proof (blen_nonneg b). lia. }
  cbn [readdir_loop]. eapply (parser_upto_bind n 4); [apply parser_read_bool| |].
  { intros b v b' H%read_bool_consumes. lia. }
  intros has_entry _. destruct has_entry; cbn [negb].
  2:{ apply parser_parser_upto. eapply parser_bind; [apply parser_read_bool|]. intros eof _. by apply parser_ret. }
  destruct (Z.eqb_spec (blen entries) entry_limit); [by apply parser_parser_upto, parser_ret|].
  eapply parser_upto_seq; [apply parser_read_u64|]. intros cookie _.
  eapply parser_upto_seq; [apply parser_read_string_unless|]. intros name Hname.
  eapply parser_upto_seq; [apply parser_skip_fattr|]. intros _ _.
  apply IH; [lia|done| |].
  - destruct name; [rewrite blen_app; change (blen [_]) with 1; lia|done].
  - destruct name as [nm|]; [|done]. apply Forall_app. split; [done|].
    constructor; [|constructor]. destruct (Hname nm eq_refl) as (_ & ? & ?). done.
Qed.

Definition entry_limit_of (max_entries : option Z) : Z :=
  match max_entries with Some n => n | None => usize_max end.

Lemma parser_decode_readdir max_entries : 0 ≤ entry_limit_of max_entries →
  parser (page_wf (entry_limit_of max_entries)) (decode_readdir max_entries).
Proof.
  intros Hlim. eapply parser_bind; [by apply parser_read_bytes|]. intros ver [_ Hver] b Hb.
  unfold sbind, XdrDecoder.remaining. eapply readdir_loop_safe; [|done| |constructor|done|reflexivity].
  - pose proof (blen_nonneg b). lia.
  - rewrite blen_nil. done.
Qed.

(** ** Session setup: safety *)

Lemma parser_decode_state_protect : parser any decode_state_protect.
Proof.
  eapply parser_bind; [apply parser_read_u32|]. intros m _.
  repeat (case_match; [by apply parser_ret || apply parser_fail|]). apply parser_fail.
Qed.

Lemma parser_repeat n (m : dec unit) : parser any m → parser any (repeat_n n m).
Proof.
  intros Hm. induction n as [|n IH]; [by apply parser_ret|]. cbn [repeat_n].
  eapply parser_bind; [exact Hm|]. intros _ _. exact IH.
Qed.

Lemma parser_skip_impl_id_array : parser any skip_impl_id_array.
Proof.
  eapply parser_bind; [apply parser_read_u32|]. intros len _ b Hb. unfold sbind at 1, XdrDecoder.remaining.
  destruct (Z.ltb_spec (blen b / IMPLEMENTATION_ID_MIN_LEN) len); [by simpl|].
  revert b Hb H. intros b Hb _. revert b Hb. apply parser_repeat.
  eapply parser_bind; [apply parser_skip_opaque|]. intros _ _.
  eapply parser_bind; [apply parser_skip_opaque|]. intros _ _. by apply parser_skip_bytes.
Qed.

Lemma parser_decode_exchange_id :
  parser (λ r, is_u64 (ExchangeIdResult.clientid r) ∧ is_u32 (ExchangeIdResult.sequenceid r))
    decode_exchange_id.
Proof.
  eapply parser_bind; [apply parser_read_u64|]. intros clientid Hc.
  eapply parser_bind; [apply parser_read_u32|]. intros seq Hs.
  eapply parser_bind; [apply parser_read_u32|]. intros flags _.
  eapply parser_bind; [apply parser_decode_state_protect|]. intros _ _.
  eapply parser_bind; [apply parser_read_u64|]. intros minor _.
  eapply parser_bind; [apply parser_skip_opaque|]. intros _ _.
  eapply parser_bind; [apply parser_skip_opaque|]. intros _ _.
  eapply parser_bind; [apply parser_skip_impl_id_array|]. intros _ _. by apply parser_ret.
Qed.

Definition channel_wf (a : ChannelAttrs.t) : Prop :=
  (is_u32 (ChannelAttrs.max_request_size a) ∧ 1 ≤ ChannelAttrs.max_request_size a)
  ∧ (is_u32 (ChannelAttrs.max_response_size a) ∧ 1 ≤ ChannelAttrs.max_response_size a)
  ∧ (is_u32 (ChannelAttrs.maxoperations a) ∧ 1 ≤ ChannelAttrs.maxoperations a)
  ∧ (is_u32 (ChannelAttrs.maxrequests a) ∧ 1 ≤ ChannelAttrs.maxrequests a).

Lemma parser_nonzero {A} (Q : A → Prop) (f : Z → dec A) :
  (∀ v, is_u32 v ∧ 1 ≤ v → parser Q (f v)) →
  parser Q (let! v := XdrDecoder.read_u32 in let! w := slift (nonzero_channel_limit v) in f w).
Proof.
  intros Hf. eapply parser_bind; [apply parser_read_u32|]. intros v Hv.
  eapply parser_bind_lift with (P := λ w, is_u32 w ∧ 1 ≤ w); [|done].
  unfold nonzero_channel_limit. destruct (Z.eqb_spec v 0); [done|]. split; [done|ulia].
Qed.

Lemma parser_decode_channel_attrs : parser channel_wf decode_channel_attrs.
Proof.
  eapply parser_bind; [apply parser_read_u32|]. intros pad _.
  apply parser_nonzero. intros v1 H1. apply parser_nonzero. intros v2 H2.
  eapply parser_bind; [apply parser_read_u32|]. intros cached _.
  apply parser_nonzero. intros v3 H3. apply parser_nonzero. intros v4 H4.
  eapply parser_bind; [apply parser_read_u32|]. intros len Hlen b Hb.
  unfold sbind at 1, XdrDecoder.remaining. destruct (Z.ltb_spec (blen b / 4) len) as [|Hle]; [by simpl|].
  assert (Hroom : len * 4 ≤ blen b) by (pose proof (Z.mul_div_le (blen b) 4 ltac:(lia)); lia).
  revert b Hb Hle Hroom. intros b Hb _ Hroom. revert b Hb Hroom.
  apply (room_advance (len * 4)); [ulia|]. by apply room_ret.
Qed.

Lemma validate_minimums_total a m :
  match validate_fore_channel_minimums a m with
  | Ok _ => 2 ≤ ChannelAttrs.maxoperations a ∧ m ≤ ChannelAttrs.max_request_size a
            ∧ MIN_SEQUENCE_COMPOUND_RESPONSE_SIZE ≤ ChannelAttrs.max_response_size a
  | Err _ => True
  | Panic => False
  end.
Proof.
  unfold validate_fore_channel_minimums. destruct (Z.ltb_spec (ChannelAttrs.maxoperations a) 2); [done|].
  destruct (Z.ltb_spec (ChannelAttrs.max_request_size a) m); [done|].
  by destruct (Z.ltb_spec (ChannelAttrs.max_response_size a) MIN_SEQUENCE_COMPOUND_RESPONSE_SIZE).
Qed.

(** A session is only accepted with room for the smallest request. *)
Definition session_wf (minimum_request_size : Z) (r : CreateSessionResult.t) : Prop :=
  blen (CreateSessionResult.sessionid r) = 16 ∧ channel_wf (CreateSessionResult.fore_attrs r)
  ∧ 2 ≤ ChannelAttrs.maxoperations (CreateSessionResult.fore_attrs r)
  ∧ minimum_request_size ≤ ChannelAttrs.max_request_size (CreateSessionResult.fore_attrs r)
  ∧ MIN_SEQUENCE_COMPOUND_RESPONSE_SIZE ≤ ChannelAttrs.max_response_size (CreateSessionResult.fore_attrs r).

Lemma parser_decode_create_session seq m : parser (session_wf m) (decode_create_session seq m).
Proof.
  eapply parser_bind; [by apply parser_read_bytes|]. intros sid [_ Hsid].
  eapply parser_bind; [apply parser_read_u32|]. intros s _. case_match; [apply parser_fail|].
  eapply parser_bind; [apply parser_read_u32|]. intros flags _.
  eapply parser_bind; [apply parser_decode_channel_attrs|]. intros fore Hfore.
  eapply parser_bind_lift; [apply validate_minimums_total|]. intros [] Hmin.
  eapply parser_bind; [apply parser_decode_channel_attrs|]. intros back _. by apply parser_ret.
Qed.

(** ** The attribute fast paths *)

Lemma extent_spec b : bytes_wf b →
  match XdrDecoder.read_opaque_extent_len b with
  | (Ok len, b1) => is_u32 len ∧ len + xdr_padding len ≤ blen b1
  | (Err e, _) => ∃ m, e = Error.Xdr m
  | (Panic, _) => False
  end.
Proof.
  intros Hb. unfold XdrDecoder.read_opaque_extent_len, sbind at 1. rewrite read_u32_eq.
  destruct (Z.ltb_spec (blen b) 4); [by eexists|].
  set (len := be_value (take 4 b)).
  assert (Hlen : is_u32 len).
  { pose proof (be_value_bound (take 4 b) (bytes_wf_take 4 b Hb)) as Hv.
    rewrite (blen_take 4 b) in Hv by lia. fold len in Hv. ulia. }
  unfold sbind, slift. rewrite opaque_padded_len_ok by ulia. unfold XdrDecoder.require.
  destruct (Z.ltb_spec (blen (drop 4 b)) (len + xdr_padding len)); [by eexists|]. cbn. done.
Qed.

Lemma get_u64_eq b : 8 ≤ blen b → buf.get_u64 b = (Ok (be_value (take 8 b)), drop 8 b).
Proof.
  intros H. unfold buf.get_u64, sbind, buf.split_to. by destruct (Z.leb_spec 8 (blen b)); [|lia].
Qed.

Lemma advance_eq n b : 0 ≤ n ≤ blen b → buf.advance n b = (Ok tt, drop (Z.to_nat n) b).
Proof.
  intros H. unfold buf.advance, sbind, buf.split_to. by destruct (Z.leb_spec n (blen b)); [|lia].
Qed.

Lemma finish_eq len consumed b : is_u32 len → 0 ≤ consumed ≤ len →
  len - consumed + xdr_padding len ≤ blen b →
  XdrDecoder.finish_opaque_after_require len consumed b
  = (Ok tt, drop (Z.to_nat (len - consumed + xdr_padding len)) b).
Proof.
  intros Hl Hc Hb. unfold XdrDecoder.finish_opaque_after_require, sbind, slift.
  rewrite opaque_remaining_ok by done. pose proof (xdr_padding_bound len). by rewrite advance_eq by lia.
Qed.

(** Two decoders that agree: the same value and the same rest, or an XDR
    error from both. *)
Definition agree {A} (x y : res Error.t A * bytes) : Prop :=
  match x, y with
  | (Ok a, b), (Ok a', b') => a = a' ∧ b = b'
  | (Err (Error.Xdr _), _), (Err (Error.Xdr _), _) => True
  | _, _ => False
  end.

Lemma size_attr_agree b : bytes_wf b →
  agree (decode_size_attr b) (decode_fattr_values (Bitmap.inline_word FATTR4_SIZE_WORD) b).
Proof.
  intros Hb. unfold decode_size_attr, decode_fattr_values.
  change (BitmapAttrs.collect (Bitmap_attrs (Bitmap.inline_word FATTR4_SIZE_WORD))) with [4].
  unfold sbind at 1 5. pose proof (extent_spec b Hb) as He.
  destruct (XdrDecoder.read_opaque_extent_len b) as [[len|e|] b1]; [|by destruct He as [m ->]|done].
  destruct He as [Hlen Hroom]. pose proof (xdr_padding_bound len).
  cbn [fattr_loop]. change (4 =? FATTR4_TYPE) with false. change (4 =? FATTR4_SIZE) with true.
  unfold read_attr_u64, require_attr_len, consume_attr_bytes, sbind, slift, sret.
  destruct (Z.ltb_spec len 8) as [|H8]; [done|].
  unfold XdrDecoder.read_u64_after_require. rewrite get_u64_eq by ulia.
  rewrite finish_eq by (rewrite ?blen_drop; ulia).
  replace (len - (len - (len - 8))) with (len - 8) by lia.
  destruct (Z.ltb_spec 8 len).
  - by rewrite finish_eq by (rewrite ?blen_drop; ulia).
  - assert (len = 8) as -> by lia. done.
Qed.

Lemma type_and_size_attrs_agree b : bytes_wf b →
  agree (decode_type_and_size_attrs b)
    (decode_fattr_values (Bitmap.inline_word FATTR4_TYPE_AND_SIZE_WORD) b).
Proof.
  intros Hb. unfold decode_type_and_size_attrs, decode_fattr_values.
  change (BitmapAttrs.collect (Bitmap_attrs (Bitmap.inline_word FATTR4_TYPE_AND_SIZE_WORD))) with [1; 4].
  unfold sbind at 1 6. pose proof (extent_spec b Hb) as He.
  destruct (XdrDecoder.read_opaque_extent_len b) as [[len|e|] b1]; [|by destruct He as [m ->]|done].
  destruct He as [Hlen Hroom]. pose proof (xdr_padding_bound len).
  cbn [fattr_loop]. change (1 =? FATTR4_TYPE) with true. change (4 =? FATTR4_TYPE) with false.
  change (4 =? FATTR4_SIZE) with true.
  unfold read_attr_u32, read_attr_u64, require_attr_len, consume_attr_bytes, sbind, slift, sret,
    XdrDecoder.read_u32_after_require, XdrDecoder.read_u64_after_require.
  destruct (Z.ltb_spec len 12) as [H12|H12].
  - destruct (Z.ltb_spec len 4) as [|H4]; [done|]. rewrite get_u32_eq by ulia.
    destruct (Z.ltb_spec (len - 4) 8); [done|lia].
  - destruct (Z.ltb_spec len 4); [lia|]. rewrite get_u32_eq by ulia.
    destruct (Z.ltb_spec (len - 4) 8); [lia|]. rewrite get_u64_eq by (rewrite blen_drop; ulia).
    rewrite drop_drop. rewrite finish_eq by (rewrite ?blen_drop; ulia).
    replace (len - (len - (len - 4 - 8))) with (len - 12) by lia. destruct (Z.ltb_spec 12 len).
    + by rewrite finish_eq by (rewrite ?blen_drop; ulia).
    + assert (len = 12) as -> by lia. done.
Qed.

(** C30: The specialised decoders for the two attribute sets the client asks
    for ([AttrRequest]) are equivalent to the general bitmap-driven decoder on
    every input: same attributes and same bytes left over, or an XDR error
    from both. *)
Theorem fattr_fast_path_equiv (request : AttrRequest.t) (word : Z) (b : bytes) :
  AttrRequest.bitmap request = Bitmap.inline_word word → bytes_wf b →
  agree (decode_fattr_single_bitmap_word word b) (decode_fattr_values (AttrRequest.bitmap request) b).
Proof.
  intros Hw Hb. unfold decode_fattr_single_bitmap_word. destruct request; injection Hw as <-.
  - by apply size_attr_agree.
  - by apply type_and_size_attrs_agree.
Qed.

Lemma fattr_fast_path_equiv_witness :
  decode_fattr_single_bitmap_word 18 (wire_opaque (wire_u32 1 ++ wire_u64 77))
    = (Ok (FileAttrs.mk (Some FileType.Regular) (Some 77)), [])
  ∧ agree (decode_fattr_single_bitmap_word 18 (wire_opaque (wire_u32 1 ++ wire_u64 77)))
      (decode_fattr_values (AttrRequest.bitmap AttrRequest.TypeAndSize)
         (wire_opaque (wire_u32 1 ++ wire_u64 77))).
Proof.
  split; [reflexivity|]. apply fattr_fast_path_equiv; [reflexivity|].
  vm_compute. repeat constructor; discriminate.
Defined.

(** ** Directory pages: what they hold *)

(** An entry on the wire: cookie, name, and the attributes the client
    skips. *)
Definition dirent : Type := Z * bytes * Bitmap.t * bytes.

Definition dirent_cookie (e : dirent) : Z := let '(c, _, _, _) := e in c.
Definition dirent_name (e : dirent) : bytes := let '(_, n, _, _) := e in n.

Definition dirent_wf (e : dirent) : Prop :=
  let '(c, n, bm, vals) := e in
  is_u64 c ∧ blen n ≤ u32_max ∧ (is_dot_readdir_name n = true ∨ utf8_valid n = true)
  ∧ blen (Bitmap.words bm) ≤ u32_max ∧ blen vals ≤ u32_max.

Definition wire_dirent (e : dirent) : bytes :=
  let '(c, n, bm, vals) := e in
  wire_bool true ++ wire_u64 c ++ wire_opaque n ++ NfsOp.wire_bitmap bm ++ wire_opaque vals.

Definition wire_dirlist (es : list dirent) (eof : bool) : bytes :=
  mjoin (wire_dirent <$> es) ++ wire_bool false ++ wire_bool eof.

(** The entries a caller sees: all but [.] and [..]. *)
Definition visible (es : list dirent) : list DirEntry.t :=
  DirEntry.mk <$> filter (λ n, is_dot_readdir_name n = false) (dirent_name <$> es).

Lemma reads_string_unless skip v : blen v ≤ u32_max → (skip v = true ∨ utf8_valid v = true) →
  reads (XdrDecoder.read_string_unless skip) (wire_opaque v) (if skip v then None else Some v).
Proof.
  intros Hlen Hv. pose proof (blen_nonneg v). pose proof (xdr_padding_bound (blen v)).
  eapply reads_bind; [apply reads_u32; ulia|].
  eapply reads_bind_lift.
  { unfold checked_add. destruct (Z.leb_spec (blen v + xdr_padding (blen v)) usize_max); [done|ulia]. }
  apply reads_require; [autorewrite with wire; lia|]. intros rest.
  unfold sbind at 1, XdrDecoder.peek.
  destruct (Z.leb_spec (blen v) (blen ((v ++ wire_pad (blen v)) ++ rest))) as [_|Hc].
  2:{ rewrite !blen_app in Hc. pose proof (blen_nonneg rest). pose proof (blen_nonneg (wire_pad (blen v))). lia. }
  replace (take (Z.to_nat (blen v)) ((v ++ wire_pad (blen v)) ++ rest)) with v.
  2:{ rewrite <- app_assoc, take_app_blen; [done|]. unfold blen. lia. }
  unfold sbind, sret. destruct (skip v) eqn:Hs.
  - rewrite (reads_advance _ (v ++ wire_pad (blen v))); [done|]. autorewrite with wire. lia.
  - destruct Hv as [Hv|Hv]; [done|]. rewrite Hv.
    rewrite (reads_advance _ (v ++ wire_pad (blen v))); [done|]. autorewrite with wire. lia.
Qed.

Lemma reads_skip_bitmap bm : blen (Bitmap.words bm) ≤ u32_max →
  reads skip_bitmap (NfsOp.wire_bitmap bm) tt.
Proof.
  intros Hlen. pose proof (blen_nonneg (Bitmap.words bm)).
  eapply reads_bind; [apply reads_u32; ulia|]. intros rest. unfold skip_bitmap_after_len, sbind.
  rewrite require_bitmap_words_ok; [|lia| |ulia].
  - unfold XdrDecoder.skip_bytes_after_require. apply reads_advance. by rewrite NfsOp.blen_join_u32.
  - rewrite blen_app, NfsOp.blen_join_u32. pose proof (blen_nonneg rest). lia.
Qed.

Lemma reads_skip_opaque v : blen v ≤ u32_max → reads XdrDecoder.skip_opaque (wire_opaque v) tt.
Proof.
  intros Hlen. pose proof (blen_nonneg v). pose proof (xdr_padding_bound (blen v)).
  eapply reads_bind; [apply reads_u32; ulia|].
  eapply reads_bind_lift; [apply opaque_padded_len_ok; lia|].
  destruct (Z.eqb_spec (blen v + xdr_padding (blen v)) 0) as [Hz|Hz].
  - assert (Hv0 : blen v = 0) by lia. apply blen_0_nil in Hv0 as ->. apply reads_ret.
  - apply reads_require; [autorewrite with wire; lia|]. apply reads_advance. autorewrite with wire. lia.
Qed.

Lemma reads_skip_fattr bm vals : blen (Bitmap.words bm) ≤ u32_max → blen vals ≤ u32_max →
  reads skip_fattr (NfsOp.wire_bitmap bm ++ wire_opaque vals) tt.
Proof.
  intros Hbm Hv. eapply reads_bind; [by apply reads_skip_bitmap|by apply reads_skip_opaque].
Qed.

(** The page for a prefix of the entries, and where it stopped. *)
Definition page_of (es1 es2 : list dirent) (eof : bool) (limit : Z)
    (entries : list DirEntry.t) (cookie : Z) (verifier : bytes) (p : DirPage.t) : Prop :=
  DirPage.entries p = entries ++ visible es1
  ∧ DirPage.last_cookie p = default cookie (dirent_cookie <$> last es1)
  ∧ DirPage.verifier p = verifier
  ∧ (es2 = [] → DirPage.eof p = eof)
  ∧ (es2 ≠ [] → DirPage.eof p = false ∧ blen (DirPage.entries p) = limit).

Lemma visible_cons e es :
  visible (e :: es)
  = (if is_dot_readdir_name (dirent_name e) then [] else [DirEntry.mk (dirent_name e)]) ++ visible es.
Proof.
  unfold visible. cbn [fmap list_fmap]. rewrite filter_cons.
  destruct (is_dot_readdir_name (dirent_name e)) eqn:Hd; case_decide; (done || congruence).
Qed.

(** One entry is consumed whole. *)
Lemma readdir_step fuel limit verifier entries cookie e rest :
  dirent_wf e → blen entries ≠ limit →
  readdir_loop (S fuel) limit verifier entries cookie (wire_dirent e ++ rest)
  = readdir_loop fuel limit verifier
      (entries ++ (if is_dot_readdir_name (dirent_name e) then [] else [DirEntry.mk (dirent_name e)]))
      (dirent_cookie e) rest.
Proof.
  destruct e as [[[c n] bm] vals]. intros (Hc & Hn & Hdot & Hbm & Hvals) Hlim.
  cbn [readdir_loop wire_dirent dirent_name dirent_cookie]. rewrite <- !app_assoc. unfold sbind at 1.
  rewrite reads_bool. cbn [negb]. destruct (Z.eqb_spec (blen entries) limit); [done|].
  unfold sbind at 1. rewrite reads_u64 by done.
  unfold sbind at 1. rewrite reads_string_unless by done.
  unfold sbind at 1. rewrite (app_assoc (NfsOp.wire_bitmap bm)), reads_skip_fattr by done.
  destruct (is_dot_readdir_name n); [by rewrite app_nil_r|done].
Qed.

Lemma readdir_loop_page es : Forall dirent_wf es → ∀ fuel limit verifier entries cookie eof rest,
  (length es < fuel)%nat →
  ∃ es1 es2 p rest', es = es1 ++ es2
    ∧ readdir_loop fuel limit verifier entries cookie (wire_dirlist es eof ++ rest) = (Ok p, rest')
    ∧ page_of es1 es2 eof limit entries cookie verifier p ∧ (es2 = [] → rest' = rest).
Proof.
  induction 1 as [|e es He _ IH]; intros fuel limit verifier entries cookie eof rest Hfuel;
    (destruct fuel as [|fuel]; [cbn in Hfuel; lia|]).
  { eexists [], [], _, rest. split; [done|]. unfold wire_dirlist. cbn [fmap list_fmap mjoin list_join app].
    cbn [readdir_loop]. unfold sbind. rewrite <- app_assoc, reads_bool. cbn [negb]. rewrite reads_bool.
    split; [reflexivity|]. split; [|done]. unfold page_of. cbn. split_and!; (done || by rewrite app_nil_r). }
  assert (Hw : wire_dirlist (e :: es) eof ++ rest = wire_dirent e ++ wire_dirlist es eof ++ rest).
  { unfold wire_dirlist. cbn [fmap list_fmap]. by rewrite mjoin_cons, <- !app_assoc. }
  destruct (decide (blen entries = limit)) as [Hlim|Hlim].
  - destruct e as [[[c n] bm] vals]. eexists [], ((c, n, bm, vals) :: es), _, _. split; [done|]. split.
    + rewrite Hw. cbn [wire_dirent readdir_loop]. rewrite <- !app_assoc.
      unfold sbind at 1. rewrite reads_bool. cbn [negb]. rewrite (proj2 (Z.eqb_eq _ _) Hlim). reflexivity.
    + split; [|done]. unfold page_of. cbn. split_and!; (done || by rewrite app_nil_r).
  - rewrite Hw, readdir_step by done.
    destruct (IH fuel limit verifier
      (entries ++ (if is_dot_readdir_name (dirent_name e) then [] else [DirEntry.mk (dirent_name e)]))
      (dirent_cookie e) eof rest) as (es1 & es2 & p & rest' & -> & Hrun & Hpage & Hrest);
      [cbn in Hfuel; lia|].
    exists (e :: es1), es2, p, rest'. split; [done|]. split; [exact Hrun|]. split; [|done].
    destruct Hpage as (Hent & Hck & Hver & Heof & Hstop). split_and!; try done.
    + by rewrite Hent, visible_cons, app_assoc.
    + rewrite Hck. destruct es1 as [|e1 es1]; [done|]. rewrite last_cons_cons.
      destruct (last (e1 :: es1)) eqn:Hl; [done|]. by apply last_None in Hl.
Qed.

Lemma length_wire_dirents es : (length es ≤ length (mjoin (wire_dirent <$> es)))%nat.
Proof.
  induction es as [|[[[c n] bm] vals] es IH]; [done|].
  change (mjoin _) with (wire_dirent (c, n, bm, vals) ++ mjoin (wire_dirent <$> es)).
  rewrite length_app. cbn [wire_dirent length]. rewrite length_app. cbn. lia.
Qed.

(** A directory page loses nothing.  Decoding the server's list of
    entries returns the entries other than [.] and [..] of a prefix of the
    list, in order, together with the cookie of the last entry consumed, so
    that a READDIR from that cookie continues with exactly the entries left
    out.  Entries are left out only when the page is full (and then the page
    is not marked final); otherwise the server's end-of-directory flag is
    returned. *)
Theorem readdir_pagination (max_entries : option Z) (verifier : bytes) (es : list dirent)
    (eof : bool) (rest : bytes) :
  blen verifier = 8 → Forall dirent_wf es →
  ∃ es1 es2 p rest', es = es1 ++ es2
    ∧ decode_readdir max_entries (verifier ++ wire_dirlist es eof ++ rest) = (Ok p, rest')
    ∧ page_of es1 es2 eof (entry_limit_of max_entries) [] 0 verifier p ∧ (es2 = [] → rest' = rest).
Proof.
  intros Hv Hes. unfold decode_readdir, sbind. rewrite reads_bytes by done.
  unfold XdrDecoder.remaining. apply readdir_loop_page; [done|].
  unfold blen, wire_dirlist. rewrite !length_app. pose proof (length_wire_dirents es). lia.
Qed.

Lemma readdir_pagination_witness :
  ∃ es1 es2 p rest',
    [(1, str_of ".", Bitmap.mk [], []); (2, str_of "a", Bitmap.mk [], []); (3, str_of "b", Bitmap.mk [], [])]
      = es1 ++ es2
    ∧ decode_readdir (Some 1)
        (replicate 8 9 ++ wire_dirlist
          [(1, str_of ".", Bitmap.mk [], []); (2, str_of "a", Bitmap.mk [], []);
           (3, str_of "b", Bitmap.mk [], [])] true ++ []) = (Ok p, rest')
    ∧ page_of es1 es2 true (entry_limit_of (Some 1)) [] 0 (replicate 8 9) p ∧ (es2 = [] → rest' = []).
Proof.
  apply readdir_pagination; [reflexivity|].
  repeat constructor; (discriminate || (left; reflexivity) || (right; reflexivity)).
Defined.

(** ** Negotiation *)

(** Negotiation.  After CREATE_SESSION the limits the client works with
    are within both its own configuration and what the server granted; a
    READ, WRITE or READDIR of the negotiated size leaves the reserve for
    headers inside the channel (or is the minimum of one byte); sizes stay
    positive and keep their width. *)
Theorem negotiated_config_bounds (config : NfsConfig.t) (a : ChannelAttrs.t) :
  NfsConfig.wf config → channel_wf a →
  let c := negotiated_config config a in
  NfsConfig.wf c
  ∧ NfsConfig.max_request_size c
      = Z.min (NfsConfig.max_request_size config) (ChannelAttrs.max_request_size a)
  ∧ NfsConfig.max_response_size c
      = Z.min (NfsConfig.max_response_size config) (ChannelAttrs.max_response_size a)
  ∧ NfsConfig.write_chunk_size c
      ≤ Z.max 1 (NfsConfig.max_request_size c - CHANNEL_PAYLOAD_RESERVE)
  ∧ NfsConfig.read_chunk_size c
      ≤ Z.max 1 (NfsConfig.max_response_size c - CHANNEL_PAYLOAD_RESERVE)
  ∧ NfsConfig.readdir_maxcount c
      ≤ Z.max 1 (NfsConfig.max_response_size c - CHANNEL_PAYLOAD_RESERVE)
  ∧ NfsConfig.read_granularity c ≤ NfsConfig.read_chunk_size c
  ∧ 1 ≤ NfsConfig.readdir_dircount c ≤ Z.max 1 (NfsConfig.readdir_maxcount c)
  ∧ (1 ≤ NfsConfig.write_chunk_size config → 1 ≤ NfsConfig.write_chunk_size c)
  ∧ (1 ≤ NfsConfig.read_chunk_size config → 1 ≤ NfsConfig.read_chunk_size c)
  ∧ NfsConfig.max_compound_ops c = ChannelAttrs.maxoperations a.
Proof.
  intros Hwf Ha. unfold NfsConfig.wf, channel_wf in *. cbn zeta. unfold negotiated_config. cbn.
  unfold channel_payload_size, saturating_sub, CHANNEL_PAYLOAD_RESERVE.
  destruct_and!. unfold_widths. split_and!; lia.
Qed.

Lemma negotiated_config_bounds_witness :
  let c := negotiated_config (NfsConfig.new (str_of "/")) (ChannelAttrs.mk 65536 4096 16 8) in
  NfsConfig.write_chunk_size c = 64512 ∧ NfsConfig.read_chunk_size c = 3072 ∧ NfsConfig.wf c.
Proof.
  split; [reflexivity|]. split; [reflexivity|].
  apply negotiated_config_bounds; repeat split; vm_compute; discriminate.
Defined.
