(* ===== verification/Replies.v ===== *)
(** * Compound replies (src/nfs4/codec.rs, reply walkers)

    [CompoundReplies] walks the operation replies of a compound: a server
    stops at the first operation that fails, so every expectation is checked
    only while replies remain, and [finish] compares the totals.  One decoder
    per compound the client sends follows, composed as in the source, and the
    two checks every reply passes first: the SEQUENCE result must be the one
    of the request, and its status flags decide whether the session lives.

    A decoder that uses [?] on an [Error] converts it with [From]; [body]
    does that.  An early [return] is the branch that does not continue. *)

From S2P Require Import Prelude Proto Errors Xdr Ops Reply.

Module CompoundDecodeError.

Record t : Type := mk {
  status : option NfsStatus;
  reply_index : option Z;
  error : Error.t;
}.

Definition nfs (s : NfsStatus) (op : OpCode.t) : t := mk (Some s) None (Error.nfs s op).

Definition at_reply (i : Z) (e : t) : t :=
  mk (status e) (Some (default i (reply_index e))) (error e).

Definition transient_status (e : t) : option NfsStatus :=
  match status e with
  | Some s => if (s =? NfsStatus.DELAY) || (s =? NfsStatus.GRACE) then Some s else None
  | None => None
  end.

Definition into_error (e : t) : Error.t := error e.

Definition completed_operation (e : t) (ops : list NfsOp.t) (op : OpCode.t) : bool :=
  let completed_user_ops := saturating_sub (default 0 (reply_index e)) 1 in
  existsb (λ candidate, bool_decide (NfsOp.opcode candidate = op))
    (take (Z.to_nat completed_user_ops) ops).

(** [From<Error>] *)
Definition from (error : Error.t) : t := mk None None error.

End CompoundDecodeError.

Definition transient_compound_retry_is_safe (ops : list NfsOp.t) (err : CompoundDecodeError.t) : bool :=
  match CompoundDecodeError.reply_index err with
  | None => false
  | Some failed_reply =>
      let completed_user_ops := saturating_sub failed_reply 1 in
      negb (existsb (λ op,
          match op with
          | NfsOp.Open _ _ _ _ _ | NfsOp.Close _ _ | NfsOp.Link _ | NfsOp.Rename _ _ => true
          | _ => false
          end) (take (Z.to_nat completed_user_ops) ops))
  end.

(** ** Reply headers *)

Abbreviation cdec A := (st bytes CompoundDecodeError.t A) (only parsing).

(** [?] on an [Error] inside a function returning [CompoundDecodeError]. *)
Definition conv {A} (m : dec A) : cdec A := smap_err CompoundDecodeError.from m.

Definition reply_count_error (shape : string) (reply_count expected_replies : Z)
  : CompoundDecodeError.t :=
  CompoundDecodeError.from
    (Error.protocol "{shape} compound returned {reply_count} replies, expected {expected_replies}").

Definition decode_compound_header : cdec (NfsStatus * Z) :=
  let! (compound_status, reply_count) := conv XdrDecoder.read_u32_skip_opaque_and_read_u32 in
  let! remaining := conv XdrDecoder.remaining in
  if remaining / 8 <? reply_count then
    sfail (CompoundDecodeError.from
             (Error.xdr "compound reply count {reply_count} exceeds remaining XDR data"))
  else sret (compound_status, reply_count).

Definition validate_expected_reply_op (op_raw : Z) (s : NfsStatus) (expected : OpCode.t)
  : res CompoundDecodeError.t OpCode.t :=
  if op_raw =? OpCode.as_u32 expected then Ok expected
  else if (op_raw =? OpCode.as_u32 OpCode.Illegal) && (s =? status.OP_ILLEGAL) then Ok OpCode.Illegal
  else
    let? op := map_err CompoundDecodeError.from (OpCode_from_u32 op_raw) in
    Err (CompoundDecodeError.from
           (Error.protocol "{shape} compound returned unexpected {op:?} reply, expected {expected:?}")).

Definition decode_expected_op (expected : OpCode.t) (shape : string) : cdec unit :=
  let! (op_raw, status_raw) := conv XdrDecoder.read_u32_pair in
  let! op := slift (validate_expected_reply_op op_raw status_raw expected) in
  if negb (NfsStatus.is_ok status_raw) then sfail (CompoundDecodeError.nfs status_raw op)
  else sret tt.

Definition decode_expected_op_or_exist (expected : OpCode.t) (shape : string) : cdec bool :=
  let! (op_raw, status_raw) := conv XdrDecoder.read_u32_pair in
  let! op := slift (validate_expected_reply_op op_raw status_raw expected) in
  if negb (NfsStatus.is_ok status_raw) then
    if bool_decide (op = expected) && (status_raw =? NfsStatus.EXIST) then sret true
    else sfail (CompoundDecodeError.nfs status_raw op)
  else sret false.

Definition decode_remove_expected_op (expected : OpCode.t) : cdec bool :=
  let! (op_raw, status_raw) := conv XdrDecoder.read_u32_pair in
  let! op := slift (validate_expected_reply_op op_raw status_raw expected) in
  if negb (NfsStatus.is_ok status_raw) then
    if bool_decide (op = expected) && (status_raw =? NfsStatus.NOENT)
       && match expected with
          | OpCode.PutFh | OpCode.Lookup | OpCode.Remove => true
          | _ => false
          end
    then sret true
    else sfail (CompoundDecodeError.nfs status_raw op)
  else sret false.

(** ** The walker *)

Inductive OpenOutcome (T : Type) : Type :=
| Opened (t : T)
| OpenExists.
Arguments Opened {T} t.
Arguments OpenExists {T}.

Module CompoundReplies.

Record t : Type := mk {
  dec : bytes;
  status : NfsStatus;
  reply_count : Z;
  expected_replies : Z;
  decoded : Z;
  shape : string;
}.

Definition new (bytes : bytes) (shape : string) (expected_replies : Z)
  : res CompoundDecodeError.t t :=
  match decode_compound_header bytes with
  | (Ok (status, reply_count), dec) =>
      if expected_replies <? reply_count then
        Err (reply_count_error shape reply_count expected_replies)
      else Ok (mk dec status reply_count expected_replies 0 shape)
  | (Err e, _) => Err e
  | (Panic, _) => Panic
  end.

Definition set_dec (d : bytes) (r : t) : t :=
  mk d (status r) (reply_count r) (expected_replies r) (decoded r) (shape r).

Definition bump (r : t) : t :=
  mk (dec r) (status r) (reply_count r) (expected_replies r) (decoded r + 1) (shape r).

Abbreviation rdec A := (st t CompoundDecodeError.t A) (only parsing).

(** Runs a body decoder on [&mut self.dec]. *)
Definition body {A} (m : Xdr.dec A) : rdec A := λ r,
  let '(x, d) := conv m (dec r) in (x, set_dec d r).

Definition advance_with {A} (decode : string → cdec A) : rdec (option A) := λ r,
  if reply_count r <=? decoded r then (Ok None, r)
  else
    match decode (shape r) (dec r) with
    | (Ok out, d) => (Ok (Some out), bump (set_dec d r))
    | (Err e, d) => (Err (CompoundDecodeError.at_reply (decoded r) e), set_dec d r)
    | (Panic, d) => (Panic, set_dec d r)
    end.

Definition is_some {A} (o : option A) : bool := match o with Some _ => true | None => false end.

Definition advance (op : OpCode.t) : rdec bool :=
  let! present := advance_with (λ shape, decode_expected_op op shape) in
  sret (is_some present).

Definition sequence : rdec unit :=
  let! present := advance OpCode.Sequence in
  if present then body skip_sequence_data else sret tt.

Definition result {A} (op : OpCode.t) (decode : Xdr.dec A) : rdec (option A) :=
  let! present := advance op in
  if negb present then sret None
  else
    let! out := body decode in
    sret (Some out).

Definition getfh : rdec (option FileHandle) := result OpCode.GetFh decode_file_handle.

Definition open_stateid_or_exists : rdec (option (OpenOutcome StateId.t)) :=
  let! present := advance_with (λ shape, decode_expected_op_or_exist OpCode.Open shape) in
  match present with
  | None => sret None
  | Some exists_ =>
      if (exists_ : bool) then sret (Some OpenExists)
      else
        let! stateid := body decode_open_stateid in
        sret (Some (Opened stateid))
  end.

Fixpoint lookups (count : nat) : rdec unit :=
  match count with
  | O => sret tt
  | S count' =>
      let! present := advance OpCode.Lookup in
      if negb present then sret tt else lookups count'
  end.

Definition rename_publish : rdec bool :=
  let! present := advance OpCode.Rename in
  if negb present then sret false
  else
    let! _ := body skip_change_info in
    let! _ := body skip_change_info in
    sret true.

Definition link_remove_publish (parent_lookup_count : nat) : rdec bool :=
  let! _ := advance OpCode.SaveFh in
  let! _ := advance OpCode.PutFh in
  let! _ := lookups parent_lookup_count in
  let! linked := advance OpCode.Link in
  let! _ := if linked then body skip_change_info else sret tt in
  let! present := advance OpCode.Remove in
  if negb present then sret false
  else
    let! _ := body skip_change_info in
    sret true.

Definition finish : rdec unit := λ r,
  if decoded r <? reply_count r then
    (Err (reply_count_error (shape r) (reply_count r) (expected_replies r)), r)
  else if negb (NfsStatus.is_ok (status r)) then
    (Err (CompoundDecodeError.nfs (status r) OpCode.Illegal), r)
  else (Ok tt, r).

(** A decoder: [new], then the walk. *)
Definition run {A} (bytes : bytes) (shape : string) (expected_replies : Z) (walk : rdec A)
  : res CompoundDecodeError.t A :=
  let? replies := new bytes shape expected_replies in
  fst (walk replies).

End CompoundReplies.

Import CompoundReplies.

(** [opt.ok_or_else(|| Error::protocol(message))?] *)
Definition require {A} (o : option A) (message : string) : st CompoundReplies.t CompoundDecodeError.t A :=
  slift (ok_or o (CompoundDecodeError.from (Error.protocol message))).

Definition missing_publish_result : CompoundDecodeError.t :=
  CompoundDecodeError.from
    (Error.protocol "compound response did not include the publish result").

Definition count (n : nat) : Z := Z.of_nat n.

(** ** One decoder per compound *)

Definition decode_setup_compound {A} (bytes : bytes) (expected : OpCode.t) (shape : string)
    (decode : Xdr.dec A) : res Error.t A :=
  map_err CompoundDecodeError.into_error
    (run bytes shape 1
       (let! result := result expected decode in
        let! _ := finish in
        require result "compound response did not include {shape} result")).

Definition decode_exchange_id_compound (bytes : bytes) : res Error.t ExchangeIdResult.t :=
  decode_setup_compound bytes OpCode.ExchangeId "EXCHANGE_ID" decode_exchange_id.

Definition decode_create_session_compound (bytes : bytes)
    (expected_sequenceid minimum_request_size : Z) : res Error.t CreateSessionResult.t :=
  decode_setup_compound bytes OpCode.CreateSession "CREATE_SESSION"
    (decode_create_session expected_sequenceid minimum_request_size).

Definition decode_no_result_compound (bytes : bytes) (expected : OpCode.t)
  : res CompoundDecodeError.t unit :=
  run bytes (OpCode.name expected) 2
    (let! _ := sequence in
     let! saw_expected := advance expected in
     let! _ := finish in
     if saw_expected then sret tt
     else sfail (CompoundDecodeError.from
                   (Error.protocol "compound response did not include {expected:?} result"))).

Inductive RemoveOutcome : Type := Removed | Missing.
Inductive CreateDirOutcome : Type := Created | CreateDirExists.
Inductive CreateDirHandleOutcome : Type := CreatedHandle (fh : FileHandle) | HandleExists.

Module CloseShape.
Inductive t : Type :=
| File
| Rename (parent_lookup_count : nat)
| LinkRemove (parent_lookup_count : nat).

Definition reply_count (s : t) : Z :=
  match s with
  | File => 3
  | Rename parent_lookup_count => 7 + count parent_lookup_count
  | LinkRemove parent_lookup_count => 8 + count parent_lookup_count
  end.
End CloseShape.

Definition decode_read_compound (bytes : bytes) : res CompoundDecodeError.t ReadData.t :=
  run bytes "READ" 3
    (let! _ := sequence in
     let! _ := advance OpCode.PutFh in
     let! read := result OpCode.Read decode_read_data in
     let! _ := finish in
     require read "compound response did not include READ result").

Definition decode_read_path_compound (bytes : bytes) (lookup_count : nat)
  : res CompoundDecodeError.t ReadData.t :=
  run bytes "READ path" (3 + count lookup_count)
    (let! _ := sequence in
     let! _ := advance OpCode.PutFh in
     let! _ := lookups lookup_count in
     let! read := result OpCode.Read decode_read_data in
     let! _ := finish in
     require read "compound response did not include READ result").

(** The COMMIT of the fused put: its verifier must be the WRITE's, unless the
    WRITE was already stable. *)
Definition fused_commit (write : option WriteData.t) : st CompoundReplies.t CompoundDecodeError.t unit :=
  let! committed := advance OpCode.Commit in
  if committed then
    let! commit_verifier := body (XdrDecoder.read_bytes 8) in
    let! write :=
      require write "fused PUT response included COMMIT without a WRITE result" in
    if WriteData.requires_commit write then
      slift (map_err CompoundDecodeError.from
               (ensure_write_verifier (WriteData.verifier write) commit_verifier))
    else sret tt
  else sret tt.

(** What follows the OPEN; [stateid] is its result when it was decoded. *)
Definition fused_put_tail (parent_lookup_count : nat) (create_new : bool) (stateid : option StateId.t)
  : st CompoundReplies.t CompoundDecodeError.t
       (OpenOutcome (StateId.t * FileHandle * WriteData.t)) :=
  let! fh := getfh in
  let! write := result OpCode.Write decode_write_data in
  let! _ := fused_commit write in
  let! _ := advance OpCode.Verify in
  let! published :=
    if create_new then link_remove_publish parent_lookup_count
    else
      let! _ := advance OpCode.RestoreFh in
      rename_publish in
  let! _ := finish in
  if negb published then sfail missing_publish_result
  else
    let! stateid := require stateid "compound response did not include OPEN result" in
    let! fh := require fh "compound response did not include GETFH result" in
    let! write := require write "compound response did not include WRITE result" in
    sret (Opened (stateid, fh, write)).

Definition fused_put_replies (parent_lookup_count : nat) (create_new : bool) : Z :=
  if create_new then 11 + 2 * count parent_lookup_count else 10 + count parent_lookup_count.

Definition decode_fused_put_compound (bytes : bytes) (parent_lookup_count : nat) (create_new : bool)
  : res CompoundDecodeError.t (OpenOutcome (StateId.t * FileHandle * WriteData.t)) :=
  let expected_replies := fused_put_replies parent_lookup_count create_new in
  run bytes "fused PUT" expected_replies
    (let! _ := sequence in
     let! _ := advance OpCode.PutFh in
     let! _ := lookups parent_lookup_count in
     let! _ := if negb create_new then
                 let! _ := advance OpCode.SaveFh in sret tt
               else sret tt in
     let! opened := open_stateid_or_exists in
     match opened with
     | Some OpenExists => sret OpenExists
     | Some (Opened stateid) => fused_put_tail parent_lookup_count create_new (Some stateid)
     | None => fused_put_tail parent_lookup_count create_new None
     end).

Definition decode_read_path_handle_compound (bytes : bytes) (lookup_count : nat)
  : res CompoundDecodeError.t (FileHandle * ReadData.t) :=
  run bytes "READ path" (4 + count lookup_count)
    (let! _ := sequence in
     let! _ := advance OpCode.PutFh in
     let! _ := lookups lookup_count in
     let! fh := getfh in
     let! read := result OpCode.Read decode_read_data in
     let! _ := finish in
     let! fh := require fh "compound response did not include GETFH result" in
     let! read := require read "compound response did not include READ result" in
     sret (fh, read)).

Definition decode_read_path_size_compound (bytes : bytes) (lookup_count : nat)
  : res CompoundDecodeError.t (FileHandle * Z * ReadData.t) :=
  run bytes "READ path" (5 + count lookup_count)
    (let! _ := sequence in
     let! _ := advance OpCode.PutFh in
     let! _ := lookups lookup_count in
     let! fh := getfh in
     let! attrs := result OpCode.GetAttr decode_fattr in
     let size := match attrs with Some attrs => FileAttrs.size attrs | None => None end in
     let! read := result OpCode.Read decode_read_data in
     let! _ := finish in
     let! fh := require fh "compound response did not include GETFH result" in
     let! size := require size "compound response did not include GETATTR size result" in
     let! read := require read "compound response did not include READ result" in
     sret (fh, size, read)).

Definition decode_getfh_compound (bytes : bytes) (start_op : OpCode.t) (lookup_count : nat)
  : res CompoundDecodeError.t FileHandle :=
  run bytes "GETFH" (3 + count lookup_count)
    (let! _ := sequence in
     let! _ := advance start_op in
     let! _ := lookups lookup_count in
     let! fh := getfh in
     let! _ := finish in
     require fh "compound response did not include GETFH result").

Definition decode_getfh_attrs_compound (bytes : bytes) (lookup_count : nat)
    (attr_request : AttrRequest.t) : res CompoundDecodeError.t (FileHandle * FileAttrs.t) :=
  run bytes "GETFH" (4 + count lookup_count)
    (let! _ := sequence in
     let! _ := advance OpCode.PutFh in
     let! _ := lookups lookup_count in
     let! fh := getfh in
     let! attrs := result OpCode.GetAttr decode_fattr in
     let! _ := finish in
     let! fh := require fh "compound response did not include GETFH result" in
     let attrs := default FileAttrs.default attrs in
     let! _ := slift (map_err CompoundDecodeError.from
                        (validate_file_attrs attr_request attrs "GETFH")) in
     sret (fh, attrs)).

Definition open_file_tail (stateid : option StateId.t)
  : st CompoundReplies.t CompoundDecodeError.t (OpenOutcome (StateId.t * FileHandle)) :=
  let! fh := getfh in
  let! _ := finish in
  let! stateid := require stateid "compound response did not include OPEN result" in
  let! fh := require fh "compound response did not include GETFH result" in
  sret (Opened (stateid, fh)).

Definition decode_open_file_compound (bytes : bytes) (parent_lookup_count : nat)
  : res CompoundDecodeError.t (OpenOutcome (StateId.t * FileHandle)) :=
  run bytes "OPEN" (4 + count parent_lookup_count)
    (let! _ := sequence in
     let! _ := advance OpCode.PutFh in
     let! _ := lookups parent_lookup_count in
     let! opened := open_stateid_or_exists in
     match opened with
     | Some OpenExists => sret OpenExists
     | Some (Opened stateid) => open_file_tail (Some stateid)
     | None => open_file_tail None
     end).

Definition close_publish (shape : CloseShape.t) (saw_close : bool)
  : st CompoundReplies.t CompoundDecodeError.t bool :=
  match shape with
  | CloseShape.File => sret saw_close
  | CloseShape.Rename parent_lookup_count =>
      let! _ := advance OpCode.PutFh in
      let! _ := lookups parent_lookup_count in
      let! _ := advance OpCode.SaveFh in
      rename_publish
  | CloseShape.LinkRemove parent_lookup_count => link_remove_publish parent_lookup_count
  end.

(** [if let Some(expected) = commit_verifier && replies.advance(Commit)?] *)
Definition close_commit (commit_verifier : option bytes)
  : st CompoundReplies.t CompoundDecodeError.t unit :=
  match commit_verifier with
  | Some expected_verifier =>
      let! committed := advance OpCode.Commit in
      if committed then
        let! actual := body (XdrDecoder.read_bytes 8) in
        slift (map_err CompoundDecodeError.from (ensure_write_verifier expected_verifier actual))
      else sret tt
  | None => sret tt
  end.

Definition is_file_shape (s : CloseShape.t) : bool :=
  match s with CloseShape.File => true | _ => false end.

Definition close_replies (shape : CloseShape.t) (commit_verifier : option bytes) : Z :=
  CloseShape.reply_count shape + Z.b2z (is_some commit_verifier).

Definition decode_close_compound (bytes : bytes) (shape : CloseShape.t)
    (commit_verifier : option (list Z)) : res CompoundDecodeError.t unit :=
  let expected_replies := close_replies shape commit_verifier in
  run bytes "CLOSE" expected_replies
    (let! _ := sequence in
     let! _ := advance OpCode.PutFh in
     let! _ := close_commit commit_verifier in
     let! _ := if negb (is_file_shape shape) then
                 let! _ := advance OpCode.Verify in sret tt
               else sret tt in
     let! saw_close := advance OpCode.Close in
     let! _ := if saw_close then body skip_stateid else sret tt in
     let! published := close_publish shape saw_close in
     let! _ := finish in
     if negb saw_close then
       sfail (CompoundDecodeError.from
                (Error.protocol "compound response did not include CLOSE result"))
     else if negb published then sfail missing_publish_result
     else sret tt).

(** The loop of [decode_close_batch_compound]; the result is the new count. *)
Fixpoint close_batch_loop (n : nat) (decoded_closes : Z)
  : st CompoundReplies.t CompoundDecodeError.t Z :=
  match n with
  | O => sret decoded_closes
  | S n' =>
      let! _ := advance OpCode.PutFh in
      let! closed := advance OpCode.Close in
      if closed then
        let! _ := body skip_stateid in
        close_batch_loop n' (decoded_closes + 1)
      else close_batch_loop n' decoded_closes
  end.

Definition decode_close_batch_compound (bytes : bytes) (close_count : nat)
  : res CompoundDecodeError.t unit :=
  let expected_replies := saturating_add 1 (saturating_mul (count close_count) 2) in
  run bytes "batched CLOSE" expected_replies
    (let! _ := sequence in
     let! decoded_closes := close_batch_loop close_count 0 in
     let! _ := finish in
     if negb (decoded_closes =? count close_count) then
       sfail (CompoundDecodeError.from (Error.protocol
                "batched CLOSE response included {decoded_closes} of {close_count} CLOSE results"))
     else sret tt).

Definition decode_rename_publish_compound (bytes : bytes) (parent_lookup_count : nat)
  : res CompoundDecodeError.t unit :=
  run bytes "RENAME publish" (4 + count parent_lookup_count)
    (let! _ := sequence in
     let! _ := advance OpCode.PutFh in
     let! _ := lookups parent_lookup_count in
     let! _ := advance OpCode.SaveFh in
     let! published := rename_publish in
     let! _ := finish in
     if published then sret tt else sfail missing_publish_result).

Definition decode_link_remove_publish_compound (bytes : bytes) (parent_lookup_count : nat)
  : res CompoundDecodeError.t unit :=
  run bytes "LINK+REMOVE publish" (6 + count parent_lookup_count)
    (let! _ := sequence in
     let! _ := advance OpCode.PutFh in
     let! published := link_remove_publish parent_lookup_count in
     let! _ := finish in
     if published then sret tt else sfail missing_publish_result).

Definition decode_write_compound (bytes : bytes) : res CompoundDecodeError.t WriteData.t :=
  run bytes "WRITE" 3
    (let! _ := sequence in
     let! _ := advance OpCode.PutFh in
     let! write := result OpCode.Write decode_write_data in
     let! _ := finish in
     require write "compound response did not include WRITE result").

Definition decode_write_commit_compound (bytes : bytes)
  : res CompoundDecodeError.t (WriteData.t * list Z) :=
  run bytes "WRITE+COMMIT" 4
    (let! _ := sequence in
     let! _ := advance OpCode.PutFh in
     let! write := result OpCode.Write decode_write_data in
     let! commit := result OpCode.Commit (XdrDecoder.read_bytes 8) in
     let! _ := finish in
     let! write := require write "compound response did not include WRITE result" in
     let! commit := require commit "compound response did not include COMMIT result" in
     sret (write, commit)).

Definition decode_readdir_compound (bytes : bytes) (max_entries : option Z)
  : res CompoundDecodeError.t DirPage.t :=
  run bytes "READDIR" 3
    (let! _ := sequence in
     let! _ := advance OpCode.PutFh in
     let! page := result OpCode.ReadDir (decode_readdir max_entries) in
     let! _ := finish in
     require page "compound response did not include READDIR result").

Definition decode_readdir_path_compound (bytes : bytes) (max_entries : option Z)
    (parent_lookup_count : nat) : res CompoundDecodeError.t (FileHandle * DirPage.t) :=
  run bytes "READDIR" (4 + count parent_lookup_count)
    (let! _ := sequence in
     let! _ := advance OpCode.PutFh in
     let! _ := lookups parent_lookup_count in
     let! fh := getfh in
     let! page := result OpCode.ReadDir (decode_readdir max_entries) in
     let! _ := finish in
     let! fh := require fh "compound response did not include GETFH result" in
     let! page := require page "compound response did not include READDIR result" in
     sret (fh, page)).

Definition decode_readdir_path_without_handle_compound (bytes : bytes) (max_entries : option Z)
    (parent_lookup_count : nat) : res CompoundDecodeError.t DirPage.t :=
  run bytes "READDIR" (3 + count parent_lookup_count)
    (let! _ := sequence in
     let! _ := advance OpCode.PutFh in
     let! _ := lookups parent_lookup_count in
     let! page := result OpCode.ReadDir (decode_readdir max_entries) in
     let! _ := finish in
     require page "compound response did not include READDIR result").

Definition decode_create_dir_compound (bytes : bytes) (parent_lookup_count : nat)
  : res CompoundDecodeError.t CreateDirOutcome :=
  run bytes "CREATE directory" (3 + count parent_lookup_count)
    (let! _ := sequence in
     let! _ := advance OpCode.PutFh in
     let! _ := lookups parent_lookup_count in
     let! present := advance_with (λ shape, decode_expected_op_or_exist OpCode.Create shape) in
     match present with
     | Some true => sret CreateDirExists
     | Some false =>
         let! _ := body skip_change_info in
         let! _ := body skip_bitmap in
         let! _ := finish in
         sret Created
     | None =>
         let! _ := finish in
         sfail (CompoundDecodeError.from
                  (Error.protocol "compound response did not include CREATE result"))
     end).

Definition create_dir_handle_tail : st CompoundReplies.t CompoundDecodeError.t CreateDirHandleOutcome :=
  let! fh := getfh in
  let! _ := finish in
  let! fh := require fh "compound response did not include CREATE directory handle result" in
  sret (CreatedHandle fh).

Definition decode_create_dir_handle_compound (bytes : bytes) (parent_lookup_count : nat)
  : res CompoundDecodeError.t CreateDirHandleOutcome :=
  run bytes "CREATE directory handle" (4 + count parent_lookup_count)
    (let! _ := sequence in
     let! _ := advance OpCode.PutFh in
     let! _ := lookups parent_lookup_count in
     let! present := advance_with (λ shape, decode_expected_op_or_exist OpCode.Create shape) in
     match present with
     | Some true => sret HandleExists
     | Some false =>
         let! _ := body skip_change_info in
         let! _ := body skip_bitmap in
         create_dir_handle_tail
     | None => create_dir_handle_tail
     end).

(** The closure [expect] of [decode_remove_compound]. *)
Definition remove_expect (op : OpCode.t) : st CompoundReplies.t CompoundDecodeError.t (option bool) :=
  advance_with (λ _, decode_remove_expected_op op).

(** Its lookup loop: [true] when a directory of the path is missing. *)
Fixpoint remove_lookups (n : nat) : st CompoundReplies.t CompoundDecodeError.t bool :=
  match n with
  | O => sret false
  | S n' =>
      let! present := remove_expect OpCode.Lookup in
      match present with
      | Some true => sret true
      | Some false => remove_lookups n'
      | None => sret false
      end
  end.

Definition remove_tail (parent_lookup_count : nat)
  : st CompoundReplies.t CompoundDecodeError.t RemoveOutcome :=
  let! putfh := remove_expect OpCode.PutFh in
  if bool_decide (putfh = Some true) then sret Missing
  else
    let! missing := remove_lookups parent_lookup_count in
    if (missing : bool) then sret Missing
    else
      let! present := remove_expect OpCode.Remove in
      match present with
      | Some true => sret Missing
      | Some false =>
          let! _ := body skip_change_info in
          let! _ := finish in
          sret Removed
      | None =>
          let! _ := finish in
          sfail (CompoundDecodeError.from
                   (Error.protocol "compound response did not include REMOVE result"))
      end.

Definition decode_remove_compound (bytes : bytes) (parent_lookup_count : nat)
  : res CompoundDecodeError.t RemoveOutcome :=
  run bytes "REMOVE" (3 + count parent_lookup_count)
    (let! present := remove_expect OpCode.Sequence in
     match present with
     | Some true => sret Missing
     | Some false =>
         let! _ := body skip_sequence_data in
         remove_tail parent_lookup_count
     | None => remove_tail parent_lookup_count
     end).

(** ** The SEQUENCE result *)

Module SequenceResult.
Record t : Type := mk {
  highest_slotid : Z;
  target_highest_slotid : Z;
  status_flags : Z;
}.
End SequenceResult.

Definition sequence_result (expected_sessionid : bytes) (expected_sequenceid expected_slotid : Z)
  : Xdr.dec SequenceResult.t :=
  let! (compound_status, reply_count) := XdrDecoder.read_u32_skip_opaque_and_read_u32 in
  if reply_count =? 0 then
    if NfsStatus.is_ok compound_status then
      sfail (Error.protocol "successful compound response omitted its SEQUENCE result")
    else sfail (Error.nfs compound_status OpCode.Sequence)
  else
    let! (op, status_raw) := XdrDecoder.read_u32_pair in
    if negb (op =? OpCode.as_u32 OpCode.Sequence) then
      let! returned := slift (OpCode_from_u32 op) in
      sfail (Error.protocol "compound response began with {returned:?}, expected SEQUENCE")
    else if negb (NfsStatus.is_ok status_raw) then sfail (Error.nfs status_raw OpCode.Sequence)
    else
      let! sessionid := XdrDecoder.read_bytes 16 in
      let! sequenceid := XdrDecoder.read_u32 in
      let! slotid := XdrDecoder.read_u32 in
      let! highest_slotid := XdrDecoder.read_u32 in
      let! target_highest_slotid := XdrDecoder.read_u32 in
      let! status_flags := XdrDecoder.read_u32 in
      if negb (bool_decide (sessionid = expected_sessionid)) then
        sfail (Error.protocol "SEQUENCE response session ID mismatch")
      else if negb (sequenceid =? expected_sequenceid) then
        sfail (Error.protocol "SEQUENCE response sequence ID {sequenceid} did not match request {expected_sequenceid}")
      else if negb (slotid =? expected_slotid) then
        sfail (Error.protocol "SEQUENCE response slot ID {slotid} did not match request {expected_slotid}")
      else sret (SequenceResult.mk highest_slotid target_highest_slotid status_flags).

Definition decode_sequence_result (response : bytes) (expected_sessionid : bytes)
    (expected_sequenceid expected_slotid : Z) : res Error.t SequenceResult.t :=
  fst (sequence_result expected_sessionid expected_sequenceid expected_slotid response).

(** [status_flags & !SEQ4_STATUS_KNOWN]; flags are 32-bit words. *)
Definition unknown_flags (status_flags : Z) : Z :=
  Z.land status_flags (Z.lxor SEQ4_STATUS_KNOWN u32_max).

Definition validate_sequence_status_flags (status_flags : Z) (reclaim_complete : bool)
  : res Error.t unit :=
  if negb (unknown_flags status_flags =? 0) then
    Err (Error.protocol "SEQUENCE response contained unknown status flags 0x{unknown:08x}")
  else if negb (Z.land status_flags SEQ4_STATUS_STATE_LOST =? 0) then
    Err (Error.connection_lost
           "NFS server reported revoked client state (SEQUENCE flags 0x{status_flags:08x})")
  else if reclaim_complete && negb (Z.land status_flags SEQ4_STATUS_RESTART_RECLAIM_NEEDED =? 0) then
    Err (Error.connection_lost "NFS server restarted and requires state recovery")
  else if negb (Z.land status_flags SEQ4_STATUS_BACKCHANNEL_FAULT =? 0) then
    Err (Error.connection_lost "NFS server reported a fatal session backchannel fault")
  else if negb (Z.land status_flags SEQ4_STATUS_LEASE_MOVED =? 0) then
    Err (Error.Unsupported "NFS server reported migrated lease state")
  else Ok tt.

(** ** Reasoning about a walk *)

Lemma parser_conv {A} (Q : A → Prop) (m : Xdr.dec A) : parser Q m → parser Q (conv m).
Proof. apply parser_map_err. Qed.

Lemma parser_remaining : parser any (XdrDecoder.remaining).
Proof. intros b Hb. by split. Qed.

(** What the server's answer says, reply by reply: [replied b codes rest] when
    [b], the replies of a compound, begins with one reply for each operation of
    [codes], in order, all with status OK: the operation, the status and its
    result; [rest] is left. *)
Inductive replied (b : bytes) : list OpCode.t → bytes → Prop :=
| replied_none : replied b [] b
| replied_next codes op result rest :
    replied b codes (wire_u32 (OpCode.as_u32 op) ++ wire_u32 0 ++ result ++ rest) →
    replied b (codes ++ [op]) rest.

Lemma replied_start b rest : replied b [] rest → rest = b.
Proof. intros H. inversion H as [|codes op result rest' H' Hc]; [done|]. by destruct codes. Qed.

(** The next reply is the failure [st] of [op]; a server that does not know the
    operation says ILLEGAL in its place. *)
Definition failed_reply (b : bytes) (codes : list OpCode.t) (op : OpCode.t) (st : NfsStatus) (named : OpCode.t) : Prop :=
  st ≠ 0 ∧ (named = op ∨ named = OpCode.Illegal ∧ st = status.OP_ILLEGAL)
  ∧ ∃ rest, replied b codes (wire_u32 (OpCode.as_u32 named) ++ wire_u32 st ++ rest).

(** An error about an answer of [n] replies [b] under compound status [s] to a
    request for the operations [codes].  Its index, when it has one, is that of
    a reply of the answer, and the server reported OK for every operation
    before it.  Its status, when it has one, was sent: with an index, as the
    failure of the operation at that index, which is the one the error names;
    without one, as the status of the compound, after replies that are all OK,
    and the error names no operation. *)
Definition err_wf (n : Z) (s : NfsStatus) (b : bytes) (codes : list OpCode.t) (e : CompoundDecodeError.t) : Prop :=
  (∀ i, CompoundDecodeError.reply_index e = Some i → 0 ≤ i < n ∧ ∃ rest, replied b (take (Z.to_nat i) codes) rest)
  ∧ (∀ st, CompoundDecodeError.status e = Some st →
       ∃ named, CompoundDecodeError.error e = Error.nfs st named
         ∧ match CompoundDecodeError.reply_index e with
           | Some i => ∃ op, codes !! Z.to_nat i = Some op ∧ failed_reply b (take (Z.to_nat i) codes) op st named
           | None => named = OpCode.Illegal ∧ st ≠ 0 ∧ st = s ∧ ∃ rest, replied b (take (Z.to_nat n) codes) rest
           end).

Lemma err_wf_from n s b codes e : err_wf n s b codes (CompoundDecodeError.from e).
Proof. by split. Qed.

Lemma wire_u32_take b : bytes_wf b → 4 ≤ blen b → b = wire_u32 (be_value (take 4 b)) ++ drop 4 b.
Proof.
  intros Hb Hl. rewrite <- (take_drop 4 b) at 1. f_equal. unfold wire_u32.
  pose proof (be_bytes_be_value (take 4 b) (bytes_wf_take 4 b Hb)) as H.
  rewrite length_take in H. unfold blen in Hl. by replace (4 `min` length b)%nat with 4%nat in H by lia.
Qed.

(** The head of a reply, read off the wire. *)
Lemma read_u32_pair_wire b : bytes_wf b →
  match XdrDecoder.read_u32_pair b with
  | (Ok (x, y), b') => b = wire_u32 x ++ wire_u32 y ++ b' ∧ bytes_wf b'
  | (Err _, _) => True
  | (Panic, _) => False
  end.
Proof.
  intros Hb. unfold XdrDecoder.read_u32_pair, XdrDecoder.read_u32_after_require, sbind at 1, XdrDecoder.require.
  destruct (Z.ltb_spec (blen b) 8) as [|Hl]; [done|]. cbn beta iota. unfold sbind at 1. rewrite get_u32_eq by lia.
  assert (Hd : bytes_wf (drop 4 b)) by (by apply bytes_wf_drop).
  assert (Hl' : 4 ≤ blen (drop 4 b)) by (unfold blen in *; rewrite length_drop; lia).
  unfold sbind. rewrite get_u32_eq by done. split; [|by apply bytes_wf_drop].
  by rewrite <- (wire_u32_take (drop 4 b)), <- (wire_u32_take b) by (done || lia).
Qed.

(** The decoder of one reply header, for [op], on any bytes; a result that is
    not [quiet] stands for a failure that the decoder handles. *)
Definition header_ok {A} (quiet : A → Prop) (op : OpCode.t) (m : cdec A) : Prop :=
  ∀ b, bytes_wf b →
    match m b with
    | (Ok a, b') => bytes_wf b' ∧ (quiet a → b = wire_u32 (OpCode.as_u32 op) ++ wire_u32 0 ++ b')
    | (Err e, b') => CompoundDecodeError.reply_index e = None
        ∧ ∀ st, CompoundDecodeError.status e = Some st → ∃ named, CompoundDecodeError.error e = Error.nfs st named
            ∧ failed_reply b [] op st named
    | (Panic, _) => False
    end.

Lemma validate_op_cases raw s expected :
  match validate_expected_reply_op raw s expected with
  | Ok op => raw = OpCode.as_u32 op ∧ (op = expected ∨ op = OpCode.Illegal ∧ s = status.OP_ILLEGAL)
  | Err e => ∃ e', e = CompoundDecodeError.from e'
  | Panic => False
  end.
Proof.
  unfold validate_expected_reply_op. destruct (Z.eqb_spec raw (OpCode.as_u32 expected)); [by split; [|left]|].
  destruct (_ && _) eqn:Hill.
  - apply andb_prop in Hill as [Hr%Z.eqb_eq Hs%Z.eqb_eq]. split; [done|by right].
  - unfold OpCode_from_u32. destruct (OpCode.of_u32 raw); cbn; eauto.
Qed.

(** The three header decoders share their first half: what they do with the
    status they read is a result that is quiet only if the status is OK, or the
    error that carries it. *)
Lemma header_ok_common {A} (quiet : A → Prop) expected (k : Z → OpCode.t → cdec A) :
  (∀ s op, (∃ a, k s op = sret a ∧ (quiet a → s = 0))
           ∨ s ≠ 0 ∧ k s op = sfail (CompoundDecodeError.nfs s op)) →
  header_ok quiet expected (let! (op_raw, status_raw) := conv XdrDecoder.read_u32_pair in
             let! op := slift (validate_expected_reply_op op_raw status_raw expected) in
             k status_raw op).
Proof.
  intros Hk b Hb. unfold sbind at 1, conv, smap_err. pose proof (read_u32_pair_wire b Hb) as Hp.
  destruct (XdrDecoder.read_u32_pair b) as [[[raw s]|e|] b1]; cbn [map_err]; [|by split|done].
  destruct Hp as [-> Hb1]. unfold sbind, slift. pose proof (validate_op_cases raw s expected) as Hv.
  destruct (validate_expected_reply_op raw s expected) as [op|e|]; [|by destruct Hv as [e' ->]|done].
  destruct Hv as [-> Hop]. destruct (Hk s op) as [(a & -> & Ha)|[Hs ->]].
  - split; [done|]. intros ->%Ha. destruct Hop as [->|[_ Hill]]; [done|discriminate Hill].
  - split; [done|]. intros st [= <-]. exists op. split; [done|]. split; [done|]. split; [done|].
    exists b1. constructor.
Qed.

Lemma not_ok s : NfsStatus.is_ok s = false → s ≠ 0.
Proof. by intros H ->. Qed.

Lemma header_ok_expected op shape : header_ok any op (decode_expected_op op shape).
Proof.
  apply (header_ok_common any op
    (λ s o, if negb (NfsStatus.is_ok s) then sfail (CompoundDecodeError.nfs s o) else sret tt)).
  intros s o. destruct (NfsStatus.is_ok s) eqn:Hs; cbn; [left|right; by split; [apply not_ok|]].
  exists tt. split; [done|]. intros _. by apply NfsStatus.is_ok_spec.
Qed.

Lemma header_ok_or_exist op shape : header_ok (λ a, a = false) op (decode_expected_op_or_exist op shape).
Proof.
  apply (header_ok_common _ op (λ s o, if negb (NfsStatus.is_ok s)
    then if bool_decide (o = op) && (s =? NfsStatus.EXIST) then sret true else sfail (CompoundDecodeError.nfs s o)
    else sret false)).
  intros s o. destruct (NfsStatus.is_ok s) eqn:Hs; cbn.
  - left. exists false. split; [done|]. intros _. by apply NfsStatus.is_ok_spec.
  - case_match; [left; by exists true|right; by split; [apply not_ok|]].
Qed.

Lemma header_ok_remove op : header_ok (λ a, a = false) op (decode_remove_expected_op op).
Proof.
  apply (header_ok_common _ op (λ s o, if negb (NfsStatus.is_ok s)
    then if bool_decide (o = op) && (s =? NfsStatus.NOENT)
            && match op with OpCode.PutFh | OpCode.Lookup | OpCode.Remove => true | _ => false end
         then sret true else sfail (CompoundDecodeError.nfs s o)
    else sret false)).
  intros s o. destruct (NfsStatus.is_ok s) eqn:Hs; cbn.
  - left. exists false. split; [done|]. intros _. by apply NfsStatus.is_ok_spec.
  - case_match; [left; by exists true|right; by split; [apply not_ok|]].
Qed.

(** [wp m Q r]: from [r], [m] does not panic, its errors are those of the
    answer, and its result and the state it leaves satisfy [Q]. *)
Section walk.
Context (n : Z) (s : NfsStatus) (b : bytes) (codes : list OpCode.t).

(** After [k] expectations, of [n] replies [b] to [codes], under compound
    status [s]; [todo] are the operations whose replies come next. *)
Definition at_ (k : Z) (todo : list OpCode.t) (r : CompoundReplies.t) : Prop :=
  reply_count r = n ∧ CompoundReplies.status r = s ∧ decoded r = Z.min k n
  ∧ bytes_wf (CompoundReplies.dec r) ∧ 0 ≤ k ∧ drop (Z.to_nat k) codes = todo
  ∧ replied b (take (Z.to_nat (Z.min k n)) codes) (CompoundReplies.dec r).

Definition wp {A} (m : st CompoundReplies.t CompoundDecodeError.t A)
    (Q : A → CompoundReplies.t → Prop) (r : CompoundReplies.t) : Prop :=
  match m r with
  | (Ok a, r') => Q a r'
  | (Err e, _) => err_wf n s b codes e
  | (Panic, _) => False
  end.

Lemma wp_ret {A} (a : A) Q r : Q a r → wp (sret a) Q r.
Proof. done. Qed.

Lemma wp_fail {A} e (Q : A → _ → Prop) r : wp (sfail (CompoundDecodeError.from e)) Q r.
Proof. apply err_wf_from. Qed.

Lemma wp_bind {A B} (m : st CompoundReplies.t CompoundDecodeError.t A) (k : A → _ B) Q r :
  wp m (λ a r', wp (k a) Q r') r → wp (sbind m k) Q r.
Proof. unfold wp, sbind. by destruct (m r) as [[a|e|] r']. Qed.

Lemma wp_mono {A} (m : st CompoundReplies.t CompoundDecodeError.t A) (P Q : A → _ → Prop) r :
  wp m P r → (∀ a r', P a r' → Q a r') → wp m Q r.
Proof. unfold wp. destruct (m r) as [[a|e|] r']; auto. Qed.

Lemma wp_require {A} (o : option A) msg Q r : (∀ a, o = Some a → Q a r) → wp (require o msg) Q r.
Proof. intros HQ. unfold wp, require, slift. destruct o; cbn; [by apply HQ|apply err_wf_from]. Qed.

Lemma wp_lift_from {A} (x : res Error.t A) (Q : A → _ → Prop) r :
  match x with Ok a => Q a r | Err _ => True | Panic => False end →
  wp (slift (map_err CompoundDecodeError.from x)) Q r.
Proof. unfold wp, slift. destruct x; cbn; [done|intros _; apply err_wf_from|done]. Qed.

(** The bytes of a result belong to the last reply. *)
Lemma replied_result l result rest : l ≠ [] → replied b l (result ++ rest) → replied b l rest.
Proof using.
  intros Hl H. inversion H as [|l' op res ? H']; subst; [done|].
  apply (replied_next b l' op (res ++ result)). by rewrite <- app_assoc.
Qed.

Lemma wp_body {A} k todo (P : A → Prop) (m : Xdr.dec A) Q r :
  parser P m → at_ k todo r → 1 ≤ Z.min k n → codes ≠ [] → (∀ a r', at_ k todo r' → P a → Q a r') → wp (body m) Q r.
Proof using.
  intros Hm Hat Hpos Hc HQ. destruct Hat as (Hn & Hs & Hd & Hwf & Hk & Ht & Hb). unfold wp, body, conv, smap_err.
  specialize (Hm _ Hwf). destruct (m (CompoundReplies.dec r)) as [[a|e|] d]; cbn; [|apply err_wf_from|done].
  destruct Hm as [Hsuf HP]. apply HQ; [|done]. split_and!; try done; cbn; [by eapply suffix_wf|].
  destruct Hsuf as [result Hr]. rewrite Hr in Hb. eapply replied_result; [|exact Hb].
  intros Hnil%(f_equal length). rewrite length_take in Hnil. destruct codes; [done|cbn in Hnil; lia].
Qed.

(** What [advance_with] does with a failure the server reports. *)
Lemma err_wf_at k op e bs : 0 ≤ k < n → codes !! Z.to_nat k = Some op → replied b (take (Z.to_nat k) codes) bs →
  CompoundDecodeError.reply_index e = None →
  (∀ st, CompoundDecodeError.status e = Some st → ∃ named, CompoundDecodeError.error e = Error.nfs st named
     ∧ failed_reply bs [] op st named) →
  err_wf n s b codes (CompoundDecodeError.at_reply k e).
Proof using.
  intros Hk Hop Hb Hi He. split; cbn; rewrite Hi; cbn.
  - intros i [= <-]. eauto.
  - intros st Hst. destruct (He st Hst) as (nm & Her & Hne & Hnm & rest & Hr). exists nm. split; [done|].
    exists op. split; [done|]. split; [done|]. split; [done|]. exists rest. apply replied_start in Hr. by rewrite Hr.
Qed.

Lemma wp_advance_with {A} (quiet : A → Prop) op k todo (decode : string → cdec A) Q r :
  (∀ shape, header_ok quiet op (decode shape)) → at_ k (op :: todo) r →
  (∀ o r', is_some o = (k <? n) → ((∀ a, o = Some a → quiet a) → at_ (k + 1) todo r') → Q o r') →
  wp (advance_with decode) Q r.
Proof using.
  intros Hdec (Hn & Hs & Hd & Hwf & Hk & Ht & Hb) HQ. unfold wp, advance_with. rewrite Hn, Hd.
  assert (Hop : codes !! Z.to_nat k = Some op).
  { rewrite <- (Nat.add_0_r (Z.to_nat k)), <- lookup_drop, Ht. done. }
  assert (Ht' : drop (Z.to_nat (k + 1)) codes = todo).
  { replace (Z.to_nat (k + 1)) with (Z.to_nat k + 1)%nat by lia. rewrite <- drop_drop, Ht. done. }
  destruct (Z.leb_spec n (Z.min k n)).
  { apply HQ; [cbn; symmetry; apply Z.ltb_ge; lia|]. intros _. split_and!; try done; try lia.
    by replace (Z.min (k + 1) n) with (Z.min k n) by lia. }
  specialize (Hdec (shape r) _ Hwf). replace (Z.min k n) with k in * by lia.
  destruct (decode (shape r) _) as [[a|e|] d].
  - destruct Hdec as (Hd' & Hq). apply HQ; [cbn; symmetry; apply Z.ltb_lt; lia|]. intros Ha.
    split_and!; try done; cbn; [lia..|]. replace (Z.to_nat (Z.min (k + 1) n)) with (S (Z.to_nat k)) by lia.
    rewrite (take_S_r _ _ op Hop). apply (replied_next b _ op []).
    by rewrite app_nil_l, <- (Hq (Ha a eq_refl)).
  - destruct Hdec as [Hi He]. by apply (err_wf_at _ op _ (CompoundReplies.dec r)); [lia|..].
  - done.
Qed.

(** A decoder that reports a failure it handles as [true]. *)
Lemma wp_advance_flag op k todo (decode : string → cdec bool) Q r :
  (∀ shape, header_ok (λ a, a = false) op (decode shape)) → at_ k (op :: todo) r → (∀ r', k < n → Q (Some true) r') →
  (∀ o r', o ≠ Some true → at_ (k + 1) todo r' → is_some o = (k <? n) → Q o r') → wp (advance_with decode) Q r.
Proof using.
  intros Hdec Hat Ht Hf. eapply wp_advance_with; [exact Hdec|exact Hat|]. intros [[]|] r' Hs H.
  - apply Ht. symmetry in Hs. by apply Z.ltb_lt in Hs.
  - apply Hf; [done| |done]. apply H. by intros a [= <-].
  - apply Hf; [done| |done]. by apply H.
Qed.

Lemma wp_advance k op todo Q r :
  at_ k (op :: todo) r → (∀ p r', at_ (k + 1) todo r' → p = (k <? n) → Q p r') → wp (advance op) Q r.
Proof using.
  intros Hat HQ. apply wp_bind. eapply wp_advance_with; [intros; apply header_ok_expected|exact Hat|].
  intros o r' Ho Hat'. apply wp_ret. by apply HQ; [apply Hat'|].
Qed.

Lemma at_nonneg k todo r : at_ k todo r → 0 ≤ k.
Proof using. by intros (_ & _ & _ & _ & ? & _). Qed.

(** The result that follows a reply that is there. *)
Lemma wp_present {A} k todo (P : A → Prop) (m : Xdr.dec A) Q r :
  parser P m → at_ (k + 1) todo r → codes ≠ [] → k < n → 0 ≤ k →
  (∀ a r', at_ (k + 1) todo r' → P a → Q a r') → wp (body m) Q r.
Proof using. intros Hm Hat Hc Hk H0 HQ. eapply wp_body; [exact Hm|exact Hat|lia|done|exact HQ]. Qed.

Lemma at_codes k op todo r : at_ k (op :: todo) r → codes ≠ [].
Proof using. intros (_ & _ & _ & _ & _ & Ht & _) ->. by rewrite drop_nil in Ht. Qed.

Lemma wp_result {A} k op todo (P : A → Prop) (m : Xdr.dec A) Q r : parser P m → at_ k (op :: todo) r →
  (∀ o r', at_ (k + 1) todo r' → is_some o = (k <? n) → (∀ a, o = Some a → P a) → Q o r') →
  wp (result op m) Q r.
Proof using.
  intros Hm Hat HQ. apply wp_bind. eapply wp_advance; [exact Hat|]. intros p r1 H1 Hp.
  pose proof (at_nonneg _ _ _ Hat). pose proof (at_codes _ _ _ _ Hat). destruct p; cbn [negb].
  - apply wp_bind. eapply wp_present; [exact Hm|exact H1|done|by apply Z.ltb_lt|done|]. intros a r2 H2 HP. apply wp_ret.
    apply HQ; [done|done|]. by intros ? [= <-].
  - apply wp_ret. apply HQ; [done|done|]. by intros ? [=].
Qed.

(** The first operation of a request is there. *)
Context (Hcodes : codes ≠ []).

(** A reply is there when the decoder saw it. *)
Ltac present :=
  repeat match goal with
  | H : at_ _ _ _ |- _ => apply at_nonneg in H
  | H : _ = (_ <? _) |- _ => symmetry in H
  | H : (_ <? _) = is_some (Some _) |- _ => apply Z.ltb_lt in H
  | H : (_ <? _) = true |- _ => apply Z.ltb_lt in H
  | H : (_ <? _) = _ |- _ => clear H
  end; unfold count in *; lia.

Lemma wp_getfh k todo Q r : at_ k (OpCode.GetFh :: todo) r →
  (∀ o r', at_ (k + 1) todo r' → is_some o = (k <? n) → (∀ h, o = Some h → blen h ≤ NFS4_FHSIZE) → Q o r') →
  wp getfh Q r.
Proof using.
  intros Hat HQ. eapply wp_result; [apply parser_decode_file_handle|exact Hat|].
  intros o r' Ho Hs HP. apply HQ; [done|done|]. intros h Hh. by apply HP.
Qed.

Lemma wp_sequence k todo Q r : at_ k (OpCode.Sequence :: todo) r → (∀ r', at_ (k + 1) todo r' → Q tt r') → wp sequence Q r.
Proof.
  intros Hat HQ. apply wp_bind. eapply wp_advance; [exact Hat|]. intros p r1 H1 Hp. destruct p.
  - eapply wp_body; [apply parser_skip_sequence_data|exact H1|present|done|]. intros [] r2 H2 _. by apply HQ.
  - apply wp_ret. by apply HQ.
Qed.

Lemma at_beyond k k' todo r : at_ k todo r → n ≤ k → k ≤ k' → at_ k' (drop (Z.to_nat (k' - k)) todo) r.
Proof using.
  intros (Hn & Hs & Hd & Hwf & Hk & Ht & Hr) Ha Hb. split_and!; try done; [lia|lia|..].
  - rewrite <- Ht, drop_drop. f_equal. lia.
  - by replace (Z.min k' n) with (Z.min k n) by lia.
Qed.

Lemma wp_lookups c k todo Q r : at_ k (replicate c OpCode.Lookup ++ todo) r →
  (∀ r', at_ (k + count c) todo r' → Q tt r') → wp (lookups c) Q r.
Proof using.
  unfold count. induction c as [|c IH] in k, r |- *; intros Hat HQ; cbn [lookups].
  { apply wp_ret, HQ. by rewrite Z.add_0_r. }
  apply wp_bind. apply (wp_advance k _ (replicate c OpCode.Lookup ++ todo)); [exact Hat|]. intros p r1 H1 Hp.
  destruct p; cbn [negb].
  - eapply IH; [exact H1|]. intros r2 H2. apply HQ. replace (k + Z.of_nat (S c)) with (k + 1 + Z.of_nat c) by lia. done.
  - apply wp_ret, HQ. symmetry in Hp. apply Z.ltb_ge in Hp.
    pose proof (at_beyond _ (k + Z.of_nat (S c)) _ _ H1 ltac:(lia) ltac:(lia)) as H2.
    by rewrite drop_app_length' in H2 by (rewrite length_replicate; lia).
Qed.

(** The whole compound is OK, and so is each of the replies. *)
Definition finished : Prop := s = 0 ∧ ∃ rest, replied b (take (Z.to_nat n) codes) rest.

Lemma wp_finish k todo Q r : at_ k todo r → (n ≤ k → finished → Q tt r) → wp finish Q r.
Proof using.
  intros (Hn & Hs & Hd & Hwf & Hk & Ht & Hb) HQ. unfold wp, finish. rewrite Hn, Hd, Hs.
  destruct (Z.ltb_spec (Z.min k n) n); [apply err_wf_from|].
  destruct (NfsStatus.is_ok s) eqn:Hok; cbn.
  - apply HQ; [lia|]. replace (Z.min k n) with n in Hb by lia. split; [by apply NfsStatus.is_ok_spec|by eexists].
  - split; [done|]. cbn. intros st [= <-]. exists OpCode.Illegal. split; [done|]. split; [done|].
    split; [by apply not_ok|]. split; [done|]. replace (Z.min k n) with n in Hb by lia. by eexists.
Qed.

Lemma wp_open k todo Q r : at_ k (OpCode.Open :: todo) r → (∀ r', Q (Some OpenExists) r') →
  (∀ o r', o ≠ Some OpenExists → at_ (k + 1) todo r' → is_some o = (k <? n) → Q o r') → wp open_stateid_or_exists Q r.
Proof.
  intros Hat He HQ. apply wp_bind. eapply wp_advance_flag; [intros; apply header_ok_or_exist|exact Hat|..].
  - intros r1 _. by apply wp_ret.
  - intros [[]|] r1 Hne H1 Ho; [done| |].
    + apply wp_bind. eapply wp_body; [apply parser_decode_open_stateid|exact H1|present|done|]. intros st r2 H2 _.
      apply wp_ret. by apply HQ.
    + apply wp_ret. by apply HQ.
Qed.

Lemma wp_rename_publish k todo Q r : at_ k (OpCode.Rename :: todo) r →
  (∀ p r', at_ (k + 1) todo r' → p = (k <? n) → Q p r') → wp rename_publish Q r.
Proof.
  intros Hat HQ. apply wp_bind. eapply wp_advance; [exact Hat|]. intros p r1 H1 Hp. destruct p; cbn [negb].
  - apply wp_bind. eapply wp_body; [apply parser_skip_change_info|exact H1|present|done|]. intros _ r2 H2 _.
    apply wp_bind. eapply wp_body; [apply parser_skip_change_info|exact H2|present|done|]. intros _ r3 H3 _.
    apply wp_ret. by apply HQ.
  - apply wp_ret. by apply HQ.
Qed.

Lemma wp_link_remove_publish c k todo Q r :
  at_ k (OpCode.SaveFh :: OpCode.PutFh :: replicate c OpCode.Lookup ++ OpCode.Link :: OpCode.Remove :: todo) r →
  (∀ p r', at_ (k + 4 + count c) todo r' → p = (k + 3 + count c <? n) → Q p r') →
  wp (link_remove_publish c) Q r.
Proof.
  intros Hat HQ. apply wp_bind. eapply wp_advance; [exact Hat|]. intros _ r1 H1 _.
  apply wp_bind. eapply wp_advance; [exact H1|]. intros _ r2 H2 _.
  apply wp_bind. eapply wp_lookups; [exact H2|]. intros r3 H3.
  apply wp_bind. eapply wp_advance; [exact H3|]. intros linked r4 H4 Hl.
  apply wp_bind. assert (Htail : ∀ r5, at_ (k + 1 + 1 + count c + 1) (OpCode.Remove :: todo) r5 →
    wp (let! present := advance OpCode.Remove in
    if negb present then sret false else let! _ := body skip_change_info in sret true) Q r5).
  { intros r5 H5. apply wp_bind. eapply wp_advance; [exact H5|]. intros p r6 H6 Hp.
    replace (k + 1 + 1 + count c + 1 + 1) with (k + 4 + count c) in H6 by lia.
    replace (k + 1 + 1 + count c + 1) with (k + 3 + count c) in Hp by lia. destruct p; cbn [negb].
    - apply wp_bind. eapply wp_body; [apply parser_skip_change_info|exact H6|present|done|]. intros _ r7 H7 _.
      apply wp_ret. by apply HQ.
    - apply wp_ret. by apply HQ. }
  destruct linked.
  - eapply wp_body; [apply parser_skip_change_info|exact H4|present|done|]. intros _ r5 H5 _. by apply Htail.
  - apply wp_ret. by apply Htail.
Qed.

End walk.

(** A request has at least its SEQUENCE. *)
Ltac some_codes := first [done | solve [intros ?; discriminate] | solve [unfold app; intros ?; discriminate]].

Ltac present :=
  repeat match goal with
  | H : at_ _ _ _ _ _ _ _ |- _ => apply at_nonneg in H
  | H : _ = (_ <? _) |- _ => symmetry in H
  | H : (_ <? _) = is_some (Some _) |- _ => apply Z.ltb_lt in H
  | H : (_ <? _) = true |- _ => apply Z.ltb_lt in H
  | H : (_ <? _) = _ |- _ => clear H
  end; unfold count in *; lia.

(** An error says nothing about a reply or a status, or the header of the
    answer was read and the error is one about the replies that follow it. *)
Definition error_of_answer (b : bytes) (codes : list OpCode.t) (e : CompoundDecodeError.t) : Prop :=
  (CompoundDecodeError.reply_index e = None ∧ CompoundDecodeError.status e = None)
  ∨ ∃ n s b', decode_compound_header b = (Ok (s, n), b') ∧ err_wf n s b' codes e.

Lemma header_spec b : bytes_wf b →
  match decode_compound_header b with
  | (Ok (s, n), b') => bytes_wf b' ∧ is_u32 s ∧ is_u32 n ∧ n * 8 ≤ blen b'
  | (Err e, _) => ∃ e', e = CompoundDecodeError.from e'
  | (Panic, _) => False
  end.
Proof.
  intros Hb. unfold decode_compound_header, sbind at 1, conv, smap_err.
  pose proof (parser_read_u32_skip_opaque_and_read_u32 b Hb) as Hp.
  destruct (XdrDecoder.read_u32_skip_opaque_and_read_u32 b) as [[[s n]|e|] b1]; cbn; [|by eauto|done].
  destruct Hp as [Hsuf [Hs Hn]]. unfold sbind. cbn.
  destruct (Z.ltb_spec (blen b1 / 8) n); cbn; [by eauto|]. split_and!; try done.
  - by eapply suffix_wf.
  - pose proof (Z.mul_div_le (blen b1) 8 ltac:(lia)). lia.
Qed.

(** A decoder: its header, then its walk. *)
Lemma run_spec {A} b shape expected codes (walk : st CompoundReplies.t CompoundDecodeError.t A)
    (Q : Z → NfsStatus → bytes → A → Prop) :
  bytes_wf b →
  (∀ n s b' r, 0 ≤ n ≤ expected → at_ n s b' codes 0 codes r → wp n s b' codes walk (λ a _, Q n s b' a) r) →
  match run b shape expected walk with
  | Ok a => ∃ n s b', decode_compound_header b = (Ok (s, n), b') ∧ 0 ≤ n ≤ expected ∧ Q n s b' a
  | Err e => error_of_answer b codes e
  | Panic => False
  end.
Proof.
  intros Hb Hwalk. unfold run, new. pose proof (header_spec b Hb) as Hh.
  destruct (decode_compound_header b) as [[[s n]|e|] b1] eqn:Hd; cbn; [|destruct Hh as [e' ->]; by left|done].
  destruct Hh as (Hb1 & Hs & Hn & _). destruct (Z.ltb_spec expected n); cbn; [by left|].
  specialize (Hwalk n s b1 (mk b1 s n expected 0 shape) ltac:(ulia)).
  assert (Hat : at_ n s b1 codes 0 codes (mk b1 s n expected 0 shape)).
  { split_and!; try done; cbn; [ulia|]. replace (Z.min 0 n) with 0 by ulia. constructor. }
  specialize (Hwalk Hat). unfold wp in Hwalk. destruct (walk _) as [[a|e|] r']; cbn; [| |done].
  - exists n, s, b1. split; [done|]. split; [ulia|done].
  - right. by exists n, s, b1.
Qed.

(** [walk]: one step of a walk, by the rule of its head. *)
Ltac walk_step :=
  lazymatch goal with
  | |- wp _ _ _ _ (sbind _ _) _ _ => apply wp_bind
  | |- wp _ _ _ _ (sret _) _ _ => apply wp_ret
  | |- wp _ _ _ _ (sfail missing_publish_result) _ _ => apply wp_fail
  | |- wp _ _ _ _ (sfail (CompoundDecodeError.from _)) _ _ => apply wp_fail
  | |- wp _ _ _ _ (advance _) _ _ => eapply wp_advance; [eassumption|]; intros ? ? ? ?
  | |- wp _ _ _ _ sequence _ _ => eapply wp_sequence; [some_codes|eassumption|]; intros ? ?
  | |- wp _ _ _ _ (lookups _) _ _ => eapply wp_lookups; [eassumption|]; intros ? ?
  | |- wp _ _ _ _ getfh _ _ => eapply wp_getfh; [eassumption|]; intros ? ? ? ? ?
  | |- wp _ _ _ _ open_stateid_or_exists _ _ => eapply wp_open; [some_codes|eassumption|intros ?|intros ? ? ? ? ?]
  | |- wp _ _ _ _ rename_publish _ _ => eapply wp_rename_publish; [some_codes|eassumption|]; intros ? ? ? ?
  | |- wp _ _ _ _ (link_remove_publish _) _ _ => eapply wp_link_remove_publish; [some_codes|eassumption|]; intros ? ? ? ?
  | |- wp _ _ _ _ (result _ _) _ _ =>
      eapply wp_result; [solve [eauto with parser]|eassumption|]; intros ? ? ? ? ?
  | |- wp _ _ _ _ (body _) _ _ =>
      eapply wp_body; [solve [eauto with parser]|eassumption|present|some_codes|]; intros ? ? ? ?
  | |- wp _ _ _ _ finish _ _ => eapply wp_finish; [eassumption|]; intros ? ?
  | |- wp _ _ _ _ (require _ _) _ _ => apply wp_require; intros ? ?
  | |- wp _ _ _ _ (if negb ?b then _ else _) _ _ => destruct b eqn:?; cbn [negb]
  | |- wp _ _ _ _ (if ?b then _ else _) _ _ => destruct b eqn:?
  | |- wp _ _ _ _ (let _ := _ in _) _ _ => cbv zeta
  end.

Ltac walk := repeat walk_step.

(** The compounds of the client: the replies a complete response has, and
    the decoder, whose result is reduced to whether the response was complete
    ([false]: the typed early outcome, EXIST or a missing name). *)
Inductive decoder : Type :=
| D_no_result (op : OpCode.t)
| D_read
| D_read_path (lookups : nat)
| D_read_path_handle (lookups : nat)
| D_read_path_size (lookups : nat)
| D_fused_put (lookups : nat) (create_new : bool)
| D_getfh (start_op : OpCode.t) (lookups : nat)
| D_getfh_attrs (lookups : nat) (request : AttrRequest.t)
| D_open_file (lookups : nat)
| D_close (shape : CloseShape.t) (commit_verifier : option bytes)
| D_close_batch (more : nat)
| D_rename_publish (lookups : nat)
| D_link_remove_publish (lookups : nat)
| D_write
| D_write_commit
| D_readdir (max_entries : option nat)
| D_readdir_path (max_entries : option nat) (lookups : nat)
| D_readdir_path_without_handle (max_entries : option nat) (lookups : nat)
| D_create_dir (lookups : nat)
| D_create_dir_handle (lookups : nat)
| D_remove (lookups : nat).

Definition decoder_replies (d : decoder) : Z :=
  match d with
  | D_no_result _ => 2
  | D_read | D_write => 3
  | D_readdir _ => 3
  | D_write_commit => 4
  | D_read_path c | D_getfh _ c | D_readdir_path_without_handle _ c
  | D_create_dir c | D_remove c => 3 + count c
  | D_read_path_handle c | D_getfh_attrs c _ | D_open_file c | D_rename_publish c
  | D_readdir_path _ c | D_create_dir_handle c => 4 + count c
  | D_read_path_size c => 5 + count c
  | D_fused_put c create_new => fused_put_replies c create_new
  | D_close shape v => close_replies shape v
  | D_close_batch more => 1 + 2 * count (S more)
  | D_link_remove_publish c => 6 + count c
  end.

(** The operations of the request, in order, whose replies a decoder expects. *)
Definition lookup_run (c : nat) : list OpCode.t := replicate c OpCode.Lookup.

Definition link_remove_run (c : nat) : list OpCode.t :=
  OpCode.SaveFh :: OpCode.PutFh :: lookup_run c ++ [OpCode.Link; OpCode.Remove].

Definition close_shape_codes (shape : CloseShape.t) : list OpCode.t :=
  match shape with
  | CloseShape.File => []
  | CloseShape.Rename c => OpCode.PutFh :: lookup_run c ++ [OpCode.SaveFh; OpCode.Rename]
  | CloseShape.LinkRemove c => link_remove_run c
  end.

Fixpoint close_pair_codes (c : nat) : list OpCode.t :=
  match c with
  | O => []
  | S c => OpCode.PutFh :: OpCode.Close :: close_pair_codes c
  end.

Definition decoder_codes (d : decoder) : list OpCode.t :=
  OpCode.Sequence ::
  match d with
  | D_no_result op => [op]
  | D_read => [OpCode.PutFh; OpCode.Read]
  | D_read_path c => OpCode.PutFh :: lookup_run c ++ [OpCode.Read]
  | D_read_path_handle c => OpCode.PutFh :: lookup_run c ++ [OpCode.GetFh; OpCode.Read]
  | D_read_path_size c => OpCode.PutFh :: lookup_run c ++ [OpCode.GetFh; OpCode.GetAttr; OpCode.Read]
  | D_fused_put c create_new =>
      OpCode.PutFh :: lookup_run c ++ (if create_new then [] else [OpCode.SaveFh])
      ++ OpCode.Open :: OpCode.GetFh :: OpCode.Write :: OpCode.Commit :: OpCode.Verify
      :: (if create_new then link_remove_run c else [OpCode.RestoreFh; OpCode.Rename])
  | D_getfh op c => op :: lookup_run c ++ [OpCode.GetFh]
  | D_getfh_attrs c _ => OpCode.PutFh :: lookup_run c ++ [OpCode.GetFh; OpCode.GetAttr]
  | D_open_file c => OpCode.PutFh :: lookup_run c ++ [OpCode.Open; OpCode.GetFh]
  | D_close shape v =>
      OpCode.PutFh :: (if v then [OpCode.Commit] else [])
      ++ (if is_file_shape shape then [] else [OpCode.Verify])
      ++ OpCode.Close :: close_shape_codes shape
  | D_close_batch more => close_pair_codes (S more)
  | D_rename_publish c => OpCode.PutFh :: lookup_run c ++ [OpCode.SaveFh; OpCode.Rename]
  | D_link_remove_publish c => OpCode.PutFh :: link_remove_run c
  | D_write => [OpCode.PutFh; OpCode.Write]
  | D_write_commit => [OpCode.PutFh; OpCode.Write; OpCode.Commit]
  | D_readdir _ => [OpCode.PutFh; OpCode.ReadDir]
  | D_readdir_path _ c => OpCode.PutFh :: lookup_run c ++ [OpCode.GetFh; OpCode.ReadDir]
  | D_readdir_path_without_handle _ c => OpCode.PutFh :: lookup_run c ++ [OpCode.ReadDir]
  | D_create_dir c => OpCode.PutFh :: lookup_run c ++ [OpCode.Create]
  | D_create_dir_handle c => OpCode.PutFh :: lookup_run c ++ [OpCode.Create; OpCode.GetFh]
  | D_remove c => OpCode.PutFh :: lookup_run c ++ [OpCode.Remove]
  end.

Definition outcome {A} (f : A → bool) (x : res CompoundDecodeError.t A) : res CompoundDecodeError.t bool :=
  let? a := x in Ok (f a).

Definition decode (d : decoder) (b : bytes) : res CompoundDecodeError.t bool :=
  match d with
  | D_no_result op => outcome (λ _, true) (decode_no_result_compound b op)
  | D_read => outcome (λ _, true) (decode_read_compound b)
  | D_read_path c => outcome (λ _, true) (decode_read_path_compound b c)
  | D_read_path_handle c => outcome (λ _, true) (decode_read_path_handle_compound b c)
  | D_read_path_size c => outcome (λ _, true) (decode_read_path_size_compound b c)
  | D_fused_put c create_new =>
      outcome (λ o, match o with Opened _ => true | OpenExists => false end)
        (decode_fused_put_compound b c create_new)
  | D_getfh op c => outcome (λ _, true) (decode_getfh_compound b op c)
  | D_getfh_attrs c request => outcome (λ _, true) (decode_getfh_attrs_compound b c request)
  | D_open_file c =>
      outcome (λ o, match o with Opened _ => true | OpenExists => false end)
        (decode_open_file_compound b c)
  | D_close shape v => outcome (λ _, true) (decode_close_compound b shape v)
  | D_close_batch more => outcome (λ _, true) (decode_close_batch_compound b (S more))
  | D_rename_publish c => outcome (λ _, true) (decode_rename_publish_compound b c)
  | D_link_remove_publish c => outcome (λ _, true) (decode_link_remove_publish_compound b c)
  | D_write => outcome (λ _, true) (decode_write_compound b)
  | D_write_commit => outcome (λ _, true) (decode_write_commit_compound b)
  | D_readdir m => outcome (λ _, true) (decode_readdir_compound b (Z.of_nat <$> m))
  | D_readdir_path m c => outcome (λ _, true) (decode_readdir_path_compound b (Z.of_nat <$> m) c)
  | D_readdir_path_without_handle m c =>
      outcome (λ _, true) (decode_readdir_path_without_handle_compound b (Z.of_nat <$> m) c)
  | D_create_dir c =>
      outcome (λ o, match o with Created => true | CreateDirExists => false end)
        (decode_create_dir_compound b c)
  | D_create_dir_handle c =>
      outcome (λ o, match o with CreatedHandle _ => true | HandleExists => false end)
        (decode_create_dir_handle_compound b c)
  | D_remove c =>
      outcome (λ o, match o with Removed => true | Missing => false end)
        (decode_remove_compound b c)
  end.

(** What a decoder promises about a response. *)
Definition response_spec (expected : Z) (codes : list OpCode.t) (b : bytes) (x : res CompoundDecodeError.t bool)
  : Prop :=
  match x with
  | Ok complete =>
      ∃ n s b', decode_compound_header b = (Ok (s, n), b') ∧ 0 ≤ n ≤ expected
        ∧ (complete = true → n = expected ∧ s = 0 ∧ ∃ rest, replied b' (take (Z.to_nat n) codes) rest)
  | Err e => error_of_answer b codes e
  | Panic => False
  end.

(** It is enough that a complete walk saw the last expected reply. *)
Lemma response_run {A} b shape expected codes (f : A → bool) walk :
  bytes_wf b →
  (∀ n s b' r, 0 ≤ n ≤ expected → at_ n s b' codes 0 codes r →
     wp n s b' codes walk (λ a _, f a = true → finished n s b' codes ∧ expected ≤ n) r) →
  response_spec expected codes b (outcome f (run b shape expected walk)).
Proof.
  intros Hb Hw. pose proof (run_spec b shape expected codes walk
    (λ n s b' a, f a = true → finished n s b' codes ∧ expected ≤ n) Hb Hw) as H.
  unfold response_spec, outcome. destruct (run b shape expected walk) as [a|e|]; cbn; [|done|done].
  destruct H as (n & s & b' & Hh & Hn & HQ). exists n, s, b'. split_and!; [done|lia|lia|].
  intros Hf. destruct (HQ Hf). split; [lia|done].
Qed.

Lemma some_present {A} (o : option A) (a : A) k n : is_some o = (k <? n) → o = Some a → k < n.
Proof. intros H ->. symmetry in H. by apply Z.ltb_lt in H. Qed.

Lemma parser_readdir_nat (m : option nat) :
  parser (page_wf (entry_limit_of (Z.of_nat <$> m))) (decode_readdir (Z.of_nat <$> m)).
Proof. apply parser_decode_readdir. destruct m; cbn; [lia|ulia]. Qed.

Lemma parser_read_verifier : parser (λ w, bytes_wf w ∧ blen w = 8) (XdrDecoder.read_bytes 8).
Proof. by apply parser_read_bytes. Qed.

#[export] Hint Resolve parser_decode_read_data parser_decode_write_data parser_decode_fattr
  parser_readdir_nat parser_skip_stateid parser_skip_change_info parser_skip_bitmap
  parser_skip_sequence_data parser_read_verifier : parser.

(** Closes the end of a walk: the last expected reply was present. *)
Ltac walk_done :=
  intros; unfold count in *; simplify_eq/=;
  repeat match goal with
  | H : true = (_ <? _) |- _ => symmetry in H; apply Z.ltb_lt in H
  | H : (_ <? _) = true |- _ => apply Z.ltb_lt in H
  end; try (done || (split; [done|lia])).

Lemma response_simple b :
  bytes_wf b → ∀ d,
  match d with
  | D_no_result _ | D_read | D_read_path _ | D_read_path_handle _ | D_read_path_size _ | D_getfh _ _
  | D_rename_publish _ | D_link_remove_publish _ | D_write | D_write_commit | D_readdir _
  | D_readdir_path _ _ | D_readdir_path_without_handle _ _ =>
      response_spec (decoder_replies d) (decoder_codes d) b (decode d b)
  | _ => True
  end.
Proof.
  intros Hb d. destruct d; try exact I; cbn [decode decoder_replies decoder_codes];
    (apply response_run; [exact Hb|]; intros n s b' r Hn Hat; walk; walk_done).
Qed.

Lemma response_getfh_attrs b c request : bytes_wf b →
  response_spec (decoder_replies (D_getfh_attrs c request)) (decoder_codes (D_getfh_attrs c request)) b 
    (decode (D_getfh_attrs c request) b).
Proof.
  intros Hb. cbn [decode decoder_replies decoder_codes]. apply response_run; [exact Hb|]. intros n s b' r Hn Hat. walk.
  apply wp_lift_from. destruct request, o0; cbn; repeat case_match; try done; walk; walk_done.
Qed.

Lemma response_open_file b c : bytes_wf b →
  response_spec (decoder_replies (D_open_file c)) (decoder_codes (D_open_file c))
    b (decode (D_open_file c) b).
Proof.
  intros Hb. cbn [decode decoder_replies decoder_codes]. apply response_run; [exact Hb|]. intros n s b' r Hn Hat. walk.
  - walk_done.
  - match goal with H : ?o ≠ Some OpenExists |- _ => destruct o as [[]|] end; unfold open_file_tail; walk; walk_done.
Qed.

Lemma response_create_dir b c : bytes_wf b →
  response_spec (decoder_replies (D_create_dir c)) (decoder_codes (D_create_dir c))
    b (decode (D_create_dir c) b).
Proof.
  intros Hb. cbn [decode decoder_replies decoder_codes]. apply response_run; [exact Hb|]. intros n s b' r Hn Hat. walk.
  eapply wp_advance_flag; [intros; apply header_ok_or_exist|eassumption|intros; walk; walk_done|].
  intros o r1 Hne H1' Ho.
  destruct o as [[]|]; walk; walk_done.
Qed.

Lemma response_create_dir_handle b c : bytes_wf b →
  response_spec (decoder_replies (D_create_dir_handle c)) (decoder_codes (D_create_dir_handle c))
    b (decode (D_create_dir_handle c) b).
Proof.
  intros Hb. cbn [decode decoder_replies decoder_codes]. apply response_run; [exact Hb|]. intros n s b' r Hn Hat. walk.
  eapply wp_advance_flag; [intros; apply header_ok_or_exist|eassumption|intros; walk; walk_done|].
  intros o r1 Hne H1' Ho.
  destruct o as [[]|]; unfold create_dir_handle_tail; walk; walk_done.
Qed.

Lemma wp_remove_expect n s b' codes op k todo Q r : at_ n s b' codes k (op :: todo) r → (∀ r', Q (Some true) r') →
  (∀ o r', o ≠ Some true → at_ n s b' codes (k + 1) todo r' → is_some o = (k <? n) → Q o r') →
  wp n s b' codes (remove_expect op) Q r.
Proof. intros Hat Ht HQ. eapply wp_advance_flag; [intros; apply header_ok_remove|exact Hat|by intros|done]. Qed.

Lemma wp_remove_lookups n s b' codes c k todo Q r : at_ n s b' codes k (lookup_run c ++ todo) r →
  (∀ r', Q true r') → (∀ r', at_ n s b' codes (k + count c) todo r' → Q false r') →
  wp n s b' codes (remove_lookups c) Q r.
Proof.
  unfold count. induction c as [|c IH] in k, r |- *; intros Hat Ht Hf; cbn [remove_lookups].
  { apply wp_ret, Hf. by rewrite Z.add_0_r. }
  apply wp_bind. apply (wp_remove_expect _ _ _ _ _ k (lookup_run c ++ todo)); [exact Hat|intros; by apply wp_ret|].
  intros [[]|] r1 Hne H1 Ho; [done|..].
  - eapply IH; [exact H1|done|]. intros r2 H2. apply Hf.
    replace (k + Z.of_nat (S c)) with (k + 1 + Z.of_nat c) by lia. done.
  - apply wp_ret, Hf. symmetry in Ho. apply Z.ltb_ge in Ho.
    pose proof (at_beyond _ _ _ _ _ (k + Z.of_nat (S c)) _ _ H1 ltac:(lia) ltac:(lia)) as H2. unfold lookup_run in H2.
    by rewrite drop_app_length' in H2 by (rewrite length_replicate; lia).
Qed.

Lemma wp_remove_tail n s b' codes c r : at_ n s b' codes 1 (OpCode.PutFh :: lookup_run c ++ [OpCode.Remove]) r →
  codes ≠ [] →
  wp n s b' codes (remove_tail c) (λ o _, match o with Removed => finished n s b' codes ∧ 3 + count c ≤ n | Missing => True end) r.
Proof.
  intros Hat Hc. apply wp_bind. eapply wp_remove_expect; [exact Hat|intros; by apply wp_ret|]. intros o1 r1 Hne H1 _.
  rewrite bool_decide_eq_false_2 by done. apply wp_bind.
  eapply wp_remove_lookups; [exact H1|intros; by apply wp_ret|]. intros r2 H2.
  apply wp_bind. eapply wp_remove_expect; [exact H2|intros; by apply wp_ret|].
  intros [[]|] r3 Hne' H3 Ho; [done|..]; walk; walk_done.
Qed.

Lemma response_remove b c : bytes_wf b →
  response_spec (decoder_replies (D_remove c)) (decoder_codes (D_remove c))
    b (decode (D_remove c) b).
Proof.
  intros Hb. cbn [decode decoder_replies decoder_codes]. apply response_run; [exact Hb|]. intros n s b' r Hn Hat.
  apply wp_bind. eapply wp_remove_expect; [exact Hat|intros; by apply wp_ret|]. intros [[]|] r1 Hne H1 Ho; [done|..].
  - apply wp_bind. eapply wp_body; [apply parser_skip_sequence_data|exact H1|present|done|]. intros _ r2 H2 _.
    eapply wp_mono; [by apply wp_remove_tail|]. by intros [] ? ?.
  - eapply wp_mono; [by apply wp_remove_tail|]. by intros [] ? ?.
Qed.

Lemma ensure_write_verifier_total a c :
  match ensure_write_verifier a c with Ok _ => c = a | Err _ => True | Panic => False end.
Proof. unfold ensure_write_verifier. by case_bool_decide. Qed.

Lemma wp_close_commit n s b' codes (v : option bytes) k todo Q r : codes ≠ [] →
  at_ n s b' codes k ((if v then [OpCode.Commit] else []) ++ todo) r →
  (∀ r', at_ n s b' codes (k + Z.b2z (is_some v)) todo r' → Q tt r') → wp n s b' codes (close_commit v) Q r.
Proof.
  intros Hc Hat HQ. destruct v as [v|]; cbn [close_commit is_some Z.b2z] in *.
  - walk; [|by apply HQ]. apply wp_lift_from. pose proof (ensure_write_verifier_total v a) as Ht.
    destruct (ensure_write_verifier v a) as [[]| |]; [|done|done]. by apply HQ.
  - apply wp_ret, HQ. by rewrite Z.add_0_r.
Qed.

Lemma wp_close_publish n s b' codes shape saw_close k Q r : codes ≠ [] →
  at_ n s b' codes k (close_shape_codes shape) r → saw_close = (k - 1 <? n) →
  (∀ p r', at_ n s b' codes (k + CloseShape.reply_count shape - 3 - Z.b2z (negb (is_file_shape shape))) [] r' →
     p = (k + CloseShape.reply_count shape - 4 - Z.b2z (negb (is_file_shape shape)) <? n) → Q p r') →
  wp n s b' codes (close_publish shape saw_close) Q r.
Proof.
  intros Hc Hat Hsaw HQ. destruct shape as [|c|c]; cbn in HQ; cbn [close_publish].
  - apply wp_ret. apply HQ; [by replace (k + 3 - 3 - 0) with k by lia|]. subst saw_close. f_equal. lia.
  - walk. apply HQ; [|subst; f_equal; lia].
    by replace (k + (7 + count c) - 3 - 1) with (k + 1 + count c + 1 + 1) by lia.
  - walk. apply HQ; [|subst; f_equal; lia].
    by replace (k + (8 + count c) - 3 - 1) with (k + 4 + count c) by lia.
Qed.

Lemma response_close b shape v : bytes_wf b →
  response_spec (decoder_replies (D_close shape v)) (decoder_codes (D_close shape v))
    b (decode (D_close shape v) b).
Proof.
  intros Hb. cbn [decode decoder_replies decoder_codes]. apply response_run; [exact Hb|]. intros n s b' r Hn Hat.
  match type of Hat with at_ _ _ _ ?l _ _ _ => set (codes := l) in * end.
  apply wp_bind. eapply wp_sequence; [done|exact Hat|]. intros r1 H1.
  apply wp_bind. eapply wp_advance; [exact H1|]. intros p2 r2 H2 _.
  apply wp_bind. eapply wp_close_commit; [done|exact H2|]. intros r3 H3.
  set (k3 := 0 + 1 + 1 + Z.b2z (is_some v)) in *.
  assert (Htail : ∀ r4, at_ n s b' codes (k3 + Z.b2z (negb (is_file_shape shape))) (OpCode.Close :: close_shape_codes shape) r4 →
    wp n s b' codes (let! saw_close := advance OpCode.Close in
      let! _ := if saw_close then body skip_stateid else sret tt in
      let! published := close_publish shape saw_close in
      let! _ := finish in
      if negb saw_close then
        sfail (CompoundDecodeError.from (Error.protocol "compound response did not include CLOSE result"))
      else if negb published then sfail missing_publish_result else sret tt)
     (λ _ _, true = true → finished n s b' codes ∧ close_replies shape v ≤ n) r4).
  { intros r4 H4. apply wp_bind. eapply wp_advance; [exact H4|]. intros saw r5 H5 Hsaw.
    assert (Hpub : ∀ r6, at_ n s b' codes (k3 + Z.b2z (negb (is_file_shape shape)) + 1) (close_shape_codes shape) r6 →
      wp n s b' codes (let! published := close_publish shape saw in let! _ := finish in
        if negb saw then
          sfail (CompoundDecodeError.from (Error.protocol "compound response did not include CLOSE result"))
        else if negb published then sfail missing_publish_result else sret tt)
       (λ _ _, true = true → finished n s b' codes ∧ close_replies shape v ≤ n) r6).
    { intros r6 H6. apply wp_bind. eapply wp_close_publish; [done|exact H6|rewrite Hsaw; f_equal; lia|].
      intros p r7 H7 Hp. walk. intros _. split; [done|]. unfold close_replies.
      symmetry in Hp. apply Z.ltb_lt in Hp. subst k3. destruct shape; cbn in *; lia. }
    apply wp_bind. destruct saw; [eapply wp_body; [apply parser_skip_stateid|exact H5|present|done|]; intros _ r6 H6 _|apply wp_ret];
      by apply Hpub. }
  apply wp_bind. destruct (is_file_shape shape); cbn [negb Z.b2z] in *.
  - apply wp_ret. apply Htail. by rewrite Z.add_0_r.
  - apply wp_bind. eapply wp_advance; [exact H3|]. intros p4 r4 H4 _. apply wp_ret. by apply Htail.
Qed.

(** Of [c] PUTFH+CLOSE pairs from expectation [k] on, all are counted only
    when the last reply was there. *)
Lemma wp_close_batch_loop n s b' codes c d k Q r : codes ≠ [] → at_ n s b' codes k (close_pair_codes c) r →
  (∀ d' r', at_ n s b' codes (k + 2 * count c) [] r' → d' ≤ d + count c →
     ((0 < count c) → d' = d + count c → k + 2 * count c ≤ n) → Q d' r') →
  wp n s b' codes (close_batch_loop c d) Q r.
Proof.
  unfold count. induction c as [|c IH] in d, k, r |- *; intros Hc Hat HQ; cbn [close_batch_loop].
  { apply wp_ret. apply HQ; [by rewrite Z.mul_0_r, Z.add_0_r|lia|lia]. }
  apply wp_bind. eapply wp_advance; [exact Hat|]. intros _ r1 H1 _.
  apply wp_bind. eapply wp_advance; [exact H1|]. intros closed r2 H2 Hcl.
  assert (Hnext : ∀ d1 r3, at_ n s b' codes (k + 1 + 1) (close_pair_codes c) r3 → d ≤ d1 ≤ d + 1 → (d1 = d + 1 → k + 2 ≤ n) →
    wp n s b' codes (close_batch_loop c d1) Q r3).
  { intros d1 r3 H3 Hd1 Hn. eapply IH; [done|exact H3|]. intros d' r' H' Hle Hlast. apply HQ; [|lia|].
    - by replace (k + 2 * Z.of_nat (S c)) with (k + 1 + 1 + 2 * Z.of_nat c) by lia.
    - intros _ Hd'. destruct (decide (c = 0%nat)) as [->|]; [lia|]. specialize (Hlast ltac:(lia) ltac:(lia)). lia. }
  destruct closed.
  - apply wp_bind. eapply wp_body; [apply parser_skip_stateid|exact H2|present|done|]. intros _ r3 H3 _.
    apply Hnext; [done|lia|]. intros _. symmetry in Hcl. apply Z.ltb_lt in Hcl. lia.
  - apply Hnext; [done|lia|lia].
Qed.

Lemma response_close_batch b m : bytes_wf b → count (S m) ≤ u32_max →
  response_spec (decoder_replies (D_close_batch m)) (decoder_codes (D_close_batch m))
    b (decode (D_close_batch m) b).
Proof.
  intros Hb Hm. cbn [decode decoder_replies decoder_codes]. unfold decode_close_batch_compound. cbv zeta.
  assert (Hexp : saturating_add 1 (saturating_mul (count (S m)) 2) = 1 + 2 * count (S m))
    by (unfold count in *; ulia).
  rewrite Hexp. apply response_run; [exact Hb|]. intros n s b' r Hn Hat.
  apply wp_bind. eapply wp_sequence; [done|exact Hat|]. intros r1 H1.
  apply wp_bind. eapply wp_close_batch_loop; [done|exact H1|]. intros d r2 H2 Hd Hlast.
  apply wp_bind. eapply wp_finish; [exact H2|]. intros _ Hs.
  destruct (Z.eqb_spec d (count (S m))); cbn [negb]; [|apply wp_fail]. apply wp_ret. intros _.
  split; [done|]. unfold count in *. lia.
Qed.

Lemma wp_fused_commit n s b' codes w k todo Q r : codes ≠ [] → at_ n s b' codes k (OpCode.Commit :: todo) r →
  (∀ r', at_ n s b' codes (k + 1) todo r' → Q tt r') → wp n s b' codes (fused_commit w) Q r.
Proof.
  intros Hc Hat HQ. unfold fused_commit. walk; try by apply HQ. apply wp_lift_from.
  match goal with |- match ensure_write_verifier ?x ?y with _ => _ end =>
    pose proof (ensure_write_verifier_total x y) as Ht; destruct (ensure_write_verifier x y) as [[]| |] end;
    [by apply HQ|done|done].
Qed.

(** What follows the OPEN. *)
Definition fused_tail_codes (c : nat) (create_new : bool) : list OpCode.t :=
  OpCode.GetFh :: OpCode.Write :: OpCode.Commit :: OpCode.Verify
  :: (if create_new then link_remove_run c else [OpCode.RestoreFh; OpCode.Rename]).

Lemma wp_fused_put_tail n s b' codes c create_new stateid k r : codes ≠ [] →
  at_ n s b' codes k (fused_tail_codes c create_new) r →
  wp n s b' codes (fused_put_tail c create_new stateid)
    (λ o _, match o with
            | Opened (_, fh, _) =>
                finished n s b' codes ∧ k + (if create_new then 8 + count c else 6) ≤ n ∧ blen fh ≤ NFS4_FHSIZE
            | OpenExists => False
            end) r.
Proof.
  intros Hc Hat. apply wp_bind. eapply wp_getfh; [exact Hat|]. intros fh r1 H1 Hfh Hlen.
  apply wp_bind. eapply wp_result; [apply parser_decode_write_data|exact H1|]. intros w r2 H2 Hw _.
  apply wp_bind. eapply wp_fused_commit; [done|exact H2|]. intros r3 H3.
  apply wp_bind. eapply wp_advance; [exact H3|]. intros _ r4 H4 _. apply wp_bind. destruct create_new; walk.
  all: split_and!; [done| |by apply Hlen].
  all: match goal with H : true = (_ <? _) |- _ => symmetry in H; apply Z.ltb_lt in H end; lia.
Qed.

Lemma response_fused_put b c create_new : bytes_wf b →
  response_spec (decoder_replies (D_fused_put c create_new)) (decoder_codes (D_fused_put c create_new))
    b (decode (D_fused_put c create_new) b).
Proof.
  intros Hb. cbn [decode decoder_replies decoder_codes]. apply response_run; [exact Hb|]. intros n s b' r Hn Hat.
  match type of Hat with at_ _ _ _ ?l _ _ _ => set (codes := l) in * end.
  apply wp_bind. eapply wp_sequence; [done|exact Hat|]. intros r1 H1.
  apply wp_bind. eapply wp_advance; [exact H1|]. intros _ r2 H2 _.
  apply wp_bind. eapply wp_lookups; [exact H2|]. intros r3 H3. apply wp_bind.
  assert (Htail : ∀ r4, at_ n s b' codes (2 + count c + Z.b2z (negb create_new)) (OpCode.Open :: fused_tail_codes c create_new) r4 →
    wp n s b' codes (let! opened := open_stateid_or_exists in
          match opened with
          | Some OpenExists => sret OpenExists
          | Some (Opened stateid) => fused_put_tail c create_new (Some stateid)
          | None => fused_put_tail c create_new None
          end)
      (λ o _, (match o with Opened _ => true | OpenExists => false end) = true →
         finished n s b' codes ∧ fused_put_replies c create_new ≤ n) r4).
  { intros r4 H4. apply wp_bind. eapply wp_open; [done|exact H4|intros; by apply wp_ret|]. intros o r5 Hne H5 _.
    assert (Hput : ∀ stateid, wp n s b' codes (fused_put_tail c create_new stateid)
      (λ o _, (match o with Opened _ => true | OpenExists => false end) = true →
         finished n s b' codes ∧ fused_put_replies c create_new ≤ n) r5).
    { intros stateid. eapply wp_mono; [by apply wp_fused_put_tail|].
      intros [[[st fh] w]|] ? Ho; [|done]. intros _. destruct Ho as (? & Hk & _). split; [done|].
      unfold fused_put_replies. destruct create_new; cbn in *; lia. }
    destruct o as [[]|]; [apply Hput|done|apply Hput]. }
  destruct create_new; cbn [negb Z.b2z] in *.
  - apply wp_ret, Htail. by replace (2 + count c + 0) with (0 + 1 + 1 + count c) by lia.
  - apply wp_bind. eapply wp_advance; [exact H3|]. intros _ r4 H4 _. apply wp_ret, Htail.
    by replace (2 + count c + 1) with (0 + 1 + 1 + count c + 1) by lia.
Qed.

Lemma response_any (d : decoder) (b : bytes) :
  bytes_wf b → (∀ m, d = D_close_batch m → count (S m) ≤ u32_max) → response_spec (decoder_replies d) (decoder_codes d) b (decode d b).
Proof.
  intros Hb Hm. pose proof (response_simple b Hb d) as Hsimple. destruct d; try exact Hsimple.
  - by apply response_fused_put.
  - by apply response_getfh_attrs.
  - by apply response_open_file.
  - by apply response_close.
  - by apply response_close_batch; [|apply Hm].
  - by apply response_create_dir.
  - by apply response_create_dir_handle.
  - by apply response_remove.
Qed.

Lemma length_lookup_run c : length (lookup_run c) = c.
Proof. apply length_replicate. Qed.

Lemma decoder_codes_count d : blen (decoder_codes d) = decoder_replies d.
Proof.
  assert (Hp : ∀ c, length (close_pair_codes c) = (2 * c)%nat).
  { induction c as [|c IH]; [done|]. cbn [close_pair_codes length]. rewrite IH. lia. }
  destruct d as [op| |c|c|c|c cn|op c|c r|c|sh v|m|c|c| | |o|o c|o c|c|c|c]; try destruct cn; try destruct v;
    try destruct sh; unfold decoder_codes; cbn [decoder_replies is_file_shape close_shape_codes];
    unfold close_replies, fused_put_replies, link_remove_run, blen, count; cbn [length];
    repeat (rewrite ?length_app, ?length_lookup_run, ?Hp; cbn [length app CloseShape.reply_count is_some Z.b2z]);
    unfold count; lia.
Qed.

(** C17: Every compound decoder, on whatever bytes the server sends, returns
    without a panic.  A complete result is only returned when the compound
    status is OK and all expected replies are there, the last one included
    (so a fused put or a close that reports success was published), one reply
    with status OK for every operation of the request, in order.  The reply
    index of an error is that of a reply in the bytes, and the replies before
    it are those of the operations of the request before that one, in order and
    with status OK; the status of an error stands in the bytes: at that reply,
    for the operation of the request at that index, which the error names (or
    ILLEGAL), or, when all replies are OK, as the status of the compound, and
    then the error names none.  Anything else is the typed early
    outcome (EXIST, or a missing name for REMOVE). *)
Theorem decoders_sound (d : decoder) (b : bytes) :
  bytes_wf b →
  (∀ m, d = D_close_batch m → count (S m) ≤ u32_max) →
  match decode d b with
  | Ok complete =>
      ∃ n s b', decode_compound_header b = (Ok (s, n), b') ∧ 0 ≤ n ≤ decoder_replies d
        ∧ (complete = true → n = decoder_replies d ∧ s = 0 ∧ ∃ rest, replied b' (decoder_codes d) rest)
  | Err e => error_of_answer b (decoder_codes d) e
  | Panic => False
  end.
Proof.
  intros Hb Hm. pose proof (response_any d b Hb Hm) as H. unfold response_spec in H.
  destruct (decode d b) as [complete|e|]; [|done..]. destruct H as (n & s & b' & Hh & Hn & Hc).
  exists n, s, b'. split; [done|]. split; [done|]. intros Hcomplete. destruct (Hc Hcomplete) as (He & Hs & Hr).
  rewrite He, <- (decoder_codes_count d) in Hr. unfold blen in Hr. by rewrite Nat2Z.id, firstn_all in Hr.
Qed.

(** A READ response that fails: header, SEQUENCE, PUTFH with a stale handle. *)
Definition sample_read_response : bytes :=
  (wire_u32 70 ++ wire_opaque [] ++ wire_u32 2)
  ++ wire_u32 53 ++ wire_u32 0 ++ replicate 36 0
  ++ wire_u32 22 ++ wire_u32 70.

Lemma decoders_sound_witness :
  ∃ e, decode D_read sample_read_response = Err e ∧ CompoundDecodeError.reply_index e = Some 1
    ∧ CompoundDecodeError.status e = Some 70 ∧ error_of_answer sample_read_response [OpCode.Sequence; OpCode.PutFh; OpCode.Read] e.
Proof.
  eexists. split; [vm_compute; reflexivity|]. split; [reflexivity|]. split; [reflexivity|].
  assert (Hb : bytes_wf sample_read_response) by (vm_compute; repeat constructor; discriminate).
  exact (decoders_sound D_read sample_read_response Hb ltac:(discriminate)).
Defined.

(** ** What an answer says about the operations of a request *)

(** The answer [b] to a request for [ops], which goes out behind a SEQUENCE,
    says that the server carried out [ran], the first of them, and failed what
    came next with the status [st]. *)
Inductive answer_stops (b : bytes) (ops : list NfsOp.t) : list NfsOp.t → NfsStatus → Prop :=
| stops_at_sequence n s b' st named :
    decode_compound_header b = (Ok (s, n), b') → failed_reply b' [] OpCode.Sequence st named →
    answer_stops b ops [] st
| stops_at_op n s b' ran op rest st named :
    decode_compound_header b = (Ok (s, n), b') → ops = ran ++ op :: rest →
    failed_reply b' (OpCode.Sequence :: (NfsOp.opcode <$> ran)) (NfsOp.opcode op) st named →
    answer_stops b ops ran st.

(** The replies a request for [ops] asks for. *)
Definition request_codes (ops : list NfsOp.t) : list OpCode.t := OpCode.Sequence :: (NfsOp.opcode <$> ops).

(** The answer [b] says that the server carried out all of [ops]. *)
Definition answer_whole (b : bytes) (ops : list NfsOp.t) : Prop :=
  ∃ n b' rest, decode_compound_header b = (Ok (0, n), b') ∧ replied b' (request_codes ops) rest.

Lemma decoder_whole d b ops : bytes_wf b → (∀ m, d = D_close_batch m → count (S m) ≤ u32_max) →
  decoder_codes d = request_codes ops → decode d b = Ok true → answer_whole b ops.
Proof.
  intros Hb Hm Hops Hd. pose proof (response_any d b Hb Hm) as H. rewrite Hd in H.
  destruct H as (n & s & b' & Hh & Hn & Hc). destruct (Hc eq_refl) as (He & -> & rest & Hr).
  exists n, b', rest. split; [done|]. rewrite <- Hops.
  rewrite He, <- (decoder_codes_count d) in Hr. unfold blen in Hr. by rewrite Nat2Z.id, firstn_all in Hr.
Qed.

(** The promise of [decoders_sound] about errors, for a decoder of the answers
    to [ops]. *)
Definition tells_errors {A} (ops : list NfsOp.t) (decode : bytes → res CompoundDecodeError.t A) : Prop :=
  ∀ b, bytes_wf b →
    match decode b with Ok _ => True | Err e => error_of_answer b (request_codes ops) e | Panic => False end.

Lemma decoder_tells d {A} (f : A → bool) (dec : bytes → res CompoundDecodeError.t A) ops :
  (∀ m, d = D_close_batch m → count (S m) ≤ u32_max) → (∀ b, decode d b = outcome f (dec b)) →
  decoder_codes d = request_codes ops → tells_errors ops dec.
Proof.
  intros Hm Hd Hc b Hb. pose proof (response_any d b Hb Hm) as H. rewrite Hd, Hc in H. by destruct (dec b).
Qed.

Lemma error_answer_stops b e st i ops : error_of_answer b (request_codes ops) e →
  CompoundDecodeError.status e = Some st → CompoundDecodeError.reply_index e = Some i →
  answer_stops b ops (take (Z.to_nat (saturating_sub i 1)) ops) st.
Proof.
  intros [[Hi _]|(n & s & b' & Hh & He1 & He2)] Hst Hix; [congruence|].
  destruct (He1 i Hix) as [Hi _]. destruct (He2 st Hst) as (named & _ & Hr). rewrite Hix in Hr.
  destruct Hr as (op & Hop & Hr). unfold request_codes in *.
  destruct (Z.to_nat i) as [|j] eqn:Hj; cbn in Hop, Hr.
  - injection Hop as <-. replace (Z.to_nat (saturating_sub i 1)) with 0%nat by (unfold saturating_sub; lia).
    by eapply stops_at_sequence.
  - apply list_lookup_fmap_Some in Hop as (nop & -> & Hnop). rewrite <- fmap_take in Hr.
    replace (Z.to_nat (saturating_sub i 1)) with j by (unfold saturating_sub; lia).
    eapply (stops_at_op b ops n s b' _ nop (drop (S j) ops)); [done|by rewrite take_drop_middle|exact Hr].
Qed.

(** ** Responses as a server sends them

    [rreads m inp k a]: with at least [k] replies left, [m] consumes [inp]
    and [k] replies and returns [a]. *)

Definition adv (k : Z) (d : bytes) (r : CompoundReplies.t) : CompoundReplies.t :=
  mk d (CompoundReplies.status r) (reply_count r) (expected_replies r) (decoded r + k) (shape r).

Definition rreads {A} (m : st CompoundReplies.t CompoundDecodeError.t A) (inp : bytes) (k : Z) (a : A) : Prop :=
  ∀ r rest, CompoundReplies.dec r = inp ++ rest → 0 ≤ k → decoded r + k ≤ reply_count r →
    m r = (Ok a, adv k rest r).

Lemma rreads_ret {A} (a : A) : rreads (sret a) [] 0 a.
Proof. intros [d s n e c sh] rest H _ _. cbn in *. subst d. unfold sret, adv. cbn. by rewrite Z.add_0_r. Qed.

Lemma rreads_bind {A B} (m : st CompoundReplies.t CompoundDecodeError.t A) (f : A → _ B) i1 i2 k1 k2 a c :
  0 ≤ k1 → 0 ≤ k2 → rreads m i1 k1 a → rreads (f a) i2 k2 c → rreads (sbind m f) (i1 ++ i2) (k1 + k2) c.
Proof.
  intros Hk1 Hk2 Hm Hf r rest Hd Hk Hc. unfold sbind. rewrite <- app_assoc in Hd.
  rewrite (Hm r (i2 ++ rest)) by (done || lia). rewrite (Hf _ rest); [|done|lia|cbn; lia].
  unfold adv. cbn. by rewrite Z.add_assoc.
Qed.

Lemma rreads_body {A} (m : Xdr.dec A) inp a : reads m inp a → rreads (body m) inp 0 a.
Proof.
  intros Hm r rest Hd _ _. unfold body, conv, smap_err. rewrite Hd, Hm. cbn. unfold adv, set_dec.
  by rewrite Z.add_0_r.
Qed.

(** A reply header with status OK. *)
Definition ok_reply (op : OpCode.t) : bytes := wire_u32 (OpCode.as_u32 op) ++ wire_u32 0.

Lemma header_reads op s rest : is_u32 s →
  conv XdrDecoder.read_u32_pair ((wire_u32 (OpCode.as_u32 op) ++ wire_u32 s) ++ rest)
  = (Ok (OpCode.as_u32 op, s), rest).
Proof.
  intros Hs. unfold conv, smap_err. by rewrite reads_u32_pair by (done || apply OpCode.as_u32_range).
Qed.

Lemma validate_same op s : validate_expected_reply_op (OpCode.as_u32 op) s op = Ok op.
Proof. unfold validate_expected_reply_op. by rewrite Z.eqb_refl. Qed.

Lemma rreads_advance op : rreads (advance op) (ok_reply op) 1 true.
Proof.
  intros r rest Hd _ Hc. unfold advance, sbind at 1, advance_with.
  destruct (Z.leb_spec (reply_count r) (decoded r)); [lia|].
  unfold decode_expected_op, sbind at 1. rewrite Hd. unfold ok_reply. rewrite header_reads by done.
  unfold sbind, slift. rewrite validate_same. done.
Qed.

Lemma rreads_sequence d : blen d = SEQUENCE_RESULT_LEN →
  rreads sequence (ok_reply OpCode.Sequence ++ d) 1 tt.
Proof.
  intros Hd. change 1 with (1 + 0). eapply rreads_bind; [lia|lia|apply rreads_advance|].
  apply rreads_body. apply reads_require; [lia|]. by apply reads_advance.
Qed.

Lemma rreads_result {A} op (m : Xdr.dec A) inp a : reads m inp a →
  rreads (result op m) (ok_reply op ++ inp) 1 (Some a).
Proof.
  intros Hm. change 1 with (1 + 0). eapply rreads_bind; [lia|lia|apply rreads_advance|]. cbn [negb].
  change 0 with (0 + 0). rewrite <- (app_nil_r inp).
  eapply rreads_bind; [lia|lia|by apply rreads_body|apply rreads_ret].
Qed.

Lemma rreads_lookups c :
  rreads (lookups c) (mjoin (replicate c (ok_reply OpCode.Lookup))) (count c) tt.
Proof.
  unfold count. induction c as [|c IH]; [apply rreads_ret|]. cbn [replicate lookups]. rewrite mjoin_cons.
  replace (Z.of_nat (S c)) with (1 + Z.of_nat c) by lia.
  eapply rreads_bind; [lia|lia|apply rreads_advance|exact IH].
Qed.

(** change_info4: a flag and two 64-bit counters. *)
Definition wire_change_info (atomic : bool) (before after : Z) : bytes :=
  wire_bool atomic ++ wire_u64 before ++ wire_u64 after.

Lemma reads_skip_change_info at_ b a : reads skip_change_info (wire_change_info at_ b a) tt.
Proof.
  unfold skip_change_info, XdrDecoder.read_bool_and_skip, wire_change_info. intros rest.
  rewrite sbind_assoc. revert rest. apply (reads_bind_lift _ _ _ 20); [reflexivity|]. intros rest.
  rewrite sbind_assoc. revert rest. apply reads_require; [autorewrite with wire; lia|].
  intros rest. rewrite sbind_assoc. revert rest.
  eapply reads_bind; [apply reads_get_u32, b2z_u32|]. intros rest. rewrite sbind_assoc. revert rest.
  eapply reads_bind_lift; [apply decode_bool_b2z|]. intros rest. rewrite sbind_assoc. revert rest.
  rewrite <- (app_nil_r (wire_u64 b ++ wire_u64 a)).
  eapply reads_bind; [apply reads_advance; by autorewrite with wire|]. intros rest. done.
Qed.

Lemma rreads_rename_publish a1 b1 c1 a2 b2 c2 :
  rreads rename_publish
    (ok_reply OpCode.Rename ++ wire_change_info a1 b1 c1 ++ wire_change_info a2 b2 c2) 1 true.
Proof.
  change 1 with (1 + 0). eapply rreads_bind; [lia|lia|apply rreads_advance|]. cbn [negb].
  change 0 with (0 + 0). eapply rreads_bind; [lia|lia|apply rreads_body, reads_skip_change_info|].
  change 0 with (0 + 0). rewrite <- (app_nil_r (wire_change_info a2 b2 c2)).
  eapply rreads_bind; [lia|lia|apply rreads_body, reads_skip_change_info|apply rreads_ret].
Qed.

Lemma rreads_link_remove_publish c a1 b1 c1 a2 b2 c2 :
  rreads (link_remove_publish c)
    (ok_reply OpCode.SaveFh ++ ok_reply OpCode.PutFh ++ mjoin (replicate c (ok_reply OpCode.Lookup))
     ++ ok_reply OpCode.Link ++ wire_change_info a1 b1 c1
     ++ ok_reply OpCode.Remove ++ wire_change_info a2 b2 c2) (4 + count c) true.
Proof.
  replace (4 + count c) with (1 + (1 + (count c + (1 + (0 + (1 + (0 + 0))))))) by lia.
  assert (0 ≤ count c) by (unfold count; lia).
  eapply rreads_bind; [lia|lia|apply rreads_advance|].
  eapply rreads_bind; [lia|lia|apply rreads_advance|].
  eapply rreads_bind; [lia|lia|apply rreads_lookups|].
  eapply rreads_bind; [lia|lia|apply rreads_advance|].
  eapply rreads_bind; [lia|lia|apply rreads_body, reads_skip_change_info|].
  eapply rreads_bind; [lia|lia|apply rreads_advance|]. cbn [negb].
  rewrite <- (app_nil_r (wire_change_info a2 b2 c2)).
  eapply rreads_bind; [lia|lia|apply rreads_body, reads_skip_change_info|apply rreads_ret].
Qed.

(** The whole response. *)
Definition wire_response (s : NfsStatus) (tag : bytes) (n : Z) (replies : bytes) : bytes :=
  (wire_u32 s ++ wire_opaque tag ++ wire_u32 n) ++ replies.

Lemma run_response {A} s tag n replies shape expected (walk : st CompoundReplies.t CompoundDecodeError.t A) :
  is_u32 s → is_u32 n → blen tag ≤ u32_max → n ≤ expected → n * 8 ≤ blen replies →
  run (wire_response s tag n replies) shape expected walk = fst (walk (mk replies s n expected 0 shape)).
Proof.
  intros Hs Hn Ht Hle Hlen. unfold run, new, decode_compound_header, wire_response.
  unfold sbind at 1, conv, smap_err. rewrite reads_u32_skip_opaque_and_read_u32 by done. cbn.
  unfold sbind. cbn. destruct (Z.ltb_spec (blen replies / 8) n) as [Hlt|_].
  { assert (n ≤ blen replies / 8) by (apply Z.div_le_lower_bound; lia). lia. }
  cbn. destruct (Z.ltb_spec expected n); [lia|done].
Qed.

(** [rends m inp k x]: on the last [k] replies, whose bytes are [inp], of a
    compound with status OK, [m] ends with [x]. *)
Definition rends {A} (m : st CompoundReplies.t CompoundDecodeError.t A) (inp : bytes) (k : Z)
    (x : res CompoundDecodeError.t A) : Prop :=
  ∀ r, CompoundReplies.dec r = inp → 0 ≤ k → decoded r + k = reply_count r →
    CompoundReplies.status r = 0 → fst (m r) = x.

Lemma rends_bind {A B} (m : st CompoundReplies.t CompoundDecodeError.t A) (f : A → _ B) i1 i2 k1 k2 a x :
  0 ≤ k1 → 0 ≤ k2 → rreads m i1 k1 a → rends (f a) i2 k2 x → rends (sbind m f) (i1 ++ i2) (k1 + k2) x.
Proof.
  intros Hk1 Hk2 Hm Hf r Hd Hk Hc Hs. unfold sbind. rewrite (Hm r i2) by (done || lia).
  apply Hf; cbn; (done || lia).
Qed.

Lemma rends_finish {B} (f : unit → st CompoundReplies.t CompoundDecodeError.t B) x :
  rends (f tt) [] 0 x → rends (sbind finish f) [] 0 x.
Proof.
  intros Hf r Hd Hk Hc Hs. unfold sbind, finish. rewrite Hs.
  destruct (Z.ltb_spec (decoded r) (reply_count r)); [lia|]. by apply Hf.
Qed.

Lemma rends_require {A B} (a : A) msg (f : A → st CompoundReplies.t CompoundDecodeError.t B) inp k x :
  rends (f a) inp k x → rends (sbind (require (Some a) msg) f) inp k x.
Proof. intros Hf r. apply Hf. Qed.

Lemma rends_ret {A} (a : A) inp k : rends (sret a) inp k (Ok a).
Proof. by intros r. Qed.

(** ** The OPEN, WRITE and COMMIT results *)

(** [open_delegation4]: no delegation, the reason there is none, or one of the
    two kinds with its body. *)
Inductive Delegation : Type :=
| NoDelegation
| NoneExt (why : Z) (server_will_signal : bool)
| Granted (write : bool) (granted : bytes).

Definition wire_delegation (d : Delegation) : bytes :=
  match d with
  | NoDelegation => wire_u32 OPEN_DELEGATE_NONE
  | NoneExt why signal =>
      wire_u32 OPEN_DELEGATE_NONE_EXT ++ wire_u32 why
      ++ (if (why =? WND4_CONTENTION) || (why =? WND4_RESOURCE) then wire_bool signal else [])
  | Granted write granted => wire_u32 (if write then OPEN_DELEGATE_WRITE else OPEN_DELEGATE_READ) ++ granted
  end.

Definition delegation_wf (d : Delegation) : Prop :=
  match d with NoneExt why _ => is_u32 why | _ => True end.

Definition wire_open_result (st : StateId.t) (atomic : bool) (before after rflags : Z) (bm : Bitmap.t)
    (d : Delegation) : bytes :=
  StateId.wire st ++ wire_change_info atomic before after
  ++ (wire_u32 rflags ++ wire_u32 (blen (Bitmap.words bm))) ++ mjoin (wire_u32 <$> Bitmap.words bm)
  ++ wire_delegation d.

(** An OPEN the client cannot use: a delegation, which it has no callbacks
    for, or a request to confirm the open. *)
Definition open_refused (rflags : Z) (d : Delegation) : bool :=
  match d with Granted _ _ => true | _ => negb (Z.land rflags OPEN4_RESULT_CONFIRM =? 0) end.

Lemma reads_skip_bitmap_after_len bm : blen (Bitmap.words bm) ≤ u32_max →
  reads (skip_bitmap_after_len (blen (Bitmap.words bm))) (mjoin (wire_u32 <$> Bitmap.words bm)) tt.
Proof.
  intros Hlen rest. pose proof (blen_nonneg (Bitmap.words bm)). unfold skip_bitmap_after_len, sbind.
  rewrite require_bitmap_words_ok; [|lia| |ulia].
  - apply reads_advance. by rewrite NfsOp.blen_join_u32.
  - rewrite blen_app, NfsOp.blen_join_u32. pose proof (blen_nonneg rest). lia.
Qed.

Lemma reads_delegation d : delegation_wf d → (∀ w g, d ≠ Granted w g) →
  reads decode_open_delegation (wire_delegation d) tt.
Proof.
  intros Hd Hg. destruct d as [|why signal|w g]; [| |by destruct (Hg w g)].
  - rewrite <- (app_nil_r (wire_delegation _)). eapply reads_bind; [by apply reads_u32|apply reads_ret].
  - cbn [wire_delegation]. eapply reads_bind; [by apply reads_u32|].
    change (OPEN_DELEGATE_NONE_EXT =? OPEN_DELEGATE_NONE) with false.
    change (OPEN_DELEGATE_NONE_EXT =? OPEN_DELEGATE_NONE_EXT) with true. cbn match.
    eapply reads_bind; [by apply reads_u32|].
    destruct (_ || _); [|apply reads_ret]. rewrite <- (app_nil_r (wire_bool signal)).
    eapply reads_bind; [apply reads_bool|apply reads_ret].
Qed.

(** What the decoder of the OPEN result makes of it. *)
Lemma open_result_read st atomic before after rflags bm d rest :
  StateId.wf st → is_u32 rflags → blen (Bitmap.words bm) ≤ u32_max → delegation_wf d →
  if open_refused rflags d
  then ∃ m rest', decode_open_stateid (wire_open_result st atomic before after rflags bm d ++ rest)
         = (Err (Error.Unsupported m), rest')
  else decode_open_stateid (wire_open_result st atomic before after rflags bm d ++ rest) = (Ok st, rest).
Proof.
  intros Hst Hr Hbm Hd. pose proof (blen_nonneg (Bitmap.words bm)). unfold wire_open_result, decode_open_stateid.
  rewrite <- !app_assoc. unfold sbind at 1 6. rewrite (StateId.reads_decode st Hst).
  unfold sbind at 1 5. rewrite reads_skip_change_info.
  unfold sbind at 1 4. rewrite (app_assoc (wire_u32 rflags)), reads_u32_pair by (done || ulia).
  unfold sbind at 1 3. rewrite reads_skip_bitmap_after_len by done.
  unfold sbind. destruct d as [|why signal|w g]; cbn [open_refused].
  1, 2: rewrite reads_delegation by done; destruct (Z.eqb_spec (Z.land rflags OPEN4_RESULT_CONFIRM) 0); cbn [negb];
    [done|by eexists _, _].
  unfold decode_open_delegation, sbind. cbn [wire_delegation]. rewrite <- app_assoc.
  rewrite reads_u32 by (by destruct w). destruct w; by eexists _, _.
Qed.

Lemma rreads_open inp st : reads decode_open_stateid inp st →
  rreads open_stateid_or_exists (ok_reply OpCode.Open ++ inp) 1 (Some (Opened st)).
Proof.
  intros Hm. change 1 with (1 + 0).
  apply (rreads_bind _ _ _ _ _ _ (Some false)); [lia|lia| |].
  - intros r rest Hd _ Hc. unfold advance_with. destruct (Z.leb_spec (reply_count r) (decoded r)); [lia|].
    unfold decode_expected_op_or_exist, sbind at 1. rewrite Hd. unfold ok_reply. rewrite header_reads by done.
    unfold sbind, slift. rewrite validate_same. done.
  - change 0 with (0 + 0). rewrite <- (app_nil_r inp).
    eapply rreads_bind; [lia|lia|by apply rreads_body|apply rreads_ret].
Qed.

Definition wire_stability (s : WriteStability.t) : Z :=
  match s with
  | WriteStability.Unstable => UNSTABLE4
  | WriteStability.DataSync => DATA_SYNC4
  | WriteStability.FileSync => FILE_SYNC4
  end.

Definition wire_write_result (w : WriteData.t) : bytes :=
  wire_u32 (WriteData.count w) ++ wire_u32 (wire_stability (WriteData.committed w)) ++ WriteData.verifier w.

Lemma reads_write_result w : is_u32 (WriteData.count w) → blen (WriteData.verifier w) = 8 →
  reads decode_write_data (wire_write_result w) w.
Proof.
  intros Hc Hv. unfold decode_write_data, XdrDecoder.read_u32_pair_and_bytes, wire_write_result. intros rest.
  rewrite sbind_assoc. revert rest. apply (reads_bind_lift _ _ _ 16); [reflexivity|].
  intros rest. rewrite sbind_assoc. revert rest. apply reads_require; [autorewrite with wire; lia|].
  intros rest. rewrite sbind_assoc. revert rest. eapply reads_bind; [by apply reads_get_u32|].
  intros rest. rewrite sbind_assoc. revert rest. eapply reads_bind.
  { apply reads_get_u32. destruct (WriteData.committed w); split; discriminate. }
  intros rest. rewrite sbind_assoc. unfold sbind, buf.copy_to_slice.
  rewrite (reads_split 8 (WriteData.verifier w)) by done. unfold sret.
  destruct w as [cnt cm ver]. by destruct cm.
Qed.

Lemma reads_file_handle fh : blen fh ≤ NFS4_FHSIZE → reads decode_file_handle (wire_opaque fh) fh.
Proof.
  intros Hfh. rewrite <- (app_nil_r (wire_opaque fh)).
  assert (blen fh ≤ u32_max) by (unfold NFS4_FHSIZE in *; ulia).
  eapply reads_bind; [by apply reads_opaque|].
  destruct (Z.ltb_spec NFS4_FHSIZE (blen fh)); [lia|apply reads_ret].
Qed.

(** The outcome of the COMMIT check. *)
Definition commit_outcome (w : WriteData.t) (commit_verifier : bytes) : res CompoundDecodeError.t unit :=
  if WriteData.requires_commit w && negb (bool_decide (commit_verifier = WriteData.verifier w))
  then Err (CompoundDecodeError.from
              (Error.connection_lost "NFS write verifier changed before COMMIT completed"))
  else Ok tt.

Lemma fused_commit_run w v r rest :
  blen v = 8 → CompoundReplies.dec r = (ok_reply OpCode.Commit ++ v) ++ rest → decoded r < reply_count r →
  fused_commit (Some w) r = (commit_outcome w v, adv 1 rest r).
Proof.
  intros Hv Hd Hc. unfold fused_commit, sbind at 1.
  rewrite (rreads_advance OpCode.Commit r (v ++ rest)); [|by rewrite Hd, app_assoc|lia|lia].
  unfold sbind at 1. rewrite (rreads_body (XdrDecoder.read_bytes 8) v v ltac:(by apply reads_bytes) _ rest) by (cbn; (done || lia)).
  unfold sbind, require, slift. cbn [ok_or]. unfold commit_outcome, ensure_write_verifier, adv, sret. cbn.
  rewrite Z.add_0_r. destruct (WriteData.requires_commit w); cbn; [|done]. by case_bool_decide.
Qed.

(** ** The fused put: what a server that executed it replies *)

Module FusedReply.

Record t : Type := mk {
  sequence_data : bytes;
  open_info : bool * Z * Z;
  rflags : Z;
  attrs_set : Bitmap.t;
  delegation : Delegation;
  stateid : StateId.t;
  handle : FileHandle;
  write : WriteData.t;
  commit_verifier : bytes;
  info1 : bool * Z * Z;
  info2 : bool * Z * Z;
}.

Definition wf (f : t) : Prop :=
  blen (sequence_data f) = SEQUENCE_RESULT_LEN ∧ is_u32 (rflags f)
  ∧ blen (Bitmap.words (attrs_set f)) ≤ u32_max ∧ delegation_wf (delegation f)
  ∧ StateId.wf (stateid f) ∧ blen (handle f) ≤ NFS4_FHSIZE
  ∧ is_u32 (WriteData.count (write f)) ∧ blen (WriteData.verifier (write f)) = 8
  ∧ blen (commit_verifier f) = 8.

Definition wire_info (i : bool * Z * Z) : bytes := let '(a, b, c) := i in wire_change_info a b c.

Definition lookup_replies (c : nat) : bytes := mjoin (replicate c (ok_reply OpCode.Lookup)).

Definition publish (f : t) (c : nat) (create_new : bool) : bytes :=
  if create_new then
    ok_reply OpCode.SaveFh ++ ok_reply OpCode.PutFh ++ lookup_replies c
    ++ ok_reply OpCode.Link ++ wire_info (info1 f) ++ ok_reply OpCode.Remove ++ wire_info (info2 f)
  else ok_reply OpCode.RestoreFh ++ ok_reply OpCode.Rename ++ wire_info (info1 f) ++ wire_info (info2 f).

Definition after_commit (f : t) (c : nat) (create_new : bool) : bytes :=
  ok_reply OpCode.Verify ++ publish f c create_new.

Definition after_open (f : t) (c : nat) (create_new : bool) : bytes :=
  (ok_reply OpCode.GetFh ++ wire_opaque (handle f))
  ++ (ok_reply OpCode.Write ++ wire_write_result (write f))
  ++ (ok_reply OpCode.Commit ++ commit_verifier f)
  ++ after_commit f c create_new.

Definition wire_open (f : t) : bytes :=
  let '(a, b, c) := open_info f in
  wire_open_result (stateid f) a b c (rflags f) (attrs_set f) (delegation f).

Definition replies (f : t) (c : nat) (create_new : bool) : bytes :=
  (ok_reply OpCode.Sequence ++ sequence_data f)
  ++ ok_reply OpCode.PutFh ++ lookup_replies c
  ++ (if create_new then [] else ok_reply OpCode.SaveFh)
  ++ (ok_reply OpCode.Open ++ wire_open f)
  ++ after_open f c create_new.

End FusedReply.
Import FusedReply.

Lemma rreads_publish f c (create_new : bool) :
  rreads (if create_new then link_remove_publish c
          else let! _ := advance OpCode.RestoreFh in rename_publish)
    (publish f c create_new) (if create_new then 4 + count c else 2) true.
Proof.
  unfold publish, lookup_replies. destruct (info1 f) as [[a1 b1] c1], (info2 f) as [[a2 b2] c2]. destruct create_new.
  - apply rreads_link_remove_publish.
  - change 2 with (1 + 1). eapply rreads_bind; [lia|lia|apply rreads_advance|apply rreads_rename_publish].
Qed.

Lemma fused_tail_outcome f c (create_new : bool) : FusedReply.wf f →
  rends (fused_put_tail c create_new (Some (stateid f))) (after_open f c create_new)
    (4 + if create_new then 4 + count c else 2)
    (rbind (commit_outcome (write f) (commit_verifier f))
       (λ _, Ok (Opened (stateid f, handle f, write f)))).
Proof.
  intros (_ & _ & _ & _ & _ & Hfh & Hcnt & Hver & Hcv). unfold fused_put_tail, after_open.
  assert (Hc : 0 ≤ if create_new then 4 + count c else 2) by (unfold count; destruct create_new; lia).
  set (kp := if create_new then 4 + count c else 2) in *.
  replace (4 + kp) with (1 + (1 + (2 + kp))) by lia.
  eapply rends_bind; [lia|lia|by apply rreads_result, reads_file_handle|].
  eapply rends_bind; [lia|lia|by apply rreads_result, reads_write_result|].
  intros r Hd Hk Hcnt' Hs. unfold sbind at 1. rewrite (fused_commit_run _ _ _ _ Hcv Hd) by lia.
  destruct (commit_outcome (write f) (commit_verifier f)) as [[]|e|] eqn:Hco; [|done|].
  2:{ unfold commit_outcome in Hco. by destruct (_ && _). }
  cbn [rbind].
  assert (Hrest : rends (let! _ := advance OpCode.Verify in
    let! published := if create_new then link_remove_publish c
                      else let! _ := advance OpCode.RestoreFh in rename_publish in
    let! _ := finish in
    if negb published then sfail missing_publish_result
    else
      let! stateid0 := require (Some (stateid f)) "compound response did not include OPEN result" in
      let! fh := require (Some (handle f)) "compound response did not include GETFH result" in
      let! write0 := require (Some (write f)) "compound response did not include WRITE result" in
      sret (Opened (stateid0, fh, write0)))
    (after_commit f c create_new) (1 + (kp + 0)) (Ok (Opened (stateid f, handle f, write f)))).
  { unfold after_commit. eapply rends_bind; [lia|lia|apply rreads_advance|].
    rewrite <- (app_nil_r (publish f c create_new)). eapply rends_bind; [lia|lia|apply rreads_publish|].
    apply rends_finish. cbn [negb]. apply rends_require, rends_require, rends_require, rends_ret. }
  apply Hrest; [done|lia|cbn; lia|done].
Qed.

Lemma blen_ok_reply op : blen (ok_reply op) = 8.
Proof. unfold ok_reply. by autorewrite with wire. Qed.

Lemma blen_lookup_replies c : blen (lookup_replies c) = 8 * count c.
Proof.
  unfold lookup_replies, count. induction c as [|c IH]; [done|]. cbn [replicate].
  rewrite mjoin_cons, blen_app, blen_ok_reply, IH. lia.
Qed.

Lemma blen_replies f c (create_new : bool) : fused_put_replies c create_new * 8 ≤ blen (replies f c create_new).
Proof.
  unfold replies, after_open, after_commit, publish, fused_put_replies. destruct create_new; cbn match;
    rewrite ?blen_app, ?blen_ok_reply, ?blen_lookup_replies; unfold count; length_bounds; lia.
Qed.

(** A step that fails ends the walk. *)
Lemma rends_bind_fail {A B} (m : st CompoundReplies.t CompoundDecodeError.t A) (f : A → _ B) i1 i2 k e :
  (∀ r, CompoundReplies.dec r = i1 ++ i2 → decoded r + k = reply_count r → fst (m r) = Err e) →
  rends (sbind m f) (i1 ++ i2) k (Err e).
Proof.
  intros Hm r Hd Hk Hc _. unfold sbind. specialize (Hm r Hd Hc). destruct (m r) as [x r']. cbn in Hm. by subst x.
Qed.

Lemma open_fails inp i2 e k r : 1 ≤ k → CompoundReplies.dec r = (ok_reply OpCode.Open ++ inp) ++ i2 →
  decoded r + k = reply_count r → fst (decode_open_stateid (inp ++ i2)) = Err e →
  fst (open_stateid_or_exists r) = Err (CompoundDecodeError.from e).
Proof.
  intros Hk Hd Hc He. unfold open_stateid_or_exists, sbind at 1, advance_with.
  destruct (Z.leb_spec (reply_count r) (decoded r)); [lia|].
  unfold decode_expected_op_or_exist, sbind at 1. rewrite Hd, <- app_assoc. unfold ok_reply. rewrite header_reads by done.
  unfold sbind, slift. rewrite validate_same. cbn. unfold body, conv, smap_err. cbn [CompoundReplies.dec bump set_dec].
  destruct (decode_open_stateid (inp ++ i2)) as [x d]. cbn in He. by subst x.
Qed.

(** The replies up to the OPEN, and what comes of it. *)
Lemma fused_put_run f c (create_new : bool) tag x : FusedReply.wf f → blen tag ≤ u32_max →
  is_u32 (fused_put_replies c create_new) →
  rends (let! opened := open_stateid_or_exists in
         match opened with
         | Some OpenExists => sret OpenExists
         | Some (Opened stateid) => fused_put_tail c create_new (Some stateid)
         | None => fused_put_tail c create_new None
         end)
    ((ok_reply OpCode.Open ++ wire_open f) ++ after_open f c create_new)
    (1 + (4 + if create_new then 4 + count c else 2)) x →
  decode_fused_put_compound
    (wire_response 0 tag (fused_put_replies c create_new) (replies f c create_new)) c create_new = x.
Proof.
  intros Hwf Htag Hn Hx. pose proof Hwf as (Hseq & _).
  unfold decode_fused_put_compound. cbv zeta. rewrite run_response; [|done|done|done|lia|apply blen_replies].
  assert (0 ≤ count c) by (unfold count; lia).
  set (kp := if create_new then 4 + count c else 2) in *. set (ks := if create_new then 0 else 1).
  assert (0 ≤ kp) by (subst kp; destruct create_new; lia). assert (0 ≤ ks) by (subst ks; destruct create_new; lia).
  assert (Hk : fused_put_replies c create_new = 1 + (1 + (count c + (ks + (1 + (4 + kp)))))).
  { subst kp ks. unfold fused_put_replies. destruct create_new; lia. }
  match goal with |- fst (?m ?r) = ?x => assert (Hr : rends m (replies f c create_new)
    (1 + (1 + (count c + (ks + (1 + (4 + kp)))))) x) end.
  { unfold replies. eapply rends_bind; [lia|lia|by apply rreads_sequence|].
    eapply rends_bind; [lia|lia|apply rreads_advance|].
    eapply rends_bind; [lia|lia|apply rreads_lookups|].
    eapply rends_bind with (k1 := ks); [lia|lia| |exact Hx].
    subst ks. destruct create_new; cbn [negb]; [apply rreads_ret|]. change 1 with (1 + 0).
    rewrite <- (app_nil_r (ok_reply OpCode.SaveFh)).
    eapply rreads_bind; [lia|lia|apply rreads_advance|apply rreads_ret]. }
  apply Hr; cbn; (done || lia).
Qed.

Lemma open_of_reply f rest : FusedReply.wf f →
  if open_refused (rflags f) (delegation f)
  then ∃ m rest', decode_open_stateid (wire_open f ++ rest) = (Err (Error.Unsupported m), rest')
  else decode_open_stateid (wire_open f ++ rest) = (Ok (stateid f), rest).
Proof.
  intros (_ & Hrf & Hbm & Hd & Hst & _). unfold wire_open. destruct (open_info f) as [[a b] c'].
  by apply open_result_read.
Qed.

(** C18: The fused put, read back.  When the server executed the whole
    compound, whatever flags, attributes and delegation its OPEN carries, the
    decoder returns exactly the stateid, the filehandle and the write result
    it sent, for both publish shapes; except that an OPEN with a delegation or
    one to be confirmed is refused as unsupported, and an unstable write whose
    COMMIT reports another verifier (the server restarted in between) is a
    lost write: a retryable error that forces a new session. *)
Theorem fused_put_roundtrip (f : FusedReply.t) (c : nat) (create_new : bool) (tag : bytes) :
  FusedReply.wf f → blen tag ≤ u32_max → is_u32 (fused_put_replies c create_new) →
  let response := wire_response 0 tag (fused_put_replies c create_new) (replies f c create_new) in
  if open_refused (rflags f) (delegation f)
  then ∃ m, decode_fused_put_compound response c create_new
            = Err (CompoundDecodeError.from (Error.Unsupported m))
  else if WriteData.requires_commit (write f)
          && negb (bool_decide (commit_verifier f = WriteData.verifier (write f)))
  then ∃ e, decode_fused_put_compound response c create_new = Err (CompoundDecodeError.from e)
          ∧ Error.is_retryable e = true ∧ Error.requires_session_rebuild e = true
  else decode_fused_put_compound response c create_new
       = Ok (Opened (stateid f, handle f, write f)).
Proof.
  intros Hwf Htag Hn. cbn zeta. assert (Hk : 1 ≤ 1 + (4 + if create_new then 4 + count c else 2))
    by (unfold count; destruct create_new; lia).
  destruct (open_refused (rflags f) (delegation f)) eqn:Hr.
  - pose proof (open_of_reply f (after_open f c create_new) Hwf) as Ho. rewrite Hr in Ho. destruct Ho as (m & rest & Ho).
    exists m. apply fused_put_run; [done..|]. apply rends_bind_fail. intros r Hd Hc.
    by apply (open_fails (wire_open f) (after_open f c create_new) _ _ r Hk Hd Hc); rewrite Ho.
  - assert (Hopen : reads decode_open_stateid (wire_open f) (stateid f)).
    { intros rest. pose proof (open_of_reply f rest Hwf) as Ho. by rewrite Hr in Ho. }
    assert (Hrun : decode_fused_put_compound
        (wire_response 0 tag (fused_put_replies c create_new) (replies f c create_new)) c create_new
      = rbind (commit_outcome (write f) (commit_verifier f)) (λ _, Ok (Opened (stateid f, handle f, write f)))).
    { apply fused_put_run; [done..|]. eapply rends_bind; [lia|lia|by apply rreads_open|]. by apply fused_tail_outcome. }
    rewrite Hrun. unfold commit_outcome. destruct (_ && _); cbn [rbind]; [|done]. by eexists.
Qed.

(** The server had no resources for a delegation. *)
Lemma fused_put_roundtrip_witness :
  let w := WriteData.mk 5 WriteStability.Unstable (replicate 8 3) in
  let f := FusedReply.mk (replicate 36 0) (true, 1, 2) 0 (Bitmap.mk [16; 2]) (NoneExt WND4_RESOURCE true)
             StateId.current [1; 2; 3] w (replicate 8 3) (true, 2, 3) (true, 3, 4) in
  decode_fused_put_compound
    (wire_response 0 [] (fused_put_replies 2 true) (replies f 2 true)) 2 true
  = Ok (Opened (StateId.current, [1; 2; 3], w)).
Proof.
  intros w f. apply (fused_put_roundtrip f 2 true []); [|discriminate|split; discriminate].
  repeat split; try discriminate. repeat constructor; discriminate.
Defined.

(** ** The SEQUENCE result: theorems *)

(** A response that starts with a SEQUENCE reply of status [s]. *)
Definition wire_sequence_reply (cs : NfsStatus) (tag : bytes) (n : Z) (s : NfsStatus)
    (sessionid : bytes) (sequenceid slotid highest target flags : Z) (rest : bytes) : bytes :=
  (wire_u32 cs ++ wire_opaque tag ++ wire_u32 n)
  ++ (wire_u32 (OpCode.as_u32 OpCode.Sequence) ++ wire_u32 s)
  ++ sessionid ++ wire_u32 sequenceid ++ wire_u32 slotid ++ wire_u32 highest ++ wire_u32 target
  ++ wire_u32 flags ++ rest.

Lemma sequence_result_eq (cs n s sequenceid slotid highest target flags : Z)
    (tag sessionid rest expected_sessionid : bytes) (expected_sequenceid expected_slotid : Z) :
  is_u32 cs → is_u32 n → is_u32 s → is_u32 sequenceid → is_u32 slotid → is_u32 highest →
  is_u32 target → is_u32 flags → blen tag ≤ u32_max → blen sessionid = 16 → n ≠ 0 →
  decode_sequence_result
    (wire_sequence_reply cs tag n s sessionid sequenceid slotid highest target flags rest)
    expected_sessionid expected_sequenceid expected_slotid
  = if NfsStatus.is_ok s then
      if bool_decide (sessionid = expected_sessionid) then
        if sequenceid =? expected_sequenceid then
          if slotid =? expected_slotid then Ok (SequenceResult.mk highest target flags)
          else Err (Error.protocol "SEQUENCE response slot ID {slotid} did not match request {expected_slotid}")
        else Err (Error.protocol "SEQUENCE response sequence ID {sequenceid} did not match request {expected_sequenceid}")
      else Err (Error.protocol "SEQUENCE response session ID mismatch")
    else Err (Error.nfs s OpCode.Sequence).
Proof.
  intros Hcs Hn Hs Hsq Hsl Hh Ht Hf Htag Hsid Hn0.
  unfold decode_sequence_result, sequence_result, wire_sequence_reply, sbind at 1.
  rewrite reads_u32_skip_opaque_and_read_u32 by done. destruct (Z.eqb_spec n 0); [done|].
  unfold sbind at 1. rewrite reads_u32_pair by (done || apply OpCode.as_u32_range). rewrite Z.eqb_refl. cbn [negb].
  destruct (NfsStatus.is_ok s); cbn [negb]; [|done].
  unfold sbind at 1. rewrite reads_bytes by done.
  do 5 (unfold sbind at 1; rewrite reads_u32 by done).
  case_bool_decide; cbn [negb]; [|done].
  destruct (sequenceid =? expected_sequenceid); cbn [negb]; [|done].
  by destruct (slotid =? expected_slotid).
Qed.

(** Matching a response to its request.  A response whose SEQUENCE result
    has status OK is accepted exactly when it names the session, sequence id
    and slot of the request, and then its slot limits and flags are returned;
    otherwise it is refused with a protocol error, and a failed SEQUENCE is
    reported as that status of SEQUENCE, whatever follows. *)
Theorem sequence_result_matches (cs n s sequenceid slotid highest target flags : Z)
    (tag sessionid rest expected_sessionid : bytes) (expected_sequenceid expected_slotid : Z) :
  is_u32 cs → is_u32 n → is_u32 s → is_u32 sequenceid → is_u32 slotid → is_u32 highest →
  is_u32 target → is_u32 flags → blen tag ≤ u32_max → blen sessionid = 16 → n ≠ 0 →
  let r := decode_sequence_result
             (wire_sequence_reply cs tag n s sessionid sequenceid slotid highest target flags rest)
             expected_sessionid expected_sequenceid expected_slotid in
  (s ≠ 0 → r = Err (Error.nfs s OpCode.Sequence))
  ∧ (s = 0 → (sessionid = expected_sessionid ∧ sequenceid = expected_sequenceid ∧ slotid = expected_slotid) →
       r = Ok (SequenceResult.mk highest target flags))
  ∧ (s = 0 → ¬ (sessionid = expected_sessionid ∧ sequenceid = expected_sequenceid ∧ slotid = expected_slotid) →
       ∃ m, r = Err (Error.Protocol m)).
Proof.
  intros Hcs Hn Hs Hsq Hsl Hh Ht Hf Htag Hsid Hn0. cbn zeta. rewrite sequence_result_eq by done.
  destruct (NfsStatus.is_ok s) eqn:Hok.
  - apply NfsStatus.is_ok_spec in Hok. split; [done|]. split.
    + intros _ (-> & -> & ->). rewrite bool_decide_eq_true_2 by done. by rewrite !Z.eqb_refl.
    + intros _ Hne. case_bool_decide; [|by eexists].
      destruct (Z.eqb_spec sequenceid expected_sequenceid); [|by eexists].
      destruct (Z.eqb_spec slotid expected_slotid); [|by eexists]. by destruct Hne.
  - assert (s ≠ 0) by (intros ->; done). split; [done|]. split; intros; done.
Qed.

Lemma sequence_result_matches_witness :
  decode_sequence_result
    (wire_sequence_reply 0 [] 3 0 (replicate 16 4) 9 2 15 7 0 [1; 2; 3]) (replicate 16 4) 9 2
  = Ok (SequenceResult.mk 15 7 0).
Proof.
  apply (sequence_result_matches 0 3 0 9 2 15 7 0 [] (replicate 16 4) [1; 2; 3] (replicate 16 4) 9 2);
    try (split; discriminate); try discriminate; try reflexivity. repeat split.
Defined.

(** The flags that need no action: callback and callback-security notices,
    device ids, and the need to reclaim while the client still may. *)
Definition harmless_flags (reclaim_complete : bool) : Z :=
  Z.lor SEQ4_STATUS_CB_PATH_DOWN
  (Z.lor SEQ4_STATUS_CB_GSS_CONTEXTS_EXPIRING
  (Z.lor SEQ4_STATUS_CB_GSS_CONTEXTS_EXPIRED
  (Z.lor SEQ4_STATUS_CB_PATH_DOWN_SESSION
  (Z.lor SEQ4_STATUS_DEVID_CHANGED
  (Z.lor SEQ4_STATUS_DEVID_DELETED
         (if reclaim_complete then 0 else SEQ4_STATUS_RESTART_RECLAIM_NEEDED)))))).

(** The union of the masks the function tests. *)
Definition fatal_flags (reclaim_complete : bool) : Z :=
  Z.lor (Z.lxor SEQ4_STATUS_KNOWN u32_max)
  (Z.lor SEQ4_STATUS_STATE_LOST
  (Z.lor (if reclaim_complete then SEQ4_STATUS_RESTART_RECLAIM_NEEDED else 0)
  (Z.lor SEQ4_STATUS_BACKCHANNEL_FAULT SEQ4_STATUS_LEASE_MOVED))).

Lemma validate_flags_fatal f rc :
  validate_sequence_status_flags f rc = Ok tt ↔ Z.land f (fatal_flags rc) = 0.
Proof.
  unfold validate_sequence_status_flags, fatal_flags, unknown_flags.
  rewrite !Z.land_lor_distr_r, !Z.lor_eq_0_iff.
  repeat match goal with |- context [?x =? 0] => destruct (Z.eqb_spec x 0) end; cbn [negb];
    destruct rc; cbn [andb]; rewrite ?Z.land_0_r; naive_solver.
Qed.

Lemma ldiff_land_u32 f h : is_u32 f → Z.ldiff f h = Z.land f (Z.lxor h u32_max).
Proof.
  intros Hf. apply Z.bits_inj'. intros i Hi. rewrite Z.ldiff_spec, Z.land_spec, Z.lxor_spec.
  destruct (Z.testbit f i) eqn:Hb; [|done]. apply (testbit_u32_high f i Hf) in Hb.
  change u32_max with (Z.ones 32). rewrite Z.ones_spec_low by lia. by destruct (Z.testbit h i).
Qed.

(** Status flags.  A session stays usable exactly when every flag the
    server raised is one of the harmless ones; revoked state, and a restarted
    server once reclaim is complete, are reported as a lost connection, which
    is retryable and forces a new session. *)
Theorem sequence_flags_spec (status_flags : Z) (reclaim_complete : bool) :
  is_u32 status_flags →
  (validate_sequence_status_flags status_flags reclaim_complete = Ok tt ↔
     Z.ldiff status_flags (harmless_flags reclaim_complete) = 0)
  ∧ (unknown_flags status_flags = 0 → Z.land status_flags SEQ4_STATUS_STATE_LOST ≠ 0 →
       ∃ e, validate_sequence_status_flags status_flags reclaim_complete = Err e
         ∧ Error.is_retryable e = true ∧ Error.requires_session_rebuild e = true)
  ∧ (unknown_flags status_flags = 0 → reclaim_complete = true →
       Z.land status_flags SEQ4_STATUS_RESTART_RECLAIM_NEEDED ≠ 0 →
       ∃ e, validate_sequence_status_flags status_flags reclaim_complete = Err e
         ∧ Error.is_retryable e = true ∧ Error.requires_session_rebuild e = true).
Proof.
  intros Hf. split_and!.
  - rewrite validate_flags_fatal, ldiff_land_u32 by done.
    assert (Heq : fatal_flags reclaim_complete = Z.lxor (harmless_flags reclaim_complete) u32_max)
      by (destruct reclaim_complete; reflexivity). by rewrite Heq.
  - intros Hu Hl. unfold validate_sequence_status_flags. rewrite Hu. cbn [negb Z.eqb].
    destruct (Z.eqb_spec (Z.land status_flags SEQ4_STATUS_STATE_LOST) 0); [done|]. by eexists.
  - intros Hu -> Hr. unfold validate_sequence_status_flags. rewrite Hu. cbn [negb Z.eqb andb].
    destruct (Z.eqb_spec (Z.land status_flags SEQ4_STATUS_STATE_LOST) 0); cbn [negb]; [|by eexists].
    destruct (Z.eqb_spec (Z.land status_flags SEQ4_STATUS_RESTART_RECLAIM_NEEDED) 0); [done|]. by eexists.
Qed.

Lemma sequence_flags_spec_witness :
  validate_sequence_status_flags 0x201 true = Ok tt
  ∧ ∃ e, validate_sequence_status_flags 0x8 false = Err e
      ∧ Error.is_retryable e = true ∧ Error.requires_session_rebuild e = true.
Proof.
  split.
  - apply (sequence_flags_spec 0x201 true); [split; discriminate|reflexivity].
  - refine (proj1 (proj2 (sequence_flags_spec 0x8 false _)) _ _); [split; discriminate|reflexivity|discriminate].
Defined.

(** ** REMOVE *)

(** The replies to a REMOVE that stopped, with status [s], at operation [op]
    after [k] lookups. *)
Definition remove_prefix (d : bytes) (k : nat) : bytes :=
  (ok_reply OpCode.Sequence ++ d) ++ ok_reply OpCode.PutFh ++ lookup_replies k.

Definition fail_reply (op : OpCode.t) (s : NfsStatus) : bytes :=
  wire_u32 (OpCode.as_u32 op) ++ wire_u32 s.

Lemma rreads_remove_expect op : rreads (remove_expect op) (ok_reply op) 1 (Some false).
Proof.
  intros r rest Hd _ Hc. unfold remove_expect, advance_with.
  destruct (Z.leb_spec (reply_count r) (decoded r)); [lia|].
  unfold decode_remove_expected_op, sbind at 1. rewrite Hd. unfold ok_reply. rewrite header_reads by done.
  unfold sbind, slift. rewrite validate_same. done.
Qed.

(** A failed operation: a missing name, or that status at that reply. *)
Lemma remove_expect_fail op s r rest : is_u32 s → s ≠ 0 →
  CompoundReplies.dec r = fail_reply op s ++ rest → decoded r < reply_count r →
  fst (remove_expect op r)
  = if (s =? NfsStatus.NOENT)
       && match op with OpCode.PutFh | OpCode.Lookup | OpCode.Remove => true | _ => false end
    then Ok (Some true)
    else Err (CompoundDecodeError.mk (Some s) (Some (decoded r)) (Error.nfs s op)).
Proof.
  intros Hs Hs0 Hd Hc. unfold remove_expect, advance_with.
  destruct (Z.leb_spec (reply_count r) (decoded r)); [lia|].
  unfold decode_remove_expected_op, sbind at 1. rewrite Hd. unfold fail_reply. rewrite header_reads by done.
  unfold sbind, slift. rewrite validate_same.
  destruct (NfsStatus.is_ok s) eqn:Hok; [apply NfsStatus.is_ok_spec in Hok; done|]. cbn [negb].
  rewrite bool_decide_eq_true_2 by done. cbn [andb]. by destruct (_ && _).
Qed.

(** The walk up to lookup [k] of [c]. *)
Lemma remove_lookups_skip k c r rest :
  CompoundReplies.dec r = lookup_replies k ++ rest → decoded r + count k ≤ reply_count r → (k ≤ c)%nat →
  remove_lookups c r = remove_lookups (c - k) (adv (count k) rest r).
Proof.
  unfold count, lookup_replies. induction k as [|k IH] in c, r |- *; intros Hd Hc Hle.
  { rewrite Nat.sub_0_r. cbn in Hd. destruct r as [d s n e dc sh]. cbn in *. subst d. unfold adv. cbn. by rewrite Z.add_0_r. }
  destruct c as [|c]; [lia|]. cbn [replicate remove_lookups Nat.sub] in *. rewrite mjoin_cons, <- app_assoc in Hd.
  unfold sbind at 1. rewrite (rreads_remove_expect OpCode.Lookup r _ Hd) by lia.
  rewrite IH; [|done|cbn; lia|lia]. f_equal. unfold adv. cbn. f_equal. lia.
Qed.

Definition remove_failure (op : OpCode.t) (s : NfsStatus) (i : Z) : res CompoundDecodeError.t RemoveOutcome :=
  if s =? NfsStatus.NOENT then Ok Missing
  else Err (CompoundDecodeError.mk (Some s) (Some i) (Error.nfs s op)).

Lemma remove_start d k c n x replies r0 : blen d = SEQUENCE_RESULT_LEN → (k ≤ c)%nat → 2 + count k ≤ n →
  r0 = CompoundReplies.mk (remove_prefix d k ++ replies) x n (3 + count c) 0 "REMOVE" →
  (let! present := remove_expect OpCode.Sequence in
   match present with
   | Some true => sret Missing
   | Some false => let! _ := body skip_sequence_data in remove_tail c
   | None => remove_tail c
   end) r0
  = (let! missing := remove_lookups (c - k) in
     if (missing : bool) then sret Missing
     else
       let! present := remove_expect OpCode.Remove in
       match present with
       | Some true => sret Missing
       | Some false => let! _ := body skip_change_info in let! _ := finish in sret Removed
       | None => let! _ := finish in
           sfail (CompoundDecodeError.from (Error.protocol "compound response did not include REMOVE result"))
       end) (adv (2 + count k) replies r0).
Proof.
  intros Hd Hk Hn ->. assert (0 ≤ count k) by (unfold count; lia). unfold sbind at 1.
  rewrite (rreads_remove_expect OpCode.Sequence _ (d ++ ok_reply OpCode.PutFh ++ lookup_replies k ++ replies));
    [|by unfold remove_prefix; cbn; rewrite <- !app_assoc|lia|cbn; lia].
  unfold sbind at 1. rewrite (rreads_body skip_sequence_data d tt) with (rest := ok_reply OpCode.PutFh ++ lookup_replies k ++ replies).
  2:{ apply reads_require; [lia|]. by apply reads_advance. }
  2: done. 2: lia. 2: cbn; lia.
  unfold remove_tail, sbind at 1. rewrite (rreads_remove_expect OpCode.PutFh) with (rest := lookup_replies k ++ replies);
    [|done|lia|cbn; lia].
  cbn [bool_decide]. unfold sbind at 1. rewrite bool_decide_eq_false_2 by done.
  rewrite (remove_lookups_skip k c _ replies); [|done|cbn; lia|done].
  unfold sbind. unfold adv. cbn. replace (0 + 1 + 0 + 1 + count k) with (2 + count k) by lia. done.
Qed.

(** REMOVE.  A removal counts as "nothing to remove" exactly when a
    directory on the path or the name itself was reported missing (NOENT);
    any other failure of a lookup or of the removal is returned with its
    status, its operation and its position; and a reply in which everything
    succeeded is a removal. *)
Theorem remove_reply_outcome (tag d : bytes) (k c : nat) (s before after : Z) (atomic : bool) (xs : NfsStatus) :
  blen tag ≤ u32_max → blen d = SEQUENCE_RESULT_LEN → is_u32 s → s ≠ 0 → is_u32 xs →
  is_u32 (3 + count c) →
  ((k < c)%nat →
   decode_remove_compound
     (wire_response xs tag (3 + count k) (remove_prefix d k ++ fail_reply OpCode.Lookup s)) c
   = remove_failure OpCode.Lookup s (2 + count k))
  ∧ decode_remove_compound
      (wire_response xs tag (3 + count c) (remove_prefix d c ++ fail_reply OpCode.Remove s)) c
    = remove_failure OpCode.Remove s (2 + count c)
  ∧ decode_remove_compound
      (wire_response 0 tag (3 + count c)
         (remove_prefix d c ++ ok_reply OpCode.Remove ++ wire_change_info atomic before after)) c
    = Ok Removed.
Proof.
  intros Htag Hd Hs Hs0 Hxs Hn. unfold decode_remove_compound.
  assert (Hlen : ∀ j rest, (3 + count j) * 8 ≤ blen (remove_prefix d j ++ rest) ↔ 8 ≤ 36 + blen rest).
  { intros j rest. unfold remove_prefix. rewrite !blen_app, !blen_ok_reply, blen_lookup_replies, Hd.
    change SEQUENCE_RESULT_LEN with 36. lia. }
  assert (Hcnt : ∀ j, 0 ≤ count j) by (unfold count; lia). pose proof (Hcnt k). pose proof (Hcnt c).
  split_and!.
  - intros Hkc. assert (Hle : count k + 1 ≤ count c) by (unfold count; lia).
    rewrite run_response; [|done|ulia|done|lia|apply Hlen; length_bounds; lia].
    rewrite (remove_start d k c (3 + count k) xs (fail_reply OpCode.Lookup s) _ Hd ltac:(lia) ltac:(lia) eq_refl).
    destruct (c - k)%nat as [|m] eqn:Hm; [lia|]. cbn [remove_lookups].
    unfold sbind at 1 2. match goal with |- context [remove_expect OpCode.Lookup ?r] =>
      pose proof (remove_expect_fail OpCode.Lookup s r [] Hs Hs0) as Hf; cbn [decoded reply_count CompoundReplies.dec adv] in Hf;
      specialize (Hf ltac:(by rewrite app_nil_r) ltac:(cbn; lia));
      destruct (remove_expect OpCode.Lookup r) as [x r'] end.
    cbn [fst] in Hf. rewrite Hf, andb_true_r. unfold remove_failure. by destruct (s =? NfsStatus.NOENT).
  - rewrite run_response; [|done|done|done|lia|apply Hlen; length_bounds; lia].
    rewrite (remove_start d c c (3 + count c) xs (fail_reply OpCode.Remove s) _ Hd ltac:(lia) ltac:(lia) eq_refl).
    rewrite Nat.sub_diag. cbn [remove_lookups]. unfold sbind, sret at 1.
    match goal with |- context [remove_expect OpCode.Remove ?r] =>
      pose proof (remove_expect_fail OpCode.Remove s r [] Hs Hs0) as Hf; cbn [decoded reply_count CompoundReplies.dec adv] in Hf;
      specialize (Hf ltac:(by rewrite app_nil_r) ltac:(cbn; lia));
      destruct (remove_expect OpCode.Remove r) as [x r'] end.
    cbn [fst] in Hf. rewrite Hf, andb_true_r. unfold remove_failure. by destruct (s =? NfsStatus.NOENT).
  - rewrite run_response; [|done|done|done|lia|apply Hlen; length_bounds; lia].
    rewrite (remove_start d c c (3 + count c) 0 (ok_reply OpCode.Remove ++ wire_change_info atomic before after)
      _ Hd ltac:(lia) ltac:(lia) eq_refl).
    rewrite Nat.sub_diag. cbn [remove_lookups]. unfold sbind at 1, sret at 1. cbn match.
    unfold sbind at 1. rewrite (rreads_remove_expect OpCode.Remove) with (rest := wire_change_info atomic before after);
      [|done|lia|cbn; lia].
    unfold sbind at 1. rewrite (rreads_body _ _ _ (reads_skip_change_info atomic before after)) with (rest := []);
      [|by rewrite app_nil_r|lia|cbn; lia].
    unfold sbind, finish. cbn. destruct (Z.ltb_spec (0 + (2 + count c) + 1 + 0) (3 + count c)); [lia|done].
Qed.

Lemma remove_reply_outcome_witness :
  decode_remove_compound
    (wire_response 2 [] (3 + count 1) (remove_prefix (replicate 36 0) 1 ++ fail_reply OpCode.Lookup 2)) 3
    = Ok Missing
  ∧ decode_remove_compound
      (wire_response 10008 [] (3 + count 1)
         (remove_prefix (replicate 36 0) 1 ++ fail_reply OpCode.Lookup 10008)) 3
    = Err (CompoundDecodeError.mk (Some 10008) (Some 3) (Error.nfs 10008 OpCode.Lookup)).
Proof.
  split.
  - refine (proj1 (remove_reply_outcome [] (replicate 36 0) 1 3 2 0 0 true 2 _ _ _ _ _ _) _);
      (reflexivity || discriminate || lia || (split; discriminate)).
  - refine (proj1 (remove_reply_outcome [] (replicate 36 0) 1 3 10008 0 0 true 10008 _ _ _ _ _ _) _);
      (reflexivity || discriminate || lia || (split; discriminate)).
Defined.
