(* ===== verification/Slots.v ===== *)
(** * Session slots (src/nfs4/slots.rs)

    The table of NFSv4.1 session slots shared by all tasks: a mutex per slot,
    a flag per slot for requests in flight, a semaphore whose permits are the
    live slots, the number of live slots, and the server's limits packed in
    one word.  Tasks run concurrently: a transition of the model is one access
    of one task to the shared state, so that the steps of [acquire] (taking a
    permit, registering for notifications, trying each mutex, looking at the
    slot behind it) and of dropping a guard (unlocking the slot, clearing its
    flag and notifying, returning the permit) interleave with those of other
    tasks as they can in the program.

    [Slots.v] proves mutual exclusion and the accounting of permits as
    invariants of every reachable state, that a slot abandoned with a request
    outstanding is never used again, what [request_highest_slotid] answers,
    that [acquire] on a quiet table finds the lowest usable slot, and two
    reachability facts about its races. *)

From S2P Require Import Prelude Proto Errors.

(** ** The shared state *)

Module SlotState.
Record t : Type := mk { id : Z; sequenceid : Z; usable : bool }.
End SlotState.

Definition pack_slot_limits (enforced_highest_slotid target_highest_slotid : Z) : Z :=
  Z.lor (wrap64 (Z.shiftl enforced_highest_slotid 32)) target_highest_slotid.

Definition all_slots_unusable_error : Error.t :=
  Error.connection_lost "all eligible NFSv4.1 session slots are unusable".

Module SlotTable.

Record t : Type := mk {
  slots : list SlotState.t;
  locked : list bool;      (* the mutexes *)
  active : list bool;
  permits : Z;             (* [available]: permits not handed out *)
  closed : bool;
  live_slots : Z;
  slot_limits_word : Z;
}.

Definition new (slot_count : Z) : t :=
  let slot_count := Z.max slot_count 1 in
  let highest_slotid := slot_count - 1 in
  mk ((λ id, SlotState.mk id 1 true) <$> seqZ 0 slot_count)
     (replicate (Z.to_nat slot_count) false)
     (replicate (Z.to_nat slot_count) false)
     slot_count false slot_count
     (pack_slot_limits highest_slotid highest_slotid).

Definition slot_limits (s : t) : Z * Z :=
  let limits := slot_limits_word s in
  (Z.shiftr limits 32, as_u32 limits).

Definition target_highest_slotid (s : t) : Z := snd (slot_limits s).

Definition effective_len (s : t) : Z := Z.min (target_highest_slotid s + 1) (live_slots s).

(** [rposition(..).unwrap_or(0)] *)
Fixpoint last_active (l : list bool) (index best : Z) : Z :=
  match l with
  | [] => best
  | b :: rest => last_active rest (index + 1) (if b then index else best)
  end.

Definition active_highest_slotid (s : t) : Z := last_active (active s) 0 0.

(** One turn of the loop of [request_highest_slotid]: the answer, or [None]
    when the task waits for a change. *)
Definition request_highest_slotid (s : t) (acquired_slotid : Z) : option (option Z) :=
  let '(enforced_highest, target_highest) := slot_limits s in
  if (target_highest <? acquired_slotid) || (enforced_highest <? acquired_slotid) then Some None
  else
    let active_highest := active_highest_slotid s in
    if active_highest <=? enforced_highest then
      Some (Some (as_u32 (Z.max active_highest target_highest)))
    else None.

Definition update_limits (highest_slotid target_highest_slotid : Z) (s : t) : t :=
  let local_highest := blen (slots s) - 1 in
  let enforced := Z.min highest_slotid local_highest in
  let target := Z.min (Z.min target_highest_slotid enforced) local_highest in
  mk (slots s) (locked s) (active s) (permits s) (closed s) (live_slots s)
     (pack_slot_limits enforced target).

Definition set_slot (i : nat) (x : SlotState.t) (s : t) : t :=
  mk (<[i := x]> (slots s)) (locked s) (active s) (permits s) (closed s) (live_slots s)
     (slot_limits_word s).

Definition set_locked (i : nat) (b : bool) (s : t) : t :=
  mk (slots s) (<[i := b]> (locked s)) (active s) (permits s) (closed s) (live_slots s)
     (slot_limits_word s).

Definition set_active (i : nat) (b : bool) (s : t) : t :=
  mk (slots s) (locked s) (<[i := b]> (active s)) (permits s) (closed s) (live_slots s)
     (slot_limits_word s).

Definition add_permits (n : Z) (s : t) : t :=
  mk (slots s) (locked s) (active s) (permits s + n) (closed s) (live_slots s)
     (slot_limits_word s).

End SlotTable.
Import SlotTable.

(** ** Guards *)

Module SlotGuard.

Record t : Type := mk {
  index : nat;
  request_outstanding : bool;
  retire_permit : bool;
}.

Definition mark_request_outstanding (g : t) : t := mk (index g) true (retire_permit g).
Definition disarm_request (g : t) : t := mk (index g) false (retire_permit g).

(** [self.sequenceid = self.sequenceid.wrapping_add(1)] *)
Definition advance_sequence (g : t) (s : SlotTable.t) : SlotTable.t :=
  match slots s !! index g with
  | Some x =>
      set_slot (index g)
        (SlotState.mk (SlotState.id x) (wrap32 (SlotState.sequenceid x + 1)) (SlotState.usable x)) s
  | None => s
  end.

Definition mark_unusable (g : t) (s : SlotTable.t) : t * SlotTable.t :=
  match slots s !! index g with
  | Some x =>
      if SlotState.usable x then
        (mk (index g) (request_outstanding g) true,
         SlotTable.mk (<[index g := SlotState.mk (SlotState.id x) (SlotState.sequenceid x) false]> (slots s))
           (locked s) (active s) (permits s)
           (if live_slots s =? 1 then true else closed s)
           (live_slots s - 1) (slot_limits_word s))
      else (g, s)
  | None => (g, s)
  end.

(** [Drop for SlotGuard], then the drop of its first field, the mutex guard. *)
Definition unlock (g : t) (s : SlotTable.t) : t * SlotTable.t :=
  let '(g, s) := if request_outstanding g then mark_unusable g s else (g, s) in
  (g, set_locked (index g) false s).

End SlotGuard.

(** ** Tasks

    Where a task is in [acquire], or in the life of the guard it returned.
    [woken] says whether [notify_waiters] ran since the task registered. *)

Inductive task : Type :=
| Idle
| Permitted
| Enabled (woken : bool)
| Scanning (index : nat) (target : Z) (eligible_slot_locked woken : bool)
| Probing (index : nat) (target : Z) (eligible_slot_locked woken : bool)
| Waiting (woken : bool)
| Failed (e : Error.t)
| Panicked
| Holding (g : SlotGuard.t)
| Releasing (g : SlotGuard.t)
| Returning (g : SlotGuard.t).

(** [Notify::notify_waiters] *)
Definition wake (t : task) : task :=
  match t with
  | Enabled _ => Enabled true
  | Scanning index target seen _ => Scanning index target seen true
  | Probing index target seen _ => Probing index target seen true
  | Waiting _ => Waiting true
  | t => t
  end.

(** [acquire], one access at a time: the next point of the task, the table
    after it, and whether waiters were notified; [None] when it blocks. *)
Definition acquire_step (t : task) (s : SlotTable.t) : option (task * SlotTable.t) :=
  match t with
  | Idle =>
      if closed s then Some (Failed all_slots_unusable_error, s)
      else if 0 <? permits s then Some (Permitted, add_permits (-1) s)
      else None
  | Permitted => Some (Enabled false, s)
  | Enabled woken => Some (Scanning 0 (target_highest_slotid s) false woken, s)
  | Scanning index target seen woken =>
      if Z.of_nat index <=? target then
        match locked s !! index with
        | Some false => Some (Probing index target seen woken, set_locked index true s)
        | Some true => Some (Scanning (S index) target true woken, s)
        | None => Some (Panicked, s)
        end
      else
        Some (if seen then Waiting woken else Failed all_slots_unusable_error, add_permits 1 s)
  | Probing index target seen woken =>
      match slots s !! index with
      | Some x =>
          if SlotState.usable x then
            Some (Holding (SlotGuard.mk index false false), set_active index true s)
          else Some (Scanning (S index) target seen woken, set_locked index false s)
      | None => Some (Panicked, s)
      end
  | Waiting true => Some (Idle, s)
  | _ => None
  end.

(** What a holder does with its guard, and the drop of the guard. *)
Inductive action : Type :=
| Run
| MarkRequestOutstanding
| DisarmRequest
| AdvanceSequence
| MarkUnusable
| DropGuard.

Definition act (a : action) (t : task) (s : SlotTable.t) : option (task * SlotTable.t * bool) :=
  match a, t with
  | MarkRequestOutstanding, Holding g =>
      Some (Holding (SlotGuard.mark_request_outstanding g), s, false)
  | DisarmRequest, Holding g => Some (Holding (SlotGuard.disarm_request g), s, false)
  | AdvanceSequence, Holding g => Some (Holding g, SlotGuard.advance_sequence g s, false)
  | MarkUnusable, Holding g =>
      let '(g, s) := SlotGuard.mark_unusable g s in Some (Holding g, s, false)
  | DropGuard, Holding g =>
      let '(g, s) := SlotGuard.unlock g s in Some (Releasing g, s, false)
  | Run, Releasing g => Some (Returning g, set_active (SlotGuard.index g) false s, true)
  | Run, Returning g =>
      Some (Idle, if SlotGuard.retire_permit g then s else add_permits 1 s, false)
  | Run, t => '(t, s) ← acquire_step t s; Some (t, s, false)
  | _, _ => None
  end.

(** ** Operations of a task alone

    [acquire] and the drop of a guard as functions, for a task that has the
    table to itself; [acquire_from_quiet] relates the first to the accesses
    above. *)

Fixpoint find_usable (n index : nat) (s : SlotTable.t) : option nat :=
  match n with
  | O => None
  | S n =>
      match slots s !! index with
      | Some x => if SlotState.usable x then Some index else find_usable n (S index) s
      | None => None
      end
  end.

Definition acquire_alone : st SlotTable.t Error.t SlotGuard.t := λ s,
  if closed s then (Err all_slots_unusable_error, s)
  else
    match find_usable (Z.to_nat (target_highest_slotid s + 1)) 0 s with
    | Some index =>
        (Ok (SlotGuard.mk index false false),
         set_active index true (set_locked index true (add_permits (-1) s)))
    | None => (Err all_slots_unusable_error, s)
    end.

Definition drop_guard (g : SlotGuard.t) (s : SlotTable.t) : SlotTable.t :=
  let '(g, s) := SlotGuard.unlock g s in
  let s := set_active (SlotGuard.index g) false s in
  if SlotGuard.retire_permit g then s else add_permits 1 s.

(** ** Executions of a set of tasks *)

Definition state : Type := SlotTable.t * list task.

Definition perform (k : nat) (a : action) (c : state) : option state :=
  let '(s, ts) := c in
  t ← ts !! k;
  '(t', s', notified) ← act a t s;
  Some (s', if notified : bool then wake <$> <[k := t']> ts else <[k := t']> ts).

Inductive step : state → state → Prop :=
| step_task k a c c' : perform k a c = Some c' → step c c'
| step_limits s ts highest target :
    is_u32 highest → is_u32 target →
    step (s, ts) (update_limits highest target s, wake <$> ts).

Inductive steps : state → state → Prop :=
| steps_refl c : steps c c
| steps_step c c' c'' : steps c c' → step c' c'' → steps c c''.

Definition initial (slot_count : Z) (tasks : nat) : state :=
  (new slot_count, replicate tasks Idle).

Definition reachable (slot_count : Z) (tasks : nat) : state → Prop :=
  steps (initial slot_count tasks).

(** A schedule: which task performs which action, in order. *)
Fixpoint run_schedule (l : list (nat * action)) (c : state) : option state :=
  match l with
  | [] => Some c
  | (k, a) :: l => c ← perform k a c; run_schedule l c
  end.

Lemma steps_trans c c' c'' : steps c c' → steps c' c'' → steps c c''.
Proof. intros H1 H2. induction H2 as [|? ? ? ? IH Hs]; [done|]. exact (steps_step _ _ _ (IH H1) Hs). Qed.

Lemma run_schedule_steps l c c' : run_schedule l c = Some c' → steps c c'.
Proof.
  revert c. induction l as [|[k a] l IH]; intros c H; simplify_eq/=; [constructor|].
  destruct (perform k a c) as [c1|] eqn:Hp; [|done].
  eapply steps_trans; [|by apply IH]. eapply steps_step; [constructor|by econstructor].
Qed.

(** ** The limits word *)

Lemma unpack_limits e t :
  is_u32 e → is_u32 t →
  Z.shiftr (pack_slot_limits e t) 32 = e ∧ as_u32 (pack_slot_limits e t) = t.
Proof.
  unfold_widths. intros He Ht. unfold pack_slot_limits, as_u32, wrap32, wrap64.
  rewrite Z.shiftl_mul_pow2, (Z.mod_small (e * 2 ^ 32)) by lia.
  assert (Hlor : Z.lor (e * 2 ^ 32) t = e * 2 ^ 32 + t).
  { rewrite <- Z.lxor_lor, Z.add_nocarry_lxor; try done.
    all: apply Z.bits_inj'; intros n Hn; rewrite Z.land_spec, Z.bits_0.
    all: destruct (decide (n < 32)).
    all: try (rewrite Z.mul_pow2_bits_low by lia; done).
    all: rewrite (Z.bits_above_log2 t), andb_false_r; [done|lia|].
    all: destruct (decide (t = 0)) as [->|]; [simpl; lia|].
    all: apply Z.lt_le_trans with 32; [|lia]; apply Z.log2_lt_pow2; lia. }
  rewrite Hlor, Z.shiftr_div_pow2 by lia. split.
  - rewrite Z.div_add_l, Z.div_small; lia.
  - rewrite Z.add_comm, Z.mod_add, Z.mod_small; lia.
Qed.

(** What every table holds of its limits: the target never exceeds the
    enforced limit, and both name slots of the table. *)
Definition limits_ok (s : SlotTable.t) : Prop :=
  let '(enforced, target) := slot_limits s in
  0 ≤ target ≤ enforced ∧ enforced < blen (slots s).

Lemma limits_pack s e t :
  is_u32 e → is_u32 t → slot_limits_word s = pack_slot_limits e t → slot_limits s = (e, t).
Proof.
  intros He Ht Hw. unfold slot_limits. rewrite Hw. by destruct (unpack_limits e t) as [-> ->].
Qed.

Lemma update_limits_values highest target s :
  is_u32 highest → is_u32 target → 1 ≤ blen (slots s) ≤ u32_max →
  slot_limits (update_limits highest target s) =
  (Z.min highest (blen (slots s) - 1), Z.min target (Z.min highest (blen (slots s) - 1))).
Proof.
  unfold_widths. intros ? ? ?. erewrite limits_pack; [|..|done]; [f_equal; lia|..]; ulia.
Qed.

(** ** Sums over the tasks *)

Definition csum {A} (f : A → Z) (l : list A) : Z := foldr (λ x acc, f x + acc) 0 l.

Lemma csum_insert {A} (f : A → Z) l k x y :
  l !! k = Some x → csum f (<[k := y]> l) = csum f l - f x + f y.
Proof.
  revert k. induction l as [|z l IH]; intros [|k] H; simplify_eq/=; [lia|].
  rewrite (IH k H). lia.
Qed.

Lemma csum_fmap {A B} (f : B → Z) (g : A → B) (h : A → Z) l :
  (∀ x, f (g x) = h x) → csum f (g <$> l) = csum h l.
Proof. intros H. induction l as [|x l IH]; [done|]. simpl. rewrite H. f_equal. exact IH. Qed.

Lemma csum_replicate {A} (f : A → Z) n x : csum f (replicate n x) = Z.of_nat n * f x.
Proof. induction n as [|n IH]; [done|]. cbn [replicate csum foldr]. unfold csum in IH. rewrite IH. lia. Qed.

Lemma csum_nonneg {A} (f : A → Z) l : (∀ x, 0 ≤ f x) → 0 ≤ csum f l.
Proof. intros H. induction l as [|x l IH]; simpl; [lia|]. specialize (H x). lia. Qed.

Lemma csum_lookup {A} (f : A → Z) l k x :
  (∀ x, 0 ≤ f x) → l !! k = Some x → f x ≤ csum f l.
Proof.
  intros Hf. revert k. induction l as [|y l IH]; intros [|k] H; simplify_eq/=.
  - pose proof (csum_nonneg f l Hf). lia.
  - specialize (IH k H). specialize (Hf y). lia.
Qed.

Lemma csum_two {A} (f : A → Z) l j k x y :
  (∀ x, 0 ≤ f x) → j ≠ k → l !! j = Some x → l !! k = Some y → f x + f y ≤ csum f l.
Proof.
  intros Hf. revert j k. induction l as [|z l IH]; intros [|j] [|k] Hjk Hj Hk; simplify_eq/=.
  - pose proof (csum_lookup f l k y Hf Hk). lia.
  - pose proof (csum_lookup f l j x Hf Hj). lia.
  - assert (j ≠ k) by congruence. specialize (IH j k ltac:(done) Hj Hk). specialize (Hf z). lia.
Qed.

(** ** The invariant *)

(** The permits a task has taken out of circulation. *)
Definition permit_weight (t : task) : Z :=
  match t with
  | Permitted | Enabled _ | Scanning _ _ _ _ | Probing _ _ _ _ => 1
  | Holding g | Releasing g | Returning g => Z.b2z (negb (SlotGuard.retire_permit g))
  | _ => 0
  end.

(** Whether a task has the mutex of slot [i]. *)
Definition owns (i : nat) (t : task) : bool :=
  match t with
  | Probing index _ _ _ => (index =? i)%nat
  | Holding g => (SlotGuard.index g =? i)%nat
  | _ => false
  end.

Definition owner_weight (i : nat) (t : task) : Z := Z.b2z (owns i t).

Definition usable_weight (x : SlotState.t) : Z := Z.b2z (SlotState.usable x).

Definition task_ok (s : SlotTable.t) (t : task) : Prop :=
  match t with
  | Scanning _ target _ _ => target < blen (slots s)
  | Probing index target _ _ => target < blen (slots s) ∧ Z.of_nat index < blen (slots s)
  | Holding g =>
      ∃ x, slots s !! SlotGuard.index g = Some x
           ∧ SlotState.usable x = negb (SlotGuard.retire_permit g)
  | Releasing g | Returning g => Z.of_nat (SlotGuard.index g) < blen (slots s)
  | Panicked => False
  | _ => True
  end.

Record inv (c : state) : Prop := {
  inv_locked : length (locked c.1) = length (slots c.1);
  inv_active : length (active c.1) = length (slots c.1);
  inv_len : 1 ≤ blen (slots c.1) ≤ u32_max;
  inv_owner : ∀ i b, locked c.1 !! i = Some b → csum (owner_weight i) c.2 = Z.b2z b;
  inv_permits : permits c.1 + csum permit_weight c.2 = live_slots c.1;
  inv_pos : 0 ≤ permits c.1;
  inv_live : live_slots c.1 = csum usable_weight (slots c.1);
  inv_closed : closed c.1 = (live_slots c.1 =? 0);
  inv_limits : limits_ok c.1;
  inv_tasks : ∀ k t, c.2 !! k = Some t → task_ok c.1 t;
  inv_ids : ∀ i x, slots c.1 !! i = Some x → SlotState.id x = Z.of_nat i;
}.

Lemma owner_weight_pos i t : 0 ≤ owner_weight i t.
Proof. unfold owner_weight. destruct (owns i t); simpl; lia. Qed.

Lemma permit_weight_pos t : 0 ≤ permit_weight t.
Proof. destruct t; simpl; try lia; destruct (SlotGuard.retire_permit g); simpl; lia. Qed.

Lemma usable_weight_pos x : 0 ≤ usable_weight x.
Proof. unfold usable_weight. destruct (SlotState.usable x); simpl; lia. Qed.

#[local] Hint Resolve owner_weight_pos permit_weight_pos usable_weight_pos : core.

Lemma owns_locked s ts k t i :
  inv (s, ts) → ts !! k = Some t → owns i t = true → locked s !! i = Some true.
Proof.
  intros [Hl _ _ Ho _ _ _ _ _ Ht _] Hk Hown. simpl in *.
  assert (Hi : (i < length (slots s))%nat).
  { specialize (Ht k t Hk). destruct t; try done; simpl in Hown; apply Nat.eqb_eq in Hown; subst.
    - destruct Ht. unfold blen in *. lia.
    - destruct Ht as (x & Hx & _). by eapply lookup_lt_Some. }
  rewrite <- Hl in Hi. apply lookup_lt_is_Some in Hi as [b Hb]. rewrite Hb. f_equal.
  specialize (Ho i b Hb).
  assert (1 ≤ csum (owner_weight i) ts).
  { replace 1 with (owner_weight i t) by (unfold owner_weight; by rewrite Hown).
    by eapply csum_lookup. }
  by destruct b; simpl in Ho; [|lia].
Qed.

Lemma owns_unique s ts j k t u i :
  inv (s, ts) → ts !! j = Some t → ts !! k = Some u →
  owns i t = true → owns i u = true → j = k.
Proof.
  intros Hinv Hj Hk Ht Hu. destruct (decide (j = k)) as [|Hne]; [done|]. exfalso.
  pose proof (owns_locked _ _ _ _ _ Hinv Hj Ht) as Hlock.
  pose proof (inv_owner _ Hinv i true Hlock) as Ho. simpl in Ho.
  pose proof (csum_two (owner_weight i) ts j k t u (owner_weight_pos i) Hne Hj Hk) as H2.
  unfold owner_weight in H2 at 1 2. rewrite Ht, Hu in H2. simpl in H2. lia.
Qed.

(** What an access of task [k] has to respect, for the invariant to survive:
    it takes or returns mutexes and permits together with the marks the task
    carries for them, and changes only slots whose mutex it has. *)
Record respects (s : SlotTable.t) (t : task) (s' : SlotTable.t) (t' : task) : Prop := {
  rs_locked_len : length (locked s') = length (locked s);
  rs_active_len : length (active s') = length (active s);
  rs_slots_len : length (slots s') = length (slots s);
  rs_locked : ∀ i b b', locked s !! i = Some b → locked s' !! i = Some b' →
    Z.b2z b' = Z.b2z b - owner_weight i t + owner_weight i t';
  rs_permits : permits s' + permit_weight t' - live_slots s' =
    permits s + permit_weight t - live_slots s;
  rs_pos : 0 ≤ permits s';
  rs_live : live_slots s' - csum usable_weight (slots s') =
    live_slots s - csum usable_weight (slots s);
  rs_closed : closed s' = (live_slots s' =? 0);
  rs_limits : slot_limits_word s' = slot_limits_word s;
  rs_task : task_ok s' t';
  rs_frame : ∀ i, owns i t = false → slots s' !! i = slots s !! i;
  rs_ids : ∀ i x, slots s' !! i = Some x → SlotState.id x = Z.of_nat i;
}.

Lemma task_ok_frame s ts k t s' t' j u :
  inv (s, ts) → ts !! k = Some t → respects s t s' t' → j ≠ k → ts !! j = Some u →
  task_ok s' u.
Proof.
  intros Hinv Hk Hr Hjk Hj. pose proof (inv_tasks _ Hinv j u Hj) as Hu. simpl in Hu.
  pose proof (rs_slots_len _ _ _ _ Hr) as Hlen.
  destruct u as [| | | | | | | |g| |]; simpl in *; unfold blen in *; try rewrite Hlen; try done.
  destruct Hu as (x & Hx & Hux). exists x. split; [|done].
  rewrite (rs_frame _ _ _ _ Hr); [done|].
  destruct (owns (SlotGuard.index g) t) eqn:Hown; [|done]. destruct Hjk.
  eapply (owns_unique s ts j k); [done..| |exact Hown]. simpl. apply Nat.eqb_refl.
Qed.

Lemma inv_respects s ts k t s' t' :
  inv (s, ts) → ts !! k = Some t → respects s t s' t' → inv (s', <[k := t']> ts).
Proof.
  intros Hinv Hk Hr. pose proof Hinv as [Hl Ha Hn Ho Hp H0 Hv Hc Hm Ht Hi].
  pose proof Hr as [Rl Ra Rs RL Rp R0 Rv Rc Rm Rt Rf Ri]. simpl in *.
  split; simpl; rewrite ?Rl, ?Ra, ?Rs; try done; unfold blen in *; rewrite ?Rs; try done.
  - intros i b' Hb'. rewrite (csum_insert _ _ _ _ _ Hk).
    assert (is_Some (locked s !! i)) as [b Hb].
    { apply lookup_lt_is_Some. rewrite <- Rl. by eapply lookup_lt_Some. }
    rewrite (Ho i b Hb). pose proof (RL i b b' Hb Hb'). lia.
  - rewrite (csum_insert _ _ _ _ _ Hk). lia.
  - lia.
  - unfold limits_ok, slot_limits, blen in *. by rewrite Rm, Rs.
  - intros j u Hj. apply list_lookup_insert_Some in Hj as [(-> & -> & _)|[Hjk Hj]]; [done|].
    by eapply (task_ok_frame s ts k t s' t' j).
Qed.

Lemma inv_wake s ts : inv (s, ts) → inv (s, wake <$> ts).
Proof.
  intros [Hl Ha Hn Ho Hp H0 Hv Hc Hm Ht Hi]. split; simpl in *; try done.
  - intros i b Hb. rewrite <- (Ho i b Hb). apply csum_fmap. by intros [].
  - rewrite <- Hp. f_equal. apply csum_fmap. by intros [].
  - intros k t Hk. rewrite list_lookup_fmap in Hk. destruct (ts !! k) as [u|] eqn:Hu; [|done].
    specialize (Ht k u Hu). simplify_eq/=. by destruct u.
Qed.

Lemma inv_limits_step s ts highest target :
  is_u32 highest → is_u32 target → inv (s, ts) → inv (update_limits highest target s, ts).
Proof.
  intros Hh Ht [Hl Ha Hn Ho Hp H0 Hv Hc Hm Htk Hi]. simpl in *. split; try done.
  unfold limits_ok. cbn [fst]. rewrite update_limits_values by done. cbn [slots update_limits].
  ulia.
Qed.

Lemma inv_initial slot_count tasks :
  is_u32 slot_count → inv (initial slot_count tasks).
Proof.
  unfold_widths. intros Hc. unfold initial, new. set (n := Z.max slot_count 1).
  assert (Hn : 1 ≤ n ≤ 2 ^ 32 - 1) by lia.
  assert (Hlen : length ((λ id, SlotState.mk id 1 true) <$> seqZ 0 n) = Z.to_nat n)
    by (by rewrite length_fmap, length_seqZ).
  split; cbn [fst snd locked active slots permits closed live_slots]; rewrite ?length_replicate; try done.
  - unfold blen, u32_max. rewrite Hlen. lia.
  - intros i b Hb. apply lookup_replicate in Hb as [-> _]. rewrite csum_replicate.
    unfold owner_weight. simpl. lia.
  - rewrite csum_replicate. simpl. lia.
  - lia.
  - rewrite (csum_fmap _ _ (λ _, 1)) by done.
    assert (Hs : ∀ l : list Z, csum (λ _, 1) l = blen l).
    { induction l as [|x l IH]; [done|]. rewrite blen_cons, <- IH. done. }
    rewrite Hs. unfold blen. rewrite length_seqZ. lia.
  - symmetry. apply Z.eqb_neq. lia.
  - unfold limits_ok. erewrite limits_pack; [|..|done]; cbn [slots]; unfold blen; rewrite ?Hlen; ulia.
  - intros k t Hk. by apply lookup_replicate in Hk as [-> _].
  - intros i x Hx. rewrite list_lookup_fmap in Hx.
    destruct (seqZ 0 n !! i) eqn:Hi; [|done]. apply lookup_seqZ in Hi as [-> _].
    simplify_eq/=. lia.
Qed.

(** ** Every access respects the invariant *)

Lemma add_permits_0 s : add_permits 0 s = s.
Proof. destruct s. unfold add_permits. simpl. by rewrite Z.add_0_r. Qed.

Section accesses.
Context (s : SlotTable.t) (ts : list task) (t : task) (Hinv : inv (s, ts)).

(** Accesses that only move the task, or move permits as well. *)
Lemma respects_move t' n :
  (∀ i, owner_weight i t' = owner_weight i t) → n + permit_weight t' = permit_weight t →
  0 ≤ permits s + n → task_ok s t' → respects s t (add_permits n s) t'.
Proof.
  intros Hw Hp Hn Ht. destruct Hinv. split; simpl in *; try done.
  - intros i b b' Hb Hb'. rewrite Hw. rewrite Hb in Hb'. simplify_eq. lia.
  - lia.
Qed.

Lemma respects_stay t' :
  (∀ i, owner_weight i t' = owner_weight i t) → permit_weight t' = permit_weight t →
  task_ok s t' → respects s t s t'.
Proof.
  intros Hw Hp Ht. rewrite <- add_permits_0 at 2. apply respects_move; try done.
  pose proof (inv_pos _ Hinv). simpl in *. lia.
Qed.

(** Taking and dropping the mutex of slot [j]. *)
Lemma respects_lock t' j b :
  locked s !! j = Some (negb b) →
  (∀ i, owner_weight i t' =
        owner_weight i t + (if decide (i = j) then Z.b2z b - Z.b2z (negb b) else 0)) →
  permit_weight t' = permit_weight t → task_ok s t' →
  respects s t (set_locked j b s) t'.
Proof.
  intros Hj Hw Hp Ht. destruct Hinv. split; simpl in *; rewrite ?length_insert; try done.
  - intros i c c' Hc Hc'. rewrite Hw. destruct (decide (i = j)) as [->|Hij].
    + rewrite list_lookup_insert_eq in Hc' by (by eapply lookup_lt_Some).
      rewrite Hj in Hc. simplify_eq. lia.
    + rewrite list_lookup_insert_ne in Hc' by done. rewrite Hc in Hc'. simplify_eq. lia.
  - lia.
Qed.

Lemma respects_active t' j b :
  respects s t s t' → respects s t (set_active j b s) t'.
Proof. intros []. split; simpl; rewrite ?length_insert; done. Qed.

End accesses.

Lemma respects_trans s t s1 t1 s2 t2 :
  (∀ i, owns i t = false → owns i t1 = false) →
  respects s t s1 t1 → respects s1 t1 s2 t2 → respects s t s2 t2.
Proof.
  intros Hown [] []. split; try done; try congruence; try lia.
  - intros i b b' Hb Hb'.
    assert (is_Some (locked s1 !! i)) as [b1 Hb1].
    { apply lookup_lt_is_Some. rewrite rs_locked_len0. by eapply lookup_lt_Some. }
    pose proof (rs_locked0 i b b1 Hb Hb1). pose proof (rs_locked1 i b1 b' Hb1 Hb'). lia.
  - intros i Hi. rewrite rs_frame1 by auto. auto.
Qed.

(** The holder's changes to its own slot. *)
Lemma respects_slot s ts k g g' x y s' :
  inv (s, ts) → ts !! k = Some (Holding g) → slots s !! SlotGuard.index g = Some x →
  SlotGuard.index g' = SlotGuard.index g → SlotState.id y = SlotState.id x →
  SlotState.usable y = negb (SlotGuard.retire_permit g') →
  slots s' = <[SlotGuard.index g := y]> (slots s) → locked s' = locked s → active s' = active s →
  permits s' = permits s → slot_limits_word s' = slot_limits_word s →
  live_slots s' = live_slots s - usable_weight x + usable_weight y →
  closed s' = (live_slots s' =? 0) →
  respects s (Holding g) s' (Holding g').
Proof.
  intros Hinv Hk Hx Hg Hid Hu Hs Hl Ha Hp Hm Hv Hc.
  pose proof (inv_tasks _ Hinv _ _ Hk) as (x' & Hx' & Hux). simpl in Hx'.
  rewrite Hx in Hx'. simplify_eq. destruct Hinv. simpl in *.
  assert (Hlt := lookup_lt_Some _ _ _ Hx).
  split; rewrite ?Hs, ?Hl, ?Ha, ?Hp, ?length_insert; try done.
  - intros i b b' Hb Hb'. unfold owner_weight. simpl. rewrite Hg, Hb in *. simplify_eq. lia.
  - unfold usable_weight in Hv. rewrite Hu, Hux in Hv. simpl. lia.
  - rewrite (csum_insert _ _ _ _ _ Hx). lia.
  - exists y. rewrite Hs, Hg. by rewrite list_lookup_insert_eq.
  - intros i Hi. apply Nat.eqb_neq in Hi. by rewrite list_lookup_insert_ne.
  - intros i z Hz. apply list_lookup_insert_Some in Hz as [(<- & <- & _)|[_ Hz]]; [|eauto].
    rewrite Hid. eauto.
Qed.

Lemma mark_unusable_respects s ts k g g' s' :
  inv (s, ts) → ts !! k = Some (Holding g) → SlotGuard.mark_unusable g s = (g', s') →
  respects s (Holding g) s' (Holding g').
Proof.
  intros Hinv Hk Hm. pose proof (inv_tasks _ Hinv _ _ Hk) as Hok.
  pose proof Hok as (x & Hx & Hux). simpl in Hx.
  unfold SlotGuard.mark_unusable in Hm. rewrite Hx in Hm.
  destruct (SlotState.usable x) eqn:Hu; simplify_eq.
  - eapply (respects_slot s ts k g _ x
      (SlotState.mk (SlotState.id x) (SlotState.sequenceid x) false)); try done;
      simpl; unfold usable_weight; rewrite ?Hu; simpl; [lia|].
    pose proof (inv_closed _ Hinv) as Hc. pose proof (inv_live _ Hinv) as Hl. simpl in *.
    pose proof (csum_lookup usable_weight _ _ _ usable_weight_pos Hx) as Hge.
    unfold usable_weight in Hge at 1. rewrite Hu in Hge. simpl in Hge.
    rewrite Hc. destruct (Z.eqb_spec (live_slots s) 1), (Z.eqb_spec (live_slots s - 1) 0); lia.
  - by apply (respects_stay s' ts).
Qed.

Lemma unlock_respects s ts k g g' s' :
  inv (s, ts) → ts !! k = Some (Holding g) → SlotGuard.unlock g s = (g', s') →
  respects s (Holding g) s' (Releasing g').
Proof.
  intros Hinv Hk Hu. unfold SlotGuard.unlock in Hu.
  destruct (if SlotGuard.request_outstanding g then _ else _) as [g1 s1] eqn:Hm.
  assert (Hr : respects s (Holding g) s1 (Holding g1)).
  { destruct (SlotGuard.request_outstanding g); [by eapply mark_unusable_respects|].
    simplify_eq. apply (respects_stay s1 ts); try done. by apply (inv_tasks _ Hinv k). }
  simplify_eq.
  assert (Hi : SlotGuard.index g' = SlotGuard.index g).
  { unfold SlotGuard.mark_unusable in Hm. repeat case_match; by simplify_eq. }
  pose proof (inv_respects _ _ _ _ _ _ Hinv Hk Hr) as Hinv1.
  assert (Hk1 : <[k := Holding g']> ts !! k = Some (Holding g'))
    by (apply list_lookup_insert_eq; by eapply lookup_lt_Some).
  eapply (respects_trans _ _ s1 (Holding g')); [|done|].
  { intros i. simpl. by rewrite Hi. }
  eapply respects_lock; [exact Hinv1|..].
  - simpl. eapply owns_locked; [exact Hinv1|exact Hk1|]. simpl. apply Nat.eqb_refl.
  - intros i. unfold owner_weight. simpl. destruct (decide _) as [->|Hne].
    + rewrite Nat.eqb_refl. done.
    + apply not_eq_sym, Nat.eqb_neq in Hne. by rewrite Hne.
  - done.
  - pose proof (inv_tasks _ Hinv1 _ _ Hk1) as (x & Hx & _). simpl in *.
    apply lookup_lt_Some in Hx. unfold blen. lia.
Qed.

Ltac owner_cases :=
  let i := fresh in intros i; unfold owner_weight; simpl;
  repeat match goal with
  | |- context [decide ?P] => destruct (decide P)
  | |- context [(?a =? ?b)%nat] => destruct (Nat.eqb_spec a b)
  end; subst; simpl; lia.

Lemma acquire_step_respects s ts k t t' s' :
  inv (s, ts) → ts !! k = Some t → acquire_step t s = Some (t', s') → respects s t s' t'.
Proof.
  intros Hinv Hk Ha. pose proof (inv_tasks _ Hinv _ _ Hk) as Hok. simpl in Hok.
  pose proof (inv_pos _ Hinv) as Hpos. simpl in Hpos.
  destruct t as [| |w|index target seen w|index target seen w|[]| | | | |]; simpl in Ha; try done.
  - destruct (closed s); [simplify_eq; by eapply respects_stay|].
    destruct (Z.ltb_spec 0 (permits s)); [|done]. simplify_eq. eapply respects_move; try done. lia.
  - simplify_eq. by eapply respects_stay.
  - simplify_eq. eapply respects_stay; try done. pose proof (inv_limits _ Hinv) as Hl.
    unfold limits_ok, target_highest_slotid in *. simpl in *. destruct (slot_limits s'). simpl. lia.
  - destruct (Z.leb_spec (Z.of_nat index) target) as [Hle|Hgt].
    + assert (Hlt : (index < length (locked s))%nat).
      { pose proof (inv_locked _ Hinv) as Hlen. simpl in *. unfold blen in *. lia. }
      apply lookup_lt_is_Some in Hlt as [b Hb]. rewrite Hb in Ha. destruct b; simplify_eq.
      * by eapply respects_stay.
      * eapply respects_lock; [done..|owner_cases|done|]. simpl in *. unfold blen in *. lia.
    + simplify_eq. eapply respects_move; try done; [by destruct seen..|lia|by destruct seen].
  - destruct Hok as [Hok Hi]. unfold blen in Hi.
    assert (Hlt : (index < length (slots s))%nat) by lia.
    apply lookup_lt_is_Some in Hlt as [x Hx]. rewrite Hx in Ha.
    destruct (SlotState.usable x) eqn:Hu; simplify_eq.
    + apply respects_active. eapply respects_stay; try done. by exists x.
    + eapply respects_lock; [done..| |owner_cases|done|done].
      simpl. eapply owns_locked; [done..|]. simpl. apply Nat.eqb_refl.
  - simplify_eq. by eapply respects_stay.
Qed.

Lemma act_respects s ts k t a t' s' n :
  inv (s, ts) → ts !! k = Some t → act a t s = Some (t', s', n) → respects s t s' t'.
Proof.
  intros Hinv Hk Ha. pose proof (inv_tasks _ Hinv _ _ Hk) as Hok. simpl in Hok.
  destruct a, t as [| | | | | | | |g|g|g]; try done; unfold act in Ha;
    try (destruct (acquire_step _ _) as [[u v]|] eqn:Hs; [|done]; simplify_eq/=;
         by eapply acquire_step_respects).
  - simplify_eq. apply respects_active. by eapply respects_stay.
  - simplify_eq. destruct (SlotGuard.retire_permit g) eqn:Hr.
    + eapply respects_stay; try done. simpl. by rewrite Hr.
    + eapply respects_move; try done; [simpl; by rewrite Hr|].
      pose proof (inv_pos _ Hinv). simpl in *. lia.
  - simplify_eq. by eapply respects_stay.
  - simplify_eq. by eapply respects_stay.
  - simplify_eq. destruct Hok as (x & Hx & Hu). unfold SlotGuard.advance_sequence. rewrite Hx.
    eapply (respects_slot s ts k g g x (SlotState.mk (SlotState.id x)
      (wrap32 (SlotState.sequenceid x + 1)) (SlotState.usable x))); try done;
      simpl; unfold usable_weight; simpl; [lia|].
    apply (inv_closed _ Hinv).
  - destruct (SlotGuard.mark_unusable g s) as [g' s1] eqn:Hm. simplify_eq.
    by eapply mark_unusable_respects.
  - destruct (SlotGuard.unlock g s) as [g' s1] eqn:Hm. simplify_eq. by eapply unlock_respects.
Qed.

Lemma step_inv c c' : inv c → step c c' → inv c'.
Proof.
  intros Hinv Hs. destruct Hs as [k a [s ts] c' Hp|s ts highest target Hh Ht].
  - unfold perform in Hp. destruct (ts !! k) as [t|] eqn:Hk; [|done]. simpl in Hp.
    destruct (act a t s) as [[[t' s'] n]|] eqn:Ha; [|done]. simplify_eq/=.
    assert (inv (s', <[k := t']> ts)) by (eapply inv_respects; eauto using act_respects).
    destruct n; [by apply inv_wake|done].
  - by apply inv_wake, inv_limits_step.
Qed.

Lemma steps_inv c c' : inv c → steps c c' → inv c'.
Proof. intros Hinv Hs. induction Hs; eauto using step_inv. Qed.

Lemma slots_reachable_inv slot_count tasks c :
  is_u32 slot_count → reachable slot_count tasks c → inv c.
Proof. intros Hn. apply steps_inv. by apply inv_initial. Qed.

(** ** Safety *)

(** C20: In every interleaving of any number of tasks, a slot is in use by at
    most one task: two guards never name the same slot, the holder of a guard
    has the slot's mutex and the slot's id is its index; and no task panics on
    an index outside the table, whatever limits the server sends. *)
Theorem slot_mutual_exclusion slot_count tasks s ts :
  is_u32 slot_count → reachable slot_count tasks (s, ts) →
  (∀ j k g h, ts !! j = Some (Holding g) → ts !! k = Some (Holding h) →
     SlotGuard.index g = SlotGuard.index h → j = k) ∧
  (∀ k g, ts !! k = Some (Holding g) →
     locked s !! SlotGuard.index g = Some true ∧
     ∃ x, slots s !! SlotGuard.index g = Some x ∧ SlotState.id x = Z.of_nat (SlotGuard.index g)) ∧
  (∀ k, ts !! k ≠ Some Panicked).
Proof.
  intros Hn Hr%slots_reachable_inv; [|done]. split_and!.
  - intros j k g h Hj Hk Hgh. eapply (owns_unique s ts j k _ _ (SlotGuard.index g)); try done; simpl.
    + apply Nat.eqb_refl.
    + rewrite Hgh. apply Nat.eqb_refl.
  - intros k g Hk. split.
    + eapply owns_locked; [done..|]. simpl. apply Nat.eqb_refl.
    + destruct (inv_tasks _ Hr k _ Hk) as (x & Hx & _). exists x. split; [done|].
      by apply (inv_ids _ Hr).
  - intros k Hk. exact (inv_tasks _ Hr k _ Hk).
Qed.

(** Permits are never lost and never minted.  In every reachable state
    the permits in the semaphore and those the tasks carry add up to
    [live_slots], which is the number of slots still usable, and the
    semaphore is closed exactly when that number is zero: acquirers are
    refused only when no slot is left. *)
Theorem permit_accounting slot_count tasks s ts :
  is_u32 slot_count → reachable slot_count tasks (s, ts) →
  permits s + csum permit_weight ts = live_slots s ∧
  live_slots s = csum usable_weight (slots s) ∧
  0 ≤ permits s ≤ blen (slots s) ∧
  (closed s = true ↔ ∀ i x, slots s !! i = Some x → SlotState.usable x = false).
Proof.
  intros Hn Hr%slots_reachable_inv; [|done]. destruct Hr as [_ _ _ _ Hp H0 Hl Hc _ _ _]. simpl in *.
  assert (Hle : csum usable_weight (slots s) ≤ blen (slots s)).
  { clear. induction (slots s) as [|x l IH]; [done|]. rewrite blen_cons. simpl.
    unfold usable_weight at 1. destruct (SlotState.usable x); simpl; lia. }
  split_and!; [done..| |].
  { pose proof (csum_nonneg permit_weight ts permit_weight_pos). lia. }
  rewrite Hc, Z.eqb_eq, Hl. split.
  - intros Hz i x Hx. pose proof (csum_lookup usable_weight _ _ _ usable_weight_pos Hx) as Hge.
    unfold usable_weight in Hge at 1. destruct (SlotState.usable x); simpl in Hge; lia.
  - intros Hall. clear -Hall. induction (slots s) as [|x l IH]; [done|]. simpl.
    unfold usable_weight at 1. rewrite (Hall 0%nat x eq_refl). simpl. apply IH.
    intros i y Hy. by apply (Hall (S i)).
Qed.

(** A schedule of one task, used by the witnesses: acquire, arm, drop. *)
Definition acquire_and_hold (k : nat) : list (nat * action) := replicate 5 (k, Run).

Definition after (l : list (nat * action)) (c : state) : state := default c (run_schedule l c).

Lemma after_reachable slot_count tasks l :
  is_Some (run_schedule l (initial slot_count tasks)) →
  reachable slot_count tasks (after l (initial slot_count tasks)).
Proof.
  intros [c Hc]. unfold after. rewrite Hc. simpl. by eapply run_schedule_steps.
Qed.

Definition two_holders : state :=
  after (acquire_and_hold 0 ++ acquire_and_hold 1 ++ [(1%nat, Run)]) (initial 2 2).

Lemma two_holders_reachable : reachable 2 2 two_holders.
Proof. apply after_reachable. vm_compute. eauto. Qed.

Lemma slot_mutual_exclusion_witness :
  (∃ g h, two_holders.2 = [Holding g; Holding h]) ∧ locked two_holders.1 !! 1%nat = Some true.
Proof.
  split; [vm_compute; eauto|].
  destruct (slot_mutual_exclusion 2 2 two_holders.1 two_holders.2 ltac:(ulia)
    two_holders_reachable) as (_ & H & _).
  by destruct (H 1%nat (SlotGuard.mk 1 false false) ltac:(by vm_compute)).
Defined.

Lemma permit_accounting_witness :
  permits two_holders.1 + csum permit_weight two_holders.2 = live_slots two_holders.1.
Proof.
  apply (permit_accounting 2 2 two_holders.1 two_holders.2); [ulia|exact two_holders_reachable].
Defined.

(** ** Who changes a slot, and retirement *)

(** The slots a task can change are those it holds a guard for. *)
Definition holds (i : nat) (t : task) : bool :=
  match t with Holding g => (SlotGuard.index g =? i)%nat | _ => false end.

(** What a holder does to the state of its slot. *)
Definition slot_change (x y : SlotState.t) : Prop :=
  y = SlotState.mk (SlotState.id x) (wrap32 (SlotState.sequenceid x + 1)) (SlotState.usable x) ∨
  y = SlotState.mk (SlotState.id x) (SlotState.sequenceid x) false.

Lemma mark_unusable_slots g s g' s' i :
  SlotGuard.mark_unusable g s = (g', s') →
  slots s' !! i = slots s !! i ∨
  ∃ x y, SlotGuard.index g = i ∧ slots s !! i = Some x ∧ slots s' !! i = Some y ∧ slot_change x y.
Proof.
  unfold SlotGuard.mark_unusable. intros Hm. destruct (slots s !! SlotGuard.index g) as [x|] eqn:Hx.
  - destruct (SlotState.usable x); simplify_eq/=; [|by left].
    destruct (decide (SlotGuard.index g = i)) as [<-|Hne].
    + right. eexists x, _. split_and!; [done..| |by right].
      apply list_lookup_insert_eq. by eapply lookup_lt_Some.
    + left. by rewrite list_lookup_insert_ne.
  - simplify_eq. by left.
Qed.

Lemma acquire_step_slots t s t' s' : acquire_step t s = Some (t', s') → slots s' = slots s.
Proof. intros Ha. destruct t; simpl in Ha; repeat case_match; by simplify_eq. Qed.

Lemma act_slots a t s t' s' n i :
  act a t s = Some (t', s', n) →
  slots s' !! i = slots s !! i ∨
  ∃ x y, holds i t = true ∧ slots s !! i = Some x ∧ slots s' !! i = Some y ∧ slot_change x y.
Proof.
  intros Ha. destruct a, t as [| | | | | | | |g|g|g]; try done; unfold act in Ha;
    try (destruct (acquire_step _ _) as [[u v]|] eqn:Hs; [|done];
         apply acquire_step_slots in Hs; simplify_eq/=; left; by f_equal);
    try (simplify_eq; by left).
  - simplify_eq. destruct (SlotGuard.retire_permit g); by left.
  - simplify_eq. unfold SlotGuard.advance_sequence.
    destruct (slots s !! SlotGuard.index g) as [x|] eqn:Hx; [|by left]. simpl.
    destruct (decide (SlotGuard.index g = i)) as [<-|Hne].
    + right. eexists x, _. rewrite Nat.eqb_refl. split_and!; [done..| |by left].
      apply list_lookup_insert_eq. by eapply lookup_lt_Some.
    + left. by rewrite list_lookup_insert_ne.
  - destruct (SlotGuard.mark_unusable g s) as [g' s1] eqn:Hm. simplify_eq.
    destruct (mark_unusable_slots g s g' s' i Hm) as [|(x & y & Hi & ?)]; [by left|].
    right. exists x, y. simpl. by rewrite Hi, Nat.eqb_refl.
  - unfold SlotGuard.unlock in Ha. destruct (SlotGuard.request_outstanding g).
    + destruct (SlotGuard.mark_unusable g s) as [g' s1] eqn:Hm. simplify_eq/=.
      destruct (mark_unusable_slots g s g' s1 i Hm) as [|(x & y & Hi & ?)]; [by left|].
      right. exists x, y. simpl. by rewrite Hi, Nat.eqb_refl.
    + simplify_eq. by left.
Qed.

(** Only the task that holds a slot changes it, and only in two ways:
    advancing its sequence id by one modulo 2^32, or marking it unusable.
    Every other access of every other task leaves the slot as it is, and no
    access makes an unusable slot usable again. *)
Theorem slot_changed_only_by_holder c c' i x :
  step c c' → slots c.1 !! i = Some x →
  slots c'.1 !! i = Some x ∨
  ∃ k t y, c.2 !! k = Some t ∧ holds i t = true ∧ slots c'.1 !! i = Some y ∧ slot_change x y.
Proof.
  intros Hs Hx. destruct Hs as [k a [s ts] c' Hp|s ts highest target Hh Ht]; [|by left].
  unfold perform in Hp. destruct (ts !! k) as [t|] eqn:Hk; [|done]. simpl in Hp.
  destruct (act a t s) as [[[t' s'] n]|] eqn:Ha; [|done]. simplify_eq/=.
  destruct (act_slots _ _ _ _ _ _ i Ha) as [->|(x' & y & Hh & Hx' & Hy & Hc)]; [by left|].
  right. rewrite Hx in Hx'. simplify_eq. by exists k, t, y.
Qed.

Lemma slot_changed_only_by_holder_witness :
  ∃ c', perform 0 AdvanceSequence two_holders = Some c' ∧
    slots c'.1 !! 1%nat = slots two_holders.1 !! 1%nat.
Proof.
  eexists. split; [vm_compute; reflexivity|].
  destruct (slot_changed_only_by_holder two_holders _ 1 (SlotState.mk 1 1 true)
    (step_task 0 AdvanceSequence two_holders _ eq_refl) ltac:(by vm_compute))
    as [H|(k & t & y & Hk & Ht & Hy & Hc)].
  - exact H.
  - exfalso. destruct Hc as [-> | ->]; vm_compute in Hy; discriminate.
Defined.

(** A slot out of use: unusable, and held by nobody. *)
Definition retired (i : nat) (c : state) : Prop :=
  (∃ x, slots c.1 !! i = Some x ∧ SlotState.usable x = false) ∧
  (∀ k t, c.2 !! k = Some t → holds i t = false).

Lemma acquire_step_holds t s t' s' i x :
  acquire_step t s = Some (t', s') → slots s !! i = Some x → SlotState.usable x = false →
  holds i t' = false.
Proof.
  intros Ha Hx Hu. destruct t; simpl in Ha; repeat case_match; simplify_eq/=; try done.
  destruct (Nat.eqb_spec index i); [|done]. congruence.
Qed.

Lemma act_holds a t s t' s' n i x :
  act a t s = Some (t', s', n) → slots s !! i = Some x → SlotState.usable x = false →
  holds i t = false → holds i t' = false.
Proof.
  intros Ha Hx Hu Ht. destruct a, t; try done; unfold act in Ha;
    try (destruct (acquire_step _ _) as [[u v]|] eqn:Hs; [|done];
         pose proof (acquire_step_holds _ _ _ _ _ _ Hs Hx Hu); by simplify_eq/=);
    try (by simplify_eq).
  - unfold SlotGuard.mark_unusable in *. repeat case_match; by simplify_eq/=.
  - case_match. by simplify_eq.
Qed.

Lemma step_retired c c' i : retired i c → step c c' → retired i c'.
Proof.
  intros [(x & Hx & Hu) Hno] Hs.
  destruct Hs as [k a [s ts] c' Hp|s ts highest target Hh Ht]; simpl in *.
  - unfold perform in Hp. destruct (ts !! k) as [t|] eqn:Hk; [|done]. simpl in Hp.
    destruct (act a t s) as [[[t' s'] n]|] eqn:Ha; [|done]. simplify_eq/=.
    pose proof (Hno k t Hk) as Ht. split; simpl.
    + destruct (act_slots _ _ _ _ _ _ i Ha) as [->|(? & ? & Hh & _)]; [eauto|congruence].
    + assert (H : ∀ j u, <[k := t']> ts !! j = Some u → holds i u = false).
      { intros j u [(-> & -> & _)|[_ Hj]]%list_lookup_insert_Some; [|eauto].
        by eapply act_holds. }
      destruct n; [|exact H]. intros j u Hj. rewrite list_lookup_fmap in Hj.
      destruct (<[k := t']> ts !! j) as [v|] eqn:Hv; [|done]. simplify_eq/=.
      specialize (H j v Hv). by destruct v.
  - split; [eauto|]. intros k u Hk. cbn [snd] in Hk. rewrite list_lookup_fmap in Hk.
    destruct (ts !! k) as [v|] eqn:Hv; [|done]. simplify_eq/=.
    specialize (Hno k v Hv). by destruct v.
Qed.

(** A slot whose guard is dropped while its request is outstanding (the
    call was cancelled or its reply never came) is retired for good: dropping
    the guard makes it unusable, and in every later state it is still
    unusable and no task holds it, so its sequence id is never reused for a
    different request. *)
Theorem retired_slot_never_reused slot_count tasks c k g c1 c2 :
  is_u32 slot_count → reachable slot_count tasks c →
  c.2 !! k = Some (Holding g) → SlotGuard.request_outstanding g = true →
  perform k DropGuard c = Some c1 → steps c1 c2 →
  retired (SlotGuard.index g) c2.
Proof.
  intros Hn Hr%slots_reachable_inv Hk Hout Hp Hs; [|done].
  assert (Hret : retired (SlotGuard.index g) c1).
  { destruct c as [s ts]. simpl in Hk. unfold perform in Hp. rewrite Hk in Hp. simpl in Hp.
    unfold SlotGuard.unlock in Hp. rewrite Hout in Hp.
    destruct (SlotGuard.mark_unusable g s) as [g' s1] eqn:Hm. simplify_eq/=. split; simpl.
    - destruct (inv_tasks _ Hr k _ Hk) as (x & Hx & Hu). simpl in Hx.
      unfold SlotGuard.mark_unusable in Hm. rewrite Hx in Hm.
      destruct (SlotState.usable x) eqn:Hux; simplify_eq/=; [|eauto].
      rewrite list_lookup_insert_eq by (by eapply lookup_lt_Some). eauto.
    - intros j u [(-> & <- & _)|[Hjk Hj]]%list_lookup_insert_Some; [done|].
      destruct (holds (SlotGuard.index g) u) eqn:Hh; [|done]. destruct Hjk.
      eapply (owns_unique s ts k j _ _ (SlotGuard.index g)); [done..| |].
      + simpl. apply Nat.eqb_refl.
      + by destruct u. }
  clear -Hret Hs. induction Hs; eauto using step_retired.
Qed.

Lemma retired_slot_never_reused_witness :
  let c := after (acquire_and_hold 0 ++ [(0%nat, MarkRequestOutstanding)]) (initial 2 2) in
  let c2 := after ((0%nat, DropGuard) :: replicate 2 (0%nat, Run) ++ acquire_and_hold 1) c in
  retired 0 c2.
Proof.
  intros c c2.
  refine (retired_slot_never_reused 2 2 c 0 (SlotGuard.mk 0 true false)
    (after [(0%nat, DropGuard)] c) c2 ltac:(ulia) _ eq_refl eq_refl eq_refl _).
  - apply after_reachable. vm_compute. eauto.
  - apply run_schedule_steps with (l := replicate 2 (0%nat, Run) ++ acquire_and_hold 1).
    vm_compute. reflexivity.
Defined.

(** ** Limits *)

Lemma last_active_spec l index best :
  0 ≤ index → 0 ≤ best →
  (last_active l index best = best ∧ (∀ i, l !! i = Some true → False)) ∨
  (∃ i, l !! i = Some true ∧ last_active l index best = index + Z.of_nat i ∧
        ∀ j, l !! j = Some true → (j ≤ i)%nat).
Proof.
  revert index best. induction l as [|b l IH]; intros index best Hi Hb; simpl; [by left|].
  destruct (IH (index + 1) (if b then index else best)) as [[-> Hno]|(i & Hl & -> & Hmax)];
    [lia|by destruct b|..].
  - destruct b.
    + right. exists 0%nat. split_and!; [done|lia|]. intros [|j] Hj; [lia|]. by destruct (Hno j).
    + left. split; [done|]. intros [|i] H; [done|eauto].
  - right. exists (S i). split_and!; [done|lia|]. intros [|j] Hj; [lia|]. apply Hmax in Hj. lia.
Qed.

Lemma active_highest_bounds s :
  length (active s) = length (slots s) → 1 ≤ blen (slots s) ≤ u32_max →
  0 ≤ active_highest_slotid s < blen (slots s) ∧
  (∀ i, active s !! i = Some true → Z.of_nat i ≤ active_highest_slotid s) ∧
  (active_highest_slotid s ≠ 0 → active s !! Z.to_nat (active_highest_slotid s) = Some true).
Proof.
  intros Hl Hn. unfold active_highest_slotid.
  destruct (last_active_spec (active s) 0 0) as [[-> Hno]|(i & Hi & -> & Hmax)]; [lia..| |].
  - split_and!; [lia..| |done]. intros i Hi. by destruct (Hno i).
  - pose proof (lookup_lt_Some _ _ _ Hi). unfold blen in *. split_and!; [lia..| |].
    + intros j Hj. apply Hmax in Hj. lia.
    + intros _. by replace (Z.to_nat (0 + Z.of_nat i)) with i by lia.
Qed.

(** What a request is told to report as [sa_highest_slotid], in every
    reachable state: a slot above the server's target is given back; otherwise
    the answer is the server's target or the highest slot flagged active,
    whichever is higher, it covers the acquired slot and every flagged slot,
    and never exceeds the limit the server enforces; the task waits exactly
    while a slot above the enforced limit is flagged. *)
Theorem request_highest_slotid_spec slot_count tasks s ts acquired :
  is_u32 slot_count → reachable slot_count tasks (s, ts) →
  let '(enforced, target) := slot_limits s in
  match request_highest_slotid s acquired with
  | Some None => target < acquired
  | Some (Some h) =>
      acquired ≤ target ≤ h ∧ h ≤ enforced < blen (slots s) ∧
      (∀ i, active s !! i = Some true → Z.of_nat i ≤ h) ∧
      (h = target ∨ active s !! Z.to_nat h = Some true)
  | None => acquired ≤ target ∧ ∃ i, active s !! i = Some true ∧ enforced < Z.of_nat i
  end.
Proof.
  intros Hn Hr%slots_reachable_inv; [|done]. destruct Hr as [_ Ha Hlen _ _ _ _ _ Hlim _ _]. cbn [fst snd] in *.
  pose proof (active_highest_bounds s Ha Hlen) as (Hb & Hall & Hat).
  unfold limits_ok in Hlim. unfold request_highest_slotid.
  destruct (slot_limits s) as [enforced target]. unfold as_u32, wrap32.
  destruct (Z.ltb_spec target acquired); [simpl; lia|].
  destruct (Z.ltb_spec enforced acquired); [lia|]. simpl.
  destruct (Z.leb_spec (active_highest_slotid s) enforced).
  - rewrite Z.mod_small by ulia. split_and!; try lia.
    + intros i Hi. specialize (Hall i Hi). lia.
    + destruct (Z.max_spec (active_highest_slotid s) target) as [[? ->]|[? ->]]; [by left|].
      destruct (decide (active_highest_slotid s = 0)); [left; lia|right; auto].
  - split; [done|]. exists (Z.to_nat (active_highest_slotid s)). split; [apply Hat; lia|lia].
Qed.

Lemma request_highest_slotid_spec_witness :
  let s := (two_holders.1) in
  request_highest_slotid s 0 = Some (Some 1) ∧
  (∀ i, active s !! i = Some true → Z.of_nat i ≤ 1).
Proof.
  intros s. assert (Hr : request_highest_slotid s 0 = Some (Some 1)) by (by vm_compute).
  split; [done|]. assert (Hl : slot_limits s = (1, 1)) by (by vm_compute).
  pose proof (request_highest_slotid_spec 2 2 two_holders.1 two_holders.2 0 ltac:(ulia)
    two_holders_reachable) as H.
  fold s in H. rewrite Hl, Hr in H. by destruct H as (_ & _ & H & _).
Defined.

(** However large the limits the server sends, the table stores limits
    within it: after [update_limits] the target is at most the enforced limit,
    both name existing slots and are the server's values cut down to the
    table, and the table keeps between one and [live_slots] slots eligible as
    long as one is live. *)
Theorem update_limits_spec slot_count tasks s ts highest target :
  is_u32 slot_count → reachable slot_count tasks (s, ts) → is_u32 highest → is_u32 target →
  let s' := update_limits highest target s in
  slot_limits s' = (Z.min highest (blen (slots s) - 1),
                    Z.min target (Z.min highest (blen (slots s) - 1))) ∧
  limits_ok s' ∧
  slots s' = slots s ∧
  (0 < live_slots s → 1 ≤ effective_len s' ≤ live_slots s).
Proof.
  intros Hn Hr%slots_reachable_inv Hh Ht s'; [|done].
  pose proof (inv_len _ Hr) as Hlen. simpl in Hlen.
  assert (Hv := update_limits_values highest target s Hh Ht Hlen).
  split_and!; [done|..|done|].
  - exact (inv_limits _ (inv_limits_step _ _ _ _ Hh Ht Hr)).
  - unfold effective_len, target_highest_slotid. unfold s'. rewrite Hv.
    cbn [snd live_slots update_limits]. ulia.
Qed.

Lemma update_limits_spec_witness :
  slot_limits (update_limits 100 200 two_holders.1) = (1, 1).
Proof.
  pose proof (update_limits_spec 2 2 two_holders.1 two_holders.2 100 200 ltac:(ulia)
    two_holders_reachable ltac:(ulia) ltac:(ulia)) as [H _].
  rewrite H. vm_compute. reflexivity.
Defined.

(** ** Acquiring from a quiet table *)

Lemma perform_acquire s ts k t t' s' :
  (k < length ts)%nat → acquire_step t s = Some (t', s') →
  perform k Run (s, <[k := t]> ts) = Some (s', <[k := t']> ts).
Proof.
  intros Hk Ha. unfold perform. rewrite list_lookup_insert_eq by done.
  cbn [mbind option_bind]. assert (Hact : act Run t s = Some (t', s', false)).
  { destruct t; try done; unfold act; by rewrite Ha. }
  rewrite Hact. simpl. by rewrite list_insert_insert_eq.
Qed.

Lemma run_schedule_app l1 l2 c :
  run_schedule (l1 ++ l2) c = (run_schedule l1 c ≫= run_schedule l2).
Proof.
  revert c. induction l1 as [|[k a] l1 IH]; intros c; simpl; [done|].
  destruct (perform k a c); simpl; [apply IH|done].
Qed.

Section quiet.
Context (s : SlotTable.t) (ts : list task) (k : nat) (Hk : (k < length ts)%nat).
Context (Hquiet : ∀ i, (i < length (slots s))%nat → locked s !! i = Some false).

Lemma unlock_relock i : (i < length (slots s))%nat → set_locked i false (set_locked i true s) = s.
Proof.
  intros Hi. specialize (Hquiet i Hi). destruct s as [a b c d e f g]. unfold set_locked. simpl in *.
  f_equal. rewrite list_insert_insert_eq. by apply list_insert_id.
Qed.

(** Two accesses pass an unusable slot and leave the table as it was. *)
Lemma scan_unusable i x target seen w :
  slots s !! i = Some x → SlotState.usable x = false → Z.of_nat i ≤ target →
  run_schedule (replicate 2 (k, Run)) (s, <[k := Scanning i target seen w]> ts) =
  Some (s, <[k := Scanning (S i) target seen w]> ts).
Proof.
  intros Hx Hu Hle. assert (Hi := lookup_lt_Some _ _ _ Hx). cbn [replicate run_schedule].
  erewrite perform_acquire; [|done|]; cycle 1.
  { simpl. destruct (Z.leb_spec (Z.of_nat i) target); [|lia]. by rewrite Hquiet. }
  cbn [mbind option_bind]. erewrite perform_acquire; [|done|]; cycle 1.
  { simpl. by rewrite Hx, Hu. }
  cbn [mbind option_bind]. by rewrite unlock_relock.
Qed.

Lemma scan_unusables i target seen w :
  (∀ j, (j < i)%nat → ∃ x, slots s !! j = Some x ∧ SlotState.usable x = false) →
  Z.of_nat i ≤ target + 1 →
  run_schedule (replicate (2 * i) (k, Run)) (s, <[k := Scanning 0 target seen w]> ts) =
  Some (s, <[k := Scanning i target seen w]> ts).
Proof.
  induction i as [|i IH]; intros Hall Hle; [done|].
  replace (2 * S i)%nat with (2 * i + 2)%nat by lia. rewrite replicate_add, run_schedule_app, IH.
  - destruct (Hall i) as (x & Hx & Hu); [lia|]. eapply scan_unusable; [done..|lia].
  - intros j Hj. apply Hall. lia.
  - lia.
Qed.

Lemma scan_usable i x target seen w :
  slots s !! i = Some x → SlotState.usable x = true → Z.of_nat i ≤ target →
  run_schedule (replicate 2 (k, Run)) (s, <[k := Scanning i target seen w]> ts) =
  Some (set_active i true (set_locked i true s),
        <[k := Holding (SlotGuard.mk i false false)]> ts).
Proof.
  intros Hx Hu Hle. assert (Hi := lookup_lt_Some _ _ _ Hx). cbn [replicate run_schedule].
  erewrite perform_acquire; [|done|]; cycle 1.
  { simpl. destruct (Z.leb_spec (Z.of_nat i) target); [|lia]. by rewrite Hquiet. }
  cbn [mbind option_bind]. erewrite perform_acquire; [|done|]; cycle 1.
  { simpl. by rewrite Hx, Hu. }
  done.
Qed.
End quiet.

Lemma start_scan s ts k :
  ts !! k = Some Idle → closed s = false → 0 < permits s →
  run_schedule (replicate 3 (k, Run)) (s, ts) =
  Some (add_permits (-1) s, <[k := Scanning 0 (target_highest_slotid s) false false]> ts).
Proof.
  intros Hk Hc Hp. assert (Hlt := lookup_lt_Some _ _ _ Hk). rewrite <- (list_insert_id ts k Idle Hk) at 1.
  cbn [replicate run_schedule].
  erewrite perform_acquire; [|done|]; cycle 1.
  { simpl. rewrite Hc. destruct (Z.ltb_spec 0 (permits s)); [done|lia]. }
  cbn [mbind option_bind]. erewrite perform_acquire; [|done|done].
  cbn [mbind option_bind]. by erewrite perform_acquire.
Qed.

Lemma idle_quiet s ts :
  inv (s, ts) → (∀ k t, ts !! k = Some t → t = Idle) →
  csum permit_weight ts = 0 ∧ ∀ i, (i < length (slots s))%nat → locked s !! i = Some false.
Proof.
  intros Hinv Hidle.
  assert (Hz : ∀ f : task → Z, f Idle = 0 → csum f ts = 0).
  { intros f Hf. clear Hinv. induction ts as [|t ts' IH]; [done|]. simpl.
    rewrite (Hidle 0%nat t eq_refl), Hf. apply IH. intros k u Hu. by apply (Hidle (S k)). }
  split; [by apply Hz|]. intros i Hi. pose proof (inv_locked _ Hinv) as Hlen. simpl in Hlen. rewrite <- Hlen in Hi.
  apply lookup_lt_is_Some in Hi as [b Hb]. rewrite Hb.
  pose proof (inv_owner _ Hinv i b Hb) as Ho. rewrite Hz in Ho by done. by destruct b.
Qed.

Lemma find_usable_spec n index s :
  (index + n ≤ length (slots s))%nat →
  match find_usable n index s with
  | Some i => (index ≤ i < index + n)%nat
      ∧ (∃ x, slots s !! i = Some x ∧ SlotState.usable x = true)
      ∧ ∀ j, (index ≤ j < i)%nat → ∃ y, slots s !! j = Some y ∧ SlotState.usable y = false
  | None =>
      ∀ j, (index ≤ j < index + n)%nat → ∃ y, slots s !! j = Some y ∧ SlotState.usable y = false
  end.
Proof.
  revert index. induction n as [|n IH]; intros index Hlen; simpl; [intros; lia|].
  assert (is_Some (slots s !! index)) as [x Hx] by (apply lookup_lt_is_Some; lia). rewrite Hx.
  destruct (SlotState.usable x) eqn:Hu.
  { split_and!; [lia..|eauto|]. intros; lia. }
  specialize (IH (S index) ltac:(lia)). destruct (find_usable n (S index) s) as [i|].
  - destruct IH as (Hi & Hx' & Hall). split_and!; [lia..|done|]. intros j Hj.
    destruct (decide (j = index)) as [->|]; [eauto|]. apply Hall. lia.
  - intros j Hj. destruct (decide (j = index)) as [->|]; [eauto|]. apply IH. lia.
Qed.

Lemma acquire_alone_run s ts k :
  inv (s, ts) →
  (∀ j t, ts !! j = Some t → t = Idle) → ts !! k = Some Idle →
  ∃ n, (n ≤ 2 * length (slots s) + 6)%nat ∧
    run_schedule (replicate n (k, Run)) (s, ts) =
    match acquire_alone s with
    | (Ok g, s') => Some (s', <[k := Holding g]> ts)
    | (Err e, s') => Some (s', <[k := Failed e]> ts)
    | (Panic, _) => None
    end.
Proof.
  intros Hr Hidle Hk.
  destruct (idle_quiet s ts Hr Hidle) as [Hw Hq]. assert (Hlt := lookup_lt_Some _ _ _ Hk).
  unfold acquire_alone. destruct (closed s) eqn:Hc.
  { exists 1%nat. split; [lia|]. simpl. rewrite Hk. simpl. by rewrite Hc. }
  assert (Hp : 0 < permits s).
  { pose proof (inv_permits _ Hr) as Hp. pose proof (inv_closed _ Hr) as Hcl.
    pose proof (inv_pos _ Hr). simpl in *. rewrite Hc in Hcl. symmetry in Hcl.
    apply Z.eqb_neq in Hcl. lia. }
  assert (Ht : 0 ≤ target_highest_slotid s < blen (slots s)).
  { pose proof (inv_limits _ Hr) as Hl. unfold limits_ok, target_highest_slotid in *.
    cbn [fst] in Hl. destruct (slot_limits s). simpl. lia. }
  set (n := Z.to_nat (target_highest_slotid s + 1)).
  pose proof (find_usable_spec n 0 s ltac:(unfold blen in Ht; lia)) as Hf.
  destruct (find_usable n 0 s) as [i|].
  - destruct Hf as (Hi & (x & Hx & Hu) & Hall). exists (3 + (2 * i + 2))%nat.
    split; [unfold blen in Ht; lia|].
    rewrite replicate_add, run_schedule_app, start_scan by done.
    cbn [mbind option_bind]. rewrite replicate_add, run_schedule_app, scan_unusables;
      [|done|done|intros; apply Hall; lia|lia].
    cbn [mbind option_bind]. eapply scan_usable; [done..|lia].
  - exists (3 + (2 * n + 1))%nat. split; [unfold blen in Ht; lia|].
    rewrite replicate_add, run_schedule_app, start_scan by done.
    cbn [mbind option_bind]. rewrite replicate_add, run_schedule_app, scan_unusables;
      [|done|done|intros; apply Hf; lia|lia].
    cbn [mbind option_bind replicate run_schedule]. erewrite perform_acquire; [|done|]; cycle 1.
    { simpl. destruct (Z.leb_spec (Z.of_nat n) (target_highest_slotid s)); [lia|done]. }
    cbn [mbind option_bind]. do 2 f_equal. destruct s. unfold add_permits. simpl. f_equal. lia.
Qed.

Lemma perform_task s ts k a t t' s' n :
  ts !! k = Some t → act a t s = Some (t', s', n) →
  perform k a (s, ts) = Some (s', if n then wake <$> <[k := t']> ts else <[k := t']> ts).
Proof. intros Hk Ha. unfold perform. rewrite Hk. cbn [mbind option_bind]. by rewrite Ha. Qed.

Lemma drop_guard_run s ts k g :
  ts !! k = Some (Holding g) →
  ∃ ts', run_schedule [(k, DropGuard); (k, Run); (k, Run)] (s, ts) = Some (drop_guard g s, ts') ∧
    ts' !! k = Some Idle ∧ length ts' = length ts.
Proof.
  intros Hk. assert (Hlt := lookup_lt_Some _ _ _ Hk). cbn [run_schedule]. unfold drop_guard.
  destruct (SlotGuard.unlock g s) as [g' s'] eqn:Hu.
  rewrite (perform_task s ts k DropGuard _ (Releasing g') s' false Hk) by (unfold act; by rewrite Hu).
  cbn [mbind option_bind].
  erewrite perform_task; [|by apply list_lookup_insert_eq|done]. cbn [mbind option_bind].
  rewrite list_insert_insert_eq.
  erewrite perform_task; [|by rewrite list_lookup_fmap, list_lookup_insert_eq|done].
  cbn [mbind option_bind]. eexists. split; [reflexivity|].
  rewrite list_lookup_insert_eq by (by rewrite length_fmap, length_insert).
  by rewrite length_insert, length_fmap, length_insert.
Qed.

(** When no other task is using the table, the accesses of [acquire] come
    to an end after at most two per slot and six more, and compute
    [acquire_alone]: the lowest-numbered usable slot within the server's
    target, locked and flagged active and otherwise unchanged; or, when no slot
    within the target is usable, the error, with the permit back in the
    semaphore. *)
Theorem acquire_from_quiet slot_count tasks s ts k :
  is_u32 slot_count → reachable slot_count tasks (s, ts) →
  (∀ j t, ts !! j = Some t → t = Idle) → ts !! k = Some Idle →
  ∃ n, (n ≤ 2 * length (slots s) + 6)%nat ∧
    run_schedule (replicate n (k, Run)) (s, ts) =
    match acquire_alone s with
    | (Ok g, s') => Some (s', <[k := Holding g]> ts)
    | (Err e, s') => Some (s', <[k := Failed e]> ts)
    | (Panic, _) => None
    end.
Proof.
  intros Hn Hr Hidle Hk. apply acquire_alone_run; [|done..]. by eapply slots_reachable_inv.
Qed.

Lemma acquire_from_quiet_witness :
  ∃ n, (n ≤ 10)%nat ∧
    run_schedule (replicate n (1%nat, Run)) (initial 2 2) =
    Some (set_active 0 true (set_locked 0 true (add_permits (-1) (new 2))),
          [Idle; Holding (SlotGuard.mk 0 false false)]).
Proof.
  destruct (acquire_from_quiet 2 2 (new 2) [Idle; Idle] 1 ltac:(ulia) (steps_refl _)) as (n & Hn & H).
  - intros [|[|j]] t Ht; by simplify_eq/=.
  - reflexivity.
  - exists n. split; [exact Hn|exact H].
Defined.

(** ** Races *)

Definition acquire_second (k : nat) : list (nat * action) := replicate 6 (k, Run).
Definition drop_steps (k : nat) : list (nat * action) := (k, DropGuard) :: replicate 2 (k, Run).

(** Task 2 uses slot 0.  Task 0 uses slot 1 and unlocks it, task 1 takes slot 1
    and sends a request, then task 0 goes on and clears the slot's flag. *)
Definition flag_race : list (nat * action) :=
  acquire_and_hold 2 ++ acquire_second 0 ++ [(0%nat, DropGuard)] ++ acquire_second 1 ++
  [(1%nat, MarkRequestOutstanding)] ++ drop_steps 2 ++ [(0%nat, Run)].

(** C39: The flag of a slot in use can be cleared by the slot's previous
    holder: [SlotGuard] unlocks the slot before [SlotRelease] stores [false],
    so a task that takes the slot in between has its flag overwritten.  There
    is an execution after which task 1 holds slot 1 with a request
    outstanding and no flag is set; once the server lowers its limits to 1
    and its target to 0, the next request on slot 0 reports 0 as the highest
    slot in use, not 1. *)
Theorem active_flag_lost_by_release_order :
  ∃ s ts g,
    reachable 3 3 (s, ts) ∧ ts !! 1%nat = Some (Holding g) ∧
    SlotGuard.index g = 1%nat ∧ SlotGuard.request_outstanding g = true ∧
    slot_limits s = (1, 0) ∧ active s = [false; false; false] ∧
    request_highest_slotid s 0 = Some (Some 0).
Proof.
  set (c := after flag_race (initial 3 3)).
  exists (update_limits 1 0 c.1), (wake <$> c.2), (SlotGuard.mk 1 true false).
  split; [|by vm_compute].
  eapply steps_step; [|apply step_limits; ulia].
  assert (Hc : reachable 3 3 c) by (apply after_reachable; vm_compute; eauto).
  by destruct c.
Qed.

(** Tasks 1 and 2 acquire: task 2 tries the mutex of slot 0 while task 1 looks
    at the slot; then task 0 acquires. *)
Definition probe_race : list (nat * action) :=
  replicate 4 (1%nat, Run) ++ replicate 5 (2%nat, Run) ++ replicate 2 (1%nat, Run) ++
  replicate 6 (0%nat, Run).

(** A task that waits for a notification when no task can take a step. *)
Definition stuck (k : nat) (c : state) : Prop :=
  c.2 !! k = Some (Waiting false) ∧ ∀ j a, perform j a c = None.

(** C38: A look at an unusable slot holds its mutex for a moment and ends
    without a notification.  A task that tries the mutex in that moment
    counts the slot as eligible and goes to wait, and nobody wakes it: there
    is an execution (slot 0 unusable, the server's target lowered to 0) that
    ends with two tasks told that all eligible slots are unusable and the
    third waiting, with no mutex held, no permit missing, and no task able to
    take a step.  Only a reply that updates the limits would wake it, and no
    request is in flight. *)
Theorem acquire_lost_wakeup :
  ∃ c, reachable 3 3 c ∧ stuck 2 c ∧
    (∀ j t, c.2 !! j = Some t → t = Waiting false ∨ t = Failed all_slots_unusable_error) ∧
    target_highest_slotid c.1 = 0 ∧
    (∃ x, slots c.1 !! 0%nat = Some x ∧ SlotState.usable x = false) ∧
    locked c.1 = [false; false; false] ∧ permits c.1 = live_slots c.1.
Proof.
  set (c0 := after (acquire_and_hold 0 ++ [(0%nat, MarkUnusable)] ++ drop_steps 0) (initial 3 3)).
  set (c1 := (update_limits 0 0 c0.1, wake <$> c0.2)).
  exists (after probe_race c1). split_and!.
  - assert (Hc0 : reachable 3 3 c0) by (apply after_reachable; vm_compute; eauto).
    apply (steps_trans _ c1); [|by apply (run_schedule_steps probe_race); vm_compute].
    apply (steps_step _ c0); [done|]. subst c1. destruct c0. apply step_limits; ulia.
  - split; [by vm_compute|]. intros [|[|[|j]]] []; by vm_compute.
  - intros [|[|[|j]]] t Ht; vm_compute in Ht; simplify_eq; auto.
  - by vm_compute.
  - eexists. split; by vm_compute.
  - by vm_compute.
  - by vm_compute.
Qed.
