(* ===== verification/Exchange.v ===== *)
(** * Exchanges on session slots (src/nfs4/session.rs, [compound_raw_once])

    [compound_raw_once] takes a slot, arms it, hands the request to the
    transport, and on a matching SEQUENCE result records the server's limits,
    advances the slot's sequence id and disarms it; every way out drops the
    guard.  Any number of tasks do this at once on the table of [Slots.v], and
    a task can be cancelled (its future dropped) wherever it waits.

    A step of the model is one access of one task, as in [Slots.v]; [sent]
    records the requests that left the process and [answered] those whose
    SEQUENCE result was accepted.  The theorem is the contract of an NFSv4.1
    slot: the requests sent on it carry consecutive sequence ids from 1, modulo
    2^32, and a request is sent only after the previous one on the slot was
    answered. *)

From S2P Require Import Prelude Proto Errors Slots.
Import SlotTable.

(** Where the holder of a slot is in [compound_raw_once]. *)
Inductive phase : Type :=
| Fresh      (* the slot is acquired, the request not yet armed *)
| Armed      (* [mark_request_outstanding] *)
| InFlight   (* the transport took the request *)
| Replied    (* a matching SEQUENCE result, limits recorded *)
| Done.      (* advanced and disarmed, or not sent and disarmed *)

Module exchange.

Record t : Type := mk {
  table : SlotTable.t;
  tasks : list (task * phase);
  sent : list (nat * Z);
  answered : list (nat * Z);
}.

Definition slots_state (x : t) : Slots.state := (table x, fst <$> tasks x).

(** Puts a task and its phase, waking the others when [notified]. *)
Definition put (x : t) (k : nat) (tk : task) (p : phase) (s : SlotTable.t) (notified : bool) : t :=
  let ts := <[k := (tk, p)]> (tasks x) in
  mk s (if notified then prod_map wake id <$> ts else ts) (sent x) (answered x).

Definition log_sent (e : nat * Z) (x : t) : t := mk (table x) (tasks x) (sent x ++ [e]) (answered x).
Definition log_answered (e : nat * Z) (x : t) : t :=
  mk (table x) (tasks x) (sent x) (answered x ++ [e]).

End exchange.
Import exchange.

Definition is_holding (tk : task) : bool := match tk with Holding _ => true | _ => false end.

(** The moves of a task; [None] when it cannot make the move. *)
Inductive move : Type :=
| Proceed                          (* the next access of [acquire] or of dropping a guard *)
| Arm                              (* [slot.mark_request_outstanding()] *)
| Transmit                         (* [call_with_timeout] hands the request over *)
| NotSent                          (* the call reports that it did not: [slot.disarm_request()] *)
| Reply (highest target : Z)       (* a matching SEQUENCE result: [update_limits] *)
| Finish                           (* [slot.advance_sequence()], [slot.disarm_request()] *)
| Leave.                           (* an early return, a cancellation or the end: the guard drops *)

Definition make_move (k : nat) (m : move) (x : exchange.t) : option exchange.t :=
  '(tk, p) ← tasks x !! k;
  let s := table x in
  match m, tk, p with
  | Proceed, Holding _, _ => None
  | Proceed, tk, _ => '(tk, s, n) ← act Run tk s; Some (put x k tk Fresh s n)
  | Arm, Holding g, Fresh =>
      Some (put x k (Holding (SlotGuard.mark_request_outstanding g)) Armed s false)
  | Transmit, Holding g, Armed =>
      slot ← slots s !! SlotGuard.index g;
      Some (log_sent (SlotGuard.index g, SlotState.sequenceid slot) (put x k tk InFlight s false))
  | NotSent, Holding g, Armed => Some (put x k (Holding (SlotGuard.disarm_request g)) Done s false)
  | Reply highest target, Holding g, InFlight =>
      slot ← slots s !! SlotGuard.index g;
      Some (log_answered (SlotGuard.index g, SlotState.sequenceid slot)
              (put x k tk Replied (update_limits highest target s) true))
  | Finish, Holding g, Replied =>
      Some (put x k (Holding (SlotGuard.disarm_request g)) Done
              (SlotGuard.advance_sequence g s) false)
  | Leave, Holding _, Replied => None
  | Leave, Holding g, _ =>
      let '(g, s) := SlotGuard.unlock g s in Some (put x k (Releasing g) p s false)
  | _, _, _ => None
  end.

Definition move_ok (m : move) : Prop :=
  match m with Reply highest target => is_u32 highest ∧ is_u32 target | _ => True end.

Inductive xsteps (slot_count : Z) (n : nat) : exchange.t → Prop :=
| xsteps_init :
    xsteps slot_count n (exchange.mk (new slot_count) (replicate n (Idle, Fresh)) [] [])
| xsteps_move k m x x' :
    xsteps slot_count n x → move_ok m → make_move k m x = Some x' → xsteps slot_count n x'.

(** The sequence ids of the entries of a slot, in order. *)
Definition seqs_of (i : nat) (l : list (nat * Z)) : list Z :=
  snd <$> filter (λ e, e.1 = i) l.

(** 1, 2, 3, ... modulo 2^32. *)
Definition consecutive (n : Z) : list Z := (λ j, wrap32 (1 + j)) <$> seqZ 0 n.

(** ** Moves are accesses to the slot table *)

Lemma put_state x k tk p s n :
  slots_state (put x k tk p s n) =
  (s, if n then wake <$> <[k := tk]> (fst <$> tasks x) else <[k := tk]> (fst <$> tasks x)).
Proof.
  unfold slots_state, put. cbn [table tasks]. f_equal. destruct n.
  - rewrite <- list_fmap_compose. change tk with (fst (tk, p)) at 2.
    rewrite <- (list_fmap_insert fst), <- list_fmap_compose. apply list_fmap_ext. by intros i [].
  - by rewrite (list_fmap_insert fst).
Qed.

Lemma perform_act k a x tk p tk' s' n :
  tasks x !! k = Some (tk, p) → act a tk (table x) = Some (tk', s', n) →
  perform k a (slots_state x) =
  Some (s', if n then wake <$> <[k := tk']> (fst <$> tasks x) else <[k := tk']> (fst <$> tasks x)).
Proof.
  intros Hk Ha. unfold perform, slots_state. rewrite list_lookup_fmap, Hk. cbn. by rewrite Ha.
Qed.

Lemma steps_one k a c c' : perform k a c = Some c' → steps c c'.
Proof. intros H. eapply steps_step; [constructor|by econstructor]. Qed.

Lemma put_steps x k p tk' s' n a q tk :
  tasks x !! k = Some (tk, q) → act a tk (table x) = Some (tk', s', n) →
  steps (slots_state x) (slots_state (put x k tk' p s' n)).
Proof.
  intros Hk Ha. rewrite put_state. eapply steps_one, perform_act; eauto.
Qed.

Lemma slots_state_log_sent e x : slots_state (log_sent e x) = slots_state x.
Proof. done. Qed.

Lemma slots_state_log_answered e x : slots_state (log_answered e x) = slots_state x.
Proof. done. Qed.

Lemma put_same x k tk p q s :
  tasks x !! k = Some (tk, q) → slots_state (put x k tk p s false) = (s, fst <$> tasks x).
Proof.
  intros Hk. rewrite put_state. f_equal. apply list_insert_id. by rewrite list_lookup_fmap, Hk.
Qed.

Lemma move_steps k m x x' :
  move_ok m → make_move k m x = Some x' → steps (slots_state x) (slots_state x').
Proof.
  intros Hok Hm. unfold make_move in Hm. destruct (tasks x !! k) as [[tk p]|] eqn:Hk; [|done].
  cbn [mbind option_bind] in Hm. destruct m.
  - destruct tk; try done; cbn [mbind option_bind] in Hm;
      destruct (act Run _ (table x)) as [[[tk' s'] n]|] eqn:Ha; try done;
      cbn [mbind option_bind] in Hm; injection Hm as <-;
      (eapply put_steps; [exact Hk|exact Ha]).
  - destruct tk, p; try done. simplify_eq. by eapply (put_steps _ _ _ _ _ _ MarkRequestOutstanding).
  - destruct tk, p; try done. destruct (slots _ !! _); [|done]. simplify_eq/=.
    rewrite slots_state_log_sent. erewrite put_same by done. constructor.
  - destruct tk, p; try done. simplify_eq. by eapply (put_steps _ _ _ _ _ _ DisarmRequest).
  - destruct tk, p; try done. destruct (slots _ !! _); [|done]. simplify_eq/=.
    rewrite slots_state_log_answered, put_state. rewrite list_insert_id by (by rewrite list_lookup_fmap, Hk).
    eapply steps_step; [constructor|]. destruct Hok. by apply step_limits.
  - destruct tk as [| | | | | | | |g| |], p; try done. simplify_eq.
    eapply steps_trans; [by eapply (put_steps _ _ Replied _ _ _ AdvanceSequence)|].
    rewrite !put_state. eapply (steps_one k DisarmRequest). unfold perform.
    rewrite list_lookup_insert_eq by (rewrite length_fmap; by eapply lookup_lt_Some).
    cbn. by rewrite list_insert_insert_eq.
  - destruct tk as [| | | | | | | |g| |]; try (by destruct p).
    assert (Hd : ∀ x', (let '(g, s) := SlotGuard.unlock g (table x) in
        Some (put x k (Releasing g) p s false)) = Some x' → steps (slots_state x) (slots_state x')).
    { intros y Hy. destruct (SlotGuard.unlock g (table x)) as [g' s'] eqn:Hu. simplify_eq.
      eapply (put_steps _ _ _ _ _ _ DropGuard); [done|]. unfold act. by rewrite Hu. }
    destruct p; [by apply Hd..|done|by apply Hd].
Qed.

Lemma xsteps_reachable slot_count n x :
  xsteps slot_count n x → reachable slot_count n (slots_state x).
Proof.
  induction 1 as [|k m x x' _ IH Hok Hm].
  - unfold slots_state. cbn. rewrite fmap_replicate. constructor.
  - eapply steps_trans; [exact IH|]. by eapply move_steps.
Qed.

(** ** The invariant *)

(** The holder of slot [i] has sent a request and not yet advanced the slot;
    and: has sent a request and not yet had its answer. *)
Definition busy (i : nat) (c : task * phase) : Z :=
  match c with
  | (Holding g, InFlight) | (Holding g, Replied) => Z.b2z (SlotGuard.index g =? i)%nat
  | _ => 0
  end.

Definition waiting (i : nat) (c : task * phase) : Z :=
  match c with
  | (Holding g, InFlight) => Z.b2z (SlotGuard.index g =? i)%nat
  | _ => 0
  end.

Definition outstanding_phase (p : phase) : bool :=
  match p with Armed | InFlight | Replied => true | _ => false end.

Definition phase_ok (c : task * phase) : Prop :=
  match c with
  | (Holding g, p) =>
      SlotGuard.retire_permit g = false ∧
      (outstanding_phase p = true → SlotGuard.request_outstanding g = true)
  | _ => True
  end.

Definition count_of (i : nat) (l : list (nat * Z)) : Z := blen (seqs_of i l).

(** What the records say of slot [i]. *)
Record slot_inv (i : nat) (x : exchange.t) : Prop := {
  si_sent : seqs_of i (sent x) = consecutive (count_of i (sent x));
  si_answered : seqs_of i (answered x) = consecutive (count_of i (answered x));
  si_bound : count_of i (answered x) ≤ count_of i (sent x) ≤ count_of i (answered x) + 1;
  si_usable : ∀ slot, slots (table x) !! i = Some slot → SlotState.usable slot = true →
    SlotState.sequenceid slot = wrap32 (1 + count_of i (sent x) - csum (busy i) (tasks x)) ∧
    count_of i (sent x) = count_of i (answered x) + csum (waiting i) (tasks x);
}.

Definition xinv (x : exchange.t) : Prop :=
  (∀ k c, tasks x !! k = Some c → phase_ok c) ∧ ∀ i, slot_inv i x.

Lemma seqs_of_app i l1 l2 : seqs_of i (l1 ++ l2) = seqs_of i l1 ++ seqs_of i l2.
Proof. unfold seqs_of. by rewrite filter_app, fmap_app. Qed.

Lemma seqs_of_same i q : seqs_of i [(i, q)] = [q].
Proof. unfold seqs_of. rewrite filter_cons_True by done. done. Qed.

Lemma seqs_of_other i j q : i ≠ j → seqs_of i [(j, q)] = [].
Proof. intros H. unfold seqs_of. rewrite filter_cons_False by done. done. Qed.

Lemma count_of_same i l q : count_of i (l ++ [(i, q)]) = count_of i l + 1.
Proof. unfold count_of. rewrite seqs_of_app, seqs_of_same, blen_app. done. Qed.

Lemma count_of_other i j l q : i ≠ j → count_of i (l ++ [(j, q)]) = count_of i l.
Proof. intros H. unfold count_of. by rewrite seqs_of_app, seqs_of_other, app_nil_r. Qed.

Lemma consecutive_snoc n : 0 ≤ n → consecutive (n + 1) = consecutive n ++ [wrap32 (1 + n)].
Proof. intros Hn. unfold consecutive. rewrite seqZ_app, fmap_app by lia. done. Qed.

Lemma count_of_nonneg i l : 0 ≤ count_of i l.
Proof. apply blen_nonneg. Qed.

(** One more entry on slot [i] with the next sequence id. *)
Lemma consecutive_log i l q :
  seqs_of i l = consecutive (count_of i l) → q = wrap32 (1 + count_of i l) →
  seqs_of i (l ++ [(i, q)]) = consecutive (count_of i l + 1).
Proof.
  intros Hl ->. rewrite consecutive_snoc by apply count_of_nonneg.
  by rewrite seqs_of_app, seqs_of_same, Hl.
Qed.

Lemma csum_put f x k c tk p s n :
  (∀ c, f (prod_map wake id c) = f c) → tasks x !! k = Some c →
  csum f (tasks (put x k tk p s n)) = csum f (tasks x) - f c + f (tk, p).
Proof.
  intros Hw Hk. unfold put. cbn [tasks]. destruct n.
  - rewrite (csum_fmap f _ f) by done. by apply csum_insert.
  - by apply csum_insert.
Qed.

Lemma busy_wake i c : busy i (prod_map wake id c) = busy i c.
Proof. by destruct c as [[] []]. Qed.

Lemma waiting_wake i c : waiting i (prod_map wake id c) = waiting i c.
Proof. by destruct c as [[] []]. Qed.

Lemma phase_ok_wake c : phase_ok (prod_map wake id c) ↔ phase_ok c.
Proof. by destruct c as [[] []]. Qed.

Lemma phase_ok_put x k tk p s n :
  (∀ j c, tasks x !! j = Some c → phase_ok c) → phase_ok (tk, p) →
  ∀ j c, tasks (put x k tk p s n) !! j = Some c → phase_ok c.
Proof.
  intros Hall Hok.
  assert (H : ∀ j c, <[k := (tk, p)]> (tasks x) !! j = Some c → phase_ok c).
  { intros j c [(-> & <- & _)|[_ Hj]]%list_lookup_insert_Some; [done|eauto]. }
  intros j c. unfold put. cbn [tasks]. destruct n; [|apply H].
  rewrite list_lookup_fmap. destruct (<[k := (tk, p)]> (tasks x) !! j) as [c'|] eqn:Hj; [|done].
  intros [= <-]. apply phase_ok_wake. eauto.
Qed.

Lemma busy_nonneg i c : 0 ≤ busy i c.
Proof. destruct c as [[] []]; simpl; try lia; destruct (_ =? _)%nat; simpl; lia. Qed.

Lemma waiting_nonneg i c : 0 ≤ waiting i c.
Proof. destruct c as [[] []]; simpl; try lia; destruct (_ =? _)%nat; simpl; lia. Qed.

(** While a task holds slot [i], it alone decides what the sums over the tasks
    say of the slot. *)
Lemma holder_alone f x k g p :
  inv (slots_state x) → tasks x !! k = Some (Holding g, p) →
  (∀ c, 0 ≤ f c ≤ owner_weight (SlotGuard.index g) c.1) →
  csum f (tasks x) = f (Holding g, p).
Proof.
  intros Hinv Hk Hf.
  assert (Hkt : (fst <$> tasks x) !! k = Some (Holding g)) by (by rewrite list_lookup_fmap, Hk).
  assert (Hown : owns (SlotGuard.index g) (Holding g) = true) by (simpl; apply Nat.eqb_refl).
  pose proof (owns_locked _ _ _ _ _ Hinv Hkt Hown) as Hl.
  pose proof (inv_owner _ Hinv _ _ Hl) as Ho. cbn [slots_state snd] in Ho.
  rewrite (csum_fmap _ _ (λ c, owner_weight (SlotGuard.index g) c.1)) in Ho by done.
  simpl in Ho.
  assert (Hsub : ∀ l, csum (λ c, owner_weight (SlotGuard.index g) c.1 - f c) l =
    csum (λ c, owner_weight (SlotGuard.index g) c.1) l - csum f l).
  { intros l. unfold csum. induction l as [|c l IH]; [done|]. cbn [foldr]. rewrite IH. lia. }
  pose proof (csum_lookup (λ c, owner_weight (SlotGuard.index g) c.1 - f c) (tasks x) k _
    ltac:(intros c; specialize (Hf c); lia) Hk) as H1.
  pose proof (csum_lookup f (tasks x) k _ ltac:(intros c; specialize (Hf c); lia) Hk) as H2.
  rewrite Hsub, Ho in H1. unfold owner_weight in H1. cbn [fst] in H1. rewrite Hown in H1.
  simpl in H1. lia.
Qed.

(** The slot behind a guard that has not retired it is usable. *)
Lemma holder_usable x k g p slot :
  inv (slots_state x) → tasks x !! k = Some (Holding g, p) → SlotGuard.retire_permit g = false →
  slots (table x) !! SlotGuard.index g = Some slot → SlotState.usable slot = true.
Proof.
  intros Hinv Hk Hret Hx.
  assert (Hkt : (slots_state x).2 !! k = Some (Holding g)) by (cbn; by rewrite list_lookup_fmap, Hk).
  destruct (inv_tasks _ Hinv _ _ Hkt) as (y & Hy & Hyu). cbn in Hy. rewrite Hx in Hy. simplify_eq.
  by rewrite Hyu, Hret.
Qed.

Lemma busy_owner i c : 0 ≤ busy i c ≤ owner_weight i c.1.
Proof.
  split; [apply busy_nonneg|]. destruct c as [tk p]. unfold owner_weight.
  destruct tk, p; simpl; try lia; destruct (_ =? _)%nat; simpl; lia.
Qed.

Lemma waiting_owner i c : 0 ≤ waiting i c ≤ owner_weight i c.1.
Proof.
  split; [apply waiting_nonneg|]. destruct c as [tk p]. unfold owner_weight.
  destruct tk, p; simpl; try lia; destruct (_ =? _)%nat; simpl; lia.
Qed.

(** ** Every move keeps the invariant *)

Lemma slot_inv_frame i x x' :
  slot_inv i x → seqs_of i (sent x') = seqs_of i (sent x) →
  seqs_of i (answered x') = seqs_of i (answered x) →
  (∀ slot, slots (table x') !! i = Some slot → SlotState.usable slot = true →
     slots (table x) !! i = Some slot ∧
     csum (busy i) (tasks x') = csum (busy i) (tasks x) ∧
     csum (waiting i) (tasks x') = csum (waiting i) (tasks x)) →
  slot_inv i x'.
Proof.
  intros [Hs Ha Hb Hu] Es Ea Ht. unfold count_of in *. split; unfold count_of; rewrite ?Es, ?Ea; try done.
  intros slot Hx Husable. destruct (Ht slot Hx Husable) as (Hx' & -> & ->). by apply Hu.
Qed.

(** A move that leaves the records and slot [i] alone. *)
Lemma slot_inv_put i x k c tk p s n :
  slot_inv i x → tasks x !! k = Some c →
  (∀ slot, slots s !! i = Some slot → SlotState.usable slot = true →
     slots (table x) !! i = Some slot ∧ busy i (tk, p) = busy i c ∧ waiting i (tk, p) = waiting i c) →
  slot_inv i (put x k tk p s n).
Proof.
  intros Hi Hk Hs. eapply slot_inv_frame; [exact Hi|done|done|].
  intros slot Hx Hu. destruct (Hs slot Hx Hu) as (Hx' & Hb & Hw). split; [done|].
  rewrite (csum_put _ _ _ _ _ _ _ _ (busy_wake i) Hk), (csum_put _ _ _ _ _ _ _ _ (waiting_wake i) Hk).
  lia.
Qed.

Lemma acquire_fresh tk s tk' s' n :
  is_holding tk = false → act Run tk s = Some (tk', s', n) → phase_ok (tk', Fresh).
Proof.
  intros Hh Ha. destruct tk' as [| | | | | | | |g| |]; try done. simpl. split; [|done].
  destruct tk; try done; cbn [act] in Ha;
    try (destruct (acquire_step _ s) as [[u v]|] eqn:Hs; [|done]; cbn [mbind option_bind] in Ha;
         injection Ha as -> -> <-; cbn [acquire_step] in Hs; repeat case_match; by simplify_eq);
    by simplify_eq.
Qed.

Lemma proceed_xinv x k tk p tk' s' n :
  is_holding tk = false → tasks x !! k = Some (tk, p) → act Run tk (table x) = Some (tk', s', n) →
  xinv x → xinv (put x k tk' Fresh s' n).
Proof.
  intros Hh Hk Ha [Hp Hi]. split.
  - apply phase_ok_put; [done|]. by eapply acquire_fresh.
  - intros i. eapply slot_inv_put; [done..|]. intros slot Hx Hu.
    destruct (act_slots _ _ _ _ _ _ i Ha) as [Heq|(? & ? & Hho & _)]; [|by destruct tk].
    split; [congruence|]. destruct tk; try done; by destruct tk', p.
Qed.

(** Moves of a holder that do not touch the table or the records. *)
Lemma holder_xinv x k g p g' p' :
  tasks x !! k = Some (Holding g, p) → SlotGuard.index g' = SlotGuard.index g →
  phase_ok (Holding g', p') →
  (∀ i, busy i (Holding g', p') = busy i (Holding g, p) ∧
        waiting i (Holding g', p') = waiting i (Holding g, p)) →
  xinv x → xinv (put x k (Holding g') p' (table x) false).
Proof.
  intros Hk Hg Hok Hw [Hp Hi]. split; [by apply phase_ok_put|].
  intros i. eapply slot_inv_put; [done..|]. intros slot Hx Hu. by destruct (Hw i).
Qed.

Lemma transmit_xinv x k g slot :
  inv (slots_state x) → tasks x !! k = Some (Holding g, Armed) →
  slots (table x) !! SlotGuard.index g = Some slot → xinv x →
  xinv (log_sent (SlotGuard.index g, SlotState.sequenceid slot)
          (put x k (Holding g) InFlight (table x) false)).
Proof.
  intros Hinv Hk Hx [Hp Hi]. pose proof (Hp k _ Hk) as [Hret Hout]. split.
  { apply phase_ok_put; [done|]. split; [done|]. intros _. by apply Hout. }
  pose proof (holder_usable _ _ _ _ _ Hinv Hk Hret Hx) as Hu.
  pose proof (holder_alone _ _ _ _ _ Hinv Hk (busy_owner _)) as Hb0.
  pose proof (holder_alone _ _ _ _ _ Hinv Hk (waiting_owner _)) as Hw0. cbn in Hb0, Hw0.
  intros i. destruct (decide (i = SlotGuard.index g)) as [->|Hne].
  - destruct (Hi (SlotGuard.index g)) as [Hs Ha Hbd Hus]. destruct (Hus slot Hx Hu) as [Hseq Hcnt].
    rewrite Hb0, Z.sub_0_r in Hseq. rewrite Hw0 in Hcnt.
    split; cbn [sent answered table put log_sent] in *; rewrite ?count_of_same; try done; [|lia|].
    + apply consecutive_log; done.
    + intros y Hy _. rewrite Hx in Hy. simplify_eq.
      change (tasks (log_sent _ ?y)) with (tasks y).
      rewrite (csum_put _ _ _ _ _ _ _ _ (busy_wake _) Hk), (csum_put _ _ _ _ _ _ _ _ (waiting_wake _) Hk).
      rewrite Hb0, Hw0. cbn. rewrite Nat.eqb_refl. cbn. split; [|lia].
      rewrite Hseq; f_equal; lia.
  - eapply slot_inv_frame; [apply Hi|..]; cbn [sent answered table put log_sent].
    + by rewrite seqs_of_app, seqs_of_other, app_nil_r.
    + done.
    + intros y Hy _. split; [done|]. change (tasks (log_sent _ ?y)) with (tasks y).
      rewrite (csum_put _ _ _ _ _ _ _ _ (busy_wake _) Hk), (csum_put _ _ _ _ _ _ _ _ (waiting_wake _) Hk).
      cbn. rewrite (proj2 (Nat.eqb_neq _ _)) by done. cbn. lia.
Qed.

Lemma reply_xinv x k g slot highest target :
  inv (slots_state x) → tasks x !! k = Some (Holding g, InFlight) →
  slots (table x) !! SlotGuard.index g = Some slot → xinv x →
  xinv (log_answered (SlotGuard.index g, SlotState.sequenceid slot)
          (put x k (Holding g) Replied (update_limits highest target (table x)) true)).
Proof.
  intros Hinv Hk Hx [Hp Hi]. pose proof (Hp k _ Hk) as [Hret Hout]. split.
  { apply phase_ok_put; [done|]. split; [done|]. intros _. by apply Hout. }
  pose proof (holder_usable _ _ _ _ _ Hinv Hk Hret Hx) as Hu.
  pose proof (holder_alone _ _ _ _ _ Hinv Hk (busy_owner _)) as Hb1.
  pose proof (holder_alone _ _ _ _ _ Hinv Hk (waiting_owner _)) as Hw1. cbn in Hb1, Hw1.
  rewrite Nat.eqb_refl in Hb1, Hw1. cbn in Hb1, Hw1.
  intros i. destruct (decide (i = SlotGuard.index g)) as [->|Hne].
  - destruct (Hi (SlotGuard.index g)) as [Hs Ha Hbd Hus]. destruct (Hus slot Hx Hu) as [Hseq Hcnt].
    rewrite Hb1 in Hseq. rewrite Hw1 in Hcnt.
    split; cbn [sent answered table put log_answered] in *; rewrite ?count_of_same; try done; [|lia|].
    + apply consecutive_log; [done|]. rewrite Hseq. f_equal. lia.
    + intros y Hy _. cbn in Hy. rewrite Hx in Hy. simplify_eq.
      change (tasks (log_answered _ ?y)) with (tasks y).
      rewrite (csum_put _ _ _ _ _ _ _ _ (busy_wake _) Hk), (csum_put _ _ _ _ _ _ _ _ (waiting_wake _) Hk).
      rewrite Hb1, Hw1. cbn. rewrite Nat.eqb_refl. cbn. split; [|lia].
      rewrite Hseq; f_equal; lia.
  - eapply slot_inv_frame; [apply Hi|..]; cbn [sent answered table put log_answered].
    + done.
    + by rewrite seqs_of_app, seqs_of_other, app_nil_r.
    + intros y Hy _. split; [done|]. change (tasks (log_answered _ ?y)) with (tasks y).
      rewrite (csum_put _ _ _ _ _ _ _ _ (busy_wake _) Hk), (csum_put _ _ _ _ _ _ _ _ (waiting_wake _) Hk).
      cbn. rewrite (proj2 (Nat.eqb_neq _ _)) by done. cbn. lia.
Qed.

Lemma finish_xinv x k g :
  inv (slots_state x) → tasks x !! k = Some (Holding g, Replied) → xinv x →
  xinv (put x k (Holding (SlotGuard.disarm_request g)) Done
          (SlotGuard.advance_sequence g (table x)) false).
Proof.
  intros Hinv Hk [Hp Hi]. pose proof (Hp k _ Hk) as [Hret Hout]. split.
  { by apply phase_ok_put. }
  pose proof (holder_alone _ _ _ _ _ Hinv Hk (busy_owner _)) as Hb1.
  pose proof (holder_alone _ _ _ _ _ Hinv Hk (waiting_owner _)) as Hw0. cbn in Hb1, Hw0.
  rewrite Nat.eqb_refl in Hb1. cbn in Hb1.
  assert (Ha : act AdvanceSequence (Holding g) (table x) =
    Some (Holding g, SlotGuard.advance_sequence g (table x), false)) by done.
  intros i. destruct (decide (i = SlotGuard.index g)) as [->|Hne].
  - destruct (Hi (SlotGuard.index g)) as [Hs Han Hbd Hus].
    split; [done..|]. intros y Hy Hu. rewrite (csum_put _ _ _ _ _ _ _ _ (busy_wake _) Hk),
      (csum_put _ _ _ _ _ _ _ _ (waiting_wake _) Hk), Hb1, Hw0.
    cbn [sent answered table put] in *. unfold SlotGuard.advance_sequence in Hy.
    destruct (slots (table x) !! SlotGuard.index g) as [slot|] eqn:Hx; [|congruence].
    cbn in Hy. rewrite list_lookup_insert_eq in Hy by (by eapply lookup_lt_Some). simplify_eq. cbn in Hu |- *.
    destruct (Hus slot eq_refl Hu) as [Hseq Hcnt]. rewrite Hb1 in Hseq. rewrite Hw0 in Hcnt.
    rewrite Nat.eqb_refl. cbn. split; [|lia]. rewrite Hseq. unfold wrap32.
    rewrite Z.add_mod_idemp_l by lia. f_equal. lia.
  - eapply slot_inv_put; [apply Hi|done|]. intros slot Hx Hu.
    destruct (act_slots _ _ _ _ _ _ i Ha) as [Heq|(? & ? & Hho & _)].
    + rewrite Heq in Hx. split; [done|]. cbn. by rewrite (proj2 (Nat.eqb_neq _ _)).
    + simpl in Hho. apply Nat.eqb_eq in Hho. congruence.
Qed.

(** Unlocking leaves the slots as they are, except that an armed guard's slot
    is unusable afterwards. *)
Lemma unlock_slots g s g' s' i slot :
  SlotGuard.unlock g s = (g', s') → slots s' !! i = Some slot → SlotState.usable slot = true →
  slots s !! i = Some slot ∧ (SlotGuard.request_outstanding g = true → SlotGuard.index g ≠ i).
Proof.
  unfold SlotGuard.unlock. intros Hul Hx Hu.
  destruct (SlotGuard.request_outstanding g); [|by simplify_eq].
  unfold SlotGuard.mark_unusable in Hul.
  destruct (slots s !! SlotGuard.index g) as [y|] eqn:Hy.
  - destruct (SlotState.usable y) eqn:Hyu; simplify_eq/=.
    + apply list_lookup_insert_Some in Hx as [(<- & <- & _)|[Hne Hx]]; done.
    + split; [done|]. intros _ <-. congruence.
  - simplify_eq/=. split; [done|]. intros _ <-. congruence.
Qed.

Lemma leave_xinv x k g p g' s' :
  tasks x !! k = Some (Holding g, p) → p ≠ Replied →
  SlotGuard.unlock g (table x) = (g', s') → xinv x → xinv (put x k (Releasing g') p s' false).
Proof.
  intros Hk Hnr Hul [Hp Hi]. pose proof (Hp k _ Hk) as [Hret Hout]. split.
  { by apply phase_ok_put. }
  intros i. eapply slot_inv_put; [apply Hi|done|]. intros slot Hx Hu.
  destruct (unlock_slots _ _ _ _ _ _ Hul Hx Hu) as [Hx' Hne]. split; [done|].
  destruct p; try done. cbn. by rewrite (proj2 (Nat.eqb_neq _ _)) by (by apply Hne, Hout).
Qed.

Lemma move_xinv k m x x' :
  inv (slots_state x) → make_move k m x = Some x' → xinv x → xinv x'.
Proof.
  intros Hinv Hm Hx. pose proof Hx as [Hp _]. unfold make_move in Hm.
  destruct (tasks x !! k) as [[tk p]|] eqn:Hk; [|done]. pose proof (Hp _ _ Hk) as Hok.
  cbn [mbind option_bind] in Hm. destruct m.
  - destruct (is_holding tk) eqn:Hh; [by destruct tk|].
    destruct (act Run tk (table x)) as [[[tk' s'] n]|] eqn:Ha; [|by destruct tk; simplify_eq/=].
    assert (x' = put x k tk' Fresh s' n) as -> by (by destruct tk; simplify_eq/=).
    by eapply proceed_xinv.
  - destruct tk, p; try done. simplify_eq. eapply holder_xinv; try done. by destruct Hok.
  - destruct tk, p; try done. destruct (slots _ !! _) eqn:Hs; [|done]. simplify_eq/=.
    by apply transmit_xinv.
  - destruct tk, p; try done. simplify_eq. eapply holder_xinv; try done. by destruct Hok.
  - destruct tk, p; try done. destruct (slots _ !! _) eqn:Hs; [|done]. simplify_eq/=.
    by apply reply_xinv.
  - destruct tk, p; try done. simplify_eq. by apply finish_xinv.
  - destruct tk as [| | | | | | | |g| |]; try (by destruct p).
    destruct (SlotGuard.unlock g (table x)) as [g' s'] eqn:Hu.
    destruct p; simplify_eq; by eapply leave_xinv.
Qed.

Lemma csum_zero {A} (f : A → Z) n c : f c = 0 → csum f (replicate n c) = 0.
Proof. intros H. rewrite csum_replicate, H. lia. Qed.

Lemma xinv_initial slot_count n :
  xinv (exchange.mk (new slot_count) (replicate n (Idle, Fresh)) [] []).
Proof.
  split.
  - intros k c Hk. by apply lookup_replicate in Hk as [-> _].
  - intros i. split; try done. intros slot Hs _.
    cbn [tasks]. rewrite !csum_zero by done. split; [|done].
    unfold new in Hs. cbn in Hs. rewrite list_lookup_fmap in Hs.
    destruct (seqZ _ _ !! i); [|done]. by simplify_eq/=.
Qed.

Lemma xsteps_inv slot_count n x : is_u32 slot_count → xsteps slot_count n x → xinv x.
Proof.
  intros Hc. induction 1 as [|k m x x' Hx IH Hok Hm]; [apply xinv_initial|].
  eapply move_xinv; [|exact Hm|done].
  by eapply slots_reachable_inv, xsteps_reachable.
Qed.

(** C15: The slot contract of NFSv4.1, for any number of tasks exchanging
    requests at once, with cancellations, lost replies and server limits at
    any point: on every slot the requests sent carry the sequence ids 1, 2, 3,
    ... modulo 2^32, each used once; the answers accepted are those of a
    prefix of them; and at most one request of the slot is unanswered. *)
Theorem slot_sequence_discipline slot_count n x i :
  is_u32 slot_count → xsteps slot_count n x →
  seqs_of i (sent x) = consecutive (blen (seqs_of i (sent x))) ∧
  seqs_of i (answered x) = consecutive (blen (seqs_of i (answered x))) ∧
  blen (seqs_of i (answered x)) ≤ blen (seqs_of i (sent x)) ≤ blen (seqs_of i (answered x)) + 1.
Proof.
  intros Hc Hx. destruct (xsteps_inv _ _ _ Hc Hx) as [_ Hi]. by destruct (Hi i).
Qed.

(** Two tasks: the first completes an exchange on slot 0 and starts another
    one; the second uses slot 1 and is cancelled in flight. *)
Fixpoint run_moves (l : list (nat * move)) (x : exchange.t) : option exchange.t :=
  match l with
  | [] => Some x
  | (k, m) :: l => x ← make_move k m x; run_moves l x
  end.

Lemma run_moves_xsteps slot_count n l x x' :
  Forall (λ e, move_ok e.2) l → xsteps slot_count n x → run_moves l x = Some x' →
  xsteps slot_count n x'.
Proof.
  intros Hl. revert x. induction Hl as [|[k m] l Hm Hl IH]; intros x Hx Hr; simplify_eq/=; [done|].
  destruct (make_move k m x) as [x1|] eqn:Hk; [|done]. eapply IH; [|exact Hr].
  by eapply xsteps_move.
Qed.

Definition sample_moves : list (nat * move) :=
  replicate 5 (0%nat, Proceed) ++ [(0%nat, Arm); (0%nat, Transmit)] ++
  replicate 6 (1%nat, Proceed) ++ [(1%nat, Arm); (1%nat, Transmit); (1%nat, Leave)] ++
  [(0%nat, Reply 1 1); (0%nat, Finish); (0%nat, Leave); (0%nat, Proceed); (0%nat, Proceed)] ++
  replicate 5 (0%nat, Proceed) ++ [(0%nat, Arm); (0%nat, Transmit)].

Definition sample_start : exchange.t :=
  exchange.mk (new 2) (replicate 2 (Idle, Fresh)) [] [].

Lemma slot_sequence_discipline_witness :
  ∃ x, run_moves sample_moves sample_start = Some x ∧
    sent x = [(0%nat, 1); (1%nat, 1); (0%nat, 2)] ∧
    seqs_of 0 (sent x) = consecutive (blen (seqs_of 0 (sent x))).
Proof.
  eexists. split; [vm_compute; reflexivity|]. split; [reflexivity|].
  refine (proj1 (slot_sequence_discipline 2 2 _ 0 ltac:(ulia) _)).
  apply (run_moves_xsteps 2 2 sample_moves sample_start); [|apply xsteps_init|vm_compute; reflexivity].
  unfold sample_moves. repeat constructor; ulia.
Defined.
