(* ===== verification/Owner.v ===== *)
(** * The client owner (src/nfs4.rs, [ClientOwner]; codec.rs,
      [latch_fatal_sequence_flags])

    A process has one owner, shared by its sessions: an identity, the verifier
    that tells the server which incarnation of it connects, and the counter
    that names open owners.  When the server reports that it revoked the
    client's state, the session that sees it first rotates the verifier, so
    that the next session registers as a new incarnation.

    [Ulid::new] is a library call: a fresh identifier is an argument. *)

From stdpp Require Import pretty.
From S2P Require Import Prelude Proto Replies.

(** [u64::from_be_bytes] of the last eight of a ULID's sixteen bytes. *)
Definition verifier_from_ulid (ulid : bytes) : Z := be_value (drop 8 ulid).

(** [format!("{id}")] *)
Definition decimal (n : Z) : str := str_of (pretty (Z.to_N n)).

Module ClientOwner.

Record t : Type := mk { verifier : Z; ownerid : str; owner_counter : Z }.

(** [nonce_text] is the display form of the ULID [nonce]. *)
Definition new (process_id : Z) (nonce : bytes) (nonce_text : str) : t :=
  mk (verifier_from_ulid nonce)
     (str_of "nfs-crust:" ++ decimal process_id ++ str_of ":" ++ nonce_text) 1.

Definition verifier_value (o : t) : Z := verifier o.

(** The compare-and-swap: whether it succeeded, and the owner after it. *)
Definition rotate_verifier_if_current (ulid : bytes) (expected : Z) (o : t) : bool * t :=
  let replacement := verifier_from_ulid ulid in
  let replacement := if replacement =? expected then wrap64 (expected + 1) else replacement in
  if verifier o =? expected then (true, mk replacement (ownerid o) (owner_counter o))
  else (false, o).

Definition next_open_owner (o : t) : str * t :=
  (OPEN_OWNER_PREFIX ++ decimal (owner_counter o),
   mk (verifier o) (ownerid o) (wrap64 (owner_counter o + 1))).

End ClientOwner.

(** [latched.fetch_or(status_flags)], then the rotation for the first report
    of lost state: the flags latched now, whether the verifier was rotated,
    and the owner. *)
Definition latch_fatal_sequence_flags (latched : Z) (ulid : bytes) (owner : ClientOwner.t)
    (session_client_verifier status_flags : Z) : Z * bool * ClientOwner.t :=
  let previous := latched in
  let latched := Z.lor latched status_flags in
  if negb (Z.land status_flags SEQ4_STATUS_STATE_LOST =? 0)
     && (Z.land previous SEQ4_STATUS_STATE_LOST =? 0) then
    let '(rotated, owner) :=
      ClientOwner.rotate_verifier_if_current ulid session_client_verifier owner in
    (latched, rotated, owner)
  else (latched, false, owner).

(** ** Open owners *)

Lemma str_of_inj s1 s2 : str_of s1 = str_of s2 → s1 = s2.
Proof.
  unfold str_of. intros H.
  rewrite <- (String.string_of_list_ascii_of_string s1), <- (String.string_of_list_ascii_of_string s2).
  f_equal. eapply list_fmap_eq_inj; [|exact H].
  intros a b Hab. apply Nat2Z.inj in Hab.
  rewrite <- (Ascii.ascii_nat_embedding a), <- (Ascii.ascii_nat_embedding b). by f_equal.
Qed.

Lemma decimal_inj n m : 0 ≤ n → 0 ≤ m → decimal n = decimal m → n = m.
Proof.
  intros Hn Hm H%str_of_inj. apply (inj pretty) in H. lia.
Qed.

(** [n] open owners drawn in a row. *)
Fixpoint draw_owners (n : nat) (o : ClientOwner.t) : list str * ClientOwner.t :=
  match n with
  | O => ([], o)
  | S n =>
      let '(name, o) := ClientOwner.next_open_owner o in
      let '(names, o) := draw_owners n o in
      (name :: names, o)
  end.

Lemma draw_owners_spec n o :
  0 ≤ ClientOwner.owner_counter o → ClientOwner.owner_counter o + Z.of_nat n ≤ u64_max →
  (draw_owners n o).1 =
  (λ i, OPEN_OWNER_PREFIX ++ decimal i) <$> seqZ (ClientOwner.owner_counter o) (Z.of_nat n).
Proof.
  revert o. induction n as [|n IH]; intros o Ho Hb; [done|].
  cbn [draw_owners ClientOwner.next_open_owner].
  destruct (draw_owners n _) as [names o'] eqn:Hd. cbn [fst].
  rewrite seqZ_cons by lia. cbn [fmap list_fmap]. f_equal.
  replace (Z.pred (Z.of_nat (S n))) with (Z.of_nat n) by lia.
  assert (Hw : wrap64 (ClientOwner.owner_counter o + 1) = Z.succ (ClientOwner.owner_counter o)).
  { unfold wrap64. rewrite Z.mod_small; unfold_widths; lia. }
  specialize (IH (ClientOwner.mk (ClientOwner.verifier o) (ClientOwner.ownerid o)
    (wrap64 (ClientOwner.owner_counter o + 1)))). rewrite Hd in IH. cbn in IH.
  rewrite Hw in IH. apply IH; unfold_widths; lia.
Qed.

(** Open owners are never shared: however many a client draws before its
    64-bit counter is exhausted, no two carry the same name, so the server
    keeps the open state of every file apart. *)
Theorem open_owners_distinct n o :
  0 ≤ ClientOwner.owner_counter o → ClientOwner.owner_counter o + Z.of_nat n ≤ u64_max →
  NoDup (draw_owners n o).1.
Proof.
  intros Ho Hb. rewrite draw_owners_spec by done. apply NoDup_fmap_2_strong; [|apply NoDup_seqZ].
  intros i j Hi%elem_of_seqZ Hj%elem_of_seqZ H. apply app_inv_head in H.
  apply decimal_inj; [lia..|done].
Qed.

Lemma open_owners_distinct_witness :
  NoDup (draw_owners 12 (ClientOwner.new 4 (replicate 16 7) (str_of "N"))).1.
Proof. apply open_owners_distinct; vm_compute; discriminate. Defined.

(** ** Verifier rotation *)

Lemma rotate_spec ulid expected o :
  is_u64 expected →
  let '(rotated, o') := ClientOwner.rotate_verifier_if_current ulid expected o in
  (rotated = true ↔ ClientOwner.verifier o = expected) ∧
  (rotated = false → o' = o) ∧
  (rotated = true → ClientOwner.verifier o' ≠ expected).
Proof.
  intros He. unfold ClientOwner.rotate_verifier_if_current.
  destruct (Z.eqb_spec (ClientOwner.verifier o) expected) as [Heq|Hne]; [|naive_solver].
  split_and!; [naive_solver|done|]. intros _. cbn.
  destruct (Z.eqb_spec (verifier_from_ulid ulid) expected); [|done].
  unfold wrap64. destruct (decide (expected = u64_max)) as [->|].
  - vm_compute. discriminate.
  - rewrite Z.mod_small; unfold_widths; lia.
Qed.

(** The reports of one session, in order, each with the ULID drawn for it:
    how often the verifier was rotated. *)
Fixpoint latch_all (reports : list (bytes * Z)) (latched : Z) (verifier : Z) (o : ClientOwner.t)
  : nat * ClientOwner.t :=
  match reports with
  | [] => (0%nat, o)
  | (ulid, flags) :: reports =>
      let '(latched, rotated, o) := latch_fatal_sequence_flags latched ulid o verifier flags in
      let '(n, o) := latch_all reports latched verifier o in
      ((if rotated then S n else n), o)
  end.

Lemma latch_all_after_loss reports latched verifier o :
  Z.land latched SEQ4_STATUS_STATE_LOST ≠ 0 → latch_all reports latched verifier o = (0%nat, o).
Proof.
  revert latched. induction reports as [|[ulid flags] reports IH]; intros latched Hl; [done|].
  cbn [latch_all]. unfold latch_fatal_sequence_flags.
  rewrite (proj2 (Z.eqb_neq (Z.land latched _) 0) Hl), andb_false_r, IH; [done|].
  rewrite Z.land_lor_distr_l, Z.lor_eq_0_iff. tauto.
Qed.

Definition reports_loss (flags : Z) : Prop := Z.land flags SEQ4_STATUS_STATE_LOST ≠ 0.

#[global] Instance reports_loss_dec flags : Decision (reports_loss flags).
Proof. unfold reports_loss. apply _. Defined.

Lemma latch_all_spec reports latched verifier o :
  is_u64 verifier → Z.land latched SEQ4_STATUS_STATE_LOST = 0 →
  let '(n, o') := latch_all reports latched verifier o in
  if decide (Exists (λ r, reports_loss r.2) reports) then
    ClientOwner.verifier o' ≠ verifier ∧
    n = (if decide (ClientOwner.verifier o = verifier) then 1 else 0)%nat
  else n = 0%nat ∧ o' = o.
Proof.
  intros Hv. revert latched. induction reports as [|[ulid flags] reports IH]; intros latched Hl.
  { cbn. destruct (decide _) as [H|]; [by apply Exists_nil in H|done]. }
  cbn [latch_all]. unfold latch_fatal_sequence_flags. rewrite Hl. cbn [Z.eqb].
  rewrite andb_true_r. destruct (decide (reports_loss flags)) as [Hf|Hf].
  - unfold reports_loss in Hf. rewrite (proj2 (Z.eqb_neq _ _) Hf). cbn [negb].
    pose proof (rotate_spec ulid verifier o Hv) as Hr.
    destruct (ClientOwner.rotate_verifier_if_current ulid verifier o) as [rotated o1].
    destruct Hr as (Hiff & Hno & Hyes).
    rewrite latch_all_after_loss by (rewrite Z.land_lor_distr_l, Z.lor_eq_0_iff; tauto).
    rewrite decide_True by (apply Exists_cons; by left). destruct rotated.
    + rewrite decide_True by (by apply Hiff). auto.
    + rewrite Hno by done. assert (ClientOwner.verifier o ≠ verifier).
      { intros H. apply Hiff in H. done. }
      by rewrite decide_False.
  - unfold reports_loss in Hf. apply dec_stable in Hf. rewrite Hf. cbn [negb Z.eqb].
    specialize (IH (Z.lor latched flags)).
    rewrite Z.land_lor_distr_l, Hl, Hf in IH. specialize (IH eq_refl).
    destruct (latch_all reports _ verifier o) as [n o'].
    destruct (decide (Exists (λ r, reports_loss r.2) reports)) as [He|He].
    + rewrite decide_True by (apply Exists_cons; by right). done.
    + rewrite decide_False; [done|]. intros [H|H]%Exists_cons; [|done].
      unfold reports_loss in H. cbn in H. congruence.
Qed.

(** Lost client state is answered by exactly one new incarnation.  A
    session that receives any sequence of fatal status flags rotates the
    shared verifier at most once: at the first report of lost state, if no
    other session has rotated it since; afterwards the owner's verifier
    differs from the one the session registered with, so a reconnect never
    presents the revoked incarnation again; and without such a report the
    owner is left alone. *)
Theorem verifier_rotated_once reports verifier o :
  is_u64 verifier →
  let '(n, o') := latch_all reports 0 verifier o in
  if decide (Exists (λ r, reports_loss r.2) reports) then
    ClientOwner.verifier o' ≠ verifier ∧
    n = (if decide (ClientOwner.verifier o = verifier) then 1 else 0)%nat
  else n = 0%nat ∧ o' = o.
Proof. intros Hv. by apply latch_all_spec. Qed.

Lemma verifier_rotated_once_witness :
  let o := ClientOwner.new 4 (replicate 16 0) [] in
  (latch_all [(replicate 16 0, SEQ4_STATUS_LEASE_MOVED);
              (replicate 16 0, SEQ4_STATUS_ADMIN_STATE_REVOKED);
              (replicate 16 9, SEQ4_STATUS_ADMIN_STATE_REVOKED)] 0 0 o).1 = 1%nat.
Proof.
  intros o. pose proof (verifier_rotated_once
    [(replicate 16 0, SEQ4_STATUS_LEASE_MOVED);
     (replicate 16 0, SEQ4_STATUS_ADMIN_STATE_REVOKED);
     (replicate 16 9, SEQ4_STATUS_ADMIN_STATE_REVOKED)] 0 o ltac:(ulia)) as H.
  destruct (latch_all _ 0 0 o) as [n o'].
  destruct (decide _) as [_|Hn] in H; [by destruct H|].
  destruct Hn. apply Exists_cons. right. apply Exists_cons. left. vm_compute. discriminate.
Defined.
