(* ===== verification/Session.v ===== *)
(** * The session (src/nfs4/session.rs)

    Every operation of [NfsSession] as a state-passing function: the compound
    it builds, the exchange on a slot, the retries, the decoder it hands the
    response to.  The state is the session with its slot table, flags and
    owner; the transport with the server behind it is an argument, [call],
    which may answer anything, and every request and its answer are recorded
    in [history].

    One task runs at a time: [acquire_alone] and [drop_guard] of [Slots.v]
    stand for the accesses of a task that has the table to itself, and
    [Exchange.v] treats the concurrent use of slots.  Waiting is recorded in
    [slept] instead of spent. *)

From S2P Require Import Prelude Proto Errors Path Xdr Ops Rpc Compound Reply Replies Slots Owner.
Import SlotTable.

(** ** State *)

(** A request that was handed to the transport, and what came back. *)
Module Request.
Record t : Type := mk {
  tag : str;
  sequence : option SequenceArgs.t;
  ops : list NfsOp.t;
  reply : res Error.t bytes;
}.
End Request.

Module NfsSession.
Record t : Type := mk {
  rpc : RpcClient.t;
  export_root : FileHandle;
  clientid : Z;
  sessionid : bytes;
  slots : SlotTable.t;
  client_owner : ClientOwner.t;
  client_verifier : Z;
  fused_put_supported : bool;
  reclaim_complete : bool;
  fatal_sequence_flags : Z;
  config : NfsConfig.t;
  max_response_bytes : Z;  (* the transport's record limit *)
  history : list Request.t;
  slept : list Duration;
}.

Definition set_slots (x : SlotTable.t) (s : t) : t :=
  mk (rpc s) (export_root s) (clientid s) (sessionid s) x (client_owner s) (client_verifier s)
     (fused_put_supported s) (reclaim_complete s) (fatal_sequence_flags s) (config s)
     (max_response_bytes s) (history s) (slept s).

Definition set_owner (x : ClientOwner.t) (s : t) : t :=
  mk (rpc s) (export_root s) (clientid s) (sessionid s) (slots s) x (client_verifier s)
     (fused_put_supported s) (reclaim_complete s) (fatal_sequence_flags s) (config s)
     (max_response_bytes s) (history s) (slept s).

Definition set_fused_put_supported (x : bool) (s : t) : t :=
  mk (rpc s) (export_root s) (clientid s) (sessionid s) (slots s) (client_owner s) (client_verifier s)
     x (reclaim_complete s) (fatal_sequence_flags s) (config s)
     (max_response_bytes s) (history s) (slept s).

Definition set_reclaim_complete (x : bool) (s : t) : t :=
  mk (rpc s) (export_root s) (clientid s) (sessionid s) (slots s) (client_owner s) (client_verifier s)
     (fused_put_supported s) x (fatal_sequence_flags s) (config s)
     (max_response_bytes s) (history s) (slept s).

Definition set_fatal_sequence_flags (x : Z) (s : t) : t :=
  mk (rpc s) (export_root s) (clientid s) (sessionid s) (slots s) (client_owner s) (client_verifier s)
     (fused_put_supported s) (reclaim_complete s) x (config s)
     (max_response_bytes s) (history s) (slept s).

Definition set_export_root (x : FileHandle) (s : t) : t :=
  mk (rpc s) x (clientid s) (sessionid s) (slots s) (client_owner s) (client_verifier s)
     (fused_put_supported s) (reclaim_complete s) (fatal_sequence_flags s) (config s)
     (max_response_bytes s) (history s) (slept s).

Definition record (r : Request.t) (s : t) : t :=
  mk (rpc s) (export_root s) (clientid s) (sessionid s) (slots s) (client_owner s) (client_verifier s)
     (fused_put_supported s) (reclaim_complete s) (fatal_sequence_flags s) (config s)
     (max_response_bytes s) (history s ++ [r]) (slept s).

Definition sleep (d : Duration) (s : t) : t :=
  mk (rpc s) (export_root s) (clientid s) (sessionid s) (slots s) (client_owner s) (client_verifier s)
     (fused_put_supported s) (reclaim_complete s) (fatal_sequence_flags s) (config s)
     (max_response_bytes s) (history s) (slept s ++ [d]).
End NfsSession.
Import NfsSession.

Definition claim_transient_retry (attempts retry_limit : Z) : option Z * Z :=
  if retry_limit <=? attempts then (None, attempts)
  else (Some (attempts + 1), attempts + 1).

(** [Duration::MAX], in nanoseconds. *)
Definition duration_max : Duration := 2 ^ 64 * 10 ^ 9 - 1.

Definition transient_retry_delay (base : Duration) (attempt : Z) : Duration :=
  if base * attempt <=? duration_max then base * attempt else duration_max.

(** ** Reading the session *)

Definition ensure_sequence_status_usable (s : NfsSession.t) : res Error.t unit :=
  validate_sequence_status_flags (fatal_sequence_flags s) (reclaim_complete s).

Definition validate_compound_request (tag : str) (ops : list NfsOp.t) (s : NfsSession.t)
  : res Error.t unit :=
  validate_compound_request_limits tag ops
    (NfsConfig.max_compound_ops (config s)) (NfsConfig.max_request_size (config s))
    (RpcClient.encoded_call_len (rpc s) (compound_with_sequence_encoded_len tag ops)).

Definition compound_request_fits (tag : str) (ops : list NfsOp.t) (s : NfsSession.t) : bool :=
  is_ok (validate_compound_request tag ops s).

Definition path_ops_with_extra (components : list str) (extra_ops : Z) (s : NfsSession.t)
  : list NfsOp.t :=
  export_path_ops_with_extra (export_root s) components extra_ops.

Definition session_slot_count (s : NfsSession.t) : Z := effective_len (slots s).

Definition fused_put_viable (len : Z) (s : NfsSession.t) : bool :=
  fused_put_size_viable len (NfsConfig.write_chunk_size (config s)) && fused_put_supported s.

Definition fused_put_fits (ops : list NfsOp.t) (s : NfsSession.t) : bool :=
  compound_request_fits (str_of "put-fused") ops s.

(** ** Combinators *)

Definition asks {A} (f : NfsSession.t → A) : st NfsSession.t Error.t A := λ s, (Ok (f s), s).
Definition try_ {A} (f : NfsSession.t → res Error.t A) : st NfsSession.t Error.t A := λ s, (f s, s).

(** [self.next_owner()] *)
Definition next_owner : st NfsSession.t Error.t str := λ s,
  let '(owner, o) := ClientOwner.next_open_owner (client_owner s) in (Ok owner, set_owner o s).

(** [note_fused_put_failure] *)
Definition fused_put_unsupported (err : Error.t) : bool :=
  match err with Error.Unsupported _ => true | _ => false end
  || match Error.nfs_status_code err with
     | Some code =>
         if (code =? status.NOTSUPP) || (code =? status.OP_ILLEGAL) then true
         else if (code =? status.INVAL) || (code =? status.BAD_STATEID) then
           Error.is_nfs_operation err OpCode.Write
           || Error.is_nfs_operation err OpCode.Commit
           || Error.is_nfs_operation err OpCode.Verify
         else false
     | None => false
     end.

Definition note_fused_put_failure (err : Error.t) (s : NfsSession.t) : NfsSession.t :=
  if fused_put_unsupported err then set_fused_put_supported false s else s.

(** [SlotTable::acquire_for_request] alone: with no other task, the slot
    [acquire] returns is within the limits and no slot above them is flagged,
    so the first look at the limits answers.  The other two answers, giving
    the slot back and waiting, are [Panic] here; [session_exchange_spec] shows
    that they do not occur. *)
Definition acquire_for_request : st SlotTable.t Error.t (SlotGuard.t * Z) :=
  let! slot := acquire_alone in
  λ t, match request_highest_slotid t (Z.of_nat (SlotGuard.index slot)) with
       | Some (Some highest_slotid) => (Ok (slot, highest_slotid), t)
       | _ => (Panic, t)
       end.

Definition on_slots {A} (m : st SlotTable.t Error.t A) : st NfsSession.t Error.t A := λ s,
  let '(r, t) := m (slots s) in (r, set_slots t s).

Section session.
(** The transport and the server: the answer to a request, given the requests
    before it; and the ULIDs drawn for verifiers. *)
Context (call : list Request.t → RpcPayload.t → res Error.t bytes) (ulid : nat → bytes).

(** ** One exchange *)

(** The part of [compound_raw_once] that runs under the guard: the result, and
    the guard as it is when it drops. *)
Definition exchange_under_guard (tag : str) (ops : list NfsOp.t) (slot : SlotGuard.t)
    (highest_slotid : Z) (s : NfsSession.t) : res Error.t bytes * SlotGuard.t * NfsSession.t :=
  match SlotTable.slots (slots s) !! SlotGuard.index slot with
  | None => (Panic, slot, s)
  | Some state =>
      let sequenceid := SlotState.sequenceid state in
      let slotid := SlotState.id state in
      match map_err Error.request_not_sent (ensure_sequence_status_usable s) with
      | Err e => (Err e, slot, s)
      | Panic => (Panic, slot, s)
      | Ok _ =>
          let sequence := SequenceArgs.mk (sessionid s) sequenceid slotid highest_slotid false in
          match encode_compound_with_sequence tag sequence ops with
          | Err e => (Err e, slot, s)
          | Panic => (Panic, slot, s)
          | Ok payload =>
              let slot := SlotGuard.mark_request_outstanding slot in
              let reply := call (history s) payload in
              let s := record (Request.mk tag (Some sequence) ops reply) s in
              match reply with
              | Err err =>
                  let slot :=
                    if Error.is_request_not_sent err then SlotGuard.disarm_request slot else slot in
                  (Err err, slot, s)
              | Panic => (Panic, slot, s)
              | Ok response =>
                  match decode_sequence_result response (sessionid s) sequenceid slotid with
                  | Err e => (Err e, slot, s)
                  | Panic => (Panic, slot, s)
                  | Ok result =>
                      let s := set_slots (update_limits (SequenceResult.highest_slotid result)
                                 (SequenceResult.target_highest_slotid result) (slots s)) s in
                      let s := set_slots (SlotGuard.advance_sequence slot (slots s)) s in
                      let slot := SlotGuard.disarm_request slot in
                      let flags := SequenceResult.status_flags result in
                      let s :=
                        match validate_sequence_status_flags flags (reclaim_complete s) with
                        | Ok _ => s
                        | _ =>
                            let '(latched, _, owner) :=
                              latch_fatal_sequence_flags (fatal_sequence_flags s)
                                (ulid (length (history s))) (client_owner s) (client_verifier s) flags in
                            set_owner owner (set_fatal_sequence_flags latched s)
                        end in
                      (Ok response, slot, s)
                  end
              end
          end
      end
  end.

Definition compound_raw_once (tag : str) (ops : list NfsOp.t) : st NfsSession.t Error.t bytes :=
  let! _ := smap_err Error.request_not_sent (try_ (validate_compound_request tag ops)) in
  let! _ := smap_err Error.request_not_sent (try_ ensure_sequence_status_usable) in
  let! (slot, highest_slotid) :=
    smap_err Error.request_not_sent (on_slots acquire_for_request) in
  λ s, let '(r, slot, s) := exchange_under_guard tag ops slot highest_slotid s in
       (r, set_slots (drop_guard slot (slots s)) s).

(** ** Retries

    The state is the caller's [attempts] counter and the session. *)

Definition retry_transient_compound_error (err : CompoundDecodeError.t) (attempts : Z)
    (s : NfsSession.t) : bool * (Z * NfsSession.t) :=
  match CompoundDecodeError.transient_status err with
  | None => (false, (attempts, s))
  | Some _ =>
      match claim_transient_retry attempts (NfsConfig.transient_retries (config s)) with
      | (None, attempts) => (false, (attempts, s))
      | (Some attempt, attempts) =>
          (true, (attempts,
                  sleep (transient_retry_delay (NfsConfig.transient_retry_delay (config s)) attempt) s))
      end
  end.

(** Every turn of the loop after the first claims a retry; [fuel] is one more
    than the retries left. *)
Fixpoint compound_decode_loop {A} (fuel : nat) (tag : str) (ops : list NfsOp.t)
    (decode : list Z → res CompoundDecodeError.t A) (retry_transients : bool)
    : st (Z * NfsSession.t) CompoundDecodeError.t A := λ '(attempts, s),
  match fuel with
  | O => (Panic, (attempts, s))
  | S fuel =>
      match compound_raw_once tag ops s with
      | (Err e, s) => (Err (CompoundDecodeError.from e), (attempts, s))
      | (Panic, s) => (Panic, (attempts, s))
      | (Ok response, s) =>
          match decode response with
          | Ok result => (Ok result, (attempts, s))
          | Panic => (Panic, (attempts, s))
          | Err err =>
              if retry_transients && transient_compound_retry_is_safe ops err then
                let '(retry, (attempts, s)) := retry_transient_compound_error err attempts s in
                if retry then compound_decode_loop fuel tag ops decode retry_transients (attempts, s)
                else (Err err, (attempts, s))
              else (Err err, (attempts, s))
          end
      end
  end.

Definition compound_decode_detailed {A} (tag : str) (ops : list NfsOp.t)
    (decode : list Z → res CompoundDecodeError.t A) (retry_transients : bool)
    : st (Z * NfsSession.t) CompoundDecodeError.t A := λ '(attempts, s),
  compound_decode_loop (S (Z.to_nat (NfsConfig.transient_retries (config s) - attempts)))
    tag ops decode retry_transients (attempts, s).

Definition compound_decode_with {A} (retry_transients : bool) (tag : str) (ops : list NfsOp.t)
    (decode : list Z → res CompoundDecodeError.t A) : st NfsSession.t Error.t A := λ s,
  let '(r, (_, s)) := compound_decode_detailed tag ops decode retry_transients (0, s) in
  (map_err CompoundDecodeError.into_error r, s).

Definition compound_decode {A} := @compound_decode_with A true.
Definition compound_decode_no_transient_retry {A} := @compound_decode_with A false.

(** ** Operations *)

Definition compound_getfh (tag : str) (ops : list NfsOp.t) (start_op : OpCode.t) (lookup_count : nat)
  : st NfsSession.t Error.t FileHandle :=
  compound_decode tag ops (λ bytes, decode_getfh_compound bytes start_op lookup_count).

Definition compound_create_dir (tag : str) (ops : list NfsOp.t) (parent_lookup_count : nat)
  : st NfsSession.t Error.t unit :=
  let! _ := compound_decode tag ops (λ bytes, decode_create_dir_compound bytes parent_lookup_count) in
  sret tt.

Definition compound_create_dir_handle (tag : str) (ops : list NfsOp.t) (parent_lookup_count : nat)
  : st NfsSession.t Error.t CreateDirHandleOutcome :=
  compound_decode tag ops (λ bytes, decode_create_dir_handle_compound bytes parent_lookup_count).

(** Opening and closing files. *)

Definition open_file (parent : list str) (name : str)
  : st NfsSession.t Error.t (OpenOutcome OpenedFile.t) :=
  let! owner := next_owner in
  let! ops := asks (λ s, path_ops_with_extra parent 2 s
      ++ [NfsOp.Open 0 (clientid s) owner name (NfsConfig.file_mode (config s)); NfsOp.GetFh]) in
  let! outcome := compound_decode (str_of "open") ops
                    (λ bytes, decode_open_file_compound bytes (length parent)) in
  match outcome with
  | OpenExists => sret OpenExists
  | Opened (stateid, fh) => sret (Opened (OpenedFile.mk fh stateid 1))
  end.

(** [opened.close_seqid = opened.close_seqid.wrapping_add(1)]; the file after
    the call is part of the result. *)
Definition bump_close_seqid (opened : OpenedFile.t) : OpenedFile.t :=
  OpenedFile.mk (OpenedFile.fh opened) (OpenedFile.stateid opened)
    (wrap32 (OpenedFile.close_seqid opened + 1)).

Definition close_file (opened : OpenedFile.t) : st NfsSession.t Error.t OpenedFile.t :=
  let ops := [NfsOp.PutFh (OpenedFile.fh opened);
              NfsOp.Close (OpenedFile.close_seqid opened) (OpenedFile.stateid opened)] in
  let! _ := compound_decode (str_of "close") ops
              (λ bytes, decode_close_compound bytes CloseShape.File None) in
  sret (bump_close_seqid opened).

Definition close_ops (opened : list OpenedFile.t) : list NfsOp.t :=
  mjoin ((λ file, [NfsOp.PutFh (OpenedFile.fh file);
                   NfsOp.Close (OpenedFile.close_seqid file) (OpenedFile.stateid file)]) <$> opened).

Definition max_files_by_ops (config : NfsConfig.t) : Z :=
  Z.min (Z.max (saturating_sub (NfsConfig.max_compound_ops config) 1 / 2) 1) MAX_DEFERRED_CLOSE_BATCH.

(** The inner loop of [close_batch]: how many of the [n] first files go into
    one compound ([end - start] in the source). *)
Fixpoint close_chunk (n : nat) (opened : list OpenedFile.t) (s : NfsSession.t) : nat :=
  match n with
  | O => O
  | S n' =>
      if (n =? 1)%nat || compound_request_fits (str_of "close-batch") (close_ops (take n opened)) s
      then n
      else close_chunk n' opened s
  end.

(** The outer loop; every turn closes at least one file, so [fuel] is the
    number of files. *)
Fixpoint close_batch_turns (fuel : nat) (opened : list OpenedFile.t) : st NfsSession.t Error.t unit :=
  match opened with
  | [] => sret tt
  | _ =>
      match fuel with
      | O => spanic
      | S fuel =>
          let! count := asks (λ s,
            close_chunk (Nat.min (Z.to_nat (max_files_by_ops (config s))) (length opened)) opened s) in
          let! _ := compound_decode_no_transient_retry (str_of "close-batch")
                      (close_ops (take count opened))
                      (λ bytes, decode_close_batch_compound bytes count) in
          close_batch_turns fuel (drop count opened)
      end
  end.

Definition close_batch (opened : list OpenedFile.t) : st NfsSession.t Error.t unit :=
  close_batch_turns (length opened) opened.

(** The body of [run_deferred_close_worker] for one batch. *)
Definition close_individually (opened : OpenedFile.t) : st NfsSession.t Error.t unit := λ s,
  match close_file opened s with
  | (Panic, s) => (Panic, s)
  | (_, s) => (Ok tt, s)
  end.

Definition run_deferred_close_batch (batch : list OpenedFile.t) : st NfsSession.t Error.t unit := λ s,
  match close_batch batch s with
  | (Ok _, s) => (Ok tt, s)
  | (Err _, s) => for_each close_individually batch s
  | (Panic, s) => (Panic, s)
  end.

(** ** Publication *)

Definition publish_ops (export_root : FileHandle) (parent : list str) (from_name to_name : str)
    (create_new : bool) : list NfsOp.t :=
  if create_new then
    [NfsOp.SaveFh] ++ extend_export_path_ops [] export_root parent
    ++ [NfsOp.Link to_name; NfsOp.Remove from_name]
  else
    extend_export_path_ops [] export_root parent ++ [NfsOp.SaveFh; NfsOp.Rename from_name to_name].

Definition publish_after_close (source_fh : FileHandle) (parent : list str) (from_name to_name : str)
    (create_new : bool) : st (Z * NfsSession.t) CompoundDecodeError.t unit := λ '(attempts, s),
  let ops :=
    (if create_new then [NfsOp.PutFh source_fh] else [])
    ++ publish_ops (export_root s) parent from_name to_name create_new in
  let tag := if create_new then str_of "publish-link-remove" else str_of "publish-rename" in
  compound_decode_detailed tag ops
    (λ bytes, if create_new then decode_link_remove_publish_compound bytes (length parent)
              else decode_rename_publish_compound bytes (length parent))
    true (attempts, s).

Definition close_publish_ops (export_root : FileHandle) (opened : OpenedFile.t) (parent : list str)
    (from_name to_name : str) (size : Z) (unstable_verifier : option bytes) (create_new : bool)
    : list NfsOp.t :=
  [NfsOp.PutFh (OpenedFile.fh opened)]
  ++ (if unstable_verifier then [NfsOp.Commit 0 (commit_count size)] else [])
  ++ [NfsOp.Verify size; NfsOp.Close (OpenedFile.close_seqid opened) (OpenedFile.stateid opened)]
  ++ publish_ops export_root parent from_name to_name create_new.

Definition close_publish_shape (parent : list str) (create_new : bool) : CloseShape.t :=
  if create_new then CloseShape.LinkRemove (length parent) else CloseShape.Rename (length parent).

(** The guard of the arm that publishes again: CLOSE completed, the publish
    did not, and the status is transient. *)
Definition republish_applies (ops : list NfsOp.t) (err : CompoundDecodeError.t) : bool :=
  CompoundDecodeError.completed_operation err ops OpCode.Close
  && negb (CompoundDecodeError.completed_operation err ops OpCode.Link)
  && negb (CompoundDecodeError.completed_operation err ops OpCode.Rename)
  && CompoundReplies.is_some (CompoundDecodeError.transient_status err).

Definition close_publish (opened : OpenedFile.t) (parent : list str) (from_name to_name : str)
    (size : Z) (unstable_verifier : option bytes) (create_new : bool)
    : st NfsSession.t Error.t OpenedFile.t := λ s,
  let ops := close_publish_ops (export_root s) opened parent from_name to_name size
               unstable_verifier create_new in
  let tag := if create_new then str_of "close-link-remove" else str_of "close-rename" in
  match compound_decode_detailed tag ops
          (λ bytes, decode_close_compound bytes (close_publish_shape parent create_new) unstable_verifier)
          true (0, s) with
  | (Ok _, (_, s)) => (Ok (bump_close_seqid opened), s)
  | (Panic, (_, s)) => (Panic, s)
  | (Err err, (attempts, s)) =>
      if republish_applies ops err then
        match retry_transient_compound_error err attempts s with
        | (false, (_, s)) => (Err (CompoundDecodeError.into_error err), s)
        | (true, (attempts, s)) =>
            match publish_after_close (OpenedFile.fh opened) parent from_name to_name create_new
                    (attempts, s) with
            | (Ok _, (_, s)) => (Ok (bump_close_seqid opened), s)
            | (Err e, (_, s)) => (Err (CompoundDecodeError.into_error e), s)
            | (Panic, (_, s)) => (Panic, s)
            end
        end
      else (Err (CompoundDecodeError.into_error err), s)
  end.

(** ** Lookups, reads and writes *)

Definition lookup_file_handle (components : list str) : st NfsSession.t Error.t FileHandle :=
  let! ops := asks (λ s, path_ops_with_extra components 1 s ++ [NfsOp.GetFh]) in
  compound_getfh (str_of "lookup-file") ops OpCode.PutFh (length components).

Definition lookup_file_handle_attrs (components : list str) (attr_request : AttrRequest.t)
  : st NfsSession.t Error.t (FileHandle * FileAttrs.t) :=
  let! ops := asks (λ s, path_ops_with_extra components 2 s
                ++ [NfsOp.GetFh; NfsOp.GetAttr (AttrRequest.bitmap attr_request)]) in
  compound_decode (str_of "lookup-file-attrs") ops
    (λ bytes, decode_getfh_attrs_compound bytes (length components) attr_request).

Definition read_anonymous (fh : FileHandle) (offset count : Z) : st NfsSession.t Error.t ReadData.t :=
  compound_decode (str_of "read-anon")
    [NfsOp.PutFh fh; NfsOp.Read StateId.anonymous offset count] decode_read_compound.

Definition read_path_anonymous (components : list str) (offset count : Z)
  : st NfsSession.t Error.t ReadData.t :=
  let! ops := asks (λ s, path_ops_with_extra components 1 s
                ++ [NfsOp.Read StateId.anonymous offset count]) in
  compound_decode (str_of "read-path-anon") ops
    (λ bytes, decode_read_path_compound bytes (length components)).

Definition read_path_anonymous_with_handle (components : list str) (offset count : Z)
  : st NfsSession.t Error.t (FileHandle * ReadData.t) :=
  let! ops := asks (λ s, path_ops_with_extra components 2 s
                ++ [NfsOp.GetFh; NfsOp.Read StateId.anonymous offset count]) in
  compound_decode (str_of "read-path-handle") ops
    (λ bytes, decode_read_path_handle_compound bytes (length components)).

Definition read_path_anonymous_with_size (components : list str) (count : Z)
  : st NfsSession.t Error.t (FileHandle * Z * ReadData.t) :=
  let! ops := asks (λ s, path_ops_with_extra components 3 s
                ++ [NfsOp.GetFh; NfsOp.GetAttr Bitmap.size_attr;
                    NfsOp.Read StateId.anonymous 0 count]) in
  compound_decode (str_of "read-path-size") ops
    (λ bytes, decode_read_path_size_compound bytes (length components)).

Definition write (opened : OpenedFile.t) (offset : Z) (data : bytes)
  : st NfsSession.t Error.t WriteData.t :=
  compound_decode (str_of "write")
    [NfsOp.PutFh (OpenedFile.fh opened); NfsOp.Write (OpenedFile.stateid opened) offset data]
    decode_write_compound.

Definition write_and_commit (opened : OpenedFile.t) (offset : Z) (data : bytes)
  : st NfsSession.t Error.t (WriteData.t * bytes) :=
  compound_decode (str_of "write-commit") (write_and_commit_ops opened offset data)
    decode_write_commit_compound.

Definition remove (parent : list str) (name : str) : st NfsSession.t Error.t RemoveOutcome :=
  let! ops := asks (λ s, path_ops_with_extra parent 1 s ++ [NfsOp.Remove name]) in
  compound_decode (str_of "remove") ops (λ bytes, decode_remove_compound bytes (length parent)).

Definition remove_at (dir : FileHandle) (name : str) : st NfsSession.t Error.t RemoveOutcome :=
  compound_decode (str_of "remove-at") [NfsOp.PutFh dir; NfsOp.Remove name]
    (λ bytes, decode_remove_compound bytes 0).

Definition resolve_export_root (components : list str) : st NfsSession.t Error.t FileHandle :=
  compound_getfh (str_of "resolve-export") (root_path_ops_with_extra components 1 ++ [NfsOp.GetFh])
    OpCode.PutRootFh (length components).

Definition reclaim_complete_op : st NfsSession.t Error.t unit :=
  compound_decode (str_of "reclaim-complete") [NfsOp.ReclaimComplete false]
    (λ bytes, decode_no_result_compound bytes OpCode.ReclaimComplete).

(** ** Directories *)

Definition read_dir_page (dir : FileHandle) (cookie : Z) (verifier : bytes)
    (max_entries_hint : option Z) : st NfsSession.t Error.t DirPage.t :=
  let! ops := asks (λ s, [NfsOp.PutFh dir; readdir_op (config s) cookie verifier max_entries_hint]) in
  compound_decode (str_of "readdir") ops (λ bytes, decode_readdir_compound bytes max_entries_hint).

Definition read_dir_path_page (components : list str) (cookie : Z) (verifier : bytes)
    (max_entries_hint : option Z) : st NfsSession.t Error.t (FileHandle * DirPage.t) :=
  let! ops := asks (λ s, path_ops_with_extra components 2 s
                ++ [NfsOp.GetFh; readdir_op (config s) cookie verifier max_entries_hint]) in
  compound_decode (str_of "readdir-path") ops
    (λ bytes, decode_readdir_path_compound bytes max_entries_hint (length components)).

Definition read_dir_path_page_without_handle (components : list str) (cookie : Z) (verifier : bytes)
    (max_entries_hint : option Z) : st NfsSession.t Error.t DirPage.t :=
  let! ops := asks (λ s, path_ops_with_extra components 1 s
                ++ [readdir_op (config s) cookie verifier max_entries_hint]) in
  compound_decode (str_of "readdir-path") ops
    (λ bytes, decode_readdir_path_without_handle_compound bytes max_entries_hint (length components)).

Definition create_dir (parent : list str) (name : str) : st NfsSession.t Error.t unit :=
  let! ops := asks (λ s, path_ops_with_extra parent 1 s
                ++ [NfsOp.CreateDir name (NfsConfig.dir_mode (config s))]) in
  compound_create_dir (str_of "mkdir") ops (length parent).

Definition create_dir_with_handle (parent : list str) (name : str)
  : st NfsSession.t Error.t CreateDirHandleOutcome :=
  let! ops := asks (λ s, path_ops_with_extra parent 2 s
                ++ [NfsOp.CreateDir name (NfsConfig.dir_mode (config s)); NfsOp.GetFh]) in
  compound_create_dir_handle (str_of "mkdir-handle") ops (length parent).

Definition create_dir_at_handle (parent_fh : FileHandle) (name : str) : st NfsSession.t Error.t unit :=
  let! ops := asks (λ s, [NfsOp.PutFh parent_fh;
                          NfsOp.CreateDir name (NfsConfig.dir_mode (config s))]) in
  compound_create_dir (str_of "mkdir") ops 0.

Definition create_child_dir_with_handle (parent_fh : FileHandle) (name : str)
  : st NfsSession.t Error.t CreateDirHandleOutcome :=
  let! ops := asks (λ s, [NfsOp.PutFh parent_fh;
                          NfsOp.CreateDir name (NfsConfig.dir_mode (config s)); NfsOp.GetFh]) in
  compound_create_dir_handle (str_of "mkdir-handle") ops 0.

Definition lookup_child_handle (parent_fh : FileHandle) (name : str)
  : st NfsSession.t Error.t FileHandle :=
  compound_getfh (str_of "lookup-child") [NfsOp.PutFh parent_fh; NfsOp.Lookup name; NfsOp.GetFh]
    OpCode.PutFh 1.

Definition ensure_child_dir_handle (parent_fh : FileHandle) (name : str)
  : st NfsSession.t Error.t FileHandle :=
  let! outcome := create_child_dir_with_handle parent_fh name in
  match outcome with
  | CreatedHandle fh => sret fh
  | HandleExists => lookup_child_handle parent_fh name
  end.

(** The loop of [create_parent_dirs]: [done] are the components before
    [rest], [parent_fh] the handle of the directory they name, when known. *)
Fixpoint create_parent_dirs_loop (done rest : list str) (parent_fh : option FileHandle)
  : st NfsSession.t Error.t unit :=
  match rest with
  | [] => sret tt
  | name :: rest =>
      let needs_child_handle := negb (bool_decide (rest = [])) in
      let! parent_fh :=
        match parent_fh, needs_child_handle with
        | Some fh, true =>
            let! child := ensure_child_dir_handle fh name in sret (Some child)
        | Some fh, false => let! _ := create_dir_at_handle fh name in sret (Some fh)
        | None, true =>
            let! outcome := create_dir_with_handle done name in
            sret (match outcome with CreatedHandle fh => Some fh | HandleExists => None end)
        | None, false => let! _ := create_dir done name in sret None
        end in
      create_parent_dirs_loop (done ++ [name]) rest parent_fh
  end.

Definition create_parent_dirs (parent : list str) : st NfsSession.t Error.t unit :=
  create_parent_dirs_loop [] parent None.

(** ** The fused put *)

Definition fused_put_ops (s : NfsSession.t) (owner : bytes) (parent : list str)
    (temp_name dest_name : str) (data : bytes) (create_new : bool) : list NfsOp.t :=
  let size := blen data in
  extend_export_path_ops [] (export_root s) parent
  ++ (if create_new then [] else [NfsOp.SaveFh])
  ++ [NfsOp.Open 0 (clientid s) owner temp_name (NfsConfig.file_mode (config s)); NfsOp.GetFh;
      NfsOp.Write StateId.current 0 data; NfsOp.Commit 0 (commit_count size); NfsOp.Verify size]
  ++ (if create_new then
        [NfsOp.SaveFh] ++ extend_export_path_ops [] (export_root s) parent
        ++ [NfsOp.Link dest_name; NfsOp.Remove temp_name]
      else [NfsOp.RestoreFh; NfsOp.Rename temp_name dest_name]).

Definition try_put_fused (parent : list str) (temp_name dest_name : str) (data : bytes)
    (create_new : bool) : st NfsSession.t Error.t (option (OpenOutcome (Z * OpenedFile.t))) := λ s,
  if negb (fused_put_viable (blen data) s) then (Ok None, s)
  else
    let size := blen data in
    match next_owner s with
    | (Ok owner, s) =>
        let ops := fused_put_ops s owner parent temp_name dest_name data create_new in
        if negb (fused_put_fits ops s) then (Ok None, s)
        else
          match compound_decode_detailed (str_of "put-fused") ops
                  (λ bytes, decode_fused_put_compound bytes (length parent) create_new)
                  false (0, s) with
          | (Err err, (_, s)) =>
              let err := CompoundDecodeError.into_error err in
              (Err err, note_fused_put_failure err s)
          | (Panic, (_, s)) => (Panic, s)
          | (Ok OpenExists, (_, s)) => (Ok (Some OpenExists), s)
          | (Ok (Opened (stateid, fh, write)), (_, s)) =>
              if negb (WriteData.count write =? size) then
                (Err (Error.protocol
                   "fused put wrote {} of {} bytes but passed size verification"), s)
              else
                (Ok (Some (Opened (WriteData.count write, OpenedFile.mk fh stateid 1))), s)
          end
    | (Err e, s) => (Err e, s)
    | (Panic, s) => (Panic, s)
    end.

(** ** Connecting *)

(** [rpc.call] before the session exists. *)
Definition setup_call (tag : str) (op : NfsOp.t) (h : list Request.t)
  : res Error.t bytes * list Request.t :=
  match encode_compound tag [op] with
  | Ok payload =>
      let reply := call h (RpcPayload.from payload) in
      (reply, h ++ [Request.mk tag None [op] reply])
  | Err e => (Err e, h)
  | Panic => (Panic, h)
  end.

Definition exchange_id (owner : ClientOwner.t) (client_verifier : Z) (h : list Request.t)
  : res Error.t ExchangeIdResult.t * list Request.t :=
  let '(response, h) :=
    setup_call (str_of "exchange-id")
      (NfsOp.ExchangeId (be_bytes 8 client_verifier) (ClientOwner.ownerid owner)) h in
  (let? response := response in decode_exchange_id_compound response, h).

Definition create_session (rpc : RpcClient.t) (clientid sequenceid : Z) (config : NfsConfig.t)
    (h : list Request.t) : res Error.t CreateSessionResult.t * list Request.t :=
  let '(response, h) :=
    setup_call (str_of "create-session") (NfsOp.CreateSession clientid sequenceid config) h in
  let minimum_request_size :=
    RpcClient.encoded_call_len rpc (compound_with_sequence_encoded_len [] []) in
  (let? response := response in
   decode_create_session_compound response sequenceid minimum_request_size, h).

(** What [connect] does once the session record exists. *)
Definition connect_tail : st NfsSession.t Error.t unit :=
  let! _ := λ s,
    match reclaim_complete_op s with
    | (Err err, s) =>
        if Error.is_nfs_status err NfsStatus.COMPLETE_ALREADY then (Ok tt, s) else (Err err, s)
    | other => other
    end in
  let! _ := λ s, (Ok tt, set_reclaim_complete true s) in
  let! export_path := try_ (λ s, path.parse_export (NfsConfig.export (config s))) in
  let! root := resolve_export_root (components export_path) in
  λ s, (Ok tt, set_export_root root s).

(** From the open transport to the session record, before it is used. *)
Definition establish (rpc : RpcClient.t) (config : NfsConfig.t) (owner : ClientOwner.t)
  : st (list Request.t) Error.t NfsSession.t :=
  let client_verifier := ClientOwner.verifier_value owner in
  let! exchange := exchange_id owner client_verifier in
  let! created :=
    create_session rpc (ExchangeIdResult.clientid exchange) (ExchangeIdResult.sequenceid exchange) config in
  let fore_attrs := CreateSessionResult.fore_attrs created in
  let limit := Z.min (NfsConfig.max_response_size config) (ChannelAttrs.max_response_size fore_attrs) in
  let slots :=
    Z.max (Z.min (ChannelAttrs.maxrequests fore_attrs) (NfsConfig.session_slots config)) 1 in
  let config := negotiated_config config fore_attrs in
  λ h,
    (Ok (NfsSession.mk rpc [] (ExchangeIdResult.clientid exchange) (CreateSessionResult.sessionid created)
           (SlotTable.new slots) owner client_verifier true false 0 config limit h []), h).

(** [opened] is the result of opening the transport, [stamp] the clock reading
    that [RpcClient::connect] puts in the credential.  The owner is shared by
    the sessions of a client, and the requests of all of them are recorded in
    one list: both are state. *)
Definition connect (opened : res Error.t unit) (stamp : Z) (auth : AuthSys.t) (config : NfsConfig.t)
  : st (ClientOwner.t * list Request.t) Error.t NfsSession.t := λ '(owner, h),
  match (let! rpc := slift (RpcClient.prepare stamp auth) in
         let! _ := slift opened in
         establish rpc config owner) h with
  | (Ok s, _) =>
      let '(r, s) := connect_tail s in
      (let? _ := r in Ok s, (client_owner s, history s))
  | (Err e, h) => (Err e, (owner, h))
  | (Panic, h) => (Panic, (owner, h))
  end.

End session.
