(* ===== verification/SessionFacts.v ===== *)
(** * What the session guarantees (theorems about Session.v)

    [session_exchange_spec] describes one exchange by four outcomes, from
    which the rest follows: retries are bounded and never repeat an operation
    that took effect, publication happens at most once, batches of closes
    cover every file, the fused put sends one request or none. *)

From S2P Require Import Prelude Proto Errors Path Xdr Ops Rpc Compound Reply Replies Slots Owner Session.
Import SlotTable.
Import NfsSession.

(** ** The interface to the transport *)

(** A transport answers with well-formed bytes or an error. *)
Class Transport (call : list Request.t → RpcPayload.t → res Error.t bytes) : Prop :=
  transport_answers : ∀ h p,
    match call h p with Ok b => bytes_wf b | Err _ => True | Panic => False end.

(** The RPC client is one: a record whose XID was matched, decoded by
    [decode_reply]; the network decides which record arrives, or that none does. *)
Definition rpc_transport (network : list Request.t → RpcPayload.t → res Error.t (Z * bytes))
    (h : list Request.t) (p : RpcPayload.t) : res Error.t bytes :=
  let? (xid, record) := network h p in decode_reply xid record.

#[export] Instance rpc_transport_ok network :
  (∀ h p, match network h p with Ok (_, r) => bytes_wf r | Err _ => True | Panic => False end) →
  Transport (rpc_transport network).
Proof.
  intros Hn h p. unfold rpc_transport. specialize (Hn h p).
  destruct (network h p) as [[xid record]| |]; [|done..]. cbn [rbind].
  pose proof (parser_decode_reply xid record Hn) as Hp. unfold decode_reply.
  destruct (decode_reply_message xid record) as [[b|e|] rest]; cbn; [|done..].
  destruct Hp as [_ Hb]. exact Hb.
Qed.

(** ** The slot table between exchanges *)

Definition quiet (t : SlotTable.t) : Prop :=
  inv (t, [Idle]) ∧ ∀ i b, active t !! i = Some b → b = false.

Lemma quiet_new slot_count : is_u32 slot_count → quiet (new slot_count).
Proof.
  intros Hc. split.
  - exact (inv_initial slot_count 1 Hc).
  - intros i b Hb. unfold new in Hb. cbn in Hb. by apply lookup_replicate in Hb as [-> _].
Qed.

(** What the holder of the only guard has. *)
Record held (g : SlotGuard.t) (x : SlotState.t) (t : SlotTable.t) : Prop := {
  held_inv : inv (t, [Holding g]);
  held_slot : SlotTable.slots t !! SlotGuard.index g = Some x;
  held_retire : SlotGuard.retire_permit g = false;
  held_flags : ∀ j b, active t !! j = Some b → j ≠ SlotGuard.index g → b = false;
}.

Lemma held_usable g x t : held g x t → SlotState.usable x = true.
Proof.
  intros [Hinv Hx Hr _]. destruct (inv_tasks _ Hinv 0%nat _ eq_refl) as (y & Hy & Hu).
  cbn in Hy. rewrite Hx in Hy. simplify_eq. by rewrite Hu, Hr.
Qed.

Lemma acquire_alone_quiet t :
  quiet t →
  match acquire_alone t with
  | (Ok g, t') => ∃ x, held g x t' ∧ SlotGuard.request_outstanding g = false
      ∧ SlotTable.slots t' = SlotTable.slots t ∧ slot_limits t' = slot_limits t
      ∧ Z.of_nat (SlotGuard.index g) ≤ target_highest_slotid t
      ∧ active t' = <[SlotGuard.index g := true]> (active t)
  | (Err e, t') => t' = t ∧ e = all_slots_unusable_error
  | (Panic, _) => False
  end.
Proof.
  intros [Hinv Hq]. destruct (acquire_alone_run t [Idle] 0) as (n & _ & Hrun); [done| |done|].
  { intros [|j] u Hj; by simplify_eq/=. }
  unfold acquire_alone in *. destruct (closed t); [done|].
  assert (Ht : 0 ≤ target_highest_slotid t < blen (SlotTable.slots t)).
  { pose proof (inv_limits _ Hinv) as Hl. unfold limits_ok, target_highest_slotid in *.
    cbn [fst] in Hl. destruct (slot_limits t). simpl. lia. }
  pose proof (find_usable_spec (Z.to_nat (target_highest_slotid t + 1)) 0 t
    ltac:(unfold blen in Ht; lia)) as Hf.
  destruct (find_usable _ 0 t) as [i|]; [|done].
  destruct Hf as (Hi & (x & Hx & Hu) & _). exists x. split_and!; try done; [|cbn [SlotGuard.index]; lia].
  split; cbn; try done.
  - apply run_schedule_steps in Hrun. exact (steps_inv _ _ Hinv Hrun).
  - intros j b Hb Hj. rewrite list_lookup_insert_ne in Hb by done. eauto.
Qed.

Lemma acquire_for_request_quiet t :
  quiet t →
  match acquire_for_request t with
  | (Ok (g, highest), t') => ∃ x, held g x t' ∧ SlotGuard.request_outstanding g = false
      ∧ SlotTable.slots t' = SlotTable.slots t ∧ highest = target_highest_slotid t
      ∧ SlotState.id x = Z.of_nat (SlotGuard.index g)
  | (Err e, t') => t' = t ∧ e = all_slots_unusable_error
  | (Panic, _) => False
  end.
Proof.
  intros Hq. unfold acquire_for_request, sbind. pose proof (acquire_alone_quiet t Hq) as Ha.
  destruct (acquire_alone t) as [[g| |] t']; [|done..].
  destruct Ha as (x & Hh & Hout & Hs & Hl & Hle & Hact).
  destruct Hh as [Hinv Hx Hr Hfl]. pose proof (inv_limits _ Hinv) as Hlim.
  pose proof (inv_len _ Hinv) as Hlen. pose proof (inv_active _ Hinv) as Hal. cbn [fst] in *.
  assert (Hah : active_highest_slotid t' = Z.of_nat (SlotGuard.index g)).
  { destruct (active_highest_bounds t' Hal Hlen) as (Hb & Hall & Hat).
    assert (active t' !! SlotGuard.index g = Some true) as Hself%Hall.
    { rewrite Hact. apply list_lookup_insert_eq.
      apply (f_equal length) in Hact. rewrite length_insert in Hact.
      apply lookup_lt_Some in Hx. lia. }
    destruct (decide (active_highest_slotid t' = 0)); [lia|].
    apply Hat in n. destruct (decide (Z.to_nat (active_highest_slotid t') = SlotGuard.index g)); [lia|].
    apply Hfl in n; done. }
  unfold request_highest_slotid, limits_ok, target_highest_slotid in *. rewrite Hl in Hlim |- *.
  destruct (slot_limits t) as [enforced target]. cbn [snd] in *.
  destruct (Z.ltb_spec target (Z.of_nat (SlotGuard.index g))); [lia|].
  destruct (Z.ltb_spec enforced (Z.of_nat (SlotGuard.index g))); [lia|]. cbn [orb].
  rewrite Hah. destruct (Z.leb_spec (Z.of_nat (SlotGuard.index g)) enforced); [|lia].
  exists x. split_and!; try done.
  - unfold as_u32, wrap32. rewrite Z.max_r, Z.mod_small by ulia. done.
  - by apply (inv_ids _ Hinv).
Qed.

(** The slots after the guard drops: the held slot is retired when its request
    is still outstanding. *)
Lemma drop_guard_held g x t :
  held g x t →
  quiet (drop_guard g t) ∧
  SlotTable.slots (drop_guard g t) =
    (if SlotGuard.request_outstanding g
     then <[SlotGuard.index g := SlotState.mk (SlotState.id x) (SlotState.sequenceid x) false]>
            (SlotTable.slots t)
     else SlotTable.slots t).
Proof.
  intros Hh. pose proof (held_usable _ _ _ Hh) as Hu. destruct Hh as [Hinv Hx Hr Hfl].
  assert (Hsl : SlotTable.slots (drop_guard g t) =
    (if SlotGuard.request_outstanding g
     then <[SlotGuard.index g := SlotState.mk (SlotState.id x) (SlotState.sequenceid x) false]>
            (SlotTable.slots t)
     else SlotTable.slots t) ∧
    active (drop_guard g t) = <[SlotGuard.index g := false]> (active t)).
  { unfold drop_guard, SlotGuard.unlock, SlotGuard.mark_unusable. rewrite Hx, Hu.
    destruct (SlotGuard.request_outstanding g); cbn; [done|]. by rewrite Hr. }
  destruct Hsl as [Hsl Hact]. split; [|done]. split.
  - destruct (drop_guard_run t [Holding g] 0 g eq_refl) as (ts' & Hrun & Hk & Hlen).
    destruct ts' as [|u [|]]; try done. simplify_eq/=.
    apply (steps_inv _ _ Hinv), (run_schedule_steps [(0%nat, DropGuard); (0%nat, Run); (0%nat, Run)]), Hrun.
  - intros j b. rewrite Hact. intros [(<- & <- & _)|[Hne Hj]]%list_lookup_insert_Some; eauto.
Qed.

Lemma held_limits g x t highest target :
  is_u32 highest → is_u32 target → held g x t → held g x (update_limits highest target t).
Proof. intros Hh Ht []. split; try done. by apply inv_limits_step. Qed.

Lemma held_advance g x t :
  held g x t →
  held g (SlotState.mk (SlotState.id x) (wrap32 (SlotState.sequenceid x + 1)) (SlotState.usable x))
    (SlotGuard.advance_sequence g t) ∧
  SlotTable.slots (SlotGuard.advance_sequence g t) =
    <[SlotGuard.index g :=
        SlotState.mk (SlotState.id x) (wrap32 (SlotState.sequenceid x + 1)) (SlotState.usable x)]>
      (SlotTable.slots t).
Proof.
  intros [Hinv Hx Hr Hfl].
  assert (Hs : SlotTable.slots (SlotGuard.advance_sequence g t) = <[SlotGuard.index g :=
        SlotState.mk (SlotState.id x) (wrap32 (SlotState.sequenceid x + 1)) (SlotState.usable x)]>
      (SlotTable.slots t)) by (unfold SlotGuard.advance_sequence; by rewrite Hx).
  split; [|done]. split; try done.
  - apply (step_inv _ _ Hinv). by apply (step_task 0 AdvanceSequence).
  - rewrite Hs. apply list_lookup_insert_eq. by eapply lookup_lt_Some.
  - intros j b. unfold SlotGuard.advance_sequence. rewrite Hx. cbn. apply Hfl.
Qed.

(** Arming and disarming change the guard only. *)
Lemma held_guard g g' x t :
  SlotGuard.index g' = SlotGuard.index g → SlotGuard.retire_permit g' = SlotGuard.retire_permit g →
  (∃ a, act a (Holding g) t = Some (Holding g', t, false)) → held g x t → held g' x t.
Proof.
  intros Hi Hr [a Ha] [Hinv Hx Hret Hfl]. split; try congruence.
  - apply (step_inv _ _ Hinv), (step_task 0 a).
    by rewrite (perform_task t [Holding g] 0 a _ _ _ _ eq_refl Ha).
  - intros j b Hj Hne. apply (Hfl j b Hj). congruence.
Qed.

(** ** One exchange *)

Lemma parser_sequence_result sid q i :
  parser (λ r, is_u32 (SequenceResult.highest_slotid r) ∧ is_u32 (SequenceResult.target_highest_slotid r)
               ∧ is_u32 (SequenceResult.status_flags r)) (sequence_result sid q i).
Proof.
  unfold sequence_result.
  eapply parser_bind; [apply parser_read_u32_skip_opaque_and_read_u32|]. intros [cs n] _.
  destruct (n =? 0); [destruct (NfsStatus.is_ok cs); apply parser_fail|].
  eapply parser_bind; [apply parser_read_u32_pair|]. intros [op st] _.
  destruct (negb (op =? _)).
  { eapply parser_bind; [apply (parser_lift any)|intros; apply parser_fail].
    unfold OpCode_from_u32. by destruct (OpCode.of_u32 op). }
  destruct (negb _); [apply parser_fail|].
  eapply parser_bind; [by apply parser_read_bytes|]. intros ? _.
  eapply parser_bind; [apply parser_read_u32|]. intros ? _.
  eapply parser_bind; [apply parser_read_u32|]. intros ? _.
  eapply parser_bind; [apply parser_read_u32|]. intros highest Hh.
  eapply parser_bind; [apply parser_read_u32|]. intros target Ht.
  eapply parser_bind; [apply parser_read_u32|]. intros flags Hf.
  repeat (case_match; [apply parser_fail|]). by apply parser_ret.
Qed.

Lemma decode_sequence_result_total b sid q i :
  bytes_wf b →
  match decode_sequence_result b sid q i with
  | Ok r => is_u32 (SequenceResult.highest_slotid r) ∧ is_u32 (SequenceResult.target_highest_slotid r)
  | Err _ => True
  | Panic => False
  end.
Proof.
  intros Hb. pose proof (parser_sequence_result sid q i b Hb) as Hp. unfold decode_sequence_result.
  destruct (sequence_result sid q i b) as [[r|e|] rest]; naive_solver.
Qed.

(** What no operation touches, and what an exchange does not touch either. *)
Definition kept (s s' : NfsSession.t) : Prop :=
  rpc s' = rpc s ∧ export_root s' = export_root s ∧ clientid s' = clientid s
  ∧ sessionid s' = sessionid s ∧ client_verifier s' = client_verifier s
  ∧ reclaim_complete s' = reclaim_complete s ∧ config s' = config s
  ∧ max_response_bytes s' = max_response_bytes s.

Definition frame (s s' : NfsSession.t) : Prop :=
  kept s s' ∧ fused_put_supported s' = fused_put_supported s ∧ slept s' = slept s.

#[global] Instance kept_preorder : PreOrder kept.
Proof.
  split.
  - intros s. unfold kept. tauto.
  - intros s1 s2 s3. unfold kept. intros H1 H2. destruct_and!. split_and!; by etrans.
Qed.

(** The session's own state is untouched as well. *)
Definition flags_kept (s s' : NfsSession.t) : Prop :=
  fatal_sequence_flags s' = fatal_sequence_flags s ∧ client_owner s' = client_owner s.

Definition advanced (x : SlotState.t) : SlotState.t :=
  SlotState.mk (SlotState.id x) (wrap32 (SlotState.sequenceid x + 1)) (SlotState.usable x).

Definition retired_slot (x : SlotState.t) : SlotState.t :=
  SlotState.mk (SlotState.id x) (SlotState.sequenceid x) false.

(** The SEQUENCE arguments of a request on slot [i]. *)
Definition sequence_on (s : NfsSession.t) (i : nat) (x : SlotState.t) : SequenceArgs.t :=
  SequenceArgs.mk (sessionid s) (SlotState.sequenceid x) (Z.of_nat i)
    (target_highest_slotid (slots s)) false.

Section exchange.
Context (call : list Request.t → RpcPayload.t → res Error.t bytes) (ulid : nat → bytes).

(** The four outcomes of an exchange: the session refuses it, the transport
    did not send it, its fate is unknown, or it was answered. *)
Inductive exchanged (tag : str) (ops : list NfsOp.t) (s : NfsSession.t)
    : res Error.t bytes → NfsSession.t → Prop :=
| exchange_refused e :
    Error.is_request_not_sent e = true → exchanged tag ops s (Err e) s
| exchange_not_sent i x e s' :
    SlotTable.slots (slots s) !! i = Some x → SlotState.usable x = true →
    Error.is_request_not_sent e = true →
    history s' = history s ++ [Request.mk tag (Some (sequence_on s i x)) ops (Err e)] →
    SlotTable.slots (slots s') = SlotTable.slots (slots s) → frame s s' → flags_kept s s' →
    exchanged tag ops s (Err e) s'
| exchange_lost i x reply e s' :
    SlotTable.slots (slots s) !! i = Some x → SlotState.usable x = true →
    (reply = Err e ∧ Error.is_request_not_sent e = false ∨
     ∃ b, reply = Ok b ∧
       decode_sequence_result b (sessionid s) (SlotState.sequenceid x) (Z.of_nat i) = Err e) →
    history s' = history s ++ [Request.mk tag (Some (sequence_on s i x)) ops reply] →
    SlotTable.slots (slots s') = <[i := retired_slot x]> (SlotTable.slots (slots s)) →
    frame s s' → flags_kept s s' →
    exchanged tag ops s (Err e) s'
| exchange_answered i x b result s' :
    SlotTable.slots (slots s) !! i = Some x → SlotState.usable x = true →
    decode_sequence_result b (sessionid s) (SlotState.sequenceid x) (Z.of_nat i) = Ok result →
    bytes_wf b →
    history s' = history s ++ [Request.mk tag (Some (sequence_on s i x)) ops (Ok b)] →
    SlotTable.slots (slots s') = <[i := advanced x]> (SlotTable.slots (slots s)) →
    frame s s' →
    (validate_sequence_status_flags (SequenceResult.status_flags result) (reclaim_complete s) = Ok tt →
     flags_kept s s') →
    (validate_sequence_status_flags (SequenceResult.status_flags result) (reclaim_complete s) ≠ Ok tt →
     fatal_sequence_flags s' =
       Z.lor (fatal_sequence_flags s) (SequenceResult.status_flags result)) →
    exchanged tag ops s (Ok b) s'.

Definition session_ok (s : NfsSession.t) : Prop := quiet (slots s) ∧ blen (sessionid s) = 16.

(** A compound the codec can encode, whatever slot it is sent on. *)
Definition encodable (tag : str) (ops : list NfsOp.t) : Prop :=
  ∀ sequence, blen (SequenceArgs.sessionid sequence) = 16 → request_wf tag (Some sequence) ops.

Lemma request_not_sent_is e : Error.is_request_not_sent (Error.request_not_sent e) = true.
Proof. by destruct e. Qed.

Lemma validate_flags_total flags rc : validate_sequence_status_flags flags rc ≠ Panic.
Proof. unfold validate_sequence_status_flags. by repeat case_match. Qed.

Lemma validate_limits_total tag ops a b c : validate_compound_request_limits tag ops a b c ≠ Panic.
Proof. unfold validate_compound_request_limits. by repeat case_match. Qed.

Lemma latch_flags latched u o v flags :
  (latch_fatal_sequence_flags latched u o v flags).1.1 = Z.lor latched flags.
Proof.
  unfold latch_fatal_sequence_flags. case_match; [|done].
  by destruct (ClientOwner.rotate_verifier_if_current u v o).
Qed.

Context `{!Transport call}.

(** Under the guard, from the point where the slot is held. *)
Lemma exchange_under_guard_spec tag ops g x s t :
  held g x t → SlotGuard.request_outstanding g = false →
  SlotState.id x = Z.of_nat (SlotGuard.index g) → blen (sessionid s) = 16 → encodable tag ops →
  ensure_sequence_status_usable s = Ok tt → SlotTable.slots t = SlotTable.slots (slots s) →
  let '(r, g', s') :=
    exchange_under_guard call ulid tag ops g (target_highest_slotid (slots s)) (set_slots t s) in
  let s'' := set_slots (drop_guard g' (slots s')) s' in
  exchanged tag ops s r s'' ∧ session_ok s''.
Proof.
  intros Hh Hout Hid H16 Henc Hen Hsl. pose proof (held_usable _ _ _ Hh) as Hu.
  pose proof (held_slot _ _ _ Hh) as Hx. unfold exchange_under_guard. cbn [slots set_slots].
  rewrite Hx. change (ensure_sequence_status_usable (set_slots t s)) with (ensure_sequence_status_usable s).
  rewrite Hen, Hid. cbn [map_err sessionid set_slots history].
  set (sq := SequenceArgs.mk (sessionid s) _ _ _ _).
  destruct (segments_ok tag sq ops (Henc sq H16)) as (p & Hp & _). rewrite Hp.
  assert (Harm : held (SlotGuard.mark_request_outstanding g) x t)
    by (apply (held_guard g); [done..|by exists MarkRequestOutstanding|done]).
  assert (Hdis : ∀ y u, held (SlotGuard.mark_request_outstanding g) y u →
    held (SlotGuard.disarm_request (SlotGuard.mark_request_outstanding g)) y u).
  { intros y u Hy. eapply (held_guard (SlotGuard.mark_request_outstanding g));
      [done..|by exists DisarmRequest|exact Hy]. }
  assert (Hx0 : SlotTable.slots (slots s) !! SlotGuard.index g = Some x) by (by rewrite <- Hsl).
  pose proof (transport_answers (history s) p) as Hc.
  destruct (call (history s) p) as [b|e|] eqn:Hcall; [|destruct (Error.is_request_not_sent e) eqn:Hns|done].
  - pose proof (decode_sequence_result_total b (sessionid s) (SlotState.sequenceid x)
      (Z.of_nat (SlotGuard.index g)) Hc) as Hd.
    cbn [sessionid record set_slots]. destruct (decode_sequence_result b _ _ _) as [result|e|] eqn:Hdec;
      [|..|done].
    + destruct Hd as [Hhi Hta].
      destruct (held_advance _ _ _ (held_limits _ _ _ _ _ Hhi Hta Harm)) as [Hadv Hs1].
      destruct (drop_guard_held _ _ _ (Hdis _ _ Hadv)) as [Hq Hs].
      cbn [SlotGuard.request_outstanding SlotGuard.disarm_request] in Hs. rewrite Hs1 in Hs.
      cbn [SlotTable.slots update_limits SlotGuard.index SlotGuard.mark_request_outstanding] in Hs.
      rewrite Hsl in Hs. cbn [slots set_slots reclaim_complete record set_slots].
      destruct (validate_sequence_status_flags _ _) as [[]|ve|] eqn:Hval;
        [| |by apply validate_flags_total in Hval].
      * split; [|by split]. by eapply (exchange_answered _ _ _ (SlotGuard.index g) x b result).
      * destruct (latch_fatal_sequence_flags _ _ _ _ _) as [[latched rot] o] eqn:Hl.
        apply (f_equal (λ r, r.1.1)) in Hl. rewrite latch_flags in Hl. cbn in Hl. subst latched.
        split; [|by split]. eapply (exchange_answered _ _ _ (SlotGuard.index g) x b result); try done.
        by rewrite Hval.
    + destruct (drop_guard_held _ _ _ Harm) as [Hq Hs]. cbn in Hs.
      split; [|by split]. eapply (exchange_lost _ _ _ (SlotGuard.index g) x (Ok b)); try done.
      * right. eauto.
      * cbn. by rewrite Hs, Hsl.
  - destruct (drop_guard_held _ _ _ (Hdis _ _ Harm)) as [Hq Hs]. cbn in Hs.
    split; [|by split]. eapply (exchange_not_sent _ _ _ (SlotGuard.index g) x); try done.
    cbn. by rewrite Hs, Hsl.
  - destruct (drop_guard_held _ _ _ Harm) as [Hq Hs]. cbn in Hs.
    split; [|by split]. eapply (exchange_lost _ _ _ (SlotGuard.index g) x (Err e)); try done.
    + by left.
    + cbn. by rewrite Hs, Hsl.
Qed.

Lemma compound_raw_once_cases tag ops s :
  session_ok s → encodable tag ops →
  let '(r, s') := compound_raw_once call ulid tag ops s in
  exchanged tag ops s r s' ∧ session_ok s'.
Proof.
  intros [Hq H16] Henc. unfold compound_raw_once, sbind, smap_err, try_, on_slots.
  pose proof (validate_limits_total tag ops (NfsConfig.max_compound_ops (config s))
    (NfsConfig.max_request_size (config s))
    (RpcClient.encoded_call_len (rpc s) (compound_with_sequence_encoded_len tag ops))) as Hv.
  unfold validate_compound_request. destruct (validate_compound_request_limits _ _ _ _ _) as [[]|e|];
    [|split; [|done]; apply exchange_refused, request_not_sent_is|done].
  cbn [map_err]. pose proof (validate_flags_total (fatal_sequence_flags s) (reclaim_complete s)) as Hf.
  destruct (ensure_sequence_status_usable s) as [[]|e|] eqn:Hen;
    [|split; [|done]; apply exchange_refused, request_not_sent_is|done].
  cbn [map_err]. pose proof (acquire_for_request_quiet (slots s) Hq) as Ha.
  destruct (acquire_for_request (slots s)) as [[[g highest]|e|] t]; [| |done].
  - destruct Ha as (x & Hh & Hout & Hsl & -> & Hid).
    pose proof (exchange_under_guard_spec tag ops g x s t Hh Hout Hid H16 Henc Hen Hsl) as Hx.
    cbn [map_err]. by destruct (exchange_under_guard _ _ _ _ _ _ _) as [[r g'] s'].
  - destruct Ha as [-> ->]. replace (set_slots (slots s) s) with s by (by destruct s).
    split; [|done]. apply exchange_refused, request_not_sent_is.
Qed.

(** ** Retries *)

Section retries.
Context {A : Type} (tag : str) (ops : list NfsOp.t) (decode : list Z → res CompoundDecodeError.t A).

(** A request whose answer permitted a retry: a transient status, before any
    OPEN, CLOSE, LINK or RENAME of the compound took effect. *)
Definition retried (q : Request.t) : Prop :=
  ∃ b err, Request.reply q = Ok b ∧ bytes_wf b ∧ decode b = Err err
    ∧ is_Some (CompoundDecodeError.transient_status err)
    ∧ transient_compound_retry_is_safe ops err = true.

Definition ours (q : Request.t) : Prop := Request.tag q = tag ∧ Request.ops q = ops.

Definition delays (s : NfsSession.t) (from n : Z) : list Duration :=
  transient_retry_delay (NfsConfig.transient_retry_delay (config s)) <$> seqZ (from + 1) n.

(** A run of the retry loop from [s] with [a] attempts claimed to [s'] with
    [a']: the requests that were retried, then the last one, if any. *)
Record looped (retry : bool) (a : Z) (s : NfsSession.t) (r : res CompoundDecodeError.t A)
    (a' : Z) (s' : NfsSession.t) (retries last : list Request.t) : Prop := {
  lp_history : history s' = history s ++ retries ++ last;
  lp_ours : Forall ours (retries ++ last);
  lp_retried : Forall retried retries;
  lp_count : blen retries = a' - a;
  lp_last : blen last ≤ 1;
  lp_limit : a' = a ∨ retry = true ∧ a' ≤ NfsConfig.transient_retries (config s);
  lp_slept : slept s' = slept s ++ delays s a (a' - a);
  lp_kept : kept s s';
  lp_fused : fused_put_supported s' = fused_put_supported s;
  lp_ok : session_ok s';
  lp_result :
    match r with
    | Ok v => ∃ q b, last = [q] ∧ Request.reply q = Ok b ∧ bytes_wf b ∧ decode b = Ok v
    | Err e =>
        (∃ e0, e = CompoundDecodeError.from e0
          ∧ (last = [] → Error.is_request_not_sent e0 = true)
          ∧ (∀ q, last = [q] → Request.reply q = Err e0 ∨ ∃ b sq, Request.reply q = Ok b
               ∧ Request.sequence q = Some sq
               ∧ decode_sequence_result b (SequenceArgs.sessionid sq) (SequenceArgs.sequenceid sq)
                   (SequenceArgs.slotid sq) = Err e0))
        ∨ (∃ q b, last = [q] ∧ Request.reply q = Ok b ∧ bytes_wf b ∧ decode b = Err e)
    | Panic => False
    end;
}.

Context (Henc : encodable tag ops) (Hdec : ∀ b, bytes_wf b → decode b ≠ Panic).

(** The turn that ends the loop. *)
Lemma looped_end retry a s r s' last :
  history s' = history s ++ last → Forall ours last → blen last ≤ 1 → frame s s' → session_ok s' →
  match r with
  | Ok v => ∃ q b, last = [q] ∧ Request.reply q = Ok b ∧ bytes_wf b ∧ decode b = Ok v
  | Err e =>
      (∃ e0, e = CompoundDecodeError.from e0
        ∧ (last = [] → Error.is_request_not_sent e0 = true)
        ∧ (∀ q, last = [q] → Request.reply q = Err e0 ∨ ∃ b sq, Request.reply q = Ok b
             ∧ Request.sequence q = Some sq
             ∧ decode_sequence_result b (SequenceArgs.sessionid sq) (SequenceArgs.sequenceid sq)
                 (SequenceArgs.slotid sq) = Err e0))
      ∨ (∃ q b, last = [q] ∧ Request.reply q = Ok b ∧ bytes_wf b ∧ decode b = Err e)
  | Panic => False
  end →
  looped retry a s r a s' [] last.
Proof.
  intros Hh Ho Hl (Hk & Hfu & Hsl) Hok Hr. split; try done.
  - by rewrite Z.sub_diag.
  - by left.
  - unfold delays. rewrite Z.sub_diag, seqZ_nil by lia. by rewrite app_nil_r.
Qed.

(** A turn that claims a retry, followed by the rest of the loop. *)
Lemma looped_retry a s s1 q r a' s' retries last :
  history s1 = history s ++ [q] → ours q → retried q → frame s s1 →
  a < NfsConfig.transient_retries (config s) →
  looped true (a + 1)
    (sleep (transient_retry_delay (NfsConfig.transient_retry_delay (config s)) (a + 1)) s1)
    r a' s' retries last →
  looped true a s r a' s' (q :: retries) last.
Proof.
  intros Hh Hq Hre (Hk & Hfu & Hsl) Ha [Lh Lo Lr Lc Ll Lm Ls Lk Lf Lok Lres].
  assert (Hcfg : config s1 = config s) by (by destruct Hk as (_ & _ & _ & _ & _ & _ & ? & _)).
  pose proof (blen_nonneg retries) as Hnn.
  split; try done.
  - rewrite Lh. cbn [history sleep]. rewrite Hh, <- !app_assoc. done.
  - by constructor.
  - by constructor.
  - rewrite blen_cons. lia.
  - right. split; [done|]. destruct Lm as [->|[_ Lm]]; [lia|]. cbn [config sleep] in Lm. by rewrite <- Hcfg.
  - rewrite Ls. cbn [slept sleep]. rewrite Hsl, <- app_assoc. f_equal. unfold delays.
    cbn [config sleep]. rewrite Hcfg. rewrite (seqZ_cons (a + 1) (a' - a)) by lia.
    cbn. do 3 f_equal; lia.
  - etrans; [exact Hk|exact Lk].
  - rewrite Lf. exact Hfu.
Qed.

Lemma compound_decode_loop_spec fuel retry a s :
  session_ok s → 0 ≤ a → (Z.to_nat (NfsConfig.transient_retries (config s) - a) < fuel)%nat →
  let '(r, (a', s')) := compound_decode_loop call ulid fuel tag ops decode retry (a, s) in
  ∃ retries last, looped retry a s r a' s' retries last.
Proof.
  revert a s. induction fuel as [|fuel IH]; intros a s Hok Ha Hf; [lia|]. cbn [compound_decode_loop].
  pose proof (compound_raw_once_cases tag ops s Hok Henc) as Hx.
  destruct (compound_raw_once call ulid tag ops s) as [rr s1]. destruct Hx as [Hx Hok1].
  destruct Hx as [e Hns|i x e s1 Hi Hu Hns Hh Hsl Hfr Hfl|i x reply e s1 Hi Hu Hrep Hh Hsl Hfr Hfl
                 |i x b result s1 Hi Hu Hd Hwf Hh Hsl Hfr Hfl1 Hfl2].
  - exists [], []. apply looped_end; try done; [by rewrite app_nil_r|].
    left. exists e. split_and!; try done.
  - eexists [], [_]. apply looped_end; try done; [by repeat constructor|].
    left. exists e. split_and!; try done. intros q [= <-]. by left.
  - eexists [], [_]. apply looped_end; try done; [by repeat constructor|].
    left. exists e. split_and!; try done. intros q [= <-]. destruct Hrep as [[-> _]|(b & -> & Hd)]; [by left|].
    right. by exists b, (sequence_on s i x).
  - set (q := Request.mk tag _ ops (Ok b)) in Hh.
    destruct (decode b) as [v|err|] eqn:Hdb; [| |by apply Hdec in Hdb].
    { exists [], [q]. apply looped_end; try done; [by repeat constructor|]. by exists q, b. }
    assert (Hend : ∀ a s2, s2 = s1 → looped retry a s (Err err) a s2 [] [q]).
    { intros a0 s2 ->. apply looped_end; try done; [by repeat constructor|]. right. by exists q, b. }
    destruct (retry && transient_compound_retry_is_safe ops err) eqn:Hs; [|eauto].
    apply andb_prop in Hs as [-> Hs]. unfold retry_transient_compound_error.
    destruct (CompoundDecodeError.transient_status err) eqn:Htr; [|eauto].
    unfold claim_transient_retry.
    assert (Hcfg : config s1 = config s) by (by destruct Hfr as ((_ & _ & _ & _ & _ & _ & ? & _) & _)).
    rewrite Hcfg. destruct (Z.leb_spec (NfsConfig.transient_retries (config s)) a); [eauto|].
    specialize (IH (a + 1) (sleep (transient_retry_delay (NfsConfig.transient_retry_delay (config s))
      (a + 1)) s1) Hok1 ltac:(lia)). cbn [config sleep] in IH. rewrite Hcfg in IH.
    specialize (IH ltac:(lia)). destruct (compound_decode_loop _ _ _ _ _ _ _ _) as [r [a' s']].
    destruct IH as (retries & last & IH). exists (q :: retries), last.
    eapply looped_retry; try done. exists b, err. by split_and!; [..|eexists|].
Qed.

Lemma compound_decode_detailed_spec retry a s :
  session_ok s → 0 ≤ a →
  let '(r, (a', s')) := compound_decode_detailed call ulid tag ops decode retry (a, s) in
  ∃ retries last, looped retry a s r a' s' retries last.
Proof. intros Hok Ha. apply compound_decode_loop_spec; [done..|lia]. Qed.
End retries.
End exchange.

(** C1: One exchange on a session.  Whatever the transport and the server
    answer, [compound_raw_once] ends in one of four ways and leaves a sound
    session: it refuses, saying that nothing was sent, and nothing changed; the
    transport did not send, and no slot changed; the fate of the request is
    unknown, and exactly the slot it was sent on is retired; or a SEQUENCE
    result for that session, slot and sequence id came back, exactly that
    slot's sequence id advanced by one, and fatal status flags were latched.
    The request carries the slot's current sequence id and the server's
    target. *)
Theorem session_exchange_spec call ulid `{!Transport call} tag ops s :
  session_ok s → encodable tag ops →
  let '(r, s') := compound_raw_once call ulid tag ops s in
  exchanged tag ops s r s' ∧ session_ok s'.
Proof. intros Hok Henc. by apply compound_raw_once_cases. Qed.

(** The server's answer shows that the request may be sent again: it ran the
    operations [ran] and failed the next one with DELAY or GRACE, and none of
    [ran] opened, closed, linked or renamed anything. *)
Definition may_go_again (ops : list NfsOp.t) (q : Request.t) : Prop :=
  ∃ b ran st, Request.reply q = Ok b ∧ answer_stops b ops ran st
    ∧ (st = status.DELAY ∨ st = status.GRACE)
    ∧ Forall (λ op, NfsOp.opcode op ∉ [OpCode.Open; OpCode.Close; OpCode.Link; OpCode.Rename]) ran.

Lemma transient_is err st : CompoundDecodeError.transient_status err = Some st →
  CompoundDecodeError.status err = Some st ∧ (st = status.DELAY ∨ st = status.GRACE).
Proof.
  unfold CompoundDecodeError.transient_status. destruct (CompoundDecodeError.status err) as [s|]; [|done].
  destruct (_ || _) eqn:H; [|done]. intros [= <-]. split; [done|].
  apply orb_prop in H as [H|H]; apply Z.eqb_eq in H; auto.
Qed.


Lemma retried_may_go_again {A} ops (decode : list Z → res CompoundDecodeError.t A) q :
  tells_errors ops decode → retried ops decode q → may_go_again ops q.
Proof.
  intros Hdec (b & err & Hb & Hwf & Hd & [st Htr] & Hs). apply transient_is in Htr as [Hst Hdg].
  unfold transient_compound_retry_is_safe in Hs.
  destruct (CompoundDecodeError.reply_index err) as [i|] eqn:Hi; [|done]. apply negb_true_iff in Hs.
  specialize (Hdec b Hwf). rewrite Hd in Hdec.
  exists b, (take (Z.to_nat (saturating_sub i 1)) ops), st.
  split_and!; [done|by apply (error_answer_stops b err)|done|].
  apply Forall_forall. intros op Hin Hop. apply not_true_iff_false in Hs. apply Hs, existsb_exists.
  exists op. split; [by apply list_elem_of_In|].
  repeat (apply elem_of_cons in Hop as [Hop|Hop]; [by destruct op|]). by apply not_elem_of_nil in Hop.
Qed.


(** ** Encodable compounds *)

Lemma blen_wire_sequence sq : blen (SequenceArgs.sessionid sq) = 16 → blen (wire_sequence sq) = 36.
Proof.
  intros H. unfold wire_sequence. rewrite !blen_app, !blen_wire_u32, blen_wire_bool, H. lia.
Qed.

Lemma encodable_intro tag ops :
  blen tag ≤ u32_max → blen ops < u32_max → Forall NfsOp.wf ops →
  blen (wire_opaque tag) + 44 + blen (mjoin (NfsOp.wire <$> ops)) ≤ usize_max →
  encodable tag ops.
Proof.
  intros Ht Hn Hwf Hlen sq Hsq. split_and!; try done.
  unfold wire_compound. rewrite !blen_app, !blen_wire_u32, blen_wire_sequence by done. lia.
Qed.

Lemma outcome_total {A} (f : A → bool) x : outcome f x ≠ Panic → x ≠ Panic.
Proof. by destruct x. Qed.

Lemma response_total {A} expected codes b (f : A → bool) x :
  response_spec expected codes b (outcome f x) → x ≠ Panic.
Proof. intros H. apply (outcome_total f). by destruct (outcome f x). Qed.

(** ** Publication happens at most once *)

(** The server's answer to [q] shows that [op] was not carried out: it stopped
    at a failure, and the operations of [ops] it ran before do not include it. *)
Definition not_completed (ops : list NfsOp.t) (op : OpCode.t) (q : Request.t) : Prop :=
  ∃ b ran st, Request.reply q = Ok b ∧ answer_stops b ops ran st ∧ op ∉ (NfsOp.opcode <$> ran).

Lemma retried_not_completed {A} ops (decode : list Z → res CompoundDecodeError.t A) op q :
  tells_errors ops decode → op ∈ [OpCode.Open; OpCode.Close; OpCode.Link; OpCode.Rename] →
  retried ops decode q → not_completed ops op q.
Proof.
  intros Hdec Hop Hre. destruct (retried_may_go_again ops decode q Hdec Hre) as (b & ran & st & Hb & Hst & _ & Hran).
  exists b, ran, st. split_and!; [done..|]. intros Hin. apply list_elem_of_fmap in Hin as (o & -> & Ho).
  rewrite Forall_forall in Hran. by apply (Hran o Ho).
Qed.

(** What [completed_operation] says of the server, when it names a failure. *)
Lemma completed_operation_sound {A} ops (decode : list Z → res CompoundDecodeError.t A) b err st op q :
  tells_errors ops decode → bytes_wf b → Request.reply q = Ok b → decode b = Err err →
  CompoundDecodeError.status err = Some st → is_Some (CompoundDecodeError.reply_index err) →
  CompoundDecodeError.completed_operation err ops op = false → not_completed ops op q.
Proof.
  intros Hdec Hwf Hb Hd Hst [i Hi] Hc. specialize (Hdec b Hwf). rewrite Hd in Hdec.
  exists b, (take (Z.to_nat (saturating_sub i 1)) ops), st.
  split_and!; [done|by apply (error_answer_stops b err)|].
  unfold CompoundDecodeError.completed_operation in Hc. rewrite Hi in Hc. apply not_true_iff_false in Hc.
  intros Hin. apply Hc, existsb_exists. apply list_elem_of_fmap in Hin as (o & -> & Ho).
  exists o. split; [by apply list_elem_of_In|]. by apply bool_decide_eq_true.
Qed.

Lemma completed_index err ops op :
  CompoundDecodeError.completed_operation err ops op = true → is_Some (CompoundDecodeError.reply_index err).
Proof. unfold CompoundDecodeError.completed_operation. by destruct (CompoundDecodeError.reply_index err). Qed.

Definition publish_tag (create_new : bool) : str :=
  if create_new then str_of "publish-link-remove" else str_of "publish-rename".
Definition close_tag (create_new : bool) : str :=
  if create_new then str_of "close-link-remove" else str_of "close-rename".

Definition publish_only_ops (s : NfsSession.t) (opened : OpenedFile.t) (parent : list str)
    (from_name to_name : str) (create_new : bool) : list NfsOp.t :=
  (if create_new then [NfsOp.PutFh (OpenedFile.fh opened)] else [])
  ++ publish_ops (export_root s) parent from_name to_name create_new.

Definition decode_publish (parent : list str) (create_new : bool) (b : list Z)
  : res CompoundDecodeError.t unit :=
  if create_new then decode_link_remove_publish_compound b (length parent)
  else decode_rename_publish_compound b (length parent).

Lemma lookup_codes (parent : list str) : NfsOp.opcode <$> (NfsOp.Lookup <$> parent) = lookup_run (length parent).
Proof. induction parent as [|c parent IH]; [done|]. cbn. by rewrite IH. Qed.

Lemma path_codes root parent :
  NfsOp.opcode <$> extend_export_path_ops [] root parent = OpCode.PutFh :: lookup_run (length parent).
Proof. unfold extend_export_path_ops. cbn. by rewrite lookup_codes. Qed.

(** The decoders expect the operations of the requests. *)
Lemma publish_codes_sent s opened parent from to (create_new : bool) :
  decoder_codes (if create_new then D_link_remove_publish (length parent) else D_rename_publish (length parent))
  = request_codes (publish_only_ops s opened parent from to create_new).
Proof.
  unfold request_codes, publish_only_ops, publish_ops. destruct create_new; by rewrite !fmap_app, path_codes.
Qed.

Lemma decode_publish_tells s opened parent from to create_new :
  tells_errors (publish_only_ops s opened parent from to create_new) (decode_publish parent create_new).
Proof.
  apply (decoder_tells _ (λ _, true) _ _) with (3 := publish_codes_sent s opened parent from to create_new);
    by destruct create_new.
Qed.

Lemma decode_publish_whole s opened parent from to create_new b :
  bytes_wf b → decode_publish parent create_new b = Ok tt →
  answer_whole b (publish_only_ops s opened parent from to create_new).
Proof.
  intros Hb Hd. apply (decoder_whole _ b _ Hb) with (2 := publish_codes_sent s opened parent from to create_new);
    unfold decode_publish in Hd; destruct create_new; try done; cbn [decode]; by rewrite Hd.
Qed.

Lemma decode_publish_total parent create_new b :
  bytes_wf b → decode_publish parent create_new b ≠ Panic.
Proof.
  intros Hb. unfold decode_publish. destruct create_new.
  - pose proof (response_simple b Hb (D_link_remove_publish (length parent))) as H.
    by apply response_total in H.
  - pose proof (response_simple b Hb (D_rename_publish (length parent))) as H.
    by apply response_total in H.
Qed.

Lemma close_codes_sent root opened parent from to size v create_new :
  decoder_codes (D_close (close_publish_shape parent create_new) v)
  = request_codes (close_publish_ops root opened parent from to size v create_new).
Proof.
  unfold request_codes, close_publish_ops, publish_ops. destruct v, create_new; by rewrite !fmap_app, path_codes.
Qed.

Lemma decode_close_tells root opened parent from to size v create_new :
  tells_errors (close_publish_ops root opened parent from to size v create_new)
    (λ b, decode_close_compound b (close_publish_shape parent create_new) v).
Proof. by apply (decoder_tells (D_close (close_publish_shape parent create_new) v) (λ _, true)), close_codes_sent. Qed.

Lemma decode_close_whole root opened parent from to size v create_new b :
  bytes_wf b → decode_close_compound b (close_publish_shape parent create_new) v = Ok tt →
  answer_whole b (close_publish_ops root opened parent from to size v create_new).
Proof.
  intros Hb Hd. apply (decoder_whole (D_close (close_publish_shape parent create_new) v) b); [done..|apply close_codes_sent|].
  cbn [decode]. by rewrite Hd.
Qed.

Lemma decode_close_total shape v b : bytes_wf b → decode_close_compound b shape v ≠ Panic.
Proof. intros Hb. pose proof (response_close b shape v Hb) as H. by apply response_total in H. Qed.

(** The requests of [close_publish]: attempts of the whole compound, then of
    the publish alone. *)
Record published (s : NfsSession.t) (opened : OpenedFile.t) (parent : list str)
    (from_name to_name : str) (size : Z) (unstable_verifier : option bytes) (create_new : bool)
    (closes publishes : list Request.t) : Prop := {
  pb_closes : Forall (ours (close_tag create_new) (close_publish_ops (export_root s) opened parent
    from_name to_name size unstable_verifier create_new)) closes;
  pb_publishes : Forall (ours (publish_tag create_new)
    (publish_only_ops s opened parent from_name to_name create_new)) publishes;
  pb_count : blen closes + blen publishes ≤ 1 + Z.max 0 (NfsConfig.transient_retries (config s));
  pb_no_second_close : ∀ q op, q ∈ removelast closes →
    op ∈ [OpCode.Close; OpCode.Link; OpCode.Rename] →
    not_completed (close_publish_ops (export_root s) opened parent from_name to_name size
      unstable_verifier create_new) op q;
  pb_publish_after : publishes ≠ [] → ∃ q, last closes = Some q ∧ ∀ op,
    op ∈ [OpCode.Link; OpCode.Rename] →
    not_completed (close_publish_ops (export_root s) opened parent from_name to_name size
      unstable_verifier create_new) op q;
  pb_no_second_publish : ∀ q op, q ∈ removelast publishes →
    op ∈ [OpCode.Link; OpCode.Rename] →
    not_completed (publish_only_ops s opened parent from_name to_name create_new) op q;
}.

Lemma elem_of_removelast_snoc {A} (l1 l2 : list A) x :
  blen l2 ≤ 1 → x ∈ removelast (l1 ++ l2) → x ∈ l1.
Proof.
  destruct l2 as [|y [|z l2]]; intros Hl Hx.
  - rewrite app_nil_r in Hx.
    destruct (decide (l1 = [])) as [->|Hne]; [done|].
    destruct (exists_last Hne) as (l & y & ->). rewrite removelast_last in Hx.
    apply elem_of_app. by left.
  - by rewrite removelast_last in Hx.
  - rewrite !blen_cons in Hl. pose proof (blen_nonneg l2). lia.
Qed.

Section publishing.
Context (call : list Request.t → RpcPayload.t → res Error.t bytes) (ulid : nat → bytes)
  `{!Transport call}.
Context (opened : OpenedFile.t) (parent : list str) (from_name to_name : str) (size : Z)
  (unstable_verifier : option bytes) (create_new : bool) (s : NfsSession.t).

Let ops := close_publish_ops (export_root s) opened parent from_name to_name size
  unstable_verifier create_new.
Let pops := publish_only_ops s opened parent from_name to_name create_new.
Let dec := λ b, decode_close_compound b (close_publish_shape parent create_new) unstable_verifier.

(** The requests when only the whole compound was attempted. *)
Lemma published_closes r a' s' retries last :
  looped (close_tag create_new) ops dec true 0 s r a' s' retries last →
  published s opened parent from_name to_name size unstable_verifier create_new (retries ++ last) [].
Proof.
  intros [_ Lo Lr Lc Ll Lm _ _ _ _ _]. pose proof (blen_nonneg retries).
  split; try done.
  - rewrite blen_app, blen_nil. lia.
  - intros q op Hq Hop. apply elem_of_removelast_snoc in Hq; [|done].
    rewrite Forall_forall in Lr. apply (retried_not_completed ops dec); [apply decode_close_tells|by right|by apply Lr].
  - intros q op Hq. by apply not_elem_of_nil in Hq.
Qed.

(** The requests when the publish was attempted again after CLOSE. *)
Lemma published_both a1 s1 q b err retries1 r2 a2 s2 s3 retries2 last2 r1 :
  looped (close_tag create_new) ops dec true 0 s r1 a1 s1 retries1 [q] →
  Request.reply q = Ok b → bytes_wf b → dec b = Err err → republish_applies ops err = true →
  a1 < NfsConfig.transient_retries (config s) → config s2 = config s →
  looped (publish_tag create_new) pops (decode_publish parent create_new) true (a1 + 1) s2 r2 a2 s3
    retries2 last2 →
  published s opened parent from_name to_name size unstable_verifier create_new
    (retries1 ++ [q]) (retries2 ++ last2).
Proof.
  intros [_ Lo Lr Lc Ll Lm _ _ _ _ _] Hb Hwf Hd Hre Ha Hcfg [_ Mo Mr Mc Ml Mm _ _ _ _ _].
  pose proof (blen_nonneg retries1). pose proof (blen_nonneg retries2). rewrite Hcfg in Mm.
  split; try done.
  - rewrite !blen_app. lia.
  - intros p op Hp Hop. apply elem_of_removelast_snoc in Hp; [|done].
    rewrite Forall_forall in Lr. apply (retried_not_completed ops dec); [apply decode_close_tells|by right|by apply Lr].
  - intros _. exists q. split; [by rewrite last_snoc|]. intros op Hop. unfold republish_applies in Hre.
    rewrite !andb_true_iff, !negb_true_iff in Hre. destruct Hre as [[[Hc Hl] Hrn] Htr].
    destruct (CompoundDecodeError.transient_status err) as [st|] eqn:Hst; [|done]. apply transient_is in Hst as [Hst _].
    apply (completed_operation_sound ops dec b err st); try done; [apply decode_close_tells|by apply completed_index in Hc|].
    repeat (apply elem_of_cons in Hop as [->|Hop]; [done|]). by apply not_elem_of_nil in Hop.
  - intros p op Hp Hop. apply elem_of_removelast_snoc in Hp; [|done].
    rewrite Forall_forall in Mr. 
    apply (retried_not_completed pops (decode_publish parent create_new));
      [apply decode_publish_tells|by right; right|by apply Mr].
Qed.

Context (Henc : encodable (close_tag create_new) ops) (Hencp : encodable (publish_tag create_new) pops).

Lemma close_publish_cases :
  session_ok s →
  let '(r, s') := close_publish call ulid opened parent from_name to_name size
                    unstable_verifier create_new s in
  session_ok s' ∧
  (∃ closes publishes, history s' = history s ++ closes ++ publishes ∧
    published s opened parent from_name to_name size unstable_verifier create_new closes publishes) ∧
  match r with
  | Ok f => f = bump_close_seqid opened ∧ ∃ q b, last (history s') = Some q ∧ Request.reply q = Ok b ∧
      (answer_whole b ops ∨ answer_whole b pops)
  | Err _ => True
  | Panic => False
  end.
Proof.
  intros Hok. unfold close_publish. fold ops.
  pose proof (compound_decode_detailed_spec call ulid (close_tag create_new) ops dec Henc
    (decode_close_total _ _) true 0 s Hok ltac:(lia)) as H1. unfold close_tag, dec in H1.
  destruct (compound_decode_detailed call ulid _ ops _ true (0, s)) as [r1 [a1 s1]].
  destruct H1 as (retries1 & last1 & H1). pose proof H1 as [Lh _ _ Lc _ Lm _ Lk _ Lok Lres].
  destruct r1 as [[]|err|]; [| |done].
  { split; [done|]. split; [exists (retries1 ++ last1), []; split; [by rewrite app_nil_r|];
      by eapply published_closes|].
    split; [done|]. destruct Lres as (q & b & -> & Hb & Hwf & Hd). exists q, b.
    split_and!; [by rewrite Lh, !app_assoc, last_snoc|done|]. left. by apply decode_close_whole. }
  assert (Hclosed : (∃ closes publishes, history s1 = history s ++ closes ++ publishes ∧
    published s opened parent from_name to_name size unstable_verifier create_new closes publishes)).
  { exists (retries1 ++ last1), []. split; [by rewrite app_nil_r|]. by eapply published_closes. }
  destruct (republish_applies ops err) eqn:Hre; [|done].
  unfold retry_transient_compound_error.
  destruct (CompoundDecodeError.transient_status err) eqn:Htr; [|done].
  unfold claim_transient_retry.
  assert (Hcfg : config s1 = config s) by (by destruct Lk as (_ & _ & _ & _ & _ & _ & ? & _)).
  assert (Hroot : export_root s1 = export_root s) by (by destruct Lk as (_ & ? & _)).
  rewrite Hcfg. destruct (Z.leb_spec (NfsConfig.transient_retries (config s)) a1); [done|].
  set (s2 := sleep _ s1). unfold publish_after_close.
  destruct Lres as [(e0 & -> & _)|(q & b & -> & Hb & Hwf & Hd)].
  { by unfold CompoundDecodeError.transient_status in Htr. }
  assert (Hpo : (if create_new then [NfsOp.PutFh (OpenedFile.fh opened)] else [])
    ++ publish_ops (export_root s2) parent from_name to_name create_new = pops).
  { unfold pops, publish_only_ops. cbn [export_root sleep s2]. by rewrite Hroot. }
  rewrite Hpo.
  pose proof (blen_nonneg retries1).
  pose proof (compound_decode_detailed_spec call ulid (publish_tag create_new) pops
    (decode_publish parent create_new) Hencp (decode_publish_total parent create_new) true (a1 + 1) s2
    Lok ltac:(lia)) as H2. unfold publish_tag, decode_publish in H2.
  destruct (compound_decode_detailed call ulid _ pops _ true (a1 + 1, s2)) as [r2 [a2 s3]].
  destruct H2 as (retries2 & last2 & H2). pose proof H2 as [Mh _ _ _ _ _ _ _ _ Mok Mres].
  assert (Hboth : ∃ closes publishes, history s3 = history s ++ closes ++ publishes ∧
    published s opened parent from_name to_name size unstable_verifier create_new closes publishes).
  { exists (retries1 ++ [q]), (retries2 ++ last2). split.
    - rewrite Mh. cbn [history sleep s2]. by rewrite Lh, <- !app_assoc.
    - eapply (published_both a1 s1 q b err retries1 _ a2 s2 s3); [exact H1|exact Hb|exact Hwf|exact Hd|exact Hre|
        lia|exact Hcfg|exact H2]. }
  destruct r2 as [[]|e2|]; [|done..]. split; [done|]. split; [done|]. split; [done|].
  destruct Mres as (q2 & b2 & -> & Hb2 & Hwf2 & Hd2). exists q2, b2.
  split_and!; [by rewrite Mh, !app_assoc, last_snoc|done|]. right. by apply decode_publish_whole.
Qed.
End publishing.

(** C3: A file is published at most once.  Over every run of [close_publish],
    whatever is answered or lost: the requests are attempts of the compound
    that closes and publishes, then attempts to publish alone, no more in all
    than the configured retries and one.  A request is followed by another only
    when the server answered it and the bytes of the answer stop at a failed
    operation with no LINK or RENAME among those carried out before, and by
    another close only when no CLOSE is among them either; success is reported
    only on an answer that says that every operation of the last request, the
    publish included, was carried out. *)
Theorem close_publish_at_most_once call ulid `{!Transport call} opened parent from_name to_name size
    unstable_verifier create_new s :
  session_ok s →
  encodable (close_tag create_new) (close_publish_ops (export_root s) opened parent from_name to_name
    size unstable_verifier create_new) →
  encodable (publish_tag create_new) (publish_only_ops s opened parent from_name to_name create_new) →
  let '(r, s') := close_publish call ulid opened parent from_name to_name size
                    unstable_verifier create_new s in
  session_ok s' ∧
  (∃ closes publishes, history s' = history s ++ closes ++ publishes ∧
    published s opened parent from_name to_name size unstable_verifier create_new closes publishes) ∧
  match r with
  | Ok f => f = bump_close_seqid opened ∧ ∃ q b, last (history s') = Some q ∧ Request.reply q = Ok b ∧
      (answer_whole b (close_publish_ops (export_root s) opened parent from_name to_name size
                         unstable_verifier create_new)
       ∨ answer_whole b (publish_only_ops s opened parent from_name to_name create_new))
  | Err _ => True
  | Panic => False
  end.
Proof. intros Hok H1 H2. by apply close_publish_cases. Qed.

(** ** Compounds sent once *)

Lemma decode_once call ulid `{!Transport call} {A} tag ops
    (decode : list Z → res CompoundDecodeError.t A) s :
  session_ok s → encodable tag ops → (∀ b, bytes_wf b → decode b ≠ Panic) →
  let '(r, (_, s')) := compound_decode_detailed call ulid tag ops decode false (0, s) in
  session_ok s' ∧ kept s s' ∧ fused_put_supported s' = fused_put_supported s ∧ slept s' = slept s ∧
  ∃ last, history s' = history s ++ last ∧ Forall (ours tag ops) last ∧ blen last ≤ 1 ∧
  match r with
  | Ok v => ∃ q b, last = [q] ∧ Request.reply q = Ok b ∧ bytes_wf b ∧ decode b = Ok v
  | Err _ => True
  | Panic => False
  end.
Proof.
  intros Hok Henc Hdec.
  pose proof (compound_decode_detailed_spec call ulid tag ops decode Henc Hdec false 0 s Hok
    ltac:(lia)) as H.
  destruct (compound_decode_detailed call ulid tag ops decode false (0, s)) as [r [a' s']].
  destruct H as (retries & last & [Hh Ho Hr Hc Hl Hm Hsl Hk Hf Hok' Hres]).
  destruct Hm as [->|[? _]]; [|done]. rewrite Z.sub_diag in Hc. apply blen_0_nil in Hc. subst retries.
  unfold delays in Hsl. rewrite Z.sub_diag, seqZ_nil, fmap_nil, app_nil_r in Hsl by lia.
  split_and!; try done. exists last. split_and!; try done. by destruct r.
Qed.

(** The fused put sends one request or none.  A body that is too large, a
    session that saw the server reject the shape, or a compound over the
    negotiated limits is declined before anything is sent; otherwise exactly
    one compound goes out at most, never replayed; success is reported only
    when the server's answer carries the publish and every byte was written;
    and support is latched off exactly on the errors that mean the server
    rejects the shape. *)
Theorem try_put_fused_spec call ulid `{!Transport call} parent temp_name dest_name data create_new s :
  session_ok s →
  encodable (str_of "put-fused") (fused_put_ops s (ClientOwner.next_open_owner (client_owner s)).1
    parent temp_name dest_name data create_new) →
  let '(r, s') := try_put_fused call ulid parent temp_name dest_name data create_new s in
  session_ok s' ∧ slept s' = slept s ∧
  (∃ last, history s' = history s ++ last ∧ blen last ≤ 1 ∧
     match r with
     | Ok None => last = [] ∧ fused_put_supported s' = fused_put_supported s
     | Ok (Some (Opened (n, f))) =>
         n = blen data ∧ OpenedFile.close_seqid f = 1 ∧
         fused_put_supported s' = fused_put_supported s ∧
         ∃ q b w, last = [q] ∧ Request.reply q = Ok b ∧
           decode_fused_put_compound b (length parent) create_new =
             Ok (Opened (OpenedFile.stateid f, OpenedFile.fh f, w)) ∧
           WriteData.count w = blen data
     | Ok (Some OpenExists) =>
         fused_put_supported s' = fused_put_supported s ∧
         ∃ q b, last = [q] ∧ Request.reply q = Ok b ∧
           decode_fused_put_compound b (length parent) create_new = Ok OpenExists
     | Err e =>
         fused_put_supported s' = fused_put_supported s && negb (fused_put_unsupported e)
     | Panic => False
     end) ∧
  (fused_put_viable (blen data) s = false → r = Ok None ∧ s' = s).
Proof.
  intros Hok Henc. unfold try_put_fused.
  destruct (fused_put_viable (blen data) s) eqn:Hv; cbn [negb]; cycle 1.
  { split_and!; [done..| |done]. exists []. by rewrite app_nil_r. }
  unfold next_owner. destruct (ClientOwner.next_open_owner (client_owner s)) as [owner o].
  set (s1 := set_owner o s). set (ops := fused_put_ops s1 owner parent temp_name dest_name data create_new).
  destruct (fused_put_fits ops s1); cbn [negb]; cycle 1.
  { split_and!; try done. exists []. by rewrite app_nil_r. }
  pose proof (decode_once call ulid (str_of "put-fused") ops
    (λ b, decode_fused_put_compound b (length parent) create_new) s1 Hok
    Henc) as H.
  destruct (compound_decode_detailed call ulid _ ops _ false (0, s1)) as [r [a s2]].
  destruct H as (Hok2 & Hk & Hf & Hsl & last & Hh & Ho & Hl & Hr).
  { intros b Hb. pose proof (response_fused_put b (length parent) create_new Hb) as Hs.
    by apply response_total in Hs. }
  destruct r as [[[[stateid fh] w]|]|e|]; [..|done].
  - destruct Hr as (q & b & -> & Hb & _ & Hd).
    destruct (Z.eqb_spec (WriteData.count w) (blen data)) as [Hw|Hw]; cbn [negb].
    + split_and!; try done. exists [q]. split_and!; try done. by exists q, b, w.
    + split_and!; try done. exists [q]. split_and!; try done. rewrite Hf. by rewrite andb_true_r.
  - split_and!; try done. exists last. destruct Hr as (q & b & -> & Hb & _ & Hd). split_and!; try done. by exists q, b.
  - split_and!; try done; unfold note_fused_put_failure;
      destruct (fused_put_unsupported (CompoundDecodeError.into_error e)) eqn:Hu; try done.
    + exists last. by rewrite andb_false_r.
    + exists last. rewrite andb_true_r. by split_and!.
Qed.

(** ** Batches of closes *)

Lemma close_chunk_spec n opened s :
  (1 ≤ n)%nat →
  (1 ≤ close_chunk n opened s ≤ n)%nat ∧
  (close_chunk n opened s = 1%nat ∨
   compound_request_fits (str_of "close-batch") (close_ops (take (close_chunk n opened s) opened)) s = true).
Proof.
  induction n as [|n IH]; intros Hn; [lia|]. cbn [close_chunk].
  destruct (Nat.eqb_spec (S n) 1) as [->|Hne]; cbn [orb]; [split; [lia|by left]|].
  destruct (compound_request_fits (str_of "close-batch") (close_ops (take (S n) opened)) s) eqn:Hf;
    [split; [lia|by right]|].
  destruct (IH ltac:(lia)) as [Hb Hor]. split; [lia|done].
Qed.

(** The compounds of a batch: each closes between one and sixteen files and,
    unless it closes a single file, is within the negotiated limits. *)
Definition chunk_ok (s : NfsSession.t) (chunk : list OpenedFile.t) : Prop :=
  (1 ≤ length chunk)%nat ∧ blen chunk ≤ MAX_DEFERRED_CLOSE_BATCH ∧
  (length chunk = 1%nat ∨ compound_request_fits (str_of "close-batch") (close_ops chunk) s = true).

Lemma fits_kept tag ops s s' : kept s s' → compound_request_fits tag ops s' = compound_request_fits tag ops s.
Proof.
  intros (Hr & _ & _ & _ & _ & _ & Hc & _). unfold compound_request_fits, validate_compound_request.
  by rewrite Hr, Hc.
Qed.

Lemma chunk_ok_kept s s' chunk : kept s s' → chunk_ok s' chunk → chunk_ok s chunk.
Proof. intros Hk (H1 & H2 & H3). split_and!; try done. by rewrite (fits_kept _ _ s s') in H3. Qed.

Section batches.
Context (call : list Request.t → RpcPayload.t → res Error.t bytes) (ulid : nat → bytes)
  `{!Transport call}.

(** The outcome of [close_batch] on [opened]: the chunks that were sent, in
    order, and what is left when it fails. *)
Definition batch_outcome (s : NfsSession.t) (opened : list OpenedFile.t) (r : res Error.t unit)
    (s' : NfsSession.t) : Prop :=
  session_ok s' ∧ kept s s' ∧
  ∃ chunks reqs, history s' = history s ++ reqs ∧ Request.ops <$> reqs = close_ops <$> chunks ∧
    Forall (chunk_ok s) chunks ∧
    match r with
    | Ok _ => mjoin chunks = opened ∧
        Forall2 (λ q chunk, ∃ b, Request.reply q = Ok b ∧ answer_whole b (close_ops chunk)) reqs chunks
    | Err _ => ∃ rest, mjoin chunks ++ rest = opened
    | Panic => False
    end.

Lemma max_files_bounds c : 1 ≤ max_files_by_ops c ≤ MAX_DEFERRED_CLOSE_BATCH.
Proof. unfold max_files_by_ops, MAX_DEFERRED_CLOSE_BATCH. lia. Qed.

Lemma decode_close_batch_total n b :
  (1 ≤ n)%nat → Z.of_nat n ≤ MAX_DEFERRED_CLOSE_BATCH → bytes_wf b →
  decode_close_batch_compound b n ≠ Panic.
Proof.
  intros Hn Hm Hb. destruct n as [|m]; [lia|].
  assert (Hc : count (S m) ≤ u32_max).
  { unfold count, MAX_DEFERRED_CLOSE_BATCH in *. ulia. }
  pose proof (response_close_batch b m Hb Hc) as Hs. by apply response_total in Hs.
Qed.

Lemma close_codes_pairs l : close_pair_codes (length l) = NfsOp.opcode <$> close_ops l.
Proof. induction l as [|f l IH]; [done|]. cbn [length close_pair_codes]. by rewrite IH. Qed.

Lemma close_batch_whole b l :
  bytes_wf b → (1 ≤ length l)%nat → Z.of_nat (length l) ≤ MAX_DEFERRED_CLOSE_BATCH →
  decode_close_batch_compound b (length l) = Ok tt → answer_whole b (close_ops l).
Proof.
  intros Hb Hl Hm Hd. destruct (length l) as [|m] eqn:Hlen; [lia|].
  apply (decoder_whole (D_close_batch m) b); [done|..].
  - intros m' [= <-]. unfold count, MAX_DEFERRED_CLOSE_BATCH in *. ulia.
  - unfold decoder_codes, request_codes. by rewrite <- Hlen, close_codes_pairs.
  - cbn [decode]. by rewrite Hd.
Qed.

Lemma close_batch_turns_spec fuel opened s :
  (length opened ≤ fuel)%nat → session_ok s →
  (∀ l, l `sublist_of` opened → encodable (str_of "close-batch") (close_ops l)) →
  let '(r, s') := close_batch_turns call ulid fuel opened s in batch_outcome s opened r s'.
Proof.
  revert opened s. induction fuel as [|fuel IH]; intros opened s Hf Hok Henc.
  { destruct opened; [|simpl in Hf; lia]. split_and!; [done..|]. exists [], []. cbn. by rewrite app_nil_r. }
  destruct opened as [|f opened].
  { split_and!; [done..|]. exists [], []. cbn. by rewrite app_nil_r. }
  set (all := f :: opened) in *. cbn [close_batch_turns].
  unfold sbind at 1, asks. unfold all at 1. fold all.
  pose proof (max_files_bounds (config s)) as Hmax.
  set (n := close_chunk _ all s).
  destruct (close_chunk_spec (Nat.min (Z.to_nat (max_files_by_ops (config s))) (length all)) all s)
    as [Hb Hfit]; [unfold all; simpl; lia|]. fold n in Hb, Hfit.
  assert (Hlen : length (take n all) = n) by (rewrite length_take; lia).
  unfold sbind at 1, compound_decode_no_transient_retry, compound_decode_with.
  pose proof (decode_once call ulid (str_of "close-batch") (close_ops (take n all))
    (λ b, decode_close_batch_compound b n) s Hok) as H.
  destruct (compound_decode_detailed call ulid _ _ _ false (0, s)) as [r [a s1]].
  destruct H as (Hok1 & Hk & _ & _ & last & Hh & Ho & Hl & Hr).
  { apply Henc. apply sublist_take. }
  { intros b. apply decode_close_batch_total; [lia|]. lia. }
  assert (Hck : chunk_ok s (take n all)).
  { split_and!; rewrite ?Hlen; try done; [lia|]. unfold blen. rewrite Hlen. lia. }
  destruct r as [[]|e|]; [| |done]; cbn [map_err].
  - destruct Hr as (q & b & -> & Hq & Hwf & Hd).
    assert (Hqo : Request.ops q = close_ops (take n all)).
    { rewrite Forall_cons in Ho. by destruct Ho as [[_ ?] _]. }
    specialize (IH (drop n all) s1). destruct (close_batch_turns _ _ fuel (drop n all) s1) as [r2 s2].
    destruct IH as (Hok2 & Hk2 & chunks & reqs & Hh2 & Hops & Hall & Hres).
    { rewrite length_drop. lia. }
    { done. }
    { intros l Hs. apply Henc. etrans; [exact Hs|]. apply sublist_drop. }
    split_and!; [done|by etrans|]. exists (take n all :: chunks), (q :: reqs). split_and!.
    + by rewrite Hh2, Hh, <- app_assoc.
    + cbn. by rewrite Hqo, Hops.
    + constructor; [done|]. eapply Forall_impl; [exact Hall|]. intros c. by apply chunk_ok_kept.
    + destruct r2 as [[]|e2|]; [| |done].
      * destruct Hres as [Hj Hf2]. split; [by rewrite mjoin_cons, Hj, take_drop|].
        constructor; [|done]. exists b. split; [done|].
        apply close_batch_whole; [done|rewrite Hlen; lia|rewrite Hlen; lia|by rewrite Hlen].
      * destruct Hres as [rest Hrest]. exists rest.
        by rewrite mjoin_cons, <- app_assoc, Hrest, take_drop.
  - split_and!; [done..|]. destruct last as [|q [|]].
    + exists [], []. split_and!; [done..|]. by exists all.
    + exists [take n all], [q]. split_and!; [done| |by constructor|].
      * cbn. rewrite Forall_cons in Ho. by destruct Ho as [[_ ->] _].
      * exists (drop n all). cbn. by rewrite app_nil_r, take_drop.
    + rewrite !blen_cons in Hl. pose proof (blen_nonneg l). lia.
Qed.
End batches.

(** A batch of closes covers every file.  [close_batch] returns after
    sending each chunk once: on success the chunks, in order, are exactly the
    files it was given, every one answered; on failure they are the first of
    them; each compound closes between one and sixteen files and, unless it
    is down to one, fits the limits the server agreed to. *)
Theorem close_batch_covers call ulid `{!Transport call} opened s :
  session_ok s →
  (∀ l, l `sublist_of` opened → encodable (str_of "close-batch") (close_ops l)) →
  let '(r, s') := close_batch call ulid opened s in batch_outcome s opened r s'.
Proof. intros Hok Henc. by apply close_batch_turns_spec. Qed.

(** ** Sample runs *)

Ltac sample_encodable :=
  apply encodable_intro; [by vm_compute|by vm_compute|repeat constructor; by vm_compute|by vm_compute].

(** A transport that plays a list of answers, then times out. *)
Definition scripted (script : list (res Error.t bytes)) (h : list Request.t) (p : RpcPayload.t)
  : res Error.t bytes := default (Err (Error.Timeout 0)) (script !! length h).

Lemma scripted_transport script :
  Forall (λ r, match r with Ok b => bytes_wf b | Err _ => True | Panic => False end) script →
  Transport (scripted script).
Proof.
  intros Hs h p. unfold scripted. destruct (script !! length h) as [r|] eqn:Hr; [|done].
  rewrite Forall_lookup in Hs. exact (Hs _ _ Hr).
Qed.

Definition sample_rpc : RpcClient.t :=
  match RpcClient.prepare 1 (AuthSys.new (str_of "host") 0 0) with
  | Ok c => c
  | _ => RpcClient.mk [] 0 []
  end.

Definition sample_session : NfsSession.t :=
  NfsSession.mk sample_rpc [1] 9 (replicate 16 5) (new 2) (ClientOwner.new 4 (replicate 16 7) [])
    7 true true 0 (NfsConfig.new (str_of "/")) 1000 [] [].

Lemma sample_session_ok : session_ok sample_session.
Proof. split; [apply quiet_new; ulia|reflexivity]. Qed.

(** A compound response of [n] replies on slot 0 with sequence id [q]. *)
Definition sample_response (s n q : Z) (rest : bytes) : bytes :=
  wire_sequence_reply s [] n 0 (replicate 16 5) q 0 1 1 0 rest.

(** RENAME meets a delay after CLOSE; then the publish alone succeeds. *)
Definition delayed_publish : list (res Error.t bytes) :=
  [Ok (sample_response status.DELAY 7 1
         (ok_reply OpCode.PutFh ++ ok_reply OpCode.Verify ++ ok_reply OpCode.Close ++ replicate 16 0
          ++ ok_reply OpCode.PutFh ++ ok_reply OpCode.SaveFh ++ fail_reply OpCode.Rename status.DELAY));
   Ok (sample_response 0 4 2
         (ok_reply OpCode.PutFh ++ ok_reply OpCode.SaveFh ++ ok_reply OpCode.Rename
          ++ wire_change_info true 1 2 ++ wire_change_info true 2 3))].

Definition sample_file : OpenedFile.t := OpenedFile.mk [2] StateId.anonymous 1.

Lemma session_exchange_spec_witness :
  let r := compound_raw_once (scripted delayed_publish) (λ _, []) (str_of "read-anon")
             [NfsOp.PutFh [2]; NfsOp.Read StateId.anonymous 0 10] sample_session in
  is_ok r.1 = true ∧ session_ok r.2.
Proof.
  intros r. split; [vm_compute; reflexivity|].
  assert (Ht : Transport (scripted delayed_publish)).
  { apply scripted_transport. repeat constructor; by vm_compute. }
  pose proof (session_exchange_spec (scripted delayed_publish) (λ _, []) (str_of "read-anon")
    [NfsOp.PutFh [2]; NfsOp.Read StateId.anonymous 0 10] sample_session sample_session_ok) as H.
  fold r in H. destruct r as [x s']. apply H. sample_encodable.
Defined.




Lemma close_publish_at_most_once_witness :
  let r := close_publish (scripted delayed_publish) (λ _, []) sample_file [] (str_of "tmp")
             (str_of "dst") 5 None false sample_session in
  r.1 = Ok (bump_close_seqid sample_file) ∧ length (history r.2) = 2%nat ∧ session_ok r.2.
Proof.
  intros r. split; [vm_compute; reflexivity|]. split; [vm_compute; reflexivity|].
  assert (Ht : Transport (scripted delayed_publish)).
  { apply scripted_transport. repeat constructor; by vm_compute. }
  pose proof (close_publish_at_most_once (scripted delayed_publish) (λ _, []) sample_file []
    (str_of "tmp") (str_of "dst") 5 None false sample_session sample_session_ok) as H.
  fold r in H. destruct r as [x s']. apply H.
  - sample_encodable.
  - sample_encodable.
Defined.

Lemma try_put_fused_spec_witness :
  let r := try_put_fused (scripted []) (λ _, []) [] (str_of "tmp") (str_of "dst") [1; 2; 3] false
             sample_session in
  r.1 = Err (Error.Timeout 0) ∧ length (history r.2) = 1%nat ∧ session_ok r.2.
Proof.
  intros r. split; [vm_compute; reflexivity|]. split; [vm_compute; reflexivity|].
  assert (Ht : Transport (scripted [])) by (apply scripted_transport; constructor).
  pose proof (try_put_fused_spec (scripted []) (λ _, []) [] (str_of "tmp") (str_of "dst") [1; 2; 3]
    false sample_session sample_session_ok) as H.
  fold r in H. destruct r as [x s']. apply H. sample_encodable.
Defined.

Lemma close_batch_covers_witness :
  let r := close_batch (scripted []) (λ _, []) [sample_file; sample_file] sample_session in
  r.1 = Err (Error.Timeout 0) ∧ batch_outcome sample_session [sample_file; sample_file] r.1 r.2.
Proof.
  intros r. split; [vm_compute; reflexivity|].
  assert (Ht : Transport (scripted [])) by (apply scripted_transport; constructor).
  pose proof (close_batch_covers (scripted []) (λ _, []) [sample_file; sample_file] sample_session
    sample_session_ok) as H.
  fold r in H. destruct r as [x s']. apply H. intros l Hl.
  assert (Hc : l = [] ∨ l = [sample_file] ∨ l = [sample_file; sample_file]).
  { apply sublist_cons_r in Hl as [Hl|(l1 & -> & Hl)];
      apply sublist_cons_r in Hl as [Hl|(l2 & -> & Hl)]; apply sublist_nil_r in Hl as ->; auto. }
  destruct Hc as [-> | [-> | ->]]; sample_encodable.
Defined.
