(* ===== verification/Reads.v ===== *)
(** * Reading files (src/client.rs, the read half)

    A file is read in chunks over anonymous READs: a single chunk, a
    sequential loop, or a pipeline that keeps several READs in flight and
    puts the answers, which complete in any order, back together.  This file
    holds the definitions; [ReadsFacts.v] holds what they guarantee.

    The functions use a session only through the operations listed in
    [ReadService]; [session_reads] provides them from [Session.v].  The order
    in which the reads in flight complete is the argument [order]: at its
    [n]-th turn the loop receives the read at index [order n] of those in
    flight (modulo their number), so a statement for every [order] is a
    statement about every order of completion. *)

From S2P Require Import Prelude Proto Errors Path Xdr Ops Rpc Compound Reply Replies Slots Owner Session.

Definition DEFAULT_MAX_BUFFERED_READ_SIZE : Z := 128 * 1024 * 1024.
Definition MAX_OPERATION_PIPELINE_DEPTH : Z := 16.

(** ** Requirements on a read *)

Module ExpectedEof.
Inductive t : Type :=
| CallerSupplied (o : Z)
| ResolvedWithFile (o : Z).

Definition offset (e : t) : Z :=
  match e with CallerSupplied o | ResolvedWithFile o => o end.
End ExpectedEof.

Module ReadRequirements.
Record t : Type := mk {
  expected_len : option Z;
  expected_eof : option ExpectedEof.t;
  limit : option Z;
}.

Definition new (expected_len limit : option Z) : t := mk expected_len None limit.
Definition exact (size : Z) (limit : option Z) : t :=
  mk (Some size) (Some (ExpectedEof.CallerSupplied size)) limit.
Definition resolved_exact (size : Z) (limit : option Z) : t :=
  mk (Some size) (Some (ExpectedEof.ResolvedWithFile size)) limit.
End ReadRequirements.

Definition size_expectation_error (expectation : ExpectedEof.t) (actual : option Z) : Error.t :=
  let expected := ExpectedEof.offset expectation in
  match expectation with
  | ExpectedEof.CallerSupplied _ => Error.file_size_mismatch expected actual
  | ExpectedEof.ResolvedWithFile _ =>
      match actual with
      | Some actual =>
          Error.protocol "READ reached EOF at byte {actual}, but the size resolved with the file was {expected}"
      | None =>
          Error.protocol "READ reached resolved size {expected} without the required EOF indication"
      end
  end.

Definition validate_eof_expectation (expectation : ExpectedEof.t) (observed_end : Z) (eof : bool)
  : res Error.t unit :=
  let expected := ExpectedEof.offset expectation in
  if eof then
    if observed_end =? expected then Ok tt
    else Err (size_expectation_error expectation (Some observed_end))
  else if expected <=? observed_end then Err (size_expectation_error expectation None)
  else Ok tt.

Definition validate_expected_eof (expected observed_end : Z) (eof : bool) : res Error.t unit :=
  validate_eof_expectation (ExpectedEof.CallerSupplied expected) observed_end eof.

Definition validate_optional_expected_eof (expected : option ExpectedEof.t) (observed_end : Z)
    (eof : bool) : res Error.t unit :=
  match expected with
  | Some expected => validate_eof_expectation expected observed_end eof
  | None => Ok tt
  end.

Definition validate_optional_observed_eof (expected : option ExpectedEof.t)
    (observed_eof : option Z) : res Error.t unit :=
  match expected, observed_eof with
  | Some expected, Some actual =>
      if negb (ExpectedEof.offset expected =? actual)
      then Err (size_expectation_error expected (Some actual)) else Ok tt
  | None, _ => Ok tt
  | Some expected, None => Err (size_expectation_error expected None)
  end.

Definition read_needs_retry (read : ReadData.t) (count : Z) : bool :=
  (blen (ReadData.data read) <? count) && negb (ReadData.eof read).

Definition validate_read_reply (read : ReadData.t) (count : Z) : res Error.t unit :=
  if count <? blen (ReadData.data read) then
    Err (Error.protocol "NFS READ returned {} bytes for a {} byte request")
  else if (0 <? count) && (blen (ReadData.data read) =? 0) && negb (ReadData.eof read) then
    Err (Error.protocol "NFS READ returned no data for a nonzero request without EOF")
  else Ok tt.

Definition unwrap_or {A} (d : A) (o : option A) : A := match o with Some a => a | None => d end.

Definition buffered_read_capacity (expected_len : option Z) (requested_len : Z) (limit : option Z)
  : Z :=
  let size := unwrap_or requested_len expected_len in
  let capacity := Z.min size (unwrap_or DEFAULT_MAX_BUFFERED_READ_SIZE limit) in
  if capacity <=? usize_max then capacity else 0.

(** [BytesMut::with_capacity]: an empty buffer; the capacity is a hint. *)
Definition with_capacity (capacity : Z) : bytes := [].

Definition ensure_known_size_within_limit (size : Z) (limit : option Z) : res Error.t unit :=
  match limit with
  | Some limit =>
      if limit <? size then Err (Error.BufferedReadTooLarge (Some size) limit) else Ok tt
  | None => Ok tt
  end.

Definition ensure_buffered_read_within_limit (current_len additional_len : Z)
    (expected_len limit : option Z) : res Error.t unit :=
  match limit with
  | None => Ok tt
  | Some limit =>
      if limit <? saturating_add current_len additional_len
      then Err (Error.BufferedReadTooLarge expected_len limit) else Ok tt
  end.

Definition operation_pipeline_depth_for_slots (slot_count : Z) : Z :=
  Z.min (Z.max slot_count 1) MAX_OPERATION_PIPELINE_DEPTH.

Definition range_read_needs_size (requested_len : Z) (limit : option Z) : bool :=
  match limit with Some limit => limit <? requested_len | None => false end.

Definition buffered_range_len (start end_ : Z) (file_size : option Z) : Z :=
  match file_size with
  | Some size => if size <=? start then 0 else saturating_sub (Z.min end_ size) start
  | None => end_ - start
  end.

(** ** The pipeline *)

Module ReadTaskOutput.
Record t : Type := mk { offset : Z; requested : Z; data : bytes; eof : bool }.

Definition short_read_gap (r : t) : option (Z * Z) :=
  let read_len := blen (data r) in
  let gap_len := saturating_sub (requested r) read_len in
  if negb (eof r) && (0 <? gap_len) then Some (offset r + read_len, gap_len) else None.

(** The byte after the data. *)
Definition end_ (r : t) : Z := saturating_add (offset r) (blen (data r)).
Definition is_empty (r : t) : bool := blen (data r) =? 0.
End ReadTaskOutput.

(** [Vec::pop], with the end of the vector as the head of [rev]. *)
Definition pop {A} (l : list A) : option (A * list A) :=
  match rev l with [] => None | x :: r => Some (x, rev r) end.

(** [Vec::swap_remove]: the last element takes the place of the removed one. *)
Definition swap_remove {A} (i : nat) (l : list A) : option (A * list A) :=
  match l !! i, pop l with
  | Some x, Some (y, l') => Some (x, if (i =? length l')%nat then l' else <[i := y]> l')
  | _, _ => None
  end.

Fixpoint position {A} (p : A → bool) (l : list A) : option nat :=
  match l with
  | [] => None
  | x :: l' => if p x then Some O else S <$> position p l'
  end.

Module ChunkScheduler.
Record t : Type := mk { gaps : list (Z * Z); next_offset : Z; end_ : Z; chunk_size : Z }.

Definition new (start end_ chunk_size : Z) : t := mk [] start end_ chunk_size.

Definition push_gap (offset len : Z) (c : t) : t :=
  mk (gaps c ++ [(offset, len)]) (next_offset c) (end_ c) (chunk_size c).

Definition next_range (eof_observed : bool) (c : t) : option (Z * Z) * t :=
  match pop (gaps c) with
  | Some ((offset, len), gaps') =>
      (Some (offset, as_u32 (Z.min len (chunk_size c))),
       mk gaps' (next_offset c) (end_ c) (chunk_size c))
  | None =>
      if eof_observed || (end_ c <=? next_offset c) then (None, c)
      else
        let offset := next_offset c in
        let len := Z.min (end_ c - offset) (chunk_size c) in
        (Some (offset, as_u32 len),
         mk (gaps c) (next_offset c + len) (end_ c) (chunk_size c))
  end.
End ChunkScheduler.

Module PipelinedEmit.
Record t : Type := mk {
  out : bytes;
  completed : list ReadTaskOutput.t;
  next_offset : Z;
  eof_at : option Z;
  eof_upper_bound : option Z;
  first_error : option Error.t;
  expected_len : option Z;
  expected_eof : option ExpectedEof.t;
  limit : option Z;
}.

Definition new (out : bytes) (start : Z) (expected_len : option Z)
    (expected_eof : option ExpectedEof.t) (limit : option Z) : t :=
  mk out [] start None None None expected_len expected_eof limit.

Definition set_completed (x : list ReadTaskOutput.t) (e : t) : t :=
  mk (out e) x (next_offset e) (eof_at e) (eof_upper_bound e) (first_error e)
     (expected_len e) (expected_eof e) (limit e).
Definition set_eof_at (x : option Z) (e : t) : t :=
  mk (out e) (completed e) (next_offset e) x (eof_upper_bound e) (first_error e)
     (expected_len e) (expected_eof e) (limit e).
Definition set_eof_upper_bound (x : option Z) (e : t) : t :=
  mk (out e) (completed e) (next_offset e) (eof_at e) x (first_error e)
     (expected_len e) (expected_eof e) (limit e).
(** [self.next_offset += len; self.out.extend_from_slice(data)] *)
Definition extend (data : bytes) (e : t) : t :=
  mk (out e ++ data) (completed e) (next_offset e + blen data) (eof_at e) (eof_upper_bound e)
     (first_error e) (expected_len e) (expected_eof e) (limit e).

Definition eof_observed (e : t) : bool :=
  match eof_upper_bound e with Some _ => true | None => false end.
Definition can_schedule_more (e : t) : bool :=
  match first_error e with None => true | Some _ => false end.

(** [Option::get_or_insert]: an earlier error is kept. *)
Definition record_error (err : Error.t) (e : t) : t :=
  match first_error e with
  | Some _ => e
  | None => mk (out e) (completed e) (next_offset e) (eof_at e) (eof_upper_bound e) (Some err)
               (expected_len e) (expected_eof e) (limit e)
  end.

Definition observe_eof_upper_bound (eof_at_or_before : Z) (e : t) : t :=
  let e := match eof_at e with
           | Some exact =>
               if eof_at_or_before <? exact then
                 record_error (Error.protocol
                   "pipelined READ reported EOF upper bound {eof_at_or_before} below exact EOF offset {exact}") e
               else e
           | None => e
           end in
  set_eof_upper_bound
    (Some (match eof_upper_bound e with
           | Some current => Z.min current eof_at_or_before
           | None => eof_at_or_before
           end)) e.

Definition observe_exact_eof (at_ : Z) (e : t) : t :=
  let e := match eof_upper_bound e with
           | Some upper_bound =>
               if upper_bound <? at_ then
                 record_error (Error.protocol
                   "pipelined READ reported exact EOF offset {eof_at} beyond earlier EOF upper bound {upper_bound}") e
               else e
           | None => e
           end in
  let e := match eof_at e with
           | Some current =>
               if current =? at_ then e
               else record_error (Error.protocol
                 "pipelined READ reported conflicting EOF offsets: {current} and {eof_at}") e
           | None => set_eof_at (Some at_) e
           end in
  observe_eof_upper_bound at_ e.

Definition observe_read_eof (read : ReadTaskOutput.t) (e : t) : t :=
  let at_ := ReadTaskOutput.offset read + blen (ReadTaskOutput.data read) in
  if ReadTaskOutput.is_empty read && negb (ReadTaskOutput.offset read =? next_offset e)
  then observe_eof_upper_bound at_ e
  else observe_exact_eof at_ e.

Definition emit (read : ReadTaskOutput.t) (e : t) : t :=
  let read_len := blen (ReadTaskOutput.data read) in
  if read_len =? 0 then observe_exact_eof (ReadTaskOutput.offset read) e
  else
    match ensure_buffered_read_within_limit (blen (out e)) read_len (expected_len e) (limit e) with
    | Err err => record_error err e
    | _ =>
        let e := extend (ReadTaskOutput.data read) e in
        if ReadTaskOutput.eof read then observe_exact_eof (next_offset e) e else e
    end.

Definition take_completed (e : t) : option (ReadTaskOutput.t * t) :=
  match position (λ read, ReadTaskOutput.offset read =? next_offset e) (completed e) with
  | Some index =>
      match swap_remove index (completed e) with
      | Some (read, completed') => Some (read, set_completed completed' e)
      | None => None
      end
  | None => None
  end.

(** [self.eof_at.is_none_or(|eof_offset| self.next_offset < eof_offset)] *)
Definition below_eof (e : t) : bool :=
  match eof_at e with Some eof_offset => next_offset e <? eof_offset | None => true end.

(** Every turn takes a queued read away, so as many turns as there are queued
    reads are enough. *)
Fixpoint drain_loop (turns : nat) (e : t) : t :=
  match turns with
  | O => e
  | S turns =>
      if below_eof e then
        match take_completed e with
        | None => e
        | Some (read, e) =>
            let e := emit read e in
            if negb (can_schedule_more e) || negb (below_eof e) then e
            else drain_loop turns e
        end
      else e
  end.

Definition drain_queued (e : t) : t := drain_loop (length (completed e)) e.

(** A read whose data lies beyond the end of the file. *)
Definition beyond (eof : option Z) (read : ReadTaskOutput.t) : bool :=
  match eof with
  | Some eof => negb (ReadTaskOutput.is_empty read) && (eof <? ReadTaskOutput.end_ read)
  | None => false
  end.

Definition record (read : ReadTaskOutput.t) (e : t) : t :=
  let e := if ReadTaskOutput.eof read then observe_read_eof read e else e in
  if beyond (eof_at e) read then
    record_error (Error.protocol "pipelined READ returned data beyond a previously reported EOF") e
  else if ReadTaskOutput.offset read =? next_offset e then drain_queued (emit read e)
  else set_completed (completed e ++ [read]) e.

Definition finish (e : t) : res Error.t unit :=
  match first_error e with
  | Some err => Err err
  | None =>
      if existsb (beyond (eof_at e)) (completed e) then
        Err (Error.protocol "pipelined READ returned queued data beyond EOF")
      else
        match eof_at e, eof_upper_bound e with
        | Some eof_at, _ =>
            if next_offset e <? eof_at
            then Err (Error.protocol "pipelined READ completed with a hole below EOF")
            else validate_optional_observed_eof (expected_eof e) (Some eof_at)
        | None, Some upper_bound =>
            if next_offset e <? upper_bound
            then Err (Error.protocol "pipelined READ completed before resolving EOF offset")
            else validate_optional_observed_eof (expected_eof e) None
        | None, None => validate_optional_observed_eof (expected_eof e) None
        end
  end.
End PipelinedEmit.

(** The loop's state: the scheduler, the reassembly, the reads in flight. *)
Module Pipeline.
Record t : Type := mk {
  scheduler : ChunkScheduler.t;
  emit : PipelinedEmit.t;
  reads : list (Z * Z);
}.
End Pipeline.

(** [while emit.can_schedule_more() && reads.len() < depth]: [room] is what
    the pipeline has left of its depth. *)
Fixpoint schedule (room : nat) (p : Pipeline.t) : Pipeline.t :=
  match room with
  | O => p
  | S room =>
      if PipelinedEmit.can_schedule_more (Pipeline.emit p) then
        match ChunkScheduler.next_range (PipelinedEmit.eof_observed (Pipeline.emit p))
                (Pipeline.scheduler p) with
        | (Some range, c) =>
            schedule room (Pipeline.mk c (Pipeline.emit p) (Pipeline.reads p ++ [range]))
        | (None, c) => Pipeline.mk c (Pipeline.emit p) (Pipeline.reads p)
        end
      else p
  end.

(** [FuturesUnordered::next]: one of the operations in flight completes. *)
Definition next_completion {A} (choice : nat) (reads : list A) : option (A * list A) :=
  match reads with
  | [] => None
  | _ :: _ =>
      let i := (choice mod length reads)%nat in
      match reads !! i with
      | Some read => Some (read, delete i reads)
      | None => None
      end
  end.

(** What the loop does with a completed read. *)
Definition complete (rest : list (Z * Z)) (result : Error.t + ReadTaskOutput.t) (p : Pipeline.t)
  : Pipeline.t :=
  match result with
  | inr read =>
      Pipeline.mk
        (match ReadTaskOutput.short_read_gap read with
         | Some (gap_offset, gap_len) =>
             ChunkScheduler.push_gap gap_offset gap_len (Pipeline.scheduler p)
         | None => Pipeline.scheduler p
         end) (PipelinedEmit.record read (Pipeline.emit p)) rest
  | inl err => Pipeline.mk (Pipeline.scheduler p) (PipelinedEmit.record_error err (Pipeline.emit p)) rest
  end.

(** ** The session as the reads see it *)

Module ReadService.
Class t (S : Type) : Type := mk {
  read_anonymous : FileHandle → Z → Z → st S Error.t ReadData.t;
  read_path_anonymous : list str → Z → Z → st S Error.t ReadData.t;
  read_path_anonymous_with_handle : list str → Z → Z → st S Error.t (FileHandle * ReadData.t);
  read_path_anonymous_with_size : list str → Z → st S Error.t (FileHandle * Z * ReadData.t);
  lookup_file_handle : list str → st S Error.t FileHandle;
  lookup_file_handle_attrs : list str → AttrRequest.t → st S Error.t (FileHandle * FileAttrs.t);
  read_granularity : S → Z;
  read_chunk_size : S → Z;
  session_slot_count : S → Z;
}.
End ReadService.

#[export] Instance session_reads (call : list Request.t → RpcPayload.t → res Error.t bytes)
    (ulid : nat → bytes) : ReadService.t NfsSession.t := {|
  ReadService.read_anonymous := Session.read_anonymous call ulid;
  ReadService.read_path_anonymous := Session.read_path_anonymous call ulid;
  ReadService.read_path_anonymous_with_handle := Session.read_path_anonymous_with_handle call ulid;
  ReadService.read_path_anonymous_with_size := Session.read_path_anonymous_with_size call ulid;
  ReadService.lookup_file_handle := Session.lookup_file_handle call ulid;
  ReadService.lookup_file_handle_attrs := Session.lookup_file_handle_attrs call ulid;
  ReadService.read_granularity s := NfsConfig.read_granularity (NfsSession.config s);
  ReadService.read_chunk_size s := NfsConfig.read_chunk_size (NfsSession.config s);
  ReadService.session_slot_count := Session.session_slot_count;
|}.

(** ** The reads *)

Section reads.
Context {S : Type} {service : ReadService.t S} (order : nat → nat).

Definition asks {A} (f : S → A) : st S Error.t A := λ s, (Ok (f s), s).

Definition operation_pipeline_depth (s : S) : Z :=
  operation_pipeline_depth_for_slots (ReadService.session_slot_count s).

Definition small_get_probe_count (limit : option Z) (s : S) : Z :=
  match limit with
  | Some limit => as_u32 (Z.min limit (ReadService.read_granularity s))
  | None => ReadService.read_granularity s
  end.

Definition read_chunk (fh : FileHandle) (offset count : Z) : st S Error.t ReadTaskOutput.t :=
  let! read := ReadService.read_anonymous fh offset count in
  let! _ := slift (validate_read_reply read count) in
  sret (ReadTaskOutput.mk offset count (ReadData.data read) (ReadData.eof read)).

Fixpoint pipelined_loop (fuel turn : nat) (fh : FileHandle) (depth : Z) (p : Pipeline.t)
  : st S Error.t PipelinedEmit.t := λ s,
  let p := schedule (Z.to_nat (depth - blen (Pipeline.reads p))) p in
  match next_completion (order turn) (Pipeline.reads p) with
  | None => (Ok (Pipeline.emit p), s)
  | Some (offset, count, rest) =>
      match fuel with
      | O => (Panic, s)
      | Datatypes.S fuel =>
          match read_chunk fh offset count s with
          | (Ok read, s) =>
              pipelined_loop fuel (Datatypes.S turn) fh depth (complete rest (inr read) p) s
          | (Err err, s) =>
              pipelined_loop fuel (Datatypes.S turn) fh depth (complete rest (inl err) p) s
          | (Panic, s) => (Panic, s)
          end
      end
  end.

(** Every completion answers at least one byte of the range for good, so the
    loop turns at most once for each byte. *)
Definition read_handle_to_bytes_pipelined_into (fh : FileHandle) (out : bytes)
    (start total_len : Z) (requirements : ReadRequirements.t) : st S Error.t bytes :=
  let! depth := asks operation_pipeline_depth in
  let! chunk_size := asks ReadService.read_granularity in
  let scheduler := ChunkScheduler.new start (saturating_add start total_len) chunk_size in
  let emit := PipelinedEmit.new out start (ReadRequirements.expected_len requirements)
                (ReadRequirements.expected_eof requirements) (ReadRequirements.limit requirements) in
  let! emit := pipelined_loop (Z.to_nat total_len) 0 fh depth (Pipeline.mk scheduler emit []) in
  let! _ := slift (PipelinedEmit.finish emit) in
  sret (PipelinedEmit.out emit).

(** A turn that does not end the loop receives at least one byte. *)
Fixpoint sequential_loop (fuel : nat) (fh : FileHandle) (chunk_size : Z) (out : bytes)
    (offset remaining : Z) (observed_eof : option Z) (requirements : ReadRequirements.t)
  : st S Error.t (bytes * option Z) :=
  if 0 <? remaining then
    match fuel with
    | O => spanic
    | Datatypes.S fuel =>
        let count := as_u32 (Z.min remaining chunk_size) in
        let! read := ReadService.read_anonymous fh offset count in
        let! _ := slift (validate_read_reply read count) in
        let len := blen (ReadData.data read) in
        let observed_eof := if ReadData.eof read then Some (offset + len) else observed_eof in
        if len =? 0 then sret (out, observed_eof)
        else
          let! _ := slift (ensure_buffered_read_within_limit (blen out) len
                      (ReadRequirements.expected_len requirements)
                      (ReadRequirements.limit requirements)) in
          let out := out ++ ReadData.data read in
          if ReadData.eof read then sret (out, observed_eof)
          else sequential_loop fuel fh chunk_size out (offset + len)
                 (saturating_sub remaining len) observed_eof requirements
    end
  else sret (out, observed_eof).

Definition read_handle_to_bytes_sequential_into (fh : FileHandle) (out : bytes)
    (offset remaining : Z) (requirements : ReadRequirements.t) : st S Error.t bytes :=
  let! chunk_size := asks ReadService.read_chunk_size in
  let! (out, observed_eof) :=
    sequential_loop (Z.to_nat remaining) fh chunk_size out offset remaining None requirements in
  let! _ := slift (validate_optional_observed_eof (ReadRequirements.expected_eof requirements)
              observed_eof) in
  sret out.

Definition read_handle_single_chunk_or_continue (fh : FileHandle) (offset count : Z)
    (requirements : ReadRequirements.t) : st S Error.t bytes :=
  let! read := ReadService.read_anonymous fh offset count in
  let! _ := slift (validate_read_reply read count) in
  let read_len := blen (ReadData.data read) in
  let! _ := slift (ensure_buffered_read_within_limit 0 read_len
              (ReadRequirements.expected_len requirements) (ReadRequirements.limit requirements)) in
  if negb (read_needs_retry read count) then
    let! _ := slift (validate_optional_expected_eof (ReadRequirements.expected_eof requirements)
                (offset + read_len) (ReadData.eof read)) in
    sret (ReadData.data read)
  else
    let out := with_capacity (buffered_read_capacity (ReadRequirements.expected_len requirements)
                 count (ReadRequirements.limit requirements)) ++ ReadData.data read in
    read_handle_to_bytes_sequential_into fh out (offset + read_len)
      (saturating_sub count read_len) requirements.

Definition read_handle_to_bytes (fh : FileHandle) (offset remaining : Z)
    (requirements : ReadRequirements.t) : st S Error.t bytes :=
  if remaining =? 0 then sret []
  else
    let! granularity := asks ReadService.read_granularity in
    let! depth := asks operation_pipeline_depth in
    if remaining <=? granularity then
      read_handle_single_chunk_or_continue fh offset (as_u32 remaining) requirements
    else
      let out := with_capacity (buffered_read_capacity (ReadRequirements.expected_len requirements)
                   remaining (ReadRequirements.limit requirements)) in
      if depth <=? 1 then
        read_handle_to_bytes_sequential_into fh out offset remaining requirements
      else read_handle_to_bytes_pipelined_into fh out offset remaining requirements.

Definition read_handle_to_bytes_after_prefix (fh : FileHandle) (prefix : bytes)
    (resume_offset remaining : Z) (requirements : ReadRequirements.t) : st S Error.t bytes :=
  let total_len := blen prefix + remaining in
  let out := with_capacity (buffered_read_capacity (ReadRequirements.expected_len requirements)
               total_len (ReadRequirements.limit requirements)) ++ prefix in
  let! granularity := asks ReadService.read_granularity in
  let! depth := asks operation_pipeline_depth in
  if (remaining <=? granularity) || (depth <=? 1) then
    read_handle_to_bytes_sequential_into fh out resume_offset remaining requirements
  else read_handle_to_bytes_pipelined_into fh out resume_offset remaining requirements.

Definition read_range_anonymous (components : list str) (start requested_len : Z)
    (requirements : ReadRequirements.t) : st S Error.t bytes :=
  let! granularity := asks ReadService.read_granularity in
  if requested_len <=? granularity then
    let count := as_u32 requested_len in
    let! read := ReadService.read_path_anonymous components start count in
    let! _ := slift (validate_read_reply read count) in
    let read_len := blen (ReadData.data read) in
    let! _ := slift (ensure_buffered_read_within_limit 0 read_len
                (ReadRequirements.expected_len requirements) (ReadRequirements.limit requirements)) in
    if negb (read_needs_retry read count) then
      let! _ := slift (validate_optional_expected_eof (ReadRequirements.expected_eof requirements)
                  (start + read_len) (ReadData.eof read)) in
      sret (ReadData.data read)
    else
      let! fh := ReadService.lookup_file_handle components in
      read_handle_to_bytes fh start requested_len requirements
  else
    let count := granularity in
    let! (fh, read) := ReadService.read_path_anonymous_with_handle components start count in
    let! _ := slift (validate_read_reply read count) in
    let read_len := blen (ReadData.data read) in
    let! _ := slift (ensure_buffered_read_within_limit 0 read_len
                (ReadRequirements.expected_len requirements) (ReadRequirements.limit requirements)) in
    if ReadData.eof read then
      let! _ := slift (validate_optional_expected_eof (ReadRequirements.expected_eof requirements)
                  (start + read_len) true) in
      sret (ReadData.data read)
    else
      read_handle_to_bytes_after_prefix fh (ReadData.data read) (start + read_len)
        (requested_len - read_len) requirements.

(** ** The client's read operations

    [limit] is the client's [max_buffered_read_size]. *)

Definition get_once (limit : option Z) (components : list str) : st S Error.t bytes :=
  let! count := asks (small_get_probe_count limit) in
  let! (fh, size, read) := ReadService.read_path_anonymous_with_size components count in
  let! _ := slift (validate_read_reply read count) in
  let! _ := slift (ensure_known_size_within_limit size limit) in
  let read_len := blen (ReadData.data read) in
  if read_len =? size then
    let! _ := slift (validate_eof_expectation (ExpectedEof.ResolvedWithFile size) read_len
                (ReadData.eof read)) in
    sret (ReadData.data read)
  else if size <? read_len then
    sfail (size_expectation_error (ExpectedEof.ResolvedWithFile size)
             (if ReadData.eof read then Some read_len else None))
  else if ReadData.eof read then
    sfail (size_expectation_error (ExpectedEof.ResolvedWithFile size) (Some read_len))
  else
    read_handle_to_bytes_after_prefix fh (ReadData.data read) read_len (size - read_len)
      (ReadRequirements.resolved_exact size limit).

Definition get_known_size_once (limit : option Z) (components : list str) (size : Z)
  : st S Error.t bytes :=
  let! _ := slift (ensure_known_size_within_limit size limit) in
  if size =? 0 then
    let! read := ReadService.read_path_anonymous components 0 1 in
    let! _ := slift (validate_read_reply read 1) in
    let! _ := slift (validate_expected_eof 0 (blen (ReadData.data read)) (ReadData.eof read)) in
    sret []
  else read_range_anonymous components 0 size (ReadRequirements.exact size limit).

Definition get_range_once (limit : option Z) (components : list str) (start end_ : Z)
  : st S Error.t bytes :=
  let requested_len := end_ - start in
  if negb (range_read_needs_size requested_len limit) then
    read_range_anonymous components start requested_len
      (ReadRequirements.new (Some requested_len) limit)
  else
    let! (fh, attrs) := ReadService.lookup_file_handle_attrs components AttrRequest.Size in
    let expected_len := buffered_range_len start end_ (FileAttrs.size attrs) in
    let! _ := slift (ensure_known_size_within_limit expected_len limit) in
    let remaining := Z.min expected_len requested_len in
    if remaining =? 0 then sret []
    else read_handle_to_bytes fh start remaining (ReadRequirements.new (Some expected_len) limit).

(** The body of [get_range] before the retries: an empty range asks nothing. *)
Definition get_range (limit : option Z) (components : list str) (start end_ : Z)
  : st S Error.t bytes :=
  if end_ <=? start then sret [] else get_range_once limit components start end_.
End reads.
