(* ===== verification/ReadPipeline.v ===== *)
(** * The read pipeline puts a file back together

    Invariants of [PipelinedEmit], [ChunkScheduler] and the loop around them:
    at every turn each byte of the range scheduled so far is emitted, queued,
    in flight or waiting as a gap, and in exactly one of these places.  From
    this follows what the loop returns, whatever the replies and the order in
    which they complete. *)

From S2P Require Import Prelude Proto Errors Path Xdr Ops Rpc Compound Reply Replies Slots Owner Session Reads.

(** ** Ranges *)

(** How often [x] lies in a range, and in a list of ranges. *)
Definition covers (x : Z) (r : Z * Z) : Z := if (r.1 <=? x) && (x <? r.1 + r.2) then 1 else 0.
Definition cover (x : Z) (l : list (Z * Z)) : Z := foldr (λ r acc, covers x r + acc) 0 l.
Definition total (l : list (Z * Z)) : Z := foldr (λ r acc, r.2 + acc) 0 l.

Lemma covers_cases x o l :
  (o ≤ x < o + l ∧ covers x (o, l) = 1) ∨ (¬ (o ≤ x < o + l) ∧ covers x (o, l) = 0).
Proof.
  unfold covers. cbn. destruct (Z.leb_spec o x), (Z.ltb_spec x (o + l)); cbn; [left|right..]; lia.
Qed.

(** Case analysis on every range in sight. *)
Ltac solve_cover :=
  repeat match goal with
    | |- context [covers ?x (?o, ?l)] =>
        destruct (covers_cases x o l) as [[? ->] | [? ->]]
    | H : context [covers ?x (?o, ?l)] |- _ =>
        let Heq := fresh in
        destruct (covers_cases x o l) as [[? Heq] | [? Heq]]; rewrite Heq in *; clear Heq
    end; lia.

Lemma cover_app x l1 l2 : cover x (l1 ++ l2) = cover x l1 + cover x l2.
Proof. induction l1 as [|r l1 IH]; [done|]. unfold cover in *. simpl. lia. Qed.

Lemma cover_nonneg x l : 0 ≤ cover x l.
Proof.
  induction l as [|[o n] l IH]; [done|]. unfold cover in *. simpl.
  destruct (covers_cases x o n) as [[? ->] | [? ->]]; lia.
Qed.

#[export] Instance cover_perm x : Proper ((≡ₚ) ==> eq) (cover x).
Proof. induction 1; unfold cover in *; simpl in *; lia. Qed.

Lemma cover_elem x r l : r ∈ l → covers x r ≤ cover x l.
Proof.
  intros (l1 & l2 & ->)%list_elem_of_split. rewrite cover_app.
  pose proof (cover_nonneg x l1). change (cover x (r :: l2)) with (covers x r + cover x l2).
  pose proof (cover_nonneg x l2). lia.
Qed.

Lemma cover_pos x l : 0 < cover x l → ∃ r, r ∈ l ∧ r.1 ≤ x < r.1 + r.2.
Proof.
  induction l as [|[o n] l IH]; [done|]. unfold cover in *. simpl. intros H.
  destruct (covers_cases x o n) as [[? Hc] | [? Hc]]; rewrite Hc in H.
  - exists (o, n). split; [apply list_elem_of_here|done].
  - destruct IH as (r & ? & ?); [lia|]. exists r. split; [by apply list_elem_of_further|done].
Qed.

Lemma total_app l1 l2 : total (l1 ++ l2) = total l1 + total l2.
Proof. induction l1 as [|r l1 IH]; [done|]. unfold total in *. simpl. lia. Qed.

#[export] Instance total_perm : Proper ((≡ₚ) ==> eq) total.
Proof. induction 1; unfold total in *; simpl in *; lia. Qed.

(** ** Vectors *)

Lemma pop_spec {A} (l : list A) :
  match pop l with Some (x, l') => l = l' ++ [x] | None => l = [] end.
Proof.
  unfold pop. destruct (rev l) as [|x r] eqn:Hr; rewrite <- (rev_involutive l), Hr; done.
Qed.

Lemma swap_remove_perm {A} i (l : list A) x l' :
  swap_remove i l = Some (x, l') → l ≡ₚ x :: l'.
Proof.
  unfold swap_remove. destruct (l !! i) as [y|] eqn:Hi; [|done].
  pose proof (pop_spec l) as Hp. destruct (pop l) as [[z l1]|]; [|done]. subst l.
  intros [= <- <-]. case_match eqn:He.
  - apply Nat.eqb_eq in He as ->. rewrite list_lookup_middle in Hi by done.
    simplify_eq. by rewrite Permutation_app_comm.
  - apply Nat.eqb_neq in He. apply lookup_snoc_Some in Hi as [[Hlt Hi]|[? ?]]; [|congruence].
    rewrite Permutation_app_comm. cbn [app].
    rewrite (insert_take_drop l1 i z) by done. rewrite <- (take_drop_middle l1 i y Hi) at 1.
    rewrite Permutation_middle. rewrite !(Permutation_app_comm (take i l1)). cbn.
    by rewrite perm_swap.
Qed.

Lemma swap_remove_some {A} i (l : list A) : (i < length l)%nat → ∃ x l', swap_remove i l = Some (x, l').
Proof.
  intros Hi. unfold swap_remove. destruct (lookup_lt_is_Some_2 l i Hi) as [x ->].
  pose proof (pop_spec l) as Hp. destruct (pop l) as [[y l']|]; [eauto|]. subst. simpl in Hi. lia.
Qed.

Lemma position_spec {A} (p : A → bool) l :
  match position p l with
  | Some i => ∃ x, l !! i = Some x ∧ p x = true
  | None => Forall (λ x, p x = false) l
  end.
Proof.
  induction l as [|x l IH]; simpl; [constructor|]. destruct (p x) eqn:Hx; [eauto|].
  destruct (position p l) as [i|]; simpl; [done|]. by constructor.
Qed.

Lemma next_completion_spec {A} n (reads : list A) :
  match next_completion n reads with
  | Some (range, rest) => reads ≡ₚ range :: rest
  | None => reads = []
  end.
Proof.
  unfold next_completion. destruct reads as [|r reads]; [done|].
  set (l := r :: reads). set (i := (n mod length l)%nat).
  destruct (lookup_lt_is_Some_2 l i) as [x Hx].
  { apply Nat.mod_upper_bound. done. }
  rewrite Hx. by apply delete_Permutation.
Qed.

(** ** Errors are kept *)

Module Emit.
Import PipelinedEmit.

Definition healthy (e : t) : Prop := first_error e = None.

Lemma record_error_unhealthy err e : ¬ healthy (record_error err e).
Proof. unfold healthy, record_error. destruct (first_error e) eqn:H; simpl; congruence. Qed.

(** [keeps f]: [f] neither forgets an error, nor touches the queue or what
    was emitted so far. *)
Definition keeps (f : t → t) : Prop :=
  ∀ e, (healthy (f e) → healthy e) ∧ completed (f e) = completed e ∧ next_offset (f e) = next_offset e
    ∧ out (f e) = out e ∧ limit (f e) = limit e ∧ expected_eof (f e) = expected_eof e.

Lemma keeps_record_error err : keeps (record_error err).
Proof. intros e. unfold record_error, healthy. destruct (first_error e) eqn:?; simpl; naive_solver. Qed.

Lemma keeps_upper u : keeps (observe_eof_upper_bound u).
Proof.
  intros e. unfold observe_eof_upper_bound.
  set (e1 := match eof_at e with Some _ => _ | None => _ end).
  assert (H : e1 = e ∨ ∃ err, e1 = record_error err e) by (unfold e1; repeat case_match; eauto).
  destruct H as [-> | [err ->]]; [done|]. apply keeps_record_error.
Qed.

Lemma keeps_exact a : keeps (observe_exact_eof a).
Proof.
  intros e. unfold observe_exact_eof.
  set (e1 := match eof_upper_bound e with Some _ => _ | None => _ end).
  assert (H1 : e1 = e ∨ ∃ err, e1 = record_error err e) by (unfold e1; repeat case_match; eauto).
  set (e2 := match eof_at e1 with Some _ => _ | None => _ end).
  assert (H2 : e2 = e1 ∨ e2 = set_eof_at (Some a) e1 ∨ ∃ err, e2 = record_error err e1)
    by (unfold e2; repeat case_match; eauto).
  destruct (keeps_upper a e2) as (K1 & -> & -> & -> & -> & ->).
  assert (K : (healthy e2 → healthy e1) ∧ completed e2 = completed e1 ∧ next_offset e2 = next_offset e1
    ∧ out e2 = out e1 ∧ limit e2 = limit e1 ∧ expected_eof e2 = expected_eof e1).
  { destruct H2 as [-> | [-> | [err ->]]]; [done..|]. apply keeps_record_error. }
  destruct K as (K2 & -> & -> & -> & -> & ->).
  destruct H1 as [-> | [err ->]]; [naive_solver|].
  destruct (keeps_record_error err e) as (K3 & -> & -> & -> & -> & ->). naive_solver.
Qed.

Lemma keeps_read_eof r : keeps (observe_read_eof r).
Proof. intros e. unfold observe_read_eof. case_match; [apply keeps_upper|apply keeps_exact]. Qed.

(** What an observation records when it meets no contradiction. *)
Lemma observe_upper_healthy u e :
  healthy (observe_eof_upper_bound u e) ↔
  healthy e ∧ (∀ a, eof_at e = Some a → a ≤ u).
Proof.
  unfold observe_eof_upper_bound, healthy, set_eof_upper_bound. simpl.
  destruct (eof_at e) as [a|]; [|naive_solver]. destruct (Z.ltb_spec u a).
  - split; [|intros [? Ha]; specialize (Ha a eq_refl); lia].
    intros H1. by apply record_error_unhealthy in H1.
  - naive_solver.
Qed.

Lemma observe_upper_fields u e :
  eof_at (observe_eof_upper_bound u e) = eof_at e ∧
  eof_upper_bound (observe_eof_upper_bound u e) =
    Some (match eof_upper_bound e with Some v => Z.min v u | None => u end).
Proof.
  unfold observe_eof_upper_bound, record_error, set_eof_upper_bound. simpl.
  destruct e as [? ? ? [a|] ? [err|] ? ? ?]; simpl; repeat case_match; naive_solver.
Qed.

Lemma observe_exact_healthy a e :
  healthy (observe_exact_eof a e) →
  healthy e ∧ (eof_at e = None ∨ eof_at e = Some a) ∧ eof_at (observe_exact_eof a e) = Some a
  ∧ eof_upper_bound (observe_exact_eof a e) = Some a
  ∧ (∀ u, eof_upper_bound e = Some u → a ≤ u).
Proof.
  intros Hh. pose proof (proj1 (keeps_exact a e) Hh) as He. split; [done|].
  unfold observe_exact_eof in *.
  destruct (eof_upper_bound e) as [u|] eqn:Hu.
  - destruct (Z.ltb_spec u a).
    + exfalso. apply (proj1 (keeps_upper _ _)) in Hh.
      destruct (eof_at (record_error _ e)); [case_match|].
      * by apply record_error_unhealthy in Hh.
      * by apply (proj1 (keeps_record_error _ _)), record_error_unhealthy in Hh.
      * unfold healthy in Hh. simpl in Hh. by apply record_error_unhealthy in Hh.
    + destruct (eof_at e) as [c|] eqn:Hc.
      * destruct (Z.eqb_spec c a) as [->|].
        -- destruct (observe_upper_fields a e) as [-> ->]. rewrite Hu, Hc.
           split_and!; [by right|done|by rewrite Z.min_r by lia|naive_solver].
        -- by apply (proj1 (keeps_upper _ _)), record_error_unhealthy in Hh.
      * destruct (observe_upper_fields a (set_eof_at (Some a) e)) as [-> ->]. simpl. rewrite Hu.
        split_and!; [by left|done|by rewrite Z.min_r by lia|naive_solver].
  - destruct (eof_at e) as [c|] eqn:Hc.
    + destruct (Z.eqb_spec c a) as [->|].
      * destruct (observe_upper_fields a e) as [-> ->]. rewrite Hu, Hc. naive_solver.
      * by apply (proj1 (keeps_upper _ _)), record_error_unhealthy in Hh.
    + destruct (observe_upper_fields a (set_eof_at (Some a) e)) as [-> ->]. simpl. rewrite Hu.
      naive_solver.
Qed.

Lemma observe_exact_fine a e :
  healthy e → (eof_at e = None ∨ eof_at e = Some a) → (∀ u, eof_upper_bound e = Some u → a ≤ u) →
  healthy (observe_exact_eof a e).
Proof.
  intros He Ha Hu. unfold observe_exact_eof.
  assert (Hif : ∀ err, match eof_upper_bound e with
                | Some u => if u <? a then record_error err e else e | None => e end = e).
  { intros err. destruct (eof_upper_bound e) as [u|]; [|done]. specialize (Hu u eq_refl).
    destruct (Z.ltb_spec u a); [lia|done]. }
  rewrite Hif. destruct Ha as [Ha|Ha]; rewrite Ha; [|rewrite Z.eqb_refl];
    apply observe_upper_healthy; (split; [done|]); simpl; intros b; try rewrite Ha; intros [= ->]; lia.
Qed.

(** ** An induction principle for [record]

    A property of the queue and the rest of the state that survives the
    observation of a reply, the emission of a queued read and the error of
    data beyond the end of the file, survives [record].  The read at hand
    counts as queued until it is emitted. *)

Lemma keeps_emit_queue r e : completed (emit r e) = completed e.
Proof.
  unfold emit. case_match; [apply keeps_exact|]. case_match; [|apply keeps_record_error|];
    (case_match; [|done]; by rewrite (proj1 (proj2 (keeps_exact _ _)))).
Qed.

Lemma emit_sticky r e : healthy (emit r e) → healthy e.
Proof.
  unfold emit. case_match; [apply keeps_exact|]. case_match; [|apply keeps_record_error|];
    (case_match; [|done]; by intros ?%(proj1 (keeps_exact _ _))).
Qed.

Lemma take_completed_spec e :
  match take_completed e with
  | Some (r, e') => ∃ l, completed e ≡ₚ r :: l ∧ e' = set_completed l e
      ∧ ReadTaskOutput.offset r = next_offset e
  | None => Forall (λ r, ReadTaskOutput.offset r ≠ next_offset e) (completed e)
  end.
Proof.
  unfold take_completed.
  pose proof (position_spec (λ read, ReadTaskOutput.offset read =? next_offset e) (completed e)) as Hp.
  destruct (position _ _) as [i|].
  - destruct Hp as (x & Hx & Ho). pose proof (lookup_lt_Some _ _ _ Hx) as Hlt.
    destruct (swap_remove_some i (completed e) Hlt) as (y & l & Hs). rewrite Hs.
    exists l. split_and!; [by eapply swap_remove_perm|done|].
    unfold swap_remove in Hs. rewrite Hx in Hs. destruct (pop _) as [[??]|]; simplify_eq. lia.
  - eapply Forall_impl; [exact Hp|]. simpl. intros ? ?%Z.eqb_neq. done.
Qed.

Section record_ind.
Context (P : list ReadTaskOutput.t → t → Prop).
Hypothesis P_perm : ∀ q q' e, q ≡ₚ q' → P q e → P q' e.
Hypothesis P_field : ∀ q l e, P q e → P q (set_completed l e).
Hypothesis P_emit : ∀ r q e, P (r :: q) e → ReadTaskOutput.offset r = next_offset e →
  below_eof e = true ∨ beyond (eof_at e) r = false → P q (emit r e).
Hypothesis P_beyond : ∀ r q e err, P (r :: q) e → beyond (eof_at e) r = true → P q (record_error err e).

Lemma drain_ind turns e : P (completed e) e → P (completed (drain_loop turns e)) (drain_loop turns e).
Proof using P_emit P_field P_perm.
  revert e. induction turns as [|turns IH]; intros e HP; simpl; [done|].
  destruct (below_eof e) eqn:Hb; [|done]. pose proof (take_completed_spec e) as Ht.
  destruct (take_completed e) as [[r e']|]; [|done]. destruct Ht as (l & Hl & -> & Ho).
  assert (P l (emit r (set_completed l e))) as HP'.
  { apply P_emit; [|done|by left]. apply P_field. by apply (P_perm (completed e)). }
  case_match; [|apply IH]; rewrite ?keeps_emit_queue; done.
Qed.

Lemma record_ind r e :
  P (r :: completed e) (if ReadTaskOutput.eof r then observe_read_eof r e else e) →
  P (completed (record r e)) (record r e).
Proof using All.
  intros HP. unfold record. set (e1 := if ReadTaskOutput.eof r then _ else _) in *.
  assert (Hc : completed e1 = completed e) by (unfold e1; case_match; [apply keeps_read_eof|done]).
  rewrite <- Hc in HP. destruct (beyond (eof_at e1) r) eqn:Hb.
  - destruct (keeps_record_error
      (Error.protocol "pipelined READ returned data beyond a previously reported EOF") e1) as (_ & -> & _).
    by eapply P_beyond.
  - destruct (Z.eqb_spec (ReadTaskOutput.offset r) (next_offset e1)).
    + apply drain_ind. rewrite keeps_emit_queue. apply P_emit; auto.
    + simpl. apply P_field. eapply P_perm; [|exact HP]. apply Permutation_cons_append.
Qed.
End record_ind.

Lemma record_sticky r e : healthy (record r e) → healthy e.
Proof.
  apply (record_ind (λ _ e', healthy e' → healthy e)); [done|done| | |].
  - intros ? ? ? H _ _ ?%emit_sticky. auto.
  - intros ? ? ? ? H _ ?%record_error_unhealthy. done.
  - case_match; [apply keeps_read_eof|done].
Qed.

(** ** Queued reads do not wait at the emit offset *)

Definition drained (e : t) : Prop :=
  below_eof e = true → Forall (λ r, ReadTaskOutput.offset r ≠ next_offset e) (completed e).

Lemma drain_loop_drained turns e :
  (length (completed e) ≤ turns)%nat → healthy (drain_loop turns e) → drained (drain_loop turns e).
Proof.
  revert e. induction turns as [|turns IH]; intros e Hlen; simpl.
  { intros _ _. destruct (completed e); [constructor|]. simpl in Hlen. lia. }
  destruct (below_eof e) eqn:Hb; [|intros ?; unfold drained; congruence].
  pose proof (take_completed_spec e) as Ht.
  destruct (take_completed e) as [[r e']|]; [|by intros _ _]. destruct Ht as (l & Hl & -> & _).
  destruct (can_schedule_more _) eqn:Hc; simpl.
  - destruct (below_eof (emit _ _)) eqn:Hb'; simpl; [|intros ?; unfold drained; congruence].
    apply IH. rewrite keeps_emit_queue. simpl. apply Permutation_length in Hl. simpl in Hl. lia.
  - unfold can_schedule_more in Hc. unfold healthy. intros Hh. by rewrite Hh in Hc.
Qed.

Lemma below_eof_observe r e :
  healthy (observe_read_eof r e) → below_eof (observe_read_eof r e) = true → below_eof e = true.
Proof.
  unfold observe_read_eof, below_eof. case_match; intros Hh.
  - destruct (observe_upper_fields (ReadTaskOutput.offset r + blen (ReadTaskOutput.data r)) e) as [-> _].
    by rewrite (proj1 (proj2 (proj2 (keeps_upper _ e)))).
  - destruct (observe_exact_healthy _ _ Hh) as (_ & Ha & -> & _).
    rewrite (proj1 (proj2 (proj2 (keeps_exact _ e)))). by destruct Ha as [-> | ->].
Qed.

Lemma record_drained r e : drained e → healthy (record r e) → drained (record r e).
Proof.
  unfold record. set (e1 := if ReadTaskOutput.eof r then _ else _).
  assert (Hc : completed e1 = completed e ∧ next_offset e1 = next_offset e).
  { unfold e1. case_match; [|done]. split; apply keeps_read_eof. }
  destruct Hc as [Hc Hn]. intros Hd. case_match.
  { by intros ?%record_error_unhealthy. }
  destruct (Z.eqb_spec (ReadTaskOutput.offset r) (next_offset e1)).
  { apply drain_loop_drained. done. }
  intros Hh Hb. simpl. rewrite Hn. apply Forall_app. split; [|by constructor; [congruence|]].
  rewrite Hc. apply Hd. change (healthy e1) in Hh. change (below_eof e1 = true) in Hb.
  unfold e1 in *. destruct (ReadTaskOutput.eof r); [|done]. by eapply below_eof_observe.
Qed.
End Emit.

(** ** Every scheduled byte is in one place *)

Abbreviation rlen r := (blen (ReadTaskOutput.data r)).

(** The range a completed read answers for good: a read that reached the end
    of the file answers all of its request. *)
Definition closed (r : ReadTaskOutput.t) : Z * Z :=
  (ReadTaskOutput.offset r, if ReadTaskOutput.eof r then ReadTaskOutput.requested r else rlen r).

Record read_ok (r : ReadTaskOutput.t) : Prop := {
  ok_requested : 1 ≤ ReadTaskOutput.requested r;
  ok_len : rlen r ≤ ReadTaskOutput.requested r;
  ok_data : ReadTaskOutput.eof r = false → 1 ≤ rlen r;
}.

Lemma closed_pos r : read_ok r → 1 ≤ (closed r).2 ∧ rlen r ≤ (closed r).2.
Proof. intros [H1 H2 H3]. unfold closed. simpl. destruct (ReadTaskOutput.eof r); lia. Qed.

Section placed.
Import PipelinedEmit Emit.
Context (start : Z).

(** [issued]: where the scheduler stands; [others]: reads in flight and gaps;
    [tail]: what an emitted end of file answers beyond the data. *)
Record placed (issued : Z) (others : list (Z * Z)) (tail : Z) (q : list ReadTaskOutput.t) (e : t)
    : Prop := {
  pl_cover : ∀ x, covers x (start, next_offset e - start) + covers x (next_offset e, tail)
    + cover x (closed <$> q) + cover x others = covers x (start, issued - start);
  pl_next : start ≤ next_offset e;
  pl_tail : 0 ≤ tail;
  pl_tail_eof : 0 < tail → eof_at e = Some (next_offset e);
  pl_reads : Forall read_ok q;
  pl_issued : issued ≤ u64_max;
  pl_exact : ∀ a, eof_at e = Some a → eof_upper_bound e = Some a
    ∧ (next_offset e = a ∨ next_offset e < a ∧ ∃ r, r ∈ q ∧ ReadTaskOutput.eof r = true
         ∧ 1 ≤ rlen r ∧ ReadTaskOutput.offset r + rlen r = a);
  pl_open : eof_at e = None → ∀ r, r ∈ q → ReadTaskOutput.eof r = true →
    rlen r = 0 ∧ eof_upper_bound e ≠ None;
  pl_upper : eof_at e = None → ∀ u, eof_upper_bound e = Some u →
    ∃ r, r ∈ q ∧ ReadTaskOutput.eof r = true ∧ rlen r = 0 ∧ ReadTaskOutput.offset r = u;
}.

Lemma placed_perm issued others tail q q' e :
  q ≡ₚ q' → placed issued others tail q e → placed issued others tail q' e.
Proof.
  intros Hq [H1 H2 H3 H4 H5 H6 H7 H8 H9]. split; try done.
  - intros x. by rewrite <- Hq.
  - by rewrite <- Hq.
  - intros a Ha. destruct (H7 a Ha) as [? [? | (? & r & Hr & ?)]]; [by split; [|left]|].
    split; [done|right]. split; [done|]. exists r. by rewrite <- Hq.
  - intros Ha r Hr. apply H8; [done|]. by rewrite Hq.
  - intros Ha u Hu. destruct (H9 Ha u Hu) as (r & Hr & ?). exists r. by rewrite <- Hq.
Qed.

Lemma placed_field issued others tail q l e :
  placed issued others tail q e → placed issued others tail q (set_completed l e).
Proof. by intros []. Qed.

(** The bytes of a queued read are nowhere else. *)
Lemma placed_unique issued others tail r q e x :
  placed issued others tail (r :: q) e →
  ReadTaskOutput.offset r ≤ x < ReadTaskOutput.offset r + (closed r).2 →
  start ≤ x < issued ∧ next_offset e ≤ x ∧ ¬ (next_offset e ≤ x < next_offset e + tail)
  ∧ cover x (closed <$> q) = 0 ∧ cover x others = 0.
Proof.
  intros [Hcov Hn Ht _ _ _ _ _ _] Hx. specialize (Hcov x).
  pose proof (cover_nonneg x (closed <$> q)). pose proof (cover_nonneg x others).
  rewrite fmap_cons in Hcov.
  change (cover x (closed r :: (closed <$> q)))
    with (covers x (ReadTaskOutput.offset r, (closed r).2) + cover x (closed <$> q)) in Hcov.
  solve_cover.
Qed.

Lemma placed_bounds issued others tail q e r :
  placed issued others tail q e → r ∈ q →
  start ≤ ReadTaskOutput.offset r ∧ next_offset e ≤ ReadTaskOutput.offset r
  ∧ ReadTaskOutput.offset r + (closed r).2 ≤ issued.
Proof.
  intros Hp [q' Hq]%elem_of_Permutation. apply (placed_perm _ _ _ _ _ _ Hq) in Hp.
  destruct (closed_pos r) as [Hc _].
  { pose proof (pl_reads _ _ _ _ _ Hp) as Hf. by apply Forall_cons in Hf as [? _]. }
  destruct (placed_unique _ _ _ _ _ _ (ReadTaskOutput.offset r) Hp) as (? & ? & _); [lia|].
  destruct (placed_unique _ _ _ _ _ _ (ReadTaskOutput.offset r + (closed r).2 - 1) Hp) as (? & ? & _);
    lia.
Qed.

Lemma end_exact issued others tail q e r :
  placed issued others tail q e → r ∈ q → ReadTaskOutput.end_ r = ReadTaskOutput.offset r + rlen r.
Proof.
  intros Hp Hr. destruct (placed_bounds _ _ _ _ _ _ Hp Hr) as (_ & _ & Hi).
  destruct (closed_pos r) as [_ Hc].
  { exact (proj1 (Forall_forall _ _) (pl_reads _ _ _ _ _ Hp) _ Hr). }
  pose proof (pl_issued _ _ _ _ _ Hp). unfold ReadTaskOutput.end_. ulia.
Qed.

(** A queued read at the emit offset does not cross a known end of file. *)
Lemma emitted_below_eof issued others tail r q e a :
  placed issued others tail (r :: q) e → ReadTaskOutput.offset r = next_offset e →
  below_eof e = true ∨ beyond (eof_at e) r = false → eof_at e = Some a → 1 ≤ rlen r →
  next_offset e + rlen r ≤ a ∧
  (next_offset e + rlen r = a ∨ ∃ r', r' ∈ q ∧ ReadTaskOutput.eof r' = true
     ∧ 1 ≤ rlen r' ∧ ReadTaskOutput.offset r' + rlen r' = a).
Proof.
  intros Hp Ho Hb Ha Hlen.
  destruct (pl_exact _ _ _ _ _ Hp a Ha) as [_ Hcase].
  pose proof (end_exact _ _ _ _ _ r Hp (list_elem_of_here _ _)) as He.
  unfold below_eof, beyond, ReadTaskOutput.is_empty in Hb. rewrite Ha, He in Hb.
  destruct (Z.eqb_spec (rlen r) 0); [lia|]. cbn [negb andb] in Hb.
  destruct Hcase as [Hn|(Hn & r' & Hr' & Heof & Hl' & Hend)].
  { destruct Hb as [Hb|Hb]; [apply Z.ltb_lt in Hb|apply Z.ltb_ge in Hb]; lia. }
  apply elem_of_cons in Hr' as [-> | Hr']; [lia|].
  assert (Hok : read_ok r' ∧ read_ok r).
  { pose proof (pl_reads _ _ _ _ _ Hp) as [? Hf]%Forall_cons. split; [|done].
    exact (proj1 (Forall_forall _ _) Hf _ Hr'). }
  destruct (closed_pos r') as [_ Hc']; [apply Hok|]. destruct (closed_pos r) as [_ Hc]; [apply Hok|].
  assert (next_offset e + rlen r ≤ a); [|split; [done|right; eauto]].
  destruct (Z.le_gt_cases (next_offset e + rlen r) a); [done|exfalso].
  destruct (placed_unique _ _ _ _ _ _ (a - 1) Hp) as (_ & _ & _ & Hq & _); [lia|].
  pose proof (cover_elem (a - 1) (closed r') (closed <$> q) (list_elem_of_fmap_2 _ _ _ Hr')) as Hel.
  change (closed r') with (ReadTaskOutput.offset r', (closed r').2) in Hel.
  destruct (covers_cases (a - 1) (ReadTaskOutput.offset r') (closed r').2) as [[? ?] | [? ?]]; lia.
Qed.

Lemma emit_cases r e :
  healthy (emit r e) →
  (rlen r = 0 ∧ emit r e = observe_exact_eof (ReadTaskOutput.offset r) e)
  ∨ (1 ≤ rlen r
     ∧ (∀ l, limit e = Some l → saturating_add (blen (out e)) (rlen r) ≤ l)
     ∧ emit r e = if ReadTaskOutput.eof r
         then observe_exact_eof (next_offset e + rlen r) (extend (ReadTaskOutput.data r) e)
         else extend (ReadTaskOutput.data r) e).
Proof.
  unfold emit. pose proof (blen_nonneg (ReadTaskOutput.data r)).
  destruct (Z.eqb_spec (rlen r) 0); [by left|]. intros Hh. right. split; [lia|].
  unfold ensure_buffered_read_within_limit in *. destruct (limit e) as [l|]; [|done].
  destruct (Z.ltb_spec l (saturating_add (blen (out e)) (rlen r))).
  - by apply record_error_unhealthy in Hh.
  - split; [|done]. by intros ? [= <-].
Qed.

(** An empty read at the emit offset is the end of the file. *)
Lemma emit_empty_placed issued others r q e :
  placed issued others 0 (r :: q) e → ReadTaskOutput.offset r = next_offset e →
  healthy (observe_exact_eof (next_offset e) e) →
  placed issued others (closed r).2 q (observe_exact_eof (next_offset e) e).
Proof.
  intros Hp Ho Hh. destruct (observe_exact_healthy _ _ Hh) as (_ & _ & Ha & Hu & _).
  destruct (keeps_exact (next_offset e) e) as (_ & _ & Hn & _).
  destruct Hp as [H1 H2 _ _ H5 H6 _ _ _]. apply Forall_cons in H5 as [Hok H5].
  destruct (closed_pos r Hok) as [Hc1 Hc2]. split; rewrite ?Hn; try done.
  - intros x. specialize (H1 x). rewrite fmap_cons in H1.
    change (cover x (closed r :: (closed <$> q)))
      with (covers x (ReadTaskOutput.offset r, (closed r).2) + cover x (closed <$> q)) in H1.
    rewrite Ho in H1. solve_cover.
  - lia.
  - intros a Ha'. rewrite Ha in Ha'. simplify_eq. by split; [|left].
  - congruence.
  - congruence.
Qed.

(** Data at the emit offset moves the offset, up to the end of the file at
    most. *)
Lemma emit_data_placed issued others r q e (e' := extend (ReadTaskOutput.data r) e) :
  placed issued others 0 (r :: q) e → ReadTaskOutput.offset r = next_offset e →
  below_eof e = true ∨ beyond (eof_at e) r = false → 1 ≤ rlen r →
  (ReadTaskOutput.eof r = true → eof_at e = Some (next_offset e + rlen r)) →
  placed issued others ((closed r).2 - rlen r) q e'.
Proof.
  intros Hp Ho Hb Hlen Heof.
  pose proof Hp as [H1 H2 _ _ H5 H6 H7 H8 H9]. apply Forall_cons in H5 as [Hok H5].
  destruct (closed_pos r Hok) as [Hc1 Hc2].
  assert (Hn : next_offset e' = next_offset e + rlen r) by done.
  split; rewrite ?Hn; try done.
  - intros x. specialize (H1 x). rewrite fmap_cons in H1.
    change (cover x (closed r :: (closed <$> q)))
      with (covers x (ReadTaskOutput.offset r, (closed r).2) + cover x (closed <$> q)) in H1.
    rewrite Ho in H1. solve_cover.
  - lia.
  - lia.
  - unfold closed. cbn [snd]. intros Hpos. apply Heof.
    destruct (ReadTaskOutput.eof r); [done|lia].
  - intros a Ha. split; [by apply H7|].
    destruct (emitted_below_eof _ _ _ _ _ _ a Hp Ho Hb Ha Hlen) as [Hle [? | Hex]]; [by left|].
    destruct (decide (next_offset e + rlen r = a)); [by left|right]. split; [lia|done].
  - intros Ha r' Hr'. apply H8; [done|]. by apply list_elem_of_further.
  - intros Ha u Hu. destruct (H9 Ha u Hu) as (r' & Hr' & ?).
    apply elem_of_cons in Hr' as [-> | Hr']; [lia|eauto].
Qed.

Lemma observe_exact_placed issued others tail q e a :
  placed issued others tail q e → eof_at e = Some a → healthy (observe_exact_eof a e) →
  placed issued others tail q (observe_exact_eof a e).
Proof.
  intros [H1 H2 H3 H4 H5 H6 H7 H8 H9] Ha Hh.
  destruct (observe_exact_healthy _ _ Hh) as (_ & _ & Ha' & Hu & _).
  destruct (keeps_exact a e) as (_ & _ & Hn & _).
  split; rewrite ?Hn, ?Ha', ?Hu; try done; [by rewrite <- Ha|].
  intros ? [= <-]. split; [done|]. by apply H7.
Qed.

Lemma emit_placed issued others tail r q e :
  placed issued others tail (r :: q) e → ReadTaskOutput.offset r = next_offset e →
  below_eof e = true ∨ beyond (eof_at e) r = false → healthy (emit r e) →
  ∃ tail', placed issued others tail' q (emit r e).
Proof.
  intros Hp Ho Hb Hh.
  assert (Hok : read_ok r) by by pose proof (pl_reads _ _ _ _ _ Hp) as [? _]%Forall_cons.
  destruct (closed_pos r Hok) as [Hc1 Hc2].
  assert (tail = 0) as ->.
  { pose proof (pl_tail _ _ _ _ _ Hp).
    destruct (placed_unique _ _ _ _ _ _ (next_offset e) Hp) as (_ & _ & ? & _); lia. }
  destruct (emit_cases r e Hh) as [(Hz & He) | (Hlen & _ & He)]; rewrite He in *.
  { eexists. rewrite Ho in *. by apply emit_empty_placed. }
  eexists ((closed r).2 - rlen r). destruct (ReadTaskOutput.eof r) eqn:Heof.
  - destruct (observe_exact_healthy _ _ Hh) as (_ & Ha & _).
    assert (Ha' : eof_at e = Some (next_offset e + rlen r)).
    { destruct Ha as [Ha|Ha]; [|done]. change (eof_at e = None) in Ha.
      destruct (pl_open _ _ _ _ _ Hp Ha r (list_elem_of_here _ _) Heof). lia. }
    apply observe_exact_placed; [|done..]. by apply emit_data_placed.
  - apply emit_data_placed; congruence.
Qed.

Definition gap (r : ReadTaskOutput.t) : list (Z * Z) :=
  match ReadTaskOutput.short_read_gap r with Some g => [g] | None => [] end.

(** A completed read splits its request into what it answered and the gap. *)
Lemma cover_gap r x :
  read_ok r →
  covers x (ReadTaskOutput.offset r, ReadTaskOutput.requested r)
  = covers x (ReadTaskOutput.offset r, (closed r).2) + cover x (gap r).
Proof.
  intros [H1 H2 H3]. unfold gap, ReadTaskOutput.short_read_gap, closed. cbn [snd].
  pose proof (blen_nonneg (ReadTaskOutput.data r)).
  destruct (ReadTaskOutput.eof r); cbn [negb andb]; [cbn; lia|].
  destruct (Z.ltb_spec 0 (saturating_sub (ReadTaskOutput.requested r) (rlen r))) as [Hg|Hg].
  - unfold cover, saturating_sub in *. cbn [foldr]. rewrite Z.max_l by lia. solve_cover.
  - unfold cover, saturating_sub in *. cbn [foldr]. solve_cover.
Qed.

Lemma completed_cover issued others tail q e r x :
  placed issued ((ReadTaskOutput.offset r, ReadTaskOutput.requested r) :: others) tail q e →
  read_ok r →
  covers x (start, next_offset e - start) + covers x (next_offset e, tail)
  + cover x (closed <$> r :: q) + cover x (gap r ++ others) = covers x (start, issued - start).
Proof.
  intros Hp Hr. rewrite <- (pl_cover _ _ _ _ _ Hp x). rewrite cover_app, fmap_cons.
  change (cover x (closed r :: (closed <$> q)))
    with (covers x (ReadTaskOutput.offset r, (closed r).2) + cover x (closed <$> q)).
  change (cover x ((ReadTaskOutput.offset r, ReadTaskOutput.requested r) :: others))
    with (covers x (ReadTaskOutput.offset r, ReadTaskOutput.requested r) + cover x others).
  rewrite (cover_gap r x Hr). lia.
Qed.

Lemma in_flight_beyond issued others tail q e r :
  placed issued ((ReadTaskOutput.offset r, ReadTaskOutput.requested r) :: others) tail q e →
  read_ok r → next_offset e ≤ ReadTaskOutput.offset r.
Proof.
  intros [H1 H2 H3 _ _ _ _ _ _] [Hr _ _]. specialize (H1 (ReadTaskOutput.offset r)).
  pose proof (cover_nonneg (ReadTaskOutput.offset r) (closed <$> q)).
  pose proof (cover_nonneg (ReadTaskOutput.offset r) others).
  change (cover ?x ((ReadTaskOutput.offset r, ReadTaskOutput.requested r) :: others))
    with (covers x (ReadTaskOutput.offset r, ReadTaskOutput.requested r) + cover x others) in H1.
  solve_cover.
Qed.

Lemma observe_placed issued others tail q e r
    (e' := if ReadTaskOutput.eof r then observe_read_eof r e else e) :
  placed issued ((ReadTaskOutput.offset r, ReadTaskOutput.requested r) :: others) tail q e →
  read_ok r → healthy e' → placed issued (gap r ++ others) tail (r :: q) e'.
Proof.
  intros Hp Hr Hh. pose proof (in_flight_beyond _ _ _ _ _ _ Hp Hr) as Hge.
  pose proof (λ x, completed_cover _ _ _ _ _ _ x Hp Hr) as Hcov.
  pose proof Hp as [H1 H2 H3 H4 H5 H6 H7 H8 H9].
  pose proof (blen_nonneg (ReadTaskOutput.data r)).
  assert (Hold : ∀ a, eof_at e = Some a → eof_upper_bound e = Some a
    ∧ (next_offset e = a ∨ next_offset e < a ∧ ∃ r', r' ∈ r :: q ∧ ReadTaskOutput.eof r' = true
         ∧ 1 ≤ rlen r' ∧ ReadTaskOutput.offset r' + rlen r' = a)).
  { intros a Ha. destruct (H7 a Ha) as [? [? | (? & r' & Hr' & ?)]]; [by split; [|left]|].
    split; [done|right]. split; [done|]. exists r'. split; [by apply list_elem_of_further|done]. }
  unfold e' in *. destruct (ReadTaskOutput.eof r) eqn:Heof; cycle 1.
  { split; try done; [by constructor| |].
    - intros Ha r' Hr'. apply elem_of_cons in Hr' as [-> | Hr']; [congruence|eauto].
    - intros Ha u Hu. destruct (H9 Ha u Hu) as (r' & Hr' & ?). exists r'.
      split; [by apply list_elem_of_further|done]. }
  unfold observe_read_eof in *.
  set (a := ReadTaskOutput.offset r + rlen r) in *.
  destruct (_ && _) eqn:Hcase.
  - apply andb_prop in Hcase as [Hz%Z.eqb_eq _].
    apply observe_upper_healthy in Hh as [_ Hle]. destruct (observe_upper_fields a e) as [Fa Fu].
    destruct (keeps_upper a e) as (_ & _ & Fn & _).
    split; rewrite ?Fa, ?Fu, ?Fn; try done; [by constructor| | |].
    + intros b Hb. destruct (Hold b Hb) as [-> ?]. split; [|done]. specialize (Hle b Hb). f_equal. lia.
    + intros Ha r' Hr'. apply elem_of_cons in Hr' as [-> | Hr']; [done|].
      intros Heof'. by destruct (H8 Ha r' Hr' Heof').
    + intros Ha u [= <-]. assert (Ha0 : a = ReadTaskOutput.offset r) by lia.
      destruct (eof_upper_bound e) as [v|] eqn:Hv.
      * destruct (Z.min_spec v a) as [[_ ->] | [_ ->]].
        -- destruct (H9 Ha v eq_refl) as (r' & Hr' & ?). exists r'.
           split; [by apply list_elem_of_further|done].
        -- exists r. split; [apply list_elem_of_here|done].
      * exists r. split; [apply list_elem_of_here|done].
  - destruct (observe_exact_healthy _ _ Hh) as (_ & _ & Fa & Fu & _).
    destruct (keeps_exact a e) as (_ & _ & Fn & _). specialize (H7 a).
    assert (Hn : next_offset e = a ∨ next_offset e < a ∧ 1 ≤ rlen r).
    { unfold ReadTaskOutput.is_empty in Hcase. destruct (Z.eqb_spec (rlen r) 0); cbn in Hcase; [|lia].
      apply negb_false_iff, Z.eqb_eq in Hcase. lia. }
    split; rewrite ?Fa, ?Fu, ?Fn; try done; [|by constructor|].
    + intros Htl. apply H4 in Htl. destruct (observe_exact_healthy _ _ Hh) as (_ & [?|?] & _); congruence.
    + intros ? [= <-]. split; [done|]. destruct Hn as [|[??]]; [by left|right]. split; [done|].
      exists r. split; [apply list_elem_of_here|done].
Qed.

(** ** Recording a reply *)

Definition settled (issued : Z) (others : list (Z * Z)) (e : t) : Prop :=
  healthy e → drained e ∧ ∃ tail, placed issued others tail (completed e) e.

Lemma record_settled issued others e r :
  settled issued ((ReadTaskOutput.offset r, ReadTaskOutput.requested r) :: others) e → read_ok r →
  settled issued (gap r ++ others) (record r e).
Proof.
  intros Hs Hr Hh. destruct (Hs (record_sticky _ _ Hh)) as (Hd & tail & Hp).
  split; [by apply record_drained|].
  apply (record_ind (λ q e, healthy e → ∃ tail, placed issued (gap r ++ others) tail q e)); [..|done].
  - intros q q' e1 Hq H1 He1. destruct (H1 He1) as [tail' ?]. exists tail'. by eapply placed_perm.
  - intros q l e1 H1 He1. destruct (H1 He1) as [tail' ?]. exists tail'. by apply placed_field.
  - intros r' q e1 H1 Ho Hb He1. destruct (H1 (emit_sticky _ _ He1)) as [tail' ?].
    by eapply emit_placed.
  - intros r' q e1 err _ _ ?%record_error_unhealthy. done.
  - intros He1. exists tail. by apply observe_placed.
Qed.

Lemma settled_others issued issued' others others' e :
  issued' ≤ u64_max →
  (∀ x, cover x others' - cover x others
        = covers x (start, issued' - start) - covers x (start, issued - start)) →
  settled issued others e → settled issued' others' e.
Proof.
  intros Hi Hx Hs Hh. destruct (Hs Hh) as (Hd & tail & [H1 H2 H3 H4 H5 H6 H7 H8 H9]).
  split; [done|]. exists tail. split; try done. intros x. specialize (Hx x). specialize (H1 x). lia.
Qed.
End placed.

(** ** Scheduling *)

Section schedule.
Import Pipeline.
Context (start end_ chunk : Z) (Hstart : 0 ≤ start) (Hend : end_ ≤ u64_max)
  (Hchunk : 1 ≤ chunk ≤ u32_max).

Definition sized (r : Z * Z) : Prop := start ≤ r.1 ∧ 1 ≤ r.2 ≤ chunk ∧ r.1 + r.2 ≤ end_.

Record wf (p : Pipeline.t) : Prop := {
  wf_end : ChunkScheduler.end_ (scheduler p) = end_;
  wf_chunk : ChunkScheduler.chunk_size (scheduler p) = chunk;
  wf_next : start ≤ ChunkScheduler.next_offset (scheduler p) ≤ end_;
  wf_gaps : Forall sized (ChunkScheduler.gaps (scheduler p));
  wf_reads : Forall sized (reads p);
}.

Definition others (p : Pipeline.t) : list (Z * Z) := reads p ++ ChunkScheduler.gaps (scheduler p).

(** The bytes of the range that are not answered yet. *)
Definition unanswered (p : Pipeline.t) : Z :=
  end_ - ChunkScheduler.next_offset (scheduler p) + total (others p).

Definition placed_pipeline (p : Pipeline.t) : Prop :=
  settled start (ChunkScheduler.next_offset (scheduler p)) (others p) (Pipeline.emit p).

(** The scheduler has nothing left to ask for. *)
Definition exhausted (p : Pipeline.t) : Prop :=
  ¬ Emit.healthy (Pipeline.emit p)
  ∨ ChunkScheduler.gaps (scheduler p) = []
    ∧ (PipelinedEmit.eof_observed (Pipeline.emit p) = true
       ∨ ChunkScheduler.next_offset (scheduler p) = end_).

Lemma next_range_spec eof c :
  ChunkScheduler.end_ c = end_ → ChunkScheduler.chunk_size c = chunk →
  start ≤ ChunkScheduler.next_offset c ≤ end_ → Forall sized (ChunkScheduler.gaps c) →
  match ChunkScheduler.next_range eof c with
  | (None, c') => c' = c ∧ ChunkScheduler.gaps c = []
      ∧ (eof = true ∨ ChunkScheduler.next_offset c = end_)
  | (Some range, c') =>
      sized range ∧ ChunkScheduler.end_ c' = end_ ∧ ChunkScheduler.chunk_size c' = chunk
      ∧ (ChunkScheduler.next_offset c' = ChunkScheduler.next_offset c
         ∧ ChunkScheduler.gaps c = ChunkScheduler.gaps c' ++ [range]
         ∨ ChunkScheduler.gaps c' = ChunkScheduler.gaps c
         ∧ range = (ChunkScheduler.next_offset c,
                    ChunkScheduler.next_offset c' - ChunkScheduler.next_offset c))
  end.
Proof using Hchunk Hend Hstart.
  intros He Hc Hn Hg. unfold ChunkScheduler.next_range.
  pose proof (pop_spec (ChunkScheduler.gaps c)) as Hp.
  assert (Hu32 : ∀ n, 1 ≤ n ≤ chunk → as_u32 n = n).
  { intros n ?. unfold as_u32, wrap32. apply Z.mod_small. unfold_widths. lia. }
  destruct (pop (ChunkScheduler.gaps c)) as [[[o l] g]|].
  - assert (Hs : sized (o, l)).
    { rewrite Hp in Hg. apply Forall_app in Hg as [_ Hg]. by apply Forall_cons in Hg as [? _]. }
    destruct Hs as (? & Hl & ?). cbn [fst snd] in *.
    rewrite Hc, Z.min_l, Hu32 by lia. split_and!; try done. by left.
  - destruct (eof || _) eqn:Hb.
    + split_and!; [done|done|]. apply orb_prop in Hb as [?|Hb%Z.leb_le]; [by left|right]. lia.
    + apply orb_false_elim in Hb as [_ Hb%Z.leb_gt]. rewrite Hc, He in *.
      rewrite Hu32 by lia. split; [unfold sized; cbn [fst snd]; lia|]. split_and!; try done.
      right. split; [done|]. cbn. f_equal. lia.
Qed.

Lemma schedule_spec room p :
  wf p →
  let p' := schedule room p in
  wf p' ∧ Pipeline.emit p' = Pipeline.emit p ∧ unanswered p' = unanswered p
  ∧ (placed_pipeline p → placed_pipeline p')
  ∧ ((0 < room)%nat → reads p' = [] → exhausted p').
Proof using Hchunk Hend Hstart.
  revert p. induction room as [|room IH]; intros p Hwf; cbn [schedule].
  { split_and!; try done. lia. }
  destruct (PipelinedEmit.can_schedule_more (Pipeline.emit p)) eqn:Hc; cycle 1.
  { split_and!; try done. intros _ _. left. unfold Emit.healthy.
    unfold PipelinedEmit.can_schedule_more in Hc. by destruct (PipelinedEmit.first_error _). }
  pose proof Hwf as [He Hk Hn Hg Hr].
  pose proof (next_range_spec (PipelinedEmit.eof_observed (Pipeline.emit p)) (scheduler p) He Hk Hn Hg) as Hs.
  destruct (ChunkScheduler.next_range _ _) as [[range|] c].
  - destruct Hs as ((Hs1 & Hs2 & Hs3) & He' & Hk' & Hcase).
    set (p1 := Pipeline.mk c (Pipeline.emit p) (reads p ++ [range])).
    assert (Hwf1 : wf p1).
    { split; cbn; try done.
      - destruct Hcase as [[-> _] | [_ Heq]]; [done|]. rewrite Heq in *. cbn [fst snd] in *. lia.
      - destruct Hcase as [[_ Hgs] | [-> _]]; [|done]. rewrite Hgs in Hg. by apply Forall_app in Hg as [? _].
      - apply Forall_app. by split; [|constructor]. }
    destruct (IH p1 Hwf1) as (Hw & Hem & Hun & Hpl & _).
    split_and!; [done|by rewrite Hem| | |].
    + rewrite Hun. unfold unanswered, others. cbn [p1 scheduler reads]. rewrite !total_app.
      destruct Hcase as [[-> Hgs] | [Hgs Heq]]; rewrite Hgs, ?total_app; cbn [total foldr]; [lia|].
      rewrite Heq. cbn [fst snd total foldr]. lia.
    + intros Hp. apply Hpl. unfold placed_pipeline in *. eapply settled_others; [| |exact Hp].
      { pose proof (wf_next _ Hwf1). cbn in *. lia. }
      intros x. unfold others. cbn [p1 scheduler reads]. rewrite !cover_app.
      destruct Hcase as [[-> Hgs] | [Hgs Heq]]; rewrite Hgs, ?cover_app.
      * lia.
      * pose proof (wf_next _ Hwf1) as Hn1. cbn [p1 scheduler] in Hn1. rewrite Heq.
        match goal with |- context [cover x [?r]] => change (cover x [r]) with (covers x r + 0) end.
        assert (ChunkScheduler.next_offset (scheduler p) ≤ ChunkScheduler.next_offset c).
        { rewrite Heq in Hs2. cbn [fst snd] in Hs2. lia. }
        solve_cover.
    + intros _ Hnil. exfalso. clear -Hnil.
      assert (Hlen : ∀ room p, (length (reads p) ≤ length (reads (schedule room p)))%nat).
      { clear. induction room as [|room IH]; intros p; cbn [schedule]; [lia|].
        case_match; [|lia]. destruct (ChunkScheduler.next_range _ _) as [[r|] c]; [|done].
        etrans; [|apply IH]. cbn. rewrite length_app. lia. }
      specialize (Hlen room p1). rewrite Hnil in Hlen. cbn in Hlen. rewrite length_app in Hlen.
      cbn in Hlen. lia.
  - destruct Hs as (-> & Hgn & Hcase). destruct p as [sc em rd]. split_and!; try done.
    intros _ _. right. done.
Qed.

(** ** Completions *)

Lemma total_nonneg l : Forall sized l → 0 ≤ total l.
Proof.
  induction 1 as [|r l Hr Hl IH]; [done|]. unfold total in *. cbn [foldr].
  destruct Hr as (_ & ? & _). lia.
Qed.

Lemma complete_ok rest r p :
  wf p → reads p ≡ₚ (ReadTaskOutput.offset r, ReadTaskOutput.requested r) :: rest → read_ok r →
  let p' := complete rest (inr r) p in
  wf p' ∧ unanswered p' < unanswered p ∧ (placed_pipeline p → placed_pipeline p').
Proof using Hstart.
  intros [He Hk Hn Hg Hr] Hperm Hok. pose proof Hok as [H1 H2 H3].
  pose proof (blen_nonneg (ReadTaskOutput.data r)).
  assert (Hrs : sized (ReadTaskOutput.offset r, ReadTaskOutput.requested r) ∧ Forall sized rest).
  { rewrite Hperm in Hr. by apply Forall_cons in Hr. }
  destruct Hrs as ((Ho & Hc & Hle) & Hrest). cbn [fst snd] in *.
  assert (Hsc : ∃ c, scheduler (complete rest (inr r) p) = c
    ∧ ChunkScheduler.end_ c = end_ ∧ ChunkScheduler.chunk_size c = chunk
    ∧ ChunkScheduler.next_offset c = ChunkScheduler.next_offset (scheduler p)
    ∧ ChunkScheduler.gaps c = ChunkScheduler.gaps (scheduler p) ++ gap r
    ∧ Forall sized (gap r) ∧ total (gap r) < ReadTaskOutput.requested r).
  { eexists. split; [done|]. cbn. unfold gap. destruct (ReadTaskOutput.short_read_gap r) as [[o l]|] eqn:Hgap.
    - unfold ReadTaskOutput.short_read_gap in Hgap.
      destruct (ReadTaskOutput.eof r) eqn:Heof; [done|]. cbn [negb andb] in Hgap.
      destruct (Z.ltb_spec 0 (saturating_sub (ReadTaskOutput.requested r) (rlen r))); [|done].
      specialize (H3 eq_refl). unfold saturating_sub in *. simplify_eq.
      split_and!; try done.
      + constructor; [|done]. unfold sized. cbn [fst snd]. lia.
      + cbn. lia.
    - rewrite app_nil_r. split_and!; try done. cbn. lia. }
  destruct Hsc as (c & Hsc & E1 & E2 & E3 & E4 & E5 & E6).
  split_and!.
  - split; rewrite ?Hsc; try done; [lia|]. rewrite E4. by apply Forall_app.
  - unfold unanswered, others. rewrite Hsc, E3, E4. cbn [complete reads].
    rewrite Hperm, !total_app.
    change (total ((ReadTaskOutput.offset r, ReadTaskOutput.requested r) :: rest))
      with (ReadTaskOutput.requested r + total rest). lia.
  - unfold placed_pipeline, others. rewrite Hsc, E3, E4. cbn [complete reads Pipeline.emit].
    intros Hp. assert (Hi : ChunkScheduler.next_offset (scheduler p) ≤ u64_max ∨ ¬ Emit.healthy (Pipeline.emit p)).
    { destruct (PipelinedEmit.first_error (Pipeline.emit p)) eqn:Hf.
      - right. unfold Emit.healthy. congruence.
      - left. destruct (Hp Hf) as (_ & tail & Hpl). apply Hpl. }
    destruct Hi as [Hi|Hbad]; [|by intros ?%Emit.record_sticky].
    eapply settled_others; [done| |].
    2: { apply (record_settled start _ (rest ++ ChunkScheduler.gaps (scheduler p)) _ r); [|done].
         eapply settled_others; [done| |exact Hp]. intros x. rewrite Hperm. cbn [app]. lia. }
    intros x. rewrite !cover_app. lia.
Qed.

Lemma complete_err rest o c err p :
  wf p → reads p ≡ₚ (o, c) :: rest →
  let p' := complete rest (inl err) p in
  wf p' ∧ unanswered p' < unanswered p ∧ placed_pipeline p'.
Proof.
  intros [He Hk Hn Hg Hr] Hperm. rewrite Hperm in Hr. apply Forall_cons in Hr as [(_ & Hc & _) Hrest].
  cbn [fst snd] in *. split_and!; [done| |].
  - unfold unanswered, others. cbn [complete reads scheduler]. rewrite Hperm, !total_app.
    change (total ((o, c) :: rest)) with (c + total rest). lia.
  - by intros ?%Emit.record_error_unhealthy.
Qed.

(** ** The loop *)

Lemma schedule_idle depth p :
  1 ≤ depth → wf p → reads (schedule (Z.to_nat (depth - blen (reads p))) p) = [] →
  exhausted (schedule (Z.to_nat (depth - blen (reads p))) p).
Proof using Hchunk Hend Hstart.
  intros Hd Hwf Hnil. destruct (schedule_spec (Z.to_nat (depth - blen (reads p))) p Hwf) as (_ & _ & _ & _ & Hex).
  apply Hex; [|done]. destruct (reads p) as [|r l] eqn:Hr; [rewrite blen_nil; lia|].
  destruct (Z.to_nat (depth - blen (r :: l))); [|lia]. cbn in Hnil. congruence.
Qed.

Section loop.
Context {S : Type} {service : ReadService.t S} (order : nat → nat) (fh : FileHandle) (depth : Z)
  (Hdepth : 1 ≤ depth).
Context (I : S → Prop) (good : ReadTaskOutput.t → Prop) (bad : Error.t → Prop)
  (J : PipelinedEmit.t → Prop).

(** A chunk that is asked for is answered, one way or the other. *)
Hypothesis answered : ∀ o c s, I s → sized (o, c) →
  match read_chunk fh o c s with
  | (Ok r, s') => I s' ∧ ReadTaskOutput.offset r = o ∧ ReadTaskOutput.requested r = c
      ∧ read_ok r ∧ good r
  | (Err err, s') => I s' ∧ bad err
  | (Panic, _) => False
  end.
Hypothesis J_record : ∀ r e, J e → read_ok r → good r →
  sized (ReadTaskOutput.offset r, ReadTaskOutput.requested r) → J (PipelinedEmit.record r e).
Hypothesis J_error : ∀ err e, J e → bad err → J (PipelinedEmit.record_error err e).

Lemma pipelined_loop_spec fuel turn p s :
  wf p → placed_pipeline p → J (Pipeline.emit p) → I s → unanswered p ≤ Z.of_nat fuel →
  ∃ p' s', pipelined_loop order fuel turn fh depth p s = (Ok (Pipeline.emit p'), s')
    ∧ I s' ∧ J (Pipeline.emit p') ∧ wf p' ∧ placed_pipeline p' ∧ reads p' = [] ∧ exhausted p'.
Proof using All.
  revert turn p s. induction fuel as [|fuel IH]; intros turn p s Hwf Hpl HJ HI Hm;
    cbn [pipelined_loop]; set (room := Z.to_nat (depth - blen (reads p)));
    destruct (schedule_spec room p Hwf) as (Hwf1 & Hem1 & Hun1 & Hpl1 & Hex1);
    set (p1 := schedule room p) in *; specialize (Hpl1 Hpl); rewrite <- Hem1 in HJ;
    pose proof (next_completion_spec (order turn) (reads p1)) as Hnext.
  all: pose proof (schedule_idle depth p Hdepth Hwf : reads p1 = [] → exhausted p1) as Hdone.
  - destruct (next_completion _ _) as [[[o c] rest]|]; [exfalso|].
    + pose proof Hwf1 as [_ _ Hn Hg Hr]. rewrite Hnext in Hr. apply Forall_cons in Hr as [(_ & Hc & _) Hrest].
      rewrite <- Hun1 in Hm. unfold unanswered, others in Hm. rewrite total_app, Hnext in Hm.
      change (total ((o, c) :: rest)) with (c + total rest) in Hm. cbn [fst snd] in Hc.
      pose proof (total_nonneg _ Hrest). pose proof (total_nonneg _ Hg). lia.
    + exists p1, s. eauto 10.
  - destruct (next_completion _ _) as [[[o c] rest]|]; [|exists p1, s; eauto 10].
    assert (Hsz : sized (o, c)).
    { pose proof Hwf1 as [_ _ _ _ Hr]. rewrite Hnext in Hr. by apply Forall_cons in Hr as [? _]. }
    pose proof (answered o c s HI Hsz) as Ha.
    destruct (read_chunk fh o c s) as [[r|err|] s']; [| |done].
    + destruct Ha as (HI' & Ho & Hc & Hok & Hgood). subst o c.
      destruct (complete_ok rest r p1 Hwf1 Hnext Hok) as (Hwf2 & Hlt & Hpl2).
      apply IH; [done|auto|by apply J_record|done|lia].
    + destruct Ha as (HI' & Hbad).
      destruct (complete_err rest o c err p1 Hwf1 Hnext) as (Hwf2 & Hlt & Hpl2).
      apply IH; [done..|by apply J_error|done|lia].
Qed.
End loop.
End schedule.
