(* ===== verification/ReadsFacts.v ===== *)
(** * What a read returns

    Two groups of theorems about [Reads.v], for every order in which reads
    complete.  For any server: what is returned was received, byte by byte,
    for the positions it is returned at, without a hole, and stops early only
    where the server reported the end of the file.  For a server that holds a
    file: the reads return that file. *)

From S2P Require Import Prelude Proto Errors Path Xdr Ops Rpc Compound Reply Replies Slots Owner Session Reads ReadPipeline.

(** ** The contract of the service

    [server o c r]: the server may answer a read of [c] bytes at [o] with
    [r]; [sizes] are the sizes it may report; [X] are the errors a read may
    fail with. *)
Class ReadContract {S : Type} (service : ReadService.t S) (I : S → Prop) (X : Error.t → Prop)
    (handle_ok : FileHandle → Prop) (path_ok : list str → Prop)
    (server : Z → Z → ReadData.t → Prop) (sizes : option Z → Prop) : Prop := {
  rc_config s : I s → 1 ≤ ReadService.read_granularity s ≤ u32_max
    ∧ 1 ≤ ReadService.read_chunk_size s ≤ u32_max;
  rc_read fh o c : handle_ok fh → is_u64 o → is_u32 c →
    runs I (ReadService.read_anonymous fh o c) (server o c) X;
  rc_path p o c : path_ok p → is_u64 o → is_u32 c →
    runs I (ReadService.read_path_anonymous p o c) (server o c) X;
  rc_path_handle p o c : path_ok p → is_u64 o → is_u32 c →
    runs I (ReadService.read_path_anonymous_with_handle p o c)
      (λ '(fh, r), handle_ok fh ∧ server o c r) X;
  rc_path_size p c : path_ok p → is_u32 c →
    runs I (ReadService.read_path_anonymous_with_size p c)
      (λ '(fh, size, r), handle_ok fh ∧ sizes (Some size) ∧ server 0 c r) X;
  rc_lookup p : path_ok p → runs I (ReadService.lookup_file_handle p) handle_ok X;
  rc_attrs p : path_ok p →
    runs I (ReadService.lookup_file_handle_attrs p AttrRequest.Size)
      (λ '(fh, attrs), handle_ok fh ∧ sizes (FileAttrs.size attrs)) X;
}.

(** ** Validated replies *)

Definition task (o c : Z) (r : ReadData.t) : ReadTaskOutput.t :=
  ReadTaskOutput.mk o c (ReadData.data r) (ReadData.eof r).

Lemma validate_read_reply_ok r o c :
  1 ≤ c →
  match validate_read_reply r c with
  | Ok _ => read_ok (task o c r)
  | Err _ => ¬ read_ok (task o c r)
  | Panic => False
  end.
Proof.
  intros Hc. unfold validate_read_reply. pose proof (blen_nonneg (ReadData.data r)).
  destruct (Z.ltb_spec c (blen (ReadData.data r))) as [Hlt|Hle].
  { intros [_ ? _]. cbn in *. lia. }
  destruct (Z.ltb_spec 0 c); [|lia]. cbn [andb].
  destruct (Z.eqb_spec (blen (ReadData.data r)) 0), (ReadData.eof r) eqn:He; cbn [andb negb];
    try (split; cbn; rewrite ?He; (done || lia)).
  intros [_ _ H3]. cbn in H3. rewrite He in H3. specialize (H3 eq_refl). lia.
Qed.

Lemma pipeline_depth_pos n : 1 ≤ operation_pipeline_depth_for_slots n.
Proof. unfold operation_pipeline_depth_for_slots, MAX_OPERATION_PIPELINE_DEPTH. lia. Qed.

Lemma as_u32_small n : is_u32 n → as_u32 n = n.
Proof. intros Hn. unfold as_u32, wrap32. apply Z.mod_small. unfold_widths. lia. Qed.

(** ** The end of the pipeline *)

(** Nothing is in flight and no gap is left: then the read that holds the next
    byte is queued at the emit offset, where no read waits. *)
Lemma pipeline_no_hole start issued tail e :
  placed start issued [] tail (PipelinedEmit.completed e) e → Emit.drained e →
  PipelinedEmit.below_eof e = true → issued ≤ PipelinedEmit.next_offset e.
Proof.
  intros Hp Hd Hb. destruct (Z.le_gt_cases issued (PipelinedEmit.next_offset e)) as [|Hlt]; [done|exfalso].
  assert (tail = 0) as ->.
  { pose proof (pl_tail _ _ _ _ _ _ Hp). destruct (decide (0 < tail)) as [Ht|]; [|lia].
    apply (pl_tail_eof _ _ _ _ _ _ Hp) in Ht. unfold PipelinedEmit.below_eof in Hb. rewrite Ht in Hb.
    apply Z.ltb_lt in Hb. lia. }
  pose proof (pl_cover _ _ _ _ _ _ Hp (PipelinedEmit.next_offset e)) as Hc.
  pose proof (pl_next _ _ _ _ _ _ Hp) as Hs. change (cover ?x []) with 0 in Hc.
  assert (Hq : 0 < cover (PipelinedEmit.next_offset e) (closed <$> PipelinedEmit.completed e)).
  { pose proof (cover_nonneg (PipelinedEmit.next_offset e) (closed <$> PipelinedEmit.completed e)).
    solve_cover. }
  apply cover_pos in Hq as (rg & (r & -> & Hr)%list_elem_of_fmap & Hx & _). cbn [closed fst] in Hx.
  destruct (placed_bounds _ _ _ _ _ _ _ Hp Hr) as (_ & Hle & _).
  pose proof (proj1 (Forall_forall _ _) (Hd Hb) r Hr) as Hne. cbn beta in Hne. lia.
Qed.

(** Without an error and with nothing left to ask for, the emit offset is the
    end of the range, or the end of the file. *)
Lemma pipeline_end start end_ chunk p :
  wf start end_ chunk p → placed_pipeline start p → Pipeline.reads p = [] →
  exhausted end_ p → Emit.healthy (Pipeline.emit p) →
  let e := Pipeline.emit p in
  start ≤ PipelinedEmit.next_offset e ≤ end_ ∧
  (PipelinedEmit.eof_at e = None ∧ PipelinedEmit.eof_upper_bound e = None
     ∧ PipelinedEmit.next_offset e = end_
   ∨ PipelinedEmit.eof_at e = Some (PipelinedEmit.next_offset e)).
Proof.
  intros Hwf Hpl Hnil Hex Hh e. destruct (Hpl Hh) as (Hd & tail & Hp).
  destruct Hex as [Hex|[Hg Hex]]; [done|]. unfold others in Hp. rewrite Hnil, Hg in Hp. cbn [app] in Hp.
  fold e in Hp, Hd, Hex. clear Hh Hpl Hnil Hg. clearbody e.
  pose proof (wf_next _ _ _ _ Hwf) as Hsn. set (issued := ChunkScheduler.next_offset _) in *.
  pose proof (pl_next _ _ _ _ _ _ Hp) as Hn0. pose proof (pipeline_no_hole _ _ _ _ Hp Hd) as Hhole.
  assert (Hn : PipelinedEmit.next_offset e ≤ issued).
  { destruct (decide (PipelinedEmit.next_offset e = start)) as [?|]; [lia|].
    pose proof (pl_cover _ _ _ _ _ _ Hp (PipelinedEmit.next_offset e - 1)) as Hc.
    pose proof (cover_nonneg (PipelinedEmit.next_offset e - 1) (closed <$> PipelinedEmit.completed e)).
    change (cover ?x []) with 0 in Hc. pose proof (pl_tail _ _ _ _ _ _ Hp). solve_cover. }
  split; [lia|]. unfold PipelinedEmit.below_eof in Hhole.
  destruct (PipelinedEmit.eof_at e) as [a|] eqn:Ha.
  - right. destruct (pl_exact _ _ _ _ _ _ Hp a Ha) as [_ [->|(Hlt & r & Hr & _ & _ & <-)]]; [done|exfalso].
    destruct (placed_bounds _ _ _ _ _ _ _ Hp Hr) as (_ & _ & Hle). destruct (closed_pos r) as [_ Hc].
    { exact (proj1 (Forall_forall _ _) (pl_reads _ _ _ _ _ _ Hp) _ Hr). }
    specialize (Hhole (proj2 (Z.ltb_lt _ _) Hlt)). lia.
  - specialize (Hhole eq_refl). left. destruct (PipelinedEmit.eof_upper_bound e) as [u|] eqn:Hu.
    + exfalso. destruct (pl_upper _ _ _ _ _ _ Hp Ha u Hu) as (r & Hr & _).
      destruct (placed_bounds _ _ _ _ _ _ _ Hp Hr) as (_ & ? & Hle). destruct (closed_pos r) as [Hc _].
      { exact (proj1 (Forall_forall _ _) (pl_reads _ _ _ _ _ _ Hp) _ Hr). }
      lia.
    + split_and!; [done..|]. destruct Hex as [Hex|Hex]; [|lia].
      unfold PipelinedEmit.eof_observed in Hex. by rewrite Hu in Hex.
Qed.

(** A pipeline that has not started. *)
Lemma placed_start out0 start end_ chunk x y z :
  start ≤ u64_max →
  placed_pipeline start
    (Pipeline.mk (ChunkScheduler.new start end_ chunk) (PipelinedEmit.new out0 start x y z) []).
Proof.
  intros Hs _. split; [by intros _; constructor|]. exists 0. split; cbn; try (done || lia).
  - intros i. solve_cover.
  - intros _ r Hr. by apply elem_of_nil in Hr.
Qed.

(** ** Any server *)

Section received.
Context (server : Z → Z → ReadData.t → Prop).

(** Byte [b] was received for position [x]; the end of the file was reported
    at [x]. *)
Definition byte_at (x b : Z) : Prop :=
  ∃ o c r i, server o c r ∧ ReadData.data r !! i = Some b ∧ x = o + Z.of_nat i.
Definition ends_at (x : Z) : Prop :=
  ∃ o c r, server o c r ∧ ReadData.eof r = true ∧ x = o + blen (ReadData.data r).

(** [d] was received for the positions from [start] on. *)
Definition received (start : Z) (d : bytes) : Prop :=
  ∀ i b, d !! i = Some b → byte_at (start + Z.of_nat i) b.

Lemma received_nil start : received start [].
Proof. by intros i b Hi. Qed.

Lemma received_app start d1 d2 :
  received start d1 → received (start + blen d1) d2 → received start (d1 ++ d2).
Proof.
  intros H1 H2 i b [Hi | [Hlt Hi]]%lookup_app_Some; [by apply H1|].
  apply H2 in Hi. unfold blen in Hi.
  by replace (start + Z.of_nat i) with (start + Z.of_nat (length d1) + Z.of_nat (i - length d1)) by lia.
Qed.

Lemma received_reply o c r : server o c r → received o (ReadData.data r).
Proof. intros Hr i b Hi. by exists o, c, r, i. Qed.

(** The result of a read of [total] bytes at [start], appended to [out0]. *)
Record contents (out0 : bytes) (start total : Z) (req : ReadRequirements.t) (bs : bytes) : Prop := {
  ct_data : ∃ d, bs = out0 ++ d ∧ blen d ≤ total ∧ received start d
    ∧ (blen d = total ∨ ends_at (start + blen d))
    ∧ (∀ e, ReadRequirements.expected_eof req = Some e →
         ExpectedEof.offset e = start + blen d ∧ ends_at (start + blen d));
  ct_limit : ∀ l, ReadRequirements.limit req = Some l → blen bs ≤ l;
}.

Section pipeline.
Context (out0 : bytes) (start end_ chunk : Z) (Hroom : blen out0 + (end_ - start) ≤ u64_max).

Definition answer (r : ReadTaskOutput.t) : Prop :=
  server (ReadTaskOutput.offset r) (ReadTaskOutput.requested r)
    (ReadData.mk (ReadTaskOutput.eof r) (ReadTaskOutput.data r))
  ∧ read_ok r ∧ sized start end_ chunk (ReadTaskOutput.offset r, ReadTaskOutput.requested r).

(** What was emitted was received, and so was what is queued. *)
Record sourced (req : ReadRequirements.t) (q : list ReadTaskOutput.t) (e : PipelinedEmit.t) : Prop := {
  so_out : ∃ d, PipelinedEmit.out e = out0 ++ d ∧ blen d = PipelinedEmit.next_offset e - start
    ∧ received start d;
  so_queue : Forall answer q;
  so_eof : ∀ a, PipelinedEmit.eof_at e = Some a → ends_at a;
  so_limit : PipelinedEmit.limit e = ReadRequirements.limit req;
  so_expected : PipelinedEmit.expected_eof e = ReadRequirements.expected_eof req;
  so_fits : ∀ l, PipelinedEmit.limit e = Some l → blen (PipelinedEmit.out e) ≤ l;
}.

(** An observation of an end that was reported changes nothing else. *)
Lemma sourced_exact req q e a :
  sourced req q e → ends_at a → Emit.healthy (PipelinedEmit.observe_exact_eof a e) →
  sourced req q (PipelinedEmit.observe_exact_eof a e).
Proof.
  intros [H1 H2 H3 H4 H5 H6] Ha Hh.
  destruct (Emit.keeps_exact a e) as (_ & _ & Fn & Fo & Fl & Fx).
  destruct (Emit.observe_exact_healthy _ _ Hh) as (_ & _ & Fe & _).
  split; rewrite ?Fn, ?Fo, ?Fl, ?Fx, ?Fe; try done. by intros ? [= <-].
Qed.

Lemma sourced_emit req r q e :
  sourced req (r :: q) e → ReadTaskOutput.offset r = PipelinedEmit.next_offset e →
  Emit.healthy (PipelinedEmit.emit r e) → sourced req q (PipelinedEmit.emit r e).
Proof using Hroom.
  intros [H1 H2 H3 H4 H5 H6] Ho Hh. apply Forall_cons in H2 as [(Hr & Hok & Hs1 & Hs2 & Hs3) H2].
  cbn [fst snd] in *.
  destruct (emit_cases r e Hh) as [(Hz & He) | (Hlen & Hl & He)]; rewrite He in *.
  - apply sourced_exact; [by split| |done]. eexists _, _, _. split; [exact Hr|]. cbn [ReadData.eof ReadData.data].
    split; [|lia]. destruct Hok as [_ _ Hd]. destruct (ReadTaskOutput.eof r); [done|].
    specialize (Hd eq_refl). lia.
  - assert (Hsrc : sourced req q (PipelinedEmit.extend (ReadTaskOutput.data r) e)).
    { split; cbn; try done.
      - destruct H1 as (d & Hd & Hdl & Hrec). exists (d ++ ReadTaskOutput.data r).
        rewrite Hd, app_assoc, blen_app. split_and!; [done|lia|]. apply received_app; [done|].
        replace (start + blen d) with (ReadTaskOutput.offset r) by lia. by eapply received_reply in Hr.
      - intros l Hlim. specialize (Hl l Hlim). destruct H1 as (d & Hd & Hdl & _).
        destruct Hok as [_ Hle _]. rewrite blen_app. rewrite Hd, blen_app in *. ulia. }
    destruct (ReadTaskOutput.eof r) eqn:Heof; [|done]. apply sourced_exact; [done| |done].
    eexists _, _, _. split; [exact Hr|]. cbn [ReadData.eof ReadData.data]. split; [done|lia].
Qed.

Lemma sourced_record req r e :
  (Emit.healthy e → sourced req (PipelinedEmit.completed e) e) → answer r →
  Emit.healthy (PipelinedEmit.record r e) →
  sourced req (PipelinedEmit.completed (PipelinedEmit.record r e)) (PipelinedEmit.record r e).
Proof using Hroom.
  intros Hs Hr.
  apply (Emit.record_ind (λ q e, Emit.healthy e → sourced req q e)).
  - intros q q' e1 Hq H1 Hh. destruct (H1 Hh). split; try done. by rewrite <- Hq.
  - intros q l e1 H1 Hh. by destruct (H1 Hh).
  - intros r' q e1 H1 Ho _ Hh. apply sourced_emit; [|done..]. apply H1. by eapply Emit.emit_sticky.
  - intros r' q e1 err _ _ ?%Emit.record_error_unhealthy. done.
  - intros Hh. assert (Hadd : ∀ e', sourced req (PipelinedEmit.completed e) e' →
      sourced req (r :: PipelinedEmit.completed e) e') by (intros e' []; split; try done; by constructor).
    apply Hadd. destruct (ReadTaskOutput.eof r) eqn:Heof; [|by apply Hs].
    pose proof (proj1 (Emit.keeps_read_eof r e) Hh) as He. specialize (Hs He).
    unfold PipelinedEmit.observe_read_eof in *. case_match.
    + destruct Hs as [H1 H2 H3 H4 H5 H6].
      set (a := ReadTaskOutput.offset r + blen (ReadTaskOutput.data r)) in *.
      destruct (Emit.keeps_upper a e) as (_ & _ & Fn & Fo & Fl & Fx).
      destruct (Emit.observe_upper_fields a e) as [Fe _].
      split; rewrite ?Fn, ?Fo, ?Fl, ?Fx, ?Fe; done.
    + apply sourced_exact; [done| |done]. destruct Hr as (Hr & _). eexists _, _, _.
      split; [exact Hr|]. done.
Qed.
End pipeline.
End received.

Section any_server.
Context {S : Type} {service : ReadService.t S} (order : nat → nat) (I : S → Prop)
  (handle_ok : FileHandle → Prop) (path_ok : list str → Prop)
  (server : Z → Z → ReadData.t → Prop) (sizes : option Z → Prop)
  `{!ReadContract service I any handle_ok path_ok server sizes}.

Lemma runs_check {A} (r : res Error.t unit) (k : unit → st S Error.t A) (Q : A → Prop) :
  r ≠ Panic → (r = Ok tt → runs I (k tt) Q any) → runs I (sbind (slift r) k) Q any.
Proof.
  intros Hr Hk. eapply (runs_bind _ _ (λ _, r = Ok tt)).
  - apply runs_lift. by destruct r as [[]| |].
  - intros [] Hok. by apply Hk.
Qed.

Lemma observed_eof_total x o : validate_optional_observed_eof x o ≠ Panic.
Proof. unfold validate_optional_observed_eof. by repeat case_match. Qed.
Lemma within_limit_total a b x l : ensure_buffered_read_within_limit a b x l ≠ Panic.
Proof. unfold ensure_buffered_read_within_limit. by repeat case_match. Qed.
Lemma known_size_total a l : ensure_known_size_within_limit a l ≠ Panic.
Proof. unfold ensure_known_size_within_limit. by repeat case_match. Qed.
Lemma expected_eof_total x o b : validate_optional_expected_eof x o b ≠ Panic.
Proof.
  unfold validate_optional_expected_eof, validate_eof_expectation. by repeat case_match.
Qed.
Lemma read_reply_total r c : validate_read_reply r c ≠ Panic.
Proof. unfold validate_read_reply. by repeat case_match. Qed.

Lemma read_chunk_answers fh start end_ chunk o c s :
  handle_ok fh → 0 ≤ start → end_ ≤ u64_max → chunk ≤ u32_max →
  I s → sized start end_ chunk (o, c) →
  match read_chunk fh o c s with
  | (Ok r, s') => I s' ∧ ReadTaskOutput.offset r = o ∧ ReadTaskOutput.requested r = c
      ∧ read_ok r ∧ answer server start end_ chunk r
  | (Err err, s') => I s' ∧ any err
  | (Panic, _) => False
  end.
Proof.
  intros Hfh Hst Hend Hck HI Hsz. pose proof Hsz as (Ho & Hc & Hoc). cbn [fst snd] in *.
  assert (Hrun : runs I (read_chunk fh o c) (λ r, ReadTaskOutput.offset r = o ∧
    ReadTaskOutput.requested r = c ∧ read_ok r ∧ answer server start end_ chunk r) any).
  { unfold read_chunk. eapply runs_bind; [apply rc_read; [done|ulia..]|].
    intros r Hr. apply runs_check; [apply read_reply_total|]. intros Hv. apply runs_ret.
    pose proof (validate_read_reply_ok r o c ltac:(lia)) as Hok. rewrite Hv in Hok.
    split_and!; [done..|]. split_and!; [by destruct r|done..]. }
  exact (Hrun s HI).
Qed.

Lemma pipelined_sound fh out0 start total req :
  handle_ok fh → 0 ≤ start → 1 ≤ total → start + total ≤ u64_max → blen out0 + total ≤ u64_max →
  (∀ l, ReadRequirements.limit req = Some l → blen out0 ≤ l) →
  runs I (read_handle_to_bytes_pipelined_into order fh out0 start total req)
    (contents server out0 start total req) any.
Proof.
  intros Hfh Hst Htot Hend Hout Hlim s HI. unfold read_handle_to_bytes_pipelined_into.
  unfold sbind, asks. destruct (rc_config s HI) as [Hg _].
  unfold saturating_add. rewrite Z.min_l by ulia.
  set (chunk := ReadService.read_granularity s) in *. set (end_ := start + total) in *.
  set (p := Pipeline.mk _ _ _). set (depth := operation_pipeline_depth s).
  assert (Hdepth : 1 ≤ depth) by apply pipeline_depth_pos.
  assert (Hwf : wf start end_ chunk p) by (split; cbn; (done || lia || constructor)).
  assert (Hpl : placed_pipeline start p) by (apply placed_start; lia).
  destruct (pipelined_loop_spec start end_ chunk Hst Hend Hg order fh depth Hdepth I
    (answer server start end_ chunk) any
    (λ e, Emit.healthy e → sourced server out0 start end_ chunk req (PipelinedEmit.completed e) e)
    ltac:(intros; apply read_chunk_answers; (done || lia))
    ltac:(intros r e HJ Hok Hr Hsz Hh; apply sourced_record; [lia|done..])
    ltac:(intros err e _ _ Hh; by apply Emit.record_error_unhealthy in Hh)
    (Z.to_nat total) 0 p s Hwf Hpl) as (p' & s' & Hrun & HI' & HJ & Hwf' & Hpl' & Hnil & Hex).
  { intros _. split; cbn; try done. exists []. rewrite app_nil_r. split_and!; [done|rewrite blen_nil; lia|].
    apply received_nil. }
  { done. }
  { unfold unanswered, others. cbn. lia. }
  rewrite Hrun. unfold slift.
  set (e := Pipeline.emit p') in *.
  destruct (PipelinedEmit.first_error e) as [err|] eqn:Herr.
  { assert (PipelinedEmit.finish e = Err err) as -> by (unfold PipelinedEmit.finish; by rewrite Herr). done. }
  specialize (HJ Herr) as [(d & Hd & Hdl & Hrec) _ Heof Hl Hx Hfit].
  pose proof (pipeline_end start end_ chunk p' Hwf' Hpl' Hnil Hex Herr) as [Hle Hcase].
  fold e in Hle, Hcase.
  assert (Hfin : match PipelinedEmit.finish e with
    | Ok _ => (PipelinedEmit.next_offset e = end_ ∨ PipelinedEmit.eof_at e = Some (PipelinedEmit.next_offset e))
        ∧ ∀ x, PipelinedEmit.expected_eof e = Some x →
            PipelinedEmit.eof_at e = Some (ExpectedEof.offset x)
            ∧ PipelinedEmit.eof_at e = Some (PipelinedEmit.next_offset e)
    | Err _ => True
    | Panic => False end).
  { unfold PipelinedEmit.finish. rewrite Herr. destruct (existsb _ _); [done|].
    unfold validate_optional_observed_eof. destruct Hcase as [(-> & -> & Hn) | ->].
    - destruct (PipelinedEmit.expected_eof e); [done|]. split; [by left|done].
    - rewrite Z.ltb_irrefl. destruct (PipelinedEmit.expected_eof e) as [x|]; [|split; [by right|done]].
      destruct (Z.eqb_spec (ExpectedEof.offset x) (PipelinedEmit.next_offset e)) as [Heq|]; [|done].
      cbn. split; [by right|]. intros ? [= <-]. by rewrite Heq. }
  destruct (PipelinedEmit.finish e) as [[]|err|]; [|done..]. cbn. split; [done|].
  destruct Hfin as [Hend' Hexp]. assert (Hse : PipelinedEmit.next_offset e = start + blen d) by lia.
  split; [exists d|]. 2: { intros l Hll. apply Hfit. congruence. }
  split_and!; [done|lia|done| |].
  - destruct Hend' as [Hn|Hn]; [left; lia|right]. rewrite <- Hse. by apply Heof.
  - intros x Hxx. rewrite <- Hx in Hxx. destruct (Hexp x Hxx) as [E1 E2]. rewrite <- Hse.
    split; [congruence|by apply Heof].
Qed.

(** A reply that passed validation, as the sequential reads use it. *)
Lemma read_reply_facts r c :
  1 ≤ c → validate_read_reply r c = Ok tt →
  blen (ReadData.data r) ≤ c ∧ (ReadData.eof r = false → 1 ≤ blen (ReadData.data r)).
Proof using.
  intros Hc Hv. pose proof (validate_read_reply_ok r 0 c Hc) as Hok. rewrite Hv in Hok.
  by destruct Hok.
Qed.

Lemma within_limit_ok a b x l :
  ensure_buffered_read_within_limit a b x (Some l) = Ok tt → saturating_add a b ≤ l.
Proof using.
  unfold ensure_buffered_read_within_limit. destruct (Z.ltb_spec l (saturating_add a b)); [done|lia].
Qed.

Lemma sequential_loop_sound fuel fh chunk out offset remaining obs req :
  handle_ok fh → 1 ≤ chunk ≤ u32_max → 0 ≤ offset → 0 ≤ remaining ≤ Z.of_nat fuel →
  offset + remaining ≤ u64_max → blen out + remaining ≤ u64_max →
  (∀ l, ReadRequirements.limit req = Some l → blen out ≤ l) →
  runs I (sequential_loop fuel fh chunk out offset remaining obs req)
    (λ '(out', obs'), ∃ d, out' = out ++ d ∧ blen d ≤ remaining ∧ received server offset d
       ∧ (blen d = remaining ∧ obs' = obs
          ∨ obs' = Some (offset + blen d) ∧ ends_at server (offset + blen d))
       ∧ ∀ l, ReadRequirements.limit req = Some l → blen out' ≤ l) any.
Proof.
  intros Hfh Hck. revert out offset remaining obs.
  induction fuel as [|fuel IH]; intros out offset remaining obs Hoff Hrem Hend Hroom Hlim;
    cbn [sequential_loop]; (destruct (Z.ltb_spec 0 remaining); [|apply runs_ret;
      exists []; rewrite app_nil_r, blen_nil; split_and!; [done|lia|apply received_nil|left; split; [lia|done]|done]]);
    [lia|].
  rewrite as_u32_small by ulia. set (count := Z.min remaining chunk) in *.
  eapply runs_bind; [apply rc_read; [done|ulia..]|]. intros r Hr.
  apply runs_check; [apply read_reply_total|]. intros Hv.
  destruct (read_reply_facts r count ltac:(lia) Hv) as [Hle Hne].
  pose proof (received_reply server _ _ _ Hr) as Hrec. set (len := blen (ReadData.data r)) in *.
  assert (Hends : ReadData.eof r = true → ends_at server (offset + len)) by (intros; by exists offset, count, r).
  destruct (Z.eqb_spec len 0) as [Hz|Hz].
  { apply runs_ret. exists []. rewrite app_nil_r, blen_nil, Z.add_0_r. split_and!; [done|lia|apply received_nil| |done].
    right. rewrite Hz, Z.add_0_r in *. destruct (ReadData.eof r); [auto|]. specialize (Hne eq_refl). lia. }
  apply runs_check; [apply within_limit_total|]. intros Hfit.
  assert (Hlim' : ∀ l, ReadRequirements.limit req = Some l → blen (out ++ ReadData.data r) ≤ l).
  { intros l Hl. rewrite Hl in Hfit. apply within_limit_ok in Hfit. rewrite blen_app. fold len. ulia. }
  pose proof (blen_nonneg (ReadData.data r)). fold len in H0.
  destruct (ReadData.eof r) eqn:Heof.
  { apply runs_ret. exists (ReadData.data r). fold len. split_and!; [done|lia|done|right; auto|done]. }
  unfold saturating_sub. rewrite Z.max_l by lia.
  eapply runs_weaken; [apply IH; try (done || lia)|].
  { rewrite blen_app. fold len. lia. }
  intros [out' obs'] (d & -> & Hd & Hrd & Hcase & Hl'). exists (ReadData.data r ++ d).
  rewrite app_assoc, (blen_app (ReadData.data r) d). fold len. split_and!; [done|lia|by apply received_app| |done].
  rewrite Z.add_assoc. destruct Hcase as [[? ?] | ?]; [left; split; [lia|done]|by right].
Qed.

Lemma observed_eof_ok x o : validate_optional_observed_eof (Some x) o = Ok tt → o = Some (ExpectedEof.offset x).
Proof using.
  unfold validate_optional_observed_eof. destruct o as [a|]; [|done].
  destruct (Z.eqb_spec (ExpectedEof.offset x) a) as [->|]; done.
Qed.

Lemma sequential_sound fh out0 start total req :
  handle_ok fh → 0 ≤ start → 0 ≤ total → start + total ≤ u64_max → blen out0 + total ≤ u64_max →
  (∀ l, ReadRequirements.limit req = Some l → blen out0 ≤ l) →
  runs I (read_handle_to_bytes_sequential_into fh out0 start total req)
    (contents server out0 start total req) any.
Proof.
  intros Hfh Hst Htot Hend Hroom Hlim. unfold read_handle_to_bytes_sequential_into.
  apply runs_ask. intros s Hs. destruct (rc_config s Hs) as [_ Hck].
  eapply runs_bind; [apply sequential_loop_sound; (done || lia)|].
  intros [out' obs] (d & -> & Hd & Hrec & Hcase & Hl).
  apply runs_check; [apply observed_eof_total|]. intros Hv. apply runs_ret.
  split; [|done]. exists d. split_and!; [done..| |].
  - destruct Hcase as [[? _] | [_ ?]]; [by left|by right].
  - intros x Hx. rewrite Hx in Hv. apply observed_eof_ok in Hv.
    destruct Hcase as [[_ ?] | [? ?]]; [congruence|]. split; [congruence|done].
Qed.

(** One chunk that was answered in full, or up to the end of the file. *)
Lemma full_chunk_contents start count req r :
  0 ≤ start → 1 ≤ count ≤ u64_max → server start count r → blen (ReadData.data r) ≤ count →
  read_needs_retry r count = false →
  ensure_buffered_read_within_limit 0 (blen (ReadData.data r)) (ReadRequirements.expected_len req)
    (ReadRequirements.limit req) = Ok tt →
  (∀ x, ReadRequirements.expected_eof req = Some x → ExpectedEof.offset x ≤ start + count) →
  validate_optional_expected_eof (ReadRequirements.expected_eof req)
    (start + blen (ReadData.data r)) (ReadData.eof r) = Ok tt →
  contents server [] start count req (ReadData.data r).
Proof using.
  intros Hst Hc Hr Hle Hretry Hfit Hexp Hv.
  assert (Hends : ReadData.eof r = true → ends_at server (start + blen (ReadData.data r)))
    by (intros; by exists start, count, r).
  assert (Hcase : blen (ReadData.data r) = count ∨ ReadData.eof r = true).
  { unfold read_needs_retry in Hretry. destruct (ReadData.eof r); [by right|left].
    destruct (Z.ltb_spec (blen (ReadData.data r)) count); [done|lia]. }
  split; [|intros l Hl; rewrite Hl in Hfit; apply within_limit_ok in Hfit; ulia].
  exists (ReadData.data r). split_and!; [done..|by eapply received_reply| |].
  - destruct Hcase; auto.
  - intros x Hx. specialize (Hexp x Hx). rewrite Hx in Hv.
    cbn [validate_optional_expected_eof] in Hv. unfold validate_eof_expectation in Hv.
    destruct (ReadData.eof r).
    + destruct (Z.eqb_spec (start + blen (ReadData.data r)) (ExpectedEof.offset x)); [|done]. auto.
    + destruct Hcase as [Hcase|]; [|done].
      destruct (Z.leb_spec (ExpectedEof.offset x) (start + blen (ReadData.data r))); [done|lia].
Qed.

(** Reading on after a first part. *)
Lemma contents_after start total req d bs :
  received server start d → contents server d (start + blen d) (total - blen d) req bs →
  contents server [] start total req bs.
Proof using.
  intros Hd [(d' & -> & Hle & Hrec & Hcase & Hexp) Hl]. split; [|done].
  exists (d ++ d'). rewrite blen_app, Z.add_assoc. split_and!; [done|lia|by apply received_app| |done].
  destruct Hcase; [left; lia|by right].
Qed.

Section one_range.
Context (start total : Z) (req : ReadRequirements.t) (Hst : 0 ≤ start) (Htot : 1 ≤ total)
  (Hend : start + total ≤ u64_max)
  (Hexp : ∀ x, ReadRequirements.expected_eof req = Some x → ExpectedEof.offset x ≤ start + total)
  (Hlim : ∀ l, ReadRequirements.limit req = Some l → 0 ≤ l).

Lemma first_part_room r :
  blen (ReadData.data r) ≤ total →
  ensure_buffered_read_within_limit 0 (blen (ReadData.data r)) (ReadRequirements.expected_len req)
    (ReadRequirements.limit req) = Ok tt →
  ∀ l, ReadRequirements.limit req = Some l → blen (ReadData.data r) ≤ l.
Proof using Hend Hst.
  intros Hle Hfit l Hl. rewrite Hl in Hfit. apply within_limit_ok in Hfit. ulia.
Qed.

Lemma single_chunk_sound fh :
  handle_ok fh → total ≤ u32_max →
  runs I (read_handle_single_chunk_or_continue fh start total req) (contents server [] start total req) any.
Proof.
  intros Hfh H32. unfold read_handle_single_chunk_or_continue.
  eapply runs_bind; [apply rc_read; [done|ulia..]|]. intros r Hr.
  apply runs_check; [apply read_reply_total|]. intros Hv.
  destruct (read_reply_facts r total Htot Hv) as [Hle Hne].
  apply runs_check; [apply within_limit_total|]. intros Hfit.
  pose proof (blen_nonneg (ReadData.data r)).
  destruct (read_needs_retry r total) eqn:Hretry; cbn [negb].
  - unfold with_capacity, saturating_sub. cbn [app]. rewrite Z.max_l by lia.
    eapply runs_weaken; [apply sequential_sound; try (done || lia)|].
    { by apply first_part_room. }
    intros bs. apply contents_after. by eapply received_reply.
  - apply runs_check; [apply expected_eof_total|]. intros Hx. apply runs_ret.
    apply full_chunk_contents; (done || ulia).
Qed.

Lemma handle_to_bytes_sound fh :
  handle_ok fh →
  runs I (read_handle_to_bytes order fh start total req) (contents server [] start total req) any.
Proof.
  intros Hfh. unfold read_handle_to_bytes. destruct (Z.eqb_spec total 0); [lia|].
  apply runs_ask. intros s Hs. destruct (rc_config s Hs) as [Hg Hck].
  apply runs_ask. intros s' Hs'.
  destruct (Z.leb_spec total (ReadService.read_granularity s)).
  { rewrite as_u32_small by ulia. apply single_chunk_sound; [done|lia]. }
  unfold with_capacity. destruct (Z.leb_spec (operation_pipeline_depth s') 1).
  - apply sequential_sound; try (done || rewrite ?blen_nil; lia).
  - apply pipelined_sound; try (done || rewrite ?blen_nil; lia).
Qed.

Lemma after_prefix_sound fh d :
  handle_ok fh → blen d < total → received server start d →
  (∀ l, ReadRequirements.limit req = Some l → blen d ≤ l) →
  runs I (read_handle_to_bytes_after_prefix order fh d (start + blen d) (total - blen d) req)
    (contents server [] start total req) any.
Proof.
  intros Hfh Hd Hrec Hl. unfold read_handle_to_bytes_after_prefix, with_capacity. cbn [app].
  pose proof (blen_nonneg d). apply runs_ask. intros s Hs. apply runs_ask. intros s' Hs'.
  eapply runs_weaken; [|intros bs; by apply contents_after].
  destruct (_ || _).
  - apply sequential_sound; (done || lia).
  - apply pipelined_sound; (done || lia).
Qed.

Lemma range_sound p :
  path_ok p →
  runs I (read_range_anonymous order p start total req) (contents server [] start total req) any.
Proof.
  intros Hp. unfold read_range_anonymous.
  apply runs_ask. intros s Hs. destruct (rc_config s Hs) as [Hg Hck].
  destruct (Z.leb_spec total (ReadService.read_granularity s)).
  - rewrite as_u32_small by ulia.
    eapply runs_bind; [apply rc_path; [done|ulia..]|]. intros r Hr.
    apply runs_check; [apply read_reply_total|]. intros Hv.
    destruct (read_reply_facts r total Htot Hv) as [Hle Hne].
    apply runs_check; [apply within_limit_total|]. intros Hfit.
    destruct (read_needs_retry r total) eqn:Hretry; cbn [negb].
    + eapply runs_bind; [by apply rc_lookup|]. intros fh Hfh. by apply handle_to_bytes_sound.
    + apply runs_check; [apply expected_eof_total|]. intros Hx. apply runs_ret.
      apply full_chunk_contents; (done || ulia).
  - set (g := ReadService.read_granularity s) in *.
    eapply runs_bind; [apply rc_path_handle; [done|ulia..]|]. intros [fh r] [Hfh Hr].
    apply runs_check; [apply read_reply_total|]. intros Hv.
    destruct (read_reply_facts r g ltac:(lia) Hv) as [Hle Hne].
    apply runs_check; [apply within_limit_total|]. intros Hfit.
    pose proof (received_reply server _ _ _ Hr) as Hrec.
    destruct (ReadData.eof r) eqn:Heof.
    + apply runs_check; [apply expected_eof_total|]. intros Hx. apply runs_ret.
      assert (Hends : ends_at server (start + blen (ReadData.data r))) by by exists start, g, r.
      split; [|apply first_part_room; [lia|done]].
      exists (ReadData.data r). split_and!; [done|lia|done|by right|].
      intros x Hxx. rewrite Hxx in Hx. cbn [validate_optional_expected_eof] in Hx.
      unfold validate_eof_expectation in Hx. split; [|done].
      by destruct (Z.eqb_spec (start + blen (ReadData.data r)) (ExpectedEof.offset x)).
    + apply after_prefix_sound; [done|lia|done|]. apply first_part_room; [lia|done].
Qed.
End one_range.

(** ** The client's operations *)

Lemma known_size_ok size l : ensure_known_size_within_limit size (Some l) = Ok tt → size ≤ l.
Proof using. unfold ensure_known_size_within_limit. destruct (Z.ltb_spec l size); [done|lia]. Qed.

Definition limit_ok (limit : option Z) : Prop := ∀ l, limit = Some l → 0 < l ≤ u64_max.

(** A whole file: as long as the size that was reported, received byte by
    byte, with the end of the file reported behind its last byte. *)
Definition whole (size : Z) (limit : option Z) (bs : bytes) : Prop :=
  blen bs = size ∧ received server 0 bs ∧ ends_at server size ∧ ∀ l, limit = Some l → size ≤ l.

Lemma get_sound limit p :
  path_ok p → limit_ok limit → (∀ size, sizes (Some size) → is_u64 size) →
  runs I (get_once order limit p) (λ bs, ∃ size, sizes (Some size) ∧ whole size limit bs) any.
Proof.
  intros Hp Hl Hsz. unfold get_once. apply runs_ask. intros s Hs. destruct (rc_config s Hs) as [Hg _].
  set (count := small_get_probe_count limit s).
  assert (Hc : 1 ≤ count ≤ u32_max).
  { unfold count, small_get_probe_count. destruct limit as [l|]; [|done].
    destruct (Hl l eq_refl). rewrite as_u32_small by ulia. lia. }
  eapply runs_bind; [apply rc_path_size; [done|ulia]|]. intros [[fh size] r] (Hfh & Hsize & Hr).
  apply runs_check; [apply read_reply_total|]. intros Hv.
  destruct (read_reply_facts r count ltac:(lia) Hv) as [Hle Hne].
  apply runs_check; [apply known_size_total|]. intros Hk.
  assert (Hfits : ∀ l, limit = Some l → size ≤ l).
  { intros l ->. by apply known_size_ok. }
  pose proof (received_reply server _ _ _ Hr) as Hrec. pose proof (Hsz size Hsize) as H64.
  pose proof (blen_nonneg (ReadData.data r)).
  destruct (Z.eqb_spec (blen (ReadData.data r)) size) as [Heq|].
  { apply runs_check; [unfold validate_eof_expectation; by repeat case_match|].
    unfold validate_eof_expectation. cbn [ExpectedEof.offset]. intros Hx. apply runs_ret. exists size.
    split; [done|]. split_and!; [done..| |done].
    destruct (ReadData.eof r) eqn:Heof; [by exists 0, count, r; rewrite Heq|].
    destruct (Z.leb_spec size (blen (ReadData.data r))); [done|lia]. }
  destruct (Z.ltb_spec size (blen (ReadData.data r))); [by apply runs_fail|].
  destruct (ReadData.eof r); [by apply runs_fail|].
  eapply runs_weaken.
  - apply (after_prefix_sound 0 size); try (done || ulia).
    + cbn. intros l ->. specialize (Hfits l eq_refl). lia.
  - intros bs [(d & -> & Hd & Hrd & _ & Hexp) _]. exists size. split; [done|]. cbn [app].
    destruct (Hexp _ eq_refl) as [E1 E2]. cbn in E1. rewrite Z.add_0_l in *. rewrite <- E1 in E2.
    by split_and!.
Qed.

Lemma get_known_size_sound limit p size :
  path_ok p → limit_ok limit → is_u64 size →
  runs I (get_known_size_once order limit p size) (whole size limit) any.
Proof.
  intros Hp Hl H64. unfold get_known_size_once.
  apply runs_check; [apply known_size_total|]. intros Hk.
  assert (Hfits : ∀ l, limit = Some l → size ≤ l).
  { intros l ->. by apply known_size_ok. }
  destruct (Z.eqb_spec size 0) as [->|].
  - eapply runs_bind; [apply rc_path; [done|ulia..]|]. intros r Hr.
    apply runs_check; [apply read_reply_total|]. intros Hv.
    apply runs_check; [unfold validate_expected_eof, validate_eof_expectation; by repeat case_match|].
    unfold validate_expected_eof, validate_eof_expectation. cbn [ExpectedEof.offset]. intros Hx.
    pose proof (blen_nonneg (ReadData.data r)). apply runs_ret. split_and!; [done|apply received_nil| |done].
    destruct (ReadData.eof r) eqn:Heof; [|destruct (Z.leb_spec 0 (blen (ReadData.data r))); [done|lia]].
    destruct (Z.eqb_spec (blen (ReadData.data r)) 0) as [Hz|]; [|done].
    exists 0, 1, r. by rewrite Hz.
  - eapply runs_weaken.
    + apply (range_sound 0 size); try (done || ulia).
      * cbn. intros x [= <-]. cbn. lia.
      * cbn. intros l ->. specialize (Hl l eq_refl). lia.
    + intros bs [(d & -> & Hd & Hrd & _ & Hexp) _]. cbn [app].
      destruct (Hexp _ eq_refl) as [E1 E2]. cbn in E1. rewrite Z.add_0_l in *. rewrite <- E1 in E2.
      by split_and!.
Qed.

(** A range: all of it, or up to an end of file the server reported. *)
Lemma get_range_sound limit p start end_ :
  path_ok p → limit_ok limit → 0 ≤ start → end_ ≤ u64_max → (∀ size, sizes (Some size) → is_u64 size) →
  runs I (get_range order limit p start end_)
    (λ bs, received server start bs ∧ blen bs ≤ Z.max 0 (end_ - start)
       ∧ (∀ l, limit = Some l → blen bs ≤ l)
       ∧ (blen bs = Z.max 0 (end_ - start) ∨ ends_at server (start + blen bs)
          ∨ ∃ size, sizes (Some size) ∧ start + blen bs = Z.max start size)) any.
Proof.
  intros Hp Hl Hst Hend Hsz. unfold get_range. destruct (Z.leb_spec end_ start).
  { apply runs_ret. rewrite blen_nil. split_and!; [apply received_nil|lia| |lia].
    intros l ->. specialize (Hl l eq_refl). lia. }
  assert (Hl0 : ∀ l, limit = Some l → 0 ≤ l) by (intros l ->; specialize (Hl l eq_refl); lia).
  unfold get_range_once. destruct (range_read_needs_size (end_ - start) limit) eqn:Hneed; cbn [negb].
  - eapply runs_bind; [by apply rc_attrs|]. intros [fh attrs] [Hfh Hs].
    apply runs_check; [apply known_size_total|]. intros Hk.
    set (n := buffered_range_len start end_ (FileAttrs.size attrs)) in *.
    assert (Hn : 0 ≤ n ≤ end_ - start ∧ (n = end_ - start
      ∨ ∃ size, sizes (Some size) ∧ start + n = Z.max start size)).
    { unfold n, buffered_range_len, saturating_sub. destruct (FileAttrs.size attrs) as [size|]; [|lia].
      specialize (Hsz size Hs). destruct (Z.leb_spec size start).
      - split; [lia|]. right. exists size. split; [done|lia].
      - split; [unfold_widths; lia|]. destruct (Z.le_gt_cases end_ size); [left; lia|right].
        exists size. split; [done|lia]. }
    destruct Hn as [Hn1 Hn2]. rewrite Z.min_l by lia. destruct (Z.eqb_spec n 0) as [Hz|].
    + apply runs_ret. rewrite Hz in *. rewrite blen_nil. split_and!; [apply received_nil|lia|done|].
      rewrite !Z.max_r by lia. destruct Hn2; [left; lia|by right; right].
    + eapply runs_weaken; [apply (handle_to_bytes_sound start n); (done || lia)|].
      intros bs [(d & -> & Hd & Hrd & Hcase & _) Hlim]. cbn [app]. rewrite Z.max_r by lia.
      split_and!; [done|lia|done|]. destruct Hcase as [->|]; [|by right; left].
      destruct Hn2; [by left|by right; right].
  - eapply runs_weaken; [apply (range_sound start (end_ - start)); (done || lia)|].
    intros bs [(d & -> & Hd & Hrd & Hcase & _) Hlim]. cbn [app]. rewrite Z.max_r by lia.
    split_and!; [done..|]. destruct Hcase; [by left|by right; left].
Qed.
End any_server.

(** ** A server that holds a file *)

Definition slice (f : bytes) (o n : Z) : bytes := take (Z.to_nat n) (drop (Z.to_nat o) f).

Lemma blen_slice f o n : 0 ≤ o → 0 ≤ n → blen (slice f o n) = Z.max 0 (Z.min n (blen f - o)).
Proof. intros Ho Hn. unfold slice, blen. rewrite length_take, length_drop. lia. Qed.

Lemma slice_app f o n m : 0 ≤ o → 0 ≤ n → 0 ≤ m → slice f o n ++ slice f (o + n) m = slice f o (n + m).
Proof.
  intros Ho Hn Hm. unfold slice. rewrite !Z2Nat.inj_add by lia.
  by rewrite <- drop_drop, take_take_drop.
Qed.

Lemma slice_0 f o : slice f o 0 = [].
Proof. done. Qed.

Lemma slice_all f n : blen f ≤ n → slice f 0 n = f.
Proof. intros Hn. unfold slice, blen in *. cbn. rewrite drop_0. apply take_ge. lia. Qed.

(** Slices agree when they reach past the end alike. *)
Lemma slice_clip f o n m :
  0 ≤ o → (n = m ∨ (0 ≤ n ∧ 0 ≤ m ∧ blen f - o ≤ n ∧ blen f - o ≤ m)) → slice f o n = slice f o m.
Proof.
  intros Ho [->|(Hn & Hm & H1 & H2)]; [done|]. unfold slice.
  rewrite !take_ge; [done|rewrite length_drop; unfold blen in *; lia..].
Qed.

(** The answers of NFSv4.1 READ for a file with contents [f]: a prefix of what
    was asked for, not empty inside the file, and [eof] exactly when it reaches
    the end of the file. *)
Record serves (f : bytes) (o c : Z) (r : ReadData.t) : Prop := {
  sv_offset : 0 ≤ o;
  sv_data : ReadData.data r = slice f o (blen (ReadData.data r));
  sv_len : blen (ReadData.data r) ≤ c;
  sv_some : 1 ≤ c → o < blen f → 1 ≤ blen (ReadData.data r);
  sv_eof : ReadData.eof r = (blen f <=? o + blen (ReadData.data r));
}.

Lemma serves_bound f o c r :
  serves f o c r → 0 ≤ o → 1 ≤ blen (ReadData.data r) → o + blen (ReadData.data r) ≤ blen f.
Proof.
  intros [_ Hd _ _ _] Ho H1. apply (f_equal blen) in Hd. rewrite blen_slice in Hd by lia. lia.
Qed.

Lemma serves_valid f o c r : serves f o c r → 0 ≤ o → 1 ≤ c → read_ok (task o c r).
Proof.
  intros Hs Ho Hc. destruct Hs as [_ _ Hl Hsm He]. split; cbn; [done..|]. rewrite He.
  intros Hlt%Z.leb_gt. apply Hsm; [done|]. pose proof (blen_nonneg (ReadData.data r)). lia.
Qed.

Section file.
Context (f : bytes).

Section pipeline.
Context (out0 : bytes) (start end_ chunk : Z) (req : ReadRequirements.t) (Hst : 0 ≤ start)
  (Hend : end_ ≤ u64_max).

(** Where a read from [start] on ends at the latest. *)
Definition last_offset : Z := Z.max start (blen f).

Hypothesis Hroom : ∀ l, ReadRequirements.limit req = Some l →
  blen out0 + (Z.min end_ last_offset - start) ≤ l.

Abbreviation served := (answer (serves f) start end_ chunk).

Record fine (q : list ReadTaskOutput.t) (e : PipelinedEmit.t) : Prop := {
  fi_healthy : Emit.healthy e;
  fi_out : PipelinedEmit.out e = out0 ++ slice f start (PipelinedEmit.next_offset e - start);
  fi_next : start ≤ PipelinedEmit.next_offset e ≤ last_offset;
  fi_queue : Forall served q;
  fi_eof : PipelinedEmit.eof_at e = None ∨ PipelinedEmit.eof_at e = Some last_offset;
  fi_upper : ∀ u, PipelinedEmit.eof_upper_bound e = Some u → last_offset ≤ u;
  fi_reach : PipelinedEmit.next_offset e = start ∨ PipelinedEmit.next_offset e < blen f
    ∨ PipelinedEmit.eof_at e = Some last_offset;
  fi_limit : PipelinedEmit.limit e = ReadRequirements.limit req;
  fi_expected : PipelinedEmit.expected_eof e = ReadRequirements.expected_eof req;
}.

Lemma served_facts r :
  served r →
  start ≤ ReadTaskOutput.offset r
  ∧ ReadTaskOutput.data r = slice f (ReadTaskOutput.offset r) (rlen r)
  ∧ ReadTaskOutput.offset r + rlen r ≤ end_
  ∧ (1 ≤ rlen r → ReadTaskOutput.offset r + rlen r ≤ blen f)
  ∧ (rlen r = 0 → blen f ≤ ReadTaskOutput.offset r)
  ∧ ReadTaskOutput.eof r = (blen f <=? ReadTaskOutput.offset r + rlen r).
Proof using Hst.
  intros (Hr & [Hq Hl Hd] & Hs1 & Hs2 & Hs3). cbn [fst snd] in *.
  pose proof (serves_bound _ _ _ _ Hr) as Hb. destruct Hr as [_ H1 H2 H3 H4]. cbn in *.
  split_and!; [done|done|lia|intros; apply Hb; lia| |done].
  intros Hz. destruct (Z.le_gt_cases (blen f) (ReadTaskOutput.offset r)); [done|]. lia.
Qed.

Lemma served_not_beyond r eof :
  served r → eof = None ∨ eof = Some last_offset → PipelinedEmit.beyond eof r = false.
Proof using Hend Hst.
  intros Hr Heof. destruct (served_facts r Hr) as (S1 & _ & S3 & S4 & _).
  unfold PipelinedEmit.beyond, ReadTaskOutput.is_empty, ReadTaskOutput.end_.
  destruct Heof as [-> | ->]; [done|]. pose proof (blen_nonneg (ReadTaskOutput.data r)).
  destruct (Z.eqb_spec (rlen r) 0); [done|]. cbn [negb andb]. apply Z.ltb_ge.
  unfold last_offset. specialize (S4 ltac:(lia)). ulia.
Qed.

Lemma fine_exact q e :
  fine q e → fine q (PipelinedEmit.observe_exact_eof last_offset e)
    ∧ PipelinedEmit.eof_at (PipelinedEmit.observe_exact_eof last_offset e) = Some last_offset.
Proof using.
  intros [H1 H2 H3 H4 H5 H6 H7 H8 H9].
  assert (Hh : Emit.healthy (PipelinedEmit.observe_exact_eof last_offset e)) by by apply Emit.observe_exact_fine.
  destruct (Emit.keeps_exact last_offset e) as (_ & _ & Fn & Fo & Fl & Fx).
  destruct (Emit.observe_exact_healthy _ _ Hh) as (_ & _ & Fe & Fu & _).
  split; [|done]. split; rewrite ?Fn, ?Fo, ?Fl, ?Fx, ?Fe, ?Fu; auto. by intros ? [= <-].
Qed.

Lemma fine_emit r q e :
  fine (r :: q) e → ReadTaskOutput.offset r = PipelinedEmit.next_offset e →
  fine q (PipelinedEmit.emit r e).
Proof using Hend Hroom Hst.
  intros Hf Ho. pose proof Hf as [H1 H2 H3 H4 H5 H6 H7 H8 H9]. apply Forall_cons in H4 as [Hr H4].
  destruct (served_facts r Hr) as (S1 & S2 & S3 & S4 & S5 & S6).
  assert (Hf' : fine q e) by by split. unfold PipelinedEmit.emit. unfold last_offset in *.
  destruct (Z.eqb_spec (rlen r) 0) as [Hz|Hz].
  { specialize (S5 Hz). replace (ReadTaskOutput.offset r) with last_offset by (unfold last_offset; lia).
    by apply fine_exact. }
  pose proof (blen_nonneg (ReadTaskOutput.data r)). specialize (S4 ltac:(lia)).
  assert (Hlen : blen (PipelinedEmit.out e) = blen out0 + (PipelinedEmit.next_offset e - start)).
  { rewrite H2, blen_app, blen_slice by lia. lia. }
  assert (ensure_buffered_read_within_limit (blen (PipelinedEmit.out e)) (rlen r)
    (PipelinedEmit.expected_len e) (PipelinedEmit.limit e) = Ok tt) as ->.
  { unfold ensure_buffered_read_within_limit. rewrite H8.
    destruct (ReadRequirements.limit req) as [l|] eqn:Hl; [|done]. specialize (Hroom l eq_refl).
    destruct (Z.ltb_spec l (saturating_add (blen (PipelinedEmit.out e)) (rlen r))); [ulia|done]. }
  set (e1 := PipelinedEmit.extend _ e).
  assert (Hout : PipelinedEmit.out e1 = out0 ++ slice f start (PipelinedEmit.next_offset e1 - start)).
  { cbn. rewrite H2, <- app_assoc. f_equal. rewrite S2 at 1. rewrite Ho.
    replace (PipelinedEmit.next_offset e) with (start + (PipelinedEmit.next_offset e - start)) at 2 by lia.
    rewrite slice_app by lia. f_equal. lia. }
  destruct (ReadTaskOutput.eof r) eqn:Heof.
  - symmetry in S6. apply Z.leb_le in S6.
    assert (Hn1 : PipelinedEmit.next_offset e1 = last_offset) by (unfold last_offset; cbn; lia).
    rewrite Hn1. rewrite Hn1 in Hout.
    assert (Hh : Emit.healthy (PipelinedEmit.observe_exact_eof last_offset e1)) by by apply Emit.observe_exact_fine.
    destruct (Emit.keeps_exact last_offset e1) as (_ & _ & Fn & Fo & Fl & Fx).
    destruct (Emit.observe_exact_healthy _ _ Hh) as (_ & _ & Fe & Fu & _).
    split; rewrite ?Fn, ?Fo, ?Fl, ?Fx, ?Fe, ?Fu, ?Hn1; auto; [unfold last_offset; lia|]. by intros ? [= <-].
  - symmetry in S6. apply Z.leb_gt in S6.
    split; try done; cbn; [unfold last_offset; lia|right; left; lia].
Qed.

Lemma fine_record r e :
  fine (PipelinedEmit.completed e) e → served r →
  fine (PipelinedEmit.completed (PipelinedEmit.record r e)) (PipelinedEmit.record r e).
Proof using Hend Hroom Hst.
  intros Hf Hr. apply (Emit.record_ind fine).
  - intros q q' e1 Hq []. split; try done. by rewrite <- Hq.
  - by intros q l e1 [].
  - intros r' q e1 H1 Ho _. by apply fine_emit.
  - intros r' q e1 err [_ _ _ H4 H5 _ _ _ _] Hb. exfalso. apply Forall_cons in H4 as [Hr' _].
    rewrite served_not_beyond in Hb; done.
  - assert (Hadd : ∀ e', fine (PipelinedEmit.completed e) e' →
      fine (r :: PipelinedEmit.completed e) e') by (intros e' []; split; try done; by constructor).
    apply Hadd. destruct (served_facts r Hr) as (S1 & _ & S3 & S4 & S5 & S6).
    pose proof (blen_nonneg (ReadTaskOutput.data r)).
    destruct (ReadTaskOutput.eof r) eqn:Heof; [|done]. symmetry in S6. apply Z.leb_le in S6.
    unfold PipelinedEmit.observe_read_eof, ReadTaskOutput.is_empty.
    set (a := ReadTaskOutput.offset r + rlen r) in *.
    destruct (Z.eqb_spec (rlen r) 0) as [Hz|Hz]; [destruct (Z.eqb_spec (ReadTaskOutput.offset r) (PipelinedEmit.next_offset e))|];
      cbn [andb negb].
    1, 3: destruct Hf as [H1 H2 H3 H4 H5 H6 H7 H8 H9] eqn:Hfe; clear Hfe;
      assert (a = last_offset) as -> by (unfold last_offset in *; lia); by apply fine_exact.
    destruct Hf as [H1 H2 H3 H4 H5 H6 H7 H8 H9]. assert (Ha : last_offset ≤ a) by (unfold last_offset; lia).
    destruct (Emit.keeps_upper a e) as (_ & _ & Fn & Fo & Fl & Fx).
    destruct (Emit.observe_upper_fields a e) as [Fe Fu].
    split; rewrite ?Fn, ?Fo, ?Fl, ?Fx, ?Fe, ?Fu; try done.
    + apply Emit.observe_upper_healthy. split; [done|]. intros b Hb. destruct H5; congruence.
    + intros u [= <-]. destruct (PipelinedEmit.eof_upper_bound e) as [v|]; [|done].
      specialize (H6 v eq_refl). lia.
Qed.

(** With nothing left to ask for, the reassembly finishes without an error and
    holds the range. *)
Lemma fine_finish p :
  wf start end_ chunk p → placed_pipeline start p → Pipeline.reads p = [] → exhausted end_ p →
  fine (PipelinedEmit.completed (Pipeline.emit p)) (Pipeline.emit p) → start < end_ →
  (∀ x, ReadRequirements.expected_eof req = Some x → ExpectedEof.offset x = blen f ∧ start ≤ blen f ≤ end_) →
  PipelinedEmit.finish (Pipeline.emit p) = Ok tt
  ∧ PipelinedEmit.out (Pipeline.emit p) = out0 ++ slice f start (end_ - start).
Proof using Hend Hst.
  intros Hwf Hpl Hnil Hex Hf Hlt Hexp.
  pose proof (pipeline_end start end_ chunk p Hwf Hpl Hnil Hex (fi_healthy _ _ Hf)) as [Hle Hcase].
  set (e := Pipeline.emit p) in *. destruct Hf as [H1 H2 H3 H4 H5 H6 H7 H8 H9]. split.
  - unfold PipelinedEmit.finish. rewrite H1.
    assert (existsb (PipelinedEmit.beyond (PipelinedEmit.eof_at e)) (PipelinedEmit.completed e) = false) as ->.
    { apply not_true_is_false. intros (r & Hr & Hb)%existsb_exists.
      apply list_elem_of_In in Hr. pose proof (proj1 (Forall_forall _ _) H4 r Hr) as Hs.
      rewrite served_not_beyond in Hb; done. }
    rewrite H9. unfold validate_optional_observed_eof.
    destruct Hcase as [(Ha & -> & Hn) | Ha]; rewrite Ha in *.
    + destruct (ReadRequirements.expected_eof req) as [x|] eqn:Hx; [|done].
      destruct (Hexp x eq_refl). destruct H7 as [?|[?|?]]; [lia|lia|done].
    + rewrite Z.ltb_irrefl. destruct (ReadRequirements.expected_eof req) as [x|] eqn:Hx; [|done].
      destruct (Hexp x eq_refl) as [-> ?]. destruct H5 as [?|[= H5]]; [done|].
      unfold last_offset in H5. destruct (Z.eqb_spec (blen f) (PipelinedEmit.next_offset e)); [done|lia].
  - rewrite H2. f_equal. apply slice_clip; [lia|].
    destruct Hcase as [(_ & _ & ->) | Ha]; [by left|right]. rewrite Ha in H5.
    destruct H5 as [?|[= H5]]; [done|]. unfold last_offset in *. lia.
Qed.
End pipeline.

(** No error at all. *)
Definition none {A : Type} : A → Prop := λ _, False.

Section operations.
Context {S : Type} {service : ReadService.t S} (order : nat → nat) (I : S → Prop)
  (handle_ok : FileHandle → Prop) (path_ok : list str → Prop)
  `{!ReadContract service I none handle_ok path_ok (serves f) (eq (Some (blen f)))}.

Lemma runs_pass {A} (r : res Error.t unit) (k : unit → st S Error.t A) (Q : A → Prop) :
  r = Ok tt → runs I (k tt) Q none → runs I (sbind (slift r) k) Q none.
Proof using. by intros -> Hk. Qed.

Lemma serves_reply o c r : serves f o c r → 0 ≤ o → 1 ≤ c → validate_read_reply r c = Ok tt.
Proof using.
  intros Hs Ho Hc. pose proof (validate_read_reply_ok r o c Hc) as Hv.
  pose proof (serves_valid _ _ _ _ Hs Ho Hc).
  by destruct (validate_read_reply r c) as [[]| |].
Qed.

Lemma served_chunk fh start end_ chunk o c s :
  handle_ok fh → 0 ≤ start → end_ ≤ u64_max → chunk ≤ u32_max →
  I s → sized start end_ chunk (o, c) →
  match read_chunk fh o c s with
  | (Ok r, s') => I s' ∧ ReadTaskOutput.offset r = o ∧ ReadTaskOutput.requested r = c
      ∧ read_ok r ∧ answer (serves f) start end_ chunk r
  | (Err err, s') => I s' ∧ none err
  | (Panic, _) => False
  end.
Proof.
  intros Hfh Hst Hend Hck HI Hsz. pose proof Hsz as (Ho & Hc & Hoc). cbn [fst snd] in *.
  assert (Hrun : runs I (read_chunk fh o c) (λ r, ReadTaskOutput.offset r = o ∧
    ReadTaskOutput.requested r = c ∧ read_ok r ∧ answer (serves f) start end_ chunk r) none).
  { unfold read_chunk. eapply runs_bind; [apply rc_read; [done|ulia..]|].
    intros r Hr. apply runs_pass; [apply (serves_reply o); [done|lia..]|]. apply runs_ret.
    pose proof (serves_valid _ _ _ _ Hr ltac:(lia) ltac:(lia)).
    split_and!; [done..|]. split_and!; [by destruct r|done..]. }
  exact (Hrun s HI).
Qed.

(** The requirements on the end and the size of the range can be met. *)
Definition meets (out0 : bytes) (start total : Z) (req : ReadRequirements.t) : Prop :=
  (∀ x, ReadRequirements.expected_eof req = Some x →
     ExpectedEof.offset x = blen f ∧ start ≤ blen f ≤ start + total)
  ∧ (∀ l, ReadRequirements.limit req = Some l → blen out0 + blen (slice f start total) ≤ l).

Lemma pipelined_file fh out0 start total req :
  handle_ok fh → 0 ≤ start → 1 ≤ total → start + total ≤ u64_max → meets out0 start total req →
  runs I (read_handle_to_bytes_pipelined_into order fh out0 start total req)
    (eq (out0 ++ slice f start total)) none.
Proof.
  intros Hfh Hst Htot Hend [Hexp Hlim] s HI. unfold read_handle_to_bytes_pipelined_into.
  unfold sbind, asks. destruct (rc_config s HI) as [Hg _].
  unfold saturating_add. rewrite Z.min_l by ulia.
  set (chunk := ReadService.read_granularity s) in *. set (end_ := start + total) in *.
  set (p := Pipeline.mk _ _ _). set (depth := operation_pipeline_depth s).
  assert (Hdepth : 1 ≤ depth) by apply pipeline_depth_pos.
  assert (Hroom : ∀ l, ReadRequirements.limit req = Some l →
    blen out0 + (Z.min end_ (last_offset start) - start) ≤ l).
  { intros l Hl. specialize (Hlim l Hl). rewrite blen_slice in Hlim by lia. unfold last_offset. lia. }
  assert (Hwf : wf start end_ chunk p) by (split; cbn; (done || lia || constructor)).
  assert (Hpl : placed_pipeline start p) by (apply placed_start; lia).
  destruct (pipelined_loop_spec start end_ chunk Hst Hend Hg order fh depth Hdepth I
    (answer (serves f) start end_ chunk) none
    (λ e, fine out0 start end_ chunk req (PipelinedEmit.completed e) e)
    ltac:(intros; apply served_chunk; (done || lia))
    ltac:(intros r e HJ Hok Hr Hsz; by apply fine_record)
    ltac:(done) (Z.to_nat total) 0 p s Hwf Hpl) as (p' & s' & Hrun & HI' & HJ & Hwf' & Hpl' & Hnil & Hex).
  { split; cbn [p Pipeline.emit PipelinedEmit.new PipelinedEmit.out PipelinedEmit.next_offset
      PipelinedEmit.completed PipelinedEmit.eof_at PipelinedEmit.eof_upper_bound]; auto.
    - done.
    - by rewrite Z.sub_diag, slice_0, app_nil_r.
    - unfold last_offset. lia.
    - done. }
  { done. }
  { unfold unanswered, others. cbn. lia. }
  rewrite Hrun. unfold slift.
  destruct (fine_finish out0 start end_ chunk req Hst Hend p' Hwf' Hpl' Hnil Hex HJ) as [-> ->];
    [lia|done|]. cbn. split; [done|]. do 2 f_equal. lia.
Qed.

Lemma serves_split o c r n :
  serves f o c r → 0 ≤ o → blen (ReadData.data r) ≤ n →
  slice f o n = ReadData.data r ++ slice f (o + blen (ReadData.data r)) (n - blen (ReadData.data r)).
Proof using.
  intros [_ Hd _ _ _] Ho Hn. pose proof (blen_nonneg (ReadData.data r)). rewrite Hd at 1.
  rewrite slice_app by lia. f_equal. lia.
Qed.

Lemma serves_eof o c r n :
  serves f o c r → 0 ≤ o → blen (ReadData.data r) ≤ n → ReadData.eof r = true →
  slice f o n = ReadData.data r.
Proof using.
  intros Hr Ho Hn He. rewrite (serves_split o c r n Hr Ho Hn). destruct Hr as [_ _ _ _ H4].
  rewrite H4 in He. apply Z.leb_le in He. pose proof (blen_nonneg (ReadData.data r)).
  rewrite <- (app_nil_r (ReadData.data r)) at 4. f_equal. apply blen_0_nil. rewrite blen_slice; lia.
Qed.

Lemma within_limit_fits a b x l :
  0 ≤ a → 0 ≤ b → (∀ n, l = Some n → a + b ≤ n) → ensure_buffered_read_within_limit a b x l = Ok tt.
Proof using.
  intros Ha Hb Hl. unfold ensure_buffered_read_within_limit. destruct l as [n|]; [|done].
  specialize (Hl n eq_refl). destruct (Z.ltb_spec n (saturating_add a b)); [ulia|done].
Qed.

(** The end of the file as a sequential read of [n] bytes at [o] observes it. *)
Definition observed (o n : Z) : option Z :=
  if (0 <? n) && (blen f <=? o + n) then Some (Z.max o (blen f)) else None.

Lemma sequential_loop_file fuel fh chunk out offset remaining req :
  handle_ok fh → 1 ≤ chunk ≤ u32_max → 0 ≤ offset → 0 ≤ remaining ≤ Z.of_nat fuel →
  offset + remaining ≤ u64_max →
  (∀ l, ReadRequirements.limit req = Some l → blen out + blen (slice f offset remaining) ≤ l) →
  runs I (sequential_loop fuel fh chunk out offset remaining None req)
    (eq (out ++ slice f offset remaining, observed offset remaining)) none.
Proof.
  intros Hfh Hck. revert out offset remaining.
  induction fuel as [|fuel IH]; intros out offset remaining Hoff Hrem Hend Hlim;
    cbn [sequential_loop]; unfold observed; (destruct (Z.ltb_spec 0 remaining); [|apply runs_ret;
      replace remaining with 0 by lia; cbn; by rewrite slice_0, app_nil_r]); [lia|].
  cbn [andb]. rewrite as_u32_small by ulia. set (count := Z.min remaining chunk) in *.
  eapply runs_bind; [apply rc_read; [done|ulia..]|]. intros r Hr.
  apply runs_pass; [apply (serves_reply offset); [done|lia..]|].
  pose proof (blen_nonneg (ReadData.data r)). pose proof (sv_len _ _ _ _ Hr) as Hle.
  pose proof (sv_eof _ _ _ _ Hr) as He. pose proof (serves_bound _ _ _ _ Hr Hoff) as Hb.
  pose proof (serves_split _ _ _ remaining Hr Hoff ltac:(lia)) as Hsp.
  pose proof (serves_eof _ _ _ remaining Hr Hoff ltac:(lia)) as Hse.
  set (len := blen (ReadData.data r)) in *.
  destruct (Z.eqb_spec len 0) as [Hz|Hz].
  { apply runs_ret. rewrite Hz in *. pose proof (sv_some _ _ _ _ Hr ltac:(lia)) as Hsm. fold len in Hsm.
    destruct (Z.leb_spec (blen f) (offset + 0)); [|lia]. rewrite He.
    destruct (Z.leb_spec (blen f) (offset + remaining)); [|lia].
    rewrite (Hse He), (blen_0_nil (ReadData.data r) Hz), app_nil_r. repeat f_equal. lia. }
  apply runs_pass.
  { apply within_limit_fits; [apply blen_nonneg|done|]. intros l Hl. specialize (Hlim l Hl).
    rewrite Hsp, blen_app in Hlim. fold len in Hlim.
    pose proof (blen_nonneg (slice f (offset + len) (remaining - len))). lia. }
  specialize (Hb ltac:(lia)).
  destruct (ReadData.eof r) eqn:Heof; symmetry in He.
  { apply Z.leb_le in He. apply runs_ret. rewrite (Hse eq_refl).
    destruct (Z.leb_spec (blen f) (offset + remaining)); [|lia]. repeat f_equal. lia. }
  apply Z.leb_gt in He. unfold saturating_sub. rewrite Z.max_l by lia.
  eapply runs_weaken; [apply IH; try (done || lia)|].
  { intros l Hl. specialize (Hlim l Hl). rewrite Hsp, blen_app in Hlim. rewrite blen_app. fold len in Hlim |- *. lia. }
  intros [out' obs'] [= <- <-]. rewrite Hsp, app_assoc. f_equal. unfold observed.
  replace (offset + len + (remaining - len)) with (offset + remaining) by lia.
  destruct (Z.ltb_spec 0 (remaining - len)); cbn [andb];
    destruct (Z.leb_spec (blen f) (offset + remaining)); (done || lia || (f_equal; lia)).
Qed.

Lemma sequential_file fh out0 start total req :
  handle_ok fh → 0 ≤ start → 1 ≤ total → start + total ≤ u64_max → meets out0 start total req →
  runs I (read_handle_to_bytes_sequential_into fh out0 start total req)
    (eq (out0 ++ slice f start total)) none.
Proof.
  intros Hfh Hst Htot Hend [Hexp Hlim]. unfold read_handle_to_bytes_sequential_into.
  apply runs_ask. intros s Hs. destruct (rc_config s Hs) as [_ Hck].
  eapply runs_bind; [apply sequential_loop_file; (done || lia)|]. intros [out' obs] [= <- <-].
  apply runs_pass; [|by apply runs_ret]. unfold validate_optional_observed_eof, observed.
  destruct (ReadRequirements.expected_eof req) as [x|]; [|done]. destruct (Hexp x eq_refl) as [-> ?].
  destruct (Z.ltb_spec 0 total); [|lia]. cbn [andb].
  destruct (Z.leb_spec (blen f) (start + total)); [|lia]. rewrite Z.max_r by lia.
  by rewrite Z.eqb_refl.
Qed.

(** Once a prefix was read, the rest of the range has the same requirements. *)
Lemma meets_after start total req o c r :
  meets [] start total req → serves f o c r → start = o → 0 ≤ o → blen (ReadData.data r) < total →
  ReadData.eof r = false →
  meets (ReadData.data r) (start + blen (ReadData.data r)) (total - blen (ReadData.data r)) req.
Proof using.
  intros [Hexp Hlim] Hr -> Ho Hlt He. pose proof (serves_split _ _ _ total Hr Ho ltac:(lia)) as Hsp.
  destruct Hr as [_ _ _ _ H4]. rewrite He in H4. symmetry in H4. apply Z.leb_gt in H4. split.
  - intros x Hx. destruct (Hexp x Hx). lia.
  - intros l Hl. specialize (Hlim l Hl). rewrite Hsp, blen_app, blen_nil in Hlim. lia.
Qed.

Section one_range.
Context (start total : Z) (req : ReadRequirements.t) (Hst : 0 ≤ start) (Htot : 1 ≤ total)
  (Hend : start + total ≤ u64_max) (Hmeets : meets [] start total req).

(** The first reply fits into the limit. *)
Lemma first_part_fits c r :
  serves f start c r → c ≤ total →
  ensure_buffered_read_within_limit 0 (blen (ReadData.data r)) (ReadRequirements.expected_len req)
    (ReadRequirements.limit req) = Ok tt.
Proof using Hmeets Hst Htot.
  intros Hr Hc. pose proof (sv_len _ _ _ _ Hr). apply within_limit_fits; [done|apply blen_nonneg|].
  intros l Hl. destruct Hmeets as [_ Hlim]. specialize (Hlim l Hl).
  rewrite (serves_split _ _ _ total Hr Hst), blen_app, blen_nil in Hlim by lia.
  pose proof (blen_nonneg (slice f (start + blen (ReadData.data r)) (total - blen (ReadData.data r)))). lia.
Qed.

Lemma expected_eof_fits c r :
  serves f start c r → c ≤ total → ReadData.eof r = true ∨ blen (ReadData.data r) = total →
  validate_optional_expected_eof (ReadRequirements.expected_eof req)
    (start + blen (ReadData.data r)) (ReadData.eof r) = Ok tt ∧ slice f start total = ReadData.data r.
Proof using Hmeets Hst Htot.
  intros Hr Hc Hcase. pose proof (sv_len _ _ _ _ Hr) as Hle. pose proof (sv_eof _ _ _ _ Hr) as He.
  pose proof (blen_nonneg (ReadData.data r)). split.
  - destruct Hmeets as [Hexp _].
    destruct (ReadRequirements.expected_eof req) as [x|]; [|done]. destruct (Hexp x eq_refl) as [Hx Hb].
    cbn. unfold validate_eof_expectation. rewrite Hx.
    pose proof (serves_bound _ _ _ _ Hr Hst).
    destruct (ReadData.eof r); symmetry in He; [apply Z.leb_le in He|apply Z.leb_gt in He].
    + destruct (Z.eqb_spec (start + blen (ReadData.data r)) (blen f)); [done|lia].
    + destruct Hcase; [done|lia].
  - destruct Hcase as [Hcase|Hcase]; [by eapply serves_eof; [done..|lia|]|].
    rewrite (serves_split _ _ _ total Hr Hst) by lia. rewrite Hcase, Z.sub_diag, slice_0. apply app_nil_r.
Qed.

Lemma needs_retry_cases c r :
  serves f start c r → 
  if read_needs_retry r c then ReadData.eof r = false ∧ blen (ReadData.data r) < c
  else ReadData.eof r = true ∨ blen (ReadData.data r) = c.
Proof using.
  intros Hr. pose proof (sv_len _ _ _ _ Hr). unfold read_needs_retry.
  destruct (Z.ltb_spec (blen (ReadData.data r)) c), (ReadData.eof r); cbn; auto. right. lia.
Qed.

Lemma single_chunk_file fh :
  handle_ok fh → total ≤ u32_max →
  runs I (read_handle_single_chunk_or_continue fh start total req) (eq (slice f start total)) none.
Proof.
  intros Hfh H32. unfold read_handle_single_chunk_or_continue.
  eapply runs_bind; [apply rc_read; [done|ulia..]|]. intros r Hr.
  apply runs_pass; [apply (serves_reply start); [done|lia..]|].
  apply runs_pass; [by apply (first_part_fits total)|]. pose proof (needs_retry_cases _ _ Hr) as Hcase.
  destruct (read_needs_retry r total); cbn [negb].
  - destruct Hcase as [He Hlt]. unfold with_capacity, saturating_sub. cbn [app]. rewrite Z.max_l by lia.
    pose proof (blen_nonneg (ReadData.data r)).
    rewrite (serves_split _ _ _ total Hr Hst) by lia.
    apply sequential_file; [done|lia..|]. by eapply meets_after.
  - destruct (expected_eof_fits total r Hr ltac:(lia) Hcase) as [-> ->]. by apply runs_pass, runs_ret.
Qed.

Lemma handle_to_bytes_file fh :
  handle_ok fh → runs I (read_handle_to_bytes order fh start total req) (eq (slice f start total)) none.
Proof.
  intros Hfh. unfold read_handle_to_bytes. destruct (Z.eqb_spec total 0); [lia|].
  apply runs_ask. intros s Hs. destruct (rc_config s Hs) as [Hg Hck].
  apply runs_ask. intros s' Hs'.
  destruct (Z.leb_spec total (ReadService.read_granularity s)).
  { rewrite as_u32_small by ulia. apply single_chunk_file; [done|lia]. }
  unfold with_capacity. destruct (Z.leb_spec (operation_pipeline_depth s') 1);
    [by apply (sequential_file fh [])|by apply (pipelined_file fh [])].
Qed.

Lemma after_prefix_file fh c r :
  handle_ok fh → serves f start c r → blen (ReadData.data r) < total → ReadData.eof r = false →
  runs I (read_handle_to_bytes_after_prefix order fh (ReadData.data r)
    (start + blen (ReadData.data r)) (total - blen (ReadData.data r)) req) (eq (slice f start total)) none.
Proof.
  intros Hfh Hr Hlt He. unfold read_handle_to_bytes_after_prefix, with_capacity. cbn [app].
  pose proof (blen_nonneg (ReadData.data r)). apply runs_ask. intros s Hs. apply runs_ask. intros s' Hs'.
  rewrite (serves_split _ _ _ total Hr Hst) by lia.
  assert (meets (ReadData.data r) (start + blen (ReadData.data r)) (total - blen (ReadData.data r)) req)
    by by eapply meets_after.
  destruct (_ || _); [apply sequential_file|apply pipelined_file]; (done || lia).
Qed.

Lemma range_file p :
  path_ok p → runs I (read_range_anonymous order p start total req) (eq (slice f start total)) none.
Proof.
  intros Hp. unfold read_range_anonymous.
  apply runs_ask. intros s Hs. destruct (rc_config s Hs) as [Hg Hck].
  destruct (Z.leb_spec total (ReadService.read_granularity s)).
  - rewrite as_u32_small by ulia.
    eapply runs_bind; [apply rc_path; [done|ulia..]|]. intros r Hr.
    apply runs_pass; [apply (serves_reply start); [done|lia..]|].
    apply runs_pass; [by apply (first_part_fits total)|]. pose proof (needs_retry_cases _ _ Hr) as Hcase.
    destruct (read_needs_retry r total); cbn [negb].
    + eapply runs_bind; [by apply rc_lookup|]. intros fh Hfh. by apply handle_to_bytes_file.
    + destruct (expected_eof_fits total r Hr ltac:(lia) Hcase) as [-> ->]. by apply runs_pass, runs_ret.
  - set (g := ReadService.read_granularity s) in *.
    eapply runs_bind; [apply rc_path_handle; [done|ulia..]|]. intros [fh r] [Hfh Hr].
    apply runs_pass; [apply (serves_reply start); [done|lia..]|].
    apply runs_pass; [apply (first_part_fits g); [done|lia]|].
    pose proof (sv_len _ _ _ _ Hr). destruct (ReadData.eof r) eqn:He.
    + destruct (expected_eof_fits g r Hr ltac:(lia) ltac:(by left)) as [Hx ->]. rewrite He in Hx.
      by apply runs_pass, runs_ret.
    + by apply (after_prefix_file fh g r); [..|lia|].
Qed.
End one_range.

(** ** The client's operations on a file *)

Lemma runs_exact {A} (m : st S Error.t A) a s :
  runs I m (eq a) none → I s → ∃ s', I s' ∧ m s = (Ok a, s').
Proof using.
  intros Hm Hs. specialize (Hm s Hs). destruct (m s) as [[a'|e|] s']; [|by destruct Hm|done].
  destruct Hm as [? <-]. eauto.
Qed.

Lemma get_file limit p s :
  path_ok p → limit_ok limit → is_u64 (blen f) → I s →
  ∃ s', I s' ∧ get_once order limit p s
    = (match limit with
       | Some l => if blen f <=? l then Ok f else Err (Error.BufferedReadTooLarge (Some (blen f)) l)
       | None => Ok f
       end, s').
Proof.
  intros Hp Hl H64 Hs. unfold get_once. destruct (rc_config s Hs) as [Hg _].
  unfold asks. cbn [sbind]. set (count := small_get_probe_count limit s).
  assert (Hc : 1 ≤ count ≤ u32_max).
  { unfold count, small_get_probe_count. destruct limit as [l|]; [|done].
    destruct (Hl l eq_refl). rewrite as_u32_small by ulia. lia. }
  pose proof (rc_path_size p count Hp ltac:(ulia) s Hs) as Hrun. unfold sbind.
  destruct (ReadService.read_path_anonymous_with_size p count s) as [[[[fh size] r]|e|] s1];
    [|by destruct Hrun|done].
  destruct Hrun as (Hs1 & Hfh & [= <-] & Hr). unfold slift at 1.
  rewrite (serves_reply 0 count r Hr) by lia. unfold slift at 1, ensure_known_size_within_limit.
  assert (Hfits : (∀ l, limit = Some l → blen f ≤ l) → ∃ s', I s' ∧
    (let read_len := blen (ReadData.data r) in
      if read_len =? blen f then
        let! _ := slift (validate_eof_expectation (ExpectedEof.ResolvedWithFile (blen f)) read_len
                    (ReadData.eof r)) in
        sret (ReadData.data r)
      else if blen f <? read_len then
        sfail (size_expectation_error (ExpectedEof.ResolvedWithFile (blen f))
                 (if ReadData.eof r then Some read_len else None))
      else if ReadData.eof r then
        sfail (size_expectation_error (ExpectedEof.ResolvedWithFile (blen f)) (Some read_len))
      else
        read_handle_to_bytes_after_prefix order fh (ReadData.data r) read_len (blen f - read_len)
          (ReadRequirements.resolved_exact (blen f) limit)) s1 = (Ok f, s')).
  { intros Hfits. apply runs_exact; [|done]. cbn zeta.
    pose proof (sv_eof _ _ _ _ Hr) as He. pose proof (serves_bound _ _ _ _ Hr ltac:(done)) as Hb.
    pose proof (blen_nonneg (ReadData.data r)). rewrite Z.add_0_l in He, Hb.
    pose proof (blen_nonneg f). unfold is_u64 in H64.
    pose proof (serves_eof _ _ _ (blen f) Hr ltac:(done)) as Hse. rewrite slice_all in Hse by done.
    destruct (Z.eqb_spec (blen (ReadData.data r)) (blen f)) as [Heq|Hne].
    { apply runs_pass; [|apply runs_ret; apply Hse; [lia|]; rewrite He; apply Z.leb_le; lia].
      unfold validate_eof_expectation. cbn. rewrite He, Heq, Z.leb_refl. by rewrite Z.eqb_refl. }
    destruct (Z.ltb_spec (blen f) (blen (ReadData.data r))); [lia|].
    rewrite He. destruct (Z.leb_spec (blen f) (blen (ReadData.data r))); [lia|].
    pose proof (after_prefix_file 0 (blen f) (ReadRequirements.resolved_exact (blen f) limit)
      ltac:(done) ltac:(lia)) as Hap.
    rewrite slice_all in Hap by done. apply (λ H, Hap H fh count r); try done.
    split; cbn; [intros x [= <-]; cbn; lia|]. intros l ->. rewrite slice_all by done. by apply Hfits. }
  destruct limit as [l|]; [|by apply Hfits].
  destruct (Z.ltb_spec l (blen f)), (Z.leb_spec (blen f) l); try lia; [eauto|].
  apply Hfits. by intros ? [= <-].
Qed.

Lemma get_known_size_file limit p :
  path_ok p → (∀ l, limit = Some l → blen f ≤ l) → is_u64 (blen f) →
  runs I (get_known_size_once order limit p (blen f)) (eq f) none.
Proof.
  intros Hp Hfits H64. unfold get_known_size_once. apply runs_pass.
  { unfold ensure_known_size_within_limit. destruct limit as [l|]; [|done].
    specialize (Hfits l eq_refl). destruct (Z.ltb_spec l (blen f)); [lia|done]. }
  pose proof (blen_nonneg f). unfold is_u64 in H64. destruct (Z.eqb_spec (blen f) 0) as [Hz|].
  - eapply runs_bind; [apply rc_path; [done|ulia..]|]. intros r Hr.
    apply runs_pass; [by apply (serves_reply 0)|]. pose proof (sv_eof _ _ _ _ Hr) as He.
    pose proof (blen_nonneg (ReadData.data r)). pose proof (serves_bound _ _ _ _ Hr ltac:(done)).
    rewrite Z.add_0_l in *. assert (blen (ReadData.data r) = 0) as Hr0 by lia.
    apply runs_pass; [|apply runs_ret; by apply blen_0_nil].
    unfold validate_expected_eof, validate_eof_expectation. cbn. by rewrite He, Hr0, Hz.
  - pose proof (range_file 0 (blen f) (ReadRequirements.exact (blen f) limit)
      ltac:(done) ltac:(lia) ltac:(lia)) as Hap.
    rewrite slice_all in Hap by done. apply Hap; [|done].
    split; cbn; [intros x [= <-]; cbn; lia|]. intros l ->. rewrite slice_all by done. by apply Hfits.
Qed.

Lemma get_range_file limit p start end_ s :
  path_ok p → limit_ok limit → 0 ≤ start → end_ ≤ u64_max → I s →
  let part := slice f start (Z.max 0 (end_ - start)) in
  ∃ s', I s' ∧ get_range order limit p start end_ s
    = (match limit with
       | Some l => if blen part <=? l then Ok part else Err (Error.BufferedReadTooLarge (Some (blen part)) l)
       | None => Ok part
       end, s').
Proof.
  intros Hp Hl Hst Hend Hs part. unfold get_range. destruct (Z.leb_spec end_ start) as [Hle|Hgt].
  { exists s. split; [done|]. unfold part. rewrite Z.max_l by lia. rewrite slice_0.
    destruct limit as [l|]; [|done]. specialize (Hl l eq_refl). rewrite blen_nil.
    destruct (Z.leb_spec 0 l); [done|lia]. }
  unfold part. clear part. rewrite Z.max_r by lia. set (part := slice f start (end_ - start)).
  unfold get_range_once.
  assert (Hpl : blen part = Z.max 0 (Z.min (end_ - start) (blen f - start))) by (apply blen_slice; lia).
  destruct (range_read_needs_size (end_ - start) limit) eqn:Hneed; cbn [negb].
  - destruct limit as [l|]; [|done]. cbn in Hneed. apply Z.ltb_lt in Hneed. specialize (Hl l eq_refl).
    pose proof (rc_attrs p Hp s Hs) as Hrun. unfold sbind.
    destruct (ReadService.lookup_file_handle_attrs p AttrRequest.Size s) as [[[fh attrs]|e|] s1];
      [|by destruct Hrun|done]. destruct Hrun as (Hs1 & Hfh & Hsize).
    rewrite <- Hsize. cbn [buffered_range_len].
    assert (Hn : (if blen f <=? start then 0 else saturating_sub (Z.min end_ (blen f)) start) = blen part).
    { destruct (Z.leb_spec (blen f) start); unfold saturating_sub; lia. }
    rewrite Hn. unfold slift at 1, ensure_known_size_within_limit.
    destruct (Z.ltb_spec l (blen part)), (Z.leb_spec (blen part) l); try lia; [eauto|].
    rewrite Z.min_l by lia. destruct (Z.eqb_spec (blen part) 0) as [Hz|Hnz].
    { exists s1. split; [done|]. by rewrite (blen_0_nil part Hz). }
    apply runs_exact; [|done].
    assert (part = slice f start (blen part)) as Hpart.
    { apply slice_clip; [done|]. rewrite Hpl. lia. }
    eapply runs_weaken; [apply handle_to_bytes_file; [done|lia|lia| |done]|intros bs <-; done].
    split; cbn; [done|]. intros ? [= <-]. rewrite <- Hpart, blen_nil. lia.
  - assert (Hfits : ∀ l, limit = Some l → blen part ≤ l).
    { intros l ->. cbn in Hneed. apply Z.ltb_ge in Hneed. specialize (Hl l eq_refl). lia. }
    assert (∃ s', I s' ∧ read_range_anonymous order p start (end_ - start)
      (ReadRequirements.new (Some (end_ - start)) limit) s = (Ok part, s')) as (s' & ? & ->).
    { apply runs_exact; [|done]. apply range_file; [done|lia|lia| |done].
      split; cbn; [done|]. intros l Hll. rewrite blen_nil. by apply Hfits. }
    exists s'. split; [done|]. destruct limit as [l|]; [|done]. specialize (Hfits l eq_refl).
    by destruct (Z.leb_spec (blen part) l); [|lia].
Qed.
End operations.
End file.

(** ** The two guarantees *)

Lemma contract_weaken {S} (service : ReadService.t S) I X handle_ok path_ok server sizes :
  ReadContract service I X handle_ok path_ok server sizes →
  ReadContract service I any handle_ok path_ok server sizes.
Proof.
  assert (Hw : ∀ {A} (m : st S Error.t A) Q, runs I m Q X → runs I m Q any).
  { intros A m Q Hm s Hs. specialize (Hm s Hs). destruct (m s) as [[a|e|] s']; [done| |done].
    by split; [apply Hm|]. }
  intros [H1 H2 H3 H4 H5 H6 H7]. split; [done|..]; intros; apply Hw; eauto.
Qed.

(** What was received from a server that holds [f] is [f]. *)
Lemma received_file f bs :
  received (serves f) 0 bs → ends_at (serves f) (blen bs) → bs = f.
Proof.
  intros Hrec (o & c & r & Hr & He & Hend).
  pose proof (sv_eof _ _ _ _ Hr) as Hf. rewrite He in Hf. symmetry in Hf. apply Z.leb_le in Hf.
  assert (Hlook : ∀ i b, bs !! i = Some b → f !! i = Some b).
  { intros i b Hi. destruct (Hrec i b Hi) as (o' & c' & r' & j & [Ho Hd _ _ _] & Hj & Hx).
    rewrite Hd in Hj. unfold slice in Hj. apply lookup_take_Some in Hj as [Hj _].
    rewrite lookup_drop in Hj. rewrite <- Hj. f_equal. lia. }
  apply list_eq. intros i. destruct (bs !! i) as [b|] eqn:Hi.
  - symmetry. by apply Hlook.
  - apply lookup_ge_None in Hi. symmetry. apply lookup_ge_None. unfold blen in *. lia.
Qed.

(** Reads return what was received.  Whatever the server answers and in
    whatever order the reads in flight complete, a read returns; if it
    succeeds, every byte it returns was received for its position, and nothing
    is missing: [get] returns as many bytes as the size the server reported,
    [get_known_size] as many as the caller expected, each with the end of the
    file reported right behind them, and [get_range] stops before the end of
    its range only at an end or a size of the file that the server reported.
    Nothing larger than the limit is returned. *)
Theorem reads_return_received {S} (service : ReadService.t S) order I handle_ok path_ok server sizes
    `{!ReadContract service I any handle_ok path_ok server sizes} limit p :
  path_ok p → limit_ok limit → (∀ size, sizes (Some size) → is_u64 size) →
  runs I (get_once order limit p) (λ bs, ∃ size, sizes (Some size) ∧ whole server size limit bs) any
  ∧ (∀ size, is_u64 size →
       runs I (get_known_size_once order limit p size) (whole server size limit) any)
  ∧ (∀ start end_, 0 ≤ start → end_ ≤ u64_max →
       runs I (get_range order limit p start end_)
         (λ bs, received server start bs ∧ blen bs ≤ Z.max 0 (end_ - start)
            ∧ (∀ l, limit = Some l → blen bs ≤ l)
            ∧ (blen bs = Z.max 0 (end_ - start) ∨ ends_at server (start + blen bs)
               ∨ ∃ size, sizes (Some size) ∧ start + blen bs = Z.max start size)) any).
Proof.
  intros Hp Hl Hs. split_and!.
  - by eapply get_sound.
  - intros size H64. by eapply get_known_size_sound.
  - intros start end_ Hst Hend. by eapply get_range_sound.
Qed.

(** C5: Reads return the file.  From a server that holds a file and answers
    READ as NFSv4.1 says, with replies as short as it likes and completing in
    any order, [get] returns the file or refuses it as larger than the limit;
    [get_known_size] returns the file exactly when the size is right, and
    never any bytes when it is stale; [get_range] returns that part of the
    file, up to its end, or refuses it as larger than the limit. *)
Theorem reads_return_file {S} (service : ReadService.t S) order I handle_ok path_ok f
    `{!ReadContract service I none handle_ok path_ok (serves f) (eq (Some (blen f)))} limit p s :
  path_ok p → limit_ok limit → is_u64 (blen f) → I s →
  (∃ s', I s' ∧ get_once order limit p s
     = (match limit with
        | Some l => if blen f <=? l then Ok f else Err (Error.BufferedReadTooLarge (Some (blen f)) l)
        | None => Ok f
        end, s'))
  ∧ (∀ size, is_u64 size →
       match get_known_size_once order limit p size s with
       | (Ok bs, s') => I s' ∧ size = blen f ∧ bs = f
       | (Err _, s') => I s' ∧ (size ≠ blen f ∨ ∃ l, limit = Some l ∧ l < size)
       | (Panic, _) => False
       end)
  ∧ (∀ start end_, 0 ≤ start → end_ ≤ u64_max →
       let part := slice f start (Z.max 0 (end_ - start)) in
       ∃ s', I s' ∧ get_range order limit p start end_ s
         = (match limit with
            | Some l => if blen part <=? l then Ok part
                        else Err (Error.BufferedReadTooLarge (Some (blen part)) l)
            | None => Ok part
            end, s')).
Proof.
  intros Hp Hl H64 Hs. split_and!.
  - by eapply get_file.
  - intros size Hsz. pose proof (contract_weaken _ _ _ _ _ _ _ ReadContract0) as Hany.
    pose proof (get_known_size_sound order I handle_ok path_ok (serves f) (eq (Some (blen f)))
      limit p size Hp Hl Hsz s Hs) as Hsound.
    destruct (get_known_size_once order limit p size s) as [[bs|e|] s'] eqn:Hrun; [..|done].
    + destruct Hsound as (Hs' & Hlen & Hrec & Hends & _). split; [done|]. subst size.
      rewrite (received_file f bs Hrec Hends). done.
    + destruct Hsound as [Hs' _]. split; [done|].
      destruct (decide (size = blen f)) as [->|]; [right|by left].
      assert (Hcase : (∀ l, limit = Some l → blen f ≤ l) ∨ ∃ l, limit = Some l ∧ l < blen f).
      { destruct limit as [l|]; [|by left]. destruct (Z.le_gt_cases (blen f) l); [left|right; eauto].
        by intros ? [= <-]. }
      destruct Hcase as [Hfits|]; [|done].
      pose proof (get_known_size_file f order I handle_ok path_ok limit p Hp Hfits H64 s Hs) as Hfile.
      rewrite Hrun in Hfile. by destruct Hfile.
  - intros start end_ Hst Hend. by eapply get_range_file.
Qed.

(** C14: The pipeline is an optimisation only.  On a server that holds a file,
    reading a range with several requests in flight returns the same bytes, for
    every order of completion, as reading it chunk by chunk. *)
Theorem pipelined_equals_sequential {S} (service : ReadService.t S) order I handle_ok path_ok f
    `{!ReadContract service I none handle_ok path_ok (serves f) (eq (Some (blen f)))}
    fh out start total req s :
  handle_ok fh → 0 ≤ start → 1 ≤ total → start + total ≤ u64_max → meets f out start total req → I s →
  (read_handle_to_bytes_pipelined_into order fh out start total req s).1
  = (read_handle_to_bytes_sequential_into fh out start total req s).1.
Proof.
  intros Hfh Hst Htot Hend Hm Hs.
  destruct (runs_exact I _ _ s (pipelined_file f order I handle_ok path_ok fh out start total req
    Hfh Hst Htot Hend Hm) Hs) as (s1 & _ & ->).
  destruct (runs_exact I _ _ s (sequential_file f I handle_ok path_ok fh out start total req
    Hfh Hst Htot Hend Hm) Hs) as (s2 & _ & ->).
  done.
Qed.

(** ** A server that dribbles

    It holds a file and answers every other read with one byte, the rest with
    two; its state counts the reads. *)

Section dribble.
Context (f : bytes).

Definition dribbled (o c : Z) (n : nat) : ReadData.t :=
  let data := slice f o (Z.min c (if Nat.even n then 1 else 2)) in
  ReadData.mk (blen f <=? o + blen data) data.

Definition dribble : ReadService.t nat := {|
  ReadService.read_anonymous _ o c := λ n, (Ok (dribbled o c n), Datatypes.S n);
  ReadService.read_path_anonymous _ o c := λ n, (Ok (dribbled o c n), Datatypes.S n);
  ReadService.read_path_anonymous_with_handle _ o c :=
    λ n, (Ok ([1], dribbled o c n), Datatypes.S n);
  ReadService.read_path_anonymous_with_size _ c :=
    λ n, (Ok ([1], blen f, dribbled 0 c n), Datatypes.S n);
  ReadService.lookup_file_handle _ := λ n, (Ok [1], n);
  ReadService.lookup_file_handle_attrs _ _ :=
    λ n, (Ok ([1], FileAttrs.mk None (Some (blen f))), n);
  ReadService.read_granularity _ := 3;
  ReadService.read_chunk_size _ := 5;
  ReadService.session_slot_count _ := 4;
|}.

Lemma dribbled_serves o c n : is_u64 o → is_u32 c → serves f o c (dribbled o c n).
Proof.
  intros Ho Hc. unfold_widths. set (k := Z.min c (if Nat.even n then 1 else 2)).
  assert (Hk : 0 ≤ k ≤ c ∧ (1 ≤ c → 1 ≤ k)) by (unfold k; destruct (Nat.even n); lia).
  assert (Hlen : blen (ReadData.data (dribbled o c n)) = Z.max 0 (Z.min k (blen f - o)))
    by (apply blen_slice; lia).
  split; rewrite ?Hlen; [lia| |lia..|].
  - cbn. fold k. apply slice_clip; [lia|]. lia.
  - unfold dribbled. cbn [ReadData.eof]. fold k. rewrite blen_slice by lia. done.
Qed.

#[export] Instance dribble_contract X :
  ReadContract dribble any X any any (serves f) (eq (Some (blen f))).
Proof.
  split; [done|..]; intros; intros n _; cbn; split_and!; try done; try by apply dribbled_serves.
Qed.
End dribble.

Definition sample_file : bytes := seqZ 10 20.
Definition sample_order (n : nat) : nat := n * n + 1.

Lemma reads_return_received_witness :
  runs any (get_once (service := dribble sample_file) sample_order (Some 20) [])
    (λ bs, ∃ size, Some 20 = Some size ∧ whole (serves sample_file) size (Some 20) bs) any
  ∧ get_once (service := dribble sample_file) sample_order (Some 20) [] 0%nat = (Ok sample_file, 16%nat).
Proof.
  split; [|by vm_compute].
  apply (reads_return_received (dribble sample_file) sample_order any any any (serves sample_file)
    (eq (Some (blen sample_file))) (Some 20) []); [done|by intros ? [= <-]|].
  intros ? [= <-]. split; vm_compute; congruence.
Defined.

Lemma reads_return_file_witness :
  ∃ s', get_range (service := dribble sample_file) sample_order None [] 3 12 0%nat
        = (Ok [13; 14; 15; 16; 17; 18; 19; 20; 21], s').
Proof.
  destruct (reads_return_file (dribble sample_file) sample_order any any any sample_file None []
    0%nat) as (_ & _ & Hrange); [done|done|split; vm_compute; congruence|done|].
  destruct (Hrange 3 12 ltac:(lia) ltac:(done)) as (s' & _ & Hs'). exists s'. exact Hs'.
Defined.

Lemma pipelined_equals_sequential_witness :
  (read_handle_to_bytes_pipelined_into (service := dribble sample_file) sample_order [1] [] 2 9
     (ReadRequirements.new None None) 0%nat).1
  = (read_handle_to_bytes_sequential_into (service := dribble sample_file) [1] [] 2 9
     (ReadRequirements.new None None) 0%nat).1.
Proof.
  apply (pipelined_equals_sequential (dribble sample_file) sample_order any any any sample_file);
    [done|lia|lia|done|split; cbn; congruence|done].
Defined.
