(* ===== verification/Writes.v ===== *)
(** * Writing a file's data (src/client.rs, [write_bytes] and below)

    The body of a put is written to an open temporary file: in one WRITE that
    is committed at once, in a sequential loop, or with several WRITEs in
    flight.  The server may accept fewer bytes than it was given, and may keep
    them unstable until a COMMIT that carries the same write verifier.

    As for the reads, the session appears through the operations of
    [WriteService] and the order of completion is the argument [order]. *)

From S2P Require Import Prelude Proto Errors Path Xdr Ops Rpc Compound Reply Replies Slots Owner Session Reads ReadPipeline.

Module WriteService.
Class t (S : Type) : Type := mk {
  write : OpenedFile.t → Z → bytes → st S Error.t WriteData.t;
  write_and_commit : OpenedFile.t → Z → bytes → st S Error.t (WriteData.t * bytes);
  write_chunk_size : S → Z;
  pipeline_write_chunks : S → bool;
  session_slot_count : S → Z;
}.
End WriteService.

#[export] Instance session_writes (call : list Request.t → RpcPayload.t → res Error.t bytes)
    (ulid : nat → bytes) : WriteService.t NfsSession.t := {|
  WriteService.write := Session.write call ulid;
  WriteService.write_and_commit := Session.write_and_commit call ulid;
  WriteService.write_chunk_size s := NfsConfig.write_chunk_size (NfsSession.config s);
  WriteService.pipeline_write_chunks s := NfsConfig.pipeline_write_chunks (NfsSession.config s);
  WriteService.session_slot_count := Session.session_slot_count;
|}.

Definition validate_write_reply (write : WriteData.t) (requested_len : Z) : res Error.t Z :=
  let written := WriteData.count write in
  if written =? 0 then Err (Error.protocol "NFS WRITE made no progress")
  else if requested_len <? written then
    Err (Error.protocol "NFS WRITE reported {} bytes for a {} byte request")
  else Ok written.

Module WriteOutcome.
Record t : Type := mk { bytes_written : Z; unstable_verifier : option bytes }.

Definition default : t := mk 0 None.

Definition from_write (write : WriteData.t) (bytes_written : Z) : t :=
  mk bytes_written
     (if WriteData.requires_commit write then Some (WriteData.verifier write) else None).

Definition record_unstable (verifier : bytes) : st t Error.t unit := λ w,
  match unstable_verifier w with
  | Some existing => (ensure_write_verifier existing verifier, w)
  | None => (Ok tt, mk (bytes_written w) (Some verifier))
  end.

Definition merge (other : t) : st t Error.t unit := λ w,
  let w := mk (bytes_written w + bytes_written other) (unstable_verifier w) in
  match unstable_verifier other with
  | Some verifier => record_unstable verifier w
  | None => (Ok tt, w)
  end.
End WriteOutcome.

(** [outcome.merge(other)?], with the outcome a local variable. *)
Definition merged {S} (w other : WriteOutcome.t) : st S Error.t WriteOutcome.t :=
  match WriteOutcome.merge other w with
  | (Ok _, w) => sret w
  | (Err err, _) => sfail err
  | (Panic, _) => spanic
  end.

(** [Bytes::slice], which panics outside the buffer. *)
Definition bytes_slice {S} (b : bytes) (start end_ : Z) : st S Error.t bytes :=
  if (0 <=? start) && (start <=? end_) && (end_ <=? blen b)
  then sret (take (Z.to_nat (end_ - start)) (drop (Z.to_nat start) b))
  else spanic.

(** The pipeline's state: the next chunk, the writes in flight as ranges of
    the body, what was written, the first error. *)
Module WritePipeline.
Record t : Type := mk {
  next_offset : Z;
  writes : list (Z * Z);
  outcome : WriteOutcome.t;
  first_error : option Error.t;
}.
End WritePipeline.

(** [while first_error.is_none() && writes.len() < depth && next_offset < body_len] *)
Fixpoint schedule_writes (room : nat) (max_write_size body_len : Z) (p : WritePipeline.t)
  : WritePipeline.t :=
  match room with
  | O => p
  | Datatypes.S room =>
      match WritePipeline.first_error p with
      | Some _ => p
      | None =>
          if WritePipeline.next_offset p <? body_len then
            let start := WritePipeline.next_offset p in
            let end_ := Z.min (start + max_write_size) body_len in
            schedule_writes room max_write_size body_len
              (WritePipeline.mk end_ (WritePipeline.writes p ++ [(start, end_ - start)])
                 (WritePipeline.outcome p) None)
          else p
      end
  end.

(** What the loop does with a write that completed. *)
Definition complete_write (rest : list (Z * Z)) (result : Error.t + WriteOutcome.t)
    (p : WritePipeline.t) : WritePipeline.t :=
  let keep err := match WritePipeline.first_error p with Some e => Some e | None => Some err end in
  match result with
  | inr written =>
      match WriteOutcome.merge written (WritePipeline.outcome p) with
      | (Err err, outcome) => WritePipeline.mk (WritePipeline.next_offset p) rest outcome (keep err)
      | (_, outcome) =>
          WritePipeline.mk (WritePipeline.next_offset p) rest outcome (WritePipeline.first_error p)
      end
  | inl err => WritePipeline.mk (WritePipeline.next_offset p) rest (WritePipeline.outcome p) (keep err)
  end.

Section writes.
Context {S : Type} {service : WriteService.t S} (order : nat → nat).

Definition asks_write {A} (f : S → A) : st S Error.t A := λ s, (Ok (f s), s).

(** Every turn writes at least one byte. *)
Fixpoint single_chunk_loop (fuel : nat) (opened : OpenedFile.t) (offset : Z) (chunk : bytes)
    (written_total : Z) : st S Error.t WriteOutcome.t :=
  if written_total <? blen chunk then
    match fuel with
    | O => spanic
    | Datatypes.S fuel =>
        let! remaining := bytes_slice chunk written_total (blen chunk) in
        let! (write, commit_verifier) := WriteService.write_and_commit opened offset remaining in
        let! written := slift (validate_write_reply write (blen remaining)) in
        let! _ := if WriteData.requires_commit write
                  then slift (ensure_write_verifier (WriteData.verifier write) commit_verifier)
                  else sret tt in
        single_chunk_loop fuel opened (offset + written) chunk (written_total + written)
    end
  else sret (WriteOutcome.mk written_total None).

Definition write_single_chunk_committed (opened : OpenedFile.t) (offset : Z) (chunk : bytes)
  : st S Error.t WriteOutcome.t :=
  single_chunk_loop (length chunk) opened offset chunk 0.

Fixpoint write_chunk_loop (fuel : nat) (opened : OpenedFile.t) (max_write_size offset : Z)
    (chunk : bytes) (written_total : Z) (outcome : WriteOutcome.t) : st S Error.t WriteOutcome.t :=
  if written_total <? blen chunk then
    match fuel with
    | O => spanic
    | Datatypes.S fuel =>
        let end_ := Z.min (written_total + max_write_size) (blen chunk) in
        let! remaining := bytes_slice chunk written_total end_ in
        let! write := WriteService.write opened offset remaining in
        let! written := slift (validate_write_reply write (blen remaining)) in
        let! outcome := merged outcome (WriteOutcome.from_write write written) in
        write_chunk_loop fuel opened max_write_size (offset + written) chunk
          (written_total + written) outcome
    end
  else sret outcome.

Definition write_chunk_all (opened : OpenedFile.t) (offset : Z) (chunk : bytes)
  : st S Error.t WriteOutcome.t :=
  let! max_write_size := asks_write WriteService.write_chunk_size in
  write_chunk_loop (length chunk) opened max_write_size offset chunk 0 WriteOutcome.default.

Definition write_chunk (opened : OpenedFile.t) (offset : Z) (chunk : bytes)
  : st S Error.t WriteOutcome.t :=
  let chunk_len := blen chunk in
  let! write := WriteService.write opened offset chunk in
  let! written := slift (validate_write_reply write chunk_len) in
  let outcome := WriteOutcome.from_write write written in
  if written =? chunk_len then sret outcome
  else
    let! slice := bytes_slice chunk written chunk_len in
    let! rest := write_chunk_all opened (offset + written) slice in
    merged outcome rest.

Fixpoint write_pipelined_loop (fuel turn : nat) (opened : OpenedFile.t) (body : bytes)
    (depth max_write_size : Z) (p : WritePipeline.t) : st S Error.t WriteOutcome.t := λ s,
  let p := schedule_writes (Z.to_nat (depth - blen (WritePipeline.writes p))) max_write_size
             (blen body) p in
  match next_completion (order turn) (WritePipeline.writes p) with
  | None =>
      match WritePipeline.first_error p with
      | Some err => (Err err, s)
      | None => (Ok (WritePipeline.outcome p), s)
      end
  | Some (start, len, rest) =>
      match fuel with
      | O => (Panic, s)
      | Datatypes.S fuel =>
          match (let! chunk := bytes_slice body start (start + len) in
                 write_chunk opened start chunk) s with
          | (Ok written, s) =>
              write_pipelined_loop fuel (Datatypes.S turn) opened body depth max_write_size
                (complete_write rest (inr written) p) s
          | (Err err, s) =>
              write_pipelined_loop fuel (Datatypes.S turn) opened body depth max_write_size
                (complete_write rest (inl err) p) s
          | (Panic, s) => (Panic, s)
          end
      end
  end.

(** A turn ends one of the chunks the body is cut into. *)
Definition write_chunk_all_pipelined (opened : OpenedFile.t) (body : bytes) (depth : Z)
  : st S Error.t WriteOutcome.t :=
  let! max_write_size := asks_write WriteService.write_chunk_size in
  write_pipelined_loop (length body) 0 opened body depth max_write_size
    (WritePipeline.mk 0 [] WriteOutcome.default None).

Definition write_bytes (opened : OpenedFile.t) (body : bytes) : st S Error.t WriteOutcome.t :=
  let body_len := blen body in
  let! write_chunk_size := asks_write WriteService.write_chunk_size in
  if body_len =? 0 then sret WriteOutcome.default
  else if body_len <=? write_chunk_size then write_single_chunk_committed opened 0 body
  else
    let! depth := asks_write (λ s, if WriteService.pipeline_write_chunks s
                       then operation_pipeline_depth_for_slots (WriteService.session_slot_count s)
                       else 1) in
    if depth <=? 1 then write_chunk_all opened 0 body
    else write_chunk_all_pipelined opened body depth.
End writes.
