(* ===== verification/WritesFacts.v ===== *)
(** * A written body is complete and durable

    Whatever the server accepts of each WRITE and in whatever order the WRITEs
    complete, [write_bytes] reports success only when every byte of the body
    was accepted for its offset exactly once, and the verifier it hands on
    covers everything the server has not committed yet. *)

From S2P Require Import Prelude Proto Errors Path Xdr Ops Rpc Compound Reply Replies Slots Owner Session Reads ReadPipeline ReadsFacts Writes.

(** An accepted WRITE: its arguments, the verifier of the COMMIT that came
    with it, and the result. *)
Module Ack.
Record t : Type := mk {
  offset : Z;
  data : bytes;
  commit : option bytes;
  reply : WriteData.t;
}.
End Ack.

(** What the session promises: [replies o d cv w] says that the server may
    answer a WRITE of [d] at [o], with a COMMIT that returns [cv], by [w]. *)
Class WriteContract {S : Type} (service : WriteService.t S) (I : S → Prop) (X : Error.t → Prop)
    (opened : OpenedFile.t) (replies : Z → bytes → option bytes → WriteData.t → Prop) : Prop := {
  wc_config s : I s → 1 ≤ WriteService.write_chunk_size s ≤ u32_max;
  wc_write o d : is_u64 o → 1 ≤ blen d ≤ u32_max →
    runs I (WriteService.write opened o d) (λ w, 0 ≤ WriteData.count w ∧ replies o d None w) X;
  wc_commit o d : is_u64 o → 1 ≤ blen d ≤ u32_max →
    runs I (WriteService.write_and_commit opened o d)
      (λ '(w, cv), 0 ≤ WriteData.count w ∧ replies o d (Some cv) w) X;
}.

Section writes.
Context {S : Type} {service : WriteService.t S} (order : nat → nat) (I : S → Prop) (X : Error.t → Prop)
  (opened : OpenedFile.t) (replies : Z → bytes → option bytes → WriteData.t → Prop)
  `{!WriteContract service I X opened replies}.
Context (body : bytes) (Hbody : blen body ≤ u64_max).

(** A server that makes progress and keeps one write verifier [v]. *)
Definition calm (v : bytes) : Prop :=
  ∀ o d cv w, replies o d cv w → 1 ≤ WriteData.count w ≤ blen d
    ∧ (WriteData.requires_commit w = true → WriteData.verifier w = v ∧ ∀ c, cv = Some c → c = v).

(** The errors that can come up: the session's, and those of a server that is
    not calm. *)
Definition trouble (e : Error.t) : Prop := X e ∨ ∀ v, ¬ calm v.

Definition accepted (a : Ack.t) : Prop :=
  replies (Ack.offset a) (Ack.data a) (Ack.commit a) (Ack.reply a)
  ∧ 1 ≤ WriteData.count (Ack.reply a) ≤ blen (Ack.data a)
  ∧ Ack.data a = slice body (Ack.offset a) (blen (Ack.data a)).

Definition range_of (a : Ack.t) : Z * Z := (Ack.offset a, WriteData.count (Ack.reply a)).

(** The verifier [u] covers what was accepted and not committed. *)
Definition covered_by (u : option bytes) (a : Ack.t) : Prop :=
  WriteData.requires_commit (Ack.reply a) = true →
  Ack.commit a = Some (WriteData.verifier (Ack.reply a)) ∨ u = Some (WriteData.verifier (Ack.reply a)).

Record written (acks : list Ack.t) (u : option bytes) : Prop := {
  wr_accepted : Forall accepted acks;
  wr_durable : Forall (covered_by u) acks;
  wr_origin : ∀ v, u = Some v → ∃ a, a ∈ acks ∧ WriteData.requires_commit (Ack.reply a) = true
    ∧ WriteData.verifier (Ack.reply a) = v;
}.

Lemma written_nil : written [] None.
Proof using. by split. Qed.

Lemma covered_weaken u a : covered_by None a → covered_by u a.
Proof using. intros H Hr. destruct (H Hr) as [|]; [by left|done]. Qed.

(** Two parts together: one verifier, or the server was not calm. *)
Lemma written_merge acks1 acks2 w1 w2 :
  written acks1 (WriteOutcome.unstable_verifier w1) →
  written acks2 (WriteOutcome.unstable_verifier w2) →
  match WriteOutcome.merge w2 w1 with
  | (Ok _, w) => written (acks1 ++ acks2) (WriteOutcome.unstable_verifier w)
      ∧ WriteOutcome.bytes_written w = WriteOutcome.bytes_written w1 + WriteOutcome.bytes_written w2
  | (Err _, _) => ∀ v, ¬ calm v
  | (Panic, _) => False
  end.
Proof using.
  intros [A1 D1 O1] [A2 D2 O2]. unfold WriteOutcome.merge, WriteOutcome.record_unstable.
  destruct (WriteOutcome.unstable_verifier w2) as [v2|] eqn:E2; cbn [WriteOutcome.unstable_verifier].
  - destruct (WriteOutcome.unstable_verifier w1) as [v1|] eqn:E1.
    + unfold ensure_write_verifier. case_bool_decide as Hv.
      * subst v2. split; [|done]. cbn [WriteOutcome.unstable_verifier].
        split; [by apply Forall_app; split..|].
        intros v Hvv. destruct (O1 v Hvv) as (a & Ha & ?). exists a. split; [apply elem_of_app; auto|done].
      * intros v Hc. destruct (O1 v1 eq_refl) as (a1 & Ha1 & R1 & V1).
        destruct (O2 v2 eq_refl) as (a2 & Ha2 & R2 & V2).
        destruct (proj1 (Forall_forall _ _) A1 a1 Ha1) as (P1 & _).
        destruct (proj1 (Forall_forall _ _) A2 a2 Ha2) as (P2 & _).
        destruct (Hc _ _ _ _ P1) as [_ Q1]. destruct (Hc _ _ _ _ P2) as [_ Q2].
        destruct (Q1 R1), (Q2 R2). congruence.
    + split; [|done]. cbn. split; [by apply Forall_app; split| |].
      * apply Forall_app. split; [|done]. eapply Forall_impl; [exact D1|]. intros a. apply covered_weaken.
      * intros v Hvv. destruct (O2 v Hvv) as (a & Ha & ?). exists a. split; [apply elem_of_app; auto|done].
  - split; [|done]. cbn. split; [by apply Forall_app; split| |].
    + apply Forall_app. split; [done|]. eapply Forall_impl; [exact D2|]. intros a. apply covered_weaken.
    + intros v Hvv. destruct (O1 v Hvv) as (a & Ha & ?). exists a. split; [apply elem_of_app; auto|done].
Qed.

Lemma merged_spec acks1 acks2 w1 w2 :
  written acks1 (WriteOutcome.unstable_verifier w1) →
  written acks2 (WriteOutcome.unstable_verifier w2) →
  runs I (merged w1 w2) (λ w, written (acks1 ++ acks2) (WriteOutcome.unstable_verifier w)
    ∧ WriteOutcome.bytes_written w = WriteOutcome.bytes_written w1 + WriteOutcome.bytes_written w2) trouble.
Proof using.
  intros H1 H2. unfold merged. pose proof (written_merge _ _ _ _ H1 H2) as Hm.
  destruct (WriteOutcome.merge w2 w1) as [[[]|err|] w]; [by apply runs_ret|apply runs_fail; by right|done].
Qed.

Lemma validate_write_reply_spec o d cv w :
  replies o d cv w → 0 ≤ WriteData.count w →
  runs I (slift (validate_write_reply w (blen d)))
    (λ n, n = WriteData.count w ∧ 1 ≤ n ≤ blen d) trouble.
Proof using.
  intros Hr H0. apply runs_lift. unfold validate_write_reply.
  destruct (Z.eqb_spec (WriteData.count w) 0) as [Hz|].
  { right. intros v Hc. destruct (Hc _ _ _ _ Hr). lia. }
  destruct (Z.ltb_spec (blen d) (WriteData.count w)); [|split; [done|lia]].
  right. intros v Hc. destruct (Hc _ _ _ _ Hr). lia.
Qed.

(** A WRITE that was accepted. *)
Lemma written_one o d w :
  replies o d None w → 1 ≤ WriteData.count w ≤ blen d → d = slice body o (blen d) →
  written [Ack.mk o d None w]
    (WriteOutcome.unstable_verifier (WriteOutcome.from_write w (WriteData.count w))).
Proof using.
  intros Hr Hn Hd. unfold WriteOutcome.from_write. cbn [WriteOutcome.unstable_verifier].
  split; [constructor; [by split; [|split]|constructor]|constructor; [|constructor]|].
  - intros Hc. right. cbn [Ack.reply] in *. by rewrite Hc.
  - intros v Hv. exists (Ack.mk o d None w). split; [apply list_elem_of_here|]. cbn [Ack.reply].
    by destruct (WriteData.requires_commit w); simplify_eq.
Qed.

Lemma bytes_slice_spec chunk o a e :
  0 ≤ o → chunk = slice body o (blen chunk) → 0 ≤ a ≤ e → e ≤ blen chunk →
  runs I (bytes_slice chunk a e) (λ d, d = slice body (o + a) (blen d) ∧ blen d = e - a) trouble.
Proof using.
  intros Ho Hch Ha He. unfold bytes_slice.
  destruct (Z.leb_spec 0 a), (Z.leb_spec a e), (Z.leb_spec e (blen chunk)); try lia. cbn [andb].
  apply runs_ret. set (d := take _ _).
  assert (Hlen : blen d = e - a) by (unfold d, blen in *; rewrite length_take, length_drop; lia).
  split; [|done]. rewrite Hlen. unfold d. rewrite Hch at 1. unfold slice.
  rewrite skipn_firstn_comm, drop_drop, take_take. repeat (f_equal; try lia).
Qed.

(** [n] bytes at [o] are written: each of them once. *)
Definition wrote (o n : Z) (w : WriteOutcome.t) : Prop :=
  ∃ acks, written acks (WriteOutcome.unstable_verifier w)
    ∧ (∀ x, cover x (range_of <$> acks) = covers x (o, n)) ∧ WriteOutcome.bytes_written w = n.

Lemma runs_trouble {A} (m : st S Error.t A) Q : runs I m Q X → runs I m Q trouble.
Proof using.
  intros Hm s Hs. specialize (Hm s Hs). destruct (m s) as [[a|e|] s']; [done| |done].
  destruct Hm. split; [done|by left].
Qed.

Lemma write_chunk_loop_spec fuel max o chunk done_ acks w :
  1 ≤ max ≤ u32_max → 0 ≤ o → chunk = slice body o (blen chunk) → o + blen chunk ≤ u64_max →
  0 ≤ done_ ≤ blen chunk → blen chunk - done_ ≤ Z.of_nat fuel →
  written acks (WriteOutcome.unstable_verifier w) →
  (∀ x, cover x (range_of <$> acks) = covers x (o, done_)) → WriteOutcome.bytes_written w = done_ →
  runs I (write_chunk_loop fuel opened max (o + done_) chunk done_ w) (wrote o (blen chunk)) trouble.
Proof.
  intros Hmax Ho Hch Hend. revert done_ acks w.
  induction fuel as [|fuel IH]; intros done_ acks w Hd Hf Hw Hc Hb; cbn [write_chunk_loop];
    (destruct (Z.ltb_spec done_ (blen chunk)); [|apply runs_ret; exists acks;
       replace (blen chunk) with done_ by lia; done]); [lia|].
  set (e := Z.min (done_ + max) (blen chunk)).
  eapply runs_bind; [apply (bytes_slice_spec chunk o done_ e); (done || lia)|].
  intros d [Hds Hdl]. eapply runs_bind; [apply runs_trouble, wc_write; unfold_widths; lia|].
  intros reply [Hr0 Hr]. eapply runs_bind; [by eapply validate_write_reply_spec|]. intros n [-> Hn].
  pose proof (written_one (o + done_) d reply Hr Hn Hds) as Hone.
  eapply runs_bind; [by eapply merged_spec|]. intros w' [Hw' Hb'].
  cbn [WriteOutcome.bytes_written WriteOutcome.from_write] in Hb'. rewrite <- Z.add_assoc.
  eapply IH; [lia|lia|exact Hw'| |lia].
  intros x. rewrite fmap_app, cover_app, Hc. cbn [fmap list_fmap]. unfold range_of. cbn [Ack.offset Ack.reply].
  change (cover x [?r]) with (covers x r + 0). solve_cover.
Qed.

Lemma write_chunk_all_spec o chunk :
  0 ≤ o → chunk = slice body o (blen chunk) → o + blen chunk ≤ u64_max →
  runs I (write_chunk_all opened o chunk) (wrote o (blen chunk)) trouble.
Proof.
  intros Ho Hch Hend. unfold write_chunk_all. apply runs_ask. intros s Hs.
  pose proof (wc_config s Hs) as Hmax. pose proof (blen_nonneg chunk). rewrite <- (Z.add_0_r o) at 1.
  eapply (write_chunk_loop_spec _ _ _ _ 0 []); try (done || lia).
  - unfold blen. lia.
  - intros x. change (cover x _) with 0. solve_cover.
Qed.

Lemma write_chunk_spec o chunk :
  0 ≤ o → chunk = slice body o (blen chunk) → o + blen chunk ≤ u64_max → 1 ≤ blen chunk ≤ u32_max →
  runs I (write_chunk opened o chunk) (wrote o (blen chunk)) trouble.
Proof.
  intros Ho Hch Hend Hlen. unfold write_chunk.
  eapply runs_bind; [apply runs_trouble, wc_write; unfold_widths; lia|].
  intros reply [Hr0 Hr]. eapply runs_bind; [by eapply validate_write_reply_spec|]. intros n [-> Hn].
  pose proof (written_one o chunk reply Hr Hn Hch) as Hone.
  assert (Hcov : ∀ x, cover x (range_of <$> [Ack.mk o chunk None reply]) = covers x (o, WriteData.count reply)).
  { intros x. cbn [fmap list_fmap]. unfold range_of. cbn [Ack.offset Ack.reply].
    change (cover x [?r]) with (covers x r + 0). lia. }
  destruct (Z.eqb_spec (WriteData.count reply) (blen chunk)) as [Heq|Hne].
  { apply runs_ret. exists [Ack.mk o chunk None reply]. rewrite <- Heq. done. }
  eapply runs_bind; [apply (bytes_slice_spec chunk o (WriteData.count reply) (blen chunk)); (done || lia)|].
  intros d [Hds Hdl]. eapply runs_bind; [apply write_chunk_all_spec; (done || lia)|].
  intros w (acks & Hw & Hc & Hb). eapply runs_weaken; [by eapply merged_spec|].
  intros w' [Hw' Hb']. eexists. split; [exact Hw'|]. split.
  - intros x. rewrite fmap_app, cover_app, Hcov, Hc, Hdl. solve_cover.
  - rewrite Hb', Hb, Hdl. cbn [WriteOutcome.bytes_written WriteOutcome.from_write]. lia.
Qed.

(** ** One chunk, committed at once *)

Lemma single_chunk_spec fuel chunk done_ acks :
  chunk = slice body 0 (blen chunk) → blen chunk ≤ u32_max → 0 ≤ done_ ≤ blen chunk →
  blen chunk - done_ ≤ Z.of_nat fuel → written acks None →
  (∀ x, cover x (range_of <$> acks) = covers x (0, done_)) →
  runs I (single_chunk_loop fuel opened done_ chunk done_) (wrote 0 (blen chunk)) trouble.
Proof.
  intros Hch H32. revert done_ acks.
  induction fuel as [|fuel IH]; intros done_ acks Hd Hf Hw Hc; cbn [single_chunk_loop];
    (destruct (Z.ltb_spec done_ (blen chunk)); [|apply runs_ret; exists acks;
       replace (blen chunk) with done_ by lia; done]); [lia|].
  eapply runs_bind; [apply (bytes_slice_spec chunk 0 done_ (blen chunk)); (done || lia)|].
  intros d [Hds Hdl]. eapply runs_bind; [apply runs_trouble, wc_commit; unfold_widths; lia|].
  intros [reply cv] [Hr0 Hr]. eapply runs_bind; [by eapply validate_write_reply_spec|]. intros n [-> Hn].
  eapply (runs_bind _ _ (λ _, WriteData.requires_commit reply = true → cv = WriteData.verifier reply)).
  { destruct (WriteData.requires_commit reply) eqn:Hrc; [|by apply runs_ret]. apply runs_lift.
    unfold ensure_write_verifier. case_bool_decide as Hv; cbn [negb]; [done|]. right. intros v Hcalm.
    destruct (Hcalm _ _ _ _ Hr) as [_ Hq]. destruct (Hq Hrc) as [Hvv Hq']. apply Hv. rewrite Hvv. by apply Hq'. }
  intros _ Hcv. apply (IH _ (acks ++ [Ack.mk done_ d (Some cv) reply])); [lia|lia| |].
  - destruct Hw as [A D O]. split; [|apply Forall_app; split; [done|constructor; [|constructor]]|done].
    + apply Forall_app. split; [done|]. constructor; [|constructor]. by split; [|split].
    + intros Hrc. left. cbn [Ack.commit Ack.reply] in *. by rewrite Hcv.
  - intros x. rewrite fmap_app, cover_app, Hc. cbn [fmap list_fmap]. unfold range_of. cbn [Ack.offset Ack.reply].
    change (cover x [?r]) with (covers x r + 0). solve_cover.
Qed.

Lemma whole_body : body = slice body 0 (blen body).
Proof using. symmetry. by apply slice_all. Qed.

(** ** Several writes in flight *)

Section pipeline.
Import WritePipeline.
Context (max : Z) (Hmax : 1 ≤ max ≤ u32_max).

Definition in_body (r : Z * Z) : Prop := 0 ≤ r.1 ∧ 1 ≤ r.2 ≤ max ∧ r.1 + r.2 ≤ blen body.

(** Every byte up to [next_offset] is written or in flight, and in one place
    only. *)
Record write_inv (p : WritePipeline.t) : Prop := {
  wi_next : 0 ≤ next_offset p ≤ blen body;
  wi_writes : Forall in_body (writes p);
  wi_error : ∀ e, first_error p = Some e → trouble e;
  wi_written : first_error p = None →
    ∃ acks, written acks (WriteOutcome.unstable_verifier (outcome p))
      ∧ (∀ x, cover x (range_of <$> acks) + cover x (writes p) = covers x (0, next_offset p))
      ∧ WriteOutcome.bytes_written (outcome p) + total (writes p) = next_offset p;
}.

Definition unwritten (p : WritePipeline.t) : Z := blen body - next_offset p + total (writes p).

Lemma schedule_writes_spec room p :
  write_inv p →
  let p' := schedule_writes room max (blen body) p in
  write_inv p' ∧ unwritten p' = unwritten p ∧ (length (writes p) ≤ length (writes p'))%nat
  ∧ ((0 < room)%nat → writes p' = [] → first_error p' ≠ None ∨ next_offset p' = blen body).
Proof using Hmax.
  revert p. induction room as [|room IH]; intros p Hp; cbn [schedule_writes].
  { split_and!; try done. lia. }
  destruct (first_error p) as [err|] eqn:Herr.
  { split_and!; try done. intros _ _. left. congruence. }
  destruct (Z.ltb_spec (next_offset p) (blen body)) as [Hlt|Hge]; cycle 1.
  { split_and!; try done. intros _ _. right. destruct Hp as [Hn _ _ _]. lia. }
  set (e := Z.min (next_offset p + max) (blen body)). set (p1 := mk _ _ _ _).
  assert (Hp1 : write_inv p1).
  { destruct Hp as [Hn Hw He Hc]. split; cbn [p1 next_offset writes outcome first_error]; [lia| |done|].
    - apply Forall_app. split; [done|]. constructor; [|done]. unfold in_body. cbn [fst snd]. lia.
    - intros _. destruct (Hc Herr) as (acks & Ha & Hx & Hb). exists acks. split_and!; [done| |].
      + intros x. specialize (Hx x). rewrite cover_app. change (cover x [?r]) with (covers x r + 0). solve_cover.
      + rewrite total_app. change (total [?r]) with (r.2 + 0). cbn [snd]. lia. }
  destruct (IH p1 Hp1) as (H1 & H2 & H3 & _). cbn [p1 writes] in H3. rewrite length_app in H3.
  cbn [length] in H3. split_and!; [done| |lia|].
  - rewrite H2. unfold unwritten. cbn [p1 writes next_offset]. rewrite total_app.
    change (total [?r]) with (r.2 + 0). cbn [snd]. lia.
  - intros _ Hnil. rewrite Hnil in H3. cbn [length] in H3. lia.
Qed.

Lemma complete_write_inv rest o n p :
  write_inv p → writes p ≡ₚ (o, n) :: rest →
  (∀ w, wrote o n w → write_inv (complete_write rest (inr w) p))
  ∧ (∀ err, trouble err → write_inv (complete_write rest (inl err) p)).
Proof using.
  intros [Hn Hw He Hc] Hperm. assert (Hrest : Forall in_body rest).
  { rewrite Hperm in Hw. by apply Forall_cons in Hw as [_ ?]. }
  split.
  - intros w (acks & Ha & Hx & Hb). unfold complete_write.
    destruct (first_error p) as [err0|] eqn:Herr.
    + destruct (WriteOutcome.merge w (outcome p)) as [[[]|err|] w']; split; cbn; try done;
        intros ? [= <-]; by apply He.
    + destruct (Hc eq_refl) as (acks0 & Ha0 & Hx0 & Hb0).
      pose proof (written_merge _ _ _ _ Ha0 Ha) as Hm.
      destruct (WriteOutcome.merge w (outcome p)) as [[[]|err|] w']; [|..|done]; split;
        cbn [next_offset writes outcome first_error]; try done.
      * intros _. exists (acks0 ++ acks). destruct Hm as [Hm1 Hm2]. split_and!; [done| |].
        -- intros x. specialize (Hx0 x). rewrite Hperm in Hx0. rewrite fmap_app, cover_app, Hx.
           change (cover x ((o, n) :: rest)) with (covers x (o, n) + cover x rest) in Hx0. lia.
        -- rewrite Hperm in Hb0. change (total ((o, n) :: rest)) with (n + total rest) in Hb0. lia.
      * intros ? [= <-]. by right.
  - intros err Herr. unfold complete_write. destruct (first_error p) as [err0|] eqn:He0;
      split; cbn; try done; intros ? [= <-]; (done || by apply He).
Qed.

Lemma unwritten_complete rest o n r p :
  writes p ≡ₚ (o, n) :: rest → unwritten (complete_write rest r p) = unwritten p - n.
Proof using.
  intros Hperm. unfold unwritten. rewrite Hperm.
  change (total ((o, n) :: rest)) with (n + total rest).
  assert (writes (complete_write rest r p) = rest ∧ next_offset (complete_write rest r p) = next_offset p)
    as [-> ->]; [|lia].
  unfold complete_write. destruct r as [err|w]; [done|].
  by destruct (WriteOutcome.merge w (outcome p)) as [[[]|err|] w'].
Qed.

Lemma in_body_total l : Forall in_body l → 0 ≤ total l.
Proof using.
  induction 1 as [|r l Hr Hl IH]; [done|]. unfold total in *. cbn [foldr].
  destruct Hr as (_ & ? & _). lia.
Qed.

(** With nothing in flight after scheduling, the loop is done. *)
Lemma writes_done depth p (p1 := schedule_writes (Z.to_nat (depth - blen (writes p))) max (blen body) p) :
  1 ≤ depth → write_inv p → writes p1 = [] →
  match first_error p1 with
  | Some err => trouble err
  | None => wrote 0 (blen body) (outcome p1)
  end.
Proof using Hmax.
  intros Hd Hp Hnil. unfold p1 in *. clear p1.
  destruct (schedule_writes_spec (Z.to_nat (depth - blen (writes p))) p Hp) as (Hp1 & _ & Hlen & Hidle).
  set (p1 := schedule_writes _ _ _ _) in *. rewrite Hnil in Hlen.
  assert (Hw : writes p = []) by (destruct (writes p); [done|cbn in Hlen; lia]).
  specialize (Hidle ltac:(rewrite Hw, blen_nil; lia) Hnil).
  destruct Hp1 as [_ _ He Hc]. destruct (first_error p1) as [err|]; [by apply He|].
  destruct Hidle as [|Hend]; [done|]. destruct (Hc eq_refl) as (acks & Ha & Hx & Hb).
  exists acks. rewrite Hnil, Hend in *. split_and!; [done| |].
  - intros x. specialize (Hx x). change (cover x []) with 0 in Hx. lia.
  - change (total []) with 0 in Hb. lia.
Qed.

Lemma chunk_in_flight_spec o n :
  in_body (o, n) →
  runs I (let! chunk := bytes_slice body o (o + n) in write_chunk opened o chunk) (wrote o n) trouble.
Proof.
  intros (Ho & Hn & Hon). cbn [fst snd] in *.
  eapply runs_bind; [apply (bytes_slice_spec body 0); [done|apply whole_body|lia|lia]|].
  intros d [Hd Hdl]. replace n with (blen d) by lia. apply write_chunk_spec; (done || lia).
Qed.

Lemma write_pipelined_loop_spec fuel turn depth p :
  1 ≤ depth → write_inv p → unwritten p ≤ Z.of_nat fuel →
  runs I (write_pipelined_loop order fuel turn opened body depth max p) (wrote 0 (blen body)) trouble.
Proof.
  intros Hdepth. revert turn p. induction fuel as [|fuel IH]; intros turn p Hp Hm s HI;
    cbn [write_pipelined_loop]; pose proof (writes_done depth p Hdepth Hp) as Hdone;
    destruct (schedule_writes_spec (Z.to_nat (depth - blen (writes p))) p Hp) as (Hp1 & Hun & _ & _);
    set (p1 := schedule_writes _ _ _ _) in *;
    pose proof (next_completion_spec (order turn) (writes p1)) as Hnext;
    (destruct (next_completion (order turn) (writes p1)) as [[[o n] rest]|]; cycle 1;
     [specialize (Hdone Hnext); by destruct (first_error p1)|]);
    (assert (Hin : in_body (o, n) ∧ Forall in_body rest)
      by (pose proof Hp1 as [_ Hw _ _]; rewrite Hnext in Hw; by apply Forall_cons in Hw));
    destruct Hin as [Hin Hrest]; pose proof Hin as (_ & Hn & _); cbn [fst snd] in Hn.
  - exfalso. pose proof (wi_next _ Hp1). apply in_body_total in Hrest. rewrite <- Hun in Hm.
    unfold unwritten in Hm. rewrite Hnext in Hm.
    change (total ((o, n) :: rest)) with (n + total rest) in Hm. lia.
  - destruct (complete_write_inv rest o n p1 Hp1 Hnext) as [Hok Hbad].
    pose proof (chunk_in_flight_spec o n Hin s HI) as Hrun.
    destruct ((let! chunk := bytes_slice body o (o + n) in write_chunk opened o chunk) s)
      as [[w|err|] s']; [..|done]; destruct Hrun as [HI' HQ]; apply IH; auto;
      rewrite (unwritten_complete _ o n) by done; lia.
Qed.
End pipeline.

Lemma write_bytes_spec : runs I (write_bytes order opened body) (wrote 0 (blen body)) trouble.
Proof.
  unfold write_bytes. apply runs_ask. intros s Hs. pose proof (wc_config s Hs) as Hmax.
  pose proof (blen_nonneg body).
  destruct (Z.eqb_spec (blen body) 0) as [Hz|Hz].
  { apply runs_ret. exists []. rewrite Hz. split_and!; [apply written_nil| |done].
    intros x. change (cover x _) with 0. solve_cover. }
  destruct (Z.leb_spec (blen body) (WriteService.write_chunk_size s)).
  { apply (single_chunk_spec _ body 0 []); [apply whole_body|lia|lia|unfold blen; lia|apply written_nil|].
    intros x. change (cover x _) with 0. solve_cover. }
  apply runs_ask. intros s' Hs'. set (depth := if WriteService.pipeline_write_chunks s' then _ else _).
  destruct (Z.leb_spec depth 1).
  { apply write_chunk_all_spec; [done|apply whole_body|lia]. }
  unfold write_chunk_all_pipelined. apply runs_ask. intros s2 Hs2.
  pose proof (wc_config s2 Hs2) as Hmax2. apply write_pipelined_loop_spec; [done|lia| |].
  - split; cbn; [lia|done|done|]. intros _. exists []. split_and!; [apply written_nil| |done].
    intros x. change (cover x _) with 0. solve_cover.
  - unfold unwritten, blen. cbn. lia.
Qed.
End writes.

(** C7: A body is written completely and can be committed.  Whatever the
    server accepts of each WRITE and in whatever order the WRITEs in flight
    complete, [write_bytes] returns; when it succeeds, the byte count it
    reports is the length of the body, every byte of the body was accepted at
    its own offset exactly once, and every WRITE the server left unstable
    carries the one verifier that the outcome asks to commit, or was committed
    with its own verifier already.  It fails only with an error of the session,
    or because the server made no progress, claimed more than it was given or
    changed its write verifier. *)
Theorem write_bytes_complete {S} (service : WriteService.t S) order I X opened replies
    `{!WriteContract service I X opened replies} body s :
  blen body ≤ u64_max → I s →
  match write_bytes order opened body s with
  | (Ok w, s') => I s' ∧ WriteOutcome.bytes_written w = blen body
      ∧ ∃ acks, Forall (accepted replies body) acks
          ∧ (∀ x, cover x (range_of <$> acks) = covers x (0, blen body))
          ∧ Forall (covered_by (WriteOutcome.unstable_verifier w)) acks
  | (Err e, s') => I s' ∧ (X e ∨ ∀ v, ¬ calm replies v)
  | (Panic, _) => False
  end.
Proof.
  intros Hbody Hs. pose proof (write_bytes_spec order I X opened replies body Hbody s Hs) as H.
  destruct (write_bytes order opened body s) as [[w|e|] s']; [|done..].
  destruct H as (HI & acks & [Ha Hd _] & Hc & Hb). split_and!; [done..|]. by exists acks.
Qed.

(** ** A server that accepts two bytes at a time *)

Definition sipped (d : bytes) : WriteData.t :=
  WriteData.mk (Z.min (blen d) 2) WriteStability.Unstable [1; 2; 3; 4; 5; 6; 7; 8].

Definition sips (o : Z) (d : bytes) (cv : option bytes) (w : WriteData.t) : Prop :=
  1 ≤ blen d ∧ w = sipped d ∧ ∀ c, cv = Some c → c = [1; 2; 3; 4; 5; 6; 7; 8].

(** Its state: the WRITEs it was sent. *)
Definition sipping : WriteService.t (list (Z * bytes)) := {|
  WriteService.write _ o d := λ log, (Ok (sipped d), log ++ [(o, d)]);
  WriteService.write_and_commit _ o d :=
    λ log, (Ok (sipped d, [1; 2; 3; 4; 5; 6; 7; 8]), log ++ [(o, d)]);
  WriteService.write_chunk_size _ := 3;
  WriteService.pipeline_write_chunks _ := true;
  WriteService.session_slot_count _ := 2;
|}.

#[export] Instance sipping_contract X opened : WriteContract sipping any X opened sips.
Proof.
  split; [done|..]; intros o d Ho Hd s _; cbn; split; try done; (split; [lia|]); (split; [lia|]);
    (split; [done|]); [done|]. by intros ? [= <-].
Qed.

Lemma sipping_calm : calm sips [1; 2; 3; 4; 5; 6; 7; 8].
Proof. intros o d cv w (Hd & -> & Hcv). cbn. split; [lia|]. intros _. split; [done|exact Hcv]. Qed.

Definition sample_opened : OpenedFile.t :=
  OpenedFile.mk [1] (StateId.mk 1 (replicate 12 0)) 1.

Lemma write_bytes_complete_witness :
  ∃ w log, write_bytes (service := sipping) sample_order sample_opened (seqZ 10 7) [] = (Ok w, log)
    ∧ WriteOutcome.bytes_written w = 7
    ∧ WriteOutcome.unstable_verifier w = Some [1; 2; 3; 4; 5; 6; 7; 8]
    ∧ log = [(3, [13; 14; 15]); (5, [15]); (0, [10; 11; 12]); (2, [12]); (6, [16])].
Proof.
  pose proof (write_bytes_complete sipping sample_order any none sample_opened sips (seqZ 10 7) []
    ltac:(done) ltac:(done)) as H.
  destruct (write_bytes sample_order sample_opened (seqZ 10 7) []) as [[w|e|] log] eqn:E; [|exfalso..].
  - destruct H as (_ & Hb & _). exists w, log. split; [done|]. split; [exact Hb|].
    vm_compute in E. by injection E as <- <-.
  - destruct H as [_ [H|H]]; [done|]. exact (H _ sipping_calm).
  - done.
Defined.
