(* ===== verification/Service.v ===== *)
(** * The session as the service of reads and writes

    [ReadsFacts] and [WritesFacts] prove the client's reads and writes against
    the interfaces [ReadContract] and [WriteContract].  Here the session of
    [Session.v] discharges them, whatever the transport answers: its
    operations keep the session sound, never panic, and what they return was
    decoded from the answer to a compound that names the file.  The client's
    theorems then hold of the session. *)

From S2P Require Import Prelude Proto Errors Path Xdr Ops Rpc Compound Reply Replies Slots Exchange Owner Session SessionFacts Reads ReadPipeline ReadsFacts Writes WritesFacts.
Import NfsSession.

(** ** Compounds that fit *)

(** The components of a path, short enough for any request. *)
Definition path_fits (p : list str) : Prop := blen p ≤ 2 ^ 31 ∧ blen (mjoin p) ≤ u32_max.

(** The operations that resolve a path. *)
Definition resolves (root : FileHandle) (p : list str) : list NfsOp.t :=
  NfsOp.PutFh root :: (NfsOp.Lookup <$> p).

Lemma path_ops_resolves p n s : path_ops_with_extra p n s = resolves (export_root s) p.
Proof. done. Qed.

Definition handle_wf (fh : FileHandle) : Prop := blen fh ≤ NFS4_FHSIZE.

Lemma blen_mjoin_elem {A} (l : list (list A)) x : x ∈ l → blen x ≤ blen (mjoin l).
Proof.
  induction l as [|y l IH]; [by intros ?%not_elem_of_nil|]. rewrite mjoin_cons, blen_app.
  pose proof (blen_nonneg (mjoin l)). pose proof (blen_nonneg y).
  intros [->|Hx]%elem_of_cons; [lia|]. specialize (IH Hx). lia.
Qed.

Lemma wire_lookups p : blen (mjoin (NfsOp.wire <$> (NfsOp.Lookup <$> p))) ≤ 12 * blen p + blen (mjoin p).
Proof.
  induction p as [|c p IH]; [done|]. rewrite !fmap_cons, !mjoin_cons, !blen_app, blen_cons.
  unfold NfsOp.wire at 1. cbn [NfsOp.wire_args]. rewrite blen_app, blen_wire_u32, blen_wire_opaque.
  pose proof (xdr_padding_bound (blen c)). lia.
Qed.

(** A compound that resolves a path and ends with a few short operations. *)
Lemma encodable_path tag root p tail :
  blen tag ≤ 64 → handle_wf root → path_fits p → Forall NfsOp.wf tail → blen tail ≤ 4 →
  blen (mjoin (NfsOp.wire <$> tail)) ≤ 2 ^ 40 → encodable tag (resolves root p ++ tail).
Proof.
  intros Ht Hr [Hn Hp] Hwf Htail Hlen. unfold handle_wf, NFS4_FHSIZE in *. unfold resolves.
  pose proof (wire_lookups p) as Hw. pose proof (blen_nonneg (mjoin p)).
  apply encodable_intro.
  - ulia.
  - rewrite <- app_comm_cons, blen_cons, blen_app.
    replace (blen (NfsOp.Lookup <$> p)) with (blen p) by (unfold blen; by rewrite length_fmap). ulia.
  - apply Forall_app. split; [|done]. constructor; [cbn; ulia|]. apply Forall_fmap, Forall_forall.
    intros c Hc. cbn. pose proof (blen_mjoin_elem _ _ Hc). lia.
  - rewrite fmap_app, mjoin_app, blen_app, fmap_cons, mjoin_cons, blen_app.
    unfold NfsOp.wire at 1. cbn [NfsOp.wire_args]. rewrite blen_app, blen_wire_u32, !blen_wire_opaque.
    pose proof (xdr_padding_bound (blen root)). pose proof (xdr_padding_bound (blen tag)). ulia.
Qed.

Lemma join_fits comps : blen (mjoin comps) + blen comps ≤ blen (path.join comps) + 1.
Proof.
  induction comps as [|c comps IH]; [done|]. rewrite mjoin_cons, blen_app, blen_cons.
  destruct comps as [|d comps]; [change (blen c + 0 + (1 + 0) ≤ blen c + 1); lia|].
  change (path.join (c :: d :: comps)) with (c ++ slash :: path.join (d :: comps)).
  rewrite blen_app, (blen_cons slash). rewrite !blen_cons in *. lia.
Qed.

(** Every path that is accepted fits, unless it has gigabytes. *)
Lemma components_fit value p :
  utf8_valid value = true → path.parse_components value = Ok p → blen value < 2 ^ 31 → path_fits (components p).
Proof.
  intros Hv Hp Hlen. apply (path.parse_components_spec value p Hv) in Hp as (_ & k & j & Hval).
  pose proof (join_fits (components p)). pose proof (blen_nonneg (mjoin (components p))).
  pose proof (blen_nonneg (components p)).
  assert (blen (path.join (components p)) ≤ blen value).
  { rewrite Hval, !blen_app. pose proof (blen_nonneg (replicate k slash)). pose proof (blen_nonneg (replicate j slash)). lia. }
  split; ulia.
Qed.

Lemma file_fits value p :
  utf8_valid value = true → path.file value = Ok p → blen value < 2 ^ 31 → path_fits (components p).
Proof.
  intros Hv Hf Hlen. unfold path.file in Hf.
  destruct (path.parse_components value) as [q|e|] eqn:Hp; [|done..]. cbn [rbind] in Hf.
  assert (q = p) as ->.
  { destruct (components q); [done|]. destruct (path.validate_user_components _) as [[]|e|]; by simplify_eq/=. }
  by eapply components_fit.
Qed.

(** ** What the decoders return *)

Lemma run_values {A} codes b shape expected (walk : st CompoundReplies.t CompoundDecodeError.t A) (P : A → Prop) :
  bytes_wf b →
  (∀ n s b' r, 0 ≤ n ≤ expected → at_ n s b' codes 0 codes r → wp n s b' codes walk (λ a _, P a) r) →
  match CompoundReplies.run b shape expected walk with Ok a => P a | Err _ => True | Panic => False end.
Proof.
  intros Hb Hw. pose proof (run_spec b shape expected codes walk (λ _ _ _ a, P a) Hb Hw) as H.
  destruct (CompoundReplies.run b shape expected walk) as [a|e|]; [|done..]. by destruct H as (n & s & b' & _ & _ & ?).
Qed.

(** Decoders that return a handle return one the protocol allows; a size is a
    [u64]; a write count is a [u32]. *)
Lemma decoded_handles b n : bytes_wf b →
  (∀ op, match decode_getfh_compound b op n with Ok fh => handle_wf fh | Err _ => True | Panic => False end)
  ∧ (match decode_getfh_attrs_compound b n AttrRequest.Size with
     | Ok (fh, attrs) => handle_wf fh ∧ attrs_wf attrs | Err _ => True | Panic => False end)
  ∧ (match decode_read_path_handle_compound b n with
     | Ok (fh, _) => handle_wf fh | Err _ => True | Panic => False end)
  ∧ (match decode_read_path_size_compound b n with
     | Ok (fh, size, _) => handle_wf fh ∧ is_u64 size | Err _ => True | Panic => False end).
Proof.
  intros Hb. split_and!.
  - intros op. apply (run_values (decoder_codes (D_getfh op n)) _ _ _ _ handle_wf Hb). intros k s b' r Hn Hat. walk. unfold handle_wf. eauto.
  - apply (run_values (decoder_codes (D_getfh_attrs n AttrRequest.Size)) _ _ _ _ (λ '(fh, attrs), handle_wf fh ∧ attrs_wf attrs) Hb). intros k s b' r Hn Hat. walk.
    apply wp_lift_from. unfold validate_file_attrs, attrs_wf in *. destruct o0 as [attrs|]; cbn [default].
    all: repeat case_match; try done; walk; (split; [unfold handle_wf; by eauto|]); cbn in *; naive_solver.
  - apply (run_values (decoder_codes (D_read_path_handle n)) _ _ _ _ (λ '(fh, _), handle_wf fh) Hb). intros k s b' r Hn Hat. walk. unfold handle_wf. eauto.
  - apply (run_values (decoder_codes (D_read_path_size n)) _ _ _ _ (λ '(fh, size, _), handle_wf fh ∧ is_u64 size) Hb). intros k s b' r Hn Hat. walk.
    split; [unfold handle_wf; by eauto|]. destruct o0 as [attrs|]; [|done]. unfold attrs_wf in *. by eauto.
Qed.
Lemma decoded_counts b : bytes_wf b →
  (match decode_write_compound b with Ok w => 0 ≤ WriteData.count w | Err _ => True | Panic => False end)
  ∧ (match decode_write_commit_compound b with
     | Ok (w, _) => 0 ≤ WriteData.count w | Err _ => True | Panic => False end).
Proof.
  intros Hb. split.
  - apply (run_values (decoder_codes D_write) _ _ _ _ (λ w, 0 ≤ WriteData.count w) Hb). intros k s b' r Hn Hat. walk. naive_solver.
  - apply (run_values (decoder_codes D_write_commit) _ _ _ _ (λ '(w, _), 0 ≤ WriteData.count w) Hb). intros k s b' r Hn Hat. walk. naive_solver.
Qed.

Lemma decoded_reads b n : bytes_wf b → decode_read_compound b ≠ Panic ∧ decode_read_path_compound b n ≠ Panic.
Proof.
  intros Hb. split.
  - exact (response_total _ _ _ (λ _, true) _ (response_simple b Hb D_read)).
  - exact (response_total _ _ _ (λ _, true) _ (response_simple b Hb (D_read_path n))).
Qed.

(** ** Everything in the history was answered by the transport *)

Section service.
Context (call : list Request.t → RpcPayload.t → res Error.t bytes) (ulid : nat → bytes).

(** The compound of [q] was encoded and handed to the transport, which
    answered what [q] records. *)
Definition sent (q : Request.t) : Prop :=
  ∃ h payload,
    match Request.sequence q with
    | Some sequence => encode_compound_with_sequence (Request.tag q) sequence (Request.ops q) = Ok payload
    | None => ∃ bytes, encode_compound (Request.tag q) (Request.ops q) = Ok bytes ∧ payload = RpcPayload.from bytes
    end
    ∧ call h payload = Request.reply q.

Definition faithful (s : NfsSession.t) : Prop := Forall sent (history s).

Lemma exchange_faithful tag ops slot highest s r slot' s' :
  exchange_under_guard call ulid tag ops slot highest s = (r, slot', s') → faithful s → faithful s'.
Proof.
  unfold exchange_under_guard, faithful. intros H Hs.
  destruct (SlotTable.slots (slots s) !! SlotGuard.index slot) as [state|]; [|by simplify_eq].
  destruct (map_err _ _) as [[]|e|]; [|by simplify_eq..].
  destruct (encode_compound_with_sequence _ _ _) as [payload|e|] eqn:Hp; [|by simplify_eq..].
  assert (Hsent : Forall sent (history s ++ [Request.mk tag
    (Some (SequenceArgs.mk (sessionid s) (SlotState.sequenceid state) (SlotState.id state) highest false)) ops
    (call (history s) payload)])).
  { apply Forall_app. split; [done|]. constructor; [|constructor]. by exists (history s), payload. }
  destruct (call (history s) payload) as [b|e|] eqn:Hc; [|by simplify_eq..].
  destruct (decode_sequence_result _ _ _ _) as [result|e|]; [|by simplify_eq..].
  destruct (validate_sequence_status_flags _ _) as [[]|e|]; simplify_eq; [done|..];
    by destruct (latch_fatal_sequence_flags _ _ _ _ _) as [[]]; simplify_eq.
Qed.

Lemma raw_once_faithful tag ops s r s' :
  compound_raw_once call ulid tag ops s = (r, s') → faithful s → faithful s'.
Proof.
  unfold compound_raw_once, sbind, smap_err, try_, on_slots. intros H Hs.
  destruct (map_err _ (validate_compound_request tag ops s)) as [[]|e|]; [|by simplify_eq..].
  destruct (map_err _ (ensure_sequence_status_usable s)) as [[]|e|]; [|by simplify_eq..].
  destruct (acquire_for_request (slots s)) as [[[slot highest]|e|] t]; cbn [map_err] in H; [|by simplify_eq..].
  destruct (exchange_under_guard _ _ _ _ _ _ _) as [[r1 slot1] s1] eqn:Hx. simplify_eq.
  by eapply exchange_faithful in Hx.
Qed.

Lemma decode_loop_faithful {A} fuel tag ops (decode : list Z → res CompoundDecodeError.t A) retry a s r a' s' :
  compound_decode_loop call ulid fuel tag ops decode retry (a, s) = (r, (a', s')) → faithful s → faithful s'.
Proof.
  induction fuel as [|fuel IH] in a, s |- *; cbn [compound_decode_loop]; intros H Hs; [by simplify_eq|].
  destruct (compound_raw_once call ulid tag ops s) as [[b|e|] s1] eqn:Hr; apply raw_once_faithful in Hr;
    try done; [|by simplify_eq..].
  destruct (decode b) as [v|err|]; [by simplify_eq| |by simplify_eq].
  destruct (retry && _); [|by simplify_eq].
  destruct (retry_transient_compound_error err a s1) as [again [a1 s2]] eqn:Ht.
  assert (Hs2 : faithful s2).
  { unfold retry_transient_compound_error in Ht. destruct (CompoundDecodeError.transient_status err); [|by simplify_eq].
    destruct (claim_transient_retry _ _) as [[attempt|] a2]; by simplify_eq. }
  destruct again; [|by simplify_eq]. by eapply IH.
Qed.

(** ** The session's invariant *)

Context `{!Transport call} (root : FileHandle).

(** A session on the export with root handle [root], configured with sizes a
    request can carry. *)
Record session_inv (s : NfsSession.t) : Prop := {
  si_ok : session_ok s;
  si_faithful : faithful s;
  si_root : export_root s = root;
  si_granularity : 1 ≤ NfsConfig.read_granularity (config s) ≤ u32_max;
  si_read_chunk : 1 ≤ NfsConfig.read_chunk_size (config s) ≤ u32_max;
  si_write_chunk : 1 ≤ NfsConfig.write_chunk_size (config s) ≤ u32_max;
}.

Lemma sent_wf q b : sent q → Request.reply q = Ok b → bytes_wf b.
Proof.
  intros (h & p & _ & Hc) Hr. pose proof (transport_answers h p) as Hw. by rewrite Hc, Hr in Hw.
Qed.

(** A compound with its decoder keeps the invariant, never panics, and returns
    what the decoder made of an answer to that very compound. *)
Lemma decode_runs {A} tag ops (decode : list Z → res CompoundDecodeError.t A) (Q : A → Prop) :
  encodable tag ops →
  (∀ b, bytes_wf b → decode b ≠ Panic) →
  (∀ q b v, sent q → Request.ops q = ops → Request.reply q = Ok b → bytes_wf b → decode b = Ok v → Q v) →
  runs session_inv (compound_decode call ulid tag ops decode) Q any.
Proof.
  intros Henc Hdec HQ s [Hok Hf Hr Hg Hc Hw]. unfold compound_decode, compound_decode_with.
  pose proof (compound_decode_detailed_spec call ulid tag ops decode Henc Hdec true 0 s Hok ltac:(lia)) as Hspec.
  destruct (compound_decode_detailed call ulid tag ops decode true (0, s)) as [r [a' s']] eqn:Hrun.
  destruct Hspec as (retries & last & Hl). apply decode_loop_faithful in Hrun as Hf'; [|done].
  assert (Hinv : session_inv s').
  { destruct (lp_kept _ _ _ _ _ _ _ _ _ _ _ Hl) as (_ & Hroot & _ & _ & _ & _ & Hcfg & _).
    split; rewrite ?Hcfg, ?Hroot; try done. exact (lp_ok _ _ _ _ _ _ _ _ _ _ _ Hl). }
  pose proof (lp_result _ _ _ _ _ _ _ _ _ _ _ Hl) as Hres. destruct r as [v|e|]; cbn [map_err]; [|done|done].
  split; [done|]. destruct Hres as (q & b & -> & Hreply & _ & Hd).
  assert (Hq : sent q).
  { unfold faithful in Hf'. rewrite (lp_history _ _ _ _ _ _ _ _ _ _ _ Hl) in Hf'.
    rewrite !Forall_app in Hf'. destruct Hf' as (_ & _ & Hq). by inversion_clear Hq. }
  pose proof (lp_ours _ _ _ _ _ _ _ _ _ _ _ Hl) as Ho. rewrite Forall_app in Ho. destruct Ho as [_ Ho].
  inversion_clear Ho as [|? ? [_ Hops] _]. eapply HQ; [exact Hq|exact Hops|exact Hreply| |exact Hd].
  by eapply sent_wf.
Qed.

(** ** The file behind a path *)

Context (p : list str).

(** An answer [b] to a compound that resolves the path and returns a handle. *)
Inductive handle_of (b : bytes) : FileHandle → Prop :=
| handle_looked_up fh : decode_getfh_compound b OpCode.PutFh (length p) = Ok fh → handle_of b fh
| handle_with_attrs fh attrs :
    decode_getfh_attrs_compound b (length p) AttrRequest.Size = Ok (fh, attrs) → handle_of b fh
| handle_with_read fh r : decode_read_path_handle_compound b (length p) = Ok (fh, r) → handle_of b fh
| handle_with_size fh size r :
    decode_read_path_size_compound b (length p) = Ok (fh, size, r) → handle_of b fh.

Inductive read_of (b : bytes) : ReadData.t → Prop :=
| read_alone r : decode_read_path_compound b (length p) = Ok r → read_of b r
| read_with_handle fh r : decode_read_path_handle_compound b (length p) = Ok (fh, r) → read_of b r
| read_with_size fh size r : decode_read_path_size_compound b (length p) = Ok (fh, size, r) → read_of b r.

Inductive size_of (b : bytes) : Z → Prop :=
| size_with_read fh size r : decode_read_path_size_compound b (length p) = Ok (fh, size, r) → size_of b size
| size_with_attrs fh attrs size :
    decode_getfh_attrs_compound b (length p) AttrRequest.Size = Ok (fh, attrs) →
    FileAttrs.size attrs = Some size → size_of b size.

(** A compound that resolves the path from the export's root, does [tail] on
    the file, and was answered by [b]. *)
Definition asked (tail : list NfsOp.t) (b : bytes) : Prop :=
  ∃ q, sent q ∧ Request.ops q = resolves root p ++ tail ∧ Request.reply q = Ok b.

(** The server returned [fh] for the path. *)
Definition file_handle (fh : FileHandle) : Prop :=
  handle_wf fh ∧ ∃ tail b, asked (NfsOp.GetFh :: tail) b ∧ handle_of b fh.

(** The server answered [r] to a READ of the file at the path: by the path, or
    by a handle it returned for the path. *)
Definition file_read (o c : Z) (r : ReadData.t) : Prop :=
  (∃ before b, asked (before ++ [NfsOp.Read StateId.anonymous o c]) b ∧ read_of b r)
  ∨ ∃ fh q b, file_handle fh ∧ sent q
      ∧ Request.ops q = [NfsOp.PutFh fh; NfsOp.Read StateId.anonymous o c]
      ∧ Request.reply q = Ok b ∧ decode_read_compound b = Ok r.

(** A size the server reported of the file. *)
Definition file_size (x : option Z) : Prop :=
  ∀ size, x = Some size → is_u64 size
    ∧ ∃ tail b, asked (NfsOp.GetFh :: NfsOp.GetAttr Bitmap.size_attr :: tail) b ∧ size_of b size.

(** The server answered [w] to a WRITE of [data] at [o] in an open file, with
    a COMMIT whose verifier is [cv]. *)
Definition file_write (opened : OpenedFile.t) (o : Z) (data : bytes) (cv : option bytes) (w : WriteData.t) : Prop :=
  ∃ q b, sent q ∧ Request.reply q = Ok b
    ∧ match cv with
      | None => Request.ops q = [NfsOp.PutFh (OpenedFile.fh opened); NfsOp.Write (OpenedFile.stateid opened) o data]
          ∧ decode_write_compound b = Ok w
      | Some v => Request.ops q = write_and_commit_ops opened o data
          ∧ decode_write_commit_compound b = Ok (w, v)
      end.

Lemma anonymous_wf : StateId.wf StateId.anonymous.
Proof. split_and!; [done|by apply Forall_replicate|done]. Qed.

Context (Hroot : handle_wf root) (Hpath : path_fits p).

(** The compounds of the read operations. *)
Lemma encodable_read tag fh path tail o c :
  blen tag ≤ 64 → handle_wf fh → path_fits path → Forall NfsOp.wf tail → blen tail ≤ 2 →
  blen (mjoin (NfsOp.wire <$> tail)) ≤ 64 →
  encodable tag (resolves fh path ++ tail ++ [NfsOp.Read StateId.anonymous o c]).
Proof.
  intros Ht Hfh Hp Hwf Hn Hlen. apply encodable_path; try done.
  - apply Forall_app. split; [done|]. constructor; [apply anonymous_wf|constructor].
  - rewrite blen_app. change (blen [_]) with 1. lia.
  - rewrite fmap_app, mjoin_app, blen_app.
    assert (blen (mjoin (NfsOp.wire <$> [NfsOp.Read StateId.anonymous o c])) = 32); [|lia].
    rewrite fmap_cons, fmap_nil, mjoin_cons, app_nil_r. unfold NfsOp.wire. cbn [NfsOp.wire_args].
    by rewrite !blen_app, !blen_wire_u32, blen_wire_u64, (StateId.blen_wire _ anonymous_wf).
Qed.

(** An operation that asks for the path first. *)
Lemma path_runs {A} tag n tail (decode : list Z → res CompoundDecodeError.t A) (Q : A → Prop) :
  encodable tag (resolves root p ++ tail) →
  (∀ b, bytes_wf b → decode b ≠ Panic) →
  (∀ b v, asked tail b → bytes_wf b → decode b = Ok v → Q v) →
  runs session_inv
    (let! ops := Session.asks (λ s, path_ops_with_extra p n s ++ tail) in compound_decode call ulid tag ops decode)
    Q any.
Proof.
  intros Henc Hdec HQ s Hs. unfold sbind, Session.asks. rewrite path_ops_resolves, (si_root s Hs).
  revert s Hs. apply decode_runs; [done|done|]. intros q b v Hq Hops Hr Hb Hd. eapply HQ; [|done|done]. by exists q.
Qed.

#[local] Instance session_read_contract :
  ReadContract (session_reads call ulid) session_inv any file_handle (eq p) file_read file_size.
Proof.
  pose proof Hpath as Hpath'.
  split; cbn [ReadService.read_anonymous ReadService.read_path_anonymous ReadService.read_path_anonymous_with_handle
    ReadService.read_path_anonymous_with_size ReadService.lookup_file_handle ReadService.lookup_file_handle_attrs
    session_reads].
  - intros s [_ _ _ Hg Hc _]. done.
  - intros fh o c Hfh _ _. apply decode_runs.
    + apply (encodable_read _ fh [] []); [by vm_compute|apply Hfh|by split|constructor|by vm_compute..].
    + intros b Hb. exact (proj1 (decoded_reads b 0 Hb)).
    + intros q b r Hq Hops Hr Hb Hd. right. by exists fh, q, b.
  - intros ? o c <- _ _. apply path_runs.
    + apply (encodable_read _ root p []); [by vm_compute|done|done|constructor|by vm_compute..].
    + intros b Hb. exact (proj2 (decoded_reads b (length p) Hb)).
    + intros b r Ha Hb Hd. left. exists [], b. split; [done|]. by apply read_alone.
  - intros ? o c <- _ _. apply path_runs.
    + apply (encodable_read _ root p [NfsOp.GetFh]); [by vm_compute|done|done|by repeat constructor|by vm_compute..].
    + intros b Hb Hd. destruct (decoded_handles b (length p) Hb) as (_ & _ & H & _). by rewrite Hd in H.
    + intros b [fh r] Ha Hb Hd. destruct (decoded_handles b (length p) Hb) as (_ & _ & H & _). rewrite Hd in H.
      split.
      * split; [done|]. eexists _, b. split; [exact Ha|]. by eapply handle_with_read.
      * left. exists [NfsOp.GetFh], b. split; [done|]. by eapply read_with_handle.
  - intros ? c <- _. apply path_runs.
    + apply (encodable_read _ root p [NfsOp.GetFh; NfsOp.GetAttr Bitmap.size_attr]);
        [by vm_compute|done|done|by repeat constructor|by vm_compute..].
    + intros b Hb Hd. destruct (decoded_handles b (length p) Hb) as (_ & _ & _ & H). by rewrite Hd in H.
    + intros b [[fh size] r] Ha Hb Hd. destruct (decoded_handles b (length p) Hb) as (_ & _ & _ & H).
      rewrite Hd in H. destruct H as [Hfh Hsz]. split_and!.
      * split; [done|]. eexists _, b. split; [exact Ha|]. by eapply handle_with_size.
      * intros ? [= <-]. split; [done|]. eexists _, b. split; [exact Ha|]. by eapply size_with_read.
      * left. exists [NfsOp.GetFh; NfsOp.GetAttr Bitmap.size_attr], b. split; [done|]. by eapply read_with_size.
  - intros ? <-. apply path_runs.
    + apply encodable_path; [by vm_compute|done|done|by repeat constructor|by vm_compute..].
    + intros b Hb Hd. destruct (decoded_handles b (length p) Hb) as (H & _). specialize (H OpCode.PutFh).
      by rewrite Hd in H.
    + intros b fh Ha Hb Hd. destruct (decoded_handles b (length p) Hb) as (H & _). specialize (H OpCode.PutFh).
      rewrite Hd in H. split; [done|]. exists [], b. split; [done|]. by apply handle_looked_up.
  - intros ? <-. apply path_runs.
    + apply encodable_path; [by vm_compute|done|done|by repeat constructor|by vm_compute..].
    + intros b Hb Hd. destruct (decoded_handles b (length p) Hb) as (_ & H & _). by rewrite Hd in H.
    + intros b [fh attrs] Ha Hb Hd. destruct (decoded_handles b (length p) Hb) as (_ & H & _).
      rewrite Hd in H. destruct H as [Hfh Hattrs]. split.
      * split; [done|]. eexists _, b. split; [exact Ha|]. by eapply handle_with_attrs.
      * intros size Hsize. split; [by apply Hattrs|]. eexists [], b. split; [exact Ha|]. by eapply size_with_attrs.
Qed.

(** ** Writes *)

Definition opened_wf (opened : OpenedFile.t) : Prop :=
  handle_wf (OpenedFile.fh opened) ∧ StateId.wf (OpenedFile.stateid opened).

Lemma encodable_write tag fh stateid o data tail :
  blen tag ≤ 64 → handle_wf fh → StateId.wf stateid → blen data ≤ u32_max →
  tail = [] ∨ (∃ n, tail = [NfsOp.Commit o n]) →
  encodable tag (NfsOp.PutFh fh :: NfsOp.Write stateid o data :: tail).
Proof.
  intros Ht Hfh Hst Hd Htail.
  assert (Hlen : Forall NfsOp.wf tail ∧ blen tail ≤ 1 ∧ blen (mjoin (NfsOp.wire <$> tail)) ≤ 16).
  { destruct Htail as [->|[n ->]]; [done|]. split_and!; [by repeat constructor|done|].
    rewrite fmap_cons, fmap_nil, mjoin_cons, app_nil_r. unfold NfsOp.wire. cbn [NfsOp.wire_args].
    by rewrite !blen_app, !blen_wire_u32, blen_wire_u64. }
  destruct Hlen as (Hwf & Hn & Hl).
  apply (encodable_path tag fh [] (NfsOp.Write stateid o data :: tail)); [done|done|by split|by constructor| |].
  - rewrite blen_cons. lia.
  - rewrite fmap_cons, mjoin_cons, blen_app. unfold NfsOp.wire at 1. cbn [NfsOp.wire_args].
    rewrite !blen_app, !blen_wire_u32, blen_wire_u64, blen_wire_opaque, (StateId.blen_wire _ Hst).
    pose proof (xdr_padding_bound (blen data)). change StateId.encoded_len with 16. ulia.
Qed.

#[local] Instance session_write_contract opened : opened_wf opened →
  WriteContract (session_writes call ulid) session_inv any opened (file_write opened).
Proof.
  intros [Hfh Hst]. split; cbn [WriteService.write WriteService.write_and_commit session_writes].
  - intros s [_ _ _ _ _ Hw]. done.
  - intros o d _ Hd. apply decode_runs.
    + apply encodable_write; [by vm_compute|done|done|lia|by left].
    + intros b Hb Hp. destruct (decoded_counts b Hb) as [H _]. by rewrite Hp in H.
    + intros q b w Hq Hops Hr Hb Hp. destruct (decoded_counts b Hb) as [H _]. rewrite Hp in H.
      split; [done|]. by exists q, b.
  - intros o d _ Hd. apply decode_runs.
    + apply encodable_write; [by vm_compute|done|done|lia|]. right. by eexists.
    + intros b Hb Hp. destruct (decoded_counts b Hb) as [_ H]. by rewrite Hp in H.
    + intros q b [w cv] Hq Hops Hr Hb Hp. destruct (decoded_counts b Hb) as [_ H]. rewrite Hp in H.
      split; [done|]. by exists q, b.
Qed.
End service.

(** C22: The session has the type its clients rely on.  Over any transport
    that answers with bytes or errors, a session that is sound stays sound
    under every operation the reads and writes of the client use; none of them
    panics, whatever the answers contain; file handles it returns are at most
    128 bytes, sizes and counts are in range; and every value it returns was
    decoded from an answer to a compound that was encoded and sent for that
    very file. *)
Theorem session_meets_contracts call ulid root p opened
    (Htransport : Transport call) (Hroot : handle_wf root) (Hpath : path_fits p) (Hopened : opened_wf opened) :
  ReadContract (session_reads call ulid) (session_inv call root) any (file_handle call root p) (eq p)
    (file_read call root p) (file_size call root p)
  ∧ WriteContract (session_writes call ulid) (session_inv call root) any opened (file_write call opened).
Proof. split; [by apply session_read_contract|by apply session_write_contract]. Qed.

(** C6: Reads through a session return what the server sent for the path.  On
    a sound session over any transport, [get], [get_known_size] and
    [get_range] return, in whatever order the reads in flight complete; every
    byte of a result is at its position in an answer to a READ that named the
    file by its path or by a handle the server had returned for the path; a
    whole file ends where the server reported its end, and has the size the
    server reported or the caller asked for; and the session stays sound. *)
Theorem session_reads_received call ulid root order limit value p s
    (Htransport : Transport call) (Hroot : handle_wf root) (Hutf8 : utf8_valid value = true)
    (Hvalue : path.file value = Ok p) (Hlen : blen value < 2 ^ 31) (Hlimit : limit_ok limit) (Hs : session_inv call root s) :
  let server := file_read call root (components p) in
  let returns m (Q : bytes → Prop) :=
    match m s with
    | (Ok bs, s') => session_inv call root s' ∧ Q bs
    | (Err _, s') => session_inv call root s'
    | (Panic, _) => False
    end in
  returns (get_once (service := session_reads call ulid) order limit (components p))
    (λ bs, ∃ size, file_size call root (components p) (Some size) ∧ whole server size limit bs)
  ∧ (∀ size, is_u64 size →
       returns (get_known_size_once (service := session_reads call ulid) order limit (components p) size)
         (whole server size limit))
  ∧ (∀ start end_, 0 ≤ start → end_ ≤ u64_max →
       returns (Reads.get_range (service := session_reads call ulid) order limit (components p) start end_)
         (λ bs, received server start bs ∧ blen bs ≤ Z.max 0 (end_ - start)
            ∧ (∀ l, limit = Some l → blen bs ≤ l)
            ∧ (blen bs = Z.max 0 (end_ - start) ∨ ends_at server (start + blen bs)
               ∨ ∃ size, file_size call root (components p) (Some size) ∧ start + blen bs = Z.max start size))).
Proof.
  pose proof (session_read_contract call ulid root (components p) Hroot (file_fits value p Hutf8 Hvalue Hlen)) as Hc.
  assert (Hsize : ∀ size, file_size call root (components p) (Some size) → is_u64 size).
  { intros size Hsz. by destruct (Hsz size eq_refl). }
  assert (Hrun : ∀ (m : st NfsSession.t Error.t bytes) (Q : bytes → Prop), runs (session_inv call root) m Q any →
    match m s with
    | (Ok bs, s') => session_inv call root s' ∧ Q bs
    | (Err _, s') => session_inv call root s'
    | (Panic, _) => False
    end).
  { intros m Q Hm. specialize (Hm s Hs). destruct (m s) as [[bs|e|] s']; [done|by destruct Hm|done]. }
  intros server returns. unfold returns. split_and!.
  - apply Hrun. eapply get_sound; [exact Hc|done|done|done].
  - intros size H64. apply Hrun. eapply get_known_size_sound; [exact Hc|done|done|done].
  - intros start end_ Hst Hend. apply Hrun. eapply get_range_sound; [exact Hc|done|done|done|done|done].
Qed.

(** ** A server that tells the truth about a file *)

Lemma whole_is_file server f size limit bs :
  (∀ o c r, server o c r → serves f o c r) → whole server size limit bs → bs = f.
Proof.
  intros Hf (<- & Hrec & (o & c & r & Hr & He & Hx) & _). apply received_file; [|by exists o, c, r; auto].
  intros i b Hi. destruct (Hrec i b Hi) as (o' & c' & r' & j & Hr' & Hj). exists o', c', r', j. auto.
Qed.

(** When every answer to a READ of the path is from the file [f], whatever the
    session delivers as the whole file is [f], also when the answers are short,
    come out of order, or in part never come. *)
Theorem session_gets_file call ulid root order limit p f s
    (Htransport : Transport call) (Hroot : handle_wf root) (Hpath : path_fits p) (Hlimit : limit_ok limit)
    (Hs : session_inv call root s) (Htrue : ∀ o c r, file_read call root p o c r → serves f o c r) :
  (∀ bs s', get_once (service := session_reads call ulid) order limit p s = (Ok bs, s') → bs = f)
  ∧ (∀ size bs s', is_u64 size →
       get_known_size_once (service := session_reads call ulid) order limit p size s = (Ok bs, s') →
       bs = f ∧ size = blen f).
Proof.
  pose proof (session_read_contract call ulid root p Hroot Hpath) as Hc.
  assert (Hsize : ∀ size, file_size call root p (Some size) → is_u64 size).
  { intros size Hsz. by destruct (Hsz size eq_refl). }
  split.
  - intros bs s' Hrun.
    assert (H := get_sound (service := session_reads call ulid) order (session_inv call root) (file_handle call root p) (eq p)
      (file_read call root p) (file_size call root p) limit p eq_refl Hlimit Hsize s Hs).
    rewrite Hrun in H. destruct H as (_ & size & _ & Hw). by eapply whole_is_file.
  - intros size bs s' H64 Hrun.
    assert (H := get_known_size_sound (service := session_reads call ulid) order (session_inv call root) (file_handle call root p) (eq p)
      (file_read call root p) (file_size call root p) limit p size eq_refl Hlimit H64 s Hs).
    rewrite Hrun in H. destruct H as [_ Hw]. pose proof Hw as [<- _]. apply (whole_is_file _ f) in Hw as ->; auto.
Qed.

(** Writes through a session: on a sound session over any transport,
    [write_bytes] returns; when it succeeds every byte of the body was sent at
    its own offset and accepted by the server in an answer to a WRITE of the
    open file, exactly once, and the outcome asks for the commit of everything
    that was left unstable. *)
Theorem session_writes_complete call ulid root order opened body s
    (Htransport : Transport call) (Hopened : opened_wf opened) (Hbody : blen body ≤ u64_max)
    (Hs : session_inv call root s) :
  match write_bytes (service := session_writes call ulid) order opened body s with
  | (Ok w, s') => session_inv call root s' ∧ WriteOutcome.bytes_written w = blen body
      ∧ ∃ acks, Forall (accepted (file_write call opened) body) acks
          ∧ (∀ x, cover x (range_of <$> acks) = covers x (0, blen body))
          ∧ Forall (covered_by (WriteOutcome.unstable_verifier w)) acks
  | (Err _, s') => session_inv call root s'
  | (Panic, _) => False
  end.
Proof.
  pose proof (session_write_contract call ulid root opened Hopened) as Hc.
  pose proof (write_bytes_spec (service := session_writes call ulid) order (session_inv call root) any opened
    (file_write call opened) body Hbody s Hs) as H.
  destruct (write_bytes (service := session_writes call ulid) order opened body s) as [[w|e|] s']; [|by destruct H|done].
  destruct H as (HI & acks & [Ha Hd _] & Hcov & Hb). split_and!; [done..|]. by exists acks.
Qed.

(** ** A server that sends a file of three bytes *)

Definition small_file : list (res Error.t bytes) :=
  [Ok (sample_response 0 6 1
         (ok_reply OpCode.PutFh ++ ok_reply OpCode.Lookup ++ ok_reply OpCode.GetFh ++ wire_opaque [7; 8]
          ++ ok_reply OpCode.GetAttr ++ wire_u32 1 ++ wire_u32 16 ++ wire_opaque (wire_u64 3)
          ++ ok_reply OpCode.Read ++ wire_bool true ++ wire_opaque [1; 2; 3]))].

Lemma small_file_transport : Transport (scripted small_file).
Proof. apply scripted_transport. repeat constructor; by vm_compute. Qed.

Lemma sample_session_inv call : session_inv call [1] sample_session.
Proof. split; [apply sample_session_ok|constructor|done|by vm_compute..]. Qed.

Lemma session_meets_contracts_witness :
  ReadContract (session_reads (scripted small_file) (λ _, [])) (session_inv (scripted small_file) [1]) any
    (file_handle (scripted small_file) [1] [str_of "a"]) (eq [str_of "a"])
    (file_read (scripted small_file) [1] [str_of "a"]) (file_size (scripted small_file) [1] [str_of "a"])
  ∧ WriteContract (session_writes (scripted small_file) (λ _, [])) (session_inv (scripted small_file) [1]) any
      SessionFacts.sample_file (file_write (scripted small_file) SessionFacts.sample_file).
Proof.
  apply (session_meets_contracts (scripted small_file) (λ _, []) [1] [str_of "a"] SessionFacts.sample_file).
  - exact small_file_transport.
  - by vm_compute.
  - by vm_compute.
  - split; [by vm_compute|exact anonymous_wf].
Defined.

Lemma session_reads_received_witness :
  ∃ s', get_once (service := session_reads (scripted small_file) (λ _, [])) id None [str_of "a"] sample_session
        = (Ok [1; 2; 3], s')
    ∧ session_inv (scripted small_file) [1] s'
    ∧ ∃ size, file_size (scripted small_file) [1] [str_of "a"] (Some size)
        ∧ whole (file_read (scripted small_file) [1] [str_of "a"]) size None [1; 2; 3].
Proof.
  pose proof (session_reads_received (scripted small_file) (λ _, []) [1] id None (str_of "a")
    {| components := [str_of "a"] |} sample_session small_file_transport ltac:(by vm_compute) eq_refl eq_refl
    ltac:(by vm_compute) ltac:(done) (sample_session_inv _)) as [H _].
  destruct (get_once _ _ _ _) as [r s'] eqn:E.
  assert (Hr : r = Ok [1; 2; 3]) by (apply (f_equal fst) in E; vm_compute in E; by symmetry).
  rewrite Hr in H |- *.
  exists s'. split; [exact eq_refl|]. exact H.
Defined.
