(* ===== verification/CloseWorker.v ===== *)
(** * The worker that closes files (src/nfs4/session.rs, [run_deferred_close_worker])

    A put that published its file leaves the CLOSE to a worker: it sends the
    open file over a channel of bounded capacity ([defer_close]) and returns.
    The worker takes files off the channel, collects up to sixteen of them and
    closes them in one batch, or one by one when the batch fails; it holds the
    session only while it closes, and ends when the session is gone.

    The model is a state machine at the granularity of accesses to the
    channel: tasks that defer, senders that wait for room or are dropped while
    they wait, the release of the last reference to the session, other use of
    the session, and the worker, whose every step is one [recv], one
    [try_recv], one [upgrade], or the closing of a batch. *)

From S2P Require Import Prelude Proto Errors Path Xdr Ops Rpc Compound Reply Replies Slots Owner Session SessionFacts Reads Writes WritesFacts Service.
Import NfsSession.

Module CloseWorker.

(** Where the worker is: at [recv]; in the loop of [try_recv]; at [upgrade];
    at [close_batch]; returned, its receiver dropped. *)
Inductive phase : Type := Receiving | Draining | Upgrading | Closing | Ended.

#[export] Instance phase_eq_dec : EqDecision phase.
Proof. solve_decision. Defined.

Record t : Type := mk {
  session : NfsSession.t;
  shared : bool;                  (* a reference to the session besides the worker's *)
  waiting : list OpenedFile.t;    (* sends that wait for room *)
  queue : list OpenedFile.t;
  at_phase : phase;
  batch : list OpenedFile.t;
  crashed : bool;                 (* the worker panicked *)
  (* what happened so far *)
  accepted : list OpenedFile.t;   (* sends that succeeded, in order *)
  returned : list OpenedFile.t;   (* files handed back to their senders *)
  closed : list (list OpenedFile.t * NfsSession.t * NfsSession.t);
    (* the batches dealt with, in order, each with the session before and after *)
}.

Definition initial (s : NfsSession.t) : t := mk s true [] [] Receiving [] false [] [] [].

Section worker.
Context (call : list Request.t → RpcPayload.t → res Error.t bytes) (ulid : nat → bytes).

(** One step of the worker; [None] when it waits or has returned. *)
Definition step (w : t) : option t :=
  match at_phase w with
  | Receiving =>
      match queue w with
      | opened :: rest =>
          Some (mk (session w) (shared w) (waiting w) rest Draining (batch w ++ [opened]) (crashed w)
                  (accepted w) (returned w) (closed w))
      | [] =>
          if shared w then None
          else Some (mk (session w) (shared w) (waiting w) [] Ended (batch w) (crashed w)
                       (accepted w) (returned w) (closed w))
      end
  | Draining =>
      if blen (batch w) <? MAX_DEFERRED_CLOSE_BATCH then
        match queue w with
        | opened :: rest =>
            Some (mk (session w) (shared w) (waiting w) rest Draining (batch w ++ [opened]) (crashed w)
                    (accepted w) (returned w) (closed w))
        | [] =>
            Some (mk (session w) (shared w) (waiting w) [] Upgrading (batch w) (crashed w)
                    (accepted w) (returned w) (closed w))
        end
      else
        Some (mk (session w) (shared w) (waiting w) (queue w) Upgrading (batch w) (crashed w)
                (accepted w) (returned w) (closed w))
  | Upgrading =>
      if bool_decide (batch w = []) then
        Some (mk (session w) (shared w) (waiting w) (queue w) Receiving (batch w) (crashed w)
                (accepted w) (returned w) (closed w))
      else
        Some (mk (session w) (shared w) (waiting w) (queue w) (if shared w then Closing else Ended) (batch w)
                (crashed w) (accepted w) (returned w) (closed w))
  | Closing =>
      match run_deferred_close_batch call ulid (batch w) (session w) with
      | (Panic, s) =>
          Some (mk s (shared w) (waiting w) (queue w) Ended (batch w) true (accepted w) (returned w) (closed w))
      | (_, s) =>
          Some (mk s (shared w) (waiting w) (queue w) Receiving [] (crashed w) (accepted w) (returned w)
                  (closed w ++ [(batch w, session w, s)]))
      end
  | Ended => None
  end.

(** What the tasks around the worker do. *)
Inductive event : Type :=
| Defer (opened : OpenedFile.t)   (* a task calls [defer_close] *)
| Admit (i : nat)                 (* a waiting send gets room *)
| Reject (i : nat)                (* a waiting send finds the receiver gone *)
| Cancel (i : nat)                (* a waiting send is dropped *)
| Release                         (* the last other reference goes *)
| Run.                            (* the worker takes a step *)

Definition happens (e : event) (w : t) : option t :=
  match e with
  | Defer opened =>
      if shared w then
        Some (mk (session w) true (waiting w ++ [opened]) (queue w) (at_phase w) (batch w) (crashed w)
                (accepted w) (returned w) (closed w))
      else None
  | Admit i =>
      match waiting w !! i with
      | Some opened =>
          if bool_decide (at_phase w = Ended) || (DEFERRED_CLOSE_QUEUE_CAPACITY <=? blen (queue w)) then None
          else Some (mk (session w) (shared w) (base.delete i (waiting w)) (queue w ++ [opened]) (at_phase w)
                       (batch w) (crashed w) (accepted w ++ [opened]) (returned w) (closed w))
      | None => None
      end
  | Reject i =>
      match waiting w !! i with
      | Some opened =>
          if bool_decide (at_phase w = Ended)
          then Some (mk (session w) (shared w) (base.delete i (waiting w)) (queue w) (at_phase w) (batch w)
                       (crashed w) (accepted w) (returned w ++ [opened]) (closed w))
          else None
      | None => None
      end
  | Cancel i =>
      match waiting w !! i with
      | Some _ =>
          Some (mk (session w) (shared w) (base.delete i (waiting w)) (queue w) (at_phase w) (batch w)
                  (crashed w) (accepted w) (returned w) (closed w))
      | None => None
      end
  | Release =>
      match waiting w with
      | [] => Some (mk (session w) false [] (queue w) (at_phase w) (batch w) (crashed w)
                      (accepted w) (returned w) (closed w))
      | _ => None
      end
  | Run => step w
  end.

Definition set_session (s : NfsSession.t) (w : t) : t :=
  mk s (shared w) (waiting w) (queue w) (at_phase w) (batch w) (crashed w) (accepted w) (returned w) (closed w).

(** The runs of a session's worker: the events, and in between any use of the
    session by the tasks that share it. *)
Inductive reach (s0 : NfsSession.t) : t → Prop :=
| reach_initial : reach s0 (initial s0)
| reach_event w e w' :
    reach s0 w → happens e w = Some w' → match e with Defer f => opened_wf f | _ => True end → reach s0 w'
| reach_use w s : reach s0 w → session_ok s → reach s0 (set_session s w).

Fixpoint run_events (l : list event) (w : t) : option t :=
  match l with
  | [] => Some w
  | e :: l => match happens e w with Some w' => run_events l w' | None => None end
  end.

(** [n] steps of the worker alone. *)
Fixpoint run_worker (n : nat) (w : t) : t :=
  match n with
  | O => w
  | S n => match step w with Some w' => run_worker n w' | None => w end
  end.
End worker.
End CloseWorker.
Import CloseWorker.

(** ** Closing a batch does not panic *)

Lemma close_wire_len f : opened_wf f →
  blen (NfsOp.wire (NfsOp.PutFh (OpenedFile.fh f))) ≤ 200
  ∧ blen (NfsOp.wire (NfsOp.Close (OpenedFile.close_seqid f) (OpenedFile.stateid f))) ≤ 200.
Proof.
  intros [Hh (_ & _ & Hs)]. unfold handle_wf, NFS4_FHSIZE in Hh. unfold NfsOp.wire. cbn [NfsOp.wire_args].
  unfold StateId.wire. rewrite !blen_app, !blen_wire_u32, blen_wire_opaque, Hs.
  pose proof (xdr_padding_bound (blen (OpenedFile.fh f))). lia.
Qed.

Lemma close_ops_cons f l : close_ops (f :: l) =
  NfsOp.PutFh (OpenedFile.fh f) :: NfsOp.Close (OpenedFile.close_seqid f) (OpenedFile.stateid f) :: close_ops l.
Proof. done. Qed.

Lemma close_ops_wf l : Forall opened_wf l →
  Forall NfsOp.wf (close_ops l) ∧ blen (close_ops l) = 2 * blen l
  ∧ blen (mjoin (NfsOp.wire <$> close_ops l)) ≤ 400 * blen l.
Proof.
  induction 1 as [|f l Hf _ (IH1 & IH2 & IH3)]; [done|]. rewrite close_ops_cons. split_and!.
  - constructor; [|constructor; [|done]].
    + destruct Hf as [Hf _]. unfold handle_wf, NFS4_FHSIZE in Hf. cbn. ulia.
    + by destruct Hf.
  - rewrite !blen_cons, IH2. lia.
  - destruct (close_wire_len f Hf). rewrite !fmap_cons, !mjoin_cons, !blen_app, blen_cons. lia.
Qed.

Lemma encodable_closes tag l : blen tag ≤ 64 → Forall opened_wf l → blen l ≤ MAX_DEFERRED_CLOSE_BATCH →
  encodable tag (close_ops l).
Proof.
  intros Ht Hl Hn. destruct (close_ops_wf l Hl) as (H1 & H2 & H3). unfold MAX_DEFERRED_CLOSE_BATCH in Hn.
  apply encodable_intro; [ulia|ulia|done|]. rewrite blen_wire_opaque. pose proof (xdr_padding_bound (blen tag)). ulia.
Qed.

(** ** What dealing with a batch means

    A file is closed when a request with its CLOSE was answered in full.  When
    a batch cannot be closed as a whole, the CLOSE of each of its files is
    asked for on its own. *)

(** [q] closes the files [l], and the server carried it out. *)
Definition closing (l : list OpenedFile.t) (q : Request.t) : Prop :=
  Request.ops q = close_ops l ∧ ∃ b, Request.reply q = Ok b ∧ answer_whole b (close_ops l).

Section batches.
Context (call : list Request.t → RpcPayload.t → res Error.t bytes) (ulid : nat → bytes).

(** The session sends no request for [ops] in the state [s]. *)
Definition turned_away (tag : str) (ops : list NfsOp.t) (s : NfsSession.t) : Prop :=
  ∃ e, compound_raw_once call ulid tag ops s = (Err e, s) ∧ Error.is_request_not_sent e = true.

(** The CLOSE of [f] alone, from [s] to [s']: it was asked for, and the last
    of the requests closed the file unless an error came back; or the session
    takes no requests. *)
Inductive close_asked (f : OpenedFile.t) (s s' : NfsSession.t) : Prop :=
| asked_closed before q :
    history s' = history s ++ before ++ [q] → Forall (λ q, Request.ops q = close_ops [f]) before →
    closing [f] q → close_asked f s s'
| asked_failed reqs e :
    history s' = history s ++ reqs → reqs ≠ [] → Forall (λ q, Request.ops q = close_ops [f]) reqs →
    (close_file call ulid f s).1 = Err e → close_asked f s s'
| asked_away :
    s' = s → turned_away (str_of "close") (close_ops [f]) s → close_asked f s s'.

Inductive each_asked : list OpenedFile.t → NfsSession.t → NfsSession.t → Prop :=
| each_none s : each_asked [] s s
| each_next f l s s1 s2 : close_asked f s s1 → each_asked l s1 s2 → each_asked (f :: l) s s2.

(** A batch, from [s] to [s']: requests that closed all of its files, or one
    of them failed and the files were asked for one by one. *)
Inductive dealt_with (files : list OpenedFile.t) (s s' : NfsSession.t) : Prop :=
| dealt_together chunks reqs :
    history s' = history s ++ reqs → mjoin chunks = files → Forall2 closing chunks reqs → dealt_with files s s'
| dealt_each s1 reqs :
    history s1 = history s ++ reqs → each_asked files s1 s' → dealt_with files s s'.

Context `{!Transport call}.

(** A run of the retry loop that leaves no request was refused by the session. *)
Lemma detailed_silent {A} tag ops (decode : list Z → res CompoundDecodeError.t A) retry s :
  session_ok s → encodable tag ops → (∀ b, bytes_wf b → decode b ≠ Panic) →
  let '(_, (_, s')) := compound_decode_detailed call ulid tag ops decode retry (0, s) in
  history s' = history s → s' = s ∧ turned_away tag ops s.
Proof using Transport0.
  intros Hok Henc Hdec. unfold compound_decode_detailed.
  set (fuel := Z.to_nat _). assert (Hf : (Z.to_nat (NfsConfig.transient_retries (config s) - 0) ≤ fuel)%nat) by lia.
  clearbody fuel. cbn [compound_decode_loop].
  pose proof (compound_raw_once_cases call ulid tag ops s Hok Henc) as Hx.
  destruct (compound_raw_once call ulid tag ops s) as [rr s1] eqn:Hraw. destruct Hx as [Hx Hok1].
  assert (Hgrown : ∀ s1 q, history s1 = history s ++ [q] → ∀ new, history s1 ++ new = history s → False).
  { intros s2 q Hh new Hn%(f_equal length). rewrite Hh, !length_app in Hn. cbn in Hn. lia. }
  destruct Hx as [e Hns|i x e s1 Hi Hu Hns Hh Hsl Hfr Hfl|i x reply e s1 Hi Hu Hrep Hh Hsl Hfr Hfl
                 |i x b result s1 Hi Hu Hd Hwf Hh Hsl Hfr Hfl1 Hfl2].
  - intros _. split; [done|]. by exists e.
  - intros Hq. exfalso. apply (Hgrown _ _ Hh []). by rewrite app_nil_r.
  - intros Hq. exfalso. apply (Hgrown _ _ Hh []). by rewrite app_nil_r.
  - pose proof (Hgrown _ _ Hh []) as Hg. rewrite app_nil_r in Hg.
    destruct (decode b) as [v|err|] eqn:Hdb; [by intros ?%Hg| |by apply Hdec in Hdb].
    destruct (retry && transient_compound_retry_is_safe ops err) eqn:Hs; [|by intros ?%Hg].
    unfold retry_transient_compound_error.
    destruct (CompoundDecodeError.transient_status err) eqn:Htr; [|by intros ?%Hg]. unfold claim_transient_retry.
    destruct (Z.leb_spec (NfsConfig.transient_retries (config s1)) 0); [by intros ?%Hg|].
    assert (Hcfg : config s1 = config s) by (by destruct Hfr as ((_ & _ & _ & _ & _ & _ & ? & _) & _)).
    set (s2 := sleep _ s1).
    pose proof (compound_decode_loop_spec call ulid tag ops decode Henc Hdec fuel retry (0 + 1) s2 Hok1 ltac:(lia)) as Hl.
    cbn [config sleep s2] in Hl. rewrite Hcfg in *. specialize (Hl ltac:(lia)).
    destruct (compound_decode_loop _ _ _ _ _ _ _ _) as [r [a' s']]. destruct Hl as (retries & last & Hl).
    intros Hq. exfalso. apply (Hgrown s1 _ Hh (retries ++ last)). rewrite <- Hq.
    exact (eq_sym (lp_history _ _ _ _ _ _ _ _ _ _ _ Hl)).
Qed.

Lemma close_file_asked f s : opened_wf f → session_ok s →
  let '(r, s') := close_file call ulid f s in session_ok s' ∧ close_asked f s s' ∧ r ≠ Panic.
Proof using Transport0.
  intros Hf Hs. pose proof (asked_failed f s) as Hfail.
  unfold close_file, sbind, compound_decode, compound_decode_with in *.
  pose proof (encodable_closes (str_of "close") [f] ltac:(by vm_compute) ltac:(by constructor) ltac:(done)) as Henc.
  change [NfsOp.PutFh (OpenedFile.fh f); NfsOp.Close (OpenedFile.close_seqid f) (OpenedFile.stateid f)]
    with (close_ops [f]) in *.
  pose proof (compound_decode_detailed_spec call ulid (str_of "close") _ (λ b, decode_close_compound b CloseShape.File None)
    Henc (decode_close_total _ _) true 0 s Hs ltac:(lia)) as H.
  pose proof (detailed_silent (str_of "close") _ (λ b, decode_close_compound b CloseShape.File None) true s Hs Henc
    (decode_close_total _ _)) as Hsilent.
  destruct (compound_decode_detailed call ulid _ _ _ true (0, s)) as [r [a s']]. destruct H as (retries & last & H).
  destruct H as [Lh Lo _ _ _ _ _ _ _ Lok Lres].
  assert (Hours : Forall (λ q, Request.ops q = close_ops [f]) (retries ++ last)).
  { eapply Forall_impl; [exact Lo|]. by intros q [_ ?]. }
  destruct r as [[]|e|]; cbn [map_err] in *; [| |done].
  - split; [done|]. split; [|done]. destruct Lres as (q & b & -> & Hb & Hwf & Hd).
    rewrite Forall_app in Hours. destruct Hours as [Hre Hq]. apply (asked_closed f s s' retries q); [done..|].
    split; [by inversion Hq|]. exists b. split; [done|].
    apply (decoder_whole (D_close CloseShape.File None) b); [done..|]. cbn [decode]. by rewrite Hd.
  - split; [done|]. split; [|done]. destruct (decide (retries ++ last = [])) as [Hnil|Hne].
    + rewrite Hnil, app_nil_r in Lh. destruct (Hsilent Lh). by apply asked_away.
    + by eapply Hfail.
Qed.

Lemma for_each_asked l s : Forall opened_wf l → session_ok s →
  let '(r, s') := for_each (close_individually call ulid) l s in r = Ok tt ∧ session_ok s' ∧ each_asked l s s'.
Proof using Transport0.
  intros Hl. induction Hl as [|f l Hf _ IH] in s |- *; intros Hs; [by split_and!; [..|constructor]|].
  cbn [for_each]. unfold sbind, close_individually at 1. pose proof (close_file_asked f s Hf Hs) as H.
  destruct (close_file call ulid f s) as [r s1]. destruct H as (Hs1 & Hask & Hr).
  assert (Hnext : let '(r, s') := for_each (close_individually call ulid) l s1 in
    r = Ok tt ∧ session_ok s' ∧ each_asked (f :: l) s s').
  { specialize (IH s1 Hs1). destruct (for_each _ l s1) as [r2 s2]. destruct IH as (-> & Hs2 & Heach).
    split_and!; [done..|]. by eapply each_next. }
  by destruct r.
Qed.

Lemma batch_dealt_with batch s : Forall opened_wf batch → blen batch ≤ MAX_DEFERRED_CLOSE_BATCH → session_ok s →
  let '(r, s') := run_deferred_close_batch call ulid batch s in
  r = Ok tt ∧ session_ok s' ∧ dealt_with batch s s'.
Proof using Transport0.
  intros Hb Hn Hs. unfold run_deferred_close_batch.
  pose proof (close_batch_turns_spec call ulid (length batch) batch s (le_n _) Hs) as H. unfold close_batch.
  destruct (close_batch_turns call ulid (length batch) batch s) as [r s1].
  destruct H as (Hok & _ & chunks & reqs & Hh & Hops & _ & Hr).
  { intros l Hl. apply encodable_closes; [by vm_compute|rewrite Forall_forall in *; eauto using elem_of_sublist|].
    apply sublist_length in Hl. unfold blen in *. lia. }
  destruct r as [[]|e|]; [| |done].
  - split_and!; [done..|]. destruct Hr as [Hj Hans]. apply (dealt_together _ _ _ chunks reqs); [done..|].
    clear -Hops Hans. induction Hans as [|q chunk reqs chunks (b & Hq & Hw) _ IH]; cbn in Hops; [constructor|].
    injection Hops as Hop Hops. constructor; [|by apply IH]. split; [done|]. by exists b.
  - pose proof (for_each_asked batch s1 Hb Hok) as H. destruct (for_each _ batch s1) as [r s2].
    destruct H as (-> & Hs2 & Heach). split_and!; [done..|]. by apply (dealt_each _ _ _ s1 reqs).
Qed.
End batches.

(** ** The invariant *)

Definition closed_files (c : list OpenedFile.t * NfsSession.t * NfsSession.t) : list OpenedFile.t := c.1.1.

Section invariant.
Context (call : list Request.t → RpcPayload.t → res Error.t bytes) (ulid : nat → bytes) `{!Transport call}.

Record worker_ok (w : t) : Prop := {
  wo_files : accepted w = mjoin (closed_files <$> closed w) ++ batch w ++ queue w;
  wo_queue : blen (queue w) ≤ DEFERRED_CLOSE_QUEUE_CAPACITY;
  wo_batch : blen (batch w) ≤ MAX_DEFERRED_CLOSE_BATCH;
  wo_batches : Forall (λ c, 1 ≤ blen (closed_files c) ≤ MAX_DEFERRED_CLOSE_BATCH) (closed w);
  wo_closed : Forall (λ '(files, s, s'), dealt_with call ulid files s s') (closed w);
  wo_phase : match at_phase w with
             | Receiving => batch w = []
             | Draining | Upgrading | Closing => batch w ≠ []
             | Ended => shared w = false
             end;
  wo_waiting : shared w = false → waiting w = [];
  wo_returned : returned w = [];
  wo_alive : crashed w = false;
  wo_session : session_ok (session w);
  wo_wf : Forall opened_wf (waiting w ++ batch w ++ queue w);
}.

Lemma initial_ok s : session_ok s → worker_ok (initial s).
Proof. intros Hs. by split. Qed.

Lemma Forall_delete_mid {A} (P : A → Prop) i l k : Forall P (l ++ k) → Forall P (base.delete i l ++ k).
Proof.
  rewrite !Forall_app. intros [Hl Hk]. split; [|done]. rewrite Forall_forall in *. intros x Hx. apply Hl.
  eapply elem_of_submseteq; [exact Hx|]. apply sublist_submseteq, sublist_delete.
Qed.

Lemma step_ok w w' : worker_ok w → step call ulid w = Some w' → worker_ok w'.
Proof using Transport0.
  intros [Hf Hq Hb Hbs Hcl Hp Hw Hr Ha Hs Hwf]. unfold step. destruct w as [s sh wait q ph b cr acc ret cl]. cbn in *.
  unfold MAX_DEFERRED_CLOSE_BATCH, DEFERRED_CLOSE_QUEUE_CAPACITY in *. destruct ph.
  - destruct q as [|f q]; [destruct sh; [done|]; intros [= <-]; by split|]. intros [= <-]. subst b. split; cbn; try done.
    + rewrite blen_cons in Hq. unfold DEFERRED_CLOSE_QUEUE_CAPACITY. lia.
  - destruct (Z.ltb_spec (blen b) 16).
    + destruct q as [|f q]; intros [= <-]; [by split|]. split; cbn; try done.
      * by rewrite Hf, <- app_assoc.
      * rewrite blen_cons in Hq. unfold DEFERRED_CLOSE_QUEUE_CAPACITY. lia.
      * rewrite blen_app, blen_cons, blen_nil. unfold MAX_DEFERRED_CLOSE_BATCH. lia.
      * by destruct b.
      * by rewrite <- app_assoc.
    + intros [= <-]. by split.
  - rewrite bool_decide_eq_false_2 by done. intros [= <-]. split; cbn; try done. by destruct sh.
  - assert (Hbw : Forall opened_wf b) by (rewrite !Forall_app in Hwf; tauto).
    pose proof (batch_dealt_with call ulid b s Hbw Hb Hs) as H.
    destruct (run_deferred_close_batch call ulid b s) as [r s']. destruct H as (-> & Hs' & Hdealt).
    intros [= <-]. split; cbn; try done.
    + rewrite Hf, fmap_app, join_app. cbn. by rewrite app_nil_r, <- app_assoc.
    + apply Forall_app. split; [done|]. constructor; [|done]. cbn. destruct b; [done|].
      rewrite blen_cons in *. pose proof (blen_nonneg b). unfold MAX_DEFERRED_CLOSE_BATCH. lia.
    + apply Forall_app. split; [done|]. by constructor.
    + rewrite !Forall_app in *. naive_solver.
  - done.
Qed.

Lemma happens_ok e w w' : worker_ok w → match e with Defer f => opened_wf f | _ => True end →
  happens call ulid e w = Some w' → worker_ok w'.
Proof using Transport0.
  intros Hok He. destruct e as [f|i|i|i| |]; [..|by apply step_ok];
    destruct Hok as [Hf Hq Hb Hbs Hcl Hp Hw Hr Ha Hs Hwf]; cbn.
  - destruct (shared w) eqn:Hsh; [|done]. intros [= <-]. split; cbn; try done.
    rewrite <- app_assoc, !Forall_app in *. naive_solver.
  - destruct (waiting w !! i) as [f|] eqn:Hi; [|done].
    destruct (bool_decide_reflect (at_phase w = Ended)) as [|Hne]; [done|]. cbn [orb].
    destruct (Z.leb_spec DEFERRED_CLOSE_QUEUE_CAPACITY (blen (queue w))); [done|]. intros [= <-].
    pose proof (list_elem_of_lookup_2 _ _ _ Hi) as Hin. split; cbn; try done.
    + by rewrite Hf, <- !app_assoc.
    + rewrite blen_app, blen_cons, blen_nil. lia.
    + intros Hsh. apply Hw in Hsh. by rewrite Hsh in Hi.
    + pose proof (Forall_delete_mid _ i _ _ Hwf) as Hwf'. rewrite !Forall_app in Hwf, Hwf'.
      destruct Hwf as [Hwt _], Hwf' as (H1 & H2 & H3). rewrite Forall_forall in Hwt.
      rewrite !Forall_app. split_and!; [done..|]. constructor; [by apply Hwt|done].
  - destruct (waiting w !! i) as [f|] eqn:Hi; [|done].
    destruct (bool_decide_reflect (at_phase w = Ended)) as [He'|]; [|done]. rewrite He' in Hp.
    apply Hw in Hp. by rewrite Hp in Hi.
  - destruct (waiting w !! i) as [f|] eqn:Hi; [|done]. intros [= <-]. split; cbn; try done.
    + intros Hsh. apply Hw in Hsh. by rewrite Hsh in Hi.
    + by apply Forall_delete_mid.
  - destruct (waiting w) eqn:Hwt; [|done]. intros [= <-]. split; cbn; try done. by destruct (at_phase w).
Qed.

Lemma reach_ok s0 w : session_ok s0 → reach call ulid s0 w → worker_ok w.
Proof using Transport0.
  intros Hs. induction 1 as [|w e w' _ IH Hh He|w s _ IH Hs'].
  - by apply initial_ok.
  - by eapply happens_ok.
  - by destruct IH; split.
Qed.

(** ** Progress *)

(** The steps the worker needs until it waits for files: four for each file
    that is queued, and those that finish the batch under way. *)
Definition work (w : t) : nat :=
  4 * length (queue w)
  + match at_phase w with Receiving => 0 | Draining => 3 | Upgrading => 2 | Closing => 1 | Ended => 0 end.

(** A step while the session is shared, if there is work. *)
Lemma step_works w : worker_ok w → shared w = true → (0 < work w)%nat →
  ∃ w', step call ulid w = Some w' ∧ (work w' < work w)%nat ∧ shared w' = true ∧ accepted w' = accepted w.
Proof using Transport0.
  intros [Hf Hq Hb Hbs Hcl Hp Hw Hr Ha Hs Hwf] Hsh Hwork. unfold step, work in *.
  destruct w as [s sh wait q ph b cr acc ret cl]. cbn in *. subst sh. destruct ph.
  - destruct q as [|f q]; [cbn in Hwork; lia|]. eexists. split; [done|]. cbn. split_and!; [lia|done..].
  - destruct (blen b <? _); [destruct q as [|f q]|]; (eexists; split; [done|]; cbn; split_and!; [lia|done..]).
  - rewrite bool_decide_eq_false_2 by done. eexists. split; [done|]. cbn. split_and!; [lia|done..].
  - assert (Hbw : Forall opened_wf b) by (rewrite !Forall_app in Hwf; tauto).
    pose proof (batch_dealt_with call ulid b s Hbw Hb Hs) as H.
    destruct (run_deferred_close_batch call ulid b s) as [r s']. destruct H as (-> & _).
    eexists. split; [done|]. cbn. split_and!; [lia|done..].
  - done.
Qed.

Lemma worker_drains w : worker_ok w → shared w = true →
  ∃ n, (n ≤ work w)%nat ∧ let w' := run_worker call ulid n w in
    worker_ok w' ∧ shared w' = true ∧ accepted w' = accepted w ∧ work w' = 0%nat.
Proof using Transport0.
  remember (work w) as m eqn:Hm. revert w Hm. induction m as [m IH] using lt_wf_ind. intros w Hm Hok Hsh.
  destruct (decide (m = 0%nat)) as [->|Hne]; [exists 0%nat; split; [lia|]; by split_and!|].
  destruct (step_works w Hok Hsh ltac:(lia)) as (w1 & Hst & Hlt & Hsh1 & Hacc1).
  pose proof (step_ok _ _ Hok Hst) as Hok1.
  destruct (IH (work w1) ltac:(lia) w1 eq_refl Hok1 Hsh1) as (n & Hn & H).
  exists (S n). split; [lia|]. cbn [run_worker]. rewrite Hst. cbv zeta in *. by rewrite <- Hacc1.
Qed.
End invariant.

(** C4: every file left to the worker is closed.  Whatever the tasks do, in
    whatever order sends, cancellations, steps of the worker and other use of
    the session come: the files accepted are, in order, those in the batches
    dealt with so far, the batch under way and the queue, so none is lost,
    reordered or dealt with twice; batches hold between one and sixteen files
    and the queue never exceeds its capacity.  A batch is dealt with by
    requests that carry the CLOSE of each of its files, in order, and that the
    server answered in full; or, when that fails, the CLOSE of each file is
    asked for on its own, and the file is closed, or an error came back, or the
    session took no requests at all.  As long as anyone holds the session the
    worker has not ended, hands no file back, and needs at most four steps for
    each queued file and three more until every accepted file is in a batch
    that was dealt with. *)
Theorem deferred_files_closed call ulid s0 w
    (Htransport : Transport call) (Hs : session_ok s0) (Hreach : reach call ulid s0 w) :
  accepted w = mjoin (closed_files <$> closed w) ++ batch w ++ queue w
  ∧ Forall (λ c, 1 ≤ blen (closed_files c) ≤ MAX_DEFERRED_CLOSE_BATCH) (closed w)
  ∧ Forall (λ '(files, s, s'), dealt_with call ulid files s s') (closed w)
  ∧ blen (batch w) ≤ MAX_DEFERRED_CLOSE_BATCH ∧ blen (queue w) ≤ DEFERRED_CLOSE_QUEUE_CAPACITY
  ∧ crashed w = false
  ∧ (shared w = true → at_phase w ≠ Ended ∧ returned w = []
     ∧ ∃ n, (n ≤ 4 * length (queue w) + 3)%nat ∧ let w' := run_worker call ulid n w in
         at_phase w' = Receiving ∧ queue w' = [] ∧ mjoin (closed_files <$> closed w') = accepted w
         ∧ Forall (λ '(files, s, s'), dealt_with call ulid files s s') (closed w')).
Proof.
  pose proof (reach_ok call ulid s0 w Hs Hreach) as Hok. pose proof Hok as [Hf Hq Hb Hbs Hcl Hp _ Hr Ha _ _].
  split_and!; [done..|]. intros Hsh. split_and!; [by intros He; rewrite He, Hsh in Hp|done|].
  destruct (worker_drains call ulid w Hok Hsh) as (n & Hn & Hok' & Hsh' & Hacc & Hw). exists n. cbv zeta in *.
  split; [unfold work in Hn; destruct (at_phase w); lia|].
  destruct Hok' as [Hf' _ _ _ Hcl' Hp' _ _ _ _ _]. unfold work in Hw.
  destruct (at_phase (run_worker call ulid n w)); try (exfalso; lia); [|by rewrite Hp' in Hsh'].
  assert (Hq' : queue (run_worker call ulid n w) = []) by (destruct (queue (run_worker call ulid n w)); [done|cbn in Hw; lia]).
  split_and!; [done..| |done]. by rewrite <- Hacc, Hf', Hp', Hq', !app_nil_r.
Qed.

(** ** A sample: three files, the third behind a batch under way *)

Lemma worker_events_reach call ulid s0 l w w' :
  reach call ulid s0 w → Forall (λ e, match e with Defer f => opened_wf f | _ => True end) l →
  run_events call ulid l w = Some w' → reach call ulid s0 w'.
Proof.
  intros Hw Hl. induction Hl as [|e l He _ IH] in w, Hw |- *; cbn [run_events]; [by intros [= <-]|].
  destruct (happens call ulid e w) as [w1|] eqn:Hh; [|done]. apply IH. by eapply reach_event.
Qed.

Definition three_deferred : list event :=
  [Defer sample_file; Admit 0; Run; Defer sample_file; Admit 0; Run; Run; Defer sample_file; Admit 0].

Lemma sample_file_wf : opened_wf sample_file.
Proof. split; [by vm_compute|]. split; [by vm_compute|]. split; [repeat constructor; by vm_compute|by vm_compute]. Qed.

(** The batch of two fails at its second CLOSE; the first file is then found
    closed, and the second is closed on its own; the third is closed in the
    next batch. *)
Definition close_answers : list (res Error.t bytes) :=
  [Ok (sample_response status.BAD_STATEID 5 1
         (ok_reply OpCode.PutFh ++ ok_reply OpCode.Close ++ replicate 16 0
          ++ ok_reply OpCode.PutFh ++ fail_reply OpCode.Close status.BAD_STATEID));
   Ok (sample_response status.BAD_STATEID 3 2
         (ok_reply OpCode.PutFh ++ fail_reply OpCode.Close status.BAD_STATEID));
   Ok (sample_response 0 3 3 (ok_reply OpCode.PutFh ++ ok_reply OpCode.Close ++ replicate 16 0));
   Ok (sample_response 0 3 4 (ok_reply OpCode.PutFh ++ ok_reply OpCode.Close ++ replicate 16 0))].

Lemma close_answers_transport : Transport (scripted close_answers).
Proof. apply scripted_transport. repeat constructor; by vm_compute. Qed.

Lemma deferred_files_closed_witness :
  ∃ w, run_events (scripted close_answers) (λ _, []) three_deferred (initial sample_session) = Some w
    ∧ length (batch w) = 2%nat ∧ queue w = [sample_file]
    ∧ length (history (session (run_worker (scripted close_answers) (λ _, []) 7 w))) = 4%nat
    ∧ ∃ n, (n ≤ 7)%nat ∧ let w' := run_worker (scripted close_answers) (λ _, []) n w in
        mjoin (closed_files <$> closed w') = [sample_file; sample_file; sample_file]
        ∧ Forall (λ '(files, s, s'), dealt_with (scripted close_answers) (λ _, []) files s s') (closed w').
Proof.
  destruct (run_events (scripted close_answers) (λ _, []) three_deferred (initial sample_session)) as [w|] eqn:Hrun;
    [|vm_compute in Hrun; discriminate Hrun].
  exists w. split; [reflexivity|].
  assert (Hr : reach (scripted close_answers) (λ _, []) sample_session w).
  { eapply worker_events_reach; [apply reach_initial| |exact Hrun].
    repeat (apply Forall_cons_2; [first [exact sample_file_wf|exact I]|]). apply Forall_nil_2. }
  pose proof (deferred_files_closed (scripted close_answers) (λ _, []) sample_session w close_answers_transport
    sample_session_ok Hr) as H.
  assert (Hw : length (batch w) = 2%nat ∧ queue w = [sample_file] ∧ shared w = true
    ∧ accepted w = [sample_file; sample_file; sample_file]
    ∧ length (history (session (run_worker (scripted close_answers) (λ _, []) 7 w))) = 4%nat)
    by (vm_compute in Hrun; injection Hrun as <-; split_and!; vm_compute; reflexivity).
  destruct Hw as (Hb & Hq & Hsh & Hacc & Hlen). split; [exact Hb|]. split; [exact Hq|]. split; [exact Hlen|].
  destruct H as (_ & _ & _ & _ & _ & _ & H). destruct (H Hsh) as (_ & _ & n & Hn & _ & _ & Hc & Hd).
  rewrite Hq in Hn. rewrite Hacc in Hc. exists n. split; [exact Hn|]. split; [exact Hc|exact Hd].
Defined.
