(* ===== verification/Put.v ===== *)
(** * Publishing a file (src/client.rs, [put])

    A put writes a temporary file and publishes it at its final name, in one
    fused compound when the body is small, else by a write and a closing
    compound.  The client retries an operation once after it replaced the
    session.  This file models [put] with its retries over the operations of
    a session; PutFacts shows that a publish that may have happened is never
    replayed. *)

From S2P Require Import Prelude Proto Errors Path Xdr Ops Rpc Compound Reply Replies Slots Owner Session Reads Writes.

Definition TEMP_FILE_CREATE_RETRIES : nat := 8.
Definition RECONNECT_RETRIES : Z := 1.

Module PutMode.
Inductive t : Type := Overwrite | IfNotExists.
Definition create_new (mode : t) : bool := match mode with IfNotExists => true | Overwrite => false end.
End PutMode.

(** ** What an error says about a publish *)

Module PublishError.
Inductive t : Type := Published | AlreadyExists | NoPublish | OutcomeUnknown.
#[export] Instance eq_dec : EqDecision t.
Proof. solve_decision. Defined.
End PublishError.

Definition error_proves_operation_not_run (err : Error.t) : bool :=
  Error.is_request_not_sent err
  || (match Error.nfs_status_code err with Some _ => true | None => false end
      && negb (Error.is_nfs_operation err OpCode.Illegal)).

Definition classify_publish_error (mode : PutMode.t) (err : Error.t) : PublishError.t :=
  if PutMode.create_new mode && Error.is_nfs_operation err OpCode.Remove then PublishError.Published
  else if PutMode.create_new mode && Error.is_nfs_error err NfsStatus.EXIST OpCode.Link
  then PublishError.AlreadyExists
  else if error_proves_operation_not_run err then PublishError.NoPublish
  else PublishError.OutcomeUnknown.

Definition outcome_unknown_error (operation : string) (path : str) (operation_error : Error.t) : Error.t :=
  Error.outcome_unknown operation path
    "the operation failed after it may have reached the server: {operation_error}".

Definition put_operation_name (mode : PutMode.t) : string :=
  match mode with
  | PutMode.Overwrite => "overwrite put"
  | PutMode.IfNotExists => "create-new put"
  end.

Definition publish_result (mode : PutMode.t) (err : Error.t) (raw_path : str) : res Error.t unit :=
  match classify_publish_error mode err with
  | PublishError.Published => Ok tt
  | PublishError.AlreadyExists => Err (Error.already_exists raw_path)
  | PublishError.NoPublish => Err err
  | PublishError.OutcomeUnknown => Err (outcome_unknown_error (put_operation_name mode) raw_path err)
  end.

(** ** The session as a put sees it

    [new_ulid] is [Ulid::new] with its text form; [defer_close] hands the open
    file to the worker that closes files, or hands it back when the worker is
    gone. *)
Module PutService.
Class t (S : Type) : Type := mk {
  writes : WriteService.t S;
  new_ulid : S → str * S;
  fused_put_viable : Z → S → bool;
  try_put_fused : list str → str → str → bytes → bool →
    st S Error.t (option (OpenOutcome (Z * OpenedFile.t)));
  defer_close : OpenedFile.t → st S OpenedFile.t unit;
  close_file : OpenedFile.t → st S Error.t OpenedFile.t;
  remove : list str → str → st S Error.t RemoveOutcome;
  open_file : list str → str → st S Error.t (OpenOutcome OpenedFile.t);
  create_parent_dirs : list str → st S Error.t unit;
  close_publish : OpenedFile.t → list str → str → str → Z → option bytes → bool →
    st S Error.t OpenedFile.t;
}.
End PutService.
#[export] Existing Instance PutService.writes.

(** [let _ = m.await] *)
Definition ignore {S E A} (m : st S E A) : st S E unit := λ s,
  match m s with
  | (Panic, s) => (Panic, s)
  | (_, s) => (Ok tt, s)
  end.

Section put.
Context {S : Type} {service : PutService.t S} (order : nat → nat).

Definition temp_file_name : st S Error.t str := λ s,
  let '(ulid, s) := PutService.new_ulid s in (Ok (TEMP_FILE_PREFIX ++ ulid), s).

Fixpoint open_temp_file_loop (n : nat) (parent : list str) : st S Error.t (str * OpenedFile.t) :=
  match n with
  | O => sfail (Error.protocol "failed to allocate a unique temporary file after {TEMP_FILE_CREATE_RETRIES} attempts")
  | Datatypes.S n =>
      let! temp_name := temp_file_name in
      let! outcome := PutService.open_file parent temp_name in
      match outcome with
      | Opened opened => sret (temp_name, opened)
      | OpenExists => open_temp_file_loop n parent
      end
  end.

Definition open_temp_file (parent : list str) : st S Error.t (str * OpenedFile.t) :=
  open_temp_file_loop TEMP_FILE_CREATE_RETRIES parent.

(** [if let Err(mut opened) = session.defer_close(opened).await { .. }]: the
    file is published, so a failure to close it is not reported. *)
Definition close_published (opened : OpenedFile.t) : st S Error.t unit := λ s,
  match PutService.defer_close opened s with
  | (Ok _, s) => (Ok tt, s)
  | (Err opened, s) => ignore (PutService.close_file opened) s
  | (Panic, s) => (Panic, s)
  end.

Fixpoint put_once_fused_loop (n : nat) (parent : list str) (name raw_path : str) (data : bytes)
    (mode : PutMode.t) : st S Error.t (option unit) :=
  match n with
  | O => sret None
  | Datatypes.S n =>
      let! temp_name := temp_file_name in
      λ s,
      match PutService.try_put_fused parent temp_name name data (PutMode.create_new mode) s with
      | (Ok (Some (Opened (_, opened))), s) =>
          (let! _ := close_published opened in sret (Some tt)) s
      | (Ok (Some OpenExists), s) => put_once_fused_loop n parent name raw_path data mode s
      | (Ok None, s) => (Ok None, s)
      | (Err err, s) =>
          (let! _ := ignore (PutService.remove parent temp_name) in
           match classify_publish_error mode err with
           | PublishError.Published => sret (Some tt)
           | PublishError.AlreadyExists => sfail (Error.already_exists raw_path)
           | PublishError.NoPublish =>
               if Error.is_retryable err then sfail err else sret None
           | PublishError.OutcomeUnknown =>
               sfail (outcome_unknown_error (put_operation_name mode) raw_path err)
           end) s
      | (Panic, s) => (Panic, s)
      end
  end.

Definition put_once_fused (parent : list str) (name raw_path : str) (data : bytes)
    (mode : PutMode.t) : st S Error.t (option unit) := λ s,
  if negb (PutService.fused_put_viable (blen data) s) then (Ok None, s)
  else put_once_fused_loop TEMP_FILE_CREATE_RETRIES parent name raw_path data mode s.

(** The temporary file, with the parent directories created when one is
    missing. *)
Definition open_temp_file_or_parents (parent : list str) : st S Error.t (str * OpenedFile.t) := λ s,
  match open_temp_file parent s with
  | (Err err, s) =>
      if Error.is_nfs_error err NfsStatus.NOENT OpCode.Lookup then
        (let! _ := PutService.create_parent_dirs parent in open_temp_file parent) s
      else (Err err, s)
  | other => other
  end.

(** The body is not written: close the temporary file and remove it. *)
Definition abandon_temp_file (parent : list str) (temp_name : str) (opened : OpenedFile.t)
    (err : Error.t) : st S Error.t unit := λ s,
  match PutService.close_file opened s with
  | (Panic, s) => (Panic, s)
  | (close_result, s) =>
      (let! _ := ignore (PutService.remove parent temp_name) in
       match close_result with
       | Err close_err => sfail (Error.with_close_failure err close_err)
       | _ => sfail err
       end) s
  end.

Definition publish_written (parent : list str) (name raw_path temp_name : str)
    (opened : OpenedFile.t) (outcome : WriteOutcome.t) (mode : PutMode.t) : st S Error.t unit := λ s,
  match PutService.close_publish opened parent temp_name name (WriteOutcome.bytes_written outcome)
          (WriteOutcome.unstable_verifier outcome) (PutMode.create_new mode) s with
  | (Ok _, s) => (Ok tt, s)
  | (Err err, s) =>
      (let! _ := ignore (PutService.remove parent temp_name) in
       slift (publish_result mode err raw_path)) s
  | (Panic, s) => (Panic, s)
  end.

Definition put_once (path : NfsPath) (raw_path : str) (data : bytes) (mode : PutMode.t)
  : st S Error.t unit :=
  let! (parent, name) := slift (path.parent_and_name path) in
  let! fused := put_once_fused parent name raw_path data mode in
  match fused with
  | Some _ => sret tt
  | None =>
      let! (temp_name, opened) := open_temp_file_or_parents parent in
      λ s,
      match write_bytes order opened data s with
      | (Ok outcome, s) => publish_written parent name raw_path temp_name opened outcome mode s
      | (Err err, s) => abandon_temp_file parent temp_name opened err s
      | (Panic, s) => (Panic, s)
      end
  end.
End put.

(** ** Retries with a new session *)

Definition should_reconnect (err : Error.t) (attempts : Z) : bool :=
  Error.requires_session_rebuild err && (attempts <? RECONNECT_RETRIES).

Section retry.
Context {C : Type} (generation : C → Z) (reconnect : Z → Z → Error.t → st C Error.t unit)
  (sleep : C → C).

(** [fuel]: one turn for each attempt that is left. *)
Fixpoint retry_reconnect_attempts (fuel : nat) (attempts max_attempts failed_generation : Z)
    (cause : Error.t) : st C Error.t Z := λ c,
  match fuel with
  | O => (Panic, c)
  | S fuel =>
      let attempts := attempts + 1 in
      match reconnect failed_generation attempts cause c with
      | (Ok _, c) => (Ok attempts, c)
      | (Err error, c) =>
          if attempts <? max_attempts
          then retry_reconnect_attempts fuel attempts max_attempts failed_generation cause (sleep c)
          else (Err error, c)
      | (Panic, c) => (Panic, c)
      end
  end.

Fixpoint retrying_loop {A} (fuel : nat) (attempts : Z) (operation : st C Error.t A) : st C Error.t A :=
  λ c,
  let generation := generation c in
  match operation c with
  | (Err err, c) =>
      if should_reconnect err attempts then
        match fuel with
        | O => (Panic, c)
        | S fuel =>
            match retry_reconnect_attempts (Z.to_nat (RECONNECT_RETRIES - attempts)) attempts
                    RECONNECT_RETRIES generation err c with
            | (Ok attempts, c) => retrying_loop fuel attempts operation c
            | (Err err, c) => (Err err, c)
            | (Panic, c) => (Panic, c)
            end
        end
      else (Err err, c)
  | other => other
  end.

(** The attempts are bounded by [RECONNECT_RETRIES], and so is the loop. *)
Definition retrying_session_operation {A} (operation : st C Error.t A) : st C Error.t A :=
  retrying_loop (Z.to_nat RECONNECT_RETRIES) 0 operation.
End retry.

Definition put {C} {service : PutService.t C} (order : nat → nat) (generation : C → Z)
    (reconnect : Z → Z → Error.t → st C Error.t unit) (sleep : C → C)
    (raw_path : str) (body : bytes) (mode : PutMode.t) : st C Error.t unit :=
  let! path := slift (path.file raw_path) in
  retrying_session_operation generation reconnect sleep (put_once order path raw_path body mode).

(** ** The client over a session

    [publishes] records every attempt to publish and its result. *)

Inductive attempt : Type :=
| Fused (result : res Error.t (option (OpenOutcome (Z * OpenedFile.t))))
| Separate (result : res Error.t OpenedFile.t).

Module ClientState.
Record t : Type := mk {
  session : NfsSession.t;
  generation : Z;
  ulids : nat;
  closing : list OpenedFile.t;
  worker : bool;
  publishes : list attempt;
}.

Definition set_session (x : NfsSession.t) (c : t) : t :=
  mk x (generation c) (ulids c) (closing c) (worker c) (publishes c).

Definition tried (a : attempt) (c : t) : t :=
  mk (session c) (generation c) (ulids c) (closing c) (worker c) (publishes c ++ [a]).

(** An operation of the session. *)
Definition on_session {A} (m : st NfsSession.t Error.t A) : st t Error.t A := λ c,
  let '(r, s) := m (session c) in (r, set_session s c).
End ClientState.

Section client.
Context (call : list Request.t → RpcPayload.t → res Error.t bytes) (ulid : nat → bytes)
  (ulid_text : nat → str).
Import ClientState.

#[export] Instance client_writes : WriteService.t ClientState.t := {|
  WriteService.write opened o d := on_session (Session.write call ulid opened o d);
  WriteService.write_and_commit opened o d := on_session (Session.write_and_commit call ulid opened o d);
  WriteService.write_chunk_size c := NfsConfig.write_chunk_size (NfsSession.config (session c));
  WriteService.pipeline_write_chunks c := NfsConfig.pipeline_write_chunks (NfsSession.config (session c));
  WriteService.session_slot_count c := Session.session_slot_count (session c);
|}.

(** [deferred_close_tx.send]: it fails only when the worker is gone. *)
Definition defer_close (opened : OpenedFile.t) : st ClientState.t OpenedFile.t unit := λ c,
  if worker c
  then (Ok tt, ClientState.mk (session c) (generation c) (ulids c) (closing c ++ [opened]) true (publishes c))
  else (Err opened, c).

#[export] Instance client_puts : PutService.t ClientState.t := {|
  PutService.writes := client_writes;
  PutService.new_ulid c :=
    (ulid_text (ulids c),
     ClientState.mk (session c) (generation c) (S (ulids c)) (closing c) (worker c) (publishes c));
  PutService.fused_put_viable len c := Session.fused_put_viable len (session c);
  PutService.try_put_fused parent temp_name name data create_new := λ c,
    let '(r, c) := on_session (Session.try_put_fused call ulid parent temp_name name data create_new) c in
    (r, tried (Fused r) c);
  PutService.defer_close := defer_close;
  PutService.close_file opened := on_session (Session.close_file call ulid opened);
  PutService.remove parent name := on_session (Session.remove call ulid parent name);
  PutService.open_file parent name := on_session (Session.open_file call ulid parent name);
  PutService.create_parent_dirs parent := on_session (Session.create_parent_dirs call ulid parent);
  PutService.close_publish opened parent temp_name name size verifier create_new := λ c,
    let '(r, c) := on_session (Session.close_publish call ulid opened parent temp_name name size verifier
                                 create_new) c in
    (r, tried (Separate r) c);
|}.
End client.
