(* ===== verification/PutFacts.v ===== *)
(** * A publish that may have happened is never replayed *)

From S2P Require Import Prelude Proto Errors Path Xdr Ops Rpc Compound Reply Replies Slots Owner Session SessionFacts Reads Writes Put.

(** ** What operations leave alone *)

Section leaves.
Context {S L : Type} (log : S → L).

Definition leaves {E A} (m : st S E A) : Prop := ∀ s, log (m s).2 = log s.

Lemma leaves_ret {E A} (a : A) : leaves (E:=E) (sret a).
Proof. done. Qed.
Lemma leaves_fail {E A} (e : E) : leaves (A:=A) (sfail e).
Proof. done. Qed.
Lemma leaves_panic {E A} : leaves (E:=E) (A:=A) spanic.
Proof. done. Qed.
Lemma leaves_lift {E A} (r : res E A) : leaves (slift r).
Proof. done. Qed.
Lemma leaves_bind {E A B} (m : st S E A) (k : A → st S E B) :
  leaves m → (∀ a, leaves (k a)) → leaves (sbind m k).
Proof.
  intros Hm Hk s. specialize (Hm s). unfold sbind. destruct (m s) as [[a|e|] s']; cbn in *; [|done..].
  by rewrite (Hk a s').
Qed.
Lemma leaves_ignore {E A} (m : st S E A) : leaves m → leaves (ignore m).
Proof. intros Hm s. specialize (Hm s). unfold ignore. by destruct (m s) as [[a|e|] s']. Qed.
Lemma leaves_asks {A} (f : S → A) : leaves (asks_write f).
Proof. done. Qed.
End leaves.

(** Goes through a function down to the operations it calls. *)
Ltac leaves_step :=
  repeat (cbn beta iota;
    match goal with
    | |- leaves _ (sret _) => apply leaves_ret
    | |- leaves _ (sfail _) => apply leaves_fail
    | |- leaves _ spanic => apply leaves_panic
    | |- leaves _ (slift _) => apply leaves_lift
    | |- leaves _ (asks_write _) => apply leaves_asks
    | |- leaves _ (ignore _) => apply leaves_ignore
    | |- leaves _ (sbind _ _) => apply leaves_bind; [|intros ?]
    | |- leaves _ (match ?x with _ => _ end) => destruct x
    end).

(** ** What operations record

    [carries x t]: the operation with the result [x] adds [t] to the record. *)
Section logged.
Context {X T : Type} (carries : X → list T → Prop).

(** [t] is what was recorded of [xs], in order. *)
Definition logged (xs : list X) (t : list T) : Prop := ∃ parts, t = concat parts ∧ Forall2 carries xs parts.

Lemma logged_nil : logged [] [].
Proof. by exists []. Qed.

Lemma logged_one x t : carries x t → logged [x] t.
Proof. intros H. exists [t]. cbn. rewrite app_nil_r. split; [done|by repeat constructor]. Qed.

Lemma logged_app xs1 xs2 t1 t2 : logged xs1 t1 → logged xs2 t2 → logged (xs1 ++ xs2) (t1 ++ t2).
Proof.
  intros (p1 & -> & H1) (p2 & -> & H2). exists (p1 ++ p2). split; [by rewrite concat_app|by apply Forall2_app].
Qed.

Lemma logged_snoc xs x t : logged (xs ++ [x]) t → ∃ t1 t2, t = t1 ++ t2 ∧ logged xs t1 ∧ carries x t2.
Proof.
  intros (parts & -> & Hc). apply Forall2_app_inv_l in Hc as (p1 & p2 & H1 & H2 & ->).
  inversion_clear H2 as [|? t2 ? ? Ha Hn]. inversion Hn. subst.
  exists (concat p1), t2. rewrite concat_app. cbn. rewrite app_nil_r. split_and!; [done|by exists p1|done].
Qed.

Lemma logged_cons_inv x xs t : logged (x :: xs) t → ∃ t1 t2, t = t1 ++ t2 ∧ carries x t1 ∧ logged xs t2.
Proof.
  intros (parts & -> & Hc). inversion_clear Hc as [|? p ? parts' Hx Hc']. exists p, (concat parts').
  split_and!; [done..|by exists parts'].
Qed.
End logged.

Lemma logged_itself {X} (xs t : list X) : logged (λ x t, t = [x]) xs t → t = xs.
Proof.
  intros (parts & -> & H). induction H as [|a p xs parts -> _ IH]; [done|]. cbn. by rewrite IH.
Qed.

(** What a session's WRITEs leave alone, writing a body leaves alone. *)
Section write_bytes.
Context {S L : Type} {service : WriteService.t S} (log : S → L) (opened : OpenedFile.t).
Hypothesis leaves_write : ∀ o d, leaves log (WriteService.write opened o d).
Hypothesis leaves_commit : ∀ o d, leaves log (WriteService.write_and_commit opened o d).

Lemma leaves_slice b a e : leaves log (bytes_slice b a e).
Proof using. unfold bytes_slice. leaves_step. Qed.

Lemma leaves_merged w1 w2 : leaves log (merged (S:=S) w1 w2).
Proof using. unfold merged. leaves_step. Qed.

Lemma leaves_single fuel o b n : leaves log (single_chunk_loop fuel opened o b n).
Proof using leaves_commit.
  revert o n. induction fuel as [|fuel IH]; intros o n; cbn [single_chunk_loop]; leaves_step;
    (apply leaves_slice || apply leaves_commit || apply IH || idtac).
Qed.

Lemma leaves_chunk_loop fuel m o b n w : leaves log (write_chunk_loop fuel opened m o b n w).
Proof using leaves_write.
  revert o n w. induction fuel as [|fuel IH]; intros o n w; cbn [write_chunk_loop]; leaves_step;
    (apply leaves_slice || apply leaves_write || apply leaves_merged || apply IH || idtac).
Qed.

Lemma leaves_chunk_all o b : leaves log (write_chunk_all opened o b).
Proof using leaves_write. unfold write_chunk_all. leaves_step. apply leaves_chunk_loop. Qed.

Lemma leaves_chunk o b : leaves log (write_chunk opened o b).
Proof using leaves_write.
  unfold write_chunk. leaves_step;
    (apply leaves_slice || apply leaves_write || apply leaves_chunk_all || apply leaves_merged).
Qed.

Lemma leaves_write_pipeline order fuel turn b d m p :
  leaves log (write_pipelined_loop order fuel turn opened b d m p).
Proof using leaves_write.
  revert turn p. induction fuel as [|fuel IH]; intros turn p s; cbn [write_pipelined_loop].
  - destruct (next_completion _ _) as [[[o n] rest]|]; [done|]. by case_match.
  - destruct (next_completion _ _) as [[[o n] rest]|]; [|by case_match].
    assert (Hc : leaves log (let! chunk := bytes_slice b o (o + n) in write_chunk opened o chunk)).
    { leaves_step; [apply leaves_slice|apply leaves_chunk]. }
    specialize (Hc s).
    destruct ((let! chunk := bytes_slice b o (o + n) in write_chunk opened o chunk) s) as [[w|e|] s'];
      cbn [snd] in Hc; rewrite <- Hc; [apply IH..|done].
Qed.

Lemma leaves_write_bytes order b : leaves log (write_bytes order opened b).
Proof using leaves_write leaves_commit.
  unfold write_bytes, write_single_chunk_committed, write_chunk_all_pipelined. leaves_step;
    (apply leaves_single || apply leaves_chunk_all || apply leaves_write_pipeline).
Qed.
End write_bytes.

(** ** The contract of the session

    [log] is what is recorded of publishes: the fused put and the closing
    compound add to it what [carries] relates to their result, and nothing else
    changes it. *)
Class PutContract {S T : Type} (service : PutService.t S) (mode : PutMode.t) (log : S → list T)
    (carries : attempt → list T → Prop) : Prop := {
  pc_try parent temp name data s :
    let '(r, s') := PutService.try_put_fused parent temp name data (PutMode.create_new mode) s in
    ∃ t, log s' = log s ++ t ∧ carries (Fused r) t;
  pc_publish opened parent temp name size v s :
    let '(r, s') := PutService.close_publish opened parent temp name size v (PutMode.create_new mode) s in
    ∃ t, log s' = log s ++ t ∧ carries (Separate r) t;
  pc_ulid s : log (PutService.new_ulid s).2 = log s;
  pc_write opened o d : leaves log (WriteService.write opened o d);
  pc_write_commit opened o d : leaves log (WriteService.write_and_commit opened o d);
  pc_defer opened : leaves log (PutService.defer_close opened);
  pc_close opened : leaves log (PutService.close_file opened);
  pc_remove parent name : leaves log (PutService.remove parent name);
  pc_open parent name : leaves log (PutService.open_file parent name);
  pc_parents parent : leaves log (PutService.create_parent_dirs parent);
}.

Lemma leaves_on_session {A} (m : st NfsSession.t Error.t A) :
  leaves ClientState.publishes (ClientState.on_session m).
Proof. intros c. unfold ClientState.on_session. by destruct (m (ClientState.session c)). Qed.

(** The client over a session keeps the contract, with its record of the
    attempts themselves. *)
#[export] Instance client_put_contract call ulid ulid_text mode :
  PutContract (client_puts call ulid ulid_text) mode ClientState.publishes (λ a t, t = [a]).
Proof.
  split; intros; try apply leaves_on_session.
  - cbn [PutService.try_put_fused client_puts].
    pose proof (leaves_on_session (try_put_fused call ulid parent temp name data (PutMode.create_new mode)) s) as H.
    destruct (ClientState.on_session _ s) as [r c]. cbn in *. rewrite H. by eexists.
  - cbn [PutService.close_publish client_puts].
    pose proof (leaves_on_session (close_publish call ulid opened parent temp name size v (PutMode.create_new mode)) s)
      as H.
    destruct (ClientState.on_session _ s) as [r c]. cbn in *. rewrite H. by eexists.
  - done.
  - intros c. cbn. unfold defer_close. by destruct (ClientState.worker c).
Qed.

(** ** The outcome of a put *)

(** The attempt is known not to have published: nothing was sent, the
    temporary name was taken, or the server named the operation that failed. *)
Definition unpublished (mode : PutMode.t) (a : attempt) : Prop :=
  match a with
  | Fused (Ok None) | Fused (Ok (Some OpenExists)) => True
  | Fused (Err e) | Separate (Err e) => classify_publish_error mode e = PublishError.NoPublish
  | _ => False
  end.

(** The attempt published: it was answered so, or only the removal of the
    temporary name after the LINK failed. *)
Definition did_publish (mode : PutMode.t) (a : attempt) : Prop :=
  match a with
  | Fused (Ok (Some (Opened _))) | Separate (Ok _) => True
  | Fused (Err e) | Separate (Err e) => classify_publish_error mode e = PublishError.Published
  | _ => False
  end.

Definition failed_with (a : attempt) (e : Error.t) : Prop := a = Fused (Err e) ∨ a = Separate (Err e).

(** What a put reports, and the attempts it made: all but the last are known
    not to have published. *)
Inductive put_outcome (mode : PutMode.t) (raw_path : str) : res Error.t unit → list attempt → Prop :=
| put_published tries a :
    Forall (unpublished mode) tries → did_publish mode a →
    put_outcome mode raw_path (Ok tt) (tries ++ [a])
| put_exists tries a e :
    Forall (unpublished mode) tries → failed_with a e →
    classify_publish_error mode e = PublishError.AlreadyExists →
    put_outcome mode raw_path (Err (Error.already_exists raw_path)) (tries ++ [a])
| put_unknown tries a e :
    Forall (unpublished mode) tries → failed_with a e →
    classify_publish_error mode e = PublishError.OutcomeUnknown →
    put_outcome mode raw_path
      (Err (outcome_unknown_error (put_operation_name mode) raw_path e)) (tries ++ [a])
| put_failed tries e :
    Forall (unpublished mode) tries → put_outcome mode raw_path (Err e) tries
| put_panicked tries a :
    Forall (unpublished mode) tries → blen a ≤ 1 → put_outcome mode raw_path Panic (tries ++ a).

Lemma put_outcome_app mode raw_path r tries1 tries2 :
  Forall (unpublished mode) tries1 → put_outcome mode raw_path r tries2 →
  put_outcome mode raw_path r (tries1 ++ tries2).
Proof.
  intros H1 [tries a H2 Ha|tries a e H2 Ha Hc|tries a e H2 Ha Hc|tries e H2|tries a H2 Ha];
    rewrite ?app_assoc.
  - apply put_published; [by apply Forall_app|done].
  - eapply put_exists; [by apply Forall_app|done..].
  - eapply put_unknown; [by apply Forall_app|done..].
  - apply put_failed. by apply Forall_app.
  - apply put_panicked; [by apply Forall_app|done].
Qed.

Section put.
Context {S T : Type} {service : PutService.t S} (order : nat → nat) (mode : PutMode.t) (log : S → list T)
  (carries : attempt → list T → Prop) `{!PutContract service mode log carries}.
Context (raw_path : str).

(** A run from [s] to [p] tries at most [n] publishes, and [Q] holds of its
    result and of these. *)
Definition ran {A} (n : Z) (s : S) (p : res Error.t A * S) (Q : res Error.t A → list attempt → Prop) : Prop :=
  ∃ tries t, log p.2 = log s ++ t ∧ logged carries tries t ∧ blen tries ≤ n ∧ Q p.1 tries.

Definition extends {A} (n : Z) (m : st S Error.t A) (Q : res Error.t A → list attempt → Prop) : Prop :=
  ∀ s, ran n s (m s) Q.

Lemma ran_none {A} n s (r : res Error.t A) s' (Q : res Error.t A → list attempt → Prop) :
  0 ≤ n → log s' = log s → Q r [] → ran n s (r, s') Q.
Proof using.
  intros Hn Hl HQ. exists [], []. rewrite app_nil_r, blen_nil. split_and!; [done|apply logged_nil|done..].
Qed.

Lemma ran_from {A} n s0 s (p : res Error.t A * S) Q : log s = log s0 → ran n s p Q → ran n s0 p Q.
Proof using. intros Hl (tries & t & Ht & H). exists tries, t. by rewrite Ht, Hl. Qed.

Lemma ran_after {A} n k a t s0 s (p : res Error.t A * S) (Q Q' : res Error.t A → list attempt → Prop) :
  log s = log s0 ++ t → logged carries a t → blen a ≤ k → ran n s p Q → (∀ r tries, Q r tries → Q' r (a ++ tries)) →
  ran (k + n) s0 p Q'.
Proof using.
  intros Hl Ha Hk (tries & t' & Ht & Hg & Hn & H) HQ. exists (a ++ tries), (t ++ t').
  rewrite Ht, Hl, app_assoc, blen_app. split_and!; [done|by apply logged_app|lia|by apply HQ].
Qed.

Lemma ran_mono {A} n k s (p : res Error.t A * S) Q : n ≤ k → ran n s p Q → ran k s p Q.
Proof using. intros Hn (tries & t & Ht & Hg & Hb & H). exists tries, t. split_and!; [done..|lia|done]. Qed.

(** A run that made one attempt. *)
Lemma ran_one {A} n a t s (r : res Error.t A) s' (Q : res Error.t A → list attempt → Prop) :
  1 ≤ n → log s' = log s ++ t → carries a t → Q r [a] → ran n s (r, s') Q.
Proof using. intros Hn Hl Ha HQ. exists [a], t. split_and!; [done|by apply logged_one|done|done]. Qed.

(** An operation that leaves the log alone and reports no failure, then the
    result. *)
Lemma ran_quiet {A B} n a t s0 s (m : st S Error.t B) (r : res Error.t A)
    (Q : res Error.t A → list attempt → Prop) :
  1 ≤ n → log s = log s0 ++ t → carries a t → leaves log m → (∀ s e, (m s).1 ≠ Err e) →
  Q r [a] → Q Panic [a] → ran n s0 ((let! _ := m in slift r) s) Q.
Proof using.
  intros Hn Hl Ha Hm He Hr Hp. specialize (Hm s). specialize (He s). unfold sbind, slift.
  destruct (m s) as [[b|e|] s']; cbn [fst snd] in *; [..|by destruct (He e)|];
    (apply (ran_one _ a t); [done|by rewrite Hm|done|done]).
Qed.

Lemma ignore_never_fails {B} (m : st S Error.t B) s e : (ignore m s).1 ≠ Err e.
Proof using. unfold ignore. by destruct (m s) as [[]]. Qed.

Lemma close_published_never_fails opened s e : (close_published opened s).1 ≠ Err e.
Proof using.
  unfold close_published. destruct (PutService.defer_close opened s) as [[]]; [done| |done].
  apply ignore_never_fails.
Qed.

Lemma leaves_temp_name : leaves log temp_file_name.
Proof. intros s. unfold temp_file_name. pose proof (pc_ulid s). by destruct (PutService.new_ulid s). Qed.

Lemma leaves_close_published opened : leaves log (close_published opened).
Proof.
  intros s. unfold close_published. pose proof (pc_defer opened s) as Hd.
  destruct (PutService.defer_close opened s) as [[[]|o|] s']; cbn [snd] in *; [done| |done].
  rewrite <- Hd. apply leaves_ignore, pc_close.
Qed.

Lemma leaves_open_temp n parent : leaves log (open_temp_file_loop n parent).
Proof.
  induction n as [|n IH]; cbn [open_temp_file_loop]; leaves_step;
    (apply leaves_temp_name || apply pc_open || apply IH).
Qed.

Lemma leaves_open_or_parents parent : leaves log (open_temp_file_or_parents parent).
Proof.
  intros s. unfold open_temp_file_or_parents, open_temp_file.
  pose proof (leaves_open_temp TEMP_FILE_CREATE_RETRIES parent s) as H.
  destruct (open_temp_file_loop TEMP_FILE_CREATE_RETRIES parent s) as [[a|e|] s']; cbn [snd] in H; [done| |done].
  case_match; [|done]. rewrite <- H.
  apply leaves_bind; [apply pc_parents|intros _; apply leaves_open_temp].
Qed.

(** The fused put: one attempt for each temporary name. *)
Definition fused_outcome (r : res Error.t (option unit)) (tries : list attempt) : Prop :=
  match r with
  | Ok None => Forall (unpublished mode) tries
  | Ok (Some _) => put_outcome mode raw_path (Ok tt) tries
  | Err e => put_outcome mode raw_path (Err e) tries
  | Panic => put_outcome mode raw_path Panic tries
  end.

Lemma panic_outcome a : put_outcome mode raw_path Panic [a].
Proof using. by apply (put_panicked _ _ [] [a]). Qed.

Lemma failed_outcome e : put_outcome mode raw_path (Err e) [].
Proof using. by apply (put_failed _ _ []). Qed.

Lemma fused_outcome_app r t tries :
  Forall (unpublished mode) t → fused_outcome r tries → fused_outcome r (t ++ tries).
Proof using.
  intros Ht. destruct r as [[[]|]|e|]; cbn; [by apply put_outcome_app|..|by apply put_outcome_app|by apply put_outcome_app].
  intros H. by apply Forall_app.
Qed.

(** A failed fused put, after its temporary name is removed. *)
Lemma fused_failure parent temp err t s0 s :
  log s = log s0 ++ t → carries (Fused (Err err)) t →
  ran 1 s0
    ((let! _ := ignore (PutService.remove parent temp) in
      match classify_publish_error mode err with
      | PublishError.Published => sret (Some tt)
      | PublishError.AlreadyExists => sfail (Error.already_exists raw_path)
      | PublishError.NoPublish => if Error.is_retryable err then sfail err else sret None
      | PublishError.OutcomeUnknown =>
          sfail (outcome_unknown_error (put_operation_name mode) raw_path err)
      end) s) fused_outcome.
Proof.
  intros Hl Ha. pose proof (leaves_ignore log _ (pc_remove parent temp)) as Hi.
  pose proof (ignore_never_fails (PutService.remove parent temp)) as He.
  destruct (classify_publish_error mode err) eqn:Hc; [..|destruct (Error.is_retryable err)|];
    (eapply ran_quiet; [done|exact Hl|exact Ha|done|done| |apply panic_outcome]); cbn.
  - by apply (put_published _ _ []).
  - by apply (put_exists _ _ [] _ err); [|left|].
  - apply put_failed. by constructor.
  - by constructor.
  - by apply (put_unknown _ _ [] _ err); [|left|].
Qed.

Lemma fused_loop_outcome n parent name data :
  extends (Z.of_nat n) (put_once_fused_loop n parent name raw_path data mode) fused_outcome.
Proof.
  induction n as [|n IH]; intros s; cbn [put_once_fused_loop].
  { apply (ran_none _ s (Ok None)); [done|done|constructor]. }
  unfold sbind at 1. pose proof (leaves_temp_name s) as Hn.
  destruct (temp_file_name s) as [[temp|e|] s1]; cbn [snd] in Hn.
  2: apply ran_none; [lia|done|apply failed_outcome].
  2: apply ran_none; [lia|done|by apply (put_panicked _ _ [] [])].
  apply (ran_from _ _ _ _ _ Hn). clear Hn.
  pose proof (pc_try parent temp name data s1) as Ht.
  rewrite Nat2Z.inj_succ, <- Z.add_1_l.
  destruct (PutService.try_put_fused parent temp name data (PutMode.create_new mode) s1)
    as [[[[[sz opened]|]|]|err|] s2]; destruct Ht as (t & Ht & Ha).
  - eapply (ran_quiet _ _ _ _ _ _ (Ok (Some tt))); [lia|exact Ht|exact Ha|apply leaves_close_published
      |apply close_published_never_fails|by apply (put_published _ _ [])|apply panic_outcome].
  - eapply ran_after; [exact Ht|apply (logged_one _ _ _ Ha)|done|apply IH|]. intros r tries. apply fused_outcome_app. by constructor.
  - eapply ran_after; [exact Ht|apply (logged_one _ _ _ Ha)|done|apply (ran_none (Z.of_nat n) s2 (Ok None) s2 fused_outcome); [lia|done|constructor]|].
    intros r tries. apply fused_outcome_app. by constructor.
  - eapply ran_mono; [|exact (fused_failure parent temp err t s1 s2 Ht Ha)]. lia.
  - eapply ran_one; [lia|exact Ht|exact Ha|apply panic_outcome].
Qed.

Lemma put_once_fused_outcome parent name data :
  extends 8 (put_once_fused parent name raw_path data mode) fused_outcome.
Proof.
  intros s. unfold put_once_fused. destruct (negb _); [by apply (ran_none _ s (Ok None)); [| |constructor]|]. apply fused_loop_outcome.
Qed.

Notation outcome := (put_outcome mode raw_path).

Lemma publish_written_outcome parent name temp opened w :
  extends 1 (publish_written parent name raw_path temp opened w mode) outcome.
Proof.
  intros s. unfold publish_written.
  pose proof (pc_publish opened parent temp name (WriteOutcome.bytes_written w)
    (WriteOutcome.unstable_verifier w) s) as Hp.
  destruct (PutService.close_publish _ _ _ _ _ _ _ s) as [[opened'|err|] s']; destruct Hp as (t & Hp & Ha).
  - eapply ran_one; [done|exact Hp|exact Ha|]. by apply (put_published _ _ []).
  - eapply ran_quiet; [done|exact Hp|exact Ha|apply leaves_ignore, pc_remove|apply ignore_never_fails| |apply panic_outcome].
    unfold publish_result. destruct (classify_publish_error mode err) eqn:Hc.
    + by apply (put_published _ _ []).
    + by apply (put_exists _ _ [] _ err); [|right|].
    + apply put_failed. by constructor.
    + by apply (put_unknown _ _ [] _ err); [|right|].
  - eapply ran_one; [done|exact Hp|exact Ha|apply panic_outcome].
Qed.

Lemma abandon_outcome parent temp opened err :
  extends 1 (abandon_temp_file parent temp opened err) outcome.
Proof.
  intros s. unfold abandon_temp_file. pose proof (pc_close opened s) as Hc.
  pose proof (λ s, leaves_ignore log _ (pc_remove parent temp) s) as Hr.
  pose proof (λ s, ignore_never_fails (PutService.remove parent temp) s) as He.
  destruct (PutService.close_file opened s) as [[o|e|] s1]; cbn [snd] in Hc.
  3: apply ran_none; [done|done|by apply (put_panicked _ _ [] [])].
  all: specialize (Hr s1); specialize (He s1); unfold sbind;
    destruct (ignore _ s1) as [[b|e'|] s2]; cbn [fst snd] in *; [|by destruct (He e')|];
    (apply ran_none; [done|congruence|apply failed_outcome || by apply (put_panicked _ _ [] [])]).
Qed.

(** Once the fused put has given up, the temporary file is written and
    published by one closing compound. *)
Lemma put_once_outcome path data : extends 9 (put_once order path raw_path data mode) outcome.
Proof.
  intros s. unfold put_once, sbind, slift at 1. cbn beta.
  destruct (path.parent_and_name path) as [[parent name]|e|];
    [|apply ran_none; [done|done|apply failed_outcome]
     |apply ran_none; [done|done|by apply (put_panicked _ _ [] [])]].
  destruct (put_once_fused_outcome parent name data s) as (tries & t & Ht & Hg & Hb & Hf).
  destruct (put_once_fused parent name raw_path data mode s) as [[[[]|]|e|] s1]; cbn [fst snd] in *;
    [exists tries, t; by split_and!; [| |lia|]| |exists tries, t; by split_and!; [| |lia|]..].
  apply (ran_after 1 8 tries t s s1 _ outcome); [done|done|done| |intros r tr; by apply put_outcome_app].
  pose proof (leaves_open_or_parents parent s1) as Ho.
  destruct (open_temp_file_or_parents parent s1) as [[[temp opened]|e|] s2]; cbn [snd] in Ho;
    [|apply ran_none; [done|done|apply failed_outcome]
     |apply ran_none; [done|done|by apply (put_panicked _ _ [] [])]].
  apply (ran_from _ _ _ _ _ Ho).
  pose proof (leaves_write_bytes log opened (pc_write opened) (pc_write_commit opened) order data s2) as Hw.
  destruct (write_bytes order opened data s2) as [[w|e|] s3]; cbn [snd] in Hw;
    [apply (ran_from _ _ _ _ _ Hw), publish_written_outcome
    |apply (ran_from _ _ _ _ _ Hw), abandon_outcome
    |apply ran_none; [done|done|by apply (put_panicked _ _ [] [])]].
Qed.

(** ** The retry after a new session *)

(** A put is retried only when its failure asks for a new session, and then
    nothing it tried has published. *)
Lemma rebuild_unpublished e tries :
  Error.requires_session_rebuild e = true → outcome (Err e) tries → Forall (unpublished mode) tries.
Proof using.
  intros He H. inversion H; subst; done.
Qed.

Section retry.
Context (generation : S → Z) (reconnect : Z → Z → Error.t → st S Error.t unit) (sleep : S → S).

(** The fuel suffices: an operation runs once, and once more when its failure
    asked for a new session and there is one. *)
Lemma retrying_runs_twice {A} (op : st S Error.t A) c :
  retrying_session_operation generation reconnect sleep op c =
  match op c with
  | (Err e, c1) =>
      if Error.requires_session_rebuild e then
        match reconnect (generation c) 1 e c1 with
        | (Ok _, c2) => op c2
        | (Err e, c2) => (Err e, c2)
        | (Panic, c2) => (Panic, c2)
        end
      else (Err e, c1)
  | other => other
  end.
Proof using.
  unfold retrying_session_operation. change (Z.to_nat RECONNECT_RETRIES) with 1%nat.
  cbn [retrying_loop]. unfold should_reconnect.
  destruct (op c) as [[a|e|] c1]; [done| |done]. change (0 <? RECONNECT_RETRIES) with true.
  rewrite andb_true_r. destruct (Error.requires_session_rebuild e); [|done].
  change (Z.to_nat (RECONNECT_RETRIES - 0)) with 1%nat. cbn [retry_reconnect_attempts].
  change (0 + 1) with 1. change (1 <? RECONNECT_RETRIES) with false.
  destruct (reconnect (generation c) 1 e c1) as [[[]|e'|] c2]; [|done|done].
  destruct (op c2) as [[a|e'|] c3]; [done| |done].
  change (1 <? RECONNECT_RETRIES) with false. by rewrite andb_false_r.
Qed.

Hypothesis leaves_reconnect : ∀ g n e, leaves log (reconnect g n e).

Lemma retrying_outcome n op :
  0 ≤ n → extends n op outcome →
  extends (n + n) (retrying_session_operation generation reconnect sleep op) outcome.
Proof using leaves_reconnect.
  intros Hn Hop c. rewrite retrying_runs_twice. destruct (Hop c) as (tries & t & Hl & Hg & Hb & Ho).
  destruct (op c) as [[[]|e|] c1]; cbn [fst snd] in *;
    [by exists tries, t; split_and!; [| |lia|]| |by exists tries, t; split_and!; [| |lia|]].
  destruct (Error.requires_session_rebuild e) eqn:He; [|by exists tries, t; split_and!; [| |lia|]].
  pose proof (rebuild_unpublished e tries He Ho) as Hu.
  apply (ran_after n n tries t c c1 _ outcome); [done|done|done| |intros r tr; by apply put_outcome_app].
  pose proof (leaves_reconnect (generation c) 1 e c1) as Hr.
  destruct (reconnect (generation c) 1 e c1) as [[[]|e'|] c2]; cbn [snd] in Hr.
  - apply (ran_from _ _ _ _ _ Hr), Hop.
  - apply ran_none; [done|done|apply failed_outcome].
  - apply ran_none; [done|done|by apply (put_panicked _ _ [] [])].
Qed.

(** Whatever the session answers, at most 18 publishes are tried (8 temporary
    names and one written file, twice), and every one but the last is known not
    to have published. *)
Lemma put_tries data c :
  ran 18 c (put order generation reconnect sleep raw_path data mode c) outcome.
Proof using leaves_reconnect PutContract0.
  unfold put, sbind, slift. destruct (path.file raw_path) as [path|e|].
  - apply (retrying_outcome 9 _ ltac:(done) (put_once_outcome path data)).
  - apply ran_none; [done|done|apply failed_outcome].
  - apply ran_none; [done|done|by apply (put_panicked _ _ [] [])].
Qed.
End retry.
End put.

(** A put never replays a publish that may have happened.  Whatever the
    session answers, at most 18 publishes are tried (8 temporary names and one
    written file, twice), and every one but the last is known not to have
    published: the put reports success only when the last one published, that
    the file exists only when LINK said so, and an unknown outcome when the
    last one may have run. *)
Theorem put_never_replays_a_publish call ulid ulid_text order mode raw_path generation reconnect sleep data c :
  (∀ g n e, leaves ClientState.publishes (reconnect g n e)) →
  let '(r, c') := put (service := client_puts call ulid ulid_text) order generation reconnect sleep raw_path data mode c in
  ∃ tries, ClientState.publishes c' = ClientState.publishes c ++ tries ∧ blen tries ≤ 18
    ∧ put_outcome mode raw_path r tries.
Proof.
  intros Hr. destruct (put_tries (service := client_puts call ulid ulid_text) order mode ClientState.publishes
    (λ a t, t = [a]) raw_path generation reconnect sleep Hr data c) as (tries & t & Ht & Hg & Hb & Ho).
  apply logged_itself in Hg as ->. destruct (put _ _ _ _ _ _ _ c) as [r c']. by exists tries.
Qed.

(** ** What the classification of a failure relies on

    The compounds that publish: the fused put, the closing compound, and the
    publish alone after a CLOSE that went through.  LINK or RENAME is the only
    operation in them that makes the new name, and only REMOVE follows LINK. *)

Definition publishes (op : NfsOp.t) : Prop :=
  match op with NfsOp.Link _ | NfsOp.Rename _ _ => True | _ => False end.

Inductive publish_compound (mode : PutMode.t) : list NfsOp.t → Prop :=
| fused_publish s owner parent temp dest data :
    publish_compound mode (fused_put_ops s owner parent temp dest data (PutMode.create_new mode))
| closing_publish root opened parent from to size v :
    publish_compound mode (close_publish_ops root opened parent from to size v (PutMode.create_new mode))
| plain_publish root fh parent from to :
    publish_compound mode ((if PutMode.create_new mode then [NfsOp.PutFh fh] else [])
      ++ publish_ops root parent from to (PutMode.create_new mode)).

(** The operations before the one that publishes. *)
Definition preparing (op : NfsOp.t) : Prop :=
  NfsOp.opcode op ≠ OpCode.Link ∧ NfsOp.opcode op ≠ OpCode.Rename ∧ NfsOp.opcode op ≠ OpCode.Remove
  ∧ NfsOp.opcode op ≠ OpCode.Illegal.

Definition publishing (mode : PutMode.t) (from to : str) : list NfsOp.t :=
  match mode with
  | PutMode.IfNotExists => [NfsOp.Link to; NfsOp.Remove from]
  | PutMode.Overwrite => [NfsOp.Rename from to]
  end.

Lemma preparing_path root parent : Forall preparing (extend_export_path_ops [] root parent).
Proof.
  apply Forall_app. split; [by repeat constructor|]. apply Forall_fmap, Forall_true. by repeat constructor.
Qed.

(** Some preparation, then the publish. *)
Definition prepared (mode : PutMode.t) (ops : list NfsOp.t) : Prop :=
  ∃ pre from to, ops = pre ++ publishing mode from to ∧ Forall preparing pre.

Lemma prepared_publishing mode from to : prepared mode (publishing mode from to).
Proof. exists [], from, to. by split. Qed.

Lemma prepared_app mode l ops : Forall preparing l → prepared mode ops → prepared mode (l ++ ops).
Proof.
  intros Hl (pre & from & to & -> & Hp). exists (l ++ pre), from, to. rewrite app_assoc.
  split; [done|by apply Forall_app].
Qed.

Lemma prepared_cons mode op ops : preparing op → prepared mode ops → prepared mode (op :: ops).
Proof. intros Ho. apply (prepared_app _ [op]). by constructor. Qed.

Lemma publish_ops_prepared mode root parent from to :
  prepared mode (publish_ops root parent from to (PutMode.create_new mode)).
Proof.
  destruct mode; unfold publish_ops; cbn [PutMode.create_new].
  - apply prepared_app; [apply preparing_path|]. apply prepared_cons; [done|].
    apply (prepared_publishing PutMode.Overwrite).
  - apply prepared_cons; [done|]. apply prepared_app; [apply preparing_path|].
    apply (prepared_publishing PutMode.IfNotExists).
Qed.

Lemma publish_compound_prepared mode ops : publish_compound mode ops → prepared mode ops.
Proof.
  intros [s owner parent temp dest data|root opened parent from to size v|root fh parent from to].
  - unfold fused_put_ops. apply prepared_app; [apply preparing_path|].
    apply prepared_app; [destruct mode; by repeat constructor|].
    apply prepared_app; [by repeat constructor|]. destruct mode; cbn [PutMode.create_new].
    + apply prepared_cons; [done|]. apply (prepared_publishing PutMode.Overwrite).
    + apply prepared_cons; [done|]. apply prepared_app; [apply preparing_path|].
      apply (prepared_publishing PutMode.IfNotExists).
  - unfold close_publish_ops. apply prepared_cons; [done|].
    apply prepared_app; [destruct v; by repeat constructor|].
    apply prepared_app; [by repeat constructor|]. apply publish_ops_prepared.
  - apply prepared_app; [destruct mode; by repeat constructor|]. apply publish_ops_prepared.
Qed.

Lemma preparing_no_publish mode status op :
  preparing op → classify_publish_error mode (Error.nfs status (NfsOp.opcode op)) = PublishError.NoPublish.
Proof.
  intros (Hl & Hr & Hm & Hi). unfold classify_publish_error, error_proves_operation_not_run.
  rewrite !Error.is_nfs_operation_nfs, Error.is_nfs_error_nfs.
  rewrite (bool_decide_eq_false_2 (_ = OpCode.Remove)) by done.
  rewrite (bool_decide_eq_false_2 (_ = OpCode.Illegal)) by done.
  rewrite (bool_decide_eq_false_2 (_ ∧ _)) by naive_solver. by destruct mode.
Qed.

Lemma preparing_quiet l : Forall preparing l → ¬ Exists publishes l.
Proof.
  intros Hl Hp. apply Exists_exists in Hp as (op & Ho & Hp). rewrite Forall_forall in Hl.
  destruct (Hl op Ho) as (H1 & H2 & _). by destruct op.
Qed.

(** The operation that fails prepares, or belongs to the publish. *)
Lemma prepared_split pre tail done (op : NfsOp.t) rest :
  pre ++ tail = done ++ op :: rest → Forall preparing pre →
  (Forall preparing done ∧ preparing op) ∨ ∃ k, done = pre ++ k ∧ tail = k ++ op :: rest.
Proof.
  intros Hs Hpre. apply app_eq_inv in Hs as [(k & -> & Hk)|(k & -> & Hk)]; [|right; by exists k].
  apply Forall_app in Hpre as [Hdone Hk']. destruct k as [|op' k].
  - right. exists []. by rewrite !app_nil_r.
  - left. injection Hk as <- _. by inversion Hk'.
Qed.

(** For every compound that publishes and every operation in it that may fail,
    the failure is classified as published, existing or not published exactly
    as LINK or RENAME had run before it, is the one that failed because the
    name is taken, or did not run. *)
Lemma publish_classification_sound mode ops done op rest status :
  publish_compound mode ops → ops = done ++ op :: rest →
  match classify_publish_error mode (Error.nfs status (NfsOp.opcode op)) with
  | PublishError.Published => Exists publishes done
  | PublishError.AlreadyExists => publishes op ∧ status = NfsStatus.EXIST ∧ ¬ Exists publishes done
  | PublishError.NoPublish => ¬ Exists publishes done
  | PublishError.OutcomeUnknown => False
  end.
Proof.
  intros Hops Hs. apply publish_compound_prepared in Hops as (pre & from & to & -> & Hpre).
  destruct (prepared_split _ _ _ _ _ Hs Hpre) as [[Hdone Hop]|(k & -> & Hk)].
  { rewrite preparing_no_publish by done. by apply preparing_quiet. }
  apply preparing_quiet in Hpre. destruct mode; destruct k as [|op1 [|op2 [|op3 k]]]; try done;
    simplify_list_eq.
  - done.
  - unfold classify_publish_error. rewrite Error.is_nfs_error_nfs, Error.is_nfs_operation_nfs.
    cbn. destruct (bool_decide_reflect (status = NfsStatus.EXIST ∧ OpCode.Link = OpCode.Link)); naive_solver.
  - apply Exists_app. right. by constructor.
Qed.

(** ** Sample runs *)

(** The first request is never sent; everything after it times out. *)
Definition lost_request : list (res Error.t bytes) :=
  [Err (Error.request_not_sent (Error.connection_lost "gone"))].

Definition sample_client : ClientState.t := ClientState.mk sample_session 0 0 [] true [].

(** A new session on the same transport. *)
Definition sample_reconnect (failed attempt : Z) (cause : Error.t) : st ClientState.t Error.t unit := λ c,
  (Ok tt, ClientState.mk
     (NfsSession.mk sample_rpc [1] 9 (replicate 16 5) (SlotTable.new 2) (ClientOwner.new 4 (replicate 16 7) [])
        7 true true 0 (NfsConfig.new (str_of "/")) 1000 (NfsSession.history (ClientState.session c)) [])
     (failed + 1) (ClientState.ulids c) (ClientState.closing c) (ClientState.worker c)
     (ClientState.publishes c)).

(** The put that was not sent is repeated on a new session; the one that may
    have run is not. *)
Lemma put_never_replays_a_publish_witness :
  let r := put (service := client_puts (scripted lost_request) (λ _, []) (λ _, str_of "id"))
             (λ n, n) ClientState.generation sample_reconnect (λ c, c) (str_of "/a") [1; 2; 3]
             PutMode.Overwrite sample_client in
  (∃ e, r.1 = Err (Error.OutcomeUnknown "overwrite put" (str_of "/a") e))
  ∧ length (ClientState.publishes r.2) = 2%nat
  ∧ ∃ tries, ClientState.publishes r.2 = tries ∧ blen tries ≤ 18
      ∧ put_outcome PutMode.Overwrite (str_of "/a") r.1 tries.
Proof.
  intros r. split; [eexists; vm_compute; reflexivity|]. split; [vm_compute; reflexivity|].
  pose proof (put_never_replays_a_publish (scripted lost_request) (λ _, []) (λ _, str_of "id")
    (λ n, n) PutMode.Overwrite (str_of "/a") ClientState.generation
    sample_reconnect (λ c, c) [1; 2; 3] sample_client ltac:(done)) as H.
  fold r in H. destruct r as [x c']. exact H.
Defined.

(** ** A transient status on the fused put *)

(** The server asks to wait at OPEN. *)
Definition busy_open : list (res Error.t bytes) :=
  [Ok (sample_response status.DELAY 4 1
         (ok_reply OpCode.PutFh ++ ok_reply OpCode.SaveFh ++ fail_reply OpCode.Open status.DELAY));
   Ok (sample_response status.NOENT 3 2
         (ok_reply OpCode.PutFh ++ fail_reply OpCode.Remove status.NOENT))].

(** C36: a transient status on the fused put is not waited for.  For every
    path, body and mode, over every session and transport: when the fused
    compound of a put fails with DELAY or GRACE at any of its operations (but
    the REMOVE behind a LINK, after which the file is published), the put
    removes the temporary name and returns that error.  It neither repeats the
    compound nor falls back to the separate open, write and publish, and it
    does not ask for a new session: the attempt and the removal are all it
    sends.  So a busy server fails a put that the multi-compound path would
    have retried. *)
Theorem fused_transient_returned call ulid ulid_text order generation reconnect sleep raw body mode
    (c : ClientState.t) path parent name st op s1 removed s2 :
  let temp := TEMP_FILE_PREFIX ++ ulid_text (ClientState.ulids c) in
  path.file raw = Ok path → path.parent_and_name path = Ok (parent, name) →
  fused_put_viable (blen body) (ClientState.session c) = true →
  st = status.DELAY ∨ st = status.GRACE → op ≠ OpCode.Illegal → op ≠ OpCode.Remove ∨ mode = PutMode.Overwrite →
  try_put_fused call ulid parent temp name body (PutMode.create_new mode) (ClientState.session c)
    = (Err (Error.nfs st op), s1) →
  Session.remove call ulid parent temp s1 = (removed, s2) → removed ≠ Panic →
  let '(r, c') := put (service := client_puts call ulid ulid_text) order generation reconnect sleep raw body mode c in
  r = Err (Error.nfs st op) ∧ ClientState.session c' = s2
  ∧ ClientState.publishes c' = ClientState.publishes c ++ [Fused (Err (Error.nfs st op))]
  ∧ ClientState.closing c' = ClientState.closing c.
Proof.
  intros temp Hf Hpn Hv Hst Hill Hrem Htry Hremove Hr.
  assert (Hclass : classify_publish_error mode (Error.nfs st op) = PublishError.NoPublish).
  { unfold classify_publish_error, error_proves_operation_not_run.
    rewrite !Error.is_nfs_operation_nfs, Error.is_nfs_error_nfs, (bool_decide_eq_false_2 (op = OpCode.Illegal)) by done.
    rewrite (bool_decide_eq_false_2 (_ ∧ _)) by (destruct Hst as [-> | ->]; naive_solver).
    destruct mode; cbn; [done|]. destruct Hrem as [Hop|Hm]; [|discriminate Hm]. by rewrite bool_decide_eq_false_2. }
  assert (Hretry : Error.is_retryable (Error.nfs st op) = true) by (destruct Hst as [-> | ->]; reflexivity).
  assert (Hrebuild : Error.requires_session_rebuild (Error.nfs st op) = false)
    by (destruct Hst as [-> | ->]; by destruct op).
  assert (Honce : put_once (service := client_puts call ulid ulid_text) order path raw body mode c
    = (Err (Error.nfs st op), ClientState.set_session s2 (ClientState.tried (Fused (Err (Error.nfs st op)))
         (ClientState.set_session s1 (ClientState.mk (ClientState.session c) (ClientState.generation c)
            (S (ClientState.ulids c)) (ClientState.closing c) (ClientState.worker c) (ClientState.publishes c)))))).
  { unfold put_once, sbind at 1, slift at 1. rewrite Hpn. unfold sbind at 1, put_once_fused.
    cbn [PutService.fused_put_viable client_puts]. rewrite Hv. change TEMP_FILE_CREATE_RETRIES with 8%nat.
    cbn [negb put_once_fused_loop]. unfold sbind, temp_file_name.
    cbn [PutService.new_ulid PutService.try_put_fused PutService.remove client_puts]. fold temp.
    unfold ignore, ClientState.on_session. cbn [ClientState.session]. rewrite Htry. cbn [ClientState.session ClientState.set_session ClientState.tried].
    rewrite Hremove, Hclass, Hretry. by destruct removed. }
  unfold put, sbind at 1, slift. rewrite Hf, retrying_runs_twice, Honce, Hrebuild. done.
Qed.

Lemma fused_transient_returned_witness :
  let r := put (service := client_puts (scripted busy_open) (λ _, []) (λ _, str_of "id"))
             (λ n, n) ClientState.generation sample_reconnect (λ c, c) (str_of "/a") [1; 2; 3]
             PutMode.Overwrite sample_client in
  r.1 = Err (Error.nfs status.DELAY OpCode.Open)
  ∧ (Request.tag <$> NfsSession.history (ClientState.session r.2)) = [str_of "put-fused"; str_of "remove"]
  ∧ length (ClientState.publishes r.2) = 1%nat.
Proof.
  intros r.
  set (attempted := try_put_fused (scripted busy_open) (λ _, []) [] (TEMP_FILE_PREFIX ++ str_of "id") (str_of "a")
    [1; 2; 3] false (ClientState.session sample_client)).
  set (removal := Session.remove (scripted busy_open) (λ _, []) [] (TEMP_FILE_PREFIX ++ str_of "id") attempted.2).
  assert (Htags : (Request.tag <$> NfsSession.history removal.2) = [str_of "put-fused"; str_of "remove"])
    by (vm_compute; reflexivity).
  assert (Hr : removal.1 ≠ Panic) by (vm_compute; discriminate).
  assert (Htry : attempted = (Err (Error.nfs status.DELAY OpCode.Open), attempted.2)) by (vm_compute; reflexivity).
  assert (Hrem : removal = (removal.1, removal.2)) by (by destruct removal).
  assert (Hpath : path.file (str_of "/a") = Ok {| components := [str_of "a"] |}) by (vm_compute; reflexivity).
  pose proof (fused_transient_returned (scripted busy_open) (λ _, []) (λ _, str_of "id") (λ n, n)
    ClientState.generation sample_reconnect (λ c, c) (str_of "/a") [1; 2; 3] PutMode.Overwrite sample_client
    _ [] (str_of "a") status.DELAY OpCode.Open attempted.2 removal.1 removal.2 Hpath eq_refl eq_refl (or_introl eq_refl)
    ltac:(discriminate) ltac:(left; discriminate) Htry Hrem Hr) as H.
  fold r in H. clearbody r. destruct r as [x c']. destruct H as (-> & Hs & Hp & _). cbn [fst snd].
  split; [reflexivity|]. split; [by rewrite Hs|by rewrite Hp].
Defined.
