(* ===== verification/Naming.v ===== *)
(** * What the error of a compound says about the server

    A server runs the operations of a COMPOUND in order and stops at the first
    that fails.  The client never sees the server: it concludes what ran from
    the error its decoder returns.  This file shows that the conclusion is
    right for the compounds that publish a file: the decoder of each expects
    exactly the operations of its request, so a status it reports belongs to
    the operation at the reported index, and an error without a status is never
    taken for one. *)

From S2P Require Import Prelude Proto Errors Path Xdr Ops Rpc Compound Reply Replies Slots Owner Session SessionFacts Writes Put PutFacts.
Import CompoundReplies.

(** An error that is no answer of the server to an operation. *)
Definition plain (e : Error.t) : Prop := Error.nfs_status_code e = None ∧ Error.is_request_not_sent e = false.

(** ** Decoders of bodies fail with plain errors *)

Definition tame {S A} (m : st S Error.t A) : Prop :=
  ∀ s, match (m s).1 with Err e => plain e | _ => True end.

Lemma tame_ret {S A} (a : A) : tame (S:=S) (sret a).
Proof. done. Qed.

Lemma tame_fail {S A} e : plain e → tame (S:=S) (A:=A) (sfail e).
Proof. by intros He s. Qed.

Lemma tame_bind {S A B} (m : st S Error.t A) (k : A → st S Error.t B) :
  tame m → (∀ a, tame (k a)) → tame (sbind m k).
Proof.
  intros Hm Hk s. specialize (Hm s). unfold sbind. destruct (m s) as [[a|e|] s']; [apply Hk|done|done].
Qed.

Lemma tame_lift {S A} (x : res Error.t A) :
  match x with Err e => plain e | _ => True end → tame (S:=S) (slift x).
Proof. by intros H s. Qed.

Lemma tame_require n : tame (XdrDecoder.require n).
Proof. intros b. unfold XdrDecoder.require. by destruct (_ <? _); [split|]. Qed.

(** The accessors of the buffer panic or succeed. *)
Lemma tame_split n : tame (buf.split_to n).
Proof. intros b. unfold buf.split_to. by destruct (_ <=? _). Qed.
Lemma tame_remaining : tame XdrDecoder.remaining.
Proof. done. Qed.

Create HintDb tame.
#[export] Hint Resolve tame_require tame_split tame_remaining : tame.

(** One step along a body decoder. *)
Ltac tame_step :=
  match goal with
  | |- tame (sbind _ _) => apply tame_bind
  | |- tame (sret _) => apply tame_ret
  | |- tame (sfail _) => apply tame_fail; by split
  | |- tame (slift _) => apply tame_lift
  | |- tame (let '(_, _) := ?x in _) => destruct x
  | |- tame (if ?b then _ else _) => destruct b
  | |- tame _ => solve [eauto with tame]
  | |- tame (buf.advance _) => unfold buf.advance
  | |- tame buf.get_u32 => unfold buf.get_u32
  | |- tame (buf.copy_to_slice _) => apply tame_split
  | |- tame (buf.copy_to_bytes _) => apply tame_split
  | |- ∀ _, _ => intro
  | |- match _ with _ => _ end => repeat (case_match; simplify_eq/=); first [done|by split]
  end.
Ltac tame := repeat tame_step.

Lemma tame_read_u32 : tame XdrDecoder.read_u32.
Proof. unfold XdrDecoder.read_u32, XdrDecoder.read_u32_after_require. tame. Qed.
Lemma tame_read_u32_pair : tame XdrDecoder.read_u32_pair.
Proof. unfold XdrDecoder.read_u32_pair, XdrDecoder.read_u32_after_require. tame. Qed.
Lemma tame_read_bytes n : tame (XdrDecoder.read_bytes n).
Proof. unfold XdrDecoder.read_bytes. tame. Qed.
Lemma tame_skip_bytes n : tame (XdrDecoder.skip_bytes n).
Proof. unfold XdrDecoder.skip_bytes, XdrDecoder.skip_bytes_after_require. tame. Qed.
Lemma tame_ok_or {S A} (o : option A) e : plain e → tame (S:=S) (slift (ok_or o e)).
Proof. intros H. apply tame_lift. by destruct o. Qed.
#[export] Hint Resolve tame_read_u32 tame_read_u32_pair tame_read_bytes tame_skip_bytes : tame.

Lemma tame_header : tame XdrDecoder.read_u32_skip_opaque_and_read_u32.
Proof.
  unfold XdrDecoder.read_u32_skip_opaque_and_read_u32, XdrDecoder.read_u32_after_require, opaque_padded_len,
    ok_or. tame.
Qed.
Lemma tame_opaque : tame XdrDecoder.read_opaque.
Proof. unfold XdrDecoder.read_opaque, XdrDecoder.read_opaque_bytes, opaque_padded_len, ok_or. tame. Qed.
Lemma tame_change_info : tame skip_change_info.
Proof.
  unfold skip_change_info, XdrDecoder.read_bool_and_skip, XdrDecoder.read_u32_after_require, decode_bool_word, ok_or.
  tame.
Qed.
Lemma tame_write_data : tame decode_write_data.
Proof.
  unfold decode_write_data, XdrDecoder.read_u32_pair_and_bytes, XdrDecoder.read_u32_after_require, ok_or,
    WriteStability.from_raw. tame.
Qed.
Lemma tame_file_handle : tame decode_file_handle.
Proof. unfold decode_file_handle. pose proof tame_opaque. tame. Qed.
Lemma tame_open : tame decode_open_stateid.
Proof.
  pose proof tame_change_info. unfold decode_open_stateid, StateId.decode, XdrDecoder.read_u32_and_bytes,
    XdrDecoder.read_u32_after_require, skip_bitmap_after_len, require_bitmap_words, decode_open_delegation,
    XdrDecoder.skip_bytes_after_require, XdrDecoder.read_bool, decode_bool_word, ok_or. tame.
Qed.
#[export] Hint Resolve tame_header tame_opaque tame_change_info tame_write_data tame_file_handle tame_open : tame.

Lemma tame_sequence_result sessionid sequenceid slotid b e :
  decode_sequence_result b sessionid sequenceid slotid = Err e →
  plain e ∨ ∃ s, s ≠ 0 ∧ e = Error.nfs s OpCode.Sequence.
Proof.
  unfold decode_sequence_result, sequence_result, sbind at 1. pose proof (tame_header b) as Hh.
  destruct (XdrDecoder.read_u32_skip_opaque_and_read_u32 b) as [[[s n]|e'|] b1]; cbn [fst] in *;
    [|by intros [= <-]; left|done].
  destruct (n =? 0).
  { destruct (NfsStatus.is_ok s) eqn:Hs; intros [= <-]; [left; by split|right]. exists s. split; [by intros ->|done]. }
  unfold sbind at 1. pose proof (tame_read_u32_pair b1) as Hp.
  destruct (XdrDecoder.read_u32_pair b1) as [[[op s']|e'|] b2]; cbn [fst] in *; [|by intros [= <-]; left|done].
  destruct (op =? OpCode.as_u32 OpCode.Sequence); cbn [negb].
  2: { unfold sbind, slift, OpCode_from_u32. destruct (OpCode.of_u32 op); intros [= <-]; left; by split. }
  destruct (NfsStatus.is_ok s') eqn:Hs; cbn [negb].
  2: { intros [= <-]. right. exists s'. split; [by intros ->|done]. }
  intros He. left. revert He. match goal with |- (?m b2).1 = _ → _ => assert (Ht : tame m) end; [tame|].
  intros He. specialize (Ht b2). by rewrite He in Ht.
Qed.

(** ** The operation a decoder names *)

Section naming.
Context (expected : list OpCode.t) (n : Z).

(** A status belongs to the operation expected at its index; an error without
    one is plain.  OP_ILLEGAL names no operation of the request. *)
Definition named (e : CompoundDecodeError.t) : Prop :=
  match CompoundDecodeError.status e with
  | None => plain (CompoundDecodeError.error e)
  | Some s => s ≠ 0 ∧ ∃ op, CompoundDecodeError.error e = Error.nfs s op
      ∧ (op = OpCode.Illegal
         ∨ ∃ i, CompoundDecodeError.reply_index e = Some (Z.of_nat i) ∧ expected !! i = Some op)
  end.

Lemma named_from e : plain e → named (CompoundDecodeError.from e).
Proof using. done. Qed.

(** [k] of [n] replies are read, or all. *)
Definition reached (k : nat) (r : CompoundReplies.t) : Prop :=
  reply_count r = n ∧ decoded r = Z.min (Z.of_nat k) n.

(** A walk that expects the operations [ops], wherever it starts: it ends
    behind them, or fails with a name. *)
Definition expects {A} (m : st CompoundReplies.t CompoundDecodeError.t A) (ops : list OpCode.t) : Prop :=
  ∀ pre post r, expected = pre ++ ops ++ post → reached (length pre) r →
  match m r with
  | (Ok _, r') => reached (length (pre ++ ops)) r'
  | (Err e, _) => named e
  | (Panic, _) => True
  end.

(** The same without the position behind it, for the end of a decoder. *)
Definition names {A} (m : st CompoundReplies.t CompoundDecodeError.t A) (ops : list OpCode.t) : Prop :=
  ∀ pre post r, expected = pre ++ ops ++ post → reached (length pre) r →
  match m r with (Err e, _) => named e | _ => True end.

Lemma expects_names {A} (m : st CompoundReplies.t CompoundDecodeError.t A) ops : expects m ops → names m ops.
Proof using. intros H pre post r He Hr. specialize (H pre post r He Hr). by destruct (m r) as [[]]. Qed.

Lemma expects_ret {A} (a : A) : expects (sret a) [].
Proof using. intros pre post r _ Hr. by rewrite app_nil_r. Qed.

Lemma expects_bind {A B} (m : st CompoundReplies.t CompoundDecodeError.t A)
    (k : A → st CompoundReplies.t CompoundDecodeError.t B) ops1 ops2 :
  expects m ops1 → (∀ a, expects (k a) ops2) → expects (sbind m k) (ops1 ++ ops2).
Proof using.
  intros Hm Hk pre post r He Hr. rewrite <- app_assoc in He. specialize (Hm pre (ops2 ++ post) r He Hr). unfold sbind.
  destruct (m r) as [[a|e|] r']; [|done..]. rewrite app_assoc. apply (Hk a _ post); [|done].
  by rewrite <- app_assoc.
Qed.

Lemma names_bind {A B} (m : st CompoundReplies.t CompoundDecodeError.t A)
    (k : A → st CompoundReplies.t CompoundDecodeError.t B) ops1 ops2 :
  expects m ops1 → (∀ a, names (k a) ops2) → names (sbind m k) (ops1 ++ ops2).
Proof using.
  intros Hm Hk pre post r He Hr. rewrite <- app_assoc in He. specialize (Hm pre (ops2 ++ post) r He Hr). unfold sbind.
  destruct (m r) as [[a|e|] r']; [|done..]. apply (Hk a (pre ++ ops1) post); [|done]. by rewrite <- app_assoc.
Qed.

Lemma names_ret {A} (a : A) ops : names (sret a) ops.
Proof using. by intros pre post r _ _. Qed.

Lemma names_fail {A} e ops : plain e → names (A:=A) (sfail (CompoundDecodeError.from e)) ops.
Proof using. by intros He pre post r _ _. Qed.

Lemma expects_require {A} (o : option A) msg : expects (require o msg) [].
Proof using. intros pre post r _ Hr. destruct o; [by rewrite app_nil_r|by split]. Qed.

Lemma expects_lift {A} (x : res Error.t A) :
  match x with Err e => plain e | _ => True end → expects (slift (map_err CompoundDecodeError.from x)) [].
Proof using. intros Hx pre post r _ Hr. destruct x; [by rewrite app_nil_r|done|done]. Qed.

Lemma expects_body {A} (m : Xdr.dec A) : tame m → expects (body m) [].
Proof using.
  intros Hm pre post r _ Hr. rewrite app_nil_r. specialize (Hm (dec r)). unfold body, conv, smap_err.
  by destruct (m (dec r)) as [[a|e|] d].
Qed.

Lemma names_finish : names finish [].
Proof using.
  intros pre post r _ _. unfold finish. destruct (_ <? _); [by split|].
  destruct (NfsStatus.is_ok (status r)) eqn:Hs; [done|]. cbn. split; [by intros H; rewrite H in Hs|].
  exists OpCode.Illegal. by split; [|left].
Qed.

(** The header of one reply. *)
Definition heads {A} (op : OpCode.t) (decode : cdec A) : Prop := ∀ b,
  match (decode b).1 with
  | Err e => CompoundDecodeError.reply_index e = None
      ∧ match CompoundDecodeError.status e with
        | None => plain (CompoundDecodeError.error e)
        | Some s => s ≠ 0 ∧ (CompoundDecodeError.error e = Error.nfs s op
                             ∨ CompoundDecodeError.error e = Error.nfs s OpCode.Illegal)
        end
  | _ => True
  end.

Lemma expects_advance_with {A} op (decode : string → cdec A) :
  (∀ shape, heads op (decode shape)) → expects (advance_with decode) [op].
Proof using.
  intros Hd pre post r He [Hn Hr]. unfold advance_with. rewrite Hn, Hr, length_app.
  destruct (Z.leb_spec n (Z.min (Z.of_nat (length pre)) n)); [split; [done|]; cbn; lia|].
  specialize (Hd (shape r) (dec r)). destruct (decode (shape r) (dec r)) as [[a|e|] d]; cbn [fst] in Hd; [|..|done].
  { split; [done|]. cbn. lia. }
  destruct Hd as [Hi Hs]. unfold named, CompoundDecodeError.at_reply. cbn. rewrite Hi. cbn.
  destruct (CompoundDecodeError.status e) as [s|]; [|done]. destruct Hs as [Hnz Hs]. split; [done|].
  destruct Hs as [Hs|Hs]; [|exists OpCode.Illegal; by split; [|left]].
  exists op. split; [done|]. right. exists (length pre). rewrite Z.min_l by lia. split; [done|].
  rewrite He. by apply list_lookup_middle.
Qed.

(** The first half the header decoders share. *)
Lemma heads_common {A} op (k : Z → OpCode.t → cdec A) :
  (∀ s o, o = op ∨ o = OpCode.Illegal → ∀ b, match (k s o b).1 with
     | Err e => NfsStatus.is_ok s = false ∧ e = CompoundDecodeError.nfs s o
     | _ => True
     end) →
  heads op (let! (op_raw, status_raw) := conv XdrDecoder.read_u32_pair in
            let! o := slift (validate_expected_reply_op op_raw status_raw op) in
            k status_raw o).
Proof using.
  intros Hk b. unfold sbind, conv, smap_err, slift. pose proof (tame_read_u32_pair b) as Hp.
  destruct (XdrDecoder.read_u32_pair b) as [[[raw s]|e|] b1]; cbn [fst map_err] in *; [|by split|done].
  pose proof (validate_op_cases raw s op) as Hv.
  assert (Hplain : match validate_expected_reply_op raw s op with
    | Err e => CompoundDecodeError.reply_index e = None ∧ CompoundDecodeError.status e = None
               ∧ plain (CompoundDecodeError.error e)
    | _ => True end).
  { unfold validate_expected_reply_op, OpCode_from_u32. destruct (raw =? _); [done|].
    destruct (_ && _); [done|]. by destruct (OpCode.of_u32 raw). }
  destruct (validate_expected_reply_op raw s op) as [o|e|]; cbn [fst]; [|by destruct Hplain as (-> & -> & ?)|done].
  specialize (Hk s o ltac:(naive_solver) b1). destruct (k s o b1) as [[a|e|] b2]; cbn [fst] in *; [done| |done].
  destruct Hk as [Hs ->]. cbn. split; [done|]. split; [by intros ->|]. destruct Hv as [_ [->|[-> _]]]; auto.
Qed.

Lemma heads_expected op shape : heads op (decode_expected_op op shape).
Proof using.
  apply (heads_common op (λ s o, if negb (NfsStatus.is_ok s) then sfail (CompoundDecodeError.nfs s o) else sret tt)).
  intros s o _ b. by destruct (NfsStatus.is_ok s).
Qed.

Lemma heads_or_exist op shape : heads op (decode_expected_op_or_exist op shape).
Proof using.
  apply (heads_common op (λ s o, if negb (NfsStatus.is_ok s)
    then if bool_decide (o = op) && (s =? NfsStatus.EXIST) then sret true else sfail (CompoundDecodeError.nfs s o)
    else sret false)).
  intros s o _ b. destruct (NfsStatus.is_ok s); cbn [negb]; [done|]. by destruct (_ && _).
Qed.

(** ** The steps of the walks *)

Lemma expects_advance op : expects (advance op) [op].
Proof using.
  apply (expects_bind _ _ [op] []); [|intros; apply expects_ret].
  apply expects_advance_with. intros. apply heads_expected.
Qed.

Lemma tame_skip_sequence : tame skip_sequence_data.
Proof using. unfold skip_sequence_data. tame. Qed.

Lemma expects_sequence : expects sequence [OpCode.Sequence].
Proof using.
  apply (expects_bind _ _ [OpCode.Sequence] []); [apply expects_advance|]. intros [].
  - apply expects_body, tame_skip_sequence.
  - apply expects_ret.
Qed.

(** The lookups stop when no reply is left; then all are behind. *)
Lemma expects_lookups c : expects (lookups c) (replicate c OpCode.Lookup).
Proof using.
  induction c as [|c IH]; [apply expects_ret|]. intros pre post r He Hr.
  cbn [lookups replicate] in *. unfold sbind at 1.
  pose proof (expects_advance OpCode.Lookup pre (replicate c OpCode.Lookup ++ post) r He Hr) as Ha.
  assert (Hf : match advance OpCode.Lookup r with (Ok false, _) => n ≤ Z.of_nat (length pre) | _ => True end).
  { destruct Hr as [Hn Hd]. unfold advance, sbind, advance_with. rewrite Hn, Hd.
    destruct (Z.leb_spec n (Z.min (Z.of_nat (length pre)) n)); [cbn; lia|].
    by destruct (decode_expected_op _ _ _) as [[]]. }
  destruct (advance OpCode.Lookup r) as [[[]|e|] r1]; cbn [negb]; [| |done|done].
  - replace (pre ++ OpCode.Lookup :: replicate c OpCode.Lookup)
      with ((pre ++ [OpCode.Lookup]) ++ replicate c OpCode.Lookup) by (by rewrite <- app_assoc).
    apply (IH _ post); [|done]. rewrite He. by rewrite <- app_assoc.
  - destruct Ha as [Hn Hd]. split; [done|]. rewrite Hd, !length_app. cbn. lia.
Qed.

Lemma expects_result {A} op (m : Xdr.dec A) : tame m → expects (result op m) [op].
Proof using.
  intros Hm. apply (expects_bind _ _ [op] []); [apply expects_advance|]. intros []; cbn [negb]; [|apply expects_ret].
  apply (expects_bind _ _ [] []); [by apply expects_body|intros; apply expects_ret].
Qed.

Lemma expects_open : expects open_stateid_or_exists [OpCode.Open].
Proof using.
  apply (expects_bind _ _ [OpCode.Open] []).
  { apply expects_advance_with. intros. apply heads_or_exist. }
  intros [[]|]; [apply expects_ret| |apply expects_ret].
  apply (expects_bind _ _ [] []); [apply expects_body, tame_open|intros; apply expects_ret].
Qed.

(** A reply of an operation and, when it is there, its body. *)
Lemma expects_then {A} op (a : A) (k : st CompoundReplies.t CompoundDecodeError.t A) :
  expects k [] → expects (let! present := advance op in if negb present then sret a else k) [op].
Proof using.
  intros Hk. apply (expects_bind _ _ [op] []); [apply expects_advance|]. intros []; [done|apply expects_ret].
Qed.

Lemma expects_skip_change {A} (a : A) k :
  expects k [] → expects (let! _ := body skip_change_info in (k : st _ _ A)) [].
Proof using. intros Hk. apply (expects_bind _ _ [] []); [apply expects_body, tame_change_info|done]. Qed.

Lemma expects_rename_publish : expects rename_publish [OpCode.Rename].
Proof using.
  apply expects_then. apply (expects_skip_change true), (expects_skip_change true), expects_ret.
Qed.

Definition link_remove_codes (c : nat) : list OpCode.t :=
  [OpCode.SaveFh] ++ [OpCode.PutFh] ++ replicate c OpCode.Lookup ++ [OpCode.Link] ++ [] ++ [OpCode.Remove].

Lemma expects_link_remove_publish c : expects (link_remove_publish c) (link_remove_codes c).
Proof using.
  unfold link_remove_publish, link_remove_codes.
  apply expects_bind; [apply expects_advance|intros _]. apply expects_bind; [apply expects_advance|intros _].
  apply expects_bind; [apply expects_lookups|intros _]. apply expects_bind; [apply expects_advance|intros linked].
  apply expects_bind; [|intros _].
  - destruct linked; [apply expects_body, tame_change_info|apply expects_ret].
  - apply expects_then, (expects_skip_change true), expects_ret.
Qed.

Lemma expects_fused_commit w : expects (fused_commit w) [OpCode.Commit].
Proof using.
  apply (expects_bind _ _ [OpCode.Commit] []); [apply expects_advance|]. intros []; [|apply expects_ret].
  apply (expects_bind _ _ [] []); [apply expects_body, tame_read_bytes|]. intros v.
  apply (expects_bind _ _ [] []); [apply expects_require|]. intros w'.
  destruct (WriteData.requires_commit w'); [|apply expects_ret]. apply expects_lift.
  unfold ensure_write_verifier. by destruct (negb _).
Qed.

Lemma expects_close_commit v : expects (close_commit v) (if v then [OpCode.Commit] else []).
Proof using.
  destruct v as [v|]; [|apply expects_ret]. apply (expects_bind _ _ [OpCode.Commit] []); [apply expects_advance|].
  intros []; [|apply expects_ret]. apply (expects_bind _ _ [] []); [apply expects_body, tame_read_bytes|]. intros w.
  apply expects_lift. unfold ensure_write_verifier. by destruct (negb _).
Qed.

(** One step along a decoder whose operations are given as a sum. *)
Ltac naming_step :=
  match goal with
  | |- names (sret _) _ => apply names_ret
  | |- names (sfail _) _ => apply names_fail; by split
  | |- names (sbind finish _) _ => apply (names_bind finish _ [] [])
  | |- names (sbind (require ?o ?m) _) _ => apply (names_bind (require o m) _ [] [])
  | |- names (sbind _ _) _ => apply names_bind
  | |- expects (require _ _) _ => apply expects_require
  | |- expects (advance _) _ => apply expects_advance
  | |- expects sequence _ => apply expects_sequence
  | |- expects (lookups _) _ => apply expects_lookups
  | |- expects open_stateid_or_exists _ => apply expects_open
  | |- expects getfh _ => apply expects_result, tame_file_handle
  | |- expects (result _ _) _ => apply expects_result, tame_write_data
  | |- expects (fused_commit _) _ => apply expects_fused_commit
  | |- expects (close_commit _) _ => apply expects_close_commit
  | |- expects (link_remove_publish _) _ => apply expects_link_remove_publish
  | |- expects rename_publish _ => apply expects_rename_publish
  | |- names (if ?b then _ else _) _ => destruct b
  | |- ∀ _, names _ _ => intro
  end.

(** [finish] leaves the walk where it is. *)
Lemma expects_finish : expects finish [].
Proof using.
  intros pre post r He Hr. pose proof (names_finish pre post r He Hr) as H.
  assert (Hs : (finish r).2 = r) by (unfold finish; by destruct (_ <? _); [|destruct (negb _)]).
  destruct (finish r) as [[[]|e|] r']; [|done|done]. cbn in Hs. subst r'. by rewrite app_nil_r.
Qed.

Lemma expects_save_unless (create : bool) :
  expects (if negb create then let! _ := advance OpCode.SaveFh in sret tt else sret tt)
    (if create then [] else [OpCode.SaveFh]).
Proof using.
  destruct create; [apply expects_ret|].
  apply (expects_bind _ _ [OpCode.SaveFh] []); [apply expects_advance|intros _; apply expects_ret].
Qed.

Definition fused_publish_codes (c : nat) (create : bool) : list OpCode.t :=
  if create then link_remove_codes c else [OpCode.RestoreFh] ++ [OpCode.Rename].

Lemma expects_fused_publish c (create : bool) :
  expects (if create then link_remove_publish c else let! _ := advance OpCode.RestoreFh in rename_publish)
    (fused_publish_codes c create).
Proof using.
  destruct create; [apply expects_link_remove_publish|]. apply expects_bind; [apply expects_advance|intros _].
  apply expects_rename_publish.
Qed.

Lemma names_fused_tail c create stateid :
  names (fused_put_tail c create stateid)
    ([OpCode.GetFh] ++ [OpCode.Write] ++ [OpCode.Commit] ++ [OpCode.Verify] ++ fused_publish_codes c create ++ []).
Proof using.
  unfold fused_put_tail. repeat naming_step; try apply expects_finish. apply expects_fused_publish.
Qed.

Definition publish_codes (c : nat) (create : bool) : list OpCode.t :=
  if create then link_remove_codes c
  else [OpCode.PutFh] ++ replicate c OpCode.Lookup ++ [OpCode.SaveFh] ++ [OpCode.Rename].

Lemma expects_close_publish parent (create closed : bool) :
  expects (Replies.close_publish (close_publish_shape parent create) closed) (publish_codes (length parent) create).
Proof using.
  destruct create; cbn [close_publish_shape Replies.close_publish]; [apply expects_link_remove_publish|].
  apply expects_bind; [apply expects_advance|intros _]. apply expects_bind; [apply expects_lookups|intros _].
  apply expects_bind; [apply expects_advance|intros _]. apply expects_rename_publish.
Qed.

Lemma expects_skip_stateid (closed : bool) :
  expects (if closed then body skip_stateid else sret tt) [].
Proof using. destruct closed; [apply expects_body; unfold skip_stateid; tame|apply expects_ret]. Qed.

Lemma expects_verify shape :
  is_file_shape shape = false →
  expects (if negb (is_file_shape shape) then let! _ := advance OpCode.Verify in sret tt else sret tt) [OpCode.Verify].
Proof using.
  intros ->. apply (expects_bind _ _ [OpCode.Verify] []); [apply expects_advance|intros _; apply expects_ret].
Qed.
End naming.

(** ** The decoders of the compounds that publish *)

(** A decoder that cannot start fails with a plain error. *)
Lemma new_plain b shape k : match new b shape k with
  | Err e => ∃ e', e = CompoundDecodeError.from e' ∧ plain e'
  | _ => True
  end.
Proof.
  unfold new, decode_compound_header, sbind, conv, smap_err. pose proof (tame_header b) as Ht.
  destruct (XdrDecoder.read_u32_skip_opaque_and_read_u32 b) as [[[s n]|e|] b1]; cbn [fst map_err] in *; [|by exists e|done].
  cbn. destruct (_ <? _); [by eexists|]. cbn. destruct (_ <? _); [by eexists|done].
Qed.

(** A decoder: its header, then its walk. *)
Lemma run_named {A} expected b shape k (walk : st CompoundReplies.t CompoundDecodeError.t A) err :
  bytes_wf b → (∀ n, names expected n walk expected) → run b shape k walk = Err err → named expected err.
Proof.
  intros Hb Hw. unfold run, new. pose proof (header_spec b Hb) as Hh.
  assert (Hp : match (decode_compound_header b).1 with
    | Err e => ∃ e', e = CompoundDecodeError.from e' ∧ plain e' | _ => True end).
  { unfold decode_compound_header, sbind, conv, smap_err. pose proof (tame_header b) as Ht.
    destruct (XdrDecoder.read_u32_skip_opaque_and_read_u32 b) as [[[s n]|e|] b1]; cbn [fst map_err] in *; [|by exists e|done].
    cbn. destruct (_ <? _); [|done]. eexists. by split. }
  destruct (decode_compound_header b) as [[[s n]|e|] b1]; cbn [fst rbind] in *.
  - destruct (k <? n); [intros [= <-]; by split|].
    specialize (Hw n [] [] (mk b1 s n k 0 shape)). cbn [rbind]. revert Hw.
    destruct (walk _) as [[a|e|] r']; cbn [fst]; [done| |done]. intros Hw [= <-].
    apply Hw; [by rewrite app_nil_r|].
    split; [done|]. cbn. destruct Hh as (_ & _ & Hn & _). ulia.
  - destruct Hp as (e' & -> & Hp). intros [= <-]. done.
  - done.
Qed.

Definition fused_codes (c : nat) (create : bool) : list OpCode.t :=
  [OpCode.Sequence] ++ [OpCode.PutFh] ++ replicate c OpCode.Lookup ++ (if create then [] else [OpCode.SaveFh])
  ++ [OpCode.Open] ++ [OpCode.GetFh] ++ [OpCode.Write] ++ [OpCode.Commit] ++ [OpCode.Verify]
  ++ fused_publish_codes c create ++ [].

Lemma fused_named b c create err :
  bytes_wf b → decode_fused_put_compound b c create = Err err → named (fused_codes c create) err.
Proof.
  intros Hb. apply run_named; [done|]. intros n. unfold fused_codes.
  apply names_bind; [apply expects_sequence|intros _]. apply names_bind; [apply expects_advance|intros _].
  apply names_bind; [apply expects_lookups|intros _]. apply names_bind; [apply expects_save_unless|intros _].
  apply names_bind; [apply expects_open|]. intros [[stateid|]|]; [|apply names_ret|]; apply names_fused_tail.
Qed.

Definition close_codes (c : nat) (v : option bytes) (create : bool) : list OpCode.t :=
  [OpCode.Sequence] ++ [OpCode.PutFh] ++ (if v then [OpCode.Commit] else []) ++ [OpCode.Verify] ++ [OpCode.Close]
  ++ [] ++ publish_codes c create ++ [].

Lemma close_named b parent v create err :
  bytes_wf b → decode_close_compound b (close_publish_shape parent create) v = Err err →
  named (close_codes (length parent) v create) err.
Proof.
  intros Hb. apply run_named; [done|]. intros n. unfold close_codes.
  apply names_bind; [apply expects_sequence|intros _]. apply names_bind; [apply expects_advance|intros _].
  apply names_bind; [apply expects_close_commit|intros _].
  apply names_bind; [apply expects_verify; by destruct create|intros _].
  apply names_bind; [apply expects_advance|intros closed].
  apply names_bind; [apply expects_skip_stateid|intros _].
  apply names_bind; [apply expects_close_publish|intros published].
  apply (names_bind _ _ finish _ [] []); [apply expects_finish|intros _].
  destruct closed; cbn [negb]; [|by apply names_fail]. destruct published; [apply names_ret|by apply names_fail].
Qed.

Definition publish_only_codes (c : nat) (create : bool) : list OpCode.t :=
  [OpCode.Sequence] ++ (if create then [OpCode.PutFh] else []) ++ publish_codes c create ++ [].

Lemma publish_named b parent create err :
  bytes_wf b → decode_publish parent create b = Err err → named (publish_only_codes (length parent) create) err.
Proof.
  intros Hb. destruct create.
  - apply run_named; [done|]. intros n. apply (names_bind _ _ _ _ [_]); [apply expects_sequence|intros _].
    apply (names_bind _ _ _ _ [_]); [apply expects_advance|intros _].
    apply (names_bind _ _ _ _ (link_remove_codes _) []); [apply expects_link_remove_publish|intros published].
    apply (names_bind _ _ finish _ [] []); [apply expects_finish|intros _].
    destruct published; [apply names_ret|by apply names_fail].
  - unfold publish_only_codes, publish_codes. rewrite <- !app_assoc.
    apply run_named; [done|]. intros n. apply (names_bind _ _ _ _ [_]); [apply expects_sequence|intros _].
    apply (names_bind _ _ _ _ [_]); [apply expects_advance|intros _].
    apply names_bind; [apply expects_lookups|intros _]. apply names_bind; [apply expects_advance|intros _].
    apply names_bind; [apply expects_rename_publish|intros published].
    apply (names_bind _ _ finish _ [] []); [apply expects_finish|intros _].
    destruct published; [apply names_ret|by apply names_fail].
Qed.

(** ** What a put may conclude from an answer *)

(** The compounds that publish, each with the decoder its answer goes to. *)
Inductive publish_exchange (mode : PutMode.t) : list NfsOp.t → decoder → Prop :=
| fused_exchange s owner parent temp dest data :
    publish_exchange mode (fused_put_ops s owner parent temp dest data (PutMode.create_new mode))
      (D_fused_put (length parent) (PutMode.create_new mode))
| closing_exchange root opened parent from to size v :
    publish_exchange mode (close_publish_ops root opened parent from to size v (PutMode.create_new mode))
      (D_close (close_publish_shape parent (PutMode.create_new mode)) v)
| plain_exchange root fh parent from to :
    publish_exchange mode ((if PutMode.create_new mode then [NfsOp.PutFh fh] else [])
      ++ publish_ops root parent from to (PutMode.create_new mode))
      (if PutMode.create_new mode then D_link_remove_publish (length parent) else D_rename_publish (length parent)).

Lemma exchange_publishes mode ops d : publish_exchange mode ops d → publish_compound mode ops.
Proof. intros []; constructor. Qed.

Lemma outcome_err {A} (f : A → bool) x err : outcome f x = Err err → x = Err err.
Proof. unfold outcome. by destruct x; intros [=->]. Qed.

Lemma publish_ops_codes root parent from to create :
  NfsOp.opcode <$> publish_ops root parent from to create = publish_codes (length parent) create.
Proof.
  unfold publish_ops, publish_codes, link_remove_codes. by destruct create; rewrite !fmap_app, path_codes.
Qed.

(** The decoder expects the operations of the request. *)
Lemma exchange_named mode ops d b err :
  publish_exchange mode ops d → bytes_wf b → decode d b = Err err →
  named (OpCode.Sequence :: (NfsOp.opcode <$> ops)) err.
Proof.
  intros [s owner parent temp dest data|root opened parent from to size v|root fh parent from to] Hb Hd.
  - apply outcome_err, fused_named in Hd; [|done]. revert Hd. unfold fused_codes, fused_put_ops, fused_publish_codes,
      link_remove_codes. by destruct (PutMode.create_new mode); rewrite !fmap_app, path_codes, app_nil_r.
  - apply outcome_err, close_named in Hd; [|done]. revert Hd. unfold close_codes, close_publish_ops.
    rewrite app_nil_r, !fmap_app, publish_ops_codes. by destruct v.
  - assert (Hp : decode_publish parent (PutMode.create_new mode) b = Err err).
    { unfold decode_publish. destruct (PutMode.create_new mode); by apply outcome_err in Hd. }
    apply publish_named in Hp; [|done]. revert Hp. unfold publish_only_codes.
    rewrite app_nil_r, fmap_app, publish_ops_codes. by destruct (PutMode.create_new mode).
Qed.

(** The server reported a failure after it had run [done]. *)
Definition stopped (ops : list NfsOp.t) (err : CompoundDecodeError.t) (done : list NfsOp.t) : Prop :=
  is_Some (CompoundDecodeError.status err)
  ∧ ∃ i, CompoundDecodeError.reply_index err = Some i ∧ done = take (Z.to_nat (saturating_sub i 1)) ops.

(** What the classification of [err] says of the operations of [ops] that ran. *)
Definition concluded (mode : PutMode.t) (ops : list NfsOp.t) (err : CompoundDecodeError.t) : Prop :=
  match classify_publish_error mode (CompoundDecodeError.into_error err) with
  | PublishError.Published => ∃ done, stopped ops err done ∧ Exists publishes done
  | PublishError.AlreadyExists => ∃ done op rest, stopped ops err done ∧ ops = done ++ op :: rest
      ∧ publishes op ∧ CompoundDecodeError.status err = Some NfsStatus.EXIST ∧ ¬ Exists publishes done
  | PublishError.NoPublish => ∃ done, stopped ops err done ∧ ¬ Exists publishes done
  | PublishError.OutcomeUnknown => CompoundDecodeError.status err = None
      ∨ Error.is_nfs_operation (CompoundDecodeError.error err) OpCode.Illegal = true
  end.

Lemma plain_unknown mode e : Error.nfs_status_code e = None → Error.is_request_not_sent e = false →
  classify_publish_error mode e = PublishError.OutcomeUnknown.
Proof.
  intros Hs Hn. unfold classify_publish_error, error_proves_operation_not_run. rewrite Hn, Hs.
  destruct e; try done; cbn; by rewrite !andb_false_r.
Qed.

Lemma sequence_no_publish mode s : classify_publish_error mode (Error.nfs s OpCode.Sequence) = PublishError.NoPublish.
Proof.
  unfold classify_publish_error, error_proves_operation_not_run. rewrite !Error.is_nfs_operation_nfs, Error.is_nfs_error_nfs.
  rewrite (bool_decide_eq_false_2 (_ ∧ _)) by naive_solver. by destruct mode.
Qed.

Lemma illegal_unknown mode s : classify_publish_error mode (Error.nfs s OpCode.Illegal) = PublishError.OutcomeUnknown.
Proof.
  unfold classify_publish_error, error_proves_operation_not_run. rewrite !Error.is_nfs_operation_nfs, Error.is_nfs_error_nfs.
  rewrite (bool_decide_eq_false_2 (_ ∧ _)) by naive_solver. by destruct mode.
Qed.

Lemma publish_failure_concluded mode ops d b err :
  publish_exchange mode ops d → bytes_wf b → decode d b = Err err → concluded mode ops err.
Proof.
  intros Hx Hb Hd. pose proof (exchange_named _ _ _ _ _ Hx Hb Hd) as Hn. unfold named in Hn. unfold concluded.
  unfold CompoundDecodeError.into_error. destruct (CompoundDecodeError.status err) as [s|] eqn:Hs.
  2: { destruct Hn. rewrite plain_unknown by done. by left. }
  destruct Hn as (Hnz & op & He & [->|(i & Hi & Hop)]); rewrite He.
  { rewrite illegal_unknown. right. by rewrite Error.is_nfs_operation_nfs. }
  assert (Hst : stopped ops err (take (i - 1) ops)).
  { split; [by rewrite Hs|]. exists (Z.of_nat i). split; [done|]. f_equal. unfold saturating_sub. lia. }
  destruct i as [|i].
  { injection Hop as <-. rewrite sequence_no_publish. exists []. split; [exact Hst|]. intros H. inversion H. }
  cbn in Hop. replace (S i - 1)%nat with i in Hst by lia. apply list_lookup_fmap_Some in Hop as (nop & -> & Hnop).
  pose proof (publish_classification_sound mode ops (take i ops) nop (drop (S i) ops) s
    (exchange_publishes _ _ _ Hx) ltac:(by rewrite take_drop_middle)) as Hc.
  destruct (classify_publish_error mode _); [| | |done].
  - by exists (take i ops).
  - destruct Hc as (Hp & -> & Hq). exists (take i ops), nop, (drop (S i) ops). by rewrite take_drop_middle.
  - by exists (take i ops).
Qed.

(** C8: what a put concludes from a failed publish is true of the server.
    A server runs the operations of a compound in order up to the first that
    fails and answers for each of them.  For every compound that publishes and
    whatever bytes come back, when its decoder reports a failure, the put takes
    it for published only if a LINK or RENAME is among the operations that
    were answered before the failed one, for an existing file only if LINK
    itself was refused because the name is taken, and for not published only if
    the server named the operation that failed and neither LINK nor RENAME had
    run before; it admits not to know when no operation was named. *)
Theorem publish_failure_sound mode ops d b err :
  publish_exchange mode ops d → bytes_wf b → decode d b = Err err → concluded mode ops err.
Proof. apply publish_failure_concluded. Qed.

(** LINK is refused: the name is taken. *)
Definition link_refused : bytes :=
  sample_response status.EXIST 6 1
    (ok_reply OpCode.PutFh ++ ok_reply OpCode.SaveFh ++ ok_reply OpCode.PutFh ++ ok_reply OpCode.Lookup
     ++ fail_reply OpCode.Link status.EXIST).

Definition link_ops : list NfsOp.t :=
  [NfsOp.PutFh [2]; NfsOp.SaveFh; NfsOp.PutFh [1]; NfsOp.Lookup (str_of "d"); NfsOp.Link (str_of "a");
   NfsOp.Remove (str_of "t")].

Lemma publish_failure_sound_witness :
  ∃ err, decode (D_link_remove_publish 1) link_refused = Err err
    ∧ classify_publish_error PutMode.IfNotExists (CompoundDecodeError.into_error err) = PublishError.AlreadyExists
    ∧ concluded PutMode.IfNotExists link_ops err.
Proof.
  destruct (decode (D_link_remove_publish 1) link_refused) as [v|err|] eqn:Hd;
    [vm_compute in Hd; discriminate Hd| |vm_compute in Hd; discriminate Hd].
  exists err. split; [reflexivity|]. split; [vm_compute in Hd; injection Hd as <-; reflexivity|].
  apply (publish_failure_sound PutMode.IfNotExists link_ops (D_link_remove_publish 1) link_refused err);
    [|repeat constructor; by vm_compute|exact Hd].
  exact (plain_exchange PutMode.IfNotExists [1] [2] [str_of "d"] (str_of "t") (str_of "a")).
Defined.
