(* ===== verification/Publication.v ===== *)
(** * A put, down to the requests it hands to the transport

    PutFacts bounds the publishes a put tries, whatever the session answers;
    Naming shows what an answer says about the operations that ran.  Here the
    two meet over the session: of all the requests that a put hands to the
    transport, over every retry and over a new session, every one that could
    make the name visible, except the last, is shown by its answer not to have
    done so. *)

From S2P Require Import Prelude Proto Errors Path Xdr Ops Rpc Compound Reply Replies Slots Owner Session SessionFacts Reads Writes Put PutFacts Naming.
Import NfsSession.

(** ** The transport *)

(** The errors of the transport carry no NFS status: a status is an answer. *)
Class Statusless (call : list Request.t → RpcPayload.t → res Error.t bytes) : Prop :=
  statusless : ∀ h p e, call h p = Err e → Error.nfs_status_code e = None.

Lemma tame_decode_reply xid : tame (decode_reply_message xid).
Proof.
  unfold decode_reply_message, XdrDecoder.read_u32_triple, XdrDecoder.read_u32_after_require, XdrDecoder.skip_opaque,
    opaque_padded_len, ok_or. tame. unfold XdrDecoder.into_remaining. tame.
Qed.

(** The RPC client is such a transport when the network below it is. *)
#[export] Instance rpc_transport_statusless network :
  (∀ h p e, network h p = Err e → Error.nfs_status_code e = None) → Statusless (rpc_transport network).
Proof.
  intros Hn h p e. unfold rpc_transport. specialize (Hn h p).
  destruct (network h p) as [[xid record]|e'|]; cbn [rbind]; [|by intros [= <-]; apply Hn|done].
  unfold decode_reply. pose proof (tame_decode_reply xid record) as Ht.
  destruct (decode_reply_message xid record) as [[b|e'|] rest]; cbn [fst] in *; [done| |done].
  intros [= <-]. by destruct Ht.
Qed.

(** ** Encoders report nothing but plain errors *)

Lemma tame_for_each {S A} (f : A → st S Error.t unit) l : (∀ a, tame (f a)) → tame (for_each f l).
Proof. intros Hf. induction l as [|a l IH]; [apply tame_ret|]. apply tame_bind; [apply Hf|done]. Qed.

Lemma tame_put_u32 v : tame (XdrEncoder.put_u32 v).
Proof. done. Qed.
Lemma tame_put_u64 v : tame (XdrEncoder.put_u64 v).
Proof. done. Qed.
Lemma tame_put_bytes b : tame (XdrEncoder.put_bytes b).
Proof. done. Qed.
Lemma tame_put_op op : tame (NfsOp.put_op op).
Proof. done. Qed.
#[export] Hint Resolve tame_put_u32 tame_put_u64 tame_put_bytes tame_put_op tame_for_each : tame.

Lemma tame_put_opaque b : tame (XdrEncoder.put_opaque b).
Proof.
  unfold XdrEncoder.put_opaque, xdr_length_word. tame.
  destruct b; tame. unfold XdrEncoder.put_padding. by destruct (negb _).
Qed.
#[export] Hint Resolve tame_put_opaque : tame.

Lemma tame_encode op : tame (NfsOp.encode op).
Proof.
  unfold NfsOp.encode, FileHandle.encode, XdrEncoder.put_string, SetAttrs.encode, Bitmap.encode, StateId.encode,
    encode_channel_attrs, XdrEncoder.put_bool.
  destruct op; tame.
Qed.

Lemma tame_segment op : tame (encode_segment_op op).
Proof.
  intros [enc segments]. unfold encode_segment_op.
  assert (Hd : ∀ o, match (let '(r, enc') := NfsOp.encode o enc in (r, (enc', segments))).1 with
    | Err e => plain e | _ => True end).
  { intros o. pose proof (tame_encode o enc) as H. by destruct (NfsOp.encode o enc) as [[]]. }
  destruct op; first [exact (Hd _)|exact I].
Qed.

Lemma encode_plain tag sequence ops e : encode_compound_with_sequence tag sequence ops = Err e → plain e.
Proof.
  unfold encode_compound_with_sequence, freeze.
  match goal with |- context [sbind (XdrEncoder.put_string tag) ?k] =>
    assert (Ht : tame (sbind (XdrEncoder.put_string tag) k)) end.
  { unfold XdrEncoder.put_string, encode_sequence_op, XdrEncoder.put_bool. tame. }
  match type of Ht with tame ?m => remember m as head eqn:Eh end.
  specialize (Ht []). destruct (head []) as [[[]|e'|] enc]; cbn [fst rbind] in *; [|by intros [= <-]|done].
  pose proof (tame_for_each encode_segment_op ops tame_segment (enc, [])) as Hs.
  destruct (for_each encode_segment_op ops (enc, [])) as [[[]|e'|] [enc' segments]]; [done| |done]. by intros [= <-].
Qed.

(** ** Requests of one compound *)

Section requests.
Context (call : list Request.t → RpcPayload.t → res Error.t bytes) (ulid : nat → bytes)
  `{!Transport call} `{!Statusless call}.

(** The server refused the SEQUENCE of [q], or answered it with something that
    is none. *)
Definition refused (q : Request.t) (e : Error.t) : Prop :=
  ∃ b sq, Request.reply q = Ok b ∧ Request.sequence q = Some sq
    ∧ decode_sequence_result b (SequenceArgs.sessionid sq) (SequenceArgs.sequenceid sq) (SequenceArgs.slotid sq) = Err e.

(** What an exchange of [ops] hands to the transport, and what it returns. *)
Inductive posted (ops : list NfsOp.t) : res Error.t bytes → list Request.t → Prop :=
| posted_none e : Error.nfs_status_code e = None → posted ops (Err e) []
| posted_lost q e : Request.ops q = ops → Request.reply q = Err e → Error.nfs_status_code e = None →
    posted ops (Err e) [q]
| posted_refused q e : Request.ops q = ops → refused q e → posted ops (Err e) [q]
| posted_answered q b : Request.ops q = ops → Request.reply q = Ok b → bytes_wf b → posted ops (Ok b) [q]
| posted_panic new : blen new ≤ 1 → Forall (λ q, Request.ops q = ops) new → posted ops Panic new.

Lemma posted_ops ops r new : posted ops r new → Forall (λ q, Request.ops q = ops) new ∧ blen new ≤ 1.
Proof using. intros []; split; try done; by repeat constructor. Qed.

Lemma not_sent_statusless e : Error.nfs_status_code (Error.request_not_sent e) = None.
Proof using. by destruct e. Qed.

Lemma exchange_posted tag ops slot highest s :
  let '(r, _, s') := exchange_under_guard call ulid tag ops slot highest s in
  ∃ new, history s' = history s ++ new ∧ posted ops r new.
Proof using Type*.
  assert (Hnone : ∀ e, Error.nfs_status_code e = None →
    ∃ new, history s = history s ++ new ∧ posted ops (Err e) new).
  { intros e He. exists []. rewrite app_nil_r. split; [done|by apply posted_none]. }
  assert (Hpanic : ∃ new, history s = history s ++ new ∧ posted ops Panic new).
  { exists []. rewrite app_nil_r. split; [done|by apply posted_panic]. }
  unfold exchange_under_guard. destruct (SlotTable.slots (slots s) !! SlotGuard.index slot) as [state|]; [|done].
  destruct (ensure_sequence_status_usable s) as [[]|e|]; cbn [map_err]; [|by apply Hnone, not_sent_statusless|done].
  set (sq := SequenceArgs.mk _ _ _ _ _).
  destruct (encode_compound_with_sequence tag sq ops) as [payload|e|] eqn:Hp;
    [|by apply Hnone; apply encode_plain in Hp as [? _]|done].
  pose proof (transport_answers (history s) payload) as Hw. pose proof (statusless (history s) payload) as Hl.
  destruct (call (history s) payload) as [b|e|]; [| |done].
  2: { exists [Request.mk tag (Some sq) ops (Err e)]. split; [done|]. apply posted_lost; [done|done|by apply Hl]. }
  pose proof (decode_sequence_result_total b (sessionid s) (SlotState.sequenceid state) (SlotState.id state) Hw) as Hd.
  cbn [sessionid record]. destruct (decode_sequence_result b _ _ _) as [result|e|] eqn:Hr; [| |done].
  2: { exists [Request.mk tag (Some sq) ops (Ok b)]. split; [done|]. apply posted_refused; [done|]. by exists b, sq. }
  exists [Request.mk tag (Some sq) ops (Ok b)].
  assert (Hb : posted ops (Ok b) [Request.mk tag (Some sq) ops (Ok b)]) by (by apply posted_answered).
  destruct (validate_sequence_status_flags _ _) as [[]|e|]; [done|..];
    by destruct (latch_fatal_sequence_flags _ _ _ _ _) as [[]].
Qed.

Lemma raw_once_posted tag ops s :
  let '(r, s') := compound_raw_once call ulid tag ops s in
  ∃ new, history s' = history s ++ new ∧ posted ops r new.
Proof using Type*.
  assert (Hnone : ∀ e t, Error.nfs_status_code e = None →
    ∃ new, history (set_slots t s) = history s ++ new ∧ posted ops (Err e) new).
  { intros e t He. exists []. rewrite app_nil_r. split; [done|by apply posted_none]. }
  assert (Hpanic : ∀ t, ∃ new, history (set_slots t s) = history s ++ new ∧ posted ops Panic new).
  { intros t. exists []. rewrite app_nil_r. split; [done|by apply posted_panic]. }
  unfold compound_raw_once, sbind, smap_err, try_, on_slots.
  destruct (validate_compound_request tag ops s) as [[]|e|]; cbn [map_err];
    [|by apply (Hnone _ (slots s)), not_sent_statusless|by apply (Hpanic (slots s))].
  destruct (ensure_sequence_status_usable s) as [[]|e|]; cbn [map_err];
    [|by apply (Hnone _ (slots s)), not_sent_statusless|by apply (Hpanic (slots s))].
  destruct (acquire_for_request (slots s)) as [[[slot highest]|e|] t]; cbn [map_err];
    [|by apply Hnone, not_sent_statusless|by apply Hpanic].
  pose proof (exchange_posted tag ops slot highest (set_slots t s)) as Hx.
  by destruct (exchange_under_guard call ulid tag ops slot highest (set_slots t s)) as [[r slot'] s'].
Qed.

(** An answer to a compound. *)
Definition answered (ops : list NfsOp.t) (q : Request.t) (b : bytes) : Prop :=
  Request.ops q = ops ∧ Request.reply q = Ok b ∧ bytes_wf b.

Section loop.
Context {A : Type} (tag : str) (ops : list NfsOp.t) (decode : list Z → res CompoundDecodeError.t A).

(** The request that ended the loop, if any, and the result. *)
Definition settled (r : res CompoundDecodeError.t A) (last : list Request.t) : Prop :=
  match r with
  | Ok v => ∃ q b, last = [q] ∧ answered ops q b ∧ decode b = Ok v
  | Err e => (∃ e0, e = CompoundDecodeError.from e0 ∧ posted ops (Err e0) last)
      ∨ (∃ q b, last = [q] ∧ answered ops q b ∧ decode b = Err e)
  | Panic => blen last ≤ 1 ∧ Forall (λ q, Request.ops q = ops) last
  end.

(** A request that was tried again. *)
Definition put_off (q : Request.t) : Prop :=
  ∃ b err, answered ops q b ∧ decode b = Err err ∧ is_Some (CompoundDecodeError.transient_status err)
    ∧ transient_compound_retry_is_safe ops err = true.

Definition walked (retry : bool) (s s' : NfsSession.t) (r : res CompoundDecodeError.t A) : Prop :=
  ∃ retries last, history s' = history s ++ retries ++ last ∧ Forall put_off retries ∧ settled r last
    ∧ (retry = false → retries = []).

Lemma walked_end retry s s' r last : history s' = history s ++ last → settled r last → walked retry s s' r.
Proof using. intros Hh Hs. by exists [], last. Qed.

Lemma loop_walked fuel retry a s :
  let '(r, (_, s')) := compound_decode_loop call ulid fuel tag ops decode retry (a, s) in walked retry s s' r.
Proof using Type*.
  induction fuel as [|fuel IH] in a, s |- *; cbn [compound_decode_loop].
  { apply (walked_end _ _ _ _ []); [by rewrite app_nil_r|done]. }
  pose proof (raw_once_posted tag ops s) as Hp.
  destruct (compound_raw_once call ulid tag ops s) as [[b|e|] s1]; destruct Hp as (new & Hh & Hp).
  2: { apply (walked_end _ _ _ _ new Hh). left. by exists e. }
  2: { apply (walked_end _ _ _ _ new Hh). by destruct (posted_ops _ _ _ Hp). }
  inversion Hp as [| | |q b' Hops Hr Hb|]; subst b' new.
  assert (Hq : answered ops q b) by done. destruct (decode b) as [v|err|] eqn:Hd.
  1: { apply (walked_end _ _ _ _ [q] Hh). by exists q, b. }
  2: { apply (walked_end _ _ _ _ [q] Hh). split; [done|by repeat constructor]. }
  assert (Hend : ∀ s2, history s2 = history s1 → walked retry s s2 (Err err)).
  { intros s2 H2. apply (walked_end _ _ _ _ [q]); [by rewrite H2|]. right. by exists q, b. }
  destruct retry; cbn [andb]; [|by apply Hend].
  destruct (transient_compound_retry_is_safe ops err) eqn:Hsafe; [|by apply Hend].
  unfold retry_transient_compound_error. destruct (CompoundDecodeError.transient_status err) eqn:Htr; [|by apply Hend].
  unfold claim_transient_retry. destruct (_ <=? a); [by apply Hend|].
  set (s2 := sleep _ s1). specialize (IH (a + 1) s2).
  destruct (compound_decode_loop call ulid fuel tag ops decode true (a + 1, s2)) as [r [a' s']].
  destruct IH as (retries & last & Hh' & Hre & Hs & _). exists (q :: retries), last. split_and!; [|..|done|done].
  - rewrite Hh'. cbn [history sleep s2]. by rewrite Hh, <- !app_assoc.
  - constructor; [|done]. by exists b, err.
Qed.

Lemma detailed_walked retry a s :
  let '(r, (_, s')) := compound_decode_detailed call ulid tag ops decode retry (a, s) in walked retry s s' r.
Proof using Type*. apply loop_walked. Qed.

Lemma walked_ops retry s s' r : walked retry s s' r →
  ∃ new, history s' = history s ++ new ∧ Forall (λ q, Request.ops q = ops) new.
Proof using.
  intros (retries & last & Hh & Hre & Hs & _). exists (retries ++ last). split; [done|]. apply Forall_app. split.
  - eapply Forall_impl; [exact Hre|]. by intros q (b & err & (? & _) & _).
  - destruct r as [v|e|]; cbn in Hs.
    + destruct Hs as (q & b & -> & (? & _) & _). by repeat constructor.
    + destruct Hs as [(e0 & _ & Hp)|(q & b & -> & (? & _) & _)]; [by destruct (posted_ops _ _ _ Hp)|by repeat constructor].
    + by destruct Hs.
Qed.
End loop.
End requests.

(** ** The requests that contain a kind of operation *)

Section marked.
Context (P : NfsOp.t → Prop) `{!∀ op, Decision (P op)}.

Definition marked (q : Request.t) : Prop := Exists P (Request.ops q).
#[global] Instance marked_dec q : Decision (marked q).
Proof. unfold marked. apply _. Defined.

Definition mark_log (s : NfsSession.t) : list Request.t := filter marked (history s).

Definition unmarked (ops : list NfsOp.t) : Prop := Forall (λ op, ¬ P op) ops.

Lemma unmarked_requests ops new :
  unmarked ops → Forall (λ q, Request.ops q = ops) new → filter marked new = [].
Proof.
  intros Ho Hn. induction Hn as [|q new Hq _ IH]; [done|]. rewrite filter_cons_False; [done|].
  unfold marked. rewrite Hq. intros Hex. apply Exists_exists in Hex as (op & Hin & Hp).
  unfold unmarked in Ho. rewrite Forall_forall in Ho. by apply (Ho op).
Qed.

Lemma marked_requests ops new :
  Exists P ops → Forall (λ q, Request.ops q = ops) new → filter marked new = new.
Proof.
  intros Ho Hn. induction Hn as [|q new Hq _ IH]; [done|]. rewrite filter_cons_True, IH; [done|].
  unfold marked. by rewrite Hq.
Qed.

(** A compound without such an operation leaves the record alone. *)
Lemma leaves_compound call ulid `{!Transport call} `{!Statusless call} {A} retry tag ops
    (decode : list Z → res CompoundDecodeError.t A) :
  unmarked ops → leaves mark_log (compound_decode_with call ulid retry tag ops decode).
Proof.
  intros Ho s. unfold compound_decode_with. pose proof (detailed_walked call ulid tag ops decode retry 0 s) as Hw.
  destruct (compound_decode_detailed call ulid tag ops decode retry (0, s)) as [r [a s']].
  apply walked_ops in Hw as (new & Hh & Hn). unfold mark_log. cbn [snd]. rewrite Hh, filter_app.
  by rewrite (unmarked_requests ops new Ho Hn), app_nil_r.
Qed.
End marked.

(** ** The requests that could publish *)

#[export] Instance publishes_dec op : Decision (publishes op).
Proof. destruct op; cbn; apply _. Defined.

Definition publish_log : NfsSession.t → list Request.t := mark_log publishes.

Lemma unpublishing_path root parent : unmarked publishes (extend_export_path_ops [] root parent).
Proof. eapply Forall_impl; [apply preparing_path|]. intros op (H1 & H2 & _) Hp. by destruct op. Qed.

(** A compound of a path and given operations, none of them marked. *)
Ltac unmarked_ops path :=
  unfold unmarked, path_ops_with_extra, export_path_ops_with_extra, write_and_commit_ops, readdir_op;
  repeat match goal with
    | |- Forall _ (_ ++ _) => apply Forall_app; split
    end; first [apply path|repeat constructor; intros []].
Ltac quiet_compound := apply leaves_compound; [assumption|assumption|unmarked_ops unpublishing_path].

Lemma leaves_asked {S L A B} (log : S → L) (f : S → A) (k : A → st S Error.t B) :
  (∀ s, leaves log (k (f s))) → leaves log (sbind (λ s, (Ok (f s), s)) k).
Proof. intros Hk s. exact (Hk s s). Qed.

Section quiet_operations.
Context (call : list Request.t → RpcPayload.t → res Error.t bytes) (ulid : nat → bytes)
  `{!Transport call} `{!Statusless call}.

Lemma leaves_next_owner : leaves publish_log next_owner.
Proof using. intros s. unfold next_owner. by destruct (ClientOwner.next_open_owner _). Qed.

Lemma leaves_open_file parent name : leaves publish_log (open_file call ulid parent name).
Proof using Type*.
  apply leaves_bind; [apply leaves_next_owner|]. intros owner. apply leaves_asked. intros s.
  apply leaves_bind; [quiet_compound|]. intros [[]|]; apply leaves_ret.
Qed.

Lemma leaves_close_file opened : leaves publish_log (close_file call ulid opened).
Proof using Type*. apply leaves_bind; [quiet_compound|]. intros. apply leaves_ret. Qed.

Lemma leaves_remove parent name : leaves publish_log (remove call ulid parent name).
Proof using Type*. apply leaves_asked. intros s. quiet_compound. Qed.

Lemma leaves_session_write opened o d : leaves publish_log (write call ulid opened o d).
Proof using Type*. quiet_compound. Qed.

Lemma leaves_write_and_commit opened o d : leaves publish_log (write_and_commit call ulid opened o d).
Proof using Type*. quiet_compound. Qed.

Lemma leaves_child fh name : leaves publish_log (ensure_child_dir_handle call ulid fh name).
Proof using Type*.
  apply leaves_bind; [apply leaves_asked; intros s; quiet_compound|].
  intros []; [apply leaves_ret|quiet_compound].
Qed.

Lemma leaves_parents_loop done rest fh : leaves publish_log (create_parent_dirs_loop call ulid done rest fh).
Proof using Type*.
  induction rest as [|name rest IH] in done, fh |- *; cbn [create_parent_dirs_loop]; [apply leaves_ret|].
  apply leaves_bind; [|intros; apply IH].
  destruct fh as [fh|]; destruct (negb _); (apply leaves_bind; [|intros; apply leaves_ret]).
  - apply leaves_child.
  - apply leaves_asked. intros s. apply leaves_bind; [quiet_compound|intros; apply leaves_ret].
  - apply leaves_asked. intros s. quiet_compound.
  - apply leaves_asked. intros s. apply leaves_bind; [quiet_compound|intros; apply leaves_ret].
Qed.
End quiet_operations.

(** ** What an answer shows *)

Section evidence.
Context (mode : PutMode.t).

(** Nothing was published by [q]: it was not sent; the server refused it
    before the first operation, or failed an operation before a LINK or RENAME
    had run; or the temporary name was taken. *)
Inductive harmless (q : Request.t) : Prop :=
| harmless_unsent e :
    Request.reply q = Err e → Error.is_request_not_sent e = true → harmless q
| harmless_refused s :
    refused q (Error.nfs s OpCode.Sequence) → harmless q
| harmless_stopped d b err done :
    publish_exchange mode (Request.ops q) d → answered (Request.ops q) q b → decode d b = Err err →
    stopped (Request.ops q) err done → ¬ Exists publishes done → harmless q
| harmless_name_taken d b :
    publish_exchange mode (Request.ops q) d → answered (Request.ops q) q b → decode d b = Ok false → harmless q.

(** [q] published: every operation of it was answered, or a LINK or RENAME had
    run before the one that failed. *)
Inductive shown (q : Request.t) : Prop :=
| shown_complete d b :
    publish_exchange mode (Request.ops q) d → answered (Request.ops q) q b → decode d b = Ok true → shown q
| shown_before d b err done :
    publish_exchange mode (Request.ops q) d → answered (Request.ops q) q b → decode d b = Err err →
    stopped (Request.ops q) err done → Exists publishes done → shown q.

(** The server refused the LINK of [q] because the name exists. *)
Inductive taken (q : Request.t) : Prop :=
| taken_by d b err done op rest :
    publish_exchange mode (Request.ops q) d → answered (Request.ops q) q b → decode d b = Err err →
    stopped (Request.ops q) err done → Request.ops q = done ++ op :: rest → publishes op →
    CompoundDecodeError.status err = Some NfsStatus.EXIST → ¬ Exists publishes done → taken q.

(** All but the last are harmless. *)
Definition ends_with (P : Request.t → Prop) (t : list Request.t) : Prop :=
  ∃ tries q, t = tries ++ [q] ∧ Forall harmless tries ∧ P q.
Definition may_end (t : list Request.t) : Prop :=
  ∃ tries last, t = tries ++ last ∧ Forall harmless tries ∧ blen last ≤ 1.

(** The requests [t] behind an attempt that failed with [e]. *)
Definition resolved (e : Error.t) (t : list Request.t) : Prop :=
  match classify_publish_error mode e with
  | PublishError.Published => ends_with shown t
  | PublishError.AlreadyExists => ends_with taken t
  | PublishError.NoPublish => Forall harmless t
  | PublishError.OutcomeUnknown => may_end t
  end.

Definition carried (a : attempt) (t : list Request.t) : Prop :=
  match a with
  | Fused (Ok None) => t = []
  | Fused (Ok (Some OpenExists)) => Forall harmless t
  | Fused (Ok (Some (Opened _))) | Separate (Ok _) => ends_with shown t
  | Fused (Err e) | Separate (Err e) => resolved e t
  | Fused Panic | Separate Panic => may_end t
  end.

Lemma ends_after P h t : Forall harmless h → ends_with P t → ends_with P (h ++ t).
Proof using.
  intros Hh (tries & q & -> & Ht & Hq). exists (h ++ tries), q. rewrite app_assoc. split_and!; [done|by apply Forall_app|done].
Qed.

Lemma may_after h t : Forall harmless h → may_end t → may_end (h ++ t).
Proof using.
  intros Hh (tries & last & -> & Ht & Hl). exists (h ++ tries), last. rewrite app_assoc.
  split_and!; [done|by apply Forall_app|done].
Qed.

Lemma resolved_after e h t : Forall harmless h → resolved e t → resolved e (h ++ t).
Proof using.
  intros Hh. unfold resolved. destruct (classify_publish_error mode e);
    [by apply ends_after|by apply ends_after|intros Ht; by apply Forall_app|by apply may_after].
Qed.

Lemma statusless_classified e : Error.nfs_status_code e = None →
  classify_publish_error mode e =
    if Error.is_request_not_sent e then PublishError.NoPublish else PublishError.OutcomeUnknown.
Proof using.
  intros Hs. destruct (Error.is_request_not_sent e) eqn:Hn; [|by apply plain_unknown].
  unfold classify_publish_error, error_proves_operation_not_run. rewrite Hn. destruct e; try done. by destruct mode.
Qed.

(** The exchange of a compound that publishes. *)
Section exchange.
Context {A : Type} (ops : list NfsOp.t) (d : decoder) (f : A → bool) (dec : list Z → res CompoundDecodeError.t A).
Hypothesis Hx : publish_exchange mode ops d.
Hypothesis Hd : ∀ b, decode d b = outcome f (dec b).

Lemma dec_failed b err : dec b = Err err → decode d b = Err err.
Proof using Hd. intros H. by rewrite Hd, H. Qed.

Lemma answered_own q b : answered ops q b → publish_exchange mode (Request.ops q) d ∧ answered (Request.ops q) q b.
Proof using Hx. intros (Ho & Hr & Hb). rewrite Ho. by split. Qed.

Lemma put_off_harmless q : put_off ops dec q → harmless q.
Proof using Hx Hd.
  intros (b & err & Hq & He & Htr & Hsafe). destruct (answered_own q b Hq) as [Hx' Hq'].
  unfold transient_compound_retry_is_safe in Hsafe.
  destruct (CompoundDecodeError.reply_index err) as [i|] eqn:Hi; [|done]. apply negb_true_iff in Hsafe.
  apply (harmless_stopped _ d b err (take (Z.to_nat (saturating_sub i 1)) (Request.ops q))); [done..|by apply dec_failed| |].
  - split; [|by exists i]. unfold CompoundDecodeError.transient_status in Htr.
    destruct (CompoundDecodeError.status err); [done|by destruct Htr].
  - destruct Hq as (-> & _). rewrite Exists_exists. intros (op & Hin & Hp).
    assert (Ht : existsb (λ op, match op with
        | NfsOp.Open _ _ _ _ _ | NfsOp.Close _ _ | NfsOp.Link _ | NfsOp.Rename _ _ => true | _ => false end)
      (take (Z.to_nat (saturating_sub i 1)) ops) = true).
    { apply existsb_exists. exists op. split; [by apply list_elem_of_In|by destruct op]. }
    congruence.
Qed.

Lemma decoded_resolved q b err :
  answered ops q b → dec b = Err err → resolved (CompoundDecodeError.into_error err) [q].
Proof using Hx Hd.
  intros Hq He. destruct (answered_own q b Hq) as [Hx' Hq']. pose proof (dec_failed _ _ He) as He'.
  pose proof (publish_failure_concluded _ _ _ _ _ Hx' (proj2 (proj2 Hq)) He') as Hc.
  unfold concluded in Hc. unfold resolved. destruct (classify_publish_error mode _).
  - destruct Hc as (dn & Hs & Hp). exists [], q. split_and!; [done..|]. by eapply shown_before.
  - destruct Hc as (dn & op & rest & Hs & Ho & Hp & Hex & Hn). exists [], q. split_and!; [done..|]. by eapply taken_by.
  - destruct Hc as (dn & Hs & Hn). constructor; [|done]. by eapply harmless_stopped.
  - by exists [], [q].
Qed.

Lemma posted_resolved e last : posted ops (Err e) last → resolved e last.
Proof using Hx.
  intros Hp. inversion Hp as [e' He Heq|q e' Ho Hr He Heq|q e' Ho Hr| |]; subst.
  - unfold resolved. rewrite statusless_classified by done. destruct (Error.is_request_not_sent e); [done|by exists [], []].
  - unfold resolved. rewrite statusless_classified by done.
    destruct (Error.is_request_not_sent e) eqn:Hns; [|by exists [], [q]]. constructor; [|done]. by eapply harmless_unsent.
  - destruct Hr as (b & sq & Hb & Hsq & Hdq). unfold resolved.
    destruct (tame_sequence_result _ _ _ _ _ Hdq) as [[H1 H2]|(s & _ & ->)].
    + rewrite plain_unknown by done. by exists [], [q].
    + rewrite sequence_no_publish. constructor; [|done]. apply (harmless_refused _ s). by exists b, sq.
Qed.

(** The requests of the retry loop. *)
Lemma settled_resolved err last : settled ops dec (Err err) last → resolved (CompoundDecodeError.into_error err) last.
Proof using Hx Hd.
  intros [(e0 & -> & Hp)|(q & b & -> & Hq & He)]; [by apply posted_resolved|by eapply decoded_resolved].
Qed.

Lemma publishing_requests new : Forall (λ q, Request.ops q = ops) new → filter (marked publishes) new = new.
Proof using Hx.
  apply marked_requests. apply exchange_publishes, publish_compound_prepared in Hx as (pre & from & to & -> & _).
  apply Exists_app. right. destruct mode; by constructor.
Qed.
End exchange.
End evidence.

(** ** The two operations that publish *)

Section publishing.
Context (call : list Request.t → RpcPayload.t → res Error.t bytes) (ulid : nat → bytes)
  `{!Transport call} `{!Statusless call} (mode : PutMode.t).

(** What an operation adds to the requests that could publish. *)
Definition adds {A} (s : NfsSession.t) (p : res Error.t A * NfsSession.t) (Q : res Error.t A → list Request.t → Prop)
    : Prop :=
  ∃ t, publish_log p.2 = publish_log s ++ t ∧ Q p.1 t.

(** A compound that publishes, through the retry loop. *)
Lemma walked_adds {A} ops d (f : A → bool) dec retry s s' r :
  publish_exchange mode ops d → (∀ b, decode d b = outcome f (dec b)) → walked ops dec retry s s' r →
  ∃ retries last, publish_log s' = publish_log s ++ retries ++ last ∧ Forall (harmless mode) retries
    ∧ settled ops dec r last ∧ (retry = false → retries = []).
Proof using.
  intros Hx Hd Hw. pose proof (walked_ops _ _ _ _ _ _ Hw) as (new & Hn & Ho).
  destruct Hw as (retries & last & Hh & Hre & Hs & Hno). exists retries, last. split_and!; [|..|done|done].
  - unfold publish_log, mark_log. rewrite Hh, filter_app. f_equal. rewrite Hh in Hn. apply app_inv_head in Hn. subst new.
    by apply (publishing_requests mode ops d).
  - eapply Forall_impl; [exact Hre|]. intros q. by apply (put_off_harmless mode ops d f).
Qed.

Lemma try_put_fused_adds parent temp dest data s :
  adds s (try_put_fused call ulid parent temp dest data (PutMode.create_new mode) s)
    (λ r, carried mode (Fused r)).
Proof using Type*.
  unfold adds, try_put_fused. assert (Hnone : ∃ t, publish_log s = publish_log s ++ t ∧ carried mode (Fused (Ok None)) t).
  { exists []. by rewrite app_nil_r. }
  destruct (negb (fused_put_viable (blen data) s)); [done|].
  unfold next_owner. destruct (ClientOwner.next_open_owner (client_owner s)) as [owner o].
  set (s1 := set_owner o s). set (ops := fused_put_ops s1 owner parent temp dest data (PutMode.create_new mode)).
  destruct (negb (fused_put_fits ops s1)); [done|].
  pose proof (detailed_walked call ulid (str_of "put-fused") ops
    (λ b, decode_fused_put_compound b (length parent) (PutMode.create_new mode)) false 0 s1) as Hw.
  destruct (compound_decode_detailed call ulid _ ops _ false (0, s1)) as [r [a s2]].
  assert (Hx : publish_exchange mode ops (D_fused_put (length parent) (PutMode.create_new mode))) by constructor.
  apply (walked_adds _ _ _ _ _ _ _ _ Hx (λ b, eq_refl)) in Hw as (retries & last & Hl & _ & Hs & Hno).
  rewrite (Hno eq_refl) in Hl. cbn [app] in Hl. destruct r as [[[[stateid fh] w]|]|err|].
  - destruct Hs as (q & b & -> & Hq & Hd). destruct (answered_own mode ops _ Hx q b Hq) as [Hx' Hq'].
    destruct (negb _); exists [q]; (split; [done|]).
    + cbn. unfold resolved. rewrite plain_unknown by done. by exists [], [q].
    + exists [], q. split_and!; [done..|]. eapply shown_complete; [done..|]. cbn. by rewrite Hd.
  - destruct Hs as (q & b & -> & Hq & Hd). destruct (answered_own mode ops _ Hx q b Hq) as [Hx' Hq'].
    exists [q]. split; [done|]. constructor; [|done]. eapply harmless_name_taken; [done..|]. cbn. by rewrite Hd.
  - exists last. split; [|by apply (settled_resolved mode ops _ _ _ Hx (λ b, eq_refl))].
    unfold note_fused_put_failure. by destruct (fused_put_unsupported _).
  - exists last. split; [done|]. destruct Hs. by exists [], last.
Qed.

(** The compound that is followed by the publish alone did not publish: CLOSE
    was the last of the operations that matter to have run. *)
Lemma republish_harmless {A} ops d (f : A → bool) dec q b err :
  publish_exchange mode ops d → (∀ b, decode d b = outcome f (dec b)) → answered ops q b → dec b = Err err →
  republish_applies ops err = true → harmless mode q.
Proof using.
  intros Hx Hd Hq He Hr. destruct (answered_own mode ops _ Hx q b Hq) as [Hx' Hq'].
  unfold republish_applies in Hr. rewrite !andb_true_iff, !negb_true_iff in Hr. destruct Hr as [[[Hc Hl] Hrn] Htr].
  unfold CompoundDecodeError.completed_operation in *.
  destruct (CompoundDecodeError.reply_index err) as [i|] eqn:Hi; [|done]. cbn [default] in *.
  apply (harmless_stopped _ _ d b err (take (Z.to_nat (saturating_sub i 1)) (Request.ops q))); [done|done|by rewrite Hd, He| |].
  - split; [|by exists i]. unfold CompoundDecodeError.transient_status in Htr.
    by destruct (CompoundDecodeError.status err).
  - destruct Hq as (-> & _). rewrite Exists_exists. intros (op & Hin & Hp).
    assert (Hex : ∀ code, NfsOp.opcode op = code → existsb (λ candidate, bool_decide (NfsOp.opcode candidate = code))
      (take (Z.to_nat (saturating_sub i 1)) ops) = true).
    { intros code Hcode. apply existsb_exists. exists op. split; [by apply list_elem_of_In|by apply bool_decide_eq_true_2]. }
    destruct op; try done; [exact (eq_true_false_abs _ (Hex _ eq_refl) Hl)|exact (eq_true_false_abs _ (Hex _ eq_refl) Hrn)].
Qed.

(** The publish alone. *)
Lemma publish_after_close_adds fh parent from to a s :
  let '(r, (_, s')) := publish_after_close call ulid fh parent from to (PutMode.create_new mode) (a, s) in
  ∃ t, publish_log s' = publish_log s ++ t
    ∧ match r with
      | Ok _ => ends_with mode (shown mode) t
      | Err err => resolved mode (CompoundDecodeError.into_error err) t
      | Panic => may_end mode t
      end.
Proof using Type*.
  unfold publish_after_close. set (ops := (if PutMode.create_new mode then _ else _) ++ _).
  set (d := if PutMode.create_new mode then D_link_remove_publish (length parent) else D_rename_publish (length parent)).
  set (dec := λ bytes, if PutMode.create_new mode then _ else _).
  assert (Hx : publish_exchange mode ops d) by constructor.
  assert (Hd : ∀ b, decode d b = outcome (λ _, true) (dec b)) by (intros b; subst d dec; cbn beta; by destruct (PutMode.create_new mode)).
  pose proof (detailed_walked call ulid (publish_tag (PutMode.create_new mode)) ops dec true a s) as Hw. unfold publish_tag in Hw.
  destruct (compound_decode_detailed call ulid _ ops dec true (a, s)) as [r [a' s']].
  apply (walked_adds _ _ _ _ _ _ _ _ Hx Hd) in Hw as (retries & last & Hl & Hre & Hs & _).
  exists (retries ++ last). split; [done|]. destruct r as [[]|err|].
  - destruct Hs as (q & b & -> & Hq & He). destruct (answered_own mode ops _ Hx q b Hq) as [Hx' Hq'].
    exists retries, q. split_and!; [done..|]. eapply shown_complete; [done..|]. by rewrite Hd, He.
  - apply resolved_after; [done|]. by apply (settled_resolved mode ops _ _ _ Hx Hd).
  - apply may_after; [done|]. destruct Hs. by exists [], last.
Qed.

Lemma close_publish_adds opened parent from to size v s :
  adds s (close_publish call ulid opened parent from to size v (PutMode.create_new mode) s)
    (λ r, carried mode (Separate r)).
Proof using Type*.
  unfold adds, close_publish. set (ops := close_publish_ops _ _ _ _ _ _ _ _).
  set (dec := λ bytes, decode_close_compound bytes _ v).
  set (d := D_close (close_publish_shape parent (PutMode.create_new mode)) v).
  assert (Hx : publish_exchange mode ops d) by constructor.
  assert (Hd : ∀ b, decode d b = outcome (λ _, true) (dec b)) by done.
  pose proof (detailed_walked call ulid (close_tag (PutMode.create_new mode)) ops dec true 0 s) as Hw. unfold close_tag in Hw.
  destruct (compound_decode_detailed call ulid _ ops dec true (0, s)) as [r [a s1]].
  apply (walked_adds _ _ _ _ _ _ _ _ Hx Hd) in Hw as (retries & last & Hl & Hre & Hs & _).
  destruct r as [[]|err|].
  - destruct Hs as (q & b & -> & Hq & He). destruct (answered_own mode ops _ Hx q b Hq) as [Hx' Hq'].
    exists (retries ++ [q]). split; [done|]. exists retries, q. split_and!; [done..|].
    eapply shown_complete; [done..|]. by rewrite Hd, He.
  - assert (Hfail : ∀ s2, publish_log s2 = publish_log s1 →
      ∃ t, publish_log s2 = publish_log s ++ t ∧ resolved mode (CompoundDecodeError.into_error err) t).
    { intros s2 H2. exists (retries ++ last). split; [by rewrite H2|]. apply resolved_after; [done|].
      by apply (settled_resolved mode ops _ _ _ Hx Hd). }
    destruct (republish_applies ops err) eqn:Hrep; [|by apply Hfail].
    unfold retry_transient_compound_error. destruct (CompoundDecodeError.transient_status err) eqn:Htr; [|by apply Hfail].
    unfold claim_transient_retry. destruct (_ <=? a); [by apply Hfail|].
    destruct Hs as [(e0 & -> & _)|(q & b & -> & Hq & He)]; [done|].
    pose proof (republish_harmless _ _ _ _ _ _ _ Hx Hd Hq He Hrep) as Hh.
    match goal with |- context [publish_after_close call ulid ?fh ?p ?x ?y ?z (?a', ?s2)] =>
      pose proof (publish_after_close_adds fh p x y a' s2) as H2;
      destruct (publish_after_close call ulid fh p x y z (a', s2)) as [r2 [a2 s3]] end.
    destruct H2 as (t & H2 & H3). change (publish_log (sleep _ s1)) with (publish_log s1) in H2. rewrite Hl, <- app_assoc in H2.
    assert (Hre' : Forall (harmless mode) (retries ++ [q])) by (apply Forall_app; split; [done|by constructor]).
    destruct r2 as [[]|e2|]; exists ((retries ++ [q]) ++ t); (split; [exact H2|]).
    + by apply ends_after.
    + by apply resolved_after.
    + by apply may_after.
  - exists (retries ++ last). split; [done|]. apply may_after; [done|]. destruct Hs. by exists [], last.
Qed.
End publishing.

(** ** The put over the session *)

Definition client_log (c : ClientState.t) : list Request.t := publish_log (ClientState.session c).

Lemma leaves_client {A} (m : st NfsSession.t Error.t A) :
  leaves publish_log m → leaves client_log (ClientState.on_session m).
Proof.
  intros Hm c. unfold client_log, ClientState.on_session. specialize (Hm (ClientState.session c)).
  by destruct (m (ClientState.session c)).
Qed.

(** The client over a session keeps the contract with the requests themselves
    as its record. *)
#[export] Instance session_put_contract call ulid ulid_text mode `{!Transport call} `{!Statusless call} :
  PutContract (client_puts call ulid ulid_text) mode client_log (carried mode).
Proof.
  split; intros.
  - cbn [PutService.try_put_fused client_puts]. unfold ClientState.on_session.
    pose proof (try_put_fused_adds call ulid mode parent temp name data (ClientState.session s)) as H.
    by destruct (try_put_fused call ulid parent temp name data _ _).
  - cbn [PutService.close_publish client_puts]. unfold ClientState.on_session.
    pose proof (close_publish_adds call ulid mode opened parent temp name size v (ClientState.session s)) as H.
    by destruct (close_publish call ulid opened parent temp name size v _ _).
  - done.
  - by apply leaves_client, leaves_session_write.
  - by apply leaves_client, leaves_write_and_commit.
  - intros c. cbn. unfold defer_close. by destruct (ClientState.worker c).
  - by apply leaves_client, leaves_close_file.
  - by apply leaves_client, leaves_remove.
  - by apply leaves_client, leaves_open_file.
  - by apply leaves_client, leaves_parents_loop.
Qed.

(** What a put reports, and the requests that could have published. *)
Inductive publication (mode : PutMode.t) (raw_path : str) : res Error.t unit → list Request.t → Prop :=
| publication_done t :
    ends_with mode (shown mode) t → publication mode raw_path (Ok tt) t
| publication_exists t :
    ends_with mode (taken mode) t → publication mode raw_path (Err (Error.already_exists raw_path)) t
| publication_unknown t e :
    may_end mode t →
    publication mode raw_path (Err (outcome_unknown_error (put_operation_name mode) raw_path e)) t
| publication_failed t e :
    Forall (harmless mode) t → publication mode raw_path (Err e) t
| publication_panicked t :
    may_end mode t → publication mode raw_path Panic t.

Section publication.
Context (mode : PutMode.t) (raw_path : str).

Lemma unpublished_carried a t : unpublished mode a → carried mode a t → Forall (harmless mode) t.
Proof using.
  destruct a as [[[[]|]|e|]|[o|e|]]; cbn; try done.
  - by intros _ ->.
  - unfold resolved. by intros ->.
  - unfold resolved. by intros ->.
Qed.

Lemma unpublished_logged tries t :
  Forall (unpublished mode) tries → logged (carried mode) tries t → Forall (harmless mode) t.
Proof using.
  intros Hu (parts & -> & Hc). induction Hc as [|a p tries parts Ha _ IH]; [done|].
  inversion_clear Hu. apply Forall_app. split; [by eapply unpublished_carried|by apply IH].
Qed.

Lemma failed_carried a e t : failed_with a e → carried mode a t → resolved mode e t.
Proof using. by intros [->| ->]. Qed.

Lemma any_carried a t : carried mode a t → may_end mode t.
Proof using.
  assert (Hends : ∀ P, ends_with mode P t → may_end mode t) by (intros P (tries & q & -> & Ht & _); by exists tries, [q]).
  assert (Hall : Forall (harmless mode) t → may_end mode t)
    by (intros H; exists t, []; rewrite app_nil_r; by split_and!).
  assert (Hres : ∀ e, resolved mode e t → may_end mode t)
    by (intros e; unfold resolved; destruct (classify_publish_error mode e); eauto).
  destruct a as [[[[]|]|e|]|[o|e|]]; cbn; eauto. intros ->. by exists [], [].
Qed.

Lemma outcome_publication r tries t :
  put_outcome mode raw_path r tries → logged (carried mode) tries t → publication mode raw_path r t.
Proof using.
  intros [tries' a Hu Hp|tries' a e Hu Hf Hc|tries' a e Hu Hf Hc|tries' e Hu|tries' a Hu Ha] Hl.
  - apply logged_snoc in Hl as (t1 & t2 & -> & H1 & H2). pose proof (unpublished_logged _ _ Hu H1) as Hh.
    apply publication_done, ends_after; [done|].
    destruct a as [[[[]|]|e|]|[o|e|]]; cbn in *; try done; unfold resolved in H2; by rewrite Hp in H2.
  - apply logged_snoc in Hl as (t1 & t2 & -> & H1 & H2). pose proof (unpublished_logged _ _ Hu H1) as Hh.
    apply publication_exists, ends_after; [done|]. pose proof (failed_carried _ _ _ Hf H2) as H.
    unfold resolved in H. by rewrite Hc in H.
  - apply logged_snoc in Hl as (t1 & t2 & -> & H1 & H2). pose proof (unpublished_logged _ _ Hu H1) as Hh.
    apply publication_unknown, may_after; [done|by eapply any_carried].
  - apply publication_failed. by eapply unpublished_logged.
  - apply publication_panicked. destruct a as [|a [|a' l]].
    + rewrite app_nil_r in Hl. exists t, []. rewrite app_nil_r. split_and!; [done|by eapply unpublished_logged|done].
    + apply logged_snoc in Hl as (t1 & t2 & -> & H1 & H2). apply may_after; [by eapply unpublished_logged|by eapply any_carried].
    + rewrite !blen_cons in Ha. pose proof (blen_nonneg l). lia.
Qed.
End publication.

(** Of all the requests of a put, at most the last one published, whatever a
    reconnect does that sends no such request. *)
Theorem session_puts_at_most_once call ulid ulid_text order mode raw_path generation reconnect sleep data c
    (Htransport : Transport call) (Hstatusless : Statusless call)
    (Hreconnect : ∀ g n e, leaves client_log (reconnect g n e)) :
  let '(r, c') := put (service := client_puts call ulid ulid_text) order generation reconnect sleep raw_path data mode c in
  ∃ t, client_log c' = client_log c ++ t ∧ publication mode raw_path r t.
Proof.
  destruct (put_tries (service := client_puts call ulid ulid_text) order mode client_log (carried mode) raw_path
    generation reconnect sleep Hreconnect data c) as (tries & t & Ht & Hg & _ & Ho).
  destruct (put _ _ _ _ _ _ _ c) as [r c']. exists t. split; [done|]. by apply (outcome_publication _ _ _ tries).
Qed.

(** ** A sample: not sent, then a taken temporary name, then published *)

Definition slow_put : list (res Error.t bytes) :=
  [Err (Error.request_not_sent (Error.connection_lost "gone"));
   Err (Error.request_not_sent (Error.connection_lost "gone"));
   Ok (sample_response status.EXIST 4 1
         (ok_reply OpCode.PutFh ++ ok_reply OpCode.SaveFh ++ fail_reply OpCode.Open status.EXIST));
   Ok (sample_response 0 10 2
         (ok_reply OpCode.PutFh ++ ok_reply OpCode.SaveFh
          ++ ok_reply OpCode.Open ++ wire_open_result StateId.anonymous true 1 2 0 (Bitmap.mk []) NoDelegation
          ++ ok_reply OpCode.GetFh ++ wire_opaque [3]
          ++ ok_reply OpCode.Write ++ wire_write_result (WriteData.mk 3 WriteStability.Unstable (replicate 8 9))
          ++ ok_reply OpCode.Commit ++ replicate 8 9 ++ ok_reply OpCode.Verify ++ ok_reply OpCode.RestoreFh
          ++ ok_reply OpCode.Rename ++ wire_change_info true 1 2 ++ wire_change_info true 2 3))].

Lemma slow_put_transport : Transport (scripted slow_put).
Proof. apply scripted_transport. repeat constructor; by vm_compute. Qed.

Lemma scripted_statusless script :
  Forall (λ r, match r with Err e => Error.nfs_status_code e = None | _ => True end) script →
  Statusless (scripted script).
Proof.
  intros Hs h p e. unfold scripted. destruct (script !! length h) as [r|] eqn:Hr; [|by intros [= <-]].
  rewrite Forall_lookup in Hs. intros He. cbn in He. specialize (Hs _ _ Hr). by rewrite He in Hs.
Qed.

Lemma session_puts_at_most_once_witness :
  let run := put (service := client_puts (scripted slow_put) (λ _, []) (λ _, str_of "id"))
    (λ n, n) ClientState.generation sample_reconnect (λ c, c) (str_of "/a") [1; 2; 3] PutMode.Overwrite sample_client in
  run.1 = Ok tt ∧ length (client_log run.2) = 3%nat
  ∧ ∃ t, client_log run.2 = t ∧ publication PutMode.Overwrite (str_of "/a") run.1 t.
Proof.
  intros run.
  assert (Hok : run.1 = Ok tt ∧ length (client_log run.2) = 3%nat) by (vm_compute; auto).
  destruct Hok as [Hok H3]. split; [exact Hok|]. split; [exact H3|].
  assert (Hs : Statusless (scripted slow_put)) by (apply scripted_statusless; repeat constructor).
  pose proof (session_puts_at_most_once (scripted slow_put) (λ _, []) (λ _, str_of "id") (λ n, n) PutMode.Overwrite
    (str_of "/a") ClientState.generation sample_reconnect (λ c, c) [1; 2; 3] sample_client slow_put_transport Hs
    (λ g n e c, eq_refl)) as H.
  fold run in H. destruct run as [r c']. exact H.
Defined.
