(* ===== verification/Directory.v ===== *)
(** * Directories, metadata and deletion (src/client.rs)

    [list_page], [entry_info], [delete] and [sweep_temp_files], and the public
    read operations with their retries: each parses its path, then runs one
    attempt on the current session, repeated once on a new session. *)

From S2P Require Import Prelude Proto Errors Path Xdr Ops Rpc Compound Reply Replies Slots Owner Session Reads Writes Put.

(** ** Listing *)

Definition invalid_continuation_token (message : string) : Error.t := Error.invalid_config message.

Module ContinuationToken.
Record t : Type := mk { directory : str; cookie : Z; verifier : bytes }.

Definition from_list_position (directory : str) (cookie : Z) (verifier : bytes) : t :=
  mk directory cookie verifier.

Definition list_position (directory' : str) (self : t) : res Error.t (Z * bytes) :=
  if negb (str_eqb (directory self) directory') then
    Err (invalid_continuation_token "list continuation token does not match the requested directory")
  else Ok (cookie self, verifier self).
End ContinuationToken.

Module ListEntry.
Record t : Type := mk { path : str; name : str }.
End ListEntry.

Module ListResult.
Record t : Type := mk { entries : list ListEntry.t; next_token : option ContinuationToken.t }.
End ListResult.

Module EntryKind.
Inductive t : Type := File | Directory | Other.

Definition from_file_type (file_type : option FileType.t) : t :=
  match file_type with
  | Some FileType.Regular => File
  | Some FileType.Directory => Directory
  | _ => Other
  end.
End EntryKind.

Module EntryInfo.
Record t : Type := mk { kind : EntryKind.t; size : Z }.

Definition is_file (self : t) : bool := match kind self with EntryKind.File => true | _ => false end.
Definition is_dir (self : t) : bool := match kind self with EntryKind.Directory => true | _ => false end.
End EntryInfo.

Definition no_verifier : bytes := replicate 8 0.

(** ** The session as these operations see it *)
Module DirService.
Class t (S : Type) : Type := mk {
  read_dir_path_page : list str → Z → bytes → option Z → st S Error.t (FileHandle * DirPage.t);
  read_dir_page : FileHandle → Z → bytes → option Z → st S Error.t DirPage.t;
  read_dir_path_page_without_handle : list str → Z → bytes → option Z → st S Error.t DirPage.t;
  lookup_attrs : list str → AttrRequest.t → st S Error.t (FileHandle * FileAttrs.t);
  remove : list str → str → st S Error.t RemoveOutcome;
  remove_at : FileHandle → str → st S Error.t RemoveOutcome;
  slot_count : S → Z;
}.
End DirService.

#[export] Instance session_dirs (call : list Request.t → RpcPayload.t → res Error.t bytes)
    (ulid : nat → bytes) : DirService.t NfsSession.t := {|
  DirService.read_dir_path_page := Session.read_dir_path_page call ulid;
  DirService.read_dir_page := Session.read_dir_page call ulid;
  DirService.read_dir_path_page_without_handle := Session.read_dir_path_page_without_handle call ulid;
  DirService.lookup_attrs := Session.lookup_file_handle_attrs call ulid;
  DirService.remove := Session.remove call ulid;
  DirService.remove_at := Session.remove_at call ulid;
  DirService.slot_count := Session.session_slot_count;
|}.

Definition delete_result (result : res Error.t RemoveOutcome) (raw_path : str) : res Error.t unit :=
  match result with
  | Ok (Removed | Missing) => Ok tt
  | Err err =>
      if error_proves_operation_not_run err then Err err
      else Err (outcome_unknown_error "delete" raw_path err)
  | Panic => Panic
  end.

(** The count is a [u64]; it would take 2^64 removals to overflow it. *)
Definition tally_remove_result (result : Error.t + RemoveOutcome) (removed : Z)
    (first_error : option Error.t) : Z * option Error.t :=
  match result with
  | inr Removed => (removed + 1, first_error)
  | inr Missing => (removed, first_error)
  | inl err => (removed, match first_error with Some e => Some e | None => Some err end)
  end.

Definition sweep_result (removed : Z) (error : option Error.t) (raw_directory : str) : res Error.t Z :=
  match error with
  | Some error => Err (outcome_unknown_error "sweep temporary files" raw_directory error)
  | None => Ok removed
  end.

Definition advance_dir_cursor (cookie : Z) (verifier : bytes) (page : DirPage.t)
  : res Error.t (Z * bytes) :=
  if DirPage.last_cookie page =? cookie then
    Err (Error.protocol "READDIR did not advance the cookie and was not EOF")
  else Ok (DirPage.last_cookie page, DirPage.verifier page).

(** [while first_error.is_none() && removes.len() < depth]: the names that are
    moved into flight. *)
Fixpoint schedule_removes (room : nat) (names removes : list str) : list str * list str :=
  match room, names with
  | S room, name :: names => schedule_removes room names (removes ++ [name])
  | _, _ => (names, removes)
  end.

(** [ulid_ms] is [Ulid::from_string] with [timestamp_ms]: the milliseconds
    since the epoch in the text of a ULID. *)
Section stale.
Context (ulid_ms : str → option Z).

Definition parse_temp_file_created_ms (name : str) : option Z :=
  match strip_prefix TEMP_FILE_PREFIX name with
  | Some ulid => ulid_ms ulid
  | None => None
  end.

Definition is_stale (cutoff_ms : Z) (name : str) : bool :=
  match parse_temp_file_created_ms name with Some created => created <=? cutoff_ms | None => false end.

Definition stale_names (cutoff_ms : Z) (page : DirPage.t) : list str :=
  filter (λ name, is_stale cutoff_ms name = true) (DirEntry.name <$> DirPage.entries page).
End stale.

Section directory.
Context {S : Type} {service : DirService.t S}.

Definition list_page_once (components : list str) (max_entries : Z)
    (continuation_token : option ContinuationToken.t) : st S Error.t ListResult.t :=
  let base_path := join_with (str_of "/") components in
  let entry_path_prefix := match base_path with [] => [] | _ => base_path ++ str_of "/" end in
  let! (cookie, verifier) :=
    match continuation_token with
    | Some token => slift (ContinuationToken.list_position base_path token)
    | None => sret (0, no_verifier)
    end in
  let! page := DirService.read_dir_path_page_without_handle components cookie verifier (Some max_entries) in
  let! next_token :=
    if DirPage.eof page then sret None
    else if DirPage.last_cookie page =? cookie then
      sfail (Error.protocol "READDIR did not advance the cookie and was not EOF")
    else sret (Some (ContinuationToken.from_list_position base_path (DirPage.last_cookie page)
                       (DirPage.verifier page))) in
  let entries :=
    (λ entry, ListEntry.mk (entry_path_prefix ++ DirEntry.name entry) (DirEntry.name entry))
      <$> DirPage.entries page in
  sret (ListResult.mk entries next_token).

Definition entry_info_once (components : list str) : st S Error.t EntryInfo.t :=
  let! (_, attrs) := DirService.lookup_attrs components AttrRequest.TypeAndSize in
  match FileAttrs.size attrs with
  | Some size => sret (EntryInfo.mk (EntryKind.from_file_type (FileAttrs.file_type attrs)) size)
  | None => spanic
  end.

Definition delete_once (path : NfsPath) (raw_path : str) : st S Error.t unit :=
  let! (parent, name) := slift (path.parent_and_name path) in
  λ s, let '(result, s) := DirService.remove parent name s in (delete_result result raw_path, s).

(** ** The sweep of temporary files *)

Context (ulid_ms : str → option Z) (order : nat → nat).

(** One turn for each name: [fuel] is their number. *)
Fixpoint remove_temp_names_loop (fuel turn : nat) (dir_fh : FileHandle) (depth : Z)
    (names removes : list str) (removed : Z) (first_error : option Error.t)
  : st S Error.t (Z * option Error.t) := λ s,
  let '(names, removes) :=
    match first_error with
    | None => schedule_removes (Z.to_nat (depth - blen removes)) names removes
    | Some _ => (names, removes)
    end in
  match next_completion (order turn) removes with
  | None => (Ok (removed, first_error), s)
  | Some (name, removes) =>
      match fuel with
      | O => (Panic, s)
      | Datatypes.S fuel =>
          match DirService.remove_at dir_fh name s with
          | (Ok outcome, s) =>
              let '(removed, first_error) := tally_remove_result (inr outcome) removed first_error in
              remove_temp_names_loop fuel (Datatypes.S turn) dir_fh depth names removes removed first_error s
          | (Err err, s) =>
              let '(removed, first_error) := tally_remove_result (inl err) removed first_error in
              remove_temp_names_loop fuel (Datatypes.S turn) dir_fh depth names removes removed first_error s
          | (Panic, s) => (Panic, s)
          end
      end
  end.

Definition remove_temp_names (dir_fh : FileHandle) (names : list str) (removed : Z)
  : st S Error.t (Z * option Error.t) := λ s,
  remove_temp_names_loop (length names) 0 dir_fh
    (operation_pipeline_depth_for_slots (DirService.slot_count s)) names [] removed None s.

(** [cursor] is the page at hand with the position it was read from, or
    [None] at the head of the outer loop.  The code has no bound on its turns:
    [fuel] is given by the caller, one for each listing request. *)
Fixpoint sweep_loop (fuel : nat) (components : list str) (raw_directory : str) (cutoff_ms removed : Z)
    (cursor : option (FileHandle * DirPage.t * Z * bytes)) : st S Error.t Z :=
  match cursor with
  | None =>
      match fuel with
      | O => spanic
      | Datatypes.S fuel =>
          let! (dir_fh, page) := DirService.read_dir_path_page components 0 no_verifier None in
          sweep_loop fuel components raw_directory cutoff_ms removed (Some (dir_fh, page, 0, no_verifier))
      end
  | Some (dir_fh, page, cookie, verifier) =>
      let stale := stale_names ulid_ms cutoff_ms page in
      match stale with
      | _ :: _ =>
          let! (removed, error) := remove_temp_names dir_fh stale removed in
          match error with
          | Some _ => slift (sweep_result removed error raw_directory)
          | None =>
              match fuel with
              | O => spanic
              | Datatypes.S fuel => sweep_loop fuel components raw_directory cutoff_ms removed None
              end
          end
      | [] =>
          if DirPage.eof page then sret removed
          else
            match fuel with
            | O => spanic
            | Datatypes.S fuel =>
                let! (cookie, verifier) := slift (advance_dir_cursor cookie verifier page) in
                let! page := DirService.read_dir_page dir_fh cookie verifier None in
                sweep_loop fuel components raw_directory cutoff_ms removed
                  (Some (dir_fh, page, cookie, verifier))
            end
      end
  end.

Definition sweep_temp_files_once (fuel : nat) (components : list str) (raw_directory : str)
    (cutoff_ms : Z) : st S Error.t Z :=
  sweep_loop fuel components raw_directory cutoff_ms 0 None.
End directory.

(** ** The public operations *)

Section client.
Context {C : Type} {reads : ReadService.t C} {dirs : DirService.t C} (order : nat → nat)
  (generation : C → Z) (reconnect : Z → Z → Error.t → st C Error.t unit) (sleep : C → C)
  (limit : option Z).

Notation retrying := (retrying_session_operation generation reconnect sleep).

Definition get (raw_path : str) : st C Error.t bytes :=
  let! path := slift (path.file raw_path) in
  retrying (get_once order limit (components path)).

Definition get_known_size (raw_path : str) (size : Z) : st C Error.t bytes :=
  let! path := slift (path.file raw_path) in
  retrying (get_known_size_once order limit (components path) size).

Definition entry_info (raw_path : str) : st C Error.t EntryInfo.t :=
  let! path := slift (path.file raw_path) in
  retrying (entry_info_once (components path)).

Definition get_range (raw_path : str) (start end_ : Z) : st C Error.t bytes :=
  let! path := slift (path.file raw_path) in
  if end_ <=? start then sret []
  else retrying (get_range_once order limit (components path) start end_).

Definition delete (raw_path : str) : st C Error.t unit :=
  let! path := slift (path.file raw_path) in
  retrying (delete_once path raw_path).

Definition list_page (raw_directory : str) (max_entries : Z)
    (continuation_token : option ContinuationToken.t) : st C Error.t ListResult.t :=
  if max_entries =? 0 then sfail (Error.invalid_config "list max_entries must be greater than zero")
  else
    let! path := slift (path.directory raw_directory) in
    retrying (list_page_once (components path) max_entries continuation_token).

(** [since_epoch] is the time since the epoch, [None] when the clock is before
    it. *)
Definition unix_now_millis (since_epoch : option Duration) : Z :=
  match since_epoch with
  | Some duration =>
      let millis := duration / 1000000 in
      if millis <=? u64_max then millis else u64_max
  | None => 0
  end.

(** [now] is [unix_now_millis], [older_than] the milliseconds of the
    duration. *)
Definition sweep_temp_files (ulid_ms : str → option Z) (fuel : nat) (now : Z) (raw_directory : str)
    (older_than : Z) : st C Error.t Z :=
  let! path := slift (path.directory raw_directory) in
  let older_than_ms := if older_than <=? u64_max then older_than else u64_max in
  let cutoff_ms := saturating_sub now older_than_ms in
  λ c,
  match retrying (sweep_temp_files_once ulid_ms order fuel (components path) raw_directory cutoff_ms) c with
  | (Err err, c) => if Error.is_not_found err then (Ok 0, c) else (Err err, c)
  | other => other
  end.
End client.
