(* ===== verification/DirectoryFacts.v ===== *)
(** * What listings, deletions and sweeps promise *)

From S2P Require Import Prelude Proto Errors Path Xdr Ops Rpc Compound Reply Replies Slots Owner Session Reads ReadPipeline Writes Put PutFacts Directory.

(** ** Any server

    [log] is what is recorded of removals in a directory: [carries] relates
    the name and the answer of each to what it adds; nothing else changes it. *)

Abbreviation removal := (str * res Error.t RemoveOutcome)%type (only parsing).

Class SweepContract {S T : Type} (service : DirService.t S) (log : S → list T)
    (carries : removal → list T → Prop) : Prop := {
  sc_remove_at fh name s :
    let '(r, s') := DirService.remove_at fh name s in ∃ t, log s' = log s ++ t ∧ carries (name, r) t;
  sc_path_page p c v n : leaves log (DirService.read_dir_path_page p c v n);
  sc_page fh c v n : leaves log (DirService.read_dir_page fh c v n);
}.

Definition was_removed (e : removal) : Prop := e.2 = Ok Removed.
#[export] Instance was_removed_dec e : Decision (was_removed e).
Proof. destruct e as [name [[]|err|]]; [left|right|right|right]; done. Defined.

Definition removals (l : list removal) : Z := blen (filter was_removed l).

Definition went_wrong (e : removal) : Prop := match e.2 with Err _ => True | _ => False end.

Lemma removals_app l1 l2 : removals (l1 ++ l2) = removals l1 + removals l2.
Proof. unfold removals. by rewrite filter_app, blen_app. Qed.

Lemma removals_nil : removals [] = 0.
Proof. done. Qed.

Lemma removals_nonneg l : 0 ≤ removals l.
Proof. apply blen_nonneg. Qed.

Lemma schedule_removes_perm room names removes :
  let '(names', removes') := schedule_removes room names removes in
  names' ++ removes' ≡ₚ names ++ removes.
Proof.
  revert names removes. induction room as [|room IH]; intros [|n names] removes; cbn [schedule_removes]; try done.
  specialize (IH names (removes ++ [n])). destruct (schedule_removes room names (removes ++ [n])).
  rewrite IH. solve_Permutation.
Qed.

Section sweep.
Context {S T : Type} {service : DirService.t S} (ulid_ms : str → option Z) (order : nat → nat)
  (log : S → list T) (carries : removal → list T → Prop) `{!SweepContract service log carries}.

(** What a run of the removals of a page reports. *)
Definition page_outcome (removed : Z) (first_error : option Error.t) (l : list removal)
    (r : res Error.t (Z * option Error.t)) : Prop :=
  match r with
  | Ok (removed', first_error') =>
      removed' = removed + removals l ∧ (first_error' = None ↔ first_error = None ∧ ¬ Exists went_wrong l)
  | Err _ => False
  | Panic => True
  end.

Lemma page_outcome_cons removed first_error name outcome l r :
  match outcome with
  | Ok o => page_outcome (tally_remove_result (inr o) removed first_error).1
              (tally_remove_result (inr o) removed first_error).2 l r
  | Err err => page_outcome (tally_remove_result (inl err) removed first_error).1
                 (tally_remove_result (inl err) removed first_error).2 l r
  | Panic => False
  end → page_outcome removed first_error ((name, outcome) :: l) r.
Proof.
  rewrite (cons_middle (name, outcome) [] l) at 1. cbn [app].
  assert (Hc : ∀ o, removals ((name, o) :: l) = removals [(name, o)] + removals l).
  { intros o. apply (removals_app [_]). }
  destruct r as [[n fe]|e|]; [|by destruct outcome as [[]| |]..|done].
  destruct outcome as [[]|err|]; cbn [page_outcome tally_remove_result fst snd]; rewrite ?Exists_cons, Hc;
    [..|done].
  - change (removals [(name, Ok Removed)]) with 1. unfold went_wrong at 2. cbn. intros [-> H]. split; [lia|tauto].
  - change (removals [(name, Ok Missing)]) with 0. unfold went_wrong at 2. cbn. intros [-> H]. split; [lia|tauto].
  - change (removals [(name, Err err)]) with 0. unfold went_wrong at 2. cbn. intros [-> H]. split; [lia|].
    rewrite H. destruct first_error; naive_solver.
Qed.

(** The removals of one page: only its names, each counted once. *)
Lemma remove_loop_log fuel turn fh depth names removes removed first_error s :
  let '(r, s') := remove_temp_names_loop order fuel turn fh depth names removes removed first_error s in
  ∃ l t, log s' = log s ++ t ∧ logged carries l t ∧ Forall (λ e, e.1 ∈ names ++ removes) l
    ∧ page_outcome removed first_error l r.
Proof.
  revert turn names removes removed first_error s.
  induction fuel as [|fuel IH]; intros turn names removes removed first_error s; cbn [remove_temp_names_loop].
  all: pose proof (schedule_removes_perm (Z.to_nat (depth - blen removes)) names removes) as Hp.
  all: destruct (match first_error with
         | Some _ => (names, removes)
         | None => schedule_removes (Z.to_nat (depth - blen removes)) names removes end)
         as [names' removes'] eqn:E.
  all: assert (Hp' : names' ++ removes' ≡ₚ names ++ removes)
    by (destruct first_error; [by injection E as <- <-|by rewrite E in Hp]); clear Hp E.
  all: pose proof (next_completion_spec (order turn) removes') as Hn;
    destruct (next_completion (order turn) removes') as [[name rest]|].
  1: by exists [], []; rewrite app_nil_r; split_and!; [|apply logged_nil| |].
  1,3: exists [], []; rewrite app_nil_r; split_and!; [done|apply logged_nil|apply Forall_nil_2|]; unfold page_outcome;
    rewrite removals_nil, Exists_nil; split; [lia|naive_solver].
  pose proof (sc_remove_at fh name s) as Hr.
  assert (Hin : name ∈ names ++ removes).
  { rewrite <- Hp', Hn, elem_of_app, elem_of_cons. tauto. }
  assert (Hsub : ∀ x, x ∈ names' ++ rest → x ∈ names ++ removes).
  { intros x. rewrite <- Hp', Hn, !elem_of_app, elem_of_cons. tauto. }
  assert (Hcons : ∀ l t r s1 s', (∃ t1, log s1 = log s ++ t1 ∧ carries (name, r) t1) → log s' = log s1 ++ t →
    logged carries l t → Forall (λ e, e.1 ∈ names' ++ rest) l →
    ∃ t', log s' = log s ++ t' ∧ logged carries ((name, r) :: l) t'
      ∧ Forall (λ e, e.1 ∈ names ++ removes) ((name, r) :: l)).
  { intros l t r s1 s' (t1 & H1 & Hc) H2 Hl Hf. exists (t1 ++ t). rewrite H2, H1, <- app_assoc. split; [done|].
    split; [apply (logged_app _ [_]); [by apply logged_one|done]|]. constructor; [done|].
    eapply Forall_impl; [exact Hf|]. intros e. apply Hsub. }
  destruct (DirService.remove_at fh name s) as [[outcome|err|] s1].
  - specialize (IH (Datatypes.S turn) names' rest
      (tally_remove_result (inr outcome) removed first_error).1
      (tally_remove_result (inr outcome) removed first_error).2 s1).
    destruct (tally_remove_result (inr outcome) removed first_error) eqn:Et; cbn [fst snd] in IH.
    destruct (remove_temp_names_loop _ _ _ _ _ _ _ _ _ s1) as [r s']; destruct IH as (l & t & Hl & Hg & Hf & H).
    destruct (Hcons l t _ s1 s' Hr Hl Hg Hf) as (t' & ? & ? & ?). exists ((name, Ok outcome) :: l), t'. split_and!; [done..|].
    apply page_outcome_cons. by rewrite Et.
  - specialize (IH (Datatypes.S turn) names' rest
      (tally_remove_result (inl err) removed first_error).1
      (tally_remove_result (inl err) removed first_error).2 s1).
    destruct (tally_remove_result (inl err) removed first_error) eqn:Et; cbn [fst snd] in IH.
    destruct (remove_temp_names_loop _ _ _ _ _ _ _ _ _ s1) as [r s']; destruct IH as (l & t & Hl & Hg & Hf & H).
    destruct (Hcons l t _ s1 s' Hr Hl Hg Hf) as (t' & ? & ? & ?). exists ((name, Err err) :: l), t'. split_and!; [done..|].
    apply page_outcome_cons. by rewrite Et.
  - destruct Hr as (t & Ht & Hc). exists [(name, Panic)], t. split_and!; [done|by apply logged_one| |done]. by constructor.
Qed.

(** What a sweep asked to remove, and what it reports: only stale temporary
    files; the count of those removed when every removal was answered, an
    unknown outcome when one was not. *)
Definition sweep_outcome (cutoff removed : Z) (raw_directory : str) (r : res Error.t Z)
    (l : list removal) : Prop :=
  Forall (λ e, is_stale ulid_ms cutoff e.1 = true) l
  ∧ match r with
    | Ok n => n = removed + removals l ∧ ¬ Exists went_wrong l
    | Err e => Exists went_wrong l →
        ∃ cause, e = outcome_unknown_error "sweep temporary files" raw_directory cause
    | Panic => True
    end.

Lemma sweep_outcome_app cutoff removed raw r l1 l2 :
  Forall (λ e, is_stale ulid_ms cutoff e.1 = true) l1 → ¬ Exists went_wrong l1 →
  sweep_outcome cutoff (removed + removals l1) raw r l2 → sweep_outcome cutoff removed raw r (l1 ++ l2).
Proof using.
  intros H1 Hw [H2 Hr]. split; [by apply Forall_app|].
  destruct r as [n|e|]; rewrite ?removals_app, ?Exists_app; [|naive_solver|done].
  split; [lia|naive_solver].
Qed.

Lemma sweep_outcome_nil cutoff removed raw e : sweep_outcome cutoff removed raw (Err e) [].
Proof using. split; [constructor|]. by rewrite Exists_nil. Qed.

Lemma sweep_outcome_panic cutoff removed raw : sweep_outcome cutoff removed raw Panic [].
Proof using. by split. Qed.

Definition swept (cutoff removed : Z) (raw : str) (s : S) (p : res Error.t Z * S) : Prop :=
  ∃ l t, log p.2 = log s ++ t ∧ logged carries l t ∧ sweep_outcome cutoff removed raw p.1 l.

Lemma swept_none cutoff removed raw s r s' :
  log s' = log s → sweep_outcome cutoff removed raw r [] → swept cutoff removed raw s (r, s').
Proof using. intros Hl H. exists [], []. rewrite app_nil_r. split_and!; [done|apply logged_nil|done]. Qed.

Lemma swept_bind {A} cutoff removed raw s (m : st S Error.t A) f :
  leaves log m → (∀ a s', log s' = log s → swept cutoff removed raw s (f a s')) →
  swept cutoff removed raw s (sbind m f s).
Proof using.
  intros Hm Hf. specialize (Hm s). unfold sbind. destruct (m s) as [[a|e|] s']; cbn [snd] in Hm.
  - by apply Hf.
  - by apply swept_none, sweep_outcome_nil.
  - by apply swept_none, sweep_outcome_panic.
Qed.

Lemma swept_after cutoff removed raw s s1 l t p :
  log s1 = log s ++ t → logged carries l t → Forall (λ e, is_stale ulid_ms cutoff e.1 = true) l → ¬ Exists went_wrong l →
  swept cutoff (removed + removals l) raw s1 p → swept cutoff removed raw s p.
Proof using.
  intros Hl Hg Hs Hw (l2 & t2 & Hl2 & Hg2 & H). exists (l ++ l2), (t ++ t2). rewrite Hl2, Hl, app_assoc.
  split_and!; [done|by apply logged_app|by apply sweep_outcome_app].
Qed.

Lemma swept_from cutoff removed raw s s1 p :
  log s1 = log s → swept cutoff removed raw s1 p → swept cutoff removed raw s p.
Proof using. unfold swept. by intros ->. Qed.

Lemma stale_names_stale cutoff page name :
  name ∈ stale_names ulid_ms cutoff page → is_stale ulid_ms cutoff name = true.
Proof using. unfold stale_names. by rewrite list_elem_of_filter; intros [? _]. Qed.

(** The removals of one page, then [next] when all were answered. *)
Lemma swept_page cutoff removed raw fh page s (next : Z → st S Error.t Z) :
  (∀ n s1, swept cutoff n raw s1 (next n s1)) →
  swept cutoff removed raw s
    ((let! (n, error) := remove_temp_names order fh (stale_names ulid_ms cutoff page) removed in
      match error with
      | Some _ => slift (sweep_result n error raw)
      | None => next n
      end) s).
Proof.
  intros Hnext. unfold sbind, remove_temp_names.
  pose proof (remove_loop_log (length (stale_names ulid_ms cutoff page)) 0 fh
    (operation_pipeline_depth_for_slots (DirService.slot_count s)) (stale_names ulid_ms cutoff page)
    [] removed None s) as H.
  destruct (remove_temp_names_loop _ _ _ _ _ _ _ _ _ s) as [r s1]. destruct H as (l & t & Hl & Hg & Hf & H).
  assert (Hs : Forall (λ e, is_stale ulid_ms cutoff e.1 = true) l).
  { eapply Forall_impl; [exact Hf|]. intros e. rewrite app_nil_r. apply stale_names_stale. }
  destruct r as [[n [err|]]|e|]; cbn [page_outcome] in H; [|..|done|by exists l, t].
  - exists l, t. split_and!; [done..|]. split; [done|]. intros _. by exists err.
  - destruct H as [-> Hw]. apply (swept_after _ _ _ _ s1 l t); [done|done|done|by apply Hw|]. apply Hnext.
Qed.

Lemma sweep_loop_log fuel p raw cutoff removed cursor s :
  swept cutoff removed raw s (sweep_loop ulid_ms order fuel p raw cutoff removed cursor s).
Proof.
  revert removed cursor s.
  assert (Hpanic : ∀ n s, swept cutoff n raw s (spanic s)).
  { intros n s. by apply swept_none, sweep_outcome_panic. }
  induction fuel as [|fuel IH]; intros removed [[[[fh page] cookie] v]|] s; cbn [sweep_loop].
  1,3: destruct (stale_names ulid_ms cutoff page) eqn:E; [|rewrite <- E; by apply swept_page];
    destruct (DirPage.eof page); [apply swept_none; [done|]; split; [constructor|]; rewrite removals_nil, Exists_nil;
      split; [lia|tauto]|].
  - apply Hpanic.
  - apply swept_bind; [apply leaves_lift|]. intros [c v'] s1 H1. apply (swept_from _ _ _ _ s1 _ H1).
    apply swept_bind; [apply sc_page|]. intros page' s2 H2. by apply (swept_from _ _ _ _ s2).
  - apply Hpanic.
  - apply swept_bind; [apply sc_path_page|]. intros [fh page] s1 H1. by apply (swept_from _ _ _ _ s1).
Qed.
End sweep.

Section client.
Context {C T : Type} {service : DirService.t C} (ulid_ms : str → option Z) (order : nat → nat)
  (log : C → list T) (carries : removal → list T → Prop) `{!SweepContract service log carries}.
Context (generation : C → Z) (reconnect : Z → Z → Error.t → st C Error.t unit) (sleep : C → C).
Hypothesis leaves_reconnect : ∀ g n e, leaves log (reconnect g n e).

#[local] Instance went_wrong_dec e : Decision (went_wrong e).
Proof. destruct e as [name [o|err|]]; [right|left|right]; done || by intros []. Defined.

(** A temporary file created at or before the cutoff. *)
Definition stale_temp (cutoff : Z) (name : str) : Prop :=
  ∃ ulid created, name = TEMP_FILE_PREFIX ++ ulid ∧ ulid_ms ulid = Some created ∧ created ≤ cutoff.

Lemma is_stale_temp cutoff name : is_stale ulid_ms cutoff name = true ↔ stale_temp cutoff name.
Proof using.
  unfold is_stale, parse_temp_file_created_ms, stale_temp. split.
  - destruct (strip_prefix TEMP_FILE_PREFIX name) as [ulid|] eqn:E; [|done].
    destruct (ulid_ms ulid) as [created|] eqn:Eu; [|done]. intros H. apply strip_prefix_spec in E.
    exists ulid, created. split_and!; [done..|lia].
  - intros (ulid & created & -> & Hu & Hc). rewrite (proj2 (strip_prefix_spec _ _ ulid) eq_refl), Hu. lia.
Qed.

#[global] Instance stale_temp_dec cutoff name : Decision (stale_temp cutoff name).
Proof using.
  destruct (is_stale ulid_ms cutoff name) eqn:H; [left; by apply is_stale_temp|right].
  intros K%is_stale_temp. congruence.
Defined.

(** What the public sweep reports of all its removals. *)
Definition sweep_report (cutoff : Z) (raw : str) (r : res Error.t Z) (l : list removal) : Prop :=
  Forall (λ e, stale_temp cutoff e.1) l
  ∧ match r with
    | Ok n => 0 ≤ n ≤ removals l ∧ ¬ Exists went_wrong l
    | Err e => Exists went_wrong l →
        ∃ cause, e = outcome_unknown_error "sweep temporary files" raw cause
    | Panic => True
    end.

Lemma sweep_outcome_report cutoff raw r l :
  sweep_outcome ulid_ms cutoff 0 raw r l → sweep_report cutoff raw r l.
Proof using.
  intros [Hs H]. split; [eapply Forall_impl; [exact Hs|]; intros e; apply is_stale_temp|].
  destruct r as [n|e|]; [|done..]. destruct H as [-> Hw].
  pose proof (removals_nonneg l). split; [lia|done].
Qed.

Lemma sweep_report_app cutoff raw r l1 l2 :
  Forall (λ e, stale_temp cutoff e.1) l1 → ¬ Exists went_wrong l1 →
  sweep_report cutoff raw r l2 → sweep_report cutoff raw r (l1 ++ l2).
Proof using.
  intros H1 Hw [H2 Hr]. split; [by apply Forall_app|].
  destruct r as [n|e|]; rewrite ?removals_app, ?Exists_app; [|naive_solver|done].
  pose proof (removals_nonneg l1). split; [lia|naive_solver].
Qed.

Definition reported (cutoff : Z) (raw : str) (c : C) (p : res Error.t Z * C) : Prop :=
  ∃ l t, log p.2 = log c ++ t ∧ logged carries l t ∧ sweep_report cutoff raw p.1 l.

Lemma sweep_retried fuel p raw cutoff c :
  reported cutoff raw c (retrying_session_operation generation reconnect sleep
    (sweep_temp_files_once ulid_ms order fuel p raw cutoff) c).
Proof using leaves_reconnect SweepContract0.
  rewrite retrying_runs_twice. unfold sweep_temp_files_once.
  destruct (sweep_loop_log ulid_ms order log carries fuel p raw cutoff 0 None c) as (l & t & Hl & Hg & Ho).
  destruct (sweep_loop ulid_ms order fuel p raw cutoff 0 None c) as [[n|e|] c1]; cbn [fst snd] in *.
  1,3: exists l, t; split_and!; [done..|by apply sweep_outcome_report].
  destruct (Error.requires_session_rebuild e) eqn:He; [|exists l, t; split_and!; [done..|by apply sweep_outcome_report]].
  assert (Hw : ¬ Exists went_wrong l).
  { intros Hw. destruct Ho as [_ Ho]. by destruct (Ho Hw) as (cause & ->). }
  apply sweep_outcome_report in Ho as [Hs _].
  pose proof (leaves_reconnect (generation c) 1 e c1) as Hr.
  destruct (reconnect (generation c) 1 e c1) as [[[]|e'|] c2]; cbn [snd] in Hr.
  - destruct (sweep_loop_log ulid_ms order log carries fuel p raw cutoff 0 None c2) as (l2 & t2 & Hl2 & Hg2 & Ho2).
    destruct (sweep_loop ulid_ms order fuel p raw cutoff 0 None c2) as [r c3]; cbn [fst snd] in *.
    exists (l ++ l2), (t ++ t2). cbn [fst snd]. rewrite Hl2, Hr, Hl, app_assoc. split_and!; [done|by apply logged_app|].
    apply sweep_report_app; [done|done|by apply sweep_outcome_report].
  - exists l, t. cbn [fst snd]. rewrite Hr. split_and!; [done..|]. split; [done|by intros ?].
  - exists l, t. cbn [fst snd]. rewrite Hr. split_and!; [done..|]. by split.
Qed.

Lemma sweep_reported fuel now raw older_than c :
  reported (saturating_sub now (if older_than <=? u64_max then older_than else u64_max)) raw c
    (sweep_temp_files order generation reconnect sleep ulid_ms fuel now raw older_than c).
Proof using leaves_reconnect SweepContract0.
  set (cutoff := saturating_sub now _). unfold sweep_temp_files, sbind, slift.
  destruct (path.directory raw) as [p|e|]; fold cutoff.
  - pose proof (sweep_retried fuel (components p) raw cutoff c) as H.
    destruct (retrying_session_operation _ _ _ _ c) as [[n|e|] c']; [done| |done].
    destruct H as (l & t & Hl & Hg & Hs & H). destruct (Error.is_not_found e) eqn:He; [|by exists l, t].
    exists l, t. split_and!; [done..|]. split; [done|]. pose proof (removals_nonneg l). split; [lia|].
    intros Hw. by destruct (H Hw) as (cause & ->).
  - exists [], []. rewrite app_nil_r. split_and!; [done|apply logged_nil|]. split; [constructor|].
    cbn [fst]. by rewrite Exists_nil.
  - exists [], []. rewrite app_nil_r. by split_and!; [|apply logged_nil|].
Qed.
End client.

(** A sweep removes only stale temporary files.  Whatever the server lists and
    answers, and across the retry on a new session, every name the sweep asks
    to remove has the reserved prefix and a creation time at or before the
    cutoff; the count it returns is of files the server reported removed; and
    a removal that failed is reported as an unknown outcome, not retried and
    not counted as a clean sweep. *)
Theorem sweep_removes_only_stale {C} {service : DirService.t C} ulid_ms order (log : C → list removal)
    `{!SweepContract service log (λ e t, t = [e])} generation reconnect sleep fuel now raw older_than c :
  (∀ g n e, leaves log (reconnect g n e)) →
  let cutoff := saturating_sub now (if older_than <=? u64_max then older_than else u64_max) in
  let '(r, c') := sweep_temp_files order generation reconnect sleep ulid_ms fuel now raw older_than c in
  ∃ l, log c' = log c ++ l ∧ sweep_report ulid_ms cutoff raw r l.
Proof.
  intros Hr cutoff. destruct (sweep_reported ulid_ms order log (λ e t, t = [e]) generation reconnect sleep Hr fuel now raw
    older_than c) as (l & t & Hl & Hg & H). fold cutoff in H. apply logged_itself in Hg as ->.
  destruct (sweep_temp_files _ _ _ _ _ _ _ _ _ c) as [r c']. by exists l.
Qed.

(** ** Deletion *)

(** [log] is every removal by path with its answer. *)
Class DeleteContract {S : Type} (service : DirService.t S) (log : S → list (res Error.t RemoveOutcome)) : Prop :=
  dl_remove p name s : let '(r, s') := DirService.remove p name s in log s' = log s ++ [r].

(** The answer proves that nothing was removed. *)
Definition not_run (r : res Error.t RemoveOutcome) : Prop :=
  match r with Err e => error_proves_operation_not_run e = true | _ => False end.

Inductive delete_outcome (raw_path : str) : res Error.t unit → list (res Error.t RemoveOutcome) → Prop :=
| delete_gone tries o : Forall not_run tries → delete_outcome raw_path (Ok tt) (tries ++ [Ok o])
| delete_unknown tries e :
    Forall not_run tries → error_proves_operation_not_run e = false →
    delete_outcome raw_path (Err (outcome_unknown_error "delete" raw_path e)) (tries ++ [Err e])
| delete_failed tries e : Forall not_run tries → delete_outcome raw_path (Err e) tries
| delete_panicked tries last : Forall not_run tries → blen last ≤ 1 →
    delete_outcome raw_path Panic (tries ++ last).

Lemma delete_outcome_app raw_path r tries1 tries2 :
  Forall not_run tries1 → delete_outcome raw_path r tries2 → delete_outcome raw_path r (tries1 ++ tries2).
Proof.
  intros H1 [tries o H2|tries e H2 He|tries e H2|tries a H2 Ha]; rewrite ?app_assoc;
    constructor; try done; by apply Forall_app.
Qed.

Section delete.
Context {C : Type} {service : DirService.t C} (log : C → list (res Error.t RemoveOutcome))
  `{!DeleteContract service log}.
Context (generation : C → Z) (reconnect : Z → Z → Error.t → st C Error.t unit) (sleep : C → C).
Hypothesis leaves_reconnect : ∀ g n e, leaves log (reconnect g n e).

Definition deleted (n : Z) (raw : str) (c : C) (p : res Error.t unit * C) : Prop :=
  ∃ tries, log p.2 = log c ++ tries ∧ blen tries ≤ n ∧ delete_outcome raw p.1 tries.

Lemma deleted_none n raw c r c' :
  0 ≤ n → log c' = log c → delete_outcome raw r [] → deleted n raw c (r, c').
Proof using. intros Hn Hl H. exists []. rewrite app_nil_r, blen_nil. done. Qed.

Lemma delete_once_outcome path raw c : deleted 1 raw c (delete_once path raw c).
Proof using DeleteContract0.
  unfold delete_once, sbind, slift. destruct (path.parent_and_name path) as [[parent name]|e|].
  2: apply deleted_none; [done|done|by constructor].
  2: apply deleted_none; [done|done|by apply (delete_panicked raw [] [])].
  pose proof (dl_remove parent name c) as H. destruct (DirService.remove parent name c) as [r c'].
  exists [r]. split_and!; [done|done|]. destruct r as [o|e|]; cbn [fst delete_result].
  - destruct o; by apply (delete_gone raw []).
  - destruct (error_proves_operation_not_run e) eqn:He; [apply delete_failed; by constructor|].
    by apply (delete_unknown raw []).
  - by apply (delete_panicked raw [] [Panic]).
Qed.

(** A delete that may have run is never repeated.  At most two removals
    are asked for, and the second only when the answer to the first proves
    that it did not run; success means that the server answered that the name
    was removed or was missing, and a removal whose reply was lost is reported
    as an unknown outcome. *)
Theorem delete_never_replayed raw c :
  let '(r, c') := delete generation reconnect sleep raw c in
  ∃ tries, log c' = log c ++ tries ∧ blen tries ≤ 2 ∧ delete_outcome raw r tries.
Proof using leaves_reconnect DeleteContract0.
  unfold delete, sbind, slift. destruct (path.file raw) as [path|e|].
  2: exists []; rewrite app_nil_r; by split_and!; [| |constructor].
  2: exists []; rewrite app_nil_r; split_and!; [done|done|by apply (delete_panicked raw [] [])].
  rewrite retrying_runs_twice. destruct (delete_once_outcome path raw c) as (t1 & Hl1 & Hb1 & H1).
  destruct (delete_once path raw c) as [[[]|e|] c1]; cbn [fst snd] in *.
  1,3: exists t1; split_and!; [done|lia|done].
  destruct (Error.requires_session_rebuild e) eqn:He; [|exists t1; split_and!; [done|lia|done]].
  assert (Ht : Forall not_run t1) by (inversion H1; subst; done).
  pose proof (leaves_reconnect (generation c) 1 e c1) as Hr.
  destruct (reconnect (generation c) 1 e c1) as [[[]|e'|] c2]; cbn [snd] in Hr.
  - destruct (delete_once_outcome path raw c2) as (t2 & Hl2 & Hb2 & H2).
    destruct (delete_once path raw c2) as [r c3]; cbn [fst snd] in *.
    exists (t1 ++ t2). rewrite Hl2, Hr, Hl1, app_assoc, blen_app. split_and!; [done|lia|by apply delete_outcome_app].
  - exists t1. rewrite Hr. split_and!; [done|lia|by constructor].
  - exists t1. rewrite Hr. split_and!; [done|lia|]. rewrite <- (app_nil_r t1). by constructor.
Qed.
End delete.
