(* ===== verification/SweepFacts.v ===== *)
(** * A directory is listed and swept completely

    The server side of a directory: its entries in the order of their cookies,
    handed out in pages of any size.  Against such a server a walk over the
    pages meets every entry once, and a sweep ends with every stale temporary
    file gone and everything else in place. *)

From Stdlib Require Import Sorted.
From S2P Require Import Prelude Proto Errors Path Xdr Ops Rpc Compound Reply Replies Slots Owner Session Reads ReadPipeline Writes Put PutFacts Directory DirectoryFacts.

Abbreviation dirent := (Z * str)%type (only parsing).

(** The entries behind a cookie. *)
Definition after (c : Z) (l : list dirent) : list dirent := filter (λ e, c < e.1) l.

Definition visible (l : list dirent) : list str :=
  filter (λ name, is_dot_readdir_name name = false) l.*2.

Lemma visible_app l1 l2 : visible (l1 ++ l2) = visible l1 ++ visible l2.
Proof. unfold visible. by rewrite fmap_app, filter_app. Qed.

(** What a sweep leaves, and what it removes: the temporary files created at or
    before the cutoff. *)
Definition fresh_entries (ulid_ms : str → option Z) (cutoff : Z) (l : list dirent) : list dirent :=
  filter (λ e, ¬ stale_temp ulid_ms cutoff e.2) l.
Definition stale_entries (ulid_ms : str → option Z) (cutoff : Z) (l : list dirent) : list dirent :=
  filter (λ e, stale_temp ulid_ms cutoff e.2) l.

(** Cookies grow, no two entries share a name. *)
Definition ordered (l : list dirent) : Prop :=
  StronglySorted Z.lt (0 :: l.*1) ∧ NoDup l.*2.

(** A page read at cookie [c]: some of the entries behind it, in order, all of
    them when it is the last page. *)
Definition page_at (verifier : bytes) (l : list dirent) (c : Z) (page : DirPage.t) (rest : list dirent) : Prop :=
  ∃ chunk, after c l = chunk ++ rest
    ∧ DirEntry.name <$> DirPage.entries page = visible chunk
    ∧ DirPage.eof page = bool_decide (rest = [])
    ∧ (rest ≠ [] → ∃ e, last chunk = Some e ∧ DirPage.last_cookie page = e.1)
    ∧ DirPage.verifier page = verifier.

Class DirContract {S : Type} (service : DirService.t S) (I : S → Prop) (dir : S → list dirent)
    (p : list str) (fh : FileHandle) (verifier : bytes) : Prop := {
  dc_ordered s : I s → ordered (dir s);
  dc_path_page s : I s → ∃ page rest s', I s' ∧ dir s' = dir s ∧ page_at verifier (dir s) 0 page rest
    ∧ DirService.read_dir_path_page p 0 no_verifier None s = (Ok (fh, page), s');
  dc_page s c : I s → 0 < c → ∃ page rest s', I s' ∧ dir s' = dir s ∧ page_at verifier (dir s) c page rest
    ∧ DirService.read_dir_page fh c verifier None s = (Ok page, s');
  dc_list s c n : I s → 0 ≤ c → 0 < n → ∃ page rest s', I s' ∧ dir s' = dir s
    ∧ page_at verifier (dir s) c page rest
    ∧ DirService.read_dir_path_page_without_handle p c (if c =? 0 then no_verifier else verifier) (Some n) s
      = (Ok page, s');
  dc_remove_at s name : I s → ∃ s', I s' ∧ dir s' = filter (λ e, e.2 ≠ name) (dir s)
    ∧ DirService.remove_at fh name s
      = (Ok (if bool_decide (name ∈ (dir s).*2) then Removed else Missing), s');
}.

(** ** The order of the entries *)

Lemma sorted_after_cookie (l1 l2 : list dirent) e c :
  StronglySorted Z.lt (c :: (l1 ++ e :: l2).*1) → after e.1 (l1 ++ e :: l2) = l2.
Proof.
  intros H. inversion H as [|? ? Hs _]; subst. clear H. revert Hs.
  induction l1 as [|a l1 IH]; cbn [app fmap list_fmap]; intros Hs; inversion Hs as [|? ? Hs' Hf]; subst.
  - unfold after. rewrite filter_cons_False by lia.
    induction l2 as [|b l2 IH2]; [done|]. cbn in Hf, Hs', Hs. rewrite Forall_cons in Hf.
    destruct Hf as [Hb Hf]. rewrite filter_cons_True by done. f_equal.
    inversion Hs'; subst. apply IH2; [|done..]. by constructor.
  - unfold after. rewrite filter_cons_False; [by apply IH|].
    rewrite fmap_app, Forall_app, fmap_cons, Forall_cons in Hf. lia.
Qed.

Lemma after_zero l : ordered l → after 0 l = l.
Proof.
  intros [H _]. inversion H as [|? ? _ Hf]; subst. clear H. unfold after.
  induction l as [|e l IH]; [done|]. cbn in Hf. rewrite Forall_cons in Hf. destruct Hf.
  rewrite filter_cons_True by done. f_equal. by apply IH.
Qed.

(** The entries behind a cookie are a suffix. *)
Lemma after_suffix (l : list dirent) c :
  StronglySorted Z.lt l.*1 → ∃ before, l = before ++ after c l.
Proof.
  induction l as [|e l IH]; intros Hs; [by exists []|]. cbn in Hs. inversion Hs as [|? ? Hs' Hf]; subst.
  unfold after. destruct (decide (c < e.1)) as [Hc|Hc].
  - exists []. rewrite filter_cons_True by done. cbn. f_equal. clear IH Hs Hs'.
    induction l as [|a l IHl]; [done|]. cbn in Hf. rewrite Forall_cons in Hf. destruct Hf.
    rewrite filter_cons_True by lia. f_equal. by apply IHl.
  - destruct (IH Hs') as [before Hb]. exists (e :: before). rewrite filter_cons_False by done.
    cbn. f_equal. exact Hb.
Qed.

(** The next page starts where this one ended, at a greater cookie. *)
Lemma page_next v l c page rest :
  ordered l → 0 ≤ c → page_at v l c page rest → rest ≠ [] →
  after (DirPage.last_cookie page) l = rest ∧ c < DirPage.last_cookie page.
Proof.
  intros [Hs _] Hc (chunk & Ha & _ & _ & Hlast & _) Hr. destruct (Hlast Hr) as (e & He & ->).
  apply last_Some in He as [ch ->]. rewrite <- app_assoc in Ha. cbn in Ha.
  assert (Hin : c < e.1).
  { assert (H : e ∈ after c l) by (rewrite Ha; apply elem_of_app; right; by left).
    unfold after in H. by apply list_elem_of_filter in H as [H _]. }
  split; [|done]. inversion Hs as [|? ? Hs' Hf]; subst.
  destruct (after_suffix l c Hs') as [before Hb]. rewrite Ha, app_assoc in Hb.
  rewrite Hb. apply (sorted_after_cookie _ _ _ 0). by rewrite <- Hb.
Qed.

Lemma blen_perm {A} (l1 l2 : list A) : l1 ≡ₚ l2 → blen l1 = blen l2.
Proof. intros H. unfold blen. by rewrite H. Qed.

Lemma filter_fmap_snd (P : str → Prop) `{!∀ x, Decision (P x)} (l : list dirent) :
  filter P l.*2 = (filter (λ e, P e.2) l).*2.
Proof.
  induction l as [|e l IH]; [done|]. cbn [fmap list_fmap]. destruct (decide (P e.2)).
  - rewrite !filter_cons_True by done. cbn. by f_equal.
  - by rewrite !filter_cons_False.
Qed.

(** Distinct names of a directory pick as many entries. *)
Lemma length_picked (names : list str) (l : list dirent) :
  NoDup l.*2 → NoDup names → (∀ n, n ∈ names → n ∈ l.*2) → blen (filter (λ e, e.2 ∈ names) l) = blen names.
Proof.
  intros Hl Hn Hin. transitivity (blen (filter (λ e, e.2 ∈ names) l).*2); [unfold blen; by rewrite length_fmap|].
  assert (E : (filter (λ e, e.2 ∈ names) l).*2 = filter (λ n, n ∈ names) l.*2)
    by (symmetry; apply filter_fmap_snd).
  rewrite E. apply blen_perm, NoDup_Permutation; [by apply NoDup_filter|done|].
  intros n. rewrite list_elem_of_filter. naive_solver.
Qed.

Section sweep.
Context {S : Type} {service : DirService.t S} (ulid_ms : str → option Z) (order : nat → nat)
  (I : S → Prop) (dir : S → list dirent) (p : list str) (fh : FileHandle) (verifier : bytes)
  `{!DirContract service I dir p fh verifier}.

(** ** The removals of a page *)

(** As long as names are left, a removal is in flight. *)
Lemma schedule_removes_busy room names removes :
  (removes = [] → (0 < room)%nat) → (schedule_removes room names removes).2 = [] → names ++ removes = [].
Proof using.
  assert (Hgrow : ∀ room names removes, removes ≠ [] → (schedule_removes room names removes).2 ≠ []).
  { clear. induction room as [|room IH]; intros [|n names] removes Hr; cbn; try done.
    apply IH. by destruct removes. }
  destruct removes as [|x removes]; intros Hroom H; [|exfalso; eapply Hgrow; [|exact H]; done].
  destruct room as [|room]; [specialize (Hroom eq_refl); lia|]. destruct names as [|n names]; [done|].
  exfalso. cbn in H. eapply Hgrow; [|exact H]. done.
Qed.

Lemma remove_loop_all fuel turn depth names removes removed s :
  1 ≤ depth → I s → NoDup (names ++ removes) → (∀ n, n ∈ names ++ removes → n ∈ (dir s).*2) →
  (length (names ++ removes) ≤ fuel)%nat →
  ∃ s', I s' ∧ dir s' = filter (λ e, e.2 ∉ names ++ removes) (dir s)
    ∧ remove_temp_names_loop order fuel turn fh depth names removes removed None s
      = (Ok (removed + blen (names ++ removes), None), s').
Proof.
  intros Hd. revert turn names removes removed s.
  induction fuel as [|fuel IH]; intros turn names removes removed s HI Hnd Hin Hfuel; cbn [remove_temp_names_loop].
  all: pose proof (schedule_removes_perm (Z.to_nat (depth - blen removes)) names removes) as Hp.
  all: pose proof (schedule_removes_busy (Z.to_nat (depth - blen removes)) names removes) as Hbusy.
  all: destruct (schedule_removes (Z.to_nat (depth - blen removes)) names removes) as [names' removes'].
  all: pose proof (next_completion_spec (order turn) removes') as Hn;
    destruct (next_completion (order turn) removes') as [[name rest]|].
  1: { exfalso. rewrite <- Hp, Hn, length_app in Hfuel. cbn in Hfuel. lia. }
  1,3: rewrite Hbusy; [exists s; split_and!; [done| |by rewrite blen_nil, Z.add_0_r]; symmetry;
      apply filter_all; apply Forall_forall; intros e _; apply not_elem_of_nil
    |intros ->; rewrite blen_nil; lia|done].
  assert (Hp2 : names ++ removes ≡ₚ name :: (names' ++ rest)) by (rewrite <- Hp, Hn; solve_Permutation).
  rewrite Hp2 in Hnd. apply NoDup_cons in Hnd as [Hname Hnd].
  assert (Hname' : name ∈ (dir s).*2) by (apply Hin; rewrite Hp2; by left).
  destruct (dc_remove_at s name HI) as (s1 & HI1 & Hd1 & ->).
  rewrite (bool_decide_eq_true_2 _ Hname'). cbn [tally_remove_result].
  destruct (IH (Datatypes.S turn) names' rest (removed + 1) s1 HI1 Hnd) as (s' & HI' & Hd' & ->).
  - intros n Hn2. rewrite Hd1. assert (Hn3 : n ∈ (dir s).*2) by (apply Hin; rewrite Hp2; by right).
    apply list_elem_of_fmap in Hn3 as (e & -> & He). apply list_elem_of_fmap_2, list_elem_of_filter.
    split; [|done]. by intros <-.
  - rewrite Hp2 in Hfuel. cbn in Hfuel. lia.
  - exists s'. split; [done|]. split.
    + rewrite Hd', Hd1, list_filter_filter. apply list_filter_iff. intros e.
      rewrite Hp2, not_elem_of_cons. tauto.
    + do 3 f_equal. rewrite (blen_perm _ _ Hp2), blen_cons. lia.
Qed.

(** ** The stale entries *)

Context (cutoff : Z).
Notation stale := (filter (λ e : dirent, is_stale ulid_ms cutoff e.2 = true)).
Notation fresh := (filter (λ e : dirent, is_stale ulid_ms cutoff e.2 = false)).

Lemma stale_not_dot name : is_stale ulid_ms cutoff name = true → is_dot_readdir_name name = false.
Proof using.
  unfold is_dot_readdir_name. intros H.
  rewrite !bool_decide_eq_false_2; [done|intros ->; by vm_compute in H..].
Qed.

Lemma page_stale l c page rest chunk :
  DirEntry.name <$> DirPage.entries page = visible chunk → after c l = chunk ++ rest →
  stale_names ulid_ms cutoff page = (stale chunk).*2.
Proof using.
  intros Hv _. unfold stale_names. rewrite Hv. unfold visible.
  rewrite list_filter_filter_l; [apply filter_fmap_snd|]. intros n. apply stale_not_dot.
Qed.

Lemma stale_removed l names :
  NoDup l.*2 → NoDup names → (∀ n, n ∈ names → n ∈ l.*2 ∧ is_stale ulid_ms cutoff n = true) →
  blen (stale l) = blen names + blen (stale (filter (λ e, e.2 ∉ names) l))
  ∧ fresh (filter (λ e, e.2 ∉ names) l) = fresh l.
Proof using.
  intros Hl Hn Hin. split.
  - rewrite <- (length_picked names l Hl Hn) by naive_solver. rewrite <- blen_app.
    apply blen_perm. rewrite <- (filter_app_complement (λ e, e.2 ∈ names) (stale l)).
    rewrite !list_filter_filter.
    rewrite (list_filter_iff (λ e, e.2 ∈ names ∧ is_stale ulid_ms cutoff e.2 = true) (λ e, e.2 ∈ names))
      by naive_solver.
    rewrite (list_filter_iff (λ e, ¬ e.2 ∈ names ∧ is_stale ulid_ms cutoff e.2 = true)
      (λ e, is_stale ulid_ms cutoff e.2 = true ∧ e.2 ∉ names)) by naive_solver.
    done.
  - rewrite list_filter_filter_l; [done|]. intros e He Hm. destruct (Hin _ Hm) as [_ H]. congruence.
Qed.

(** ** The walk over the pages *)

Context (raw : str).

(** The sweep ends with the stale entries gone and counted. *)
Definition sweeps (fuel : nat) (removed : Z) (cursor : option (FileHandle * DirPage.t * Z * bytes))
    (s : S) : Prop :=
  ∃ s', I s' ∧ dir s' = fresh (dir s)
    ∧ sweep_loop ulid_ms order fuel p raw cutoff removed cursor s = (Ok (removed + blen (stale (dir s))), s').

(** A page with stale entries: they are removed and the walk starts over. *)
Lemma sweep_restarts fuel removed s page c v :
  I s → stale_names ulid_ms cutoff page ≠ [] → NoDup (stale_names ulid_ms cutoff page) →
  (∀ n, n ∈ stale_names ulid_ms cutoff page → n ∈ (dir s).*2) →
  (∀ s1, I s1 → (length (dir s1) ≤ length (dir s))%nat → blen (stale (dir s1)) < blen (stale (dir s)) →
    ∀ n, sweeps fuel n None s1) →
  sweeps (Datatypes.S fuel) removed (Some (fh, page, c, v)) s.
Proof.
  intros HI Hne Hnd Hin Hnext.
  destruct (remove_loop_all (length (stale_names ulid_ms cutoff page)) 0
    (operation_pipeline_depth_for_slots (DirService.slot_count s)) (stale_names ulid_ms cutoff page)
    [] removed s) as (s1 & HI1 & Hd1 & Hr); rewrite ?app_nil_r in *; [|done..|].
  { unfold operation_pipeline_depth_for_slots, MAX_OPERATION_PIPELINE_DEPTH. lia. }
  assert (Hst : ∀ n, n ∈ stale_names ulid_ms cutoff page → is_stale ulid_ms cutoff n = true).
  { intros n. unfold stale_names. by rewrite list_elem_of_filter; intros [? _]. }
  destruct (stale_removed (dir s) (stale_names ulid_ms cutoff page)) as [Hc Hf];
    [apply dc_ordered, HI|done|naive_solver|]. rewrite <- Hd1 in Hc, Hf.
  assert (Hpos : 0 < blen (stale_names ulid_ms cutoff page)).
  { destruct (stale_names ulid_ms cutoff page); [done|]. unfold blen. cbn [length]. lia. }
  destruct (Hnext s1 HI1 ltac:(rewrite Hd1; apply length_filter) ltac:(lia)
    (removed + blen (stale_names ulid_ms cutoff page))) as (s' & HI' & Hd' & Hs').
  exists s'. split; [done|]. split; [by rewrite Hd'|].
  cbn [sweep_loop]. destruct (stale_names ulid_ms cutoff page) as [|n names] eqn:E; [done|].
  rewrite <- E in *. unfold sbind, remove_temp_names. rewrite Hr, Hs'. do 2 f_equal. lia.
Qed.

Lemma fresh_all l : stale l = [] → fresh l = l.
Proof using.
  intros H. apply filter_all, Forall_forall. intros e He. apply not_true_iff_false. intros Hs.
  assert (Hin : e ∈ stale l) by (by apply list_elem_of_filter). rewrite H in Hin. by apply elem_of_nil in Hin.
Qed.

Lemma page_chunk_names s c page rest chunk :
  I s → after c (dir s) = chunk ++ rest →
  DirEntry.name <$> DirPage.entries page = visible chunk →
  NoDup (stale_names ulid_ms cutoff page) ∧ ∀ n, n ∈ stale_names ulid_ms cutoff page → n ∈ (dir s).*2.
Proof.
  intros HI Ha Hv. destruct (dc_ordered s HI) as [Hs Hn]. inversion Hs as [|? ? Hs' _]; subst.
  destruct (after_suffix (dir s) c Hs') as [before Hb]. rewrite Ha in Hb. rewrite Hb in Hn |- *.
  rewrite !fmap_app in *. apply NoDup_app in Hn as (_ & _ & Hn). apply NoDup_app in Hn as (Hn & _ & _).
  unfold stale_names. rewrite Hv. unfold visible. split; [by apply NoDup_filter, NoDup_filter|].
  intros n. rewrite !list_elem_of_filter, !elem_of_app. tauto.
Qed.

Lemma sweep_ends fuel removed s page c v :
  I s → stale (dir s) = [] → stale_names ulid_ms cutoff page = [] → DirPage.eof page = true →
  sweeps (Datatypes.S fuel) removed (Some (fh, page, c, v)) s.
Proof using.
  intros HI Hst Hnil He. exists s. rewrite fresh_all by done. split_and!; [done..|].
  cbn [sweep_loop]. rewrite Hnil, He, Hst. unfold sret. do 2 f_equal. change (blen (A := dirent) []) with 0. lia.
Qed.

(** The rest of the walk from a page, when nothing stale lies before it: [m]
    more pages at most, then the walk starts over with fewer stale entries. *)
Lemma sweep_walks m F fuel removed s page c v rest :
  I s → 0 ≤ c → page_at verifier (dir s) c page rest → stale (dir s) = stale (after c (dir s)) →
  (length rest ≤ m)%nat → (m + 1 + F ≤ fuel)%nat →
  (∀ s1 fuel1 n, I s1 → (length (dir s1) ≤ length (dir s))%nat → blen (stale (dir s1)) < blen (stale (dir s)) →
    (F ≤ fuel1)%nat → sweeps fuel1 n None s1) →
  sweeps fuel removed (Some (fh, page, c, v)) s.
Proof.
  revert fuel removed s page c v rest.
  induction m as [|m IH]; intros fuel removed s page c v rest HI Hc Hp Hst Hm Hf Hnext;
    (destruct fuel as [|fuel]; [lia|]).
  all: pose proof Hp as (chunk & Ha & Hv & He & Hlast & Hver).
  all: pose proof (page_stale _ c page rest chunk Hv Ha) as Hps.
  all: destruct (decide (stale_names ulid_ms cutoff page = [])) as [Hnil|Hne];
    [|destruct (page_chunk_names s c page rest chunk HI Ha Hv);
      apply sweep_restarts; [done..|]; intros; apply Hnext; done || lia].
  all: assert (Hsc : stale chunk = []) by (rewrite Hnil in Hps; symmetry in Hps; by apply fmap_nil_inv in Hps).
  all: rewrite Ha, filter_app, Hsc in Hst; cbn [app] in Hst.
  all: destruct (decide (rest = [])) as [->|Hr].
  1,3: by apply sweep_ends.
  1: by destruct rest; [|cbn in Hm; lia].
  destruct (page_next _ _ _ _ _ (dc_ordered s HI) Hc Hp Hr) as [Hn Hlt].
  destruct (dc_page s (DirPage.last_cookie page) HI ltac:(lia)) as (page' & rest' & s1 & HI1 & Hd1 & Hp1 & Hread).
  assert (Hlen : (length rest' ≤ m)%nat).
  { destruct Hp1 as (chunk' & Ha' & _ & _ & Hl' & _). rewrite Hn in Ha'. rewrite Ha', length_app in Hm.
    destruct rest' as [|x rest']; [cbn; lia|]. destruct (Hl' ltac:(done)) as (e & Hce & _).
    destruct chunk'; [done|]. cbn [length] in Hm |- *. lia. }
  rewrite <- Hd1 in Hp1.
  destruct (IH fuel removed s1 page' (DirPage.last_cookie page) (DirPage.verifier page) rest') as (s' & HI' & Hd' & Hs').
  - done.
  - lia.
  - done.
  - rewrite Hd1, Hn. exact Hst.
  - done.
  - lia.
  - rewrite Hd1. exact Hnext.
  - exists s'. rewrite Hd1 in Hd', Hs'. split_and!; [done..|]. cbn [sweep_loop].
    rewrite Hnil, He, bool_decide_eq_false_2 by done. unfold sbind, slift, advance_dir_cursor.
    destruct (Z.eqb_spec (DirPage.last_cookie page) c); [lia|]. rewrite Hver in Hs' |- *. by rewrite Hread.
Qed.

Lemma sweep_starts F fuel removed s :
  I s → (length (dir s) + 2 + F ≤ fuel)%nat →
  (∀ s1 fuel1 n, I s1 → (length (dir s1) ≤ length (dir s))%nat → blen (stale (dir s1)) < blen (stale (dir s)) →
    (F ≤ fuel1)%nat → sweeps fuel1 n None s1) →
  sweeps fuel removed None s.
Proof.
  intros HI Hf Hnext. destruct fuel as [|fuel]; [lia|].
  destruct (dc_path_page s HI) as (page & rest & s1 & HI1 & Hd1 & Hp1 & Hread).
  assert (Hrest : (length rest ≤ length (dir s))%nat).
  { destruct Hp1 as (chunk & Ha & _). transitivity (length (after 0 (dir s))); [|apply length_filter].
    rewrite Ha, length_app. lia. }
  rewrite <- Hd1 in Hp1, Hnext.
  destruct (sweep_walks (length (dir s)) F fuel removed s1 page 0 no_verifier rest) as (s' & HI' & Hd' & Hs');
    [done..| |done|lia|done|].
  - by rewrite after_zero by (by apply dc_ordered).
  - exists s'. rewrite Hd1 in Hd', Hs'. split_and!; [done..|]. cbn [sweep_loop]. unfold sbind. by rewrite Hread.
Qed.

Lemma sweep_all k fuel removed s :
  I s → (length (stale (dir s)) ≤ k)%nat → (Datatypes.S k * (length (dir s) + 2) ≤ fuel)%nat →
  sweeps fuel removed None s.
Proof.
  revert fuel removed s. induction k as [|k IH]; intros fuel removed s HI Hk Hf.
  - apply (sweep_starts 0); [done|lia|]. intros s1 fuel1 n _ _ Hb _. unfold blen in Hb. lia.
  - apply (sweep_starts (Datatypes.S k * (length (dir s) + 2))); [done|lia|].
    intros s1 fuel1 n HI1 Hl Hb Hf1. apply IH; [done|unfold blen in Hb; lia|nia].
Qed.

Lemma stale_entries_eq l : stale_entries ulid_ms cutoff l = stale l.
Proof using. apply list_filter_iff. intros e. by rewrite is_stale_temp. Qed.

Lemma fresh_entries_eq l : fresh_entries ulid_ms cutoff l = fresh l.
Proof using. apply list_filter_iff. intros e. by rewrite <- is_stale_temp, not_true_iff_false. Qed.

Lemma sweep_runs fuel s :
  I s → (Datatypes.S (length (stale_entries ulid_ms cutoff (dir s))) * (length (dir s) + 2) ≤ fuel)%nat →
  ∃ s', sweep_temp_files_once ulid_ms order fuel p raw cutoff s = (Ok (blen (stale_entries ulid_ms cutoff (dir s))), s')
    ∧ I s' ∧ dir s' = fresh_entries ulid_ms cutoff (dir s).
Proof.
  intros HI Hf. rewrite stale_entries_eq in *. destruct (sweep_all _ fuel 0 s HI (le_n _) Hf) as (s' & HI' & Hd & Hs).
  exists s'. rewrite fresh_entries_eq. by split_and!.
Qed.

(** C11: a sweep ends and is complete.  On a directory the server lists
    in pages of any size and that nobody else changes, the sweep ends after a
    bounded number of listing requests, whatever order the removals complete
    in: it removes exactly the temporary files created at or before the
    cutoff, leaves every other entry, and returns how many it removed. *)
Theorem sweep_complete fuel s :
  I s → (Datatypes.S (length (stale_entries ulid_ms cutoff (dir s))) * (length (dir s) + 2) ≤ fuel)%nat →
  ∃ s', sweep_temp_files_once ulid_ms order fuel p raw cutoff s = (Ok (blen (stale_entries ulid_ms cutoff (dir s))), s')
    ∧ I s' ∧ dir s' = fresh_entries ulid_ms cutoff (dir s).
Proof. apply sweep_runs. Qed.

(** C37: after a reconnect a sweep counts from zero.  When the first attempt
    fails in a way that asks for a new session, as a listing does whose reply
    is lost, and the reconnect succeeds, the sweep starts over on the new
    session and returns only what that second attempt removes: the temporary
    files at or before the cutoff that the directory still holds then.  What
    the first attempt had removed before the failure is missing from the
    result. *)
Theorem sweep_forgets_removals generation reconnect sleep fuel now older_than path e s s1 s2 :
  path.directory raw = Ok path → components path = p → 0 ≤ older_than ≤ u64_max → cutoff = saturating_sub now older_than →
  sweep_temp_files_once ulid_ms order fuel p raw cutoff s = (Err e, s1) → Error.requires_session_rebuild e = true →
  reconnect (generation s) 1 e s1 = (Ok tt, s2) → I s2 →
  (Datatypes.S (length (stale_entries ulid_ms cutoff (dir s2))) * (length (dir s2) + 2) ≤ fuel)%nat →
  ∃ s', sweep_temp_files order generation reconnect sleep ulid_ms fuel now raw older_than s
          = (Ok (blen (stale_entries ulid_ms cutoff (dir s2))), s')
    ∧ dir s' = fresh_entries ulid_ms cutoff (dir s2).
Proof.
  intros Hpath Hp Ho Hc Hfirst He Hrec HI Hf. destruct (sweep_runs fuel s2 HI Hf) as (s' & Hs' & _ & Hd).
  exists s'. split; [|done]. unfold sweep_temp_files, sbind, slift. rewrite Hpath, Hp.
  destruct (Z.leb_spec older_than u64_max); [|lia]. cbv zeta. rewrite <- Hc, retrying_runs_twice, Hfirst, He, Hrec, Hs'. done.
Qed.
End sweep.

(** ** Listing page by page *)

Section listing.
Context {S : Type} {service : DirService.t S}
  (I : S → Prop) (dir : S → list dirent) (p : list str) (fh : FileHandle) (verifier : bytes)
  `{!DirContract service I dir p fh verifier}.

(** A caller that follows the continuation tokens to the end. *)
Fixpoint list_all (fuel : nat) (max_entries : Z) (token : option ContinuationToken.t)
  : st S Error.t (list ListEntry.t) :=
  match fuel with
  | O => spanic
  | Datatypes.S fuel =>
      let! page := list_page_once p max_entries token in
      match ListResult.next_token page with
      | None => sret (ListResult.entries page)
      | Some token =>
          let! rest := list_all fuel max_entries (Some token) in
          sret (ListResult.entries page ++ rest)
      end
  end.

(** The entry a listing shows for a name. *)
Definition listed (name : str) : ListEntry.t :=
  let base := join_with (str_of "/") p in
  ListEntry.mk (match base with [] => [] | _ => base ++ str_of "/" end ++ name) name.

(** The token that resumes behind cookie [c]. *)
Definition token_at (c : Z) : option ContinuationToken.t :=
  if c =? 0 then None else Some (ContinuationToken.mk (join_with (str_of "/") p) c verifier).

Lemma list_page_at s c n :
  I s → 0 ≤ c → 0 < n →
  ∃ page rest s', I s' ∧ dir s' = dir s ∧ page_at verifier (dir s) c page rest
    ∧ list_page_once p n (token_at c) s
      = (Ok (ListResult.mk (listed <$> (DirEntry.name <$> DirPage.entries page))
               (if bool_decide (rest = []) then None else token_at (DirPage.last_cookie page))), s').
Proof.
  intros HI Hc Hn. destruct (dc_list s c n HI Hc Hn) as (page & rest & s' & HI' & Hd' & Hp & Hr).
  exists page, rest, s'. split_and!; [done..|]. pose proof Hp as (chunk & Ha & Hv & He & Hlast & Hver).
  unfold list_page_once, token_at, sbind.
  assert (Hpos : (match (if c =? 0 then None else Some (ContinuationToken.mk (join_with (str_of "/") p) c verifier)) with
    | Some token => slift (ContinuationToken.list_position (join_with (str_of "/") p) token)
    | None => sret (0, no_verifier) end : st S Error.t (Z * bytes)) s
    = (Ok (c, if c =? 0 then no_verifier else verifier), s)).
  { destruct (Z.eqb_spec c 0) as [->|]; [done|]. unfold slift, ContinuationToken.list_position. cbn.
    by rewrite (proj2 (str_eqb_eq _ _) eq_refl). }
  rewrite Hpos, Hr, He. rewrite <- list_fmap_compose.
  destruct (bool_decide_reflect (rest = [])) as [->|Hne]; [done|].
  destruct (page_next _ _ _ _ _ (dc_ordered s HI) Hc Hp Hne) as [_ Hlt].
  destruct (Z.eqb_spec (DirPage.last_cookie page) c); [lia|].
  destruct (Z.eqb_spec (DirPage.last_cookie page) 0); [lia|]. by rewrite Hver.
Qed.

Lemma list_all_from fuel n s c :
  I s → 0 ≤ c → 0 < n → (length (after c (dir s)) < fuel)%nat →
  ∃ s', list_all fuel n (token_at c) s = (Ok (listed <$> visible (after c (dir s))), s')
    ∧ I s' ∧ dir s' = dir s.
Proof.
  revert s c. induction fuel as [|fuel IH]; intros s c HI Hc Hn Hf; [lia|]. cbn [list_all].
  destruct (list_page_at s c n HI Hc Hn) as (page & rest & s1 & HI1 & Hd1 & Hp & Hl).
  pose proof Hp as (chunk & Ha & Hv & He & Hlast & Hver). unfold sbind. rewrite Hl. cbn [ListResult.next_token].
  destruct (bool_decide_reflect (rest = [])) as [->|Hne].
  { exists s1. split_and!; [|done..]. by rewrite Ha, app_nil_r, <- Hv. }
  destruct (page_next _ _ _ _ _ (dc_ordered s HI) Hc Hp Hne) as [Hn' Hlt].
  destruct (Hlast Hne) as (e & Hce & _).
  destruct (IH s1 (DirPage.last_cookie page)) as (s' & Hs' & HI' & Hd'); [done|lia|done| |].
  { rewrite Hd1, Hn'. rewrite Ha, length_app in Hf. destruct chunk; [done|]. cbn [length] in Hf. lia. }
  exists s'. unfold token_at in Hs' |- *. destruct (Z.eqb_spec (DirPage.last_cookie page) 0); [lia|].
  rewrite Hs'. split_and!; [|done|by rewrite Hd'].
  by rewrite Hd1, Hn', Ha, visible_app, fmap_app, <- Hv.
Qed.

(** C31: following the continuation tokens lists a directory completely: on a
    directory that does not change, the pages hold every visible entry exactly
    once and in the server's order, each with its path below the export, in
    pages of any size, and the last page is the one without a token. *)
Theorem list_pages_cover n s :
  I s → 0 < n →
  ∃ s', list_all (Datatypes.S (length (dir s))) n None s = (Ok (listed <$> visible (dir s)), s')
    ∧ I s' ∧ dir s' = dir s.
Proof.
  intros HI Hn. pose proof (dc_ordered s HI) as Ho.
  destruct (list_all_from (Datatypes.S (length (dir s))) n s 0) as (s' & Hs' & H); [done..| |].
  - rewrite after_zero by done. lia.
  - exists s'. by rewrite after_zero in Hs' by done.
Qed.
End listing.

(** ** A server

    A directory kept as a list and handed out two entries at a time; it
    records the removals it was asked for. *)
Module Shelf.
Record t : Type := mk { entries : list dirent; asked : list removal; deleted : list (res Error.t RemoveOutcome) }.

Definition mark : bytes := replicate 8 3.

Definition page (c : Z) (l : list dirent) : DirPage.t :=
  DirPage.mk (DirEntry.mk <$> visible (take 2 (after c l))) (bool_decide (drop 2 (after c l) = [])) mark
    (default c (fst <$> last (take 2 (after c l)))).

Definition take_out (name : str) (l : list dirent) : RemoveOutcome :=
  if bool_decide (name ∈ l.*2) then Removed else Missing.

Definition keep (name : str) (l : list dirent) : list dirent := filter (λ e, e.2 ≠ name) l.

#[export] Instance service : DirService.t t := {|
  DirService.read_dir_path_page _ c _ _ := λ s, (Ok ([7], page c (entries s)), s);
  DirService.read_dir_page _ c _ _ := λ s, (Ok (page c (entries s)), s);
  DirService.read_dir_path_page_without_handle _ c _ _ := λ s, (Ok (page c (entries s)), s);
  DirService.lookup_attrs _ _ := λ s, (Ok ([7], FileAttrs.mk (Some FileType.Directory) (Some 0)), s);
  DirService.remove _ name := λ s,
    let r := Ok (take_out name (entries s)) in (r, mk (keep name (entries s)) (asked s) (deleted s ++ [r]));
  DirService.remove_at _ name := λ s,
    let r := Ok (take_out name (entries s)) in
    (r, mk (keep name (entries s)) (asked s ++ [(name, r)]) (deleted s));
  DirService.slot_count _ := 2;
|}.
End Shelf.
#[export] Existing Instance Shelf.service.

Lemma shelf_page l c : page_at Shelf.mark l c (Shelf.page c l) (drop 2 (after c l)).
Proof.
  exists (take 2 (after c l)). rewrite take_drop. split_and!; [done| |done| |done].
  - cbn [Shelf.page DirPage.entries]. rewrite <- list_fmap_compose. by apply list_fmap_id.
  - cbn [Shelf.page DirPage.last_cookie]. destruct (after c l) as [|e1 [|e2 l']]; [done..|]. intros _.
    by exists e2.
Qed.

Lemma ordered_filter (l : list dirent) (P : dirent → Prop) `{!∀ e, Decision (P e)} :
  ordered l → ordered (filter P l).
Proof.
  intros [Hs Hn]. split; cycle 1.
  { clear Hs. induction l as [|e l IH]; [done|]. cbn in Hn. apply NoDup_cons in Hn as [He Hn].
    destruct (decide (P e)); [rewrite filter_cons_True by done|rewrite filter_cons_False by done; by apply IH].
    cbn. apply NoDup_cons. split; [|by apply IH]. intros Hin. apply He.
    apply list_elem_of_fmap in Hin as (x & -> & Hx). apply list_elem_of_filter in Hx as [_ Hx].
    by apply list_elem_of_fmap_2. }
  clear Hn. revert Hs. generalize 0 as z. induction l as [|e l IH]; intros z Hs; [by repeat constructor|].
  cbn in Hs. inversion Hs as [|? ? Hs1 Hf]; subst. inversion Hs1 as [|? ? Hs2 Hf2]; subst.
  rewrite Forall_cons in Hf. destruct Hf as [Hz Hf]. destruct (decide (P e)) as [HP|HP].
  - rewrite filter_cons_True by done. cbn. specialize (IH e.1 Hs1). constructor; [done|].
    inversion IH as [|? ? _ Hf3]; subst. constructor; [done|]. eapply Forall_impl; [exact Hf3|]. cbn. lia.
  - rewrite filter_cons_False by done. apply IH. by constructor.
Qed.

#[export] Instance shelf_contract p :
  DirContract Shelf.service (λ s, ordered (Shelf.entries s)) Shelf.entries p [7] Shelf.mark.
Proof.
  split.
  - done.
  - intros s Hs. eexists _, _, s. split_and!; [done|done|apply shelf_page|done].
  - intros s c Hs _. eexists _, _, s. split_and!; [done|done|apply shelf_page|done].
  - intros s c n Hs _ _. eexists _, _, s. split_and!; [done|done|apply shelf_page|done].
  - intros s name Hs. eexists (Shelf.mk (Shelf.keep name (Shelf.entries s)) _ _).
    split_and!; [by apply ordered_filter|reflexivity|reflexivity].
Qed.

#[export] Instance shelf_sweeps : SweepContract Shelf.service Shelf.asked (λ e t, t = [e]).
Proof. split; [|done..]. intros fh name s. by eexists. Qed.

#[export] Instance shelf_deletes : DeleteContract Shelf.service Shelf.deleted.
Proof. done. Qed.

(** A ULID text whose first byte is the time. *)
Definition sample_ms (ulid : str) : option Z := head ulid.

Definition temp (t : Z) : str := TEMP_FILE_PREFIX ++ [t].

Definition sample_shelf : Shelf.t :=
  Shelf.mk [(1, str_of "."); (2, str_of ".."); (5, temp 10); (6, str_of "a"); (9, temp 90); (12, temp 20);
            (13, str_of "b")] [] [].

Lemma sample_ordered : ordered (Shelf.entries sample_shelf).
Proof. split; [repeat constructor|]. by apply (bool_decide_unpack _). Qed.

Lemma sweep_complete_witness :
  ∃ s, sweep_temp_files_once sample_ms (λ n, n) 27 [] (str_of "/") 20 sample_shelf = (Ok 2, s)
    ∧ Shelf.entries s = [(1, str_of "."); (2, str_of ".."); (6, str_of "a"); (9, temp 90); (13, str_of "b")].
Proof.
  destruct (sweep_complete sample_ms (λ n, n) (λ s, ordered (Shelf.entries s)) Shelf.entries [] [7] Shelf.mark
    20 (str_of "/") 27 sample_shelf sample_ordered ltac:(vm_compute; lia)) as (s & Hs & _ & Hd).
  exists s. split; [exact Hs|exact Hd].
Defined.

Lemma list_pages_cover_witness :
  ∃ s, list_all [str_of "d"] 8 1 None sample_shelf
    = (Ok [ListEntry.mk (str_of "d/" ++ temp 10) (temp 10); ListEntry.mk (str_of "d/a") (str_of "a");
           ListEntry.mk (str_of "d/" ++ temp 90) (temp 90); ListEntry.mk (str_of "d/" ++ temp 20) (temp 20);
           ListEntry.mk (str_of "d/b") (str_of "b")], s).
Proof.
  destruct (list_pages_cover (λ s, ordered (Shelf.entries s)) Shelf.entries [str_of "d"] [7] Shelf.mark 1
    sample_shelf sample_ordered ltac:(lia)) as (s & Hs & _).
  exists s. exact Hs.
Defined.

(** The sweep of the public API, whose first name is [temp 10]. *)
Lemma sweep_removes_only_stale_witness :
  let r := sweep_temp_files (λ n, n) (λ _, 0) (λ _ _ _ s, (Ok tt, s)) (λ s, s) sample_ms 27 70 (str_of "/d") 20
             sample_shelf in
  r.1 = Ok 2 ∧ Shelf.asked r.2 = [(temp 10, Ok Removed); (temp 20, Ok Removed)]
  ∧ ∃ l, Shelf.asked r.2 = [] ++ l ∧ sweep_report sample_ms 50 (str_of "/d") r.1 l.
Proof.
  intros r. split; [vm_compute; reflexivity|]. split; [vm_compute; reflexivity|].
  pose proof (sweep_removes_only_stale sample_ms (λ n, n) Shelf.asked (λ _, 0) (λ _ _ _ s, (Ok tt, s)) (λ s, s)
    27 70 (str_of "/d") 20 sample_shelf ltac:(done)) as H.
  fold r in H. destruct r as [x c']. exact H.
Defined.

Lemma delete_never_replayed_witness :
  let r := delete (λ _, 0) (λ _ _ _ s, (Ok tt, s)) (λ s, s) (str_of "/a") sample_shelf in
  r.1 = Ok tt ∧ Shelf.deleted r.2 = [Ok Removed]
  ∧ ∃ tries, Shelf.deleted r.2 = [] ++ tries ∧ blen tries ≤ 2 ∧ delete_outcome (str_of "/a") r.1 tries.
Proof.
  intros r. split; [vm_compute; reflexivity|]. split; [vm_compute; reflexivity|].
  pose proof (delete_never_replayed Shelf.deleted (λ _, 0) (λ _ _ _ s, (Ok tt, s)) (λ s, s)
    ltac:(done) (str_of "/a") sample_shelf) as H.
  fold r in H. destruct r as [x c']. exact H.
Defined.

(** ** A listing that fails after a removal *)

(** The shelf behind a connection that is lost at the listings marked
    [true]. *)
Definition lossy : DirService.t (Shelf.t * list bool) := {|
  DirService.read_dir_path_page p c v n := λ '(s, losses),
    match losses with
    | true :: losses => (Err (Error.connection_lost "gone"), (s, losses))
    | _ => let '(r, s) := DirService.read_dir_path_page p c v n s in (r, (s, tail losses))
    end;
  DirService.read_dir_page fh c v n := λ '(s, losses),
    let '(r, s) := DirService.read_dir_page fh c v n s in (r, (s, losses));
  DirService.read_dir_path_page_without_handle p c v n := λ '(s, losses),
    let '(r, s) := DirService.read_dir_path_page_without_handle p c v n s in (r, (s, losses));
  DirService.lookup_attrs p a := λ '(s, losses),
    let '(r, s) := DirService.lookup_attrs p a s in (r, (s, losses));
  DirService.remove p name := λ '(s, losses),
    let '(r, s) := DirService.remove p name s in (r, (s, losses));
  DirService.remove_at fh name := λ '(s, losses),
    let '(r, s) := DirService.remove_at fh name s in (r, (s, losses));
  DirService.slot_count _ := 2;
|}.

#[export] Instance lossy_contract p :
  DirContract lossy (λ s, ordered (Shelf.entries s.1) ∧ s.2 = []) (λ s, Shelf.entries s.1) p [7] Shelf.mark.
Proof.
  split.
  - by intros s [Hs _].
  - intros [s l] [Hs Hl]. cbn in Hs, Hl. subst l. eexists _, _, (s, []). split_and!; [done|done|done|apply shelf_page|done].
  - intros [s l] c [Hs Hl] _. cbn in Hs, Hl. eexists _, _, (s, l). split_and!; [done|done|done|apply shelf_page|done].
  - intros [s l] c n [Hs Hl] _ _. cbn in Hs, Hl. eexists _, _, (s, l). split_and!; [done|done|done|apply shelf_page|done].
  - intros [s l] name [Hs Hl]. cbn in Hs, Hl. eexists (Shelf.mk (Shelf.keep name (Shelf.entries s)) _ _, l).
    split_and!; [by apply ordered_filter|done|reflexivity|reflexivity].
Qed.

(** Two files are removed, the connection is lost at the next listing, the
    retry finds nothing stale, and the sweep reports that it removed none. *)
Lemma sweep_forgets_removals_witness :
  let r := sweep_temp_files (dirs := lossy) (λ n, n) (λ _, 0) (λ _ _ _ s, (Ok tt, s)) (λ s, s) sample_ms
             27 70 (str_of "/d") 20 (sample_shelf, [false; false; true]) in
  r.1 = Ok 0 ∧ Shelf.asked r.2.1 = [(temp 10, Ok Removed); (temp 20, Ok Removed)]
  ∧ Shelf.entries r.2.1 = [(1, str_of "."); (2, str_of ".."); (6, str_of "a"); (9, temp 90); (13, str_of "b")].
Proof.
  intros r.
  set (start := (sample_shelf, [false; false; true])) in *.
  set (once := sweep_temp_files_once (service := lossy) sample_ms (λ n, n) 27 [str_of "d"] (str_of "/d") 50 start).
  assert (Ha : Shelf.asked r.2.1 = [(temp 10, Ok Removed); (temp 20, Ok Removed)]) by (vm_compute; reflexivity).
  assert (Hfirst : ∃ e, once = (Err e, once.2) ∧ Error.requires_session_rebuild e = true)
    by (eexists; split; vm_compute; reflexivity).
  assert (Hleft : Shelf.entries once.2.1
    = [(1, str_of "."); (2, str_of ".."); (6, str_of "a"); (9, temp 90); (13, str_of "b")]) by (vm_compute; reflexivity).
  assert (Hl : once.2.2 = []) by (vm_compute; reflexivity).
  assert (Hpath : path.directory (str_of "/d") = Ok {| components := [str_of "d"] |}) by (vm_compute; reflexivity).
  destruct Hfirst as (e & Hfirst & He).
  assert (Ho : ordered (Shelf.entries once.2.1)).
  { rewrite Hleft. split; [repeat constructor|]. by apply (bool_decide_unpack _). }
  destruct (sweep_forgets_removals (service := lossy) sample_ms (λ n, n)
    (λ s, ordered (Shelf.entries s.1) ∧ s.2 = []) (λ s, Shelf.entries s.1) [str_of "d"] [7] Shelf.mark 50 (str_of "/d")
    (λ _, 0) (λ _ _ _ s, (Ok tt, s)) (λ s, s) 27 70 20 _ e start once.2 once.2 Hpath eq_refl ltac:(ulia) eq_refl
    Hfirst He eq_refl (conj Ho Hl)) as (s' & Hs' & Hd).
  { rewrite Hleft. vm_compute. lia. }
  rewrite Hleft in Hs', Hd. unfold r in *. rewrite Hs' in Ha |- *. split; [vm_compute; reflexivity|]. split; [exact Ha|exact Hd].
Defined.
