(* ===== verification/Deletion.v ===== *)
(** * A deletion, down to its requests

    [DirectoryFacts] shows what [delete] does with the answers of a session.
    Here the session is that of [Session.v]: the theorem speaks of the REMOVE
    compounds that are handed to the transport, by the session's own retries
    and by the client's second attempt on a new session, and of what the server
    answered to each. *)

From S2P Require Import Prelude Proto Errors Path Xdr Ops Rpc Compound Reply Replies Slots Owner Session SessionFacts Reads ReadsFacts Writes Service Put PutFacts Naming Publication Directory DirectoryFacts.
Import NfsSession.

(** A compound that ends in a REMOVE. *)
Definition is_removal (q : Request.t) : bool :=
  match last (Request.ops q) with Some (NfsOp.Remove _) => true | _ => false end.

Definition asks_removal (p : list str) (name : str) (q : Request.t) : Prop :=
  ∃ root, Request.ops q = resolves root p ++ [NfsOp.Remove name].

Lemma asks_is_removal p name q : asks_removal p name q → is_removal q = true.
Proof. intros [root Hq]. unfold is_removal. by rewrite Hq, last_snoc. Qed.

(** The server did not run an operation of the compound: it sent no reply but a
    failure, or its first reply is a failure of the SEQUENCE. *)
Definition sequence_failed (b : bytes) : Prop :=
  ∃ s n b', XdrDecoder.read_u32_skip_opaque_and_read_u32 b = (Ok (s, n), b')
    ∧ (n = 0 ∧ s ≠ 0 ∨ ∃ st rest, st ≠ 0 ∧ b' = wire_u32 (OpCode.as_u32 OpCode.Sequence) ++ wire_u32 st ++ rest).

(** [q] removed nothing: it was not sent; the server refused its SEQUENCE; or
    it stopped at a failed operation, and the REMOVE is not among those it ran
    before. *)
Inductive harmless (q : Request.t) : Prop :=
| harmless_unsent e :
    Request.reply q = Err e → Error.is_request_not_sent e = true → harmless q
| harmless_refused b :
    Request.reply q = Ok b → sequence_failed b → harmless q
| harmless_stopped b ran st :
    Request.reply q = Ok b → answer_stops b (Request.ops q) ran st →
    OpCode.Remove ∉ (NfsOp.opcode <$> ran) → harmless q.

(** The name is gone: the server carried out the whole of [q], or said that
    there is no such name. *)
Inductive gone (lookups : nat) (q : Request.t) : Prop :=
| gone_removed b :
    Request.reply q = Ok b → answer_whole b (Request.ops q) → gone lookups q
| gone_missing b :
    Request.reply q = Ok b → decode_remove_compound b lookups = Ok Missing → gone lookups q.

Inductive deletion (lookups : nat) (raw_path : str) : res Error.t unit → list Request.t → Prop :=
| deletion_done tries q :
    Forall harmless tries → gone lookups q → deletion lookups raw_path (Ok tt) (tries ++ [q])
| deletion_unknown tries q e :
    Forall harmless tries → Error.is_request_not_sent e = false →
    deletion lookups raw_path (Err (outcome_unknown_error "delete" raw_path e)) (tries ++ [q])
| deletion_failed tries e : Forall harmless tries → deletion lookups raw_path (Err e) tries.

Lemma deletion_app lookups raw_path r tries1 tries2 :
  Forall harmless tries1 → deletion lookups raw_path r tries2 →
  deletion lookups raw_path r (tries1 ++ tries2).
Proof.
  intros H1 [tries q H2|tries q e H2|tries e H2]; rewrite ?app_assoc; econstructor;
    rewrite ?Forall_app; eauto.
Qed.

(** ** What the errors of a removal say *)

(** A walk whose errors without a status are none of the server's. *)
Definition plainly {A} (m : st CompoundReplies.t CompoundDecodeError.t A) : Prop :=
  ∀ r, match (m r).1 with
       | Err e => CompoundDecodeError.status e = None → plain (CompoundDecodeError.error e)
       | _ => True
       end.

Lemma plainly_bind {A B} (m : st CompoundReplies.t CompoundDecodeError.t A) (k : A → _ B) :
  plainly m → (∀ a, plainly (k a)) → plainly (sbind m k).
Proof. intros Hm Hk r. specialize (Hm r). unfold sbind. destruct (m r) as [[a|e|] r']; [apply Hk|done|done]. Qed.

Lemma plainly_body {A} (m : Xdr.dec A) : tame m → plainly (CompoundReplies.body m).
Proof.
  intros Hm r. specialize (Hm (CompoundReplies.dec r)). unfold CompoundReplies.body, conv, smap_err.
  destruct (m (CompoundReplies.dec r)) as [[a|e|] d]; [done|by cbn|done].
Qed.

Lemma heads_remove op : heads op (decode_remove_expected_op op).
Proof.
  apply (heads_common op (λ s o, if negb (NfsStatus.is_ok s)
    then if bool_decide (o = op) && (s =? NfsStatus.NOENT)
            && match op with OpCode.PutFh | OpCode.Lookup | OpCode.Remove => true | _ => false end
         then sret true else sfail (CompoundDecodeError.nfs s o)
    else sret false)).
  intros s o _ b. destruct (NfsStatus.is_ok s); cbn [negb]; [done|]. by destruct (_ && _).
Qed.

Lemma plainly_expect op : plainly (remove_expect op).
Proof.
  intros r. unfold remove_expect, CompoundReplies.advance_with. destruct (_ <=? _); [done|].
  pose proof (heads_remove op (CompoundReplies.dec r)) as Hh.
  destruct (decode_remove_expected_op op (CompoundReplies.dec r)) as [[a|e|] d]; [done| |done].
  cbn. intros Hs. destruct Hh as [_ Hh]. by rewrite Hs in Hh.
Qed.

Lemma plainly_finish : plainly CompoundReplies.finish.
Proof. intros r. unfold CompoundReplies.finish. destruct (_ <? _); [by split|]. by destruct (negb _). Qed.

Lemma plainly_lookups n : plainly (remove_lookups n).
Proof.
  induction n as [|n IH]; [done|]. cbn [remove_lookups]. apply plainly_bind; [apply plainly_expect|].
  by intros [[]|].
Qed.

Lemma plainly_tail n : plainly (remove_tail n).
Proof.
  apply plainly_bind; [apply plainly_expect|intros putfh]. destruct (bool_decide _); [done|].
  apply plainly_bind; [apply plainly_lookups|intros []; [done|]].
  apply plainly_bind; [apply plainly_expect|intros [[]|]; [done|..]].
  - apply plainly_bind; [apply plainly_body, tame_change_info|intros _].
    apply plainly_bind; [apply plainly_finish|by intros _].
  - apply plainly_bind; [apply plainly_finish|by intros _ r].
Qed.

Lemma remove_error_plain b n err : decode_remove_compound b n = Err err →
  CompoundDecodeError.status err = None → plain (CompoundDecodeError.error err).
Proof.
  unfold decode_remove_compound, CompoundReplies.run.
  pose proof (new_plain b "REMOVE" (3 + count n)) as Hnew.
  destruct (CompoundReplies.new b "REMOVE" (3 + count n)) as [r|e|]; cbn [rbind];
    [|destruct Hnew as (e' & -> & He); by intros [= <-]|done].
  set (walk := sbind _ _). assert (Hw : plainly walk).
  { apply plainly_bind; [apply plainly_expect|intros [[]|]; [done|..|apply plainly_tail]].
    apply plainly_bind; [apply plainly_body, tame_skip_sequence|intros _; apply plainly_tail]. }
  intros Hd. specialize (Hw r). by rewrite Hd in Hw.
Qed.

(** The decoder expects the operations of the request. *)
Lemma remove_codes_sent root p name :
  decoder_codes (D_remove (length p)) = request_codes (resolves root p ++ [NfsOp.Remove name]).
Proof.
  unfold decoder_codes, request_codes. rewrite fmap_app. unfold resolves. cbn. by rewrite lookup_codes.
Qed.

Lemma remove_in_prefix root p name ran op rest :
  resolves root p ++ [NfsOp.Remove name] = ran ++ op :: rest → OpCode.Remove ∉ (NfsOp.opcode <$> ran).
Proof.
  intros He Hin. assert (Hpre : ran `prefix_of` resolves root p).
  { destruct (exists_last (l := op :: rest) ltac:(done)) as (l & x & Hl). rewrite Hl, app_assoc in He.
    apply app_inj_tail in He as [-> _]. by exists l. }
  destruct Hpre as [k Hk]. apply list_elem_of_fmap in Hin as (o & Ho & Hin).
  assert (Hr : o ∈ resolves root p) by (rewrite Hk; apply elem_of_app; by left). clear -Ho Hr.
  unfold resolves in Hr. apply elem_of_cons in Hr as [->|Hr]; [discriminate Ho|].
  apply list_elem_of_fmap in Hr as (c & -> & _). discriminate Ho.
Qed.

Lemma stopped_harmless root p name b ran st q :
  Request.ops q = resolves root p ++ [NfsOp.Remove name] → Request.reply q = Ok b →
  answer_stops b (Request.ops q) ran st → harmless q.
Proof.
  intros Hops Hq Hstop. apply (harmless_stopped q b ran st Hq Hstop).
  inversion Hstop as [|n s b' ran' op rest st' nm Hh Hsplit Hr]; [by apply not_elem_of_nil|]. rewrite Hops in Hsplit.
  by eapply remove_in_prefix.
Qed.

Lemma remove_tells root p name : tells_errors (resolves root p ++ [NfsOp.Remove name])
  (λ b, decode_remove_compound b (length p)).
Proof.
  by apply (decoder_tells (D_remove (length p)) (λ o, match o with Removed => true | Missing => false end)),
    remove_codes_sent.
Qed.

(** An error of the decoder that carries a status and names an operation. *)
Lemma remove_error_harmless root p name b err q :
  Request.ops q = resolves root p ++ [NfsOp.Remove name] → Request.reply q = Ok b → bytes_wf b →
  decode_remove_compound b (length p) = Err err →
  error_proves_operation_not_run (CompoundDecodeError.error err) = true → harmless q.
Proof.
  intros Hops Hq Hb Hd Hproves.
  destruct (CompoundDecodeError.status err) as [st|] eqn:Hst.
  2: { destruct (remove_error_plain b _ err Hd Hst) as [Hn Hs].
       unfold error_proves_operation_not_run in Hproves. by rewrite Hn, Hs in Hproves. }
  pose proof (remove_tells root p name b Hb) as Htell. cbn beta in Htell. rewrite Hd in Htell.
  destruct (CompoundDecodeError.reply_index err) as [i|] eqn:Hi.
  - pose proof (error_answer_stops b err st i _ Htell Hst Hi) as Hstop. rewrite <- Hops in Hstop.
    by eapply stopped_harmless.
  - destruct Htell as [[_ Hnone]|(n & s & b' & _ & _ & He)]; [congruence|].
    destruct (He st Hst) as (nm & Her & Hnm). rewrite Hi in Hnm. destruct Hnm as [-> _].
    rewrite Her in Hproves. unfold error_proves_operation_not_run in Hproves.
    by rewrite Error.is_nfs_operation_nfs, bool_decide_eq_true_2, andb_false_r in Hproves.
Qed.

(** A SEQUENCE that failed with a status. *)
Lemma sequence_error_harmless b sessionid sequenceid slotid e : bytes_wf b →
  decode_sequence_result b sessionid sequenceid slotid = Err e →
  error_proves_operation_not_run e = true → sequence_failed b.
Proof.
  intros Hb Hd Hproves. pose proof (tame_sequence_result _ _ _ _ _ Hd) as [[Hn Hs]|(st & Hst & ->)].
  { unfold error_proves_operation_not_run in Hproves. by rewrite Hn, Hs in Hproves. }
  clear Hproves. unfold decode_sequence_result, sequence_result, sbind at 1 in Hd.
  pose proof (parser_read_u32_skip_opaque_and_read_u32 b Hb) as Hp. unfold sequence_failed.
  pose proof (tame_header b) as Hth.
  destruct (XdrDecoder.read_u32_skip_opaque_and_read_u32 b) as [[[s n]|e|] b1]; [| |done].
  2: { cbn [fst] in *. injection Hd as ->. by destruct Hth. }
  exists s, n, b1. split; [done|]. destruct (Z.eqb_spec n 0) as [->|Hn0].
  { left. split; [done|]. intros ->. by vm_compute in Hd. }
  right. destruct Hp as [Hsuf _]. pose proof (suffix_wf _ _ Hsuf Hb) as Hb1.
  pose proof (read_u32_pair_wire b1 Hb1) as Hpair. pose proof (tame_read_u32_pair b1) as Htp. unfold sbind at 1 in Hd.
  destruct (XdrDecoder.read_u32_pair b1) as [[[op st1]|e|] b2]; cbn [fst] in *; [| |done].
  2: { injection Hd as ->. by destruct Htp. }
  destruct Hpair as [-> Hb2]. destruct (Z.eqb_spec op (OpCode.as_u32 OpCode.Sequence)) as [->|Hop]; cbn [negb] in Hd.
  - destruct (NfsStatus.is_ok st1) eqn:Hok; cbn [negb] in Hd.
    + exfalso. revert Hd. match goal with |- (?m b2).1 = _ → _ => assert (Ht : tame m) by tame end.
      intros Hd. specialize (Ht b2). rewrite Hd in Ht. by destruct Ht.
    + exists st1, b2. split; [|done]. by apply not_ok.
  - exfalso. unfold sbind, slift, OpCode_from_u32 in Hd. by destruct (OpCode.of_u32 op).
Qed.

Section deletion.
Context (call : list Request.t → RpcPayload.t → res Error.t bytes) (ulid : nat → bytes) `{!Transport call}
  `{!Statusless call}.

(** A sound session on some export. *)
Definition sound (s : NfsSession.t) : Prop := ∃ root, handle_wf root ∧ session_inv call root s.

(** A run that adds some requests, [tries] of which are removals of the name. *)
Definition tried (p : list str) (name : str) (s s' : NfsSession.t) (tries : list Request.t) : Prop :=
  ∃ requests, history s' = history s ++ requests ∧ filter (λ q, is_removal q = true) requests = tries
    ∧ Forall (asks_removal p name) tries.

Lemma tried_trans p name s1 s2 s3 tries1 tries2 :
  tried p name s1 s2 tries1 → tried p name s2 s3 tries2 → tried p name s1 s3 (tries1 ++ tries2).
Proof using.
  intros (q1 & H1 & <- & Ha1) (q2 & H2 & <- & Ha2). exists (q1 ++ q2).
  rewrite H2, H1, app_assoc, filter_app, Forall_app. done.
Qed.

(** ** One removal on a session *)

Lemma fits_split p name : path_fits (p ++ [name]) → path_fits p ∧ blen name ≤ u32_max.
Proof using.
  intros [Hn Hp]. rewrite blen_app in Hn. rewrite mjoin_app, blen_app in Hp.
  cbn [mjoin list_join] in Hp. rewrite app_nil_r in Hp.
  pose proof (blen_nonneg (mjoin p)). pose proof (blen_nonneg name). pose proof (blen_nonneg [name]).
  split; [split|]; lia.
Qed.

Lemma encodable_remove root p name :
  handle_wf root → path_fits p → blen name ≤ u32_max →
  encodable (str_of "remove") (resolves root p ++ [NfsOp.Remove name]).
Proof using.
  intros Hr Hp Hn. apply encodable_path; [by vm_compute|done|done|by repeat constructor|by vm_compute|].
  cbn [fmap list_fmap mjoin list_join]. rewrite app_nil_r. unfold NfsOp.wire. cbn [NfsOp.wire_args].
  rewrite blen_app, blen_wire_u32, blen_wire_opaque. pose proof (xdr_padding_bound (blen name)). ulia.
Qed.

Lemma decode_remove_total n b : bytes_wf b → decode_remove_compound b n ≠ Panic.
Proof using.
  intros Hb. pose proof (response_remove b n Hb) as H. cbn [decode] in H. unfold outcome in H.
  by destruct (decode_remove_compound b n).
Qed.

(** What the answer to the last request of a removal shows. *)
Definition removal_shows (lookups : nat) (r : res Error.t RemoveOutcome) (q : Request.t) : Prop :=
  match r with
  | Ok _ => gone lookups q
  | Err e => error_proves_operation_not_run e = true → harmless q
  | Panic => False
  end.

(** A request that got no answer. *)
Lemma unanswered_shows n q e : sent call q → Request.reply q = Err e → removal_shows n (Err e) q.
Proof using Statusless0.
  intros (h & payload & _ & Hc) He Hproves. apply (harmless_unsent q e He). rewrite He in Hc.
  unfold error_proves_operation_not_run in Hproves.
  rewrite (statusless h payload e Hc), andb_false_l, orb_false_r in Hproves. done.
Qed.

Lemma session_remove_spec p name s :
  sound s → path_fits (p ++ [name]) →
  let '(r, s') := remove call ulid p name s in
  sound s' ∧ ∃ retries last,
    tried p name s s' (retries ++ last) ∧ Forall harmless retries
    ∧ match r with
      | Panic => False
      | Err e => (last = [] ∧ Error.is_request_not_sent e = true) ∨ ∃ q, last = [q] ∧ removal_shows (length p) r q
      | Ok _ => ∃ q, last = [q] ∧ removal_shows (length p) r q
      end.
Proof using Transport0 Statusless0.
  intros (root & Hroot & Hs) Hfits. apply fits_split in Hfits as [Hp Hn].
  pose proof (encodable_remove root p name Hroot Hp Hn) as Henc.
  pose proof (decode_remove_total (length p)) as Hdec.
  assert (Hrun : remove call ulid p name s
    = compound_decode call ulid (str_of "remove") (resolves root p ++ [NfsOp.Remove name])
        (λ bytes, decode_remove_compound bytes (length p)) s).
  { unfold remove, sbind, Session.asks. by rewrite path_ops_resolves, (si_root _ _ _ Hs). }
  pose proof (decode_runs call ulid root (str_of "remove") _ _ any Henc Hdec ltac:(done) s Hs) as Hinv.
  rewrite Hrun. unfold compound_decode, compound_decode_with in Hinv |- *.
  pose proof (compound_decode_detailed_spec call ulid (str_of "remove") (resolves root p ++ [NfsOp.Remove name]) _
    Henc Hdec true 0 s (si_ok _ _ _ Hs) ltac:(lia)) as Hspec.
  destruct (compound_decode_detailed _ _ _ _ _ _ _) as [r [a s']].
  assert (Hs' : session_inv call root s') by (destruct r; by try destruct Hinv).
  split; [by exists root|]. destruct Hspec as (retries & last & [Lh Lo Lr _ Ll _ _ _ _ _ Lres]). exists retries, last.
  assert (Hsent : Forall (sent call) (retries ++ last)).
  { pose proof (si_faithful _ _ _ Hs') as Hf. unfold faithful in Hf. rewrite Lh, Forall_app in Hf. tauto. }
  split_and!.
  - exists (retries ++ last). split; [done|].
    assert (Ha : Forall (asks_removal p name) (retries ++ last)).
    { eapply Forall_impl; [exact Lo|]. intros q [_ Hq]. by exists root. }
    split; [|done]. apply filter_all. eapply Forall_impl; [exact Ha|]. apply asks_is_removal.
  - rewrite Forall_app in Lo. destruct Lo as [Lo _]. rewrite Forall_forall in *. intros q Hq.
    destruct (Lo q Hq) as [_ Hops].
    destruct (retried_may_go_again _ _ q (remove_tells root p name) (Lr q Hq)) as (b & ran & st & Hb & Hstop & _).
    rewrite <- Hops in Hstop. by eapply stopped_harmless.
  - rewrite !Forall_app in Lo, Hsent. destruct Lo as [_ Lo], Hsent as [_ Hsent].
    destruct r as [o|err|]; [| |done]; cbn [map_err].
    + destruct Lres as (q & b & -> & Hb & Hwf & Hd). exists q. split; [done|].
      inversion_clear Lo as [|? ? [_ Hops] _]. destruct o; [|by eapply gone_missing].
      apply (gone_removed _ q b Hb). rewrite Hops.
      apply (decoder_whole (D_remove (length p)) b); [done..|apply remove_codes_sent|]. cbn [decode]. by rewrite Hd.
    + destruct Lres as [(e0 & -> & Hnone & Hsome)|(q & b & -> & Hb & Hwf & Hd)].
      * destruct last as [|q [|q2 last]]; [left; by auto|right|rewrite !blen_cons in Ll; pose proof (blen_nonneg last); lia].
        exists q. split; [done|]. inversion_clear Hsent as [|? ? Hq _].
        destruct (Hsome q eq_refl) as [He|(b & sq & Hb & Hsq & Hd)]; [by apply unanswered_shows|].
        intros Hproves. apply (harmless_refused q b Hb). eapply sequence_error_harmless; [|exact Hd|done].
        by eapply sent_wf.
      * right. exists q. split; [done|]. inversion_clear Lo as [|? ? [_ Hops] _]. intros Hproves.
        by apply (remove_error_harmless root p name b err).
Qed.

(** ** The client's attempts *)

Lemma delete_once_spec path parent name raw s :
  sound s → path.parent_and_name path = Ok (parent, name) → path_fits (parent ++ [name]) →
  let '(r, s') := delete_once (service := session_dirs call ulid) path raw s in
  sound s' ∧ ∃ tries, tried parent name s s' tries ∧ deletion (length parent) raw r tries
    ∧ (∀ e, r = Err e → Error.requires_session_rebuild e = true → Forall harmless tries).
Proof using Transport0 Statusless0.
  intros Hs Hpath Hfits. unfold delete_once, sbind, slift. rewrite Hpath.
  cbn [DirService.remove session_dirs]. pose proof (session_remove_spec parent name s Hs Hfits) as H.
  destruct (remove call ulid parent name s) as [r s']. destruct H as (Hs' & retries & last & Ht & Hre & Hr).
  split; [done|]. exists (retries ++ last). split; [done|].
  destruct r as [o|e|]; cbn [delete_result]; [| |done].
  - destruct Hr as (q & -> & Ha). destruct o; (split; [by apply deletion_done|done]).
  - destruct (error_proves_operation_not_run e) eqn:He.
    + assert (Hall : Forall harmless (retries ++ last)).
      { apply Forall_app. split; [done|]. destruct Hr as [[-> _]|(q & -> & Ha)]; [constructor|].
        constructor; [by apply Ha|constructor]. }
      split; [by apply deletion_failed|done].
    + assert (Hns : Error.is_request_not_sent e = false).
      { unfold error_proves_operation_not_run in He. by apply orb_false_elim in He as [-> _]. }
      destruct Hr as [[-> Hns']|(q & -> & Ha)]; [congruence|].
      split; [by apply deletion_unknown|]. by intros e' [= <-].
Qed.

Context (generation : NfsSession.t → Z) (reconnect : Z → Z → Error.t → st NfsSession.t Error.t unit)
  (sleep : NfsSession.t → NfsSession.t).

(** A reconnect ends, with a sound session, and removes nothing. *)
Definition reconnects : Prop := ∀ failed attempt cause s, sound s →
  match reconnect failed attempt cause s with
  | (Panic, _) => False
  | (_, s') => sound s' ∧ ∃ setup, history s' = history s ++ setup ∧ Forall (λ q, is_removal q = false) setup
  end.

Lemma setup_tried p name s s' setup :
  history s' = history s ++ setup → Forall (λ q, is_removal q = false) setup → tried p name s s' [].
Proof using.
  intros Hh Hn. exists setup. split_and!; [done| |constructor]. clear Hh. induction Hn as [|q setup Hq _ IH]; [done|].
  by rewrite filter_cons_False by (by rewrite Hq).
Qed.

Lemma delete_retried path parent name raw s :
  reconnects → sound s → path.parent_and_name path = Ok (parent, name) → path_fits (parent ++ [name]) →
  let '(r, s') :=
    retrying_session_operation generation reconnect sleep
      (delete_once (service := session_dirs call ulid) path raw) s in
  sound s' ∧ ∃ tries, tried parent name s s' tries ∧ deletion (length parent) raw r tries.
Proof using Transport0 Statusless0.
  intros Hrec Hs Hpath Hfits. rewrite retrying_runs_twice.
  pose proof (delete_once_spec path parent name raw s Hs Hpath Hfits) as H1.
  destruct (delete_once path raw s) as [r1 s1]. destruct H1 as (Hs1 & t1 & Ht1 & Hd1 & Hre).
  destruct r1 as [[]|e|]; [by eauto| |by eauto]. destruct (Error.requires_session_rebuild e) eqn:He; [|by eauto].
  specialize (Hre e eq_refl He). pose proof (Hrec (generation s) 1 e s1 Hs1) as H2.
  destruct (reconnect (generation s) 1 e s1) as [[[]|e'|] s2]; [..|done]; destruct H2 as (Hs2 & setup & Hh & Hn).
  - pose proof (delete_once_spec path parent name raw s2 Hs2 Hpath Hfits) as H3.
    destruct (delete_once path raw s2) as [r3 s3]. destruct H3 as (Hs3 & t3 & Ht3 & Hd3 & _). split; [done|].
    exists (t1 ++ t3). split; [|by apply deletion_app]. eapply tried_trans; [exact Ht1|].
    apply (tried_trans _ _ _ s2 _ [] t3); [by eapply setup_tried|done].
  - split; [done|]. exists t1. split; [|by apply deletion_failed]. rewrite <- (app_nil_r t1).
    eapply tried_trans; [exact Ht1|by eapply setup_tried].
Qed.
End deletion.

(** C13: A deletion is asked for again only when it provably did not happen.
    On a sound session over any transport, with any number of transient
    retries and one reconnect, [delete] ends; of the requests it hands to the
    transport the only removals are compounds that resolve the parent of the
    given path and remove its last name.  Every one of them but the last was
    not sent, or the bytes that came back say that the server refused the
    SEQUENCE or failed an operation before the REMOVE was carried out; success
    means that the server carried out the last one in full, or found no such
    name; and unless the last one removed nothing either, a failure is reported
    as an unknown outcome. *)
Theorem session_deletes_at_most_once call ulid generation reconnect sleep raw s
    (Htransport : Transport call) (Hstatusless : Statusless call) (Hreconnects : reconnects call reconnect) (Hutf8 : utf8_valid raw = true)
    (Hlen : blen raw < 2 ^ 31) (Hs : sound call s) :
  let '(r, s') := delete (dirs := session_dirs call ulid) generation reconnect sleep raw s in
  sound call s'
  ∧ match path.file raw with
    | Ok p => ∃ parent name tries, components p = parent ++ [name] ∧ tried parent name s s' tries
        ∧ deletion (length parent) raw r tries
    | Err e => r = Err e ∧ history s' = history s
    | Panic => False
    end.
Proof.
  unfold delete, sbind, slift. destruct (path.path_no_panic raw Hutf8) as [Htotal _].
  destruct (path.file raw) as [p|e|] eqn:Hf; [|done..].
  destruct (path.parent_and_name_spec raw p Hf) as (parent & name & Hpn & Hcomp).
  pose proof (file_fits raw p Hutf8 Hf Hlen) as Hfits. rewrite Hcomp in Hfits.
  pose proof (delete_retried call ulid generation reconnect sleep p parent name raw s Hreconnects Hs Hpn Hfits) as H.
  destruct (retrying_session_operation _ _ _ _ s) as [r s']. destruct H as (Hs' & tries & Ht & Hd).
  split; [done|]. by exists parent, name, tries.
Qed.

(** ** A sample: put off, then not sent, then removed on a new session *)

Definition slow_removal : list (res Error.t bytes) :=
  [Ok (sample_response status.DELAY 3 1 (ok_reply OpCode.PutFh ++ fail_reply OpCode.Remove status.DELAY));
   Err (Error.request_not_sent (Error.connection_lost "gone"));
   Ok (sample_response 0 3 1 (ok_reply OpCode.PutFh ++ ok_reply OpCode.Remove ++ wire_change_info true 1 2))].

Lemma slow_transport : Transport (scripted slow_removal).
Proof. apply scripted_transport. repeat constructor; by vm_compute. Qed.

Lemma sample_sound call : sound call sample_session.
Proof. exists [1]. split; [by vm_compute|apply sample_session_inv]. Qed.

Definition renewed (s : NfsSession.t) : NfsSession.t :=
  NfsSession.mk sample_rpc [1] 9 (replicate 16 5) (SlotTable.new 2) (ClientOwner.new 4 (replicate 16 7) [])
    7 true true 0 (NfsConfig.new (str_of "/")) 1000 (history s) [].

Lemma renewed_sound call s : sound call s → sound call (renewed s).
Proof.
  intros (root & _ & Hs). exists [1]. split; [by vm_compute|].
  destruct (sample_session_inv call) as [[Hq Hid] _ Hr Hg Hc Hw].
  split; [by split|exact (si_faithful _ _ _ Hs)|exact Hr|exact Hg|exact Hc|exact Hw].
Qed.

Lemma session_deletes_at_most_once_witness :
  let run := delete (dirs := session_dirs (scripted slow_removal) (λ _, [])) (λ _, 0)
    (λ _ _ _ s, (Ok tt, renewed s)) (λ s, s) (str_of "a") sample_session in
  run.1 = Ok tt ∧ length (history run.2) = 3%nat
  ∧ ∃ tries, tried [] (str_of "a") sample_session run.2 tries ∧ deletion 0 (str_of "a") run.1 tries.
Proof.
  intros run.
  assert (Hok : run.1 = Ok tt ∧ length (history run.2) = 3%nat) by (vm_compute; auto).
  destruct Hok as [Hok H3]. split; [exact Hok|]. split; [exact H3|].
  assert (Hr : reconnects (scripted slow_removal) (λ _ _ _ s, (Ok tt, renewed s))).
  { intros g n e s Hs. split; [exact (renewed_sound _ s Hs)|]. exists []. rewrite app_nil_r. auto. }
  assert (Hst : Statusless (scripted slow_removal)) by (apply scripted_statusless; repeat constructor).
  pose proof (session_deletes_at_most_once (scripted slow_removal) (λ _, []) (λ _, 0)
    (λ _ _ _ s, (Ok tt, renewed s)) (λ s, s) (str_of "a") sample_session slow_transport Hst Hr eq_refl eq_refl
    (sample_sound _)) as H.
  fold run in H. destruct run as [r s']. destruct H as (_ & parent & name & tries & Hc & Htried & Hd).
  destruct parent as [|c parent]; [|by destruct parent]. injection Hc as <-. by exists tries.
Defined.
