(* ===== verification/Cleanup.v ===== *)
(** * A sweep, down to the requests it hands to the transport

    DirectoryFacts shows which names a sweep asks to remove, whatever the
    server lists; here the same is shown of the requests themselves, through
    the retries of the session and over a new session: every request of a sweep
    that contains a REMOVE is a compound that removes one stale temporary name,
    and the count that is returned is covered by answers that report a
    removal. *)

From S2P Require Import Prelude Proto Errors Path Xdr Ops Rpc Compound Reply Replies Slots Owner Session SessionFacts Reads Writes Put PutFacts Naming Publication Directory DirectoryFacts.
Import NfsSession.

Definition removes (op : NfsOp.t) : Prop := match op with NfsOp.Remove _ => True | _ => False end.
#[export] Instance removes_dec op : Decision (removes op).
Proof. destruct op; cbn; apply _. Defined.

Definition removal_log : NfsSession.t → list Request.t := mark_log removes.

Lemma unremoving_path root parent : unmarked removes (extend_export_path_ops [] root parent).
Proof. eapply Forall_impl; [apply preparing_path|]. intros op (_ & _ & H & _) Hp. by destruct op. Qed.

(** The answer to a request reports that the name was removed. *)
Definition removal_done (q : Request.t) : Prop :=
  match Request.reply q with Ok b => decode_remove_compound b 0 = Ok Removed | _ => False end.
#[export] Instance removal_done_dec q : Decision (removal_done q).
Proof.
  unfold removal_done. destruct (Request.reply q) as [b|e|]; [|apply _..].
  destruct (decode_remove_compound b 0) as [[]|e|]; first [left; done|right; done].
Defined.

(** The requests behind one removal: attempts of the same compound, the last
    of them answered with the outcome that is reported. *)
Definition attempted (e : removal) (t : list Request.t) : Prop :=
  Forall (λ q, ∃ dir, Request.ops q = [NfsOp.PutFh dir; NfsOp.Remove e.1]) t
  ∧ (was_removed e → Exists removal_done t).

Section sweeping.
Context (call : list Request.t → RpcPayload.t → res Error.t bytes) (ulid : nat → bytes)
  `{!Transport call} `{!Statusless call}.

Lemma remove_at_attempts dir name s :
  let '(r, s') := remove_at call ulid dir name s in
  ∃ t, removal_log s' = removal_log s ++ t ∧ attempted (name, r) t.
Proof using Type*.
  unfold remove_at, compound_decode, compound_decode_with.
  pose proof (detailed_walked call ulid (str_of "remove-at") [NfsOp.PutFh dir; NfsOp.Remove name]
    (λ b, decode_remove_compound b 0) true 0 s) as Hw.
  destruct (compound_decode_detailed call ulid _ _ _ true (0, s)) as [r [a s']].
  pose proof (walked_ops _ _ _ _ _ _ Hw) as (new & Hn & Ho).
  destruct Hw as (retries & last & Hh & _ & Hs & _). rewrite Hh in Hn. apply app_inv_head in Hn. subst new.
  exists (retries ++ last). split.
  - unfold removal_log, mark_log. rewrite Hh, filter_app. f_equal.
    apply (marked_requests removes [NfsOp.PutFh dir; NfsOp.Remove name]); [|done]. by right; left.
  - split; [eapply Forall_impl; [exact Ho|]; intros q Hq; by exists dir|].
    destruct r as [o|e|]; [|done..]. intros Hr. destruct Hs as (q & b & -> & (_ & Hb & _) & Hd).
    apply Exists_app. right. constructor. unfold removal_done. rewrite Hb, Hd. unfold was_removed in Hr. cbn in Hr. congruence.
Qed.

(** The session keeps the contract of sweeps with the requests as its record. *)
#[export] Instance session_sweep_contract : SweepContract (session_dirs call ulid) removal_log attempted.
Proof using Type*.
  split.
  - apply remove_at_attempts.
  - intros p c v n. apply leaves_asked. intros s. apply leaves_compound; [assumption|assumption|unmarked_ops unremoving_path].
  - intros fh c v n. apply leaves_asked. intros s. apply leaves_compound; [assumption|assumption|unmarked_ops unremoving_path].
Qed.
End sweeping.

(** A compound that removes a stale temporary name, and nothing else. *)
Definition stale_removal (ulid_ms : str → option Z) (cutoff : Z) (q : Request.t) : Prop :=
  ∃ dir name, Request.ops q = [NfsOp.PutFh dir; NfsOp.Remove name] ∧ stale_temp ulid_ms cutoff name.

Lemma logged_stale ulid_ms cutoff l t :
  logged attempted l t → Forall (λ e, stale_temp ulid_ms cutoff e.1) l → Forall (stale_removal ulid_ms cutoff) t.
Proof.
  intros (parts & -> & H) Hl. induction H as [|e p l parts [Hp _] _ IH]; [done|]. inversion_clear Hl.
  apply Forall_app. split; [|by apply IH]. eapply Forall_impl; [exact Hp|]. intros q (dir & Hq). by exists dir, e.1.
Qed.

Lemma logged_counted l t : logged attempted l t → removals l ≤ blen (filter removal_done t).
Proof.
  intros (parts & -> & H). induction H as [|e p l parts [_ Hd] _ IH]; [done|]. cbn [concat].
  rewrite filter_app, blen_app, (removals_app [e] l : removals (e :: l) = _).
  assert (He : removals [e] ≤ blen (filter removal_done p)); [|lia].
  unfold removals. rewrite filter_cons. destruct (decide (was_removed e)) as [Hw|]; [|apply blen_nonneg].
  apply Hd, Exists_exists in Hw as (q & Hq & Hr).
  assert (Hin : q ∈ filter removal_done p) by (by apply list_elem_of_filter).
  destruct (filter removal_done p) as [|q' l']; [by apply not_elem_of_nil in Hin|].
  rewrite !blen_cons. pose proof (blen_nonneg l'). change (blen (filter was_removed [])) with 0. lia.
Qed.

(** C12: a sweep sends no removal but of stale temporary files.  Whatever the
    server lists and answers, through every retry and across a new session, of
    all the requests the sweep hands to the transport those with a REMOVE
    remove exactly one name each, with the reserved prefix and a creation time
    at or before the cutoff; a count it returns is covered by as many answers
    that report a removal. *)
Theorem session_sweeps_only_stale call ulid ulid_ms order generation reconnect sleep fuel now raw older_than s
    (Htransport : Transport call) (Hstatusless : Statusless call)
    (Hreconnect : ∀ g n e, leaves removal_log (reconnect g n e)) :
  let cutoff := saturating_sub now (if older_than <=? u64_max then older_than else u64_max) in
  let '(r, s') := sweep_temp_files (dirs := session_dirs call ulid) order generation reconnect sleep ulid_ms fuel now
                    raw older_than s in
  ∃ t, removal_log s' = removal_log s ++ t ∧ Forall (stale_removal ulid_ms cutoff) t
    ∧ match r with Ok n => 0 ≤ n ≤ blen (filter removal_done t) | _ => True end.
Proof.
  intros cutoff. destruct (sweep_reported (service := session_dirs call ulid) ulid_ms order removal_log attempted
    generation reconnect sleep Hreconnect fuel now raw older_than s) as (l & t & Hl & Hg & Hs & H).
  fold cutoff in Hs, H. destruct (sweep_temp_files _ _ _ _ _ _ _ _ _ s) as [r s']. cbn [fst snd] in *.
  exists t. split; [done|]. split; [by eapply logged_stale|]. destruct r as [n|e|]; [|done..].
  destruct H as [Hn _]. apply logged_counted in Hg. lia.
Qed.


(** ** A sample: a removal that is put off, then done *)

(** The time of a name is its first byte. *)
Definition first_byte_ms (ulid : str) : option Z := head ulid.
Definition old_name : str := TEMP_FILE_PREFIX ++ [49].
Definition young_name : str := TEMP_FILE_PREFIX ++ [57].

Definition listing (q : Z) (names : list (Z * str)) : res Error.t bytes :=
  Ok (sample_response 0 4 q
        (ok_reply OpCode.PutFh ++ ok_reply OpCode.GetFh ++ wire_opaque [3] ++ ok_reply OpCode.ReadDir ++ replicate 8 1
         ++ wire_dirlist ((λ '(cookie, name), (cookie, name, Bitmap.mk [], [])) <$> names) true)).

Definition swept_directory : list (res Error.t bytes) :=
  [listing 1 [(3, old_name); (4, young_name)];
   Ok (sample_response status.DELAY 3 2 (ok_reply OpCode.PutFh ++ fail_reply OpCode.Remove status.DELAY));
   Ok (sample_response 0 3 3 (ok_reply OpCode.PutFh ++ ok_reply OpCode.Remove ++ wire_change_info true 1 2));
   listing 4 [(4, young_name)]].

Lemma swept_transport : Transport (scripted swept_directory).
Proof. apply scripted_transport. repeat constructor; by vm_compute. Qed.

Lemma session_sweeps_only_stale_witness :
  let run := sweep_temp_files (dirs := session_dirs (scripted swept_directory) (λ _, [])) (λ n, n) (λ _, 0)
    (λ _ _ _ s, (Ok tt, s)) (λ s, s) first_byte_ms 8 70 (str_of "/") 20 sample_session in
  run.1 = Ok 1 ∧ length (history run.2) = 4%nat
  ∧ ∃ t, removal_log run.2 = t ∧ length t = 2%nat ∧ Forall (stale_removal first_byte_ms 50) t
      ∧ 1 ≤ blen (filter removal_done t).
Proof.
  intros run.
  assert (Hok : run.1 = Ok 1 ∧ length (history run.2) = 4%nat ∧ length (removal_log run.2) = 2%nat)
    by (vm_compute; auto).
  destruct Hok as (Hok & H4 & H2). split; [exact Hok|]. split; [exact H4|].
  assert (Hs : Statusless (scripted swept_directory)) by (apply scripted_statusless; repeat constructor).
  pose proof (session_sweeps_only_stale (scripted swept_directory) (λ _, []) first_byte_ms (λ n, n) (λ _, 0)
    (λ _ _ _ s, (Ok tt, s)) (λ s, s) 8 70 (str_of "/") 20 sample_session swept_transport Hs (λ g n e s, eq_refl)) as H.
  fold run in H. destruct run as [r s']. cbn [fst snd] in *. destruct H as (t & Ht & Hstale & Hn).
  exists t. split; [exact Ht|]. split; [rewrite Ht in H2; exact H2|]. split; [exact Hstale|].
  rewrite Hok in Hn. lia.
Defined.
