(* ===== verification/Reconnect.v ===== *)
(** * Replacing a failed session (src/client.rs, [reconnect])

    Many operations can fail on one session.  The first to ask for a new one
    starts a task that dials the server; the others wait for its outcome, and
    a failed attempt is remembered for a while.  The coordinator is shared
    behind a mutex, the session behind a lock of its own.  This file models
    the functions of the coordinator and runs them as a state machine with one
    action for each stretch of code between two accesses to shared state. *)

From S2P Require Import Prelude Proto Errors Ops.

Definition MIN_RECONNECT_FAILURE_BACKOFF : Duration := 250 * 10 ^ 6.

Module ReconnectFailure.
Inductive t : Type := Timeout (timeout : Duration) | Other (message : string).

Definition from_error (error : Error.t) : t :=
  match error with
  | Error.Timeout timeout => Timeout timeout
  | _ => Other "NFS session reconnect failed: {error}"
  end.

Definition to_error (self : t) : Error.t :=
  match self with
  | Timeout timeout => Error.Timeout timeout
  | Other message => Error.connection_lost message
  end.
End ReconnectFailure.

(** [Result<(), ReconnectFailure>] *)
Inductive ReconnectOutcome : Type := Reconnected | NotReconnected (error : ReconnectFailure.t).

(** A channel is named by the task that holds its sender. *)
Module ReconnectState.
Inductive t : Type :=
| Idle
| Connecting (generation : Z) (outcome : nat)
| Failed (generation : Z) (retry_after : option Z) (error : ReconnectFailure.t).
End ReconnectState.
Import ReconnectState.

Definition session_generation_needs_reconnect (current_generation failed_generation : Z) : bool :=
  current_generation =? failed_generation.

Definition reconnect_failure_backoff (config : NfsConfig.t) : Duration :=
  Z.max (NfsConfig.transient_retry_delay config) MIN_RECONNECT_FAILURE_BACKOFF.

(** [await_reconnect_outcome]: [None] while it waits. *)
Definition await_reconnect_outcome (outcome : option ReconnectOutcome) (sender_alive : bool)
  : option (res Error.t unit) :=
  match outcome with
  | Some Reconnected => Some (Ok tt)
  | Some (NotReconnected error) => Some (Err (ReconnectFailure.to_error error))
  | None =>
      if sender_alive then None
      else Some (Err (Error.connection_lost "NFS reconnect task ended before reporting an outcome"))
  end.

(** What [reconnect] does while it holds the coordinator. *)
Inductive decision : Type :=
| Return (result : res Error.t unit)
| Wait (outcome : nat)
| Spawn.

(** [self.inner.reconnect.lock()] up to [drop(coordinator)]. *)
Definition reconnect_decision (now current_generation failed_generation : Z) (state : ReconnectState.t)
  : decision :=
  if negb (session_generation_needs_reconnect current_generation failed_generation) then Return (Ok tt)
  else
    match state with
    | Connecting generation outcome =>
        if generation =? failed_generation then Wait outcome else Spawn
    | Failed generation retry_after error =>
        if (generation =? failed_generation)
           && match retry_after with Some deadline => now <? deadline | None => true end
        then Return (Err (ReconnectFailure.to_error error))
        else Spawn
    | Idle => Spawn
    end.

Section coordinator.
(** [checked_add] is [Instant::checked_add]; [backoff] is
    [reconnect_failure_backoff] of the client's configuration. *)
Context (checked_add : Z → Duration → option Z) (backoff : Duration).

Definition finish_reconnect_attempt (now : Z) (state : ReconnectState.t) (failed_generation : Z)
    (outcome : ReconnectOutcome) : ReconnectState.t :=
  match state with
  | Connecting generation _ =>
      if generation =? failed_generation then
        match outcome with
        | Reconnected => Idle
        | NotReconnected error => Failed failed_generation (checked_add now backoff) error
        end
      else state
  | _ => state
  end.

(** ** The system *)

(** How far a reconnect task has come: it dials; it has the outcome and, on
    success, the session is in place; the coordinator knows; the waiters were
    told. *)
Inductive phase : Type :=
| Dialing
| Dialed (outcome : ReconnectOutcome)
| Finished (outcome : ReconnectOutcome)
| Sent (outcome : ReconnectOutcome).

(** [waiters] are the calls that await an outcome, with the generation that
    failed them; [results] the calls that returned, with the generation at
    that moment; [installs] the generations that were replaced. *)
Record t : Type := mk {
  generation : Z;
  state : ReconnectState.t;
  tasks : list (Z * phase);
  waiters : list (Z * nat);
  results : list (Z * Z * res Error.t unit);
  installs : list Z;
  now : Z;
}.

Definition initial : t := mk 0 Idle [] [] [] [] 0.

Inductive action : Type :=
| Call (failed_generation : Z)
| Dial (task : nat) (result : res Error.t unit)
| Finish (task : nat)
| Send (task : nat)
| Observe (waiter : nat)
| Tick (elapsed : Z).

(** [reconnect], to its return or to the await. *)
Definition call (failed_generation : Z) (s : t) : t :=
  match reconnect_decision (now s) (generation s) failed_generation (state s) with
  | Return result =>
      mk (generation s) (state s) (tasks s) (waiters s)
         (results s ++ [(failed_generation, generation s, result)]) (installs s) (now s)
  | Wait outcome =>
      mk (generation s) (state s) (tasks s) (waiters s ++ [(failed_generation, outcome)]) (results s)
         (installs s) (now s)
  | Spawn =>
      let task := length (tasks s) in
      mk (generation s) (Connecting failed_generation task) (tasks s ++ [(failed_generation, Dialing)])
         (waiters s ++ [(failed_generation, task)]) (results s) (installs s) (now s)
  end.

(** The arms of [run_reconnect] on the result of
    [resolve_and_connect_session]: the new session is put in place under the
    session's lock, unless the generation moved on. *)
Definition dialed (task : nat) (failed_generation : Z) (result : res Error.t unit) (s : t) : t :=
  match result with
  | Err error =>
      mk (generation s) (state s)
         (<[task := (failed_generation, Dialed (NotReconnected (ReconnectFailure.from_error error)))]> (tasks s))
         (waiters s) (results s) (installs s) (now s)
  | _ =>
      let replace := session_generation_needs_reconnect (generation s) failed_generation in
      mk (if replace then wrap64 (generation s + 1) else generation s) (state s)
         (<[task := (failed_generation, Dialed Reconnected)]> (tasks s))
         (waiters s) (results s)
         (if replace then installs s ++ [generation s] else installs s) (now s)
  end.

Definition step_action (a : action) (s : t) : option t :=
  match a with
  | Call failed_generation =>
      (* a generation some operation has seen *)
      if (0 <=? failed_generation) && (failed_generation <=? generation s)
      then Some (call failed_generation s) else None
  | Dial task result =>
      match tasks s !! task, result with
      | Some (_, Dialing), Panic => None
      | Some (failed_generation, Dialing), _ => Some (dialed task failed_generation result s)
      | _, _ => None
      end
  | Finish task =>
      match tasks s !! task with
      | Some (failed_generation, Dialed outcome) =>
          Some (mk (generation s) (finish_reconnect_attempt (now s) (state s) failed_generation outcome)
                   (<[task := (failed_generation, Finished outcome)]> (tasks s)) (waiters s) (results s)
                   (installs s) (now s))
      | _ => None
      end
  | Send task =>
      match tasks s !! task with
      | Some (failed_generation, Finished outcome) =>
          Some (mk (generation s) (state s) (<[task := (failed_generation, Sent outcome)]> (tasks s))
                   (waiters s) (results s) (installs s) (now s))
      | _ => None
      end
  | Observe waiter =>
      match waiters s !! waiter with
      | Some (failed_generation, task) =>
          let outcome := match tasks s !! task with Some (_, Sent outcome) => Some outcome | _ => None end in
          let sender_alive := match tasks s !! task with Some (_, Sent _) | None => false | _ => true end in
          match await_reconnect_outcome outcome sender_alive with
          | Some result =>
              Some (mk (generation s) (state s) (tasks s) (delete waiter (waiters s))
                       (results s ++ [(failed_generation, generation s, result)]) (installs s) (now s))
          | None => None
          end
      | None => None
      end
  | Tick elapsed =>
      if 0 <=? elapsed
      then Some (mk (generation s) (state s) (tasks s) (waiters s) (results s) (installs s) (now s + elapsed))
      else None
  end.

Inductive reach : nat → t → Prop :=
| reach_initial : reach 0 initial
| reach_step n s a s' : reach n s → step_action a s = Some s' → reach (S n) s'.

(** Runs a list of actions. *)
Fixpoint run_actions (l : list action) (s : t) : option t :=
  match l with
  | [] => Some s
  | a :: l => match step_action a s with Some s => run_actions l s | None => None end
  end.
End coordinator.
