(* ===== verification/ReconnectFacts.v ===== *)
(** * One reconnect for each failed session, and nobody left waiting *)

From S2P Require Import Prelude Proto Errors Ops Reconnect.
Import ReconnectState.

(** The task has the outcome to come or unknown to the coordinator. *)
Definition unfinished (p : phase) : Prop :=
  match p with Dialing | Dialed _ => True | _ => False end.

(** The task still holds the current session's place: no session was put in
    place by it. *)
Definition owns_attempt (p : phase) : Prop :=
  match p with Dialing | Dialed (NotReconnected _) => True | _ => False end.

Definition succeeded (p : phase) : Prop :=
  match p with
  | Dialed Reconnected | Finished Reconnected | Sent Reconnected => True
  | _ => False
  end.

(** The tasks alone: attempts under way are the coordinator's, those that
    succeeded replaced the session of their generation. *)
Record tasks_ok (generation : Z) (st : ReconnectState.t) (l : list (Z * phase)) : Prop := {
  to_gen i g p : l !! i = Some (g, p) → 0 ≤ g ≤ generation;
  to_owns i g p : l !! i = Some (g, p) → owns_attempt p → g = generation ∧ st = Connecting g i;
  to_done i g p : l !! i = Some (g, p) → succeeded p → g < generation;
  to_state g i : st = Connecting g i → ∃ p, l !! i = Some (g, p) ∧ unfinished p;
}.

Record inv (n : nat) (s : Reconnect.t) : Prop := {
  inv_count : generation s ≤ Z.of_nat n;
  inv_installs : installs s = seqZ 0 (generation s);
  inv_positive : 0 ≤ generation s;
  inv_tasks : tasks_ok (generation s) (state s) (tasks s);
  inv_waiters g i : (g, i) ∈ waiters s → ∃ p, tasks s !! i = Some (g, p);
  inv_results g c : (g, c, Ok tt) ∈ results s → g < c;
}.

(** ** The tasks under the actions *)

Lemma spawn_tasks generation st l :
  0 ≤ generation → tasks_ok generation st l → (∀ i, st ≠ Connecting generation i) →
  tasks_ok generation (Connecting generation (length l)) (l ++ [(generation, Dialing)]).
Proof.
  intros Hpos [Hg Ho Hd Hs] Hst.
  assert (Hcase : ∀ i g p, (l ++ [(generation, Dialing)]) !! i = Some (g, p) →
    l !! i = Some (g, p) ∨ i = length l ∧ g = generation ∧ p = Dialing).
  { intros i g p H. apply lookup_app_Some in H as [H|[Hi H]]; [by left|right].
    apply list_lookup_singleton_Some in H as [Hi' [= <- <-]]. split; [lia|done]. }
  split.
  - intros i g p [H|(-> & -> & ->)]%Hcase; [by eapply Hg|lia].
  - intros i g p [H|(-> & -> & ->)]%Hcase Hp; [|done].
    destruct (Ho _ _ _ H Hp) as [-> Hst']. by destruct (Hst i).
  - intros i g p [H|(-> & -> & ->)]%Hcase Hp; [by eapply Hd|done].
  - intros g i [= <- <-]. exists Dialing. split; [|done]. rewrite lookup_app_r by lia. by rewrite Nat.sub_diag.
Qed.

(** One task moves on. *)
Lemma advance_tasks generation generation' st st' l i g p p' :
  tasks_ok generation st l → l !! i = Some (g, p) → generation ≤ generation' →
  (generation' = generation ∨ ∀ j g2 p2, j ≠ i → l !! j = Some (g2, p2) → ¬ owns_attempt p2) →
  (owns_attempt p' → g = generation' ∧ st' = Connecting g i) →
  (succeeded p' → g < generation') →
  (st' = st ∧ (unfinished p' ∨ ∀ g2, st ≠ Connecting g2 i) ∨
   (∀ g2 j, st' ≠ Connecting g2 j) ∧ ∀ j g2 p2, j ≠ i → l !! j = Some (g2, p2) → ¬ owns_attempt p2) →
  tasks_ok generation' st' (<[i := (g, p')]> l).
Proof.
  intros [Hg Ho Hd Hs] Hi Hle Hgen Hown Hdone Hst.
  assert (Hlt : (i < length l)%nat) by (by apply lookup_lt_Some in Hi).
  assert (Hcase : ∀ j g2 p2, <[i := (g, p')]> l !! j = Some (g2, p2) →
    (j = i ∧ g2 = g ∧ p2 = p') ∨ (j ≠ i ∧ l !! j = Some (g2, p2))).
  { intros j g2 p2 [(<- & [= <- <-] & _)|[? ?]]%list_lookup_insert_Some; naive_solver. }
  split.
  - intros j g2 p2 [(-> & -> & ->)|[Hj H]]%Hcase; [specialize (Hg _ _ _ Hi)|specialize (Hg _ _ _ H)]; lia.
  - intros j g2 p2 [(-> & -> & ->)|[Hj H]]%Hcase Hp; [by apply Hown|].
    destruct (Ho _ _ _ H Hp) as [-> ->]. destruct Hgen as [->|Hgen]; [|by destruct (Hgen _ _ _ Hj H)].
    destruct Hst as [[-> _]|[_ Hst]]; [done|by destruct (Hst _ _ _ Hj H)].
  - intros j g2 p2 [(-> & -> & ->)|[Hj H]]%Hcase Hp; [by apply Hdone|]. specialize (Hd _ _ _ H Hp). lia.
  - intros g2 j E. destruct Hst as [[-> Hst]|[Hst _]]; [|by destruct (Hst g2 j)].
    destruct (Hs g2 j E) as (p2 & H2 & Hu). destruct (decide (j = i)) as [->|Hj].
    + rewrite Hi in H2. injection H2 as <- <-. exists p'. rewrite list_lookup_insert_eq by done.
      split; [done|]. destruct Hst as [Hst|Hst]; [done|by destruct (Hst g)].
    + exists p2. by rewrite list_lookup_insert_ne by done.
Qed.

Section system.
Context (checked_add : Z → Duration → option Z) (backoff : Duration).
Notation step_action := (step_action checked_add backoff).
Notation reach := (reach checked_add backoff).

(** Two attempts under way are one. *)
Lemma one_attempt generation st l i j g1 g2 p1 p2 :
  tasks_ok generation st l → l !! i = Some (g1, p1) → l !! j = Some (g2, p2) →
  owns_attempt p1 → owns_attempt p2 → i = j.
Proof.
  intros [_ Ho _ _] Hi Hj H1 H2. destruct (Ho _ _ _ Hi H1) as [_ ->]. by destruct (Ho _ _ _ Hj H2) as [_ [= _ ->]].
Qed.

Lemma waiters_advance s i g p p' :
  (∀ g i, (g, i) ∈ waiters s → ∃ p, tasks s !! i = Some (g, p)) → tasks s !! i = Some (g, p) →
  ∀ g2 j, (g2, j) ∈ waiters s → ∃ p, <[i := (g, p')]> (tasks s) !! j = Some (g2, p).
Proof.
  intros Hw Hi g2 j Hj. destruct (Hw _ _ Hj) as [p2 H2]. destruct (decide (i = j)) as [->|Hne].
  - rewrite Hi in H2. injection H2 as <- <-. exists p'. apply list_lookup_insert_eq. by apply lookup_lt_Some in Hi.
  - exists p2. by rewrite list_lookup_insert_ne.
Qed.

Lemma inv_call n s g : inv n s → 0 ≤ g ≤ generation s → inv (S n) (call g s).
Proof.
  intros [Hn Hi Hp Ht Hw Hr] Hg. unfold call, reconnect_decision, session_generation_needs_reconnect.
  destruct (Z.eqb_spec (generation s) g) as [<-|Hne]; cbn [negb].
  2: { split; cbn; try done; try lia. intros g2 c [H|[= -> ->]%list_elem_of_singleton]%elem_of_app; [by apply Hr|lia]. }
  assert (Hspawn : (∀ i, state s ≠ Connecting (generation s) i) →
    inv (S n) (mk (generation s) (Connecting (generation s) (length (tasks s)))
      (tasks s ++ [(generation s, Dialing)]) (waiters s ++ [(generation s, length (tasks s))]) (results s)
      (installs s) (now s))).
  { intros Hst. split; cbn; try done; try lia; [by apply (spawn_tasks _ (state s))|].
    intros g2 i [H|[= -> ->]%list_elem_of_singleton]%elem_of_app.
    - destruct (Hw _ _ H) as [p H2]. exists p. by apply lookup_app_l_Some.
    - exists Dialing. rewrite lookup_app_r by lia. by rewrite Nat.sub_diag. }
  destruct (state s) as [|g' i|g' ra e] eqn:Est; [by apply Hspawn|..].
  - destruct (Z.eqb_spec g' (generation s)) as [->|Hne]; [|apply Hspawn; naive_solver].
    split; cbn; try done; try lia; rewrite ?Est; try done.
    intros g2 j [H|[= -> ->]%list_elem_of_singleton]%elem_of_app; [by apply Hw|].
    destruct (to_state _ _ _ Ht _ _ eq_refl) as (p & H & _). by exists p.
  - destruct ((g' =? generation s) && _); [|by apply Hspawn].
    split; cbn; try done; try lia; rewrite ?Est; try done.
    intros g2 c [H|[=]%list_elem_of_singleton]%elem_of_app. by apply Hr.
Qed.

Lemma inv_dial n s i g r :
  inv n s → Z.of_nat (S n) < 2 ^ 64 → tasks s !! i = Some (g, Dialing) → r ≠ Panic → inv (S n) (dialed i g r s).
Proof.
  intros [Hn Hi Hp Ht Hw Hr] Hmax Hl Hnp. destruct (to_owns _ _ _ Ht _ _ _ Hl I) as [-> Hst].
  unfold dialed, session_generation_needs_reconnect. rewrite Z.eqb_refl.
  assert (Hwrap : wrap64 (generation s + 1) = generation s + 1) by (unfold wrap64; rewrite Z.mod_small; lia).
  destruct r as [[]|e|]; [..|done].
  - rewrite Hwrap. split; cbn; try done; try lia; [..|by apply (waiters_advance s i (generation s) Dialing)].
    + rewrite Hi, seqZ_app by lia. done.
    + eapply advance_tasks; [exact Ht|exact Hl|lia| |done|intros _; lia|left; by split; [|left]].
      right. intros j g2 p2 Hj Hl2 Hp2. apply Hj. by eapply one_attempt.
  - split; cbn; try done; try lia; [|by apply (waiters_advance s i (generation s) Dialing)].
    eapply advance_tasks; [exact Ht|exact Hl|lia|by left|done|done|left; by split; [|left]].
Qed.

Lemma inv_finish n s i g o :
  inv n s → tasks s !! i = Some (g, Dialed o) →
  inv (S n) (mk (generation s) (finish_reconnect_attempt checked_add backoff (now s) (state s) g o)
               (<[i := (g, Finished o)]> (tasks s)) (waiters s) (results s) (installs s) (now s)).
Proof.
  intros [Hn Hi Hp Ht Hw Hr] Hl.
  split; cbn; try done; try lia; [|by apply (waiters_advance s i g (Dialed o))].
  eapply advance_tasks; [exact Ht|exact Hl|lia|by left|done|..].
  - destruct o; [|done]. intros _. by apply (to_done _ _ _ Ht _ _ _ Hl).
  - unfold finish_reconnect_attempt. destruct o as [|e].
    + pose proof (to_done _ _ _ Ht _ _ _ Hl I) as Hlt.
      destruct (state s) as [|g' j|] eqn:Est; [left; by split; [|right]| |left; by split; [|right]].
      destruct (Z.eqb_spec g' g) as [->|Hne].
      * right. split; [done|]. intros j2 g2 p2 _ Hl2 Hp2. destruct (to_owns _ _ _ Ht _ _ _ Hl2 Hp2) as [-> [= E _]]. lia.
      * left. split; [done|]. right. intros g2 [= <- ->].
        destruct (to_state _ _ _ Ht _ _ eq_refl) as (p & H & _). rewrite Hl in H. by injection H as <- _.
    + destruct (to_owns _ _ _ Ht _ _ _ Hl I) as [-> ->]. rewrite Z.eqb_refl. right. split; [done|].
      intros j g2 p2 Hj Hl2 Hp2. apply Hj. by eapply one_attempt.
Qed.

Lemma inv_send n s i g o :
  inv n s → tasks s !! i = Some (g, Finished o) →
  inv (S n) (mk (generation s) (state s) (<[i := (g, Sent o)]> (tasks s)) (waiters s) (results s)
               (installs s) (now s)).
Proof.
  intros [Hn Hi Hp Ht Hw Hr] Hl.
  split; cbn; try done; try lia; [|by apply (waiters_advance s i g (Finished o))].
  eapply advance_tasks; [exact Ht|exact Hl|lia|by left|done|..].
  - destruct o; [|done]. intros _. by apply (to_done _ _ _ Ht _ _ _ Hl).
  - left. split; [done|]. right. intros g2 E. destruct (to_state _ _ _ Ht _ _ E) as (p & H & Hu).
    rewrite Hl in H. by injection H as <- <-.
Qed.

Lemma inv_observe n s w g i r :
  inv n s → waiters s !! w = Some (g, i) →
  (r = Ok tt → ∃ g', tasks s !! i = Some (g', Sent Reconnected)) →
  inv (S n) (mk (generation s) (state s) (tasks s) (delete w (waiters s))
               (results s ++ [(g, generation s, r)]) (installs s) (now s)).
Proof.
  intros [Hn Hi Hp Ht Hw Hr] Hwl Hok. split; cbn; try done; try lia.
  - intros g2 j H. apply Hw. eapply elem_of_submseteq; [exact H|]. apply sublist_submseteq, sublist_delete.
  - intros g2 c [H|[= -> -> E]%list_elem_of_singleton]%elem_of_app; [by apply Hr|].
    destruct (Hok (eq_sym E)) as [g' Hg']. destruct (Hw g i) as [p Hl]; [by eapply list_elem_of_lookup_2|].
    rewrite Hg' in Hl. injection Hl as -> <-. by apply (to_done _ _ _ Ht _ _ _ Hg').
Qed.

Lemma inv_action n s a s' :
  inv n s → Z.of_nat (S n) < 2 ^ 64 → step_action a s = Some s' → inv (S n) s'.
Proof.
  intros Hinv Hmax H. destruct a as [g|i r|i|i|w|d]; cbn [Reconnect.step_action] in H.
  - destruct ((0 <=? g) && (g <=? generation s)) eqn:E; [|done]. injection H as <-.
    apply andb_true_iff in E as [E1 E2]. apply inv_call; [done|lia].
  - destruct (tasks s !! i) as [[g []]|] eqn:E; [|by destruct r..].
    destruct r as [[]|e|]; [..|done]; injection H as <-;
      [by apply (inv_dial n s i g (Ok tt))|by apply (inv_dial n s i g (Err e))].
  - destruct (tasks s !! i) as [[g []]|] eqn:E; try done. injection H as <-. by apply inv_finish.
  - destruct (tasks s !! i) as [[g []]|] eqn:E; try done. injection H as <-. by apply inv_send.
  - destruct (waiters s !! w) as [[g i]|] eqn:E; [|done].
    destruct (await_reconnect_outcome _ _) as [r|] eqn:Ea; [|done]. injection H as <-.
    eapply inv_observe; [done|exact E|]. intros ->.
    destruct (tasks s !! i) as [[g' [|o|o|o]]|]; try done. destruct o; [by exists g'|done].
  - destruct (0 <=? d); [|done]. injection H as <-. destruct Hinv. split; cbn; try done. lia.
Qed.

Lemma inv_reach n s : reach n s → Z.of_nat n < 2 ^ 64 → inv n s.
Proof.
  induction 1 as [|n s a s' Hr IH Hs]; intros Hn.
  - split; [done|done|done|by split|..]; intros ? ? Hin; by apply not_elem_of_nil in Hin.
  - eapply inv_action; [apply IH; lia|done|exact Hs].
Qed.

(** Task [i] dials for the session of generation [g]. *)
Definition dials (s : Reconnect.t) (i : nat) (g : Z) : Prop := tasks s !! i = Some (g, Dialing).

(** C9: sessions are replaced one at a time.  Whatever order the callers and
    the reconnect tasks run in, at most one task dials at any moment, and it
    dials for the session in place; and every generation is replaced exactly
    once, in order, so that no caller's failure tears down a session that
    another reconnect just made; and a reconnect that returned success for a
    failed generation returned at a later generation. *)
Theorem reconnect_single_flight n s :
  reach n s → Z.of_nat n < 2 ^ 64 →
  (∀ i j gi gj, dials s i gi → dials s j gj → i = j ∧ gi = generation s)
  ∧ installs s = seqZ 0 (generation s)
  ∧ (∀ g c, (g, c, Ok tt) ∈ results s → g < c).
Proof.
  intros Hr Hn. pose proof (inv_reach n s Hr Hn) as H. split; [|split; apply H].
  intros i j gi gj Hi Hj. split; [by eapply one_attempt; [apply H|..]|].
  by apply (to_owns _ _ _ (inv_tasks _ _ H) _ _ _ Hi).
Qed.

(** What a task has left to do once it is started. *)
Definition remaining (i : nat) (r : res Error.t unit) (p : phase) : list action :=
  match p with
  | Dialing => [Dial i r; Finish i; Send i]
  | Dialed _ => [Finish i; Send i]
  | Finished _ => [Send i]
  | Sent _ => []
  end.

Lemma remaining_runs s i g p r :
  tasks s !! i = Some (g, p) → r ≠ Panic →
  ∃ s' o, run_actions checked_add backoff (remaining i r p) s = Some s' ∧ waiters s' = waiters s
    ∧ tasks s' !! i = Some (g, Sent o).
Proof.
  intros Hi Hr. assert (Hlt : (i < length (tasks s))%nat) by (by apply lookup_lt_Some in Hi).
  destruct p as [|o|o|o]; cbn [remaining run_actions Reconnect.step_action]; rewrite ?Hi.
  1: destruct r as [[]|e|]; [..|done]; cbn [dialed tasks waiters].
  all: repeat (cbn [tasks waiters]; rewrite ?list_lookup_insert_eq by (rewrite ?length_insert; done)).
  all: eexists _, _; split_and!; [reflexivity|reflexivity|].
  all: cbn [tasks]; rewrite ?list_lookup_insert_eq by (rewrite ?length_insert; done); done.
Qed.

(** C10: nobody waits for ever.  For every caller that waits for an outcome,
    the task it waits for exists and needs at most three more steps of its
    own, whatever the dial brings, after which the caller returns. *)
Theorem reconnect_never_strands n s w g i r :
  reach n s → Z.of_nat n < 2 ^ 64 → waiters s !! w = Some (g, i) → r ≠ Panic →
  ∃ p s1 s2, tasks s !! i = Some (g, p)
    ∧ run_actions checked_add backoff (remaining i r p) s = Some s1
    ∧ step_action (Observe w) s1 = Some s2.
Proof.
  intros Hr Hn Hw Hrp. pose proof (inv_reach n s Hr Hn) as H.
  destruct (inv_waiters _ _ H g i) as [p Hp]; [by eapply list_elem_of_lookup_2|].
  destruct (remaining_runs s i g p r Hp Hrp) as (s1 & o & Hs1 & Hw1 & Ht1).
  exists p, s1. cbn [Reconnect.step_action]. rewrite Hw1, Hw, Ht1. destruct o; eexists; by split_and!.
Qed.
End system.

(** ** A run *)

(** Two operations fail on the first session; one dials, both are answered. *)
Definition sample_actions : list action :=
  [Call 0; Call 0; Dial 0 (Ok tt); Call 0; Finish 0; Send 0; Observe 1; Call 1].

Definition add_instant (now : Z) (d : Duration) : option Z := Some (now + d).

Lemma run_actions_reach checked_add backoff l s n s' :
  reach checked_add backoff n s → run_actions checked_add backoff l s = Some s' →
  reach checked_add backoff (length l + n) s'.
Proof.
  revert s n. induction l as [|a l IH]; intros s n Hr H; cbn in *; [by injection H as <-|].
  destruct (step_action checked_add backoff a s) as [s1|] eqn:E; [|done].
  rewrite plus_n_Sm. eapply IH; [|exact H]. by eapply reach_step.
Qed.

Definition sample_state : Reconnect.t :=
  match run_actions add_instant 250 sample_actions initial with Some s => s | None => initial end.

Lemma sample_reach : reach add_instant 250 8 sample_state.
Proof. apply (run_actions_reach _ _ sample_actions initial 0); [constructor|reflexivity]. Qed.

Lemma reconnect_single_flight_witness :
  tasks sample_state = [(0, Sent Reconnected); (1, Dialing)] ∧ generation sample_state = 1
  ∧ installs sample_state = seqZ 0 1.
Proof.
  split; [reflexivity|]. split; [reflexivity|].
  apply (reconnect_single_flight add_instant 250 8 sample_state sample_reach). done.
Defined.

Lemma reconnect_never_strands_witness :
  waiters sample_state = [(0, 0%nat); (1, 1%nat)]
  ∧ ∃ p s1 s2, tasks sample_state !! 1%nat = Some (1, p)
    ∧ run_actions add_instant 250 (remaining 1 (Err (Error.Timeout 9)) p) sample_state = Some s1
    ∧ step_action add_instant 250 (Observe 1) s1 = Some s2.
Proof.
  split; [reflexivity|].
  apply (reconnect_never_strands add_instant 250 8 sample_state 1 1 1 (Err (Error.Timeout 9)) sample_reach); done.
Defined.
