(* ===== verification/Efs.v ===== *)
(** * AWS EFS authorization (src/aws_efs.rs)

    The client certificate an EFS file system with IAM authorization asks for:
    the checks on identifiers and credentials, the SigV4 request that is
    signed, the validity period and the extensions of the certificate.  Hash
    functions, the signature, DER encoding, calendar arithmetic and the
    certificate generator are third-party code and arguments here. *)

From stdpp Require Import sorting.
From S2P Require Import Prelude Proto Errors Owner.

(** Instants are nanoseconds since the Unix epoch. *)
Abbreviation instant := Z (only parsing).

Definition EFS_SERVICE_NAME : str := str_of "elasticfilesystem".
Definition EFS_CERT_NOT_BEFORE_SKEW : Duration := 15 * 60 * 10 ^ 9.
Definition EFS_CERT_LIFETIME : Duration := 3 * 60 * 60 * 10 ^ 9.
Definition EFS_SIGV4_EXPIRES_SECONDS : Z := 24 * 60 * 60.

Definition EFS_ACCESS_POINT_ID_OID : list Z := [1; 3; 6; 1; 4; 1; 4843; 7; 1].
Definition EFS_CLIENT_AUTH_OID : list Z := [1; 3; 6; 1; 4; 1; 4843; 7; 2].
Definition EFS_FILE_SYSTEM_ID_OID : list Z := [1; 3; 6; 1; 4; 1; 4843; 7; 3].
Definition SUBJECT_KEY_IDENTIFIER_OID : list Z := [2; 5; 29; 14].

(** ** Identifiers *)

Definition between (lo hi byte : Z) : bool := (lo <=? byte) && (byte <=? hi).

Definition is_lower_hex (byte : Z) : bool := between 48 57 byte || between 97 102 byte.

Definition is_valid_file_system_id (value : str) : bool :=
  match strip_prefix (str_of "fs-") value with
  | None => false
  | Some id => ((blen id =? 8) || (blen id =? 17)) && forallb is_lower_hex id
  end.

Definition is_valid_access_point_id (value : str) : bool :=
  match strip_prefix (str_of "fsap-") value with
  | None => false
  | Some id => (blen id =? 17) && forallb is_lower_hex id
  end.

(** [u8::is_ascii_alphanumeric], [is_ascii_lowercase], [is_ascii_digit] *)
Definition is_ascii_digit (byte : Z) : bool := between 48 57 byte.
Definition is_ascii_lowercase (byte : Z) : bool := between 97 122 byte.
Definition is_ascii_alphanumeric (byte : Z) : bool :=
  is_ascii_digit byte || is_ascii_lowercase byte || between 65 90 byte.

Definition is_valid_region (value : str) : bool :=
  negb (bool_decide (value = []))
  && match head value with Some byte => is_ascii_alphanumeric byte | None => false end
  && match last value with Some byte => is_ascii_alphanumeric byte | None => false end
  && forallb (λ byte, is_ascii_lowercase byte || is_ascii_digit byte || (byte =? 45)) value.

(** [value.trim().is_empty()]: nothing but white space, in its UTF-8 form. *)
Fixpoint all_white_space (value : str) : bool :=
  match value with
  | [] => true
  | b :: rest =>
      if between 9 13 b || (b =? 32) then all_white_space rest
      else
        match rest with
        | c :: rest =>
            if (b =? 194) && ((c =? 133) || (c =? 160)) then all_white_space rest
            else
              match rest with
              | d :: rest =>
                  if ((b =? 225) && (c =? 154) && (d =? 128))
                     || ((b =? 226) && (c =? 128) && (between 128 138 d || (d =? 168) || (d =? 169) || (d =? 175)))
                     || ((b =? 226) && (c =? 129) && (d =? 159))
                     || ((b =? 227) && (c =? 128) && (d =? 128))
                  then all_white_space rest else false
              | [] => false
              end
        | [] => false
        end
  end.

(** ** Credentials and times *)

Module Credentials.
Record t : Type := mk {
  access_key_id : str;
  secret_access_key : str;
  session_token : option str;
  expiry : option instant;
}.
End Credentials.

(** The nanosecond 0 is valid in every second, so the error arm of
    [replace_nanosecond] is not reached. *)
Definition truncate_system_time (time : instant) : res Error.t instant := Ok (time / 10 ^ 9 * 10 ^ 9).

Definition validate_credentials (credentials : Credentials.t) (now : instant) : res Error.t unit :=
  if bool_decide (Credentials.access_key_id credentials = []) then
    Err (Error.invalid_config "EFS IAM AWS access key id must not be empty")
  else if bool_decide (Credentials.secret_access_key credentials = []) then
    Err (Error.invalid_config "EFS IAM AWS secret access key must not be empty")
  else
    match Credentials.expiry credentials with
    | Some expiry =>
        let? expiry := truncate_system_time expiry in
        if expiry <=? now then Err (Error.invalid_config "EFS IAM AWS credentials are expired") else Ok tt
    | None => Ok tt
    end.

Definition certificate_not_after (credentials : Credentials.t) (now : instant) : res Error.t instant :=
  let default_not_after := now + EFS_CERT_LIFETIME in
  match Credentials.expiry credentials with
  | None => Ok default_not_after
  | Some expiry =>
      let? expiry := truncate_system_time expiry in
      if expiry <=? now then Err (Error.invalid_config "EFS IAM AWS credentials are expired")
      else Ok (Z.min default_not_after expiry)
  end.

(** ** Text *)

Definition HEX_LOWER : str := str_of "0123456789abcdef".
Definition HEX_UPPER : str := str_of "0123456789ABCDEF".

(** [HEX[i]], which panics out of range: a nibble never is. *)
Definition hex_digit (table : str) (nibble : Z) : Z := default 0 (table !! Z.to_nat nibble).

Definition hex_lower (bytes : bytes) : str :=
  mjoin ((λ byte, [hex_digit HEX_LOWER (Z.shiftr byte 4); hex_digit HEX_LOWER (Z.land byte 15)]) <$> bytes).

Definition unreserved (byte : Z) : bool :=
  between 65 90 byte || between 97 122 byte || between 48 57 byte
  || (byte =? 45) || (byte =? 95) || (byte =? 46) || (byte =? 126).

Definition encode_byte (byte : Z) : str :=
  if unreserved byte then [byte]
  else [37; hex_digit HEX_UPPER (Z.shiftr byte 4); hex_digit HEX_UPPER (Z.land byte 15)].

Definition efs_query_encode (value : str) : str := mjoin (encode_byte <$> value).

(** [{:0width}] *)
Definition padded (width : nat) (n : Z) : str :=
  let digits := decimal n in replicate (width - length digits) 48 ++ digits.

(** [str]'s order, byte by byte. *)
Fixpoint str_leb (a b : str) : bool :=
  match a, b with
  | [], _ => true
  | _ :: _, [] => false
  | x :: a, y :: b => if x =? y then str_leb a b else x <? y
  end.

Definition key_le (a b : str * str) : Prop := str_leb a.1 b.1 = true.
#[export] Instance key_le_dec a b : Decision (key_le a b).
Proof. unfold key_le. apply _. Defined.

(** The fields of a time in UTC ([year], [month], [day], [hour], [minute],
    [second]). *)
Module Civil.
Record t : Type := mk { year : Z; month : Z; day : Z; hour : Z; minute : Z; second : Z }.
End Civil.

Module Extension.
Record t : Type := mk { oid : list Z; content : bytes }.
End Extension.

Module CertificateParams.
Record t : Type := mk {
  not_before : instant;
  not_after : instant;
  common_name : str;
  custom_extensions : list Extension.t;
}.
End CertificateParams.

Module EfsIamConfig.
Record t : Type := mk { file_system_id : str; region : str; access_point_id : option str }.

Definition new (file_system_id region : str) : t := mk file_system_id region None.

Definition with_access_point_id (id : str) (self : t) : t := mk (file_system_id self) (region self) (Some id).

Definition validate (self : t) : res Error.t unit :=
  if negb (is_valid_file_system_id (file_system_id self)) then
    Err (Error.invalid_config "EFS IAM file_system_id must be fs- followed by 8 or 17 lowercase hex digits")
  else if negb (is_valid_region (region self)) then
    Err (Error.invalid_config "EFS IAM region must contain lowercase ASCII letters, digits, and interior hyphens")
  else if match access_point_id self with Some id => negb (is_valid_access_point_id id) | None => false end then
    Err (Error.invalid_config "EFS IAM access_point_id must match fsap- followed by 17 lowercase hex digits")
  else Ok tt.
End EfsIamConfig.

Module EfsIamTlsMaterial.
Record t : Type := mk { certificate_der : bytes; private_key_der : bytes }.
End EfsIamTlsMaterial.

Section efs.
Context (civil : instant → Civil.t) (sha1 sha256 : bytes → bytes)
  (generate_signing_key : str → instant → str → str → bytes) (calculate_signature : bytes → str → str).
Context {KeyPair : Type} (der_bytes : KeyPair → bytes) (serialize_der : KeyPair → bytes)
  (der_utf8 : str → bytes) (der_octets : bytes → bytes) (der_utctime : instant → bytes)
  (der_context0 : bytes → bytes) (der_sequence : list bytes → bytes)
  (self_signed : CertificateParams.t → KeyPair → option bytes).

Definition format_sigv4_date (time : instant) : str :=
  let c := civil time in padded 4 (Civil.year c) ++ padded 2 (Civil.month c) ++ padded 2 (Civil.day c).

Definition format_sigv4_datetime (time : instant) : str :=
  let c := civil time in
  format_sigv4_date time ++ str_of "T" ++ padded 2 (Civil.hour c) ++ padded 2 (Civil.minute c)
  ++ padded 2 (Civil.second c) ++ str_of "Z".

Definition sha256_hex (b : bytes) : str := hex_lower (sha256 b).
Definition public_key_sha1 (key_pair : KeyPair) : bytes := sha1 (der_bytes key_pair).
Definition public_key_sha1_hex (key_pair : KeyPair) : str := hex_lower (public_key_sha1 key_pair).

Definition credential_scope (now : instant) (region service : str) : str :=
  format_sigv4_date now ++ str_of "/" ++ region ++ str_of "/" ++ service ++ str_of "/aws4_request".

(** The query parameters before they are sorted. *)
Definition query_params (credentials : Credentials.t) (public_key_hash credential_scope : str) (now : instant)
  : list (str * str) :=
  [(str_of "Action", str_of "Connect");
   (str_of "PublicKeyHash", efs_query_encode public_key_hash);
   (str_of "X-Amz-Algorithm", str_of "AWS4-HMAC-SHA256");
   (str_of "X-Amz-Credential",
    efs_query_encode (Credentials.access_key_id credentials ++ str_of "/" ++ credential_scope));
   (str_of "X-Amz-Date", efs_query_encode (format_sigv4_datetime now));
   (str_of "X-Amz-Expires", decimal EFS_SIGV4_EXPIRES_SECONDS);
   (str_of "X-Amz-SignedHeaders", str_of "host")]
  ++ match Credentials.session_token credentials with
     | Some session_token => [(str_of "X-Amz-Security-Token", efs_query_encode session_token)]
     | None => []
     end.

Definition canonical_query (params : list (str * str)) : str :=
  join_with (str_of "&") ((λ '(key, value), key ++ str_of "=" ++ value) <$> merge_sort key_le params).

Definition newline : str := [10].

Definition efs_canonical_request (file_system_id : str) (credentials : Credentials.t)
    (public_key_hash credential_scope : str) (now : instant) : str :=
  str_of "GET" ++ newline ++ str_of "/" ++ newline
  ++ canonical_query (query_params credentials public_key_hash credential_scope now) ++ newline
  ++ str_of "host:" ++ file_system_id ++ newline ++ str_of "host" ++ newline ++ sha256_hex [].

Definition efs_string_to_sign (canonical_request credential_scope : str) (now : instant) : str :=
  str_of "AWS4-HMAC-SHA256" ++ newline ++ format_sigv4_datetime now ++ newline ++ credential_scope ++ newline
  ++ sha256_hex canonical_request.

Definition sign_efs_connect (file_system_id region : str) (credentials : Credentials.t)
    (public_key_hash : str) (now : instant) : str :=
  let credential_scope := credential_scope now region EFS_SERVICE_NAME in
  let canonical_request :=
    efs_canonical_request file_system_id credentials public_key_hash credential_scope now in
  let string_to_sign := efs_string_to_sign canonical_request credential_scope now in
  let signing_key :=
    generate_signing_key (Credentials.secret_access_key credentials) now region EFS_SERVICE_NAME in
  calculate_signature signing_key string_to_sign.

Definition sign_connect (self : EfsIamConfig.t) (credentials : Credentials.t) (public_key_hash : str)
    (now : instant) : str :=
  sign_efs_connect (EfsIamConfig.file_system_id self) (EfsIamConfig.region self) credentials public_key_hash now.

Definition efs_client_auth_extension (credentials : Credentials.t) (signature : str) (now : instant)
  : Extension.t :=
  Extension.mk EFS_CLIENT_AUTH_OID
    (der_sequence
       ([der_utf8 (Credentials.access_key_id credentials); der_octets signature; der_utctime now]
        ++ match Credentials.session_token credentials with
           | Some session_token => [der_context0 (der_utf8 session_token)]
           | None => []
           end)).

Definition utf8_extension (oid : list Z) (value : str) : Extension.t := Extension.mk oid (der_utf8 value).

Definition subject_key_identifier_extension (key_pair : KeyPair) : Extension.t :=
  Extension.mk SUBJECT_KEY_IDENTIFIER_OID (der_octets (public_key_sha1 key_pair)).

Definition custom_extensions (self : EfsIamConfig.t) (key_pair : KeyPair) (credentials : Credentials.t)
    (signature : str) (now : instant) : list Extension.t :=
  [subject_key_identifier_extension key_pair]
  ++ match EfsIamConfig.access_point_id self with
     | Some access_point_id => [utf8_extension EFS_ACCESS_POINT_ID_OID access_point_id]
     | None => []
     end
  ++ [efs_client_auth_extension credentials signature now;
      utf8_extension EFS_FILE_SYSTEM_ID_OID (EfsIamConfig.file_system_id self)].

Definition certificate_der (self : EfsIamConfig.t) (key_pair : KeyPair) (common_name : str)
    (credentials : Credentials.t) (signature : str) (now : instant) : res Error.t bytes :=
  let? not_after := certificate_not_after credentials now in
  let params := CertificateParams.mk (now - EFS_CERT_NOT_BEFORE_SKEW) not_after common_name
                  (custom_extensions self key_pair credentials signature now) in
  match self_signed params key_pair with
  | Some certificate => Ok certificate
  | None => Err (Error.invalid_config "failed to generate EFS IAM certificate: {err}")
  end.

(** [provided] is what the credentials provider answers, [key_pair] what the
    key generator does. *)
Definition tls_client_auth_material_at (self : EfsIamConfig.t) (common_name : str) (now : instant)
    (provided : option Credentials.t) (key_pair : option KeyPair) : res Error.t EfsIamTlsMaterial.t :=
  match provided with
  | None => Err (Error.invalid_config "failed to load AWS credentials: {err}")
  | Some credentials =>
      let? _ := validate_credentials credentials now in
      match key_pair with
      | None => Err (Error.invalid_config "failed to generate EFS IAM key: {err}")
      | Some key_pair =>
          let public_key_hash := public_key_sha1_hex key_pair in
          let signature := sign_connect self credentials public_key_hash now in
          let? certificate := certificate_der self key_pair common_name credentials signature now in
          Ok (EfsIamTlsMaterial.mk certificate (serialize_der key_pair))
      end
  end.

Definition tls_client_auth_material (self : EfsIamConfig.t) (common_name : str) (clock : instant)
    (provided : option Credentials.t) (key_pair : option KeyPair) : res Error.t EfsIamTlsMaterial.t :=
  let? _ := EfsIamConfig.validate self in
  if all_white_space common_name then
    Err (Error.invalid_config "EFS IAM certificate common name must not be empty")
  else
    let? now := truncate_system_time clock in
    tls_client_auth_material_at self common_name now provided key_pair.
End efs.

(** ** Percent encoding *)

(** The value of an upper-case hexadecimal digit. *)
Definition hex_value (c : Z) : option Z :=
  if between 48 57 c then Some (c - 48) else if between 65 70 c then Some (c - 55) else None.

(** What a server reads in a query parameter. *)
Fixpoint percent_decode (s : str) : option bytes :=
  match s with
  | [] => Some []
  | c :: rest =>
      if c =? 37 then
        match rest with
        | h :: l :: rest =>
            match hex_value h, hex_value l, percent_decode rest with
            | Some h, Some l, Some b => Some (16 * h + l :: b)
            | _, _, _ => None
            end
        | _ => None
        end
      else match percent_decode rest with Some b => Some (c :: b) | None => None end
  end.

Lemma nibble_value n : 0 ≤ n < 16 → hex_value (hex_digit HEX_UPPER n) = Some n.
Proof.
  intros H. assert (Hn : n ∈ seqZ 0 16) by (apply elem_of_seqZ; lia). revert Hn.
  change (seqZ 0 16) with [0; 1; 2; 3; 4; 5; 6; 7; 8; 9; 10; 11; 12; 13; 14; 15].
  rewrite !elem_of_cons, elem_of_nil. intros Hn. repeat destruct Hn as [->|Hn]; done.
Qed.

Lemma decode_encoded_byte b rest :
  is_u8 b → percent_decode (encode_byte b ++ rest) =
  match percent_decode rest with Some l => Some (b :: l) | None => None end.
Proof.
  intros Hb. unfold encode_byte. destruct (unreserved b) eqn:Hu; cbn [app percent_decode].
  - destruct (Z.eqb_spec b 37) as [->|]; [by vm_compute in Hu|done].
  - rewrite Z.eqb_refl, !nibble_value.
    + destruct (percent_decode rest); [|done]. do 2 f_equal.
      rewrite Z.shiftr_div_pow2 by lia. change 15 with (Z.ones 4). rewrite Z.land_ones by lia.
      change (2 ^ 4) with 16. pose proof (Z.div_mod b 16). lia.
    + change 15 with (Z.ones 4). rewrite Z.land_ones by lia. apply Z.mod_pos_bound. lia.
    + rewrite Z.shiftr_div_pow2 by lia. change (2 ^ 4) with 16. unfold is_u8, u8_max in Hb.
      split; [apply Z.div_pos; lia|apply Z.div_lt_upper_bound; lia].
Qed.

Lemma hex_digit_unreserved n : 0 ≤ n < 16 → unreserved (hex_digit HEX_UPPER n) = true.
Proof.
  intros H. assert (Hn : n ∈ seqZ 0 16) by (apply elem_of_seqZ; lia). revert Hn.
  change (seqZ 0 16) with [0; 1; 2; 3; 4; 5; 6; 7; 8; 9; 10; 11; 12; 13; 14; 15].
  rewrite !elem_of_cons, elem_of_nil. intros Hn. repeat destruct Hn as [->|Hn]; done.
Qed.

(** the encoding of query parameters loses nothing and is safe in a
    query: for every string, the encoded text holds only unreserved characters
    and percent signs, so it cannot introduce a separator of its own, and
    decoding it gives the string back. *)
Theorem query_encode_roundtrip value :
  bytes_wf value →
  percent_decode (efs_query_encode value) = Some value
  ∧ Forall (λ c, unreserved c = true ∨ c = 37) (efs_query_encode value).
Proof.
  intros Hv. unfold efs_query_encode. induction Hv as [|b value Hb Hv [IH1 IH2]]; [by split|].
  rewrite fmap_cons, mjoin_cons. rewrite decode_encoded_byte, IH1 by done. split; [done|].
  apply Forall_app. split; [|done]. unfold encode_byte. destruct (unreserved b) eqn:Hu; [by constructor; [left|]|].
  assert (H1 : 0 ≤ Z.shiftr b 4 < 16).
  { rewrite Z.shiftr_div_pow2 by lia. change (2 ^ 4) with 16. unfold is_u8, u8_max in Hb.
    split; [apply Z.div_pos; lia|apply Z.div_lt_upper_bound; lia]. }
  assert (H2 : 0 ≤ Z.land b 15 < 16).
  { change 15 with (Z.ones 4). rewrite Z.land_ones by lia. apply Z.mod_pos_bound. lia. }
  rewrite !Forall_cons. split_and!; [by right|left; by apply hex_digit_unreserved..|apply Forall_nil_2].
Qed.

Lemma query_encode_roundtrip_witness :
  efs_query_encode (str_of "AK/a b") = str_of "AK%2Fa%20b"
  ∧ percent_decode (efs_query_encode (str_of "AK/a b")) = Some (str_of "AK/a b").
Proof.
  split; [reflexivity|]. apply (query_encode_roundtrip (str_of "AK/a b")). repeat constructor; by vm_compute.
Defined.

(** ** The certificate *)

Section certificate.
Context (civil : instant → Civil.t) (sha1 sha256 : bytes → bytes)
  (generate_signing_key : str → instant → str → str → bytes) (calculate_signature : bytes → str → str).
Context {KeyPair : Type} (der_bytes : KeyPair → bytes) (serialize_der : KeyPair → bytes)
  (der_utf8 : str → bytes) (der_octets : bytes → bytes) (der_utctime : instant → bytes)
  (der_context0 : bytes → bytes) (der_sequence : list bytes → bytes)
  (self_signed : CertificateParams.t → KeyPair → option bytes).

(** The certificate is for this configuration and key: it is valid now, for
    three hours at most, not beyond the credentials, and carries the signature
    of the request that names the key. *)
Definition certifies (self : EfsIamConfig.t) (common_name : str) (clock : instant) (c : Credentials.t)
    (key : KeyPair) (p : CertificateParams.t) : Prop :=
  let now := clock / 10 ^ 9 * 10 ^ 9 in
  CertificateParams.not_before p = now - EFS_CERT_NOT_BEFORE_SKEW
  ∧ now < CertificateParams.not_after p ≤ now + EFS_CERT_LIFETIME
  ∧ (∀ expiry, Credentials.expiry c = Some expiry → CertificateParams.not_after p ≤ expiry)
  ∧ CertificateParams.common_name p = common_name
  ∧ efs_client_auth_extension der_utf8 der_octets der_utctime der_context0 der_sequence c
      (sign_efs_connect civil sha256 generate_signing_key calculate_signature
         (EfsIamConfig.file_system_id self) (EfsIamConfig.region self) c
         (public_key_sha1_hex sha1 der_bytes key) now) now ∈ CertificateParams.custom_extensions p
  ∧ (∀ id, utf8_extension der_utf8 EFS_ACCESS_POINT_ID_OID id ∈ CertificateParams.custom_extensions p ↔
      ∃ id', EfsIamConfig.access_point_id self = Some id' ∧ der_utf8 id' = der_utf8 id).

Lemma not_after_bounds c now t :
  certificate_not_after c now = Ok t →
  now < t ≤ now + EFS_CERT_LIFETIME ∧ (∀ expiry, Credentials.expiry c = Some expiry → t ≤ expiry).
Proof using.
  unfold certificate_not_after, truncate_system_time, EFS_CERT_LIFETIME.
  destruct (Credentials.expiry c) as [x|]; cbn.
  - destruct (Z.leb_spec (x / 10 ^ 9 * 10 ^ 9) now); [done|]. intros [= <-].
    pose proof (Z.mul_div_le x (10 ^ 9) ltac:(lia)). split; [lia|]. intros ? [= <-]. lia.
  - intros [= <-]. split; [lia|done].
Qed.

Lemma access_point_extension self key c signature now id :
  utf8_extension der_utf8 EFS_ACCESS_POINT_ID_OID id ∈
    custom_extensions sha1 der_bytes der_utf8 der_octets der_utctime der_context0 der_sequence self key c
      signature now ↔
  ∃ id', EfsIamConfig.access_point_id self = Some id' ∧ der_utf8 id' = der_utf8 id.
Proof using.
  unfold custom_extensions. destruct (EfsIamConfig.access_point_id self) as [ap|]; cbn [app];
    rewrite !elem_of_cons, elem_of_nil; split.
  - intros [H|[H|[H|[H|[]]]]]; try done. injection H as H. by exists ap.
  - intros (id' & [= <-] & H). right. left. unfold utf8_extension. by rewrite H.
  - by intros [H|[H|[H|[]]]].
  - by intros (id' & H & _).
Qed.

(** Producing material never panics. *)
Lemma tls_client_auth_material_total self common_name clock provided key_pair :
  tls_client_auth_material civil sha1 sha256 generate_signing_key calculate_signature der_bytes serialize_der
    der_utf8 der_octets der_utctime der_context0 der_sequence self_signed
    self common_name clock provided key_pair ≠ Panic.
Proof using.
  unfold tls_client_auth_material.
  assert (Hv : EfsIamConfig.validate self ≠ Panic) by (unfold EfsIamConfig.validate; by repeat case_match).
  destruct (EfsIamConfig.validate self); cbn [rbind]; [|done..].
  destruct (all_white_space common_name); [done|]. cbn [rbind truncate_system_time].
  unfold tls_client_auth_material_at, validate_credentials, certificate_der, certificate_not_after.
  destruct provided as [c|]; [|done]. do 2 (case_bool_decide; [done|]).
  destruct (Credentials.expiry c) as [expiry|]; cbn [rbind truncate_system_time];
    [case_match; [done|]|]; cbn [rbind]; by repeat (case_match; cbn [rbind]).
Qed.

(** The client certificate is bounded by what authorizes it.  When
    material is produced, the identifiers are well formed, the certificate is
    valid at the time of signing, for at most three hours and never beyond the
    expiry of the credentials, it carries the SigV4 signature made with them
    for this file system and key, and an access point exactly when one is
    configured. *)
Theorem certificate_bounded self common_name clock provided key_pair m :
  tls_client_auth_material civil sha1 sha256 generate_signing_key calculate_signature der_bytes serialize_der
    der_utf8 der_octets der_utctime der_context0 der_sequence self_signed
    self common_name clock provided key_pair = Ok m →
  EfsIamConfig.validate self = Ok tt
  ∧ ∃ c key p, provided = Some c ∧ key_pair = Some key
      ∧ certifies self common_name clock c key p
      ∧ self_signed p key = Some (EfsIamTlsMaterial.certificate_der m)
      ∧ EfsIamTlsMaterial.private_key_der m = serialize_der key.
Proof.
  unfold tls_client_auth_material. destruct (EfsIamConfig.validate self) as [[]|e|] eqn:Hv; [|done..]. cbn [rbind].
  destruct (all_white_space common_name); [done|]. cbn [rbind truncate_system_time].
  unfold tls_client_auth_material_at. destruct provided as [c|]; [|done].
  destruct (validate_credentials _ _) as [[]|e|]; [|done..]. cbn [rbind]. destruct key_pair as [key|]; [|done].
  unfold certificate_der. destruct (certificate_not_after _ _) as [t|e|] eqn:Ht; [|done..]. cbn [rbind].
  apply not_after_bounds in Ht as [Hb He].
  destruct (self_signed _ key) as [cert|] eqn:Hs; [|done]. intros [= <-].
  split; [done|]. eexists c, key, _. split_and!; [done|done| |exact Hs|done].
  split_and!; cbn [CertificateParams.not_before CertificateParams.not_after CertificateParams.common_name
    CertificateParams.custom_extensions]; [done|lia|lia|exact He|done|..].
  - unfold custom_extensions. rewrite !elem_of_app. right. right. by left.
  - intros id. apply access_point_extension.
Qed.
End certificate.

(** Third-party functions that just keep their arguments apart. *)
Lemma certificate_bounded_witness :
  let material := tls_client_auth_material (λ _, Civil.mk 2024 1 2 3 4 5) (λ b, b) (λ b, b) (λ _ _ _ _, []) (λ _ s, s)
    (λ k : bytes, k) (λ k, k) (λ s, s) (λ b, b) (λ _, []) (λ b, b) mjoin
    (λ p k, Some [CertificateParams.not_after p]) in
  let config := EfsIamConfig.new (str_of "fs-0123abcd") (str_of "eu-west-1") in
  let credentials := Credentials.mk (str_of "AK") (str_of "SK") None (Some (3600 * 10 ^ 9 + 5)) in
  material config (str_of "host") 7 (Some credentials) (Some [1]) = Ok (EfsIamTlsMaterial.mk [3600 * 10 ^ 9] [1])
  ∧ EfsIamConfig.validate config = Ok tt.
Proof.
  intros material config credentials.
  assert (H : material config (str_of "host") 7 (Some credentials) (Some [1])
    = Ok (EfsIamTlsMaterial.mk [3600 * 10 ^ 9] [1])) by (vm_compute; reflexivity).
  split; [exact H|]. unfold material in H. apply certificate_bounded in H as [Hv _]. exact Hv.
Defined.
