(* ===== verification/Tls.v ===== *)
(** * Opening the transport (src/rpc.rs, src/aws_efs.rs)

    TLS settings, what becomes of them in the TLS client, and
    [RpcClient::connect] up to the point where its two tasks run
    (Transport.v has what they do).  The TLS library and the network are
    arguments: which server names it accepts, which certificates and keys it
    can parse, its bundled roots, and the answer to each step of opening a
    connection, given the steps before it. *)

From S2P Require Import Prelude Proto Errors Xdr Ops Rpc Owner Efs.

Module TlsClientAuth.
Inductive t : Type := EfsIam (config : EfsIamConfig.t).
End TlsClientAuth.

Module TlsConfig.
Record t : Type := mk {
  server_name : str;
  root_certificates_der : list bytes;
  client_auth : option TlsClientAuth.t;
}.

Definition new (server_name : str) : t := mk server_name [] None.
Definition with_root_certificate_der (certificate_der : bytes) (self : t) : t :=
  mk (server_name self) (root_certificates_der self ++ [certificate_der]) (client_auth self).
Definition with_efs_iam (config : EfsIamConfig.t) (self : t) : t :=
  mk (server_name self) (root_certificates_der self) (Some (TlsClientAuth.EfsIam config)).
End TlsConfig.

Module RpcTransport.
Inductive t : Type := Plaintext | Tls (config : TlsConfig.t).
End RpcTransport.

(** [rustls::sign::CertifiedKey] and [rustls::ClientConfig], as far as the
    client fills them in. *)
Module CertifiedKey.
Record t {SigningKey : Type} : Type := mk { certificates : list bytes; signing_key : SigningKey }.
Arguments t : clear implicits.
End CertifiedKey.

Module ClientConfig.
Record t {Root SigningKey : Type} : Type := mk {
  roots : list Root;
  client_certificate : option (CertifiedKey.t SigningKey);
}.
Arguments t : clear implicits.
End ClientConfig.

Lemma ok_or_total {E A} (o : option A) (e : E) : ok_or o e ≠ Panic.
Proof. by destruct o. Qed.

Lemma prepare_total stamp auth : RpcClient.prepare stamp auth ≠ Panic.
Proof.
  assert (Hlen : AuthSys.encoded_body_len auth ≠ Panic).
  { unfold AuthSys.encoded_body_len. destruct (checked_mul _ _); [|done]. apply ok_or_total. }
  assert (Hv : AuthSys.validate auth ≠ Panic).
  { unfold AuthSys.validate. do 2 (case_match; [done|]).
    destruct (AuthSys.encoded_body_len auth); cbn [rbind]; by try case_match. }
  unfold RpcClient.prepare. destruct (AuthSys.validate auth) as [[]|e|] eqn:Hok; [| |done].
  - rewrite (encode_body_ok _ _ Hok). cbn [rbind]. unfold rpc_call_header_template.
    by destruct (_ <=? u32_max).
  - unfold AuthSys.encode_body. by rewrite Hok.
Qed.

Section tls.
Context {Addr ServerName Root SigningKey : Type}.
(** The TLS library. *)
Context (server_name_of : str → option ServerName) (TLS_SERVER_ROOTS : list Root)
  (trust_anchor : bytes → option Root) (safe_default_protocol_versions : bool)
  (any_supported_type : bytes → option SigningKey).
(** [EfsIamConfig::tls_client_auth_material] at the time of the connection. *)
Context (material : EfsIamConfig.t → str → res Error.t EfsIamTlsMaterial.t).

Notation ClientConfig := (ClientConfig.t Root SigningKey).

(** The steps of opening a connection. *)
Inductive step : Type :=
| TcpConnect (addr : Addr)
| SetNoDelay
| Handshake (name : ServerName) (config : ClientConfig).

Context (answer : list step → step → option string).

(** [step().await?]: the steps are kept in order; an I/O error is returned. *)
Definition perform (s : step) : st (list step) Error.t unit := λ log,
  (match answer log s with None => Ok tt | Some kind => Err (Error.Io kind) end, log ++ [s]).

(** The boxed halves of the stream. *)
Inductive Stream : Type :=
| PlainStream
| TlsStream (name : ServerName) (config : ClientConfig).

Definition into_rustls (self : EfsIamTlsMaterial.t) : res Error.t (CertifiedKey.t SigningKey) :=
  let? signing_key :=
    ok_or (any_supported_type (EfsIamTlsMaterial.private_key_der self))
      (Error.invalid_config "failed to parse generated EFS IAM key: {err}") in
  Ok (CertifiedKey.mk _ [EfsIamTlsMaterial.certificate_der self] signing_key).

Definition tls_server_name (config : TlsConfig.t) : res Error.t ServerName :=
  ok_or (server_name_of (TlsConfig.server_name config))
    (Error.invalid_config "invalid TLS server name: {}").

(** The loop over the configured roots. *)
Fixpoint add_roots (roots : list Root) (certificates : list bytes) : res Error.t (list Root) :=
  match certificates with
  | [] => Ok roots
  | certificate_der :: certificates =>
      match trust_anchor certificate_der with
      | Some root => add_roots (roots ++ [root]) certificates
      | None => Err (Error.invalid_config "invalid TLS root certificate: {err}")
      end
  end.

Definition tls_client_config (config : TlsConfig.t) : res Error.t ClientConfig :=
  let? roots := add_roots TLS_SERVER_ROOTS (TlsConfig.root_certificates_der config) in
  if negb safe_default_protocol_versions then
    Err (Error.invalid_config "invalid TLS protocol versions: {err}")
  else
    match TlsConfig.client_auth config with
    | Some (TlsClientAuth.EfsIam efs_config) =>
        let? material := material efs_config (TlsConfig.server_name config) in
        let? certified_key := into_rustls material in
        Ok (ClientConfig.mk _ _ roots (Some certified_key))
    | None => Ok (ClientConfig.mk _ _ roots None)
    end.

Definition connect_transport (addr : Addr) (transport : RpcTransport.t) : st (list step) Error.t Stream :=
  let! _ := perform (TcpConnect addr) in
  let! _ := perform SetNoDelay in
  match transport with
  | RpcTransport.Plaintext => sret PlainStream
  | RpcTransport.Tls config =>
      let! server_name := slift (tls_server_name config) in
      let! tls_config := slift (tls_client_config config) in
      let! _ := perform (Handshake server_name tls_config) in
      sret (TlsStream server_name tls_config)
  end.

(** A client whose tasks have been started. *)
Record Connected : Type := mk_connected {
  client : RpcClient.t;
  stream : Stream;
  max_response_bytes : Z;
  queue_capacity : Z;
  transport_closed : bool;
}.

(** [mpsc::channel] panics over an eighth of the address space; the capacities
    in use are session slot counts, where doubling does not overflow. *)
Definition MAX_PERMITS : Z := Z.shiftr usize_max 3.

Definition connect (stamp : Z) (addr : Addr) (auth : AuthSys.t) (max_response_bytes pending_capacity : Z)
    (transport : RpcTransport.t) : st (list step) Error.t Connected :=
  let! client := slift (RpcClient.prepare stamp auth) in
  let! stream := connect_transport addr transport in
  let capacity := Z.max pending_capacity 1 * 2 in
  if MAX_PERMITS <? capacity then spanic
  else sret (mk_connected client stream max_response_bytes capacity false).

(** [RpcClient::reduce_max_response_bytes] *)
Definition reduce_max_response_bytes (limit : Z) (self : Connected) : Connected :=
  mk_connected (client self) (stream self) (Z.min (max_response_bytes self) limit) (queue_capacity self)
    (transport_closed self).

(** ** What a connection stands for *)

(** A TLS client configured as asked: all configured roots on top of the
    bundled ones, and a client certificate exactly when one is asked for, made
    for this server's name. *)
Definition as_configured (config : TlsConfig.t) (name : ServerName) (c : ClientConfig) : Prop :=
  server_name_of (TlsConfig.server_name config) = Some name
  ∧ (∃ added, ClientConfig.roots c = TLS_SERVER_ROOTS ++ added
       ∧ Forall2 (λ der root, trust_anchor der = Some root) (TlsConfig.root_certificates_der config) added)
  ∧ match TlsConfig.client_auth config with
    | None => ClientConfig.client_certificate c = None
    | Some (TlsClientAuth.EfsIam efs) =>
        ∃ m key, material efs (TlsConfig.server_name config) = Ok m
          ∧ any_supported_type (EfsIamTlsMaterial.private_key_der m) = Some key
          ∧ ClientConfig.client_certificate c
            = Some (CertifiedKey.mk _ [EfsIamTlsMaterial.certificate_der m] key)
    end.

Lemma add_roots_spec certificates : ∀ roots,
  match add_roots roots certificates with
  | Ok roots' => ∃ added, roots' = roots ++ added
      ∧ Forall2 (λ der root, trust_anchor der = Some root) certificates added
  | Err _ => Exists (λ der, trust_anchor der = None) certificates
  | Panic => False
  end.
Proof.
  induction certificates as [|der certificates IH]; intros roots; cbn [add_roots].
  { exists []. split; [by rewrite app_nil_r|constructor]. }
  destruct (trust_anchor der) as [root|] eqn:Hd; [|by left]. specialize (IH (roots ++ [root])).
  destruct (add_roots (roots ++ [root]) certificates) as [roots'|e|]; [|by right|done].
  destruct IH as (added & -> & Ha). exists (root :: added). rewrite <- app_assoc. split; [done|]. by constructor.
Qed.

Lemma tls_client_config_spec config name : 
  (∀ efs common_name, material efs common_name ≠ Panic) →
  tls_server_name config = Ok name →
  match tls_client_config config with
  | Ok c => as_configured config name c
  | Err _ => True
  | Panic => False
  end.
Proof.
  intros Hm Hn. unfold tls_client_config, as_configured.
  pose proof (add_roots_spec (TlsConfig.root_certificates_der config) TLS_SERVER_ROOTS) as Hr.
  destruct (add_roots _ _) as [roots|e|]; cbn [rbind]; [|done..].
  destruct safe_default_protocol_versions; cbn [negb]; [|done].
  assert (Hname : server_name_of (TlsConfig.server_name config) = Some name).
  { unfold tls_server_name, ok_or in Hn. destruct (server_name_of _); by simplify_eq. }
  destruct (TlsConfig.client_auth config) as [[efs]|]; [|done].
  specialize (Hm efs (TlsConfig.server_name config)). destruct (material _ _) as [m|e|]; cbn [rbind]; [|done..].
  unfold into_rustls, ok_or. destruct (any_supported_type _) as [key|] eqn:Hk; cbn [rbind]; [|done].
  split_and!; [done|done|]. by exists m, key.
Qed.

(** The steps a connection may take: none before the credentials encode; the
    handshake, with the configured name and trust, last. *)
Definition opened (addr : Addr) (transport : RpcTransport.t) (steps : list step) (s : Stream) : Prop :=
  match transport with
  | RpcTransport.Plaintext => steps = [TcpConnect addr; SetNoDelay] ∧ s = PlainStream
  | RpcTransport.Tls config =>
      ∃ name c, steps = [TcpConnect addr; SetNoDelay; Handshake name c] ∧ s = TlsStream name c
        ∧ as_configured config name c
  end.

Definition attempted (addr : Addr) (transport : RpcTransport.t) (steps : list step) : Prop :=
  steps `prefix_of` [TcpConnect addr; SetNoDelay]
  ∨ ∃ config name c, transport = RpcTransport.Tls config
      ∧ steps = [TcpConnect addr; SetNoDelay; Handshake name c] ∧ as_configured config name c.

Lemma connect_transport_spec addr transport log :
  (∀ efs common_name, material efs common_name ≠ Panic) →
  match connect_transport addr transport log with
  | (Ok s, log') => ∃ steps, log' = log ++ steps ∧ opened addr transport steps s
  | (Err _, log') => ∃ steps, log' = log ++ steps ∧ attempted addr transport steps
  | (Panic, _) => False
  end.
Proof.
  intros Hm. unfold connect_transport, sbind at 1, perform.
  destruct (answer log (TcpConnect addr)).
  { eexists. split; [done|]. left. by exists [SetNoDelay]. }
  unfold sbind at 1. destruct (answer _ SetNoDelay).
  { eexists. rewrite <- app_assoc. split; [done|]. by left. }
  destruct transport as [|config].
  { eexists. rewrite <- app_assoc. by split. }
  unfold sbind at 1, slift. destruct (tls_server_name config) as [name|e|] eqn:Hn.
  - pose proof (tls_client_config_spec config name Hm Hn) as Hc. unfold sbind at 1, slift.
    destruct (tls_client_config config) as [c|e|]; [| |done].
    + unfold sbind. destruct (answer _ (Handshake name c)); eexists; rewrite <- !app_assoc; (split; [done|]).
      * right. by exists config, name, c.
      * by exists name, c.
    + eexists. rewrite <- app_assoc. split; [done|]. by left.
  - eexists. rewrite <- app_assoc. split; [done|]. by left.
  - unfold tls_server_name, ok_or in Hn. by destruct (server_name_of _).
Qed.
End tls.

(** C25: TLS is never downgraded.  [RpcClient::connect] opens no connection
    unless the AUTH_SYS credential encodes; a client configured for TLS works
    over a stream only after a handshake for exactly the configured server
    name, that trusts the bundled roots and every configured one, and presents
    a client certificate exactly when EFS IAM is configured; no handshake is
    ever begun with other settings, and a failure leaves no client; the new
    client is open and its record limit is the one asked for. *)
Theorem tls_never_downgraded {Addr ServerName Root SigningKey : Type}
    (server_name_of : str → option ServerName) (roots : list Root) (trust_anchor : bytes → option Root) versions
    (any_supported_type : bytes → option SigningKey) material
    (answer : list (step (Addr:=Addr)) → step → option string)
    stamp (addr : Addr) auth max_response pending_capacity transport log
    (Hmaterial : ∀ efs common_name, material efs common_name ≠ Panic)
    (Hcapacity : 0 ≤ pending_capacity ≤ 2 ^ 32) :
  match connect server_name_of roots trust_anchor versions any_supported_type material answer stamp addr auth
          max_response pending_capacity transport log with
  | (Ok c, log') =>
      RpcClient.prepare stamp auth = Ok (client c) ∧ max_response_bytes c = max_response
      ∧ transport_closed c = false ∧ 1 ≤ queue_capacity c
      ∧ ∃ steps, log' = log ++ steps
          ∧ opened server_name_of roots trust_anchor any_supported_type material addr transport steps (stream c)
  | (Err e, log') =>
      (RpcClient.prepare stamp auth = Err e ∧ log' = log)
      ∨ ∃ steps, log' = log ++ steps
          ∧ attempted server_name_of roots trust_anchor any_supported_type material addr transport steps
  | (Panic, _) => False
  end.
Proof.
  unfold connect, sbind at 1, slift.
  pose proof (prepare_total stamp auth) as Hp.
  destruct (RpcClient.prepare stamp auth) as [client|e|]; [|by left|done].
  pose proof (connect_transport_spec server_name_of roots trust_anchor versions any_supported_type material answer
    addr transport log Hmaterial) as Hc.
  unfold sbind. destruct (connect_transport _ _ _ _ _ _ _ _ _ _) as [[s|e|] log']; [|by right|done].
  destruct (Z.ltb_spec MAX_PERMITS (Z.max pending_capacity 1 * 2)) as [Hbig|_].
  { unfold MAX_PERMITS in Hbig. vm_compute (Z.shiftr usize_max 3) in Hbig. lia. }
  split_and!; [done|done|done|cbn; lia|exact Hc].
Qed.

(** A client for a private certification authority and EFS IAM, with the
    material of Efs.v; the network accepts every step. *)
Lemma tls_never_downgraded_witness :
  let material := λ efs common_name,
    tls_client_auth_material (λ _, Civil.mk 2024 1 2 3 4 5) (λ b, b) (λ b, b) (λ _ _ _ _, []) (λ _ s, s)
      (λ k : bytes, k) (λ k, k) (λ s, s) (λ b, b) (λ _, []) (λ b, b) mjoin
      (λ p k, Some [CertificateParams.not_after p]) efs common_name 7
      (Some (Credentials.mk (str_of "AK") (str_of "SK") None (Some (3600 * 10 ^ 9 + 5)))) (Some [1]) in
  let config := TlsConfig.with_efs_iam (EfsIamConfig.new (str_of "fs-0123abcd") (str_of "eu-west-1"))
    (TlsConfig.with_root_certificate_der [48; 3] (TlsConfig.new (str_of "nfs.example"))) in
  let c := ClientConfig.mk bytes bytes [[48; 1]; [48; 3]]
    (Some (CertifiedKey.mk bytes [[3600 * 10 ^ 9]] [1])) in
  let connected := connect (Addr:=nat) Some [[48; 1]] Some true Some material (λ _ _, None) 9 2049%nat
    (AuthSys.new (str_of "host") 1000 1000) 1048576 64 (RpcTransport.Tls config) [] in
  connected.2 = [TcpConnect 2049%nat; SetNoDelay; Handshake (str_of "nfs.example") c]
  ∧ match connected.1 with
    | Ok client => stream client = TlsStream (str_of "nfs.example") c ∧ 1 ≤ queue_capacity client
    | _ => False
    end.
Proof.
  intros material config c connected.
  assert (H : connected.2 = [TcpConnect 2049%nat; SetNoDelay; Handshake (str_of "nfs.example") c])
    by (vm_compute; reflexivity).
  split; [exact H|].
  assert (Hs : match connected.1 with Ok client => stream client = TlsStream (str_of "nfs.example") c | _ => False end)
    by (vm_compute; reflexivity).
  pose proof (tls_never_downgraded Some [[48; 1]] Some true Some material (λ _ _, None) 9 2049%nat
    (AuthSys.new (str_of "host") 1000 1000) 1048576 64 (RpcTransport.Tls config) []) as Ht.
  fold connected in Ht. destruct connected as [[client|e|] log]; [|done..].
  split; [exact Hs|]. apply Ht; [|lia]. intros efs common_name. apply tls_client_auth_material_total.
Defined.
