(* ===== verification/Builder.v ===== *)
(** * Configuring and connecting a client (src/client.rs, [NfsClientBuilder])

    The builder's settings, their validation, the cap on writes to an AWS EFS
    server, and the connection: the first of the resolved addresses that
    answers, within one time budget. *)

From S2P Require Import Prelude Proto Errors Ops Rpc Reads Owner Efs Tls.

Definition MAX_CONFIGURED_SESSION_SLOTS : Z := 1024.
Definition AWS_EFS_MAX_WRITE_CHUNK_SIZE : Z := 504 * 1024.

(** ** Validation *)

Definition validate_nonzero (value : Z) : res Error.t unit :=
  if value =? 0 then Err (Error.invalid_config "{name} must be greater than zero") else Ok tt.

Definition validate_min_bytes (value minimum : Z) : res Error.t unit :=
  if value <? minimum then Err (Error.invalid_config "{name} must be at least {minimum} bytes") else Ok tt.

Definition validate_config (config : NfsConfig.t) : res Error.t unit :=
  let? _ := validate_nonzero (NfsConfig.read_chunk_size config) in
  let? _ := validate_nonzero (NfsConfig.read_granularity config) in
  let? _ := validate_nonzero (NfsConfig.write_chunk_size config) in
  let? _ := validate_nonzero (NfsConfig.readdir_dircount config) in
  if NfsConfig.readdir_maxcount config <? NfsConfig.readdir_dircount config then
    Err (Error.invalid_config "readdir maxcount must be greater than or equal to dircount")
  else
    let? _ := validate_nonzero (NfsConfig.session_slots config) in
    if MAX_CONFIGURED_SESSION_SLOTS <? NfsConfig.session_slots config then
      Err (Error.invalid_config "session_slots must not exceed {MAX_CONFIGURED_SESSION_SLOTS}")
    else
      let? _ := validate_min_bytes (NfsConfig.max_request_size config) 4096 in
      validate_min_bytes (NfsConfig.max_response_size config) 4096.

Definition validate_buffered_read_limit (limit : option Z) : res Error.t unit :=
  match limit with
  | Some limit =>
      if limit =? 0 then Err (Error.invalid_config "max_buffered_read_size must be greater than zero")
      else Ok tt
  | None => Ok tt
  end.

(** ** AWS EFS *)

Definition dot : Z := 46.

(** [str::split_once] at a character *)
Fixpoint split_once (c : Z) (s : str) : option (str * str) :=
  match s with
  | [] => None
  | x :: s =>
      if x =? c then Some ([], s)
      else match split_once c s with Some (a, b) => Some (x :: a, b) | None => None end
  end.

(** [str::strip_suffix] *)
Definition strip_suffix (suffix s : str) : option str :=
  match strip_prefix (rev suffix) (rev s) with Some r => Some (rev r) | None => None end.

Definition efs_region (domain : str) : option str :=
  match strip_suffix (str_of ".amazonaws.com") domain with
  | Some region => Some region
  | None => strip_suffix (str_of ".amazonaws.com.cn") domain
  end.

Definition is_empty (s : str) : bool := match s with [] => true | _ => false end.

Definition is_aws_efs_server_name (server_name : str) : bool :=
  match split_once dot server_name with
  | None => false
  | Some (file_system, rest) =>
      match split_once dot rest with
      | None => false
      | Some (service, domain) =>
          match strip_prefix (str_of "fs-") file_system with
          | Some id => negb (is_empty id)
          | None => false
          end
          && (str_eqb service (str_of "efs") || str_eqb service (str_of "efs-fips"))
          && match efs_region domain with
             | Some region => negb (is_empty region) && negb (bool_decide (dot ∈ region))
             | None => false
             end
      end
  end.

Definition apply_transport_write_cap (config : NfsConfig.t) (transport : RpcTransport.t) : NfsConfig.t :=
  match transport with
  | RpcTransport.Plaintext => config
  | RpcTransport.Tls tls =>
      if is_aws_efs_server_name (TlsConfig.server_name tls) then
        NfsConfig.mk (NfsConfig.export config) (NfsConfig.read_chunk_size config)
          (NfsConfig.read_granularity config)
          (Z.min (NfsConfig.write_chunk_size config) AWS_EFS_MAX_WRITE_CHUNK_SIZE) false
          (NfsConfig.readdir_dircount config) (NfsConfig.readdir_maxcount config)
          (NfsConfig.file_mode config) (NfsConfig.dir_mode config) (NfsConfig.session_slots config)
          (NfsConfig.max_request_size config) (NfsConfig.max_response_size config)
          (NfsConfig.max_compound_ops config) (NfsConfig.operation_timeout config)
          (NfsConfig.transient_retries config) (NfsConfig.transient_retry_delay config)
      else config
  end.

(** ** Connecting

    [session_connect] is [NfsSession::connect] to an address with the
    configuration, over a state [W] that the sessions of a client share;
    [lookup_host] is the resolver of the operating system. *)
Section connect.
Context {Addr Session W : Type} (session_connect : Addr → NfsConfig.t → st W Error.t Session)
  (lookup_host : str → res Error.t (list Addr)).

Fixpoint connect_loop (addrs : list Addr) (config : NfsConfig.t) (last_error : option Error.t)
  : st W Error.t Session :=
  match addrs with
  | [] => sfail (default (Error.protocol "NFS endpoint did not resolve to any address") last_error)
  | addr :: addrs => λ w,
      match session_connect addr config w with
      | (Ok session, w) => (Ok session, w)
      | (Err err, w) => connect_loop addrs config (Some err) w
      | (Panic, w) => (Panic, w)
      end
  end.

Definition connect_session (addrs : list Addr) (config : NfsConfig.t) : st W Error.t Session :=
  connect_loop addrs config None.

Definition resolve_addrs (endpoint : str) : res Error.t (list Addr) :=
  let? addrs := lookup_host endpoint in
  match addrs with
  | [] => Err (Error.protocol "NFS endpoint did not resolve to any address")
  | _ => Ok addrs
  end.

(** When the timer fires before the operation ends, [expired] is what the
    operation had done to the state when it was dropped. *)
Definition with_optional_timeout {A} (timeout : option Duration) (expired : option (W → W))
    (operation : st W Error.t A) : st W Error.t A := λ w,
  match timeout, expired with
  | Some timeout, Some cut => (Err (Error.Timeout timeout), cut w)
  | _, _ => operation w
  end.

Definition resolve_and_connect_session (endpoint : str) (config : NfsConfig.t) (timeout : option Duration)
    (expired : option (W → W)) : st W Error.t Session :=
  with_optional_timeout timeout expired
    (let! addrs := slift (resolve_addrs endpoint) in connect_session addrs config).
End connect.

(** Assignments to a field of the configuration. *)
Definition with_read_chunk_size (x : Z) (c : NfsConfig.t) : NfsConfig.t :=
  NfsConfig.mk (NfsConfig.export c) x (NfsConfig.read_granularity c) (NfsConfig.write_chunk_size
    c) (NfsConfig.pipeline_write_chunks c) (NfsConfig.readdir_dircount c)
    (NfsConfig.readdir_maxcount c) (NfsConfig.file_mode c) (NfsConfig.dir_mode c)
    (NfsConfig.session_slots c) (NfsConfig.max_request_size c) (NfsConfig.max_response_size c)
    (NfsConfig.max_compound_ops c) (NfsConfig.operation_timeout c) (NfsConfig.transient_retries
    c) (NfsConfig.transient_retry_delay c).

Definition with_read_granularity (x : Z) (c : NfsConfig.t) : NfsConfig.t :=
  NfsConfig.mk (NfsConfig.export c) (NfsConfig.read_chunk_size c) x (NfsConfig.write_chunk_size
    c) (NfsConfig.pipeline_write_chunks c) (NfsConfig.readdir_dircount c)
    (NfsConfig.readdir_maxcount c) (NfsConfig.file_mode c) (NfsConfig.dir_mode c)
    (NfsConfig.session_slots c) (NfsConfig.max_request_size c) (NfsConfig.max_response_size c)
    (NfsConfig.max_compound_ops c) (NfsConfig.operation_timeout c) (NfsConfig.transient_retries
    c) (NfsConfig.transient_retry_delay c).

Definition with_write_chunk_size (x : Z) (c : NfsConfig.t) : NfsConfig.t :=
  NfsConfig.mk (NfsConfig.export c) (NfsConfig.read_chunk_size c) (NfsConfig.read_granularity c)
    x (NfsConfig.pipeline_write_chunks c) (NfsConfig.readdir_dircount c)
    (NfsConfig.readdir_maxcount c) (NfsConfig.file_mode c) (NfsConfig.dir_mode c)
    (NfsConfig.session_slots c) (NfsConfig.max_request_size c) (NfsConfig.max_response_size c)
    (NfsConfig.max_compound_ops c) (NfsConfig.operation_timeout c) (NfsConfig.transient_retries
    c) (NfsConfig.transient_retry_delay c).

Definition with_file_mode (x : Z) (c : NfsConfig.t) : NfsConfig.t :=
  NfsConfig.mk (NfsConfig.export c) (NfsConfig.read_chunk_size c) (NfsConfig.read_granularity c)
    (NfsConfig.write_chunk_size c) (NfsConfig.pipeline_write_chunks c)
    (NfsConfig.readdir_dircount c) (NfsConfig.readdir_maxcount c) x (NfsConfig.dir_mode c)
    (NfsConfig.session_slots c) (NfsConfig.max_request_size c) (NfsConfig.max_response_size c)
    (NfsConfig.max_compound_ops c) (NfsConfig.operation_timeout c) (NfsConfig.transient_retries
    c) (NfsConfig.transient_retry_delay c).

Definition with_dir_mode (x : Z) (c : NfsConfig.t) : NfsConfig.t :=
  NfsConfig.mk (NfsConfig.export c) (NfsConfig.read_chunk_size c) (NfsConfig.read_granularity c)
    (NfsConfig.write_chunk_size c) (NfsConfig.pipeline_write_chunks c)
    (NfsConfig.readdir_dircount c) (NfsConfig.readdir_maxcount c) (NfsConfig.file_mode c) x
    (NfsConfig.session_slots c) (NfsConfig.max_request_size c) (NfsConfig.max_response_size c)
    (NfsConfig.max_compound_ops c) (NfsConfig.operation_timeout c) (NfsConfig.transient_retries
    c) (NfsConfig.transient_retry_delay c).

Definition with_session_slots (x : Z) (c : NfsConfig.t) : NfsConfig.t :=
  NfsConfig.mk (NfsConfig.export c) (NfsConfig.read_chunk_size c) (NfsConfig.read_granularity c)
    (NfsConfig.write_chunk_size c) (NfsConfig.pipeline_write_chunks c)
    (NfsConfig.readdir_dircount c) (NfsConfig.readdir_maxcount c) (NfsConfig.file_mode c)
    (NfsConfig.dir_mode c) x (NfsConfig.max_request_size c) (NfsConfig.max_response_size c)
    (NfsConfig.max_compound_ops c) (NfsConfig.operation_timeout c) (NfsConfig.transient_retries
    c) (NfsConfig.transient_retry_delay c).

Definition with_operation_timeout (x : option Duration) (c : NfsConfig.t) : NfsConfig.t :=
  NfsConfig.mk (NfsConfig.export c) (NfsConfig.read_chunk_size c) (NfsConfig.read_granularity c)
    (NfsConfig.write_chunk_size c) (NfsConfig.pipeline_write_chunks c)
    (NfsConfig.readdir_dircount c) (NfsConfig.readdir_maxcount c) (NfsConfig.file_mode c)
    (NfsConfig.dir_mode c) (NfsConfig.session_slots c) (NfsConfig.max_request_size c)
    (NfsConfig.max_response_size c) (NfsConfig.max_compound_ops c) x
    (NfsConfig.transient_retries c) (NfsConfig.transient_retry_delay c).

Module NfsClientBuilder.
Record t : Type := mk {
  endpoint : str;
  auth : res Error.t AuthSys.t;
  transport : RpcTransport.t;
  config : NfsConfig.t;
  connect_timeout : option Duration;
  max_buffered_read_size : option Z;
}.

(** [current_user] is the credential of the process. *)
Definition new (current_user : res Error.t AuthSys.t) (addr export : str) : t :=
  mk addr current_user RpcTransport.Plaintext (NfsConfig.new export) (Some (NfsConfig.from_secs 30))
     (Some DEFAULT_MAX_BUFFERED_READ_SIZE).

(** *** The settings *)

Definition set_config (f : NfsConfig.t → NfsConfig.t) (self : t) : t :=
  mk (endpoint self) (auth self) (transport self) (f (config self)) (connect_timeout self)
     (max_buffered_read_size self).

Definition auth_sys (x : AuthSys.t) (self : t) : t :=
  mk (endpoint self) (Ok x) (transport self) (config self) (connect_timeout self) (max_buffered_read_size self).
Definition tls (tls_config : TlsConfig.t) (self : t) : t :=
  mk (endpoint self) (auth self) (RpcTransport.Tls tls_config) (config self) (connect_timeout self)
     (max_buffered_read_size self).
Definition read_chunk_size (x : Z) : t → t := set_config (with_read_chunk_size x).
Definition read_granularity (x : Z) : t → t := set_config (with_read_granularity x).
Definition write_chunk_size (x : Z) : t → t := set_config (with_write_chunk_size x).
Definition file_mode (x : Z) : t → t := set_config (with_file_mode x).
Definition dir_mode (x : Z) : t → t := set_config (with_dir_mode x).
Definition session_slots (x : Z) : t → t := set_config (with_session_slots x).
Definition operation_timeout (x : option Duration) : t → t := set_config (with_operation_timeout x).
Definition set_connect_timeout (timeout : Duration) (self : t) : t :=
  mk (endpoint self) (auth self) (transport self) (config self) (Some timeout) (max_buffered_read_size self).
Definition set_max_buffered_read_size (bytes : option Z) (self : t) : t :=
  mk (endpoint self) (auth self) (transport self) (config self) (connect_timeout self) bytes.

(** The client that results: the configuration it keeps for reconnects, and
    the first session. *)
Definition connect {Addr Session W : Type}
    (session_connect : AuthSys.t → RpcTransport.t → Addr → NfsConfig.t → st W Error.t Session)
    (lookup_host : str → res Error.t (list Addr)) (expired : option (W → W)) (self : t)
  : st W Error.t (NfsConfig.t * option Z * Session) :=
  let! _ := slift (validate_config (config self)) in
  let! _ := slift (validate_buffered_read_limit (max_buffered_read_size self)) in
  let config := apply_transport_write_cap (config self) (transport self) in
  let! auth := slift (auth self) in
  let! session := resolve_and_connect_session (session_connect auth (transport self)) lookup_host
                    (endpoint self) config (connect_timeout self) expired in
  sret (config, max_buffered_read_size self, session).
End NfsClientBuilder.

(** ** The shape of an EFS server name *)

Lemma split_once_app c a b : c ∉ a → split_once c (a ++ c :: b) = Some (a, b).
Proof.
  induction a as [|x a IH]; cbn [app split_once]; intros Hc; [by rewrite Z.eqb_refl|].
  apply not_elem_of_cons in Hc as [Hx Hc]. destruct (Z.eqb_spec x c); [by subst|]. by rewrite IH.
Qed.

Lemma split_once_Some c s a b : split_once c s = Some (a, b) → s = a ++ c :: b ∧ c ∉ a.
Proof.
  induction s as [|x s IH] in a |- *; cbn [split_once]; intros H; [done|].
  destruct (Z.eqb_spec x c) as [->|Hne].
  - injection H as <- <-. split; [done|apply not_elem_of_nil].
  - destruct (split_once c s) as [[a' b']|]; [|done]. injection H as <- <-.
    destruct (IH a' eq_refl) as [-> Hc]. split; [done|]. apply not_elem_of_cons. naive_solver.
Qed.

Lemma strip_suffix_spec suffix s rest : strip_suffix suffix s = Some rest ↔ s = rest ++ suffix.
Proof.
  unfold strip_suffix. destruct (strip_prefix (rev suffix) (rev s)) as [r|] eqn:E.
  - apply strip_prefix_spec in E. apply (f_equal (@rev Z)) in E. rewrite rev_involutive, rev_app_distr, rev_involutive in E.
    rewrite E. split; [by intros [= <-]|]. intros H. f_equal. by apply app_inv_tail in H.
  - split; [done|]. intros ->. rewrite rev_app_distr in E.
    by rewrite (proj2 (strip_prefix_spec (rev suffix) (rev suffix ++ rev rest) (rev rest)) eq_refl) in E.
Qed.

(** The region in front of a suffix, when it has no dot of its own. *)
Lemma efs_region_spec domain region :
  dot ∉ region →
  efs_region domain = Some region ↔
  domain = region ++ str_of ".amazonaws.com" ∨ domain = region ++ str_of ".amazonaws.com.cn".
Proof.
  intros Hdot. unfold efs_region. rewrite <- !strip_suffix_spec.
  destruct (strip_suffix (str_of ".amazonaws.com") domain) as [r|] eqn:E; [|naive_solver].
  split; [naive_solver|]. intros [H|H]; [done|]. exfalso.
  apply strip_suffix_spec in E, H. rewrite H in E. apply (f_equal (@rev Z)) in E. rewrite !rev_app_distr in E.
  by vm_compute in E.
Qed.

(** An EFS endpoint's name: a file system id, the service, a region and the
    domain of AWS. *)
Definition efs_name (name : str) : Prop :=
  ∃ id service region suffix,
    name = str_of "fs-" ++ id ++ [dot] ++ service ++ [dot] ++ region ++ suffix
    ∧ id ≠ [] ∧ dot ∉ id ∧ (service = str_of "efs" ∨ service = str_of "efs-fips")
    ∧ region ≠ [] ∧ dot ∉ region
    ∧ (suffix = str_of ".amazonaws.com" ∨ suffix = str_of ".amazonaws.com.cn").

(** the write cap is applied to exactly the EFS endpoint names: a
    server name is taken for one if and only if it is fs-ID.efs.REGION or
    fs-ID.efs-fips.REGION under amazonaws.com or amazonaws.com.cn, with a
    region and an id that are not empty and hold no dot. *)
Theorem efs_server_name_spec name : is_aws_efs_server_name name = true ↔ efs_name name.
Proof.
  split.
  - unfold is_aws_efs_server_name. destruct (split_once dot name) as [[fs rest]|] eqn:E1; [|done].
    destruct (split_once dot rest) as [[service domain]|] eqn:E2; [|done].
    apply split_once_Some in E1 as [-> H1], E2 as [-> H2].
    intros [[Hid Hs]%andb_true_iff Hr]%andb_true_iff.
    destruct (strip_prefix (str_of "fs-") fs) as [id|] eqn:E3; [|done]. apply strip_prefix_spec in E3 as ->.
    destruct (efs_region domain) as [region|] eqn:E4; [|done].
    apply andb_true_iff in Hr as [Hr Hd]. apply negb_true_iff, bool_decide_eq_false in Hd.
    apply efs_region_spec in E4; [|done]. apply orb_true_iff in Hs. rewrite !str_eqb_eq in Hs.
    assert (Hne : ∀ x : str, negb (is_empty x) = true → x ≠ []) by (by intros []).
    apply not_elem_of_app in H1 as [_ H1].
    destruct E4 as [-> | ->]; eexists id, service, region, _; rewrite <- !app_assoc;
      (split_and!; [reflexivity|by apply Hne|done|done|by apply Hne|done|by auto]).
  - intros (id & service & region & suffix & -> & Hid & Hd1 & Hs & Hr & Hd2 & Hsuf).
    unfold is_aws_efs_server_name. rewrite app_assoc. cbn [app].
    rewrite split_once_app by (apply not_elem_of_app; split; [by apply (bool_decide_eq_false_1 (dot ∈ str_of "fs-"))|done]).
    rewrite split_once_app by (destruct Hs as [-> | ->]; [by apply (bool_decide_eq_false_1 (dot ∈ str_of "efs"))|by apply (bool_decide_eq_false_1 (dot ∈ str_of "efs-fips"))]).
    rewrite (proj2 (strip_prefix_spec _ _ id) eq_refl).
    rewrite (proj2 (efs_region_spec (region ++ suffix) region Hd2)) by (destruct Hsuf as [-> | ->]; auto).
    rewrite (bool_decide_eq_false_2 _ Hd2).
    assert (Hne : ∀ x : str, x ≠ [] → negb (is_empty x) = true) by (by intros []).
    rewrite !Hne by done. rewrite andb_true_r, andb_true_l. apply orb_true_iff. rewrite !str_eqb_eq. done.
Qed.

(** ** What a connected client is configured with *)

(** The settings a session can be run with. *)
Definition config_valid (c : NfsConfig.t) : Prop :=
  0 < NfsConfig.read_chunk_size c ∧ 0 < NfsConfig.read_granularity c ∧ 0 < NfsConfig.write_chunk_size c
  ∧ 0 < NfsConfig.readdir_dircount c ≤ NfsConfig.readdir_maxcount c
  ∧ 0 < NfsConfig.session_slots c ≤ 1024
  ∧ 4096 ≤ NfsConfig.max_request_size c ∧ 4096 ≤ NfsConfig.max_response_size c.

Lemma validate_nonzero_ok v : 0 ≤ v → validate_nonzero v = Ok tt ↔ 0 < v.
Proof. intros Hv. unfold validate_nonzero. destruct (Z.eqb_spec v 0); split; done || lia. Qed.

Lemma rbind_ok {E A} (m : res E unit) (k : res E A) a : (let? _ := m in k) = Ok a ↔ m = Ok tt ∧ k = Ok a.
Proof. destruct m as [[]|e|]; cbn; naive_solver. Qed.

Lemma validate_config_ok c : NfsConfig.wf c → validate_config c = Ok tt ↔ config_valid c.
Proof.
  intros Hwf. unfold NfsConfig.wf in Hwf. destruct_and!.
  unfold validate_config, config_valid, validate_min_bytes, MAX_CONFIGURED_SESSION_SLOTS.
  rewrite !rbind_ok, !validate_nonzero_ok by ulia.
  destruct (Z.ltb_spec (NfsConfig.readdir_maxcount c) (NfsConfig.readdir_dircount c)); [split; [naive_solver|lia]|].
  rewrite rbind_ok, validate_nonzero_ok by ulia.
  destruct (Z.ltb_spec 1024 (NfsConfig.session_slots c)); [split; [naive_solver|lia]|].
  destruct (Z.ltb_spec (NfsConfig.max_request_size c) 4096); [split; [naive_solver|lia]|].
  cbn. destruct (Z.ltb_spec (NfsConfig.max_response_size c) 4096); [split; [naive_solver|lia]|].
  split; [lia|]. intros. split_and!; done || lia.
Qed.

(** The addresses that were tried in vain, one after the other. *)
Inductive refused_by {Addr Session W} (f : Addr → NfsConfig.t → st W Error.t Session) (config : NfsConfig.t)
    : list Addr → W → W → Prop :=
| refused_none w : refused_by f config [] w w
| refused_next addr addrs e w w1 w2 :
    f addr config w = (Err e, w1) → refused_by f config addrs w1 w2 → refused_by f config (addr :: addrs) w w2.

Lemma connect_loop_ok {Addr Session W} (f : Addr → NfsConfig.t → st W Error.t Session) addrs config last w session w' :
  connect_loop f addrs config last w = (Ok session, w') →
  ∃ tried addr rest w1, addrs = tried ++ addr :: rest ∧ refused_by f config tried w w1
    ∧ f addr config w1 = (Ok session, w').
Proof.
  induction addrs as [|addr addrs IH] in last, w |- *; cbn [connect_loop]; intros H; [done|].
  destruct (f addr config w) as [[s|e|] w1] eqn:E.
  - injection H as <- <-. exists [], addr, addrs, w. split_and!; [done|constructor|done].
  - destruct (IH _ _ H) as (tried & a & rest & w2 & -> & Ht & Ha). exists (addr :: tried), a, rest, w2.
    split_and!; [done|by econstructor|done].
  - done.
Qed.

Lemma resolve_and_connect_ok {Addr Session W} (f : Addr → NfsConfig.t → st W Error.t Session) lookup_host endpoint config
    timeout expired w session w' :
  resolve_and_connect_session f lookup_host endpoint config timeout expired w = (Ok session, w') →
  ∃ tried addr rest w1, lookup_host endpoint = Ok (tried ++ addr :: rest) ∧ refused_by f config tried w w1
    ∧ f addr config w1 = (Ok session, w').
Proof.
  unfold resolve_and_connect_session, with_optional_timeout. intros H.
  assert (Hr : (let! addrs := slift (resolve_addrs lookup_host endpoint) in connect_session f addrs config) w
    = (Ok session, w')) by (by destruct timeout; [destruct expired|]).
  unfold sbind, slift, resolve_addrs in Hr. destruct (lookup_host endpoint) as [addrs|e|]; [|done..].
  assert (Hc : connect_session f addrs config w = (Ok session, w')) by (by destruct addrs).
  apply connect_loop_ok in Hc as (tried & addr & rest & w1 & -> & Ht & Ha). by exists tried, addr, rest, w1.
Qed.

(** The configuration of a client: the builder's, capped for EFS. *)
Definition capped (self : NfsClientBuilder.t) (c : NfsConfig.t) : Prop :=
  match NfsClientBuilder.transport self with
  | RpcTransport.Tls tls =>
      if is_aws_efs_server_name (TlsConfig.server_name tls)
      then NfsConfig.write_chunk_size c = Z.min (NfsConfig.write_chunk_size (NfsClientBuilder.config self)) 516096
           ∧ NfsConfig.pipeline_write_chunks c = false
      else c = NfsClientBuilder.config self
  | RpcTransport.Plaintext => c = NfsClientBuilder.config self
  end.

Lemma cap_valid self :
  config_valid (NfsClientBuilder.config self) →
  let c := apply_transport_write_cap (NfsClientBuilder.config self) (NfsClientBuilder.transport self) in
  config_valid c ∧ capped self c.
Proof.
  intros Hv. unfold apply_transport_write_cap, capped.
  destruct (NfsClientBuilder.transport self) as [|name]; [done|]. destruct (is_aws_efs_server_name (TlsConfig.server_name name)); [|done].
  split; [|done]. unfold config_valid, AWS_EFS_MAX_WRITE_CHUNK_SIZE in *. cbn. lia.
Qed.

(** C32: a builder that connects yields a usable client: its settings pass
    every check (nonzero chunk sizes and slots, at most 1024 slots, room for a
    request and a response, a nonzero read limit), writes to an EFS endpoint
    are capped and sent in order while other servers keep the requested
    settings, and the session is that of the first resolved address that
    accepted one, every earlier one having failed. *)
Theorem builder_connect_spec {Addr Session W : Type}
    (session_connect : AuthSys.t → RpcTransport.t → Addr → NfsConfig.t → st W Error.t Session)
    lookup_host expired self w c limit session w' :
  NfsConfig.wf (NfsClientBuilder.config self) →
  NfsClientBuilder.connect session_connect lookup_host expired self w = (Ok (c, limit, session), w') →
  config_valid c ∧ capped self c ∧ limit ≠ Some 0
  ∧ ∃ auth tried addr rest w1, NfsClientBuilder.auth self = Ok auth
    ∧ lookup_host (NfsClientBuilder.endpoint self) = Ok (tried ++ addr :: rest)
    ∧ refused_by (session_connect auth (NfsClientBuilder.transport self)) c tried w w1
    ∧ session_connect auth (NfsClientBuilder.transport self) addr c w1 = (Ok session, w').
Proof.
  intros Hwf H. unfold NfsClientBuilder.connect, sbind, slift in H.
  destruct (validate_config _) as [[]|e|] eqn:Hc; [|done..].
  destruct (validate_buffered_read_limit _) as [[]|e|] eqn:Hl; [|done..].
  apply validate_config_ok in Hc; [|done]. apply cap_valid in Hc as [Hv Hcap].
  set (c' := apply_transport_write_cap _ _) in *. destruct (NfsClientBuilder.auth self) as [auth|e|]; [|done..].
  destruct (resolve_and_connect_session _ _ _ _ _ _ _) as [[s|e|] w2] eqn:Hs; [|done..].
  unfold sret in H. injection H as <- <- <- <-. split_and!; [done..| |].
  { intros E. by rewrite E in Hl. }
  apply resolve_and_connect_ok in Hs as (tried & addr & rest & w1 & Hh & Ht & Ha). by exists auth, tried, addr, rest, w1.
Qed.

(** The first address refuses, the second accepts. *)
Definition sample_builder : NfsClientBuilder.t :=
  NfsClientBuilder.mk (str_of "fs:2049") (Ok (AuthSys.new (str_of "host") 0 0))
    (RpcTransport.Tls (TlsConfig.new (str_of "fs-1a.efs.eu-west-1.amazonaws.com"))) (NfsConfig.new (str_of "/")) None (Some 7).

Lemma builder_connect_spec_witness :
  let connect := λ (_ : AuthSys.t) (_ : RpcTransport.t) (a : nat) (c : NfsConfig.t) (tries : Z),
    if (a =? 2)%nat then (Ok (NfsConfig.write_chunk_size c), tries + 1) else (Err (Error.Timeout 0), tries + 1) in
  ∃ c, NfsClientBuilder.connect connect (λ _, Ok [1; 2]%nat) None sample_builder 0 = (Ok (c, Some 7, 516096), 2)
    ∧ config_valid c ∧ capped sample_builder c.
Proof.
  intros connect. eexists. split; [vm_compute; reflexivity|].
  match goal with |- config_valid ?c ∧ _ =>
    destruct (builder_connect_spec connect (λ _, Ok [1; 2]%nat) None sample_builder 0 c (Some 7) 516096 2)
      as (Hv & Hc & _) end; [repeat split; by vm_compute|vm_compute; reflexivity|].
  by split.
Defined.
