(* ===== verification/Connect.v ===== *)
(** * A new session (src/nfs4/session.rs, [NfsSession::connect]; src/client.rs,
      [run_reconnect])

    The theorems on sessions start from a sound session.  This file shows that
    connecting makes one, whatever the server answers, with the set-up
    operations in the order NFSv4.1 asks for, and that the sessions of a
    client that replaces a failed one go on with one record of requests, to
    which a set-up adds nothing that changes a file. *)

From S2P Require Import Prelude Proto Errors Path Xdr Ops Rpc Compound Reply Replies Slots Owner Session SessionFacts Reads Writes Service Put PutFacts Publication Directory DirectoryFacts Cleanup Reconnect Tls Builder.
Import NfsSession.

(** ** The requests before the session exists *)

Lemma encode_setup tag op :
  blen tag ≤ 64 → NfsOp.wf op → blen (NfsOp.wire op) ≤ 2 ^ 40 →
  encode_compound tag [op] = Ok (wire_compound tag None [op]).
Proof.
  intros Ht Hw Hl. apply encode_compound_inner_ok. split_and!; [ulia|by vm_compute|by constructor|done|].
  unfold wire_compound. rewrite !blen_app, !blen_wire_u32, blen_wire_opaque. cbn [fmap list_fmap mjoin list_join].
  rewrite !app_nil_r. pose proof (xdr_padding_bound (blen tag)). change (blen ([] : bytes)) with 0. ulia.
Qed.

Lemma setup_values {A} (P : A → Prop) b op shape (m : Xdr.dec A) : parser P m → bytes_wf b →
  match decode_setup_compound b op shape m with Ok a => P a | Err _ => True | Panic => False end.
Proof.
  intros Hm Hb. unfold decode_setup_compound.
  match goal with |- context [CompoundReplies.run b shape 1 ?w] =>
    pose proof (run_values [op] b shape 1 w P Hb) as H; destruct (CompoundReplies.run b shape 1 w); cbn [map_err] end;
    apply H; intros n s b' r Hn Hat; walk; eauto.
Qed.

(** ** What the server agreed to *)

Definition exchange_op (owner : ClientOwner.t) : NfsOp.t :=
  NfsOp.ExchangeId (be_bytes 8 (ClientOwner.verifier_value owner)) (ClientOwner.ownerid owner).

Definition export_ops (export : NfsPath) : list NfsOp.t :=
  root_path_ops_with_extra (components export) 1 ++ [NfsOp.GetFh].

(** [q] introduced the client, and the server knows it as [exchange] says. *)
Definition introduced (owner : ClientOwner.t) (q : Request.t) (exchange : ExchangeIdResult.t) : Prop :=
  Request.ops q = [exchange_op owner]
  ∧ ∃ b, Request.reply q = Ok b ∧ decode_exchange_id_compound b = Ok exchange.

(** [q] asked for a session for that client, and the server made [created]. *)
Definition agreed (rpc : RpcClient.t) (config : NfsConfig.t) (exchange : ExchangeIdResult.t) (q : Request.t)
    (created : CreateSessionResult.t) : Prop :=
  Request.ops q =
    [NfsOp.CreateSession (ExchangeIdResult.clientid exchange) (ExchangeIdResult.sequenceid exchange) config]
  ∧ ∃ b, Request.reply q = Ok b
    ∧ decode_create_session_compound b (ExchangeIdResult.sequenceid exchange)
        (RpcClient.encoded_call_len rpc (compound_with_sequence_encoded_len [] [])) = Ok created.

(** [q] told the server that nothing is to be reclaimed, and it said that this
    is done, or was done before. *)
Definition reclaimed (q : Request.t) : Prop :=
  Request.ops q = [NfsOp.ReclaimComplete false]
  ∧ ((∃ b, Request.reply q = Ok b ∧ decode_no_result_compound b OpCode.ReclaimComplete = Ok tt)
     ∨ (∃ b err, Request.reply q = Ok b ∧ decode_no_result_compound b OpCode.ReclaimComplete = Err err
         ∧ Error.is_nfs_status (CompoundDecodeError.into_error err) NfsStatus.COMPLETE_ALREADY = true)
     ∨ (∃ e, refused q e ∧ Error.is_nfs_status e NfsStatus.COMPLETE_ALREADY = true)).

(** [q] walked to the export from the server's root, and [root] is its handle. *)
Definition rooted (export : NfsPath) (q : Request.t) (root : FileHandle) : Prop :=
  Request.ops q = export_ops export
  ∧ ∃ b, Request.reply q = Ok b ∧ decode_getfh_compound b OpCode.PutRootFh (length (components export)) = Ok root.

(** A request that a set-up may send. *)
Inductive setup_op : list NfsOp.t → Prop :=
| setup_exchange owner : setup_op [exchange_op owner]
| setup_create clientid sequenceid config : setup_op [NfsOp.CreateSession clientid sequenceid config]
| setup_reclaim : setup_op [NfsOp.ReclaimComplete false]
| setup_export export : setup_op (export_ops export).

Definition setup (q : Request.t) : Prop := setup_op (Request.ops q).

(** The requests that made the session [s], after those of [h]. *)
Record connected (rpc : RpcClient.t) (config : NfsConfig.t) (owner : ClientOwner.t) (h : list Request.t)
    (s : NfsSession.t) : Prop := {
  co_setup : ∃ exchange created export introduction agreement reclaims reclaim lookups lookup,
    history s = h ++ [introduction; agreement] ++ (reclaims ++ [reclaim]) ++ lookups ++ [lookup]
    ∧ introduced owner introduction exchange ∧ agreed rpc config exchange agreement created
    ∧ Forall (λ q, Request.ops q = [NfsOp.ReclaimComplete false]) reclaims ∧ reclaimed reclaim
    ∧ path.parse_export (NfsConfig.export config) = Ok export
    ∧ Forall (λ q, Request.ops q = export_ops export) lookups ∧ rooted export lookup (export_root s)
    ∧ clientid s = ExchangeIdResult.clientid exchange ∧ sessionid s = CreateSessionResult.sessionid created
    ∧ NfsSession.config s = negotiated_config config (CreateSessionResult.fore_attrs created);
  co_reclaimed : reclaim_complete s = true;
  co_root : handle_wf (export_root s);
}.

Section connecting.
Context (call : list Request.t → RpcPayload.t → res Error.t bytes) (ulid : nat → bytes)
  `{!Transport call} `{!Statusless call}.

(** ** Before the session exists *)

Lemma setup_call_sent tag op h :
  blen tag ≤ 64 → NfsOp.wf op → blen (NfsOp.wire op) ≤ 2 ^ 40 →
  ∃ reply, setup_call call tag op h = (reply, h ++ [Request.mk tag None [op] reply])
    ∧ sent call (Request.mk tag None [op] reply)
    ∧ match reply with Ok b => bytes_wf b | Err _ => True | Panic => False end.
Proof using Transport0.
  intros Ht Hw Hl. unfold setup_call. rewrite encode_setup by done. eexists. split; [done|]. split.
  - exists h, (RpcPayload.from (wire_compound tag None [op])). cbn. rewrite encode_setup by done. eauto.
  - apply transport_answers.
Qed.

Lemma exchange_id_spec owner h : blen (ClientOwner.ownerid owner) ≤ u32_max →
  let '(r, h') := exchange_id call owner (ClientOwner.verifier_value owner) h in
  ∃ q, h' = h ++ [q] ∧ Request.ops q = [exchange_op owner] ∧ sent call q
    ∧ match r with Ok exchange => introduced owner q exchange | Err _ => True | Panic => False end.
Proof using Transport0.
  intros Ho. unfold exchange_id. fold (exchange_op owner).
  destruct (setup_call_sent (str_of "exchange-id") (exchange_op owner) h) as (reply & -> & Hs & Hr); [by vm_compute| | |].
  - split; [by rewrite blen_be_bytes|done].
  - unfold NfsOp.wire, exchange_op. cbn [NfsOp.wire_args].
    rewrite !blen_app, !blen_wire_u32, blen_be_bytes, blen_wire_opaque.
    pose proof (xdr_padding_bound (blen (ClientOwner.ownerid owner))). ulia.
  - eexists. split_and!; [done..|]. destruct reply as [b|e|]; cbn [rbind]; [|done..].
    pose proof (setup_values _ b OpCode.ExchangeId "EXCHANGE_ID" _ parser_decode_exchange_id Hr) as Hv.
    fold (decode_exchange_id_compound b) in Hv.
    destruct (decode_exchange_id_compound b) eqn:Hd; [|done..]. split; [done|]. by exists b.
Qed.

Lemma create_session_spec rpc exchange config h :
  let '(r, h') := create_session call rpc (ExchangeIdResult.clientid exchange) (ExchangeIdResult.sequenceid exchange)
                    config h in
  ∃ q, h' = h ++ [q] ∧ setup q ∧ sent call q
    ∧ match r with
      | Ok created => agreed rpc config exchange q created
          ∧ session_wf (RpcClient.encoded_call_len rpc (compound_with_sequence_encoded_len [] [])) created
      | Err _ => True
      | Panic => False
      end.
Proof using Transport0.
  unfold create_session. set (op := NfsOp.CreateSession _ _ _).
  destruct (setup_call_sent (str_of "create-session") op h) as (reply & -> & Hs & Hr); [by vm_compute|done| |].
  - unfold NfsOp.wire, op. cbn [NfsOp.wire_args]. unfold NfsOp.wire_channel.
    rewrite !blen_app, !blen_wire_u32, !blen_wire_u64. lia.
  - eexists. split_and!; [done|apply setup_create|done|]. destruct reply as [b|e|]; cbn [rbind]; [|done..].
    set (m := RpcClient.encoded_call_len _ _).
    pose proof (setup_values _ b OpCode.CreateSession "CREATE_SESSION" _
      (parser_decode_create_session (ExchangeIdResult.sequenceid exchange) m) Hr) as Hv.
    fold (decode_create_session_compound b (ExchangeIdResult.sequenceid exchange) m) in Hv.
    destruct (decode_create_session_compound b _ m) eqn:Hd; [|done..]. split; [|done]. split; [done|]. by exists b.
Qed.

(** ** On the new session *)

Lemma compound_settles {A} tag ops (decode : list Z → res CompoundDecodeError.t A) s :
  encodable tag ops → (∀ b, bytes_wf b → decode b ≠ Panic) → session_ok s → faithful call s →
  let '(r, s') := compound_decode call ulid tag ops decode s in
  session_ok s' ∧ faithful call s' ∧ kept s s' ∧ ∃ tries, history s' = history s ++ tries
  ∧ Forall (λ q, Request.ops q = ops) tries
  ∧ match r with
    | Ok v => ∃ l q b, tries = l ++ [q] ∧ Request.reply q = Ok b ∧ bytes_wf b ∧ decode b = Ok v
    | Err e => is_Some (Error.nfs_status_code e) → ∃ l q, tries = l ++ [q] ∧
        ((∃ b err, Request.reply q = Ok b ∧ decode b = Err err ∧ e = CompoundDecodeError.into_error err) ∨ refused q e)
    | Panic => False
    end.
Proof using Type*.
  intros Henc Hdec Hok Hf. unfold compound_decode, compound_decode_with.
  pose proof (compound_decode_detailed_spec call ulid tag ops decode Henc Hdec true 0 s Hok ltac:(lia)) as H.
  destruct (compound_decode_detailed call ulid tag ops decode true (0, s)) as [r [a' s']] eqn:Hrun.
  apply decode_loop_faithful in Hrun as Hf'; [|done].
  destruct H as (retries & last & [Hh Ho _ _ Hl _ _ Hk _ Hok' Hres]). split_and!; [done..|].
  exists (retries ++ last). split; [done|].
  assert (Hlast : Forall (sent call) last).
  { unfold faithful in Hf'. rewrite Hh, !Forall_app in Hf'. naive_solver. }
  split; [eapply Forall_impl; [exact Ho|]; by intros q [_ ?]|].
  destruct r as [v|e|]; cbn [map_err]; [| |done].
  - destruct Hres as (q & b & -> & Hr & Hwf & Hd). by exists retries, q, b.
  - intros Hst. destruct Hres as [(e0 & -> & Hnone & Hone)|(q & b & -> & Hr & _ & Hd)].
    2: { exists retries, q. split; [done|]. left. by exists b, e. }
    destruct last as [|q [|q' l]].
    + specialize (Hnone eq_refl). by destruct e0; destruct Hst.
    + exists retries, q. split; [done|]. right. destruct (Hone q eq_refl) as [He|(b & sq & Hb)]; [|by exists b, sq].
      inversion_clear Hlast as [|? ? (h & p & _ & Hc) _]. rewrite He in Hc. apply statusless in Hc.
      change (is_Some (Error.nfs_status_code e0)) in Hst. rewrite Hc in Hst. by destruct Hst.
    + rewrite !blen_cons in Hl. pose proof (blen_nonneg l). lia.
Qed.

Lemma encodable_export export : path_fits (components export) → encodable (str_of "resolve-export") (export_ops export).
Proof using.
  intros [Hn Hp]. unfold export_ops, root_path_ops_with_extra. pose proof (wire_lookups (components export)) as Hw.
  pose proof (blen_nonneg (mjoin (components export))). apply encodable_intro.
  - by vm_compute.
  - rewrite <- app_comm_cons, blen_cons, blen_app. change (blen [NfsOp.GetFh]) with 1.
    replace (blen (NfsOp.Lookup <$> components export)) with (blen (components export)) by (unfold blen; by rewrite length_fmap).
    ulia.
  - rewrite <- app_comm_cons. constructor; [done|]. apply Forall_app. split; [|by constructor].
    apply Forall_fmap, Forall_forall. intros c Hc. cbn. pose proof (blen_mjoin_elem _ _ Hc). lia.
  - rewrite <- app_comm_cons, fmap_cons, mjoin_cons, fmap_app, mjoin_app, !blen_app.
    change (blen (wire_opaque (str_of "resolve-export"))) with 20. change (blen (NfsOp.wire NfsOp.PutRootFh)) with 4.
    change (blen (mjoin (NfsOp.wire <$> [NfsOp.GetFh]))) with 4. ulia.
Qed.

Lemma encodable_reclaim : encodable (str_of "reclaim-complete") [NfsOp.ReclaimComplete false].
Proof using. apply encodable_intro; [by vm_compute..|by repeat constructor|by vm_compute]. Qed.

(** RECLAIM_COMPLETE, and the error that is none. *)
Lemma reclaim_settles s : session_ok s → faithful call s →
  let '(r, s') := match reclaim_complete_op call ulid s with
    | (Err err, s) => if Error.is_nfs_status err NfsStatus.COMPLETE_ALREADY then (Ok tt, s) else (Err err, s)
    | other => other
    end in
  session_ok s' ∧ faithful call s' ∧ kept s s' ∧ ∃ tries, history s' = history s ++ tries
  ∧ Forall (λ q, Request.ops q = [NfsOp.ReclaimComplete false]) tries
  ∧ match r with
    | Ok _ => ∃ l q, tries = l ++ [q] ∧ reclaimed q
    | Err _ => True
    | Panic => False
    end.
Proof using Type*.
  intros Hok Hf. unfold reclaim_complete_op. set (dec := λ bytes, decode_no_result_compound bytes _).
  assert (Hdec : ∀ b, bytes_wf b → dec b ≠ Panic).
  { intros b Hb. exact (response_total _ _ _ (λ _, true) _ (response_simple b Hb (D_no_result OpCode.ReclaimComplete))). }
  pose proof (compound_settles (str_of "reclaim-complete") _ dec s encodable_reclaim Hdec Hok Hf) as H.
  assert (Hown : ∀ (tries l : list Request.t) q, Forall (λ q, Request.ops q = [NfsOp.ReclaimComplete false]) tries →
    tries = l ++ [q] → Request.ops q = [NfsOp.ReclaimComplete false]).
  { intros tries l q Ht ->. apply Forall_app in Ht as [_ Ht]. by inversion_clear Ht. }
  destruct (compound_decode call ulid _ _ dec s) as [[[]|e|] s']; destruct H as (Hok' & Hf' & Hk & tries & Hh & Ho & Hr).
  - split_and!; [done..|]. exists tries. split_and!; [done..|]. destruct Hr as (l & q & b & -> & Hr & _ & Hd).
    exists l, q. split; [done|]. split; [by eapply Hown|]. left. by exists b.
  - destruct (Error.is_nfs_status e NfsStatus.COMPLETE_ALREADY) eqn:He; (split_and!; [done..|]); exists tries;
      (split_and!; [done..|]); [|done].
    destruct Hr as (l & q & -> & Hr); [destruct e; try done; by eexists|]. exists l, q. split; [done|].
    split; [by eapply Hown|]. right. destruct Hr as [(b & err & Hb & Hd & ->)|Hr]; [left; by exists b, err|right; by exists e].
  - done.
Qed.

Lemma export_settles export s : session_ok s → faithful call s → path_fits (components export) →
  let '(r, s') := resolve_export_root call ulid (components export) s in
  session_ok s' ∧ faithful call s' ∧ kept s s' ∧ ∃ tries, history s' = history s ++ tries
  ∧ Forall (λ q, Request.ops q = export_ops export) tries
  ∧ match r with
    | Ok root => handle_wf root ∧ ∃ l q, tries = l ++ [q] ∧ rooted export q root
    | Err _ => True
    | Panic => False
    end.
Proof using Type*.
  intros Hok Hf Hfits. unfold resolve_export_root, compound_getfh. fold (export_ops export).
  set (dec := λ bytes, decode_getfh_compound bytes _ _).
  assert (Hdec : ∀ b, bytes_wf b → dec b ≠ Panic).
  { intros b Hb He. pose proof (proj1 (decoded_handles b (length (components export)) Hb) OpCode.PutRootFh) as H.
    unfold dec in He. by rewrite He in H. }
  pose proof (compound_settles (str_of "resolve-export") _ dec s (encodable_export export Hfits) Hdec Hok Hf) as H.
  destruct (compound_decode call ulid _ _ dec s) as [[root|e|] s']; destruct H as (Hok' & Hf' & Hk & tries & Hh & Ho & Hr);
    [| |done]; (do 3 (split; [done|])); exists tries; (do 2 (split; [done|])); [|done].
  destruct Hr as (l & q & b & -> & Hr & Hb & Hd). split.
  - pose proof (proj1 (decoded_handles b (length (components export)) Hb) OpCode.PutRootFh) as H.
    unfold dec in Hd. by rewrite Hd in H.
  - exists l, q. split; [done|]. apply Forall_app in Ho as [_ Ho]. inversion_clear Ho. split; [done|]. by exists b.
Qed.

(** The last part of a set-up, as [connected] has it. *)
Definition finished (config : NfsConfig.t) (s : NfsSession.t) (new : list Request.t) : Prop :=
  ∃ export reclaims reclaim lookups lookup, new = (reclaims ++ [reclaim]) ++ lookups ++ [lookup]
    ∧ Forall (λ q, Request.ops q = [NfsOp.ReclaimComplete false]) reclaims ∧ reclaimed reclaim
    ∧ path.parse_export (NfsConfig.export config) = Ok export
    ∧ Forall (λ q, Request.ops q = export_ops export) lookups ∧ rooted export lookup (export_root s).

Lemma setup_all ops tries : setup_op ops → Forall (λ q, Request.ops q = ops) tries → Forall setup tries.
Proof using. intros Ho Ht. eapply Forall_impl; [exact Ht|]. unfold setup. by intros q ->. Qed.

Lemma connect_tail_settles s :
  session_ok s → faithful call s → utf8_valid (NfsConfig.export (config s)) = true →
  blen (NfsConfig.export (config s)) < 2 ^ 31 →
  let '(r, s') := connect_tail call ulid s in
  session_ok s' ∧ faithful call s' ∧ clientid s' = clientid s ∧ sessionid s' = sessionid s ∧ config s' = config s
  ∧ ∃ new, history s' = history s ++ new ∧ Forall setup new
  ∧ match r with
    | Ok _ => reclaim_complete s' = true ∧ handle_wf (export_root s') ∧ finished (config s) s' new
    | Err _ => True
    | Panic => False
    end.
Proof using Type*.
  intros Hok Hf Hv Hlen. unfold connect_tail, sbind at 1. pose proof (reclaim_settles s Hok Hf) as H1.
  destruct (match reclaim_complete_op call ulid s with (Err err, s) => _ | other => other end) as [[[]|e|] s1];
    destruct H1 as (Hok1 & Hf1 & Hk1 & reclaims & Hh1 & Ho1 & Hr1); [| |done].
  2: { destruct Hk1 as (_ & _ & Hc & Hs & _ & _ & Hg & _). do 5 (split; [done|]). exists reclaims.
       split; [done|]. split; [|done]. by eapply setup_all; [apply setup_reclaim|]. }
  pose proof (setup_all _ _ setup_reclaim Ho1) as Hset1.
  unfold sbind at 1. cbn beta iota. set (s2 := set_reclaim_complete true s1).
  destruct Hk1 as (_ & _ & Hc1 & Hs1 & _ & _ & Hg1 & _). unfold sbind at 1, try_.
  change (config s2) with (config s1). rewrite Hg1.
  destruct (path.parse_export (NfsConfig.export (config s))) as [export|e|] eqn:He.
  2: { do 5 (split; [done|]). by exists reclaims. }
  2: { by destruct (proj2 (proj2 (path.path_no_panic _ Hv))). }
  pose proof (export_settles export s2 Hok1 Hf1 (components_fit _ _ Hv He Hlen)) as H2. unfold sbind.
  destruct (resolve_export_root call ulid (components export) s2) as [[root|e|] s3];
    destruct H2 as (Hok2 & Hf2 & (_ & _ & Hc2 & Hs2 & _ & Hrc & Hg2 & _) & lookups & Hh2 & Ho2 & Hr2); [| |done].
  all: cbn [history set_reclaim_complete s2] in Hh2; rewrite Hh1, <- app_assoc in Hh2.
  all: pose proof (Forall_app_2 _ _ _ Hset1 (setup_all _ _ (setup_export export) Ho2)) as Hset.
  all: pose proof (eq_trans Hc2 Hc1) as Hc; pose proof (eq_trans Hs2 Hs1) as Hs; pose proof (eq_trans Hg2 Hg1) as Hg.
  2: { do 5 (split; [done|]). by exists (reclaims ++ lookups). }
  destruct Hr1 as (l1 & q1 & -> & Hq1), Hr2 as (Hroot & l2 & q2 & -> & Hq2).
  do 5 (split; [done|]). exists ((l1 ++ [q1]) ++ l2 ++ [q2]). split; [done|]. split; [done|].
  split; [exact Hrc|]. split; [done|]. apply Forall_app in Ho1 as [Ho1 _]. apply Forall_app in Ho2 as [Ho2 _].
  by exists export, l1, q1, l2, q2.
Qed.

Lemma establish_settles rpc config owner h :
  NfsConfig.wf config → blen (ClientOwner.ownerid owner) ≤ u32_max → Forall (sent call) h →
  let '(r, h') := establish call rpc config owner h in
  ∃ new, h' = h ++ new ∧ Forall setup new ∧ Forall (sent call) h'
  ∧ match r with
    | Ok s => session_ok s ∧ history s = h' ∧ ∃ exchange created introduction agreement,
        new = [introduction; agreement]
        ∧ introduced owner introduction exchange ∧ agreed rpc config exchange agreement created
        ∧ channel_wf (CreateSessionResult.fore_attrs created)
        ∧ clientid s = ExchangeIdResult.clientid exchange ∧ sessionid s = CreateSessionResult.sessionid created
        ∧ NfsSession.config s = negotiated_config config (CreateSessionResult.fore_attrs created)
    | Err _ => True
    | Panic => False
    end.
Proof using Transport0.
  intros Hc Ho Hs. unfold establish, sbind at 1. pose proof (exchange_id_spec owner h Ho) as H1.
  destruct (exchange_id call owner _ h) as [[exchange|e|] h1]; destruct H1 as (q1 & -> & Ho1 & Hs1 & Hr1); [| |done].
  all: assert (Hq1 : setup q1) by (unfold setup; rewrite Ho1; apply setup_exchange).
  2: { exists [q1]. split; [done|]. split; [by repeat constructor|]. split; [|done].
       apply Forall_app. split; [done|by repeat constructor]. }
  unfold sbind at 1. pose proof (create_session_spec rpc exchange config (h ++ [q1])) as H2.
  destruct (create_session call rpc _ _ config (h ++ [q1])) as [[created|e|] h2];
    destruct H2 as (q2 & -> & Hq2 & Hs2 & Hr2); [| |done].
  all: rewrite <- app_assoc; exists [q1; q2]; (split; [done|]); (split; [by repeat constructor|]);
    (split; [apply Forall_app; split; [done|by repeat constructor]|]).
  2: done.
  destruct Hr2 as (Hagreed & H16 & Hch & _). split.
  - split; [|done]. apply quiet_new. unfold NfsConfig.wf, channel_wf in *. destruct_and!. ulia.
  - split; [done|]. by exists exchange, created, q1, q2.
Qed.

Lemma negotiated_sizes config a : NfsConfig.wf config → config_valid config → channel_wf a →
  let c := negotiated_config config a in
  1 ≤ NfsConfig.read_granularity c ≤ u32_max ∧ 1 ≤ NfsConfig.read_chunk_size c ≤ u32_max
  ∧ 1 ≤ NfsConfig.write_chunk_size c ≤ u32_max.
Proof using.
  intros Hwf Hv Ha. unfold NfsConfig.wf, config_valid, channel_wf in *. destruct_and!. cbn.
  unfold channel_payload_size, saturating_sub, CHANNEL_PAYLOAD_RESERVE. unfold_widths. split_and!; lia.
Qed.

Lemma connect_settles opened stamp auth config owner h :
  opened ≠ Panic → NfsConfig.wf config → config_valid config → utf8_valid (NfsConfig.export config) = true →
  blen (NfsConfig.export config) < 2 ^ 31 → blen (ClientOwner.ownerid owner) ≤ u32_max → Forall (sent call) h →
  let '(r, (owner', h')) := Session.connect call ulid opened stamp auth config (owner, h) in
  ∃ new, h' = h ++ new ∧ Forall setup new ∧ Forall (sent call) h' ∧
  match r with
  | Ok s => session_inv call (export_root s) s ∧ history s = h' ∧ client_owner s = owner'
      ∧ ∃ rpc, RpcClient.prepare stamp auth = Ok rpc ∧ connected rpc config owner h s
  | Err _ => True
  | Panic => False
  end.
Proof using Type*.
  intros Hop Hwf Hv Hu Hlen Ho Hs. unfold Session.connect, sbind, slift. pose proof (prepare_total stamp auth) as Hp.
  assert (Hfail : ∃ new, h = h ++ new ∧ Forall setup new ∧ Forall (sent call) h ∧ True)
    by (exists []; rewrite app_nil_r; by split_and!).
  destruct (RpcClient.prepare stamp auth) as [rpc|e|] eqn:Hrpc; [|done..]. destruct opened as [[]|e|]; [|done..].
  pose proof (establish_settles rpc config owner h Hwf Ho Hs) as He.
  destruct (establish call rpc config owner h) as [[s|e|] h1]; destruct He as (new & -> & Hset & Hs1 & He); [| |done].
  2: { by exists new. }
  destruct He as (Hok & Hh & exchange & created & q1 & q2 & -> & Hq1 & Hq2 & Hch & Hcl & Hsid & Hcfg).
  assert (Hex : NfsConfig.export (NfsSession.config s) = NfsConfig.export config) by (by rewrite Hcfg).
  pose proof (connect_tail_settles s Hok) as Ht. unfold faithful in Ht. rewrite Hh, Hex in Ht. specialize (Ht Hs1 Hu Hlen).
  destruct (connect_tail call ulid s) as [r s']. destruct Ht as (Hok' & Hf' & Hcl' & Hsid' & Hcfg' & new & Hh' & Hset' & Ht).
  exists ([q1; q2] ++ new). split; [by rewrite Hh', <- app_assoc|]. split; [by apply Forall_app|]. split; [done|].
  destruct r as [[]|e|]; cbn [rbind]; [|done..]. destruct Ht as (Hrc & Hroot & export & l1 & r1 & l2 & r2 & -> & Ht).
  pose proof (negotiated_sizes config _ Hwf Hv Hch) as (Hg & Hr & Hw). rewrite <- Hcfg, <- Hcfg' in Hg, Hr, Hw.
  split; [by split|]. split; [done|]. split; [done|]. exists rpc. split; [done|]. rewrite Hex in Ht.
  split; [|done..]. exists exchange, created, export, q1, q2, l1, r1, l2, r2. rewrite Hcl', Hsid', Hcfg'.
  destruct Ht as (Ha & Hb & Hc & Hd & He). rewrite Hh', <- app_assoc. by split_and!.
Qed.
End connecting.

(** C21: a session comes into being in the order NFSv4.1 asks for, and sound.
    Whatever the transport and the server answer, and whatever was sent before
    on other sessions, connecting never panics and sends nothing but set-up
    requests.  When it yields a session, the client introduced itself, the
    server made the session for the client it named, RECLAIM_COMPLETE was
    answered before the export was looked up, and the root is the handle the
    server gave for the export; the session has the identities and the limits
    that were agreed, all its sizes can be used, and it satisfies the invariant
    that the operations of the client start from. *)
Theorem connect_establishes call ulid opened stamp auth config owner h
    (Htransport : Transport call) (Hstatusless : Statusless call) (Hopened : opened ≠ Panic)
    (Hwf : NfsConfig.wf config) (Hvalid : config_valid config) (Hutf8 : utf8_valid (NfsConfig.export config) = true)
    (Hexport : blen (NfsConfig.export config) < 2 ^ 31) (Howner : blen (ClientOwner.ownerid owner) ≤ u32_max)
    (Hsent : Forall (sent call) h) :
  let '(r, (owner', h')) := Session.connect call ulid opened stamp auth config (owner, h) in
  ∃ new, h' = h ++ new ∧ Forall setup new ∧
  match r with
  | Ok s => session_inv call (export_root s) s ∧ history s = h' ∧ client_owner s = owner'
      ∧ ∃ rpc, RpcClient.prepare stamp auth = Ok rpc ∧ connected rpc config owner h s
  | Err _ => True
  | Panic => False
  end.
Proof.
  pose proof (connect_settles call ulid opened stamp auth config owner h Hopened Hwf Hvalid Hutf8 Hexport Howner Hsent) as H.
  destruct (Session.connect call ulid opened stamp auth config (owner, h)) as [r [owner' h']].
  destruct H as (new & Hh & Hset & _ & Hr). by exists new.
Qed.

(** ** A sample: RECLAIM_COMPLETE is put off once, then was done before *)

Definition wire_channel_attrs (ops requests : Z) : bytes :=
  wire_u32 0 ++ wire_u32 65536 ++ wire_u32 65536 ++ wire_u32 0 ++ wire_u32 ops ++ wire_u32 requests ++ wire_u32 0.

Definition setup_reply (op : OpCode.t) (result : bytes) : bytes :=
  wire_u32 0 ++ wire_opaque [] ++ wire_u32 1 ++ ok_reply op ++ result.

Definition set_up : list (res Error.t bytes) :=
  [Ok (setup_reply OpCode.ExchangeId
         (wire_u64 7 ++ wire_u32 1 ++ wire_u32 0 ++ wire_u32 0 ++ wire_u64 0 ++ wire_opaque [] ++ wire_opaque []
          ++ wire_u32 0));
   Ok (setup_reply OpCode.CreateSession
         (replicate 16 5 ++ wire_u32 1 ++ wire_u32 0 ++ wire_channel_attrs 16 2 ++ wire_channel_attrs 8 1));
   Ok (sample_response status.DELAY 2 1 (fail_reply OpCode.ReclaimComplete status.DELAY));
   Ok (sample_response status.COMPLETE_ALREADY 2 2 (fail_reply OpCode.ReclaimComplete status.COMPLETE_ALREADY));
   Ok (sample_response 0 4 3
         (ok_reply OpCode.PutRootFh ++ ok_reply OpCode.Lookup ++ ok_reply OpCode.GetFh ++ wire_opaque [9; 9]))].

Definition sample_owner : ClientOwner.t := ClientOwner.new 4 (replicate 16 7) (str_of "N").

Lemma connect_establishes_witness :
  let config := NfsConfig.new (str_of "/data") in
  let run := Session.connect (scripted set_up) (λ _, []) (Ok tt) 1 (AuthSys.new (str_of "host") 0 0) config
    (sample_owner, []) in
  ∃ s, run.1 = Ok s ∧ clientid s = 7 ∧ length (history s) = 5%nat ∧ session_inv (scripted set_up) [9; 9] s.
Proof.
  intros config.
  assert (Hwf : NfsConfig.wf config) by (repeat split; by vm_compute).
  assert (Hv : config_valid config) by (repeat split; by vm_compute).
  assert (Ho : blen (ClientOwner.ownerid sample_owner) ≤ u32_max) by (by vm_compute).
  assert (Ht : Transport (scripted set_up)) by (apply scripted_transport; repeat constructor; by vm_compute).
  assert (Hs : Statusless (scripted set_up)) by (apply scripted_statusless; repeat constructor).
  intros run.
  assert (Hrun : match run.1 with
    | Ok s => clientid s = 7 ∧ length (history s) = 5%nat ∧ export_root s = [9; 9] | _ => False end) by (by vm_compute).
  pose proof (connect_establishes (scripted set_up) (λ _, []) (Ok tt) 1 (AuthSys.new (str_of "host") 0 0) config
    sample_owner [] Ht Hs ltac:(discriminate) Hwf Hv eq_refl eq_refl Ho (Forall_nil_2 _)) as H.
  fold run in H. clearbody run. destruct run as [[s|e|] [owner' h']]; cbn [fst] in Hrun |- *; [|done..].
  destruct Hrun as (Hc & Hl & Hroot). destruct H as (new & _ & _ & Hinv & _). rewrite Hroot in Hinv.
  exists s. by split_and!.
Defined.

(** ** Replacing the session of a client *)

Section reconnecting.
Context (call : list Request.t → RpcPayload.t → res Error.t bytes) (ulid : nat → bytes).

(** [opened] is the result of opening a transport to an address, [stamp] the
    clock; the rest is what the client keeps to connect again. *)
Context {Addr : Type} (opened : Addr → list Request.t → res Error.t unit) (stamp : list Request.t → Z)
  (lookup_host : str → res Error.t (list Addr)) (endpoint : str) (auth : AuthSys.t) (config : NfsConfig.t)
  (connect_timeout : option Duration)
  (expired : option (ClientOwner.t * list Request.t → ClientOwner.t * list Request.t)).

Definition session_connect (addr : Addr) (config : NfsConfig.t)
  : st (ClientOwner.t * list Request.t) Error.t NfsSession.t := λ w,
  Session.connect call ulid (opened addr w.2) (stamp w.2) auth config w.

(** The state that all sessions of a client share, as the session in place
    has it. *)
Definition shared (s : NfsSession.t) : ClientOwner.t * list Request.t := (client_owner s, history s).

Definition share (w : ClientOwner.t * list Request.t) (s : NfsSession.t) : NfsSession.t :=
  NfsSession.mk (rpc s) (export_root s) (clientid s) (sessionid s) (slots s) w.1 (client_verifier s)
    (fused_put_supported s) (reclaim_complete s) (fatal_sequence_flags s) (NfsSession.config s)
    (max_response_bytes s) w.2 (slept s).

(** [current.session = session] and the new generation: the new session has a
    queue and a worker of its own. *)
Definition install (s : NfsSession.t) (c : ClientState.t) : ClientState.t :=
  ClientState.mk s (wrap64 (ClientState.generation c + 1)) (ClientState.ulids c) [] true (ClientState.publishes c).

(** [run_reconnect], up to the outcome it sends: [None] when the task ends
    without one. *)
Definition run_reconnect (failed_generation : Z) (c : ClientState.t) : option ReconnectOutcome * ClientState.t :=
  let s := ClientState.session c in
  let '(result, w) :=
    resolve_and_connect_session session_connect lookup_host endpoint config connect_timeout expired (shared s) in
  match result with
  | Ok session =>
      if session_generation_needs_reconnect (ClientState.generation c) failed_generation
      then (Some Reconnected, install session c)
      else (Some Reconnected, ClientState.set_session (share w s) c)
  | Err error => (Some (NotReconnected (ReconnectFailure.from_error error)), ClientState.set_session (share w s) c)
  | Panic => (None, ClientState.set_session (share w s) c)
  end.

(** [NfsClient::reconnect] as one caller sees it: it returns at once, or
    awaits a task that runs [run_reconnect] for the generation that failed,
    started by this call or by an earlier one. *)
Definition reconnect (now : ClientState.t → Z) (state : ClientState.t → ReconnectState.t)
    (failed_generation attempt : Z) (cause : Error.t) : st ClientState.t Error.t unit := λ c,
  match reconnect_decision (now c) (ClientState.generation c) failed_generation (state c) with
  | Return result => (result, c)
  | Wait _ | Spawn =>
      let '(outcome, c) := run_reconnect failed_generation c in
      (default Panic (await_reconnect_outcome outcome false), c)
  end.

(** ** The record of requests across sessions *)

(** A timer that fires drops the set-up between two of its steps. *)
Context `{!Transport call} `{!Statusless call}
  (Hexpired : ∀ cut w, expired = Some cut → ∃ new, (cut w).2 = w.2 ++ new ∧ Forall setup new).

(** Operations that no set-up contains. *)
Context (P : NfsOp.t → Prop) `{!∀ op, Decision (P op)} (HP : ∀ ops, setup_op ops → unmarked P ops).

Lemma setup_marks h new : Forall setup new → filter (marked P) (h ++ new) = filter (marked P) h.
Proof using HP.
  intros Hn. rewrite filter_app. replace (filter (marked P) new) with ([] : list Request.t); [by rewrite app_nil_r|].
  induction Hn as [|q new Hq _ IH]; [done|]. rewrite filter_cons_False; [done|]. unfold marked. intros Hex.
  specialize (HP _ Hq). apply Exists_exists in Hex as (op & Hin & Hop). unfold unmarked in HP.
  rewrite Forall_forall in HP. by apply (HP op).
Qed.

Lemma setup_call_marks tag op h : setup_op [op] →
  filter (marked P) (setup_call call tag op h).2 = filter (marked P) h.
Proof using HP.
  intros Ho. unfold setup_call. destruct (encode_compound tag [op]); [|done..]. apply setup_marks. by constructor.
Qed.

Lemma establish_marks rpc cfg owner h :
  let '(r, h') := establish call rpc cfg owner h in
  filter (marked P) h' = filter (marked P) h ∧ match r with Ok s => history s = h' | _ => True end.
Proof using HP.
  unfold establish, sbind, exchange_id, create_session.
  pose proof (setup_call_marks (str_of "exchange-id") (exchange_op owner) h (setup_exchange owner)) as H1.
  unfold exchange_op in H1. destruct (setup_call call _ _ h) as [r1 h1]. cbn [snd] in H1.
  destruct (let? response := r1 in decode_exchange_id_compound response) as [exchange|e|]; [|done..].
  match goal with |- context [setup_call call ?t ?op h1] =>
    pose proof (setup_call_marks t op h1 (setup_create _ _ _)) as H2; destruct (setup_call call t op h1) as [r2 h2] end.
  cbn [snd] in H2. rewrite H1 in H2. by destruct (let? response := r2 in _) as [created|e|].
Qed.

Lemma leaves_connect_tail : leaves (mark_log P) (connect_tail call ulid).
Proof using Transport0 Statusless0 HP.
  unfold connect_tail, reclaim_complete_op, resolve_export_root, compound_getfh, compound_decode. apply leaves_bind.
  { intros s. pose proof (leaves_compound P call ulid true (str_of "reclaim-complete") [NfsOp.ReclaimComplete false]
      (λ bytes, decode_no_result_compound bytes OpCode.ReclaimComplete) (HP _ setup_reclaim) s) as Hm.
    destruct (compound_decode_with _ _ _ _ _ _ s) as [[[]|e|] s']; [done| |done]. by destruct (Error.is_nfs_status e _). }
  intros _. apply leaves_bind; [done|]. intros _. apply leaves_bind; [done|]. intros export.
  apply leaves_bind; [|done]. apply leaves_compound; [done..|]. apply (HP _ (setup_export export)).
Qed.

Lemma connect_marks addr cfg w :
  let '(r, w') := session_connect addr cfg w in
  filter (marked P) w'.2 = filter (marked P) w.2 ∧ match r with Ok s => history s = w'.2 | _ => True end.
Proof using Transport0 Statusless0 HP.
  destruct w as [owner h]. unfold session_connect, Session.connect, sbind, slift. cbn [snd].
  destruct (RpcClient.prepare _ _) as [rpc|e|]; [|done..]. destruct (opened addr h) as [[]|e|]; [|done..].
  pose proof (establish_marks rpc cfg owner h) as He.
  destruct (establish call rpc cfg owner h) as [[s|e|] h1]; destruct He as [He Hh]; [|done..].
  pose proof (leaves_connect_tail s) as Ht. unfold mark_log in Ht. rewrite Hh, He in Ht.
  by destruct (connect_tail call ulid s) as [[[]|e|] s'].
Qed.

Lemma connect_loop_marks addrs cfg last w :
  let '(r, w') := connect_loop session_connect addrs cfg last w in
  filter (marked P) w'.2 = filter (marked P) w.2 ∧ match r with Ok s => history s = w'.2 | _ => True end.
Proof using Transport0 Statusless0 HP.
  induction addrs as [|addr addrs IH] in last, w |- *; cbn [connect_loop]; [done|].
  pose proof (connect_marks addr cfg w) as Hc. destruct (session_connect addr cfg w) as [[s|e|] w1]; [done| |done].
  specialize (IH (Some e) w1). destruct (connect_loop _ addrs cfg (Some e) w1) as [r w2].
  destruct Hc as [Hc _], IH as [IH Hr]. by rewrite IH.
Qed.

Lemma renew_marks w :
  let '(r, w') :=
    resolve_and_connect_session session_connect lookup_host endpoint config connect_timeout expired w in
  filter (marked P) w'.2 = filter (marked P) w.2 ∧ match r with Ok s => history s = w'.2 | _ => True end.
Proof using Transport0 Statusless0 HP Hexpired.
  assert (Hop : let '(r, w') :=
      (let! addrs := slift (resolve_addrs lookup_host endpoint) in connect_session session_connect addrs config) w in
    filter (marked P) w'.2 = filter (marked P) w.2 ∧ match r with Ok s => history s = w'.2 | _ => True end).
  { unfold sbind, slift. destruct (resolve_addrs lookup_host endpoint) as [addrs|e|]; [|done..]. apply connect_loop_marks. }
  unfold resolve_and_connect_session, with_optional_timeout. destruct connect_timeout as [t|]; [|exact Hop].
  destruct expired as [cut|]; [|exact Hop]. destruct (Hexpired cut w eq_refl) as (new & -> & Hn). by rewrite setup_marks.
Qed.

(** Whatever a reconnect does, it adds no request with such an operation. *)
Lemma leaves_reconnect now state g n e :
  leaves (λ c, mark_log P (ClientState.session c)) (reconnect now state g n e).
Proof using Transport0 Statusless0 HP Hexpired.
  intros c. unfold reconnect. destruct (reconnect_decision _ _ _ _); [done|..];
    unfold run_reconnect; pose proof (renew_marks (shared (ClientState.session c))) as Hm;
    destruct (resolve_and_connect_session _ _ _ _ _ _ _) as [[s|err|] w]; destruct Hm as [Hw Hs];
    try (exact Hw); (destruct (session_generation_needs_reconnect _ _); [|exact Hw]);
    unfold mark_log; cbn; by rewrite Hs.
Qed.
End reconnecting.

Lemma setup_publishes ops : setup_op ops → unmarked publishes ops.
Proof.
  intros []; try (by repeat constructor; intros []). unfold export_ops, root_path_ops_with_extra, unmarked.
  constructor; [by intros []|]. apply Forall_app. split; [|by repeat constructor; intros []].
  apply Forall_fmap, Forall_forall. by intros c _ [].
Qed.

(** C2: of all the requests of a put, at most the last one published.  Over
    the session, through every transient retry, every fallback and the new
    session that a reconnect really sets up: of the requests that were handed
    to the transport and contain LINK or RENAME, every one but the last is
    shown not to have run it, by an answer that names an earlier failure, a
    refused SEQUENCE, a taken temporary name, or because it was never sent;
    success means that the answer to the last shows LINK or RENAME done,
    "already exists" that the server refused the LINK for that reason, and any
    other failure that none of them published, unless the put says that it
    does not know. *)
Theorem put_across_sessions call ulid ulid_text {Addr} (opened : Addr → _) stamp lookup_host endpoint auth config
    connect_timeout expired now state order mode raw_path sleep data c
    (Htransport : Transport call) (Hstatusless : Statusless call)
    (Hexpired : ∀ cut w, expired = Some cut → ∃ new, (cut w).2 = w.2 ++ new ∧ Forall setup new) :
  let '(r, c') := put (service := client_puts call ulid ulid_text) order ClientState.generation
    (reconnect call ulid opened stamp lookup_host endpoint auth config connect_timeout expired now state)
    sleep raw_path data mode c in
  ∃ t, client_log c' = client_log c ++ t ∧ publication mode raw_path r t.
Proof.
  apply session_puts_at_most_once; [done..|]. intros g n e.
  by apply (leaves_reconnect call ulid opened stamp lookup_host endpoint auth config connect_timeout expired Hexpired
    publishes setup_publishes).
Qed.

(** ** A sample: the request was not sent, and the put goes on over a new session *)

Definition moved_put : list (res Error.t bytes) :=
  [Err (Error.request_not_sent (Error.connection_lost "gone"));
   Err (Error.request_not_sent (Error.connection_lost "gone"))]
  ++ set_up
  ++ [Ok (sample_response 0 10 4
         (ok_reply OpCode.PutFh ++ ok_reply OpCode.SaveFh
          ++ ok_reply OpCode.Open ++ wire_open_result StateId.anonymous true 1 2 0 (Bitmap.mk []) NoDelegation
          ++ ok_reply OpCode.GetFh ++ wire_opaque [3]
          ++ ok_reply OpCode.Write ++ wire_write_result (WriteData.mk 3 WriteStability.Unstable (replicate 8 9))
          ++ ok_reply OpCode.Commit ++ replicate 8 9 ++ ok_reply OpCode.Verify ++ ok_reply OpCode.RestoreFh
          ++ ok_reply OpCode.Rename ++ wire_change_info true 1 2 ++ wire_change_info true 2 3))].

(** The second address accepts. *)
Definition sample_renewal : Z → Z → Error.t → st ClientState.t Error.t unit :=
  reconnect (scripted moved_put) (λ _, []) (λ (addr : nat) _, if (addr =? 2)%nat then Ok tt else Err (Error.Timeout 0))
    (λ _, 1) (λ _, Ok [1; 2]%nat) (str_of "fs:2049") (AuthSys.new (str_of "host") 0 0) (NfsConfig.new (str_of "/data"))
    None None (λ _, 0) (λ _, ReconnectState.Idle).

Lemma put_across_sessions_witness :
  let run := put (service := client_puts (scripted moved_put) (λ _, []) (λ _, str_of "id")) (λ n, n)
    ClientState.generation sample_renewal (λ c, c) (str_of "/a") [1; 2; 3] PutMode.Overwrite sample_client in
  run.1 = Ok tt ∧ ClientState.generation run.2 = 1 ∧ length (client_log run.2) = 2%nat
  ∧ ∃ t, client_log run.2 = t ∧ publication PutMode.Overwrite (str_of "/a") run.1 t.
Proof.
  assert (Ht : Transport (scripted moved_put)) by (apply scripted_transport; repeat constructor; by vm_compute).
  assert (Hs : Statusless (scripted moved_put)) by (apply scripted_statusless; repeat constructor).
  intros run.
  assert (Hok : run.1 = Ok tt ∧ ClientState.generation run.2 = 1 ∧ length (client_log run.2) = 2%nat)
    by (vm_compute; auto).
  destruct Hok as (Hok & Hg & Hl). split; [exact Hok|]. split; [exact Hg|]. split; [exact Hl|].
  pose proof (put_across_sessions (scripted moved_put) (λ _, []) (λ _, str_of "id")
    (λ (addr : nat) _, if (addr =? 2)%nat then Ok tt else Err (Error.Timeout 0))
    (λ _, 1) (λ _, Ok [1; 2]%nat) (str_of "fs:2049") (AuthSys.new (str_of "host") 0 0) (NfsConfig.new (str_of "/data"))
    None None (λ _, 0) (λ _, ReconnectState.Idle) (λ n, n) PutMode.Overwrite (str_of "/a") (λ c, c) [1; 2; 3]
    sample_client Ht Hs (λ cut w H, ltac:(discriminate H))) as H.
  fold sample_renewal in H. fold run in H. clearbody run. destruct run as [r c']. exact H.
Defined.
