(* ===== verification/Transport.v ===== *)
(** * Calls, the reader and the writer (src/rpc.rs)

    A call registers itself, hands its request to the writer task and waits
    for the reader task to answer it.  Either task can find the connection
    broken: it marks the transport closed, then fails every registered call.
    This file runs [call_with_timeout], [write_loop], [read_loop] and
    [fail_all] as a state machine with one action for each stretch of code
    between two accesses to shared state.  Which reply belongs to which call
    is the matter of the routing by XID (Rpc); here a reply names its call. *)

From S2P Require Import Prelude Proto Errors Xdr Rpc.

(** Where a call is in [call_with_timeout]. *)
Inductive stage : Type :=
| Entering                             (* before the first look at the flag *)
| Cleared                             (* before it registers *)
| Registered                           (* before the second look *)
| Encoded                              (* before the request is sent to the writer *)
| Submitted                            (* before the third look *)
| Waiting                              (* on the reply *)
| Returned (result : option (res Error.t bytes)).  (* [None]: the future was dropped *)

(** [registered]: the pending map has an entry for the call; [answer]: what its
    reply channel holds. *)
Module Call.
Record t : Type := mk { at_ : stage; registered : bool; answer : option (res Error.t bytes) }.
End Call.

(** The reader or the writer: it runs; it has stored the flag and is about to
    fail the pending calls; it has returned. *)
Inductive task_state : Type := Running | Closing | Ended.

Module Transport.
Record t : Type := mk {
  transport_closed : bool;
  reader : task_state;
  writer : task_state;
  queue : list nat;    (* the requests channel *)
  written : list nat;  (* the requests a write was begun for *)
  calls : list Call.t;
  capacity : Z;        (* of the requests channel *)
}.
End Transport.
Import Transport.

(** [mpsc::channel(pending_capacity.max(1) * 2)] *)
Definition initial_transport (pending_capacity : Z) : Transport.t :=
  mk false Running Running [] [] [] (Z.max pending_capacity 1 * 2).

(** ** The calls *)

(** The call moves on; it leaves the pending map when it returns
    ([Drop for PendingRegistration]). *)
Definition goto (st : stage) (c : Call.t) : Call.t :=
  Call.mk st (match st with Returned _ => false | Registered => true | _ => Call.registered c end)
    (Call.answer c).

(** [call_with_timeout], from one stage to the next. *)
Definition advance_call (s : Transport.t) (c : Call.t) : option stage :=
  match Call.at_ c with
  | Entering =>
      Some (if transport_closed s then Returned (Some (Err rpc_request_not_sent_error)) else Cleared)
  | Cleared => Some Registered
  | Registered =>
      Some (if transport_closed s then Returned (Some (Err rpc_request_not_sent_error)) else Encoded)
  | Encoded =>
      (* [send]: the channel is closed when the writer has returned; it waits for room *)
      match writer s with
      | Ended => Some (Returned (Some (Err rpc_request_not_sent_error)))
      | _ => if blen (queue s) <? capacity s then Some Submitted else None
      end
  | Submitted =>
      Some (if transport_closed s then Returned (Some (Err rpc_transport_stopped_error)) else Waiting)
  | Waiting => match Call.answer c with Some r => Some (Returned (Some r)) | None => None end
  | Returned _ => None
  end.

(** ** The tasks *)

(** [fail_all]: every registered call is answered and leaves the map. *)
Definition fail_call (c : Call.t) : Call.t :=
  if Call.registered c then
    Call.mk (Call.at_ c) false
      (match Call.answer c with
       | Some r => Some r
       | None => Some (Err (Error.connection_lost "{err}"))
       end)
  else c.

Definition fail_all (calls : list Call.t) : list Call.t := fail_call <$> calls.

Inductive event : Type :=
| Open
| Advance (call : nat)
| TimeOut (call : nat) (timeout : Duration)
| Abandon (call : nat)
| WriteBatch (n : nat) (ok : bool)
| WriterFails
| Reply (call : nat) (xid : Z) (response : bytes)
| ReadError
| ReaderFails.

Definition set_calls (x : list Call.t) (s : Transport.t) : Transport.t :=
  mk (transport_closed s) (reader s) (writer s) (queue s) (written s) x (capacity s).

Definition happens (e : event) (s : Transport.t) : option Transport.t :=
  match e with
  | Open => Some (set_calls (calls s ++ [Call.mk Entering false None]) s)
  | Advance i =>
      match calls s !! i with
      | Some c =>
          match advance_call s c with
          | Some st =>
              let s' := set_calls (<[i := goto st c]> (calls s)) s in
              Some (match st with
                    | Submitted => mk (transport_closed s') (reader s') (writer s') (queue s' ++ [i])
                                      (written s') (calls s') (capacity s')
                    | _ => s'
                    end)
          | None => None
          end
      | None => None
      end
  | TimeOut i timeout =>
      match calls s !! i with
      | Some c =>
          match Call.at_ c with
          | Waiting => Some (set_calls (<[i := goto (Returned (Some (Err (Error.Timeout timeout)))) c]> (calls s)) s)
          | _ => None
          end
      | None => None
      end
  | Abandon i =>
      match calls s !! i with
      | Some c =>
          match Call.at_ c with
          | Returned _ => None
          | _ => Some (set_calls (<[i := goto (Returned None) c]> (calls s)) s)
          end
      | None => None
      end
  | WriteBatch n ok =>
      (* [recv], then [try_recv] up to the size of a batch *)
      match writer s with
      | Running =>
          if ((1 <=? n) && (n <=? MAX_WRITE_BATCH_RECORDS) && (n <=? length (queue s)))%nat then
            Some (mk (transport_closed s || negb ok) (reader s) (if ok then Running else Closing)
                     (drop n (queue s)) (written s ++ take n (queue s)) (calls s) (capacity s))
          else None
      | _ => None
      end
  | WriterFails =>
      match writer s with
      | Closing => Some (mk (transport_closed s) (reader s) Ended [] (written s) (fail_all (calls s)) (capacity s))
      | _ => None
      end
  | Reply i xid response =>
      match reader s, calls s !! i with
      | Running, Some c =>
          match Call.registered c, Call.answer c with
          | true, None =>
              Some (set_calls (<[i := Call.mk (Call.at_ c) true (Some (decode_reply xid response))]> (calls s)) s)
          | _, _ => None
          end
      | _, _ => None
      end
  | ReadError =>
      match reader s with
      | Running => Some (mk true Closing (writer s) (queue s) (written s) (calls s) (capacity s))
      | _ => None
      end
  | ReaderFails =>
      match reader s with
      | Closing => Some (mk (transport_closed s) Ended (writer s) (queue s) (written s) (fail_all (calls s)) (capacity s))
      | _ => None
      end
  end.

Inductive transport_reach (pending_capacity : Z) : Transport.t → Prop :=
| transport_start : transport_reach pending_capacity (initial_transport pending_capacity)
| transport_event s e s' :
    transport_reach pending_capacity s → happens e s = Some s' → transport_reach pending_capacity s'.

Fixpoint run_events (l : list event) (s : Transport.t) : option Transport.t :=
  match l with
  | [] => Some s
  | e :: l => match happens e s with Some s => run_events l s | None => None end
  end.

(** ** The error of a reply *)

(** No reply is decoded to the error of a request that was not sent. *)
Definition sent_error {A} (m : dec A) : Prop :=
  ∀ b e, (m b).1 = Err e → Error.is_request_not_sent e = false.

Lemma sent_error_ret {A} (a : A) : sent_error (sret a).
Proof. done. Qed.
Lemma sent_error_bind {A B} (m : dec A) (k : A → dec B) :
  sent_error m → (∀ a, sent_error (k a)) → sent_error (sbind m k).
Proof.
  intros Hm Hk b e. specialize (Hm b). unfold sbind. destruct (m b) as [[a|e'|] b']; cbn in *; [apply Hk|naive_solver|done].
Qed.
Lemma sent_error_fail {A} msg : sent_error (A:=A) (sfail (Error.rpc msg)).
Proof. intros b e [= <-]. done. Qed.
Lemma sent_error_require n : sent_error (XdrDecoder.require n).
Proof. intros b e. unfold XdrDecoder.require. destruct (blen b <? n); [by intros [= <-]|done]. Qed.
Lemma sent_error_split n : sent_error (buf.split_to n).
Proof. intros b e. unfold buf.split_to. by destruct (n <=? blen b). Qed.
Lemma sent_error_lift {A} (r : res Error.t A) :
  (∀ e, r = Err e → Error.is_request_not_sent e = false) → sent_error (slift r).
Proof. intros H b e. apply H. Qed.
Lemma sent_error_checked_add a b msg :
  sent_error (slift (ok_or (checked_add a b) (Error.xdr msg))).
Proof. apply sent_error_lift. intros e. destruct (checked_add a b); [done|]. by intros [= <-]. Qed.
Lemma sent_error_padded len : sent_error (slift (opaque_padded_len len)).
Proof.
  apply sent_error_lift. intros e. unfold opaque_padded_len, ok_or. repeat case_match; naive_solver.
Qed.
Lemma sent_error_remaining : sent_error XdrDecoder.remaining.
Proof. done. Qed.

Ltac sent_error_go :=
  repeat first
    [ apply sent_error_bind; [|intros []] | apply sent_error_bind; [|intros ?] | apply sent_error_ret
    | apply sent_error_fail | apply sent_error_require | apply sent_error_split | apply sent_error_checked_add
    | apply sent_error_padded | apply sent_error_remaining
    | match goal with
      | |- sent_error (let '_ := ?x in _) => destruct x
      | |- sent_error (if ?b then _ else _) => destruct b
      end ].

Lemma decode_reply_sent xid response e :
  decode_reply xid response = Err e → Error.is_request_not_sent e = false.
Proof.
  unfold decode_reply. assert (H : sent_error (decode_reply_message xid)); [|apply H].
  unfold decode_reply_message, XdrDecoder.read_u32_triple, XdrDecoder.read_u32_skip_opaque_and_read_u32,
    XdrDecoder.into_remaining, XdrDecoder.read_u32_pair, XdrDecoder.read_u32_after_require, buf.get_u32,
    buf.advance, buf.copy_to_bytes.
  sent_error_go.
Qed.

(** ** The invariant *)

Definition sent (s : Transport.t) : list nat := queue s ++ written s.

(** The stages before the request is handed over, and the return that says it
    never was. *)
Definition unsent (st : stage) : Prop :=
  match st with
  | Entering | Cleared | Registered | Encoded => True
  | Returned (Some (Err e)) => Error.is_request_not_sent e = true
  | _ => False
  end.

Definition live (st : stage) : Prop :=
  match st with Registered | Encoded | Submitted | Waiting => True | _ => False end.

Definition alive (s : Transport.t) : Prop := reader s ≠ Ended ∧ writer s ≠ Ended.

Record call_ok (s : Transport.t) (i : nat) (c : Call.t) : Prop := {
  ok_unsent : unsent (Call.at_ c) → i ∉ sent s;
  ok_registered : live (Call.at_ c) → Call.answer c = None → Call.registered c = true;
  ok_alive : Call.at_ c = Waiting → Call.answer c = None → alive s;
  ok_answer e : Call.answer c = Some (Err e) → Error.is_request_not_sent e = false;
}.

Record transport_ok (s : Transport.t) : Prop := {
  t_closed : transport_closed s = false → reader s = Running ∧ writer s = Running;
  t_ids i : i ∈ sent s → (i < length (calls s))%nat;
  t_calls i c : calls s !! i = Some c → call_ok s i c;
}.

Lemma call_ok_mono s s' i c :
  call_ok s i c → (i ∈ sent s' → i ∈ sent s) → (alive s → alive s') → call_ok s' i c.
Proof. intros [H1 H2 H3 H4] Hs Ha. split; [naive_solver|done|naive_solver|done]. Qed.

(** The calls stay as they are. *)
Lemma transport_ok_mono s s' :
  transport_ok s → calls s' = calls s → (∀ i, i ∈ sent s' → i ∈ sent s) → (alive s → alive s') →
  (transport_closed s' = false → reader s' = Running ∧ writer s' = Running) → transport_ok s'.
Proof.
  intros [Hc Hi Ht] Ecalls Hs Ha Hc'. split; [done|rewrite Ecalls; naive_solver|].
  intros i c. rewrite Ecalls. intros H. eapply call_ok_mono; [by apply Ht|naive_solver|done].
Qed.

(** One call changes. *)
Lemma transport_ok_call s i c c' :
  transport_ok s → calls s !! i = Some c → call_ok s i c' → transport_ok (set_calls (<[i := c']> (calls s)) s).
Proof.
  intros [Hc Hi Ht] Hl Hc'. split; [done|cbn; by rewrite length_insert|].
  intros j d [(<- & <- & _)|[_ H]]%list_lookup_insert_Some; [by destruct Hc'|]. by destruct (Ht j d H).
Qed.

(** A request is handed to the writer. *)
Lemma transport_ok_submit s i c :
  transport_ok s → calls s !! i = Some c → Call.at_ c = Encoded → writer s ≠ Ended →
  transport_ok (mk (transport_closed s) (reader s) (writer s) (queue s ++ [i]) (written s)
    (<[i := goto Submitted c]> (calls s)) (capacity s)).
Proof.
  intros [Hc Hi Ht] Hl Hat Hw. pose proof (Ht i c Hl) as [H1 H2 H3 H4]. rewrite Hat in H2.
  assert (Hsent : ∀ j, j ∈ sent (mk (transport_closed s) (reader s) (writer s) (queue s ++ [i]) (written s)
    (<[i := goto Submitted c]> (calls s)) (capacity s)) → j ∈ sent s ∨ j = i).
  { intros j. unfold sent. cbn. rewrite !elem_of_app, list_elem_of_singleton. tauto. }
  split; [done|..].
  - intros j Hj. cbn. rewrite length_insert. destruct (Hsent j Hj) as [?| ->]; [by apply Hi|].
    by apply lookup_lt_Some in Hl.
  - intros j d [(<- & <- & _)|[Hne H]]%list_lookup_insert_Some; [by split; cbn|].
    eapply call_ok_mono; [by apply Ht| |done]. intros Hj. by destruct (Hsent j Hj) as [?| ->].
Qed.

Lemma advance_ok s c i st :
  transport_ok s → calls s !! i = Some c → advance_call s c = Some st → st ≠ Submitted →
  call_ok s i (goto st c).
Proof.
  intros [Hc Hi Ht] Hl H Hne. pose proof (Ht i c Hl) as [H1 H2 H3 H4]. unfold advance_call in H.
  destruct (Call.at_ c) eqn:Hat; cbn in H1, H2.
  - injection H as <-. by destruct (transport_closed s); split; cbn; auto.
  - injection H as <-. by split; cbn; auto.
  - injection H as <-. by destruct (transport_closed s); split; cbn; auto.
  - destruct (writer s); [destruct (_ <? _)..|]; try done; injection H as <-; [done..|]. by split; cbn; auto.
  - injection H as <-. destruct (transport_closed s) eqn:Ecl; [by split; cbn|].
    destruct (Hc eq_refl) as [Er Ew]. split; cbn; [done|by auto| |done]. intros _ _. unfold alive. by rewrite Er, Ew.
  - destruct (Call.answer c) as [r|] eqn:Ea; [|done]. injection H as <-. split; cbn; [|done|done|].
    + destruct r as [b|e|]; [done| |done]. intros He. by rewrite (H4 e eq_refl) in He.
    + intros e. rewrite Ea. apply H4.
  - done.
Qed.

(** All registered calls are failed. *)
Lemma transport_ok_fail s s' :
  transport_ok s → calls s' = fail_all (calls s) → (∀ i, i ∈ sent s' → i ∈ sent s) →
  (transport_closed s' = false → reader s' = Running ∧ writer s' = Running) → transport_ok s'.
Proof.
  intros [Hc Hi Ht] Ecalls Hs Hc'. split; [done|unfold fail_all in Ecalls; rewrite Ecalls, length_fmap; naive_solver|].
  intros i c. rewrite Ecalls. unfold fail_all. rewrite list_lookup_fmap_Some. intros (d & -> & Hd).
  pose proof (Ht i d Hd) as [H1 H2 H3 H4]. unfold fail_call.
  destruct (Call.registered d) eqn:Er.
  - split; cbn; [intros Hu Hin; by apply (H1 Hu), Hs|by destruct (Call.answer d)..|].
    intros e. destruct (Call.answer d) as [r|] eqn:Ea; [apply H4|]. by intros [= <-].
  - split; [intros Hu Hin; by apply (H1 Hu), Hs|by rewrite Er| |exact H4].
    intros Hat Ha. rewrite Hat in H2. by specialize (H2 I Ha).
Qed.

Lemma transport_ok_event s e s' : transport_ok s → happens e s = Some s' → transport_ok s'.
Proof.
  intros Hok H. destruct e as [|i|i d|i|n ok| |i xid b| |]; cbn [happens] in H.
  - injection H as <-. destruct Hok as [Hc Hi Ht]. split; [done|..].
    + intros j Hj. cbn. rewrite length_app. specialize (Hi j Hj). lia.
    + intros j c H. cbn in H. apply lookup_app_Some in H as [H|[Hj H]]; [by destruct (Ht j c H)|].
      apply list_lookup_singleton_Some in H as [Hj' <-]. split; cbn; try done.
      intros _ Hs. specialize (Hi j Hs). lia.
  - destruct (calls s !! i) as [c|] eqn:Hl; [|done]. destruct (advance_call s c) as [st|] eqn:Ha; [|done].
    injection H as <-. destruct st; try (apply (transport_ok_call s i c); [done..|by eapply advance_ok]).
    assert (Hat : Call.at_ c = Encoded ∧ writer s ≠ Ended).
    { unfold advance_call in Ha. destruct (Call.at_ c), (transport_closed s), (writer s), (blen (queue s) <? capacity s);
        try done; by destruct (Call.answer c). }
    destruct Hat. by apply transport_ok_submit.
  - destruct (calls s !! i) as [c|] eqn:Hl; [|done]. destruct (Call.at_ c) eqn:Hat; try done. injection H as <-.
    apply (transport_ok_call s i c); [done..|]. split; cbn; try done. apply (t_calls _ Hok i c Hl).
  - destruct (calls s !! i) as [c|] eqn:Hl; [|done].
    assert (Hr : s' = set_calls (<[i := goto (Returned None) c]> (calls s)) s)
      by (destruct (Call.at_ c); congruence). subst s'.
    apply (transport_ok_call s i c); [done..|]. split; cbn; try done. apply (t_calls _ Hok i c Hl).
  - destruct (writer s) eqn:Hw; try done. destruct (_ && _)%nat; [|done]. injection H as <-.
    apply (transport_ok_mono s); [done|done|..].
    + intros j. unfold sent. cbn. rewrite <- (take_drop n (queue s)) at 3. rewrite !elem_of_app. tauto.
    + intros [Hr _]. split; [done|]. cbn. by destruct ok.
    + cbn. intros [Ecl ->%negb_false_iff]%orb_false_iff. by apply (t_closed _ Hok) in Ecl as [-> _].
  - destruct (writer s) eqn:Hw; try done. injection H as <-. apply (transport_ok_fail s); [done|done|..].
    + intros j. unfold sent. cbn. rewrite elem_of_app. tauto.
    + cbn. intros Ecl. apply (t_closed _ Hok) in Ecl as [_ E]. congruence.
  - destruct (reader s) eqn:Hr; try done. destruct (calls s !! i) as [c|] eqn:Hl; [|done].
    destruct (Call.registered c) eqn:Er; [|done]. destruct (Call.answer c) eqn:Ea; [done|]. injection H as <-.
    pose proof (t_calls _ Hok i c Hl) as [H1 H2 H3 H4].
    apply (transport_ok_call s i c); [done..|]. split; cbn; try done. intros e [= He]. by eapply decode_reply_sent.
  - destruct (reader s) eqn:Hr; try done. injection H as <-. apply (transport_ok_mono s); try done.
    intros [_ Hw]. by split.
  - destruct (reader s) eqn:Hr; try done. injection H as <-. apply (transport_ok_fail s); [done|done|done|].
    cbn. intros Ecl. apply (t_closed _ Hok) in Ecl as [E _]. congruence.
Qed.

Lemma transport_reach_ok n s : transport_reach n s → transport_ok s.
Proof.
  induction 1 as [|s e s' _ IH H]; [|by eapply transport_ok_event].
  split; [done|..]; [intros i H; by apply not_elem_of_nil in H|done].
Qed.

(** C23: the error of a request that was not sent is true.  Whatever order
    the calls, the reader and the writer run in, a call that returns it has
    not handed its request to the writer and no write of it was begun: the
    classification of failures that allows a retry rests on this. *)
Theorem not_sent_means_unwritten pending_capacity s i c e :
  transport_reach pending_capacity s → calls s !! i = Some c → Call.at_ c = Returned (Some (Err e)) →
  Error.is_request_not_sent e = true → i ∉ queue s ∧ i ∉ written s.
Proof.
  intros Hs Hi Hat He. pose proof (t_calls _ (transport_reach_ok _ s Hs) i c Hi) as H.
  apply not_elem_of_app. apply (ok_unsent _ _ _ H). by rewrite Hat.
Qed.

(** C24: no call is left waiting on a dead connection.  When the reader or
    the writer has ended, in whatever order it closed the transport and the
    call registered itself, every call that waits has its answer and can
    return. *)
Theorem call_never_stranded pending_capacity s i c :
  transport_reach pending_capacity s → calls s !! i = Some c → Call.at_ c = Waiting → reader s = Ended ∨ writer s = Ended →
  ∃ r s', Call.answer c = Some r ∧ happens (Advance i) s = Some s'
    ∧ Call.at_ <$> calls s' !! i = Some (Returned (Some r)).
Proof.
  intros Hs Hi Hat Hend. pose proof (t_calls _ (transport_reach_ok _ s Hs) i c Hi) as H.
  destruct (Call.answer c) as [r|] eqn:Ea.
  - exists r. cbn [happens]. rewrite Hi. unfold advance_call. rewrite Hat, Ea. eexists. split_and!; [done..|].
    cbn. rewrite list_lookup_insert_eq by (by apply lookup_lt_Some in Hi). done.
  - destruct (ok_alive _ _ _ H Hat Ea) as [Hr Hw]. by destruct Hend.
Qed.

(** ** A run *)

(** One call waits when the connection breaks; another registers between the
    flag and the failing of the calls; a third comes after. *)
Definition sample_events : list event :=
  [Open; Advance 0; Advance 0; Advance 0; Advance 0; Advance 0; WriteBatch 1 true;
   Open; Advance 1; ReadError; Advance 1; ReaderFails; Advance 1; Open; Advance 2].

Definition sample_transport : Transport.t :=
  match run_events sample_events (initial_transport 1) with Some s => s | None => initial_transport 1 end.

Lemma run_events_reach n l s s' : transport_reach n s → run_events l s = Some s' → transport_reach n s'.
Proof.
  revert s. induction l as [|e l IH]; intros s Hs H; cbn in H; [by injection H as <-|].
  destruct (happens e s) as [s1|] eqn:E; [|done]. eapply IH; [|exact H]. by eapply transport_event.
Qed.

Lemma sample_transport_reach : transport_reach 1 sample_transport.
Proof.
  apply (run_events_reach 1 sample_events (initial_transport 1)); [apply transport_start|vm_compute; reflexivity].
Qed.

Lemma not_sent_means_unwritten_witness :
  Call.at_ <$> calls sample_transport !! 1%nat = Some (Returned (Some (Err rpc_request_not_sent_error)))
  ∧ written sample_transport = [0%nat] ∧ 1%nat ∉ queue sample_transport ∧ 1%nat ∉ written sample_transport.
Proof.
  split; [reflexivity|]. split; [reflexivity|].
  exact (not_sent_means_unwritten 1 sample_transport 1
    (Call.mk (Returned (Some (Err rpc_request_not_sent_error))) false (Some (Err (Error.connection_lost "{err}"))))
    rpc_request_not_sent_error sample_transport_reach eq_refl eq_refl eq_refl).
Defined.

Lemma call_never_stranded_witness :
  reader sample_transport = Ended ∧ Call.at_ <$> calls sample_transport !! 0%nat = Some Waiting
  ∧ ∃ r s', happens (Advance 0) sample_transport = Some s'
      ∧ Call.at_ <$> calls s' !! 0%nat = Some (Returned (Some r)).
Proof.
  split; [reflexivity|]. split; [reflexivity|].
  destruct (call_never_stranded 1 sample_transport 0
    (Call.mk Waiting false (Some (Err (Error.connection_lost "{err}")))) sample_transport_reach
    eq_refl eq_refl (or_introl eq_refl)) as (r & s' & _ & H).
  by exists r, s'.
Defined.
