(* ===== verification/Float64.v ===== *)
(** * Binary64 arithmetic

    The benchmark programs compute rates and percentiles in [f64].  Rust's
    [f64] is IEEE 754 binary64 with rounding to nearest, ties to even, which
    the Standard Library specifies by the executable functions of [SpecFloat].
    This file names the operations the programs use, with the conversions of
    [as], and proves what rounding does to a product.

    The result of a multiplication is the exact product rounded on a grid; the
    lemmas give the grid and the error, so that a client can bound it. *)

From Stdlib Require Import Floats.SpecFloat.
From S2P Require Import Prelude.

Abbreviation f64 := spec_float (only parsing).

Module F64.

Definition prec : Z := 53.
Definition emax : Z := 1024.

(** [n as f64] *)
Definition of_Z (n : Z) : f64 := binary_normalize prec emax n 0 false.

Definition mul : f64 → f64 → f64 := SFmul prec emax.
Definition div : f64 → f64 → f64 := SFdiv prec emax.
Definition add : f64 → f64 → f64 := SFadd prec emax.
Definition sub : f64 → f64 → f64 := SFsub prec emax.
Definition sqrt : f64 → f64 := SFsqrt prec emax.

(** The literal [a / b] in decimal notation: the nearest [f64]. *)
Definition lit (a b : Z) : f64 := div (of_Z a) (of_Z b).

Definition zero : f64 := S754_zero false.

(** [<=] and [<]: false when an operand is NaN. *)
Definition leb : f64 → f64 → bool := SFleb.
Definition ltb : f64 → f64 → bool := SFltb.

(** [f64::max], [f64::min]: the other operand when one is NaN. *)
Definition max (a b : f64) : f64 :=
  match a, b with
  | S754_nan, _ => b
  | _, S754_nan => a
  | _, _ => if ltb a b then b else a
  end.

Definition min (a b : f64) : f64 :=
  match a, b with
  | S754_nan, _ => b
  | _, S754_nan => a
  | _, _ => if ltb b a then b else a
  end.

(** [f64::clamp], for bounds that are in order. *)
Definition clamp (x lo hi : f64) : f64 :=
  let x := if ltb x lo then lo else x in
  if ltb hi x then hi else x.

(** [f64::ceil] *)
Definition ceil (x : f64) : f64 :=
  match x with
  | S754_finite s m e =>
      if 0 <=? e then x
      else
        let q := Z.pos m / 2 ^ (- e) in
        if s then binary_normalize prec emax (- q) 0 true
        else of_Z (if Z.pos m `mod` 2 ^ (- e) =? 0 then q else q + 1)
  | _ => x
  end.

(** [x as uN]: truncation that saturates; NaN becomes zero. *)
Definition as_unsigned (width_max : Z) (x : f64) : Z :=
  match x with
  | S754_finite false m e => Z.min (Z.shiftl (Z.pos m) e) width_max
  | S754_infinity false => width_max
  | _ => 0
  end.

Definition as_u64 : f64 → Z := as_unsigned u64_max.
Definition as_usize : f64 → Z := as_unsigned usize_max.
Definition as_u32 : f64 → Z := as_unsigned u32_max.

(** [values.sum::<f64>()] *)
Definition sum (l : list f64) : f64 := fold_left add l (S754_zero true).

End F64.

(** ** Shifting right with a sticky bit *)

(** [shifted m k r]: [r] is [m] shifted by [k] places, with the round and the
    sticky bit telling how the part cut off compares to half a unit. *)
Definition shifted (m k : Z) (r : shr_record) : Prop :=
  shr_m r = m / 2 ^ k ∧
  match shr_r r, shr_s r with
  | false, false => m `mod` 2 ^ k = 0
  | false, true => 0 < 2 * (m `mod` 2 ^ k) < 2 ^ k
  | true, false => 2 * (m `mod` 2 ^ k) = 2 ^ k
  | true, true => 2 ^ k < 2 * (m `mod` 2 ^ k)
  end.

Lemma shifted_0 m : shifted m 0 (Build_shr_record m false false).
Proof. split; cbn; [by rewrite Z.div_1_r|by rewrite Z.mod_1_r]. Qed.

Lemma shr_1_spec m r s : 0 ≤ m →
  shr_1 (Build_shr_record m r s) = Build_shr_record (m / 2) (Z.odd m) (r || s).
Proof.
  intros Hm. rewrite <- Z.div2_div. by destruct m as [|[p|p|]|p]; cbn; [..|lia].
Qed.

Lemma shifted_step m k r : 0 ≤ m → 0 ≤ k → shifted m k r → shifted m (k + 1) (shr_1 r).
Proof.
  intros Hm Hk [Hq Hr]. destruct r as [q rb sb]. cbn in Hq, Hr. subst q.
  pose proof (Z.div_pos m (2 ^ k) Hm ltac:(lia)) as Hq.
  rewrite shr_1_spec by done. unfold shifted. cbn [shr_m shr_r shr_s].
  rewrite Z.pow_add_r, Z.pow_1_r by lia.
  rewrite Z.rem_mul_r, Z.div_div by lia. split; [done|].
  rewrite Zmod_odd. pose proof (Z.mod_pos_bound m (2 ^ k) ltac:(lia)).
  destruct (Z.odd (m / 2 ^ k)), rb, sb; cbn [orb]; lia.
Qed.

Lemma iter_pos_nat {A} (f : A → A) p x : SpecFloat.iter_pos f p x = Nat.iter (Pos.to_nat p) f x.
Proof.
  induction p as [p IH|p IH|] in x |- *; cbn [SpecFloat.iter_pos]; [| |done]; rewrite !IH, <- Nat.iter_add.
  - rewrite Pos2Nat.inj_xI, <- Nat.iter_succ_r. f_equal. lia.
  - rewrite Pos2Nat.inj_xO. f_equal. lia.
Qed.

Lemma shifted_iter m n : 0 ≤ m →
  shifted m (Z.of_nat n) (Nat.iter n shr_1 (Build_shr_record m false false)).
Proof.
  intros Hm. induction n as [|n IH]; [apply shifted_0|].
  rewrite Nat2Z.inj_succ, <- Z.add_1_r. apply shifted_step; [done|lia|done].
Qed.

Lemma shr_spec m e n : 0 ≤ m → 0 ≤ n →
  ∃ r, shr (Build_shr_record m false false) e n = (r, e + n) ∧ shifted m n r.
Proof.
  intros Hm Hn. destruct n as [|p|p]; [..|lia].
  - exists (Build_shr_record m false false). split; [by rewrite Z.add_0_r|apply shifted_0].
  - eexists. split; [done|]. rewrite iter_pos_nat, <- positive_nat_Z. by apply shifted_iter.
Qed.

(** ** Rounding to nearest *)

(** [nearest m k r]: [r] is a multiple of [2^k] closest to [m], in units. *)
Definition nearest (m k r : Z) : Prop := 2 * Z.abs (r * 2 ^ k - m) ≤ 2 ^ k.

Lemma round_shifted m k r : 0 ≤ m → 0 ≤ k → shifted m k r →
  let q := round_nearest_even (shr_m r) (loc_of_shr_record r) in
  nearest m k q ∧ m / 2 ^ k ≤ q ≤ m / 2 ^ k + 1.
Proof.
  intros Hm Hk [Hq Hr]. destruct r as [q rb sb]. cbn in *. subst q. unfold nearest.
  pose proof (Z.div_mod m (2 ^ k) ltac:(lia)). pose proof (Z.mod_pos_bound m (2 ^ k) ltac:(lia)).
  destruct rb, sb; cbn; [|destruct (Z.even _)|..]; nia.
Qed.

(** An integer that lies on the grid bounds the rounded value if it bounds the
    exact one up to less than half a step. *)
Lemma nearest_le m k r g : 0 ≤ k → nearest m k r → 2 * m < 2 * (g * 2 ^ k) + 2 ^ k → r ≤ g.
Proof. intros Hk Hr Hg. unfold nearest in Hr. nia. Qed.

Lemma nearest_gt m k r g : 0 ≤ k → nearest m k r → 2 * (g * 2 ^ k) + 2 ^ k < 2 * m → g < r.
Proof. intros Hk Hr Hg. unfold nearest in Hr. nia. Qed.

(** ** Digits *)

Lemma digits2_pos_bounds p :
  2 ^ (Z.pos (digits2_pos p) - 1) ≤ Z.pos p < 2 ^ Z.pos (digits2_pos p).
Proof.
  induction p as [p IH|p IH|]; [..|done]; cbn [digits2_pos]; rewrite Pos2Z.inj_succ;
    rewrite Z.pow_succ_r by lia; unfold Z.succ; rewrite Z.add_simpl_r;
    rewrite (Z.pow_sub_r 2 (Z.pos (digits2_pos p)) 1) in IH by lia;
    change (2 ^ 1) with 2 in IH;
    assert (2 ^ Z.pos (digits2_pos p) `mod` 2 = 0)
      by (rewrite <- (Z.succ_pred (Z.pos (digits2_pos p))), Z.pow_succ_r, Z.mul_comm by lia;
          apply Z.mod_mul; lia);
    pose proof (Z.div_mod (2 ^ Z.pos (digits2_pos p)) 2 ltac:(lia)); lia.
Qed.

Lemma Zdigits2_bounds m : 0 < m → 2 ^ (Zdigits2 m - 1) ≤ m < 2 ^ Zdigits2 m ∧ 1 ≤ Zdigits2 m.
Proof. intros Hm. destruct m as [|p|p]; [lia| |lia]. split; [apply digits2_pos_bounds|cbn; lia]. Qed.

Lemma Zdigits2_unique m d : 0 < m → 1 ≤ d → 2 ^ (d - 1) ≤ m < 2 ^ d → Zdigits2 m = d.
Proof.
  intros Hm Hd [Hlo Hhi]. destruct (Zdigits2_bounds m Hm) as [[Hlo' Hhi'] Hd'].
  assert (d - 1 < Zdigits2 m) by (apply (Z.pow_lt_mono_r_iff 2); lia).
  assert (Zdigits2 m - 1 < d) by (apply (Z.pow_lt_mono_r_iff 2); lia). lia.
Qed.

(** ** Rounding a positive mantissa

    [M * 2^E] with [s] digits more than the precision, away from the ends of
    the exponent range. *)

Definition normal_range (e : Z) : Prop := -900 ≤ e ≤ 900.

Lemma fexp_normal d e : normal_range (d + e) → fexp F64.prec F64.emax (d + e) = d + e - F64.prec.
Proof. unfold normal_range, fexp, emin, F64.prec, F64.emax. lia. Qed.

(** The value of the result, on the grid of the first rounding. *)
Definition on_grid (x : f64) (r g : Z) : Prop :=
  x = S754_finite false (Z.to_pos r) g ∧ 0 < r < 2 ^ 53
  ∨ r = 2 ^ 53 ∧ x = S754_finite false (Z.to_pos (2 ^ 52)) (g + 1).

Lemma round_positive M E s :
  0 ≤ s → 2 ^ (52 + s) ≤ M < 2 ^ (53 + s) → -800 ≤ E + s ≤ 800 →
  ∃ r, on_grid (binary_round_aux F64.prec F64.emax false M E loc_Exact) r (E + s)
    ∧ nearest M s r ∧ 2 ^ 52 ≤ r ≤ 2 ^ 53.
Proof.
  intros Hs HM HE. pose proof (Z.pow_pos_nonneg 2 (52 + s) ltac:(lia) ltac:(lia)).
  unfold binary_round_aux, shr_fexp.
  assert (Hd : Zdigits2 M = 53 + s)
    by (apply Zdigits2_unique; [lia..|]; replace (53 + s - 1) with (52 + s) by lia; lia).
  rewrite Hd, fexp_normal by (unfold normal_range in *; lia).
  replace (53 + s + E - F64.prec - E) with s by (unfold F64.prec; lia).
  cbn [shr_record_of_loc]. destruct (shr_spec M E s ltac:(lia) Hs) as (r1 & -> & Hr1).
  cbn beta iota zeta.
  destruct (round_shifted M s r1 ltac:(lia) Hs Hr1) as [Hn Hq]. set (q := round_nearest_even _ _) in *.
  assert (2 ^ 52 ≤ M / 2 ^ s < 2 ^ 53) as Hb.
  { rewrite !Z.pow_add_r in HM by lia. split; [apply Z.div_le_lower_bound; lia|].
    apply Z.div_lt_upper_bound; lia. }
  exists q. split; [|split; [done|lia]]. cbn [shr_record_of_loc].
  destruct (decide (q = 2 ^ 53)) as [Hq2|Hq2].
  - right. rewrite Hq2.
    rewrite (Zdigits2_unique (2 ^ 53) 54) by lia.
    rewrite fexp_normal by (unfold normal_range in *; lia).
    replace (54 + (E + s) - F64.prec - (E + s)) with 1 by (unfold F64.prec; lia).
    split; [done|]. cbn [shr SpecFloat.iter_pos shr_1 shr_m].
    destruct (Z.leb_spec (E + s + 1) (F64.emax - F64.prec)); [done|].
    unfold normal_range, F64.emax, F64.prec in *. lia.
  - left. rewrite (Zdigits2_unique q 53) by lia.
    rewrite fexp_normal by (unfold normal_range in *; lia).
    replace (53 + (E + s) - F64.prec - (E + s)) with 0 by (unfold F64.prec; lia).
    cbn [shr shr_m]. destruct q as [|p|p]; [lia| |lia]. split; [|lia].
    destruct (Z.leb_spec (E + s) (F64.emax - F64.prec)); [done|].
    unfold normal_range, F64.emax, F64.prec in *. lia.
Qed.

(** An integer below [2^53] is represented exactly. *)
Lemma iter_xO p k : Z.pos (Pos.iter xO p k) = Z.pos p * 2 ^ Z.pos k.
Proof.
  induction k as [|k IH] using Pos.peano_ind; [cbn; lia|].
  rewrite Pos.iter_succ, Pos2Z.inj_succ, Z.pow_succ_r by lia. rewrite (Pos2Z.inj_xO (Pos.iter xO p k)), IH. lia.
Qed.

Lemma shl_align_down p d : d ≤ 53 →
  shl_align p 0 (d - 53) = (Z.to_pos (Z.pos p * 2 ^ (53 - d)), d - 53).
Proof.
  intros Hd. unfold shl_align. rewrite Z.sub_0_r. destruct (d - 53) as [|k|k] eqn:Hk; [|lia|].
  - replace (53 - d) with 0 by lia. f_equal. lia.
  - replace (53 - d) with (Z.pos k) by lia. by rewrite <- iter_xO.
Qed.

Lemma of_Z_exact n d : 1 ≤ d ≤ 53 → 2 ^ (d - 1) ≤ n < 2 ^ d →
  F64.of_Z n = S754_finite false (Z.to_pos (n * 2 ^ (53 - d))) (d - 53).
Proof.
  intros Hd Hn. assert (0 < 2 ^ (d - 1)) by lia. destruct n as [|p|p]; [lia| |lia].
  unfold F64.of_Z, binary_normalize, binary_round.
  assert (Hdig : Z.pos (digits2_pos p) = d) by (change (Zdigits2 (Z.pos p) = d); apply Zdigits2_unique; lia).
  rewrite Hdig, fexp_normal by (unfold normal_range; lia).
  replace (d + 0 - F64.prec) with (d - 53) by (unfold F64.prec; lia).
  rewrite shl_align_down by lia. set (m := Z.pos p * 2 ^ (53 - d)).
  assert (Hm : 2 ^ 52 ≤ m < 2 ^ 53).
  { assert (2 ^ 52 = 2 ^ (d - 1) * 2 ^ (53 - d)) by (rewrite <- Z.pow_add_r by lia; f_equal; lia).
    assert (2 ^ 53 = 2 ^ d * 2 ^ (53 - d)) by (rewrite <- Z.pow_add_r by lia; f_equal; lia).
    pose proof (Z.pow_pos_nonneg 2 (53 - d) ltac:(lia) ltac:(lia)). unfold m. nia. }
  cbn beta iota. rewrite Z2Pos.id by lia.
  destruct (round_positive m (d - 53) 0) as (r & Hg & Hr & _); [lia|by rewrite !Z.add_0_r|lia|].
  unfold nearest in Hr. change (2 ^ 0) with 1 in Hr. assert (r = m) as -> by lia. rewrite Z.add_0_r in Hg.
  destruct Hg as [[-> _]|[Hh _]]; [done|lia].
Qed.

(** ** Integers as [f64] and back *)

Lemma digits_exist n : 1 ≤ n → ∃ d, 1 ≤ d ∧ 2 ^ (d - 1) ≤ n < 2 ^ d.
Proof. intros Hn. exists (Zdigits2 n). destruct (Zdigits2_bounds n ltac:(lia)). lia. Qed.

Lemma digits_le n d k : 0 ≤ k → 2 ^ (d - 1) ≤ n → n < 2 ^ k → d ≤ k.
Proof. intros Hk Hd Hn. assert (d - 1 < k) by (apply (Z.pow_lt_mono_r_iff 2); lia). lia. Qed.

Lemma as_unsigned_of_Z w n : 1 ≤ n < 2 ^ 53 → F64.as_unsigned w (F64.of_Z n) = Z.min n w.
Proof.
  intros Hn. destruct (digits_exist n ltac:(lia)) as (d & Hd & Hb).
  pose proof (digits_le n d 53 ltac:(lia) (proj1 Hb) ltac:(lia)).
  rewrite (of_Z_exact n d) by lia. cbn [F64.as_unsigned].
  pose proof (Z.pow_pos_nonneg 2 (53 - d) ltac:(lia) ltac:(lia)).
  rewrite Z2Pos.id by nia. f_equal. replace (d - 53) with (- (53 - d)) by lia.
  rewrite Z.shiftl_opp_r, Z.shiftr_div_pow2 by lia. apply Z.div_mul. lia.
Qed.

(** The quotient rounded up. *)
Definition ceil_div (a b : Z) : Z := (a + b - 1) / b.

Lemma ceil_div_spec a b c : 0 < b → ceil_div a b = c ↔ b * (c - 1) < a ≤ b * c.
Proof.
  intros Hb. unfold ceil_div. pose proof (Z.div_mod (a + b - 1) b ltac:(lia)).
  pose proof (Z.mod_pos_bound (a + b - 1) b Hb). split; [intros <-; lia|]. intros Hc.
  symmetry. apply (Z.div_unique _ _ _ (a + b - 1 - b * c)); lia.
Qed.

Lemma ceil_finite w m e : e < 0 → Z.pos m < 2 ^ 53 →
  F64.as_unsigned w (F64.ceil (S754_finite false m e)) = Z.min (ceil_div (Z.pos m) (2 ^ (- e))) w.
Proof.
  intros He Hm. cbn [F64.ceil]. destruct (Z.leb_spec 0 e); [lia|].
  set (g := 2 ^ (- e)). assert (2 ≤ g).
  { unfold g. change 2 with (2 ^ 1) at 1. apply Z.pow_le_mono_r; lia. }
  pose proof (Z.div_mod (Z.pos m) g ltac:(lia)). pose proof (Z.mod_pos_bound (Z.pos m) g ltac:(lia)).
  assert (Hc : ceil_div (Z.pos m) g = if Z.pos m `mod` g =? 0 then Z.pos m / g else Z.pos m / g + 1).
  { apply ceil_div_spec; [lia|]. destruct (Z.eqb_spec (Z.pos m `mod` g) 0); lia. }
  rewrite <- Hc. apply as_unsigned_of_Z.
  pose proof (proj1 (ceil_div_spec (Z.pos m) g _ ltac:(lia)) eq_refl). nia.
Qed.

Lemma ceil_on_grid w x r g : on_grid x r g → g ≤ -2 →
  F64.as_unsigned w (F64.ceil x) = Z.min (ceil_div r (2 ^ (- g))) w.
Proof.
  intros [[-> Hr]|[-> ->]] Hg.
  - rewrite ceil_finite by lia. by rewrite Z2Pos.id by lia.
  - rewrite ceil_finite by lia. rewrite Z2Pos.id by lia. f_equal.
    set (h := 2 ^ (- (g + 1))). assert (0 < h) by (apply Z.pow_pos_nonneg; lia).
    replace (2 ^ (- g)) with (2 * h)
      by (unfold h; rewrite <- Z.pow_succ_r by lia; f_equal; lia).
    pose proof (proj1 (ceil_div_spec (2 ^ 52) h _ ltac:(lia)) eq_refl) as Hc.
    symmetry. apply ceil_div_spec; [lia|]. change (2 ^ 53) with (2 * 2 ^ 52). lia.
Qed.

(** ** A rank: a fraction of a count, rounded up

    [p] is the [f64] nearest to [a / b], between one half and one; [d] bounds
    how far it is from it.  For counts up to [2^40] the rounding of [p] and of
    the product does not change the rank. *)

Section rank.
Context (mp : positive) (a b d : Z).
Context (Hmp : 2 ^ 52 ≤ Z.pos mp < 2 ^ 53) (Hb : 1 ≤ b ≤ 1000) (Ha : 1 ≤ a ≤ b)
  (Hd : Z.abs (Z.pos mp * b - a * 2 ^ 53) ≤ d) (Hd0 : 2 * d * 2 ^ 53 < b * Z.pos mp).

Lemma rank_exact n : 1 ≤ n ≤ 2 ^ 40 →
  F64.as_usize (F64.ceil (F64.mul (S754_finite false mp (-53)) (F64.of_Z n))) = ceil_div (a * n) b.
Proof.
  intros Hn. destruct (digits_exist n ltac:(lia)) as (c & Hc & Hnc).
  pose proof (digits_le n c 41 ltac:(lia) (proj1 Hnc) ltac:(lia)) as Hc41.
  rewrite (of_Z_exact n c) by lia. cbn [F64.mul SFmul xorb].
  set (k := 53 - c). assert (0 < 2 ^ k) by (apply Z.pow_pos_nonneg; lia).
  replace (c - 53) with (- k) by lia. set (M := Z.pos mp * n * 2 ^ k).
  replace (Z.pos (mp * Z.to_pos (n * 2 ^ k))) with M
    by (unfold M; rewrite Pos2Z.inj_mul, Z2Pos.id by nia; lia).
  assert (Hn2 : 2 ^ 52 ≤ n * 2 ^ k < 2 ^ 53).
  { assert (2 ^ 52 = 2 ^ (c - 1) * 2 ^ k) by (rewrite <- Z.pow_add_r by lia; f_equal; lia).
    assert (2 ^ 53 = 2 ^ c * 2 ^ k) by (rewrite <- Z.pow_add_r by lia; f_equal; lia). nia. }
  assert (∃ s, 52 ≤ s ≤ 53 ∧ 2 ^ (52 + s) ≤ M < 2 ^ (53 + s)) as (s & Hs & HM).
  { destruct (Z.lt_ge_cases M (2 ^ 105)); [exists 52|exists 53]; (split; [lia|]);
      change (2 ^ (52 + 52)) with (2 ^ 52 * 2 ^ 52); change (2 ^ (53 + 53)) with (2 ^ 53 * 2 ^ 53);
      unfold M in *; nia. }
  destruct (round_positive M (-53 + - k) s) as (r & Hg & Hr & _); [lia|done|lia|].
  unfold F64.as_usize. rewrite (ceil_on_grid _ _ _ _ Hg) by lia.
  set (t := - (-53 + - k + s)) in *.
  assert (Ht : 2 ^ t * 2 ^ s = 2 ^ 53 * 2 ^ k) by (rewrite <- !Z.pow_add_r by lia; f_equal; lia).
  set (C := ceil_div (a * n) b). pose proof (proj1 (ceil_div_spec (a * n) b C ltac:(lia)) eq_refl) as HC.
  set (N := n * 2 ^ k) in *. set (K := 2 ^ 53 * 2 ^ k) in *.
  assert (HMN : M = Z.pos mp * N) by (unfold M, N; lia).
  assert (HMb : Z.abs (M * b - (a * n) * K) ≤ d * N).
  { replace (M * b - a * n * K) with ((Z.pos mp * b - a * 2 ^ 53) * N) by (unfold N, K in *; lia).
    rewrite Z.abs_mul, (Z.abs_eq N) by lia. nia. }
  assert (Hs2 : 0 < 2 ^ s ≤ 2 ^ 53) by (split; [lia|apply Z.pow_le_mono_r; lia]).
  assert (HdN : 2 * (d * N) < b * 2 ^ s).
  { apply (Z.mul_lt_mono_pos_r (2 ^ 53)); [lia|]. rewrite !Z.pow_add_r in HM by lia.
    pose proof (Zmult_lt_compat_r _ _ N ltac:(lia) Hd0).
    pose proof (Zmult_lt_compat_l _ _ b ltac:(lia) (proj2 HM)). lia. }
  assert (HK : 2 ^ 53 * 2 ^ 12 ≤ K) by (unfold K; assert (2 ^ 12 ≤ 2 ^ k) by (apply Z.pow_le_mono_r; lia); lia).
  clearbody M N K C. assert (ceil_div r (2 ^ t) = C) as ->.
  { apply ceil_div_spec; [lia|]. rewrite !(Z.mul_comm (2 ^ t)). split.
    - apply (nearest_gt M s r); [lia|exact Hr|]. rewrite <- Z.mul_assoc, Ht.
      apply (Z.mul_lt_mono_pos_r b); [lia|]. assert ((b * (C - 1) + 1) * K ≤ a * n * K) by (apply Z.mul_le_mono_nonneg_r; lia).
      assert (b * 2 ^ s ≤ 1000 * 2 ^ 53) by (apply Z.mul_le_mono_nonneg; lia). lia.
    - apply (nearest_le M s r); [lia|exact Hr|]. rewrite <- Z.mul_assoc, Ht.
      apply (Z.mul_lt_mono_pos_r b); [lia|]. assert (a * n * K ≤ b * C * K) by (apply Z.mul_le_mono_nonneg_r; lia). lia. }
  apply Z.min_l. unfold_widths. assert (a * n ≤ b * n) by (apply Z.mul_le_mono_nonneg_r; lia). nia.
Qed.
End rank.
