(* ===== verification/BenchModel.v ===== *)
(** * The benchmark's data (bench/src/model.rs)

    Backends, operations and scenarios with their identifiers, and the records
    of samples and results.  Rates and latencies in microseconds are [f64]; a
    [PathBuf] is its text. *)

From Stdlib Require Import Floats.SpecFloat.
From stdpp Require Import pretty.
From S2P Require Import Prelude Float64 Errors Owner Builder Efs.

Definition DEFAULT_READ_FILES_PER_WORKER : Z := 2.

Module Args.
Record t : Type := mk {
  endpoint : str;
  tls_server_name : str;
  export : str;
  mount_root : str;
  run_id : str;
  output_dir : str;
  source_revision : str;
  source_dirty : bool;
  seed : Z;
  quick : bool;
  repetitions : Z;
  diagnostics : bool;
  closed_loop_limit : option Z;
  write_size_sweep_kib : list Z;
  operation_timeout_seconds : Z;
  keep_data : bool;
}.
End Args.

Module Backend.
Inductive t : Type := NfsCrust | LinuxRemote | LinuxRemoteTrustedSize | LinuxCached.

#[global] Instance eq_dec : EqDecision t.
Proof. solve_decision. Defined.

Definition label (self : t) : str :=
  match self with
  | NfsCrust => str_of "nfs-crust"
  | LinuxRemote => str_of "linux-remote"
  | LinuxRemoteTrustedSize => str_of "linux-remote-trusted-size"
  | LinuxCached => str_of "linux-page-cache"
  end.
End Backend.

Module Operation.
Inductive t : Type :=
| Get | GetKnownSize | GetRange4k | PutCreateNew | PutOverwrite | EntryInfo | Delete | List100.

#[global] Instance eq_dec : EqDecision t.
Proof. solve_decision. Defined.

Definition label (self : t) : str :=
  match self with
  | Get => str_of "get"
  | GetKnownSize => str_of "get-known-size"
  | GetRange4k => str_of "get-range-4k"
  | PutCreateNew => str_of "put-create-new"
  | PutOverwrite => str_of "put-overwrite"
  | EntryInfo => str_of "entry-info"
  | Delete => str_of "delete"
  | List100 => str_of "list-100"
  end.

Definition transfers_payload (self : t) : bool :=
  match self with
  | Get | GetKnownSize | GetRange4k | PutCreateNew | PutOverwrite => true
  | _ => false
  end.

Definition is_write (self : t) : bool :=
  match self with PutCreateNew | PutOverwrite => true | _ => false end.
End Operation.

Module ScenarioMode.
Inductive t : Type := ClosedLoop | OpenLoop.
End ScenarioMode.

Module OpenLoopLoadBasis.
Inductive t : Type := EqualDemand | EqualUtilization.
End OpenLoopLoadBasis.

(** [format!("{x:.3}")]: the exact value rounded to three decimals, ties to
    even. *)
Definition half_even (num den : Z) : Z :=
  let q := num / den in
  match 2 * (num `mod` den) ?= den with
  | Lt => q
  | Gt => q + 1
  | Eq => if Z.even q then q else q + 1
  end.

Definition fixed3 (thousandths : Z) : str :=
  decimal (thousandths / 1000) ++ str_of "." ++ padded 3 (thousandths `mod` 1000).

Definition format_f64_3 (x : spec_float) : str :=
  let sign (s : bool) := if s then str_of "-" else [] in
  match x with
  | S754_nan => str_of "NaN"
  | S754_infinity s => sign s ++ str_of "inf"
  | S754_zero s => sign s ++ fixed3 0
  | S754_finite s m e =>
      sign s ++ fixed3 (if 0 <=? e then Z.pos m * 2 ^ e * 1000
                        else half_even (Z.pos m * 1000) (2 ^ (- e)))
  end.

Module ScenarioSpec.
Record t : Type := mk {
  id : str;
  family : str;
  backend : Backend.t;
  operation : Operation.t;
  mode : ScenarioMode.t;
  object_size_bytes : Z;
  concurrency : Z;
  client_connections : Z;
  read_granularity_bytes : Z;
  directory_shards : Z;
  read_files_per_worker : Z;
  repetition : Z;
  warmup_ms : Z;
  duration_ms : Z;
  fixed_operations_per_worker : option Z;
  offered_rate_ops_per_sec : option spec_float;
  max_outstanding : option Z;
  open_loop_load_basis : option OpenLoopLoadBasis.t;
}.

Definition closed_loop (family : str) (backend : Backend.t) (operation : Operation.t)
    (object_size_bytes concurrency client_connections read_granularity_bytes directory_shards
     repetition warmup_ms duration_ms : Z) : t :=
  let id :=
    family ++ str_of "--" ++ Backend.label backend ++ str_of "--" ++ Operation.label operation
    ++ str_of "--" ++ decimal object_size_bytes ++ str_of "b--c" ++ decimal concurrency
    ++ str_of "--k" ++ decimal client_connections ++ str_of "--g" ++ decimal read_granularity_bytes
    ++ str_of "--s" ++ decimal directory_shards ++ str_of "--r" ++ decimal repetition
    ++ str_of "--f" ++ decimal DEFAULT_READ_FILES_PER_WORKER in
  mk id family backend operation ScenarioMode.ClosedLoop object_size_bytes concurrency client_connections
     read_granularity_bytes directory_shards DEFAULT_READ_FILES_PER_WORKER repetition warmup_ms duration_ms
     None None None None.

Definition with_fixed_operations (operations_per_worker : Z) (self : t) : t :=
  mk (id self) (family self) (backend self) (operation self) (mode self) (object_size_bytes self)
     (concurrency self) (client_connections self) (read_granularity_bytes self) (directory_shards self)
     (read_files_per_worker self) (repetition self) (warmup_ms self) 0 (Some operations_per_worker)
     (offered_rate_ops_per_sec self) (max_outstanding self) (open_loop_load_basis self).

(** The [assert!] and the [expect] are the panics. *)
Definition with_read_files_per_worker {E} (files : Z) (self : t) : res E t :=
  if files <=? 0 then Panic
  else
    match strip_suffix (str_of "--f" ++ decimal (read_files_per_worker self)) (id self) with
    | None => Panic
    | Some prefix =>
        Ok (mk (prefix ++ str_of "--f" ++ decimal files) (family self) (backend self) (operation self)
              (mode self) (object_size_bytes self) (concurrency self) (client_connections self)
              (read_granularity_bytes self) (directory_shards self) files (repetition self)
              (warmup_ms self) (duration_ms self) (fixed_operations_per_worker self)
              (offered_rate_ops_per_sec self) (max_outstanding self) (open_loop_load_basis self))
    end.

Definition open_loop (family : str) (backend : Backend.t) (operation : Operation.t)
    (object_size_bytes client_connections read_granularity_bytes directory_shards repetition
     warmup_ms duration_ms : Z) (offered_rate_ops_per_sec : spec_float) (max_outstanding : Z)
    (load_basis : OpenLoopLoadBasis.t) : t :=
  let id :=
    family ++ str_of "--" ++ Backend.label backend ++ str_of "--" ++ Operation.label operation
    ++ str_of "--" ++ decimal object_size_bytes ++ str_of "b--rate"
    ++ format_f64_3 offered_rate_ops_per_sec ++ str_of "--k" ++ decimal client_connections
    ++ str_of "--r" ++ decimal repetition ++ str_of "--f" ++ decimal DEFAULT_READ_FILES_PER_WORKER in
  mk id family backend operation ScenarioMode.OpenLoop object_size_bytes max_outstanding client_connections
     read_granularity_bytes directory_shards DEFAULT_READ_FILES_PER_WORKER repetition warmup_ms duration_ms
     None (Some offered_rate_ops_per_sec) (Some max_outstanding) (Some load_basis).

Definition transferred_bytes_per_success (self : t) : Z :=
  match operation self with
  | Operation.GetRange4k => 4096
  | operation => if Operation.transfers_payload operation then object_size_bytes self else 0
  end.
End ScenarioSpec.

(** [status: &'static str]: one of three literals. *)
Module SampleStatus.
Inductive t : Type := ok | error | dropped.

#[global] Instance eq_dec : EqDecision t.
Proof. solve_decision. Defined.
End SampleStatus.

Module RawSample.
Record t : Type := mk {
  scenario_id : str;
  worker : Z;
  sequence : Z;
  completion_offset_ns : Z;
  scheduled_offset_ns : option Z;
  queue_ns : Z;
  service_ns : Z;
  total_response_ns : Z;
  status : SampleStatus.t;
  reconciled_outcome_unknown : bool;
  error : option str;
}.
End RawSample.

Module Distribution.
Record t : Type := mk {
  count : Z;
  min_us : spec_float;
  mean_us : spec_float;
  p50_us : spec_float;
  p90_us : spec_float;
  p95_us : spec_float;
  p99_us : spec_float;
  p999_us : spec_float;
  max_us : spec_float;
  stddev_us : spec_float;
}.

Definition default : t :=
  mk 0 F64.zero F64.zero F64.zero F64.zero F64.zero F64.zero F64.zero F64.zero F64.zero.
End Distribution.

Module ResourceDelta.
Record t : Type := mk {
  user_cpu_ms : spec_float;
  system_cpu_ms : spec_float;
  process_max_rss_kib : Z;
  host_rx_bytes : option Z;
  host_tx_bytes : option Z;
}.
End ResourceDelta.

Module ScenarioResult.
Record t : Type := mk {
  order : Z;
  spec : ScenarioSpec.t;
  started_at_unix_ms : Z;
  actual_elapsed_seconds : spec_float;
  successes : Z;
  measurement_errors : Z;
  errors : Z;
  overload_drops : Z;
  reconciled_outcomes : Z;
  achieved_ops_per_sec : spec_float;
  achieved_mib_per_sec : spec_float;
  service_latency : Distribution.t;
  queue_latency : Distribution.t;
  total_response_latency : Distribution.t;
  p99_sample_sufficient : bool;
  p999_sample_sufficient : bool;
  resource_delta : ResourceDelta.t;
  distinct_errors : list str;
  cross_backend_validation : str;
}.
End ScenarioResult.

Module OpenLoopRateBasis.
Record t : Type := mk {
  operation : Operation.t;
  object_size_bytes : Z;
  nfs_crust_peak_ops_per_sec : spec_float;
  linux_remote_peak_ops_per_sec : spec_float;
  load_fraction : spec_float;
  equal_demand_ops_per_sec : spec_float;
  nfs_crust_equal_utilization_ops_per_sec : spec_float;
  linux_remote_equal_utilization_ops_per_sec : spec_float;
}.
End OpenLoopRateBasis.

Module HostMetadata.
Record t : Type := mk {
  hostname : str;
  os_release : str;
  kernel : str;
  architecture : str;
  rustc : str;
}.
End HostMetadata.

Module RunMetadata.
Record t : Type := mk {
  run_id : str;
  started_at_unix_ms : Z;
  completed_at_unix_ms : Z;
  endpoint : str;
  tls_server_name : str;
  export : str;
  mount_root : str;
  benchmark_root : str;
  source_revision : str;
  source_dirty : bool;
  seed : Z;
  quick : bool;
  diagnostics : bool;
  repetitions : Z;
  mount_remote_read_mode : str;
  direct_io_probe : str;
  host : HostMetadata.t;
}.
End RunMetadata.

Module HarnessConfig.
Record t : Type := mk {
  nfs_session_slots : Z;
  nfs_read_chunk_bytes : Z;
  nfs_write_chunk_bytes : Z;
  default_read_granularity_bytes : Z;
  alternate_read_granularity_bytes : Z;
  default_read_files_per_worker : Z;
  raw_latency_unit : str;
  percentile_method : str;
  p99_minimum_samples : Z;
  p999_minimum_samples : Z;
  timed_region : str;
  rpc_transport : str;
}.
End HarnessConfig.

Module RunSummary.
Record t : Type := mk {
  schema_version : Z;
  metadata : RunMetadata.t;
  harness : HarnessConfig.t;
  open_loop_rate_basis : list OpenLoopRateBasis.t;
  scenarios : list ScenarioResult.t;
}.
End RunSummary.

(** ** Text made of digits *)

Definition is_digit (c : Z) : bool := (48 <=? c) && (c <=? 57).
Definition digits (s : str) : Prop := Forall (λ c, is_digit c = true) s.

(** [s] does not start with a digit. *)
Definition breaks (s : str) : Prop := match s with [] => True | c :: _ => is_digit c = false end.

Lemma pretty_char_digit x : is_digit (Z.of_nat (Ascii.nat_of_ascii (pretty_N_char x))) = true.
Proof. by destruct x as [|[[[[]|[]|]|[[]|[]|]|]|[[[]|[]|]|[[]|[]|]|]|]]. Qed.

Lemma pretty_go_digits x s : digits (str_of s) → digits (str_of (pretty_N_go x s)).
Proof.
  revert s. induction (N.lt_wf_0 x) as [x _ IH]; intros s Hs.
  assert (x = 0 ∨ 0 < x)%N as [->|Hx] by lia; [by rewrite pretty_N_go_0|].
  rewrite pretty_N_go_step by done. apply IH; [by apply N.div_lt|].
  constructor; [apply pretty_char_digit|exact Hs].
Qed.

Lemma decimal_digits n : digits (decimal n).
Proof.
  unfold decimal, pretty, pretty_N. case_decide; [by repeat constructor|].
  apply pretty_go_digits. constructor.
Qed.

Lemma digits_app_inv d1 d2 s1 s2 :
  digits d1 → digits d2 → breaks s1 → breaks s2 → d1 ++ s1 = d2 ++ s2 → d1 = d2 ∧ s1 = s2.
Proof.
  intros Hd1. revert d2. induction Hd1 as [|c d1 Hc Hd1 IH]; intros d2 Hd2 Hs1 Hs2.
  - destruct Hd2 as [|c' d2 Hc']; cbn; [done|]. intros ->. cbn in Hs1. congruence.
  - destruct Hd2 as [|c' d2 Hc' Hd2]; cbn.
    + intros <-. cbn in Hs2. congruence.
    + intros [= -> H]. destruct (IH d2 Hd2 Hs1 Hs2 H) as [-> ->]. done.
Qed.

(** ** The parts of an identifier *)

Module ScenarioId.
Import ScenarioSpec.

Definition head (s : t) : str :=
  family s ++ str_of "--" ++ Backend.label (backend s) ++ str_of "--" ++ Operation.label (operation s)
  ++ str_of "--" ++ decimal (object_size_bytes s) ++ str_of "b--c" ++ decimal (concurrency s)
  ++ str_of "--k" ++ decimal (client_connections s) ++ str_of "--g" ++ decimal (read_granularity_bytes s)
  ++ str_of "--s" ++ decimal (directory_shards s) ++ str_of "--r".

Definition tail (files : Z) : str := str_of "--f" ++ decimal files.

(** The identifier spells out the fields. *)
Definition spelled (s : t) : Prop :=
  id s = head s ++ decimal (repetition s) ++ tail (read_files_per_worker s).

Lemma spelled_closed_loop family backend operation size c k g sh r w d :
  spelled (closed_loop family backend operation size c k g sh r w d).
Proof. unfold spelled, head, tail. cbn [id closed_loop]. by rewrite <- !app_assoc. Qed.

Lemma spelled_fixed n s : spelled s → spelled (with_fixed_operations n s).
Proof. done. Qed.

Lemma spelled_files {E} n s : 1 ≤ n → spelled s →
  ∃ s', with_read_files_per_worker (E:=E) n s = Ok s' ∧ spelled s'
    ∧ (head s', repetition s', read_files_per_worker s') = (head s, repetition s, n)
    ∧ s' = mk (id s') (family s) (backend s) (operation s) (mode s) (object_size_bytes s) (concurrency s)
             (client_connections s) (read_granularity_bytes s) (directory_shards s) n (repetition s)
             (warmup_ms s) (duration_ms s) (fixed_operations_per_worker s) (offered_rate_ops_per_sec s)
             (max_outstanding s) (open_loop_load_basis s).
Proof.
  intros Hn Hs. unfold with_read_files_per_worker. destruct (Z.leb_spec n 0); [lia|].
  rewrite (proj2 (strip_suffix_spec _ _ (head s ++ decimal (repetition s)))) by (rewrite <- app_assoc; exact Hs).
  eexists. split; [done|]. unfold spelled. cbn. by rewrite <- app_assoc.
Qed.

(** Two identifiers with heads that are equal or not prefixes of each other
    are equal only for the same head, repetition and file count. *)
Lemma spelled_inj s1 s2 :
  spelled s1 → spelled s2 → 0 ≤ repetition s1 → 0 ≤ repetition s2 →
  0 ≤ read_files_per_worker s1 → 0 ≤ read_files_per_worker s2 →
  (head s1 = head s2 ∨ ¬ head s1 `prefix_of` head s2 ∧ ¬ head s2 `prefix_of` head s1) →
  id s1 = id s2 →
  head s1 = head s2 ∧ repetition s1 = repetition s2 ∧ read_files_per_worker s1 = read_files_per_worker s2.
Proof.
  unfold spelled. intros -> -> Hr1 Hr2 Hf1 Hf2 Hh Heq.
  assert (head s1 = head s2) as Hhd.
  { destruct Hh as [|[H1 H2]]; [done|exfalso].
    destruct (prefix_weak_total (head s1) (head s2) (head s1 ++ decimal (repetition s1) ++ tail (read_files_per_worker s1)));
      [by exists (decimal (repetition s1) ++ tail (read_files_per_worker s1))
      |rewrite Heq; by exists (decimal (repetition s2) ++ tail (read_files_per_worker s2))|done|done]. }
  rewrite Hhd in Heq. apply app_inv_head in Heq.
  apply digits_app_inv in Heq as [Hr Ht]; [|apply decimal_digits..|done|done].
  apply app_inv_head in Ht. split_and!; [done|by apply decimal_inj..].
Qed.
End ScenarioId.
