(* ===== verification/BenchSuite.v ===== *)
(** * The scenarios of a benchmark run (bench/src/suite.rs)

    The families of scenarios, one definition for each loop of
    [closed_loop_suite], and the shuffle that orders them.  The theorem: for
    every seed the suite is a permutation of its plan, no scenario identifier
    occurs twice, and every scenario is one the harness can run. *)

From stdpp Require Import pretty.
From S2P Require Import Prelude Float64 Errors Owner Builder Efs BenchModel.

Definition KIB : Z := 1024.
Definition MIB : Z := 1024 * KIB.
Definition DEFAULT_READ_GRANULARITY : Z := 128 * 1024.
Definition LARGE_READ_GRANULARITY : Z := 1024 * 1024.
Definition DEFAULT_SHARDS : Z := 64.
Definition LATENCY_OBJECT_SIZES : list Z := [32 * KIB; 128 * KIB; 512 * KIB; 2 * MIB].
Definition STANDARD_DURATION_MS : Z := 3000.
Definition STANDARD_SCALE_DURATION_MS : Z := 4000.
Definition STANDARD_WARMUP_MS : Z := 750.

(** [for x in l { specs.push.. }]: the items pushed, in order. *)
Definition for_in {A B} (l : list A) (body : A → list B) : list B := mjoin (body <$> l).

(** [for x in l { specs.push(f(x)) }] with an item whose construction may
    panic. *)
Fixpoint try_each {E A B} (l : list A) (f : A → res E B) : res E (list B) :=
  match l with
  | [] => Ok []
  | x :: l => let? y := f x in let? ys := try_each l f in Ok (y :: ys)
  end.

Section families.
Context (quick : bool) (repetition duration_ms scale_duration_ms warmup_ms : Z).

Notation closed := ScenarioSpec.closed_loop.

Definition latency_profile : list ScenarioSpec.t :=
  for_in LATENCY_OBJECT_SIZES (λ size,
  for_in [Operation.Get; Operation.GetKnownSize; Operation.PutCreateNew; Operation.PutOverwrite] (λ operation,
  for_in [Backend.NfsCrust; Backend.LinuxRemote] (λ backend,
    [closed (str_of "latency-profile") backend operation size 1 1 DEFAULT_READ_GRANULARITY DEFAULT_SHARDS
       repetition warmup_ms duration_ms]))).

Definition concurrency_scaling : list ScenarioSpec.t :=
  for_in [128 * KIB; MIB] (λ size,
  for_in [1; 8; 32] (λ concurrency,
  for_in [Operation.GetKnownSize; Operation.PutCreateNew] (λ operation,
  for_in [Backend.NfsCrust; Backend.LinuxRemote] (λ backend,
    [closed (str_of "concurrency-scaling") backend operation size concurrency 1 DEFAULT_READ_GRANULARITY
       DEFAULT_SHARDS repetition warmup_ms scale_duration_ms])))).

Definition read_working_set {E} : res E (list ScenarioSpec.t) :=
  try_each (for_in [Backend.NfsCrust; Backend.LinuxRemote] (λ backend,
            for_in [DEFAULT_READ_FILES_PER_WORKER; 64] (λ files_per_worker, [(backend, files_per_worker)])))
    (λ '(backend, files_per_worker),
      ScenarioSpec.with_read_files_per_worker files_per_worker
        (closed (str_of "read-working-set") backend Operation.GetKnownSize (128 * KIB) 32 1
           DEFAULT_READ_GRANULARITY DEFAULT_SHARDS repetition warmup_ms scale_duration_ms)).

Definition connection_pool : list ScenarioSpec.t :=
  for_in [1; 4] (λ clients,
  for_in [Operation.GetKnownSize; Operation.PutCreateNew] (λ operation,
    [closed (str_of "connection-pool") Backend.NfsCrust operation MIB 32 clients DEFAULT_READ_GRANULARITY
       DEFAULT_SHARDS repetition warmup_ms scale_duration_ms])).

Definition directory_sharding : list ScenarioSpec.t :=
  for_in [1; DEFAULT_SHARDS] (λ shards,
    [closed (str_of "directory-sharding") Backend.NfsCrust Operation.PutCreateNew (128 * KIB) 32 1
       DEFAULT_READ_GRANULARITY shards repetition warmup_ms scale_duration_ms]).

Definition read_granularity : list ScenarioSpec.t :=
  for_in [DEFAULT_READ_GRANULARITY; LARGE_READ_GRANULARITY] (λ granularity,
    [closed (str_of "read-granularity") Backend.NfsCrust Operation.Get (4 * KIB) 1 1 granularity
       DEFAULT_SHARDS repetition warmup_ms duration_ms]
    ++ for_in [1; 32] (λ concurrency,
         [closed (str_of "read-granularity") Backend.NfsCrust Operation.GetKnownSize MIB concurrency 1
            granularity DEFAULT_SHARDS repetition warmup_ms scale_duration_ms])).

Definition linux_page_cache_context : list ScenarioSpec.t :=
  for_in [4 * KIB; MIB] (λ size,
  for_in [1; 32] (λ concurrency,
    [closed (str_of "linux-page-cache-context") Backend.LinuxCached Operation.GetKnownSize size concurrency 1
       DEFAULT_READ_GRANULARITY DEFAULT_SHARDS repetition warmup_ms (if quick then 300 else 2000)])).

Definition known_size_reference : list ScenarioSpec.t :=
  for_in [128 * KIB; MIB] (λ size,
  for_in [1; 8; 32] (λ concurrency,
    [closed (str_of "known-size-reference") Backend.LinuxRemoteTrustedSize Operation.GetKnownSize size
       concurrency 1 DEFAULT_READ_GRANULARITY DEFAULT_SHARDS repetition warmup_ms scale_duration_ms])).

Definition operation_detail : list ScenarioSpec.t :=
  for_in [Backend.NfsCrust; Backend.LinuxRemote] (λ backend,
    [closed (str_of "operation-detail") backend Operation.GetRange4k MIB 1 1 DEFAULT_READ_GRANULARITY
       DEFAULT_SHARDS repetition warmup_ms duration_ms;
     ScenarioSpec.with_fixed_operations (if quick then 20 else 1000)
       (closed (str_of "operation-detail") backend Operation.EntryInfo (128 * KIB) 1 1
          DEFAULT_READ_GRANULARITY 1 repetition warmup_ms 0);
     ScenarioSpec.with_fixed_operations (if quick then 10 else 250)
       (closed (str_of "operation-detail") backend Operation.Delete (4 * KIB) 1 1
          DEFAULT_READ_GRANULARITY DEFAULT_SHARDS repetition 0 0);
     ScenarioSpec.with_fixed_operations (if quick then 10 else 100)
       (closed (str_of "operation-detail") backend Operation.List100 (4 * KIB) 1 1
          DEFAULT_READ_GRANULARITY 1 repetition warmup_ms 0)]).

(** The body of the loop over repetitions. *)
Definition repetition_specs {E} (diagnostics : bool) : res E (list ScenarioSpec.t) :=
  if diagnostics then
    let? working_set := read_working_set in
    Ok (latency_profile ++ concurrency_scaling ++ working_set ++ connection_pool ++ directory_sharding
        ++ read_granularity ++ linux_page_cache_context ++ known_size_reference ++ operation_detail)
  else Ok (latency_profile ++ concurrency_scaling).
End families.

(** ** The shuffle *)

(** [slice::swap] *)
Definition swap {E A} (i j : nat) (l : list A) : res E (list A) :=
  match l !! i, l !! j with
  | Some x, Some y => Ok (<[j := x]> (<[i := y]> l))
  | _, _ => Panic
  end.

Definition xorshift (state : Z) : Z :=
  let state := Z.lxor state (wrap64 (Z.shiftl state 13)) in
  let state := Z.lxor state (Z.shiftr state 7) in
  Z.lxor state (wrap64 (Z.shiftl state 17)).

(** The loop over [index], down to one. *)
Fixpoint shuffle_loop {E A} (index : nat) (values : list A) (state : Z) : res E (list A) :=
  match index with
  | O => Ok values
  | S next =>
      let state := xorshift state in
      let swap_with := Z.to_nat (state `mod` (Z.of_nat index + 1)) in
      let? values := swap index swap_with values in
      shuffle_loop next values state
  end.

Definition deterministic_shuffle {E A} (values : list A) (state : Z) : res E (list A) :=
  if (length values <? 2)%nat then Ok values else shuffle_loop (length values - 1) values state.

Definition suite_repetitions (quick : bool) (requested_repetitions : Z) : Z :=
  if quick then 1 else requested_repetitions.

(** The scenarios before they are shuffled. *)
Definition suite_plan {E} (quick : bool) (requested_repetitions : Z) (diagnostics : bool)
  : res E (list ScenarioSpec.t) :=
  let duration_ms := if quick then 350 else STANDARD_DURATION_MS in
  let scale_duration_ms := if quick then 450 else STANDARD_SCALE_DURATION_MS in
  let warmup_ms := if quick then 100 else STANDARD_WARMUP_MS in
  let? rounds :=
    try_each (seqZ 1 (suite_repetitions quick requested_repetitions)) (λ repetition,
      repetition_specs quick repetition duration_ms scale_duration_ms warmup_ms diagnostics) in
  Ok (mjoin rounds).

Definition closed_loop_suite {E} (quick : bool) (seed requested_repetitions : Z) (diagnostics : bool)
  : res E (list ScenarioSpec.t) :=
  let? specs := suite_plan quick requested_repetitions diagnostics in
  deterministic_shuffle specs seed.

(** ** The shuffle permutes *)

Lemma swap_perm {E A} i j (l : list A) :
  (i < length l)%nat → (j < length l)%nat → ∃ l', swap (E:=E) i j l = Ok l' ∧ l' ≡ₚ l.
Proof.
  intros [x Hx]%lookup_lt_is_Some_2 [y Hy]%lookup_lt_is_Some_2. unfold swap. rewrite Hx, Hy.
  eexists. split; [done|]. by apply Permutation_insert_swap.
Qed.

Lemma shuffle_loop_perm {E A} index (l : list A) state :
  (index < length l)%nat → ∃ l', shuffle_loop (E:=E) index l state = Ok l' ∧ l' ≡ₚ l.
Proof.
  induction index as [|index IH] in l, state |- *; intros Hlen; [by exists l|].
  cbn [shuffle_loop]. set (state' := xorshift state).
  set (j := Z.to_nat (state' `mod` (Z.of_nat (S index) + 1))).
  pose proof (Z.mod_pos_bound state' (Z.of_nat (S index) + 1) ltac:(lia)).
  destruct (swap_perm (E:=E) (S index) j l) as (l1 & -> & Hp); [lia|unfold j; lia|].
  pose proof (Permutation_length Hp). destruct (IH l1 state') as (l2 & Hl2 & Hp2); [lia|].
  exists l2. split; [exact Hl2|by rewrite Hp2].
Qed.

(** A shuffle never panics and returns a permutation. *)
Lemma shuffle_perm {E A} (l : list A) state :
  ∃ l', deterministic_shuffle (E:=E) l state = Ok l' ∧ l' ≡ₚ l.
Proof.
  unfold deterministic_shuffle. destruct (Nat.ltb_spec (length l) 2); [by exists l|].
  apply shuffle_loop_perm. lia.
Qed.

(** ** The plan

    The fields of a scenario other than its identifier. *)

Module Shape.
Import ScenarioSpec.

Definition erase (s : t) : t :=
  mk [] (family s) (backend s) (operation s) (mode s) (object_size_bytes s) (concurrency s)
     (client_connections s) (read_granularity_bytes s) (directory_shards s) (read_files_per_worker s)
     (repetition s) (warmup_ms s) (duration_ms s) (fixed_operations_per_worker s)
     (offered_rate_ops_per_sec s) (max_outstanding s) (open_loop_load_basis s).

Definition set_files (files : Z) (s : t) : t :=
  mk (id s) (family s) (backend s) (operation s) (mode s) (object_size_bytes s) (concurrency s)
     (client_connections s) (read_granularity_bytes s) (directory_shards s) files
     (repetition s) (warmup_ms s) (duration_ms s) (fixed_operations_per_worker s)
     (offered_rate_ops_per_sec s) (max_outstanding s) (open_loop_load_basis s).
End Shape.
Import Shape ScenarioId.

Section plan.
Context (quick : bool) (r d sd w : Z).

Definition working_set_shape : list ScenarioSpec.t :=
  for_in [Backend.NfsCrust; Backend.LinuxRemote] (λ backend,
  for_in [DEFAULT_READ_FILES_PER_WORKER; 64] (λ files,
    [set_files files
       (ScenarioSpec.closed_loop (str_of "read-working-set") backend Operation.GetKnownSize (128 * KIB) 32 1
          DEFAULT_READ_GRANULARITY DEFAULT_SHARDS r w sd)])).

Definition specs_shape (diagnostics : bool) : list ScenarioSpec.t :=
  erase <$>
    latency_profile r d w ++ concurrency_scaling r sd w
    ++ (if diagnostics then
          working_set_shape ++ connection_pool r sd w ++ directory_sharding r sd w
          ++ read_granularity r d sd w ++ linux_page_cache_context quick r w
          ++ known_size_reference r sd w ++ operation_detail quick r d w
        else []).

Lemma spelled_families :
  Forall spelled (latency_profile r d w ++ concurrency_scaling r sd w)
  ∧ Forall spelled (connection_pool r sd w ++ directory_sharding r sd w
      ++ read_granularity r d sd w ++ linux_page_cache_context quick r w
      ++ known_size_reference r sd w ++ operation_detail quick r d w).
Proof. split; repeat (apply Forall_cons_2; [apply spelled_closed_loop|]); apply Forall_nil_2. Qed.

Lemma try_each_files {E X} (f : X → Z) (spec : X → ScenarioSpec.t) l :
  Forall (λ x, 1 ≤ f x ∧ spelled (spec x)) l →
  ∃ l', try_each (E:=E) l (λ x, ScenarioSpec.with_read_files_per_worker (f x) (spec x)) = Ok l'
    ∧ Forall spelled l' ∧ erase <$> l' = (λ x, erase (set_files (f x) (spec x))) <$> l.
Proof.
  induction 1 as [|x l [Hf Hx] _ (l' & Hl & Hs & He)]; [by exists []|]. cbn [try_each].
  destruct (spelled_files (E:=E) (f x) (spec x) Hf Hx) as (s' & -> & Hs' & _ & Heq).
  rewrite Hl. exists (s' :: l'). split; [done|]. split; [by constructor|].
  rewrite !fmap_cons, He. f_equal. by rewrite Heq.
Qed.

Lemma read_working_set_ok {E} :
  ∃ l, read_working_set (E:=E) r sd w = Ok l ∧ Forall spelled l ∧ erase <$> l = erase <$> working_set_shape.
Proof.
  set (spec (backend : Backend.t) := ScenarioSpec.closed_loop (str_of "read-working-set") backend
    Operation.GetKnownSize (128 * KIB) 32 1 DEFAULT_READ_GRANULARITY DEFAULT_SHARDS r w sd).
  exact (try_each_files (E:=E) snd (λ x, spec x.1)
    [(Backend.NfsCrust, 2); (Backend.NfsCrust, 64); (Backend.LinuxRemote, 2); (Backend.LinuxRemote, 64)]
    ltac:(repeat (apply Forall_cons_2; [split; [done|apply spelled_closed_loop]|]); apply Forall_nil_2)).
Qed.

Lemma repetition_specs_ok {E} diagnostics :
  ∃ l, repetition_specs (E:=E) quick r d sd w diagnostics = Ok l ∧ Forall spelled l
    ∧ erase <$> l = specs_shape diagnostics.
Proof.
  destruct spelled_families as [H1 H2]. unfold repetition_specs, specs_shape. destruct diagnostics.
  - destruct (read_working_set_ok (E:=E)) as (l & -> & Hl & He). cbn [rbind]. eexists. split; [done|].
    split; [|by rewrite !fmap_app, He].
    rewrite app_assoc. apply Forall_app. split; [exact H1|]. apply Forall_app. by split.
  - eexists. split; [done|]. by rewrite app_nil_r.
Qed.
End plan.

(** ** Identifiers of a plan *)

(** What tells two scenarios of one repetition apart. *)
Definition label_of (s : ScenarioSpec.t) : str * Z := (head s, ScenarioSpec.read_files_per_worker s).

Definition apart (x y : str * Z) : bool :=
  bool_decide (¬ x.1 `prefix_of` y.1) && bool_decide (¬ y.1 `prefix_of` x.1)
  || bool_decide (x.1 = y.1) && negb (x.2 =? y.2).

Fixpoint all_apart (l : list (str * Z)) : bool :=
  match l with
  | [] => true
  | x :: l => forallb (apart x) l && all_apart l
  end.

Lemma apart_sym x y : apart x y = apart y x.
Proof.
  unfold apart. rewrite (Z.eqb_sym x.2).
  rewrite (andb_comm (bool_decide (¬ x.1 `prefix_of` y.1))).
  rewrite (bool_decide_ext (x.1 = y.1) (y.1 = x.1)) by naive_solver. done.
Qed.

Lemma apart_neq x y : apart x y = true → x ≠ y.
Proof.
  unfold apart. intros H ->. rewrite Z.eqb_refl, andb_false_r, orb_false_r in H.
  by rewrite bool_decide_eq_false_2 in H by (intros H1; by apply H1).
Qed.

Lemma all_apart_nodup l : all_apart l = true → NoDup l.
Proof.
  induction l as [|x l IH]; cbn; [constructor|]. intros [Hx Hl]%andb_prop. constructor; [|by apply IH].
  intros Hin. rewrite forallb_forall in Hx. apply list_elem_of_In in Hin.
  by apply (apart_neq x x); [apply Hx|].
Qed.

Lemma all_apart_spec l x y : all_apart l = true → x ∈ l → y ∈ l →
  x.1 = y.1 ∨ ¬ x.1 `prefix_of` y.1 ∧ ¬ y.1 `prefix_of` x.1.
Proof.
  intros Hl Hx Hy. destruct (decide (x = y)) as [->|Hne]; [by left|].
  assert (apart x y = true) as Ha.
  { induction l as [|z l IH]; [by apply not_elem_of_nil in Hx|]. cbn in Hl.
    apply andb_prop in Hl as [Hz Hl]. rewrite forallb_forall in Hz.
    apply elem_of_cons in Hx as [->|Hx], Hy as [->|Hy]; [done|..].
    - by apply Hz, list_elem_of_In.
    - rewrite apart_sym. by apply Hz, list_elem_of_In.
    - by apply IH. }
  unfold apart in Ha. apply orb_prop in Ha as [[H1 H2]%andb_prop|[H1 _]%andb_prop].
  - right. by rewrite bool_decide_eq_true in H1, H2.
  - left. by rewrite bool_decide_eq_true in H1.
Qed.

Definition labels (diagnostics : bool) : list (str * Z) := label_of <$> specs_shape true 1 0 0 0 diagnostics.

Lemma labels_shape quick r d sd w diagnostics :
  label_of <$> specs_shape quick r d sd w diagnostics = labels diagnostics.
Proof. destruct quick, diagnostics; vm_compute; reflexivity. Qed.

Lemma labels_apart diagnostics : all_apart (labels diagnostics) = true.
Proof. destruct diagnostics; vm_compute; reflexivity. Qed.

Lemma length_labels diagnostics : length (labels diagnostics) = if diagnostics then 90%nat else 56%nat.
Proof. destruct diagnostics; vm_compute; reflexivity. Qed.

(** ** What a scenario needs to run

    The object size is one of those the harness has a payload for, all of them
    multiples of 4096 bytes, as O_DIRECT demands; there
    is a worker, a client, a shard and a file; the loop of a worker ends,
    after a fixed number of operations or at a deadline; the files a delete
    scenario needs are counted. *)
Definition object_sizes : list Z := [4 * KIB; 32 * KIB; 128 * KIB; 512 * KIB; MIB; 2 * MIB].

Definition runnable (s : ScenarioSpec.t) : bool :=
  existsb (Z.eqb (ScenarioSpec.object_size_bytes s)) object_sizes
  && (1 <=? ScenarioSpec.concurrency s) && (ScenarioSpec.concurrency s <=? 32)
  && (1 <=? ScenarioSpec.client_connections s) && (ScenarioSpec.client_connections s <=? 4)
  && (1 <=? ScenarioSpec.directory_shards s) && (ScenarioSpec.directory_shards s <=? DEFAULT_SHARDS)
  && (1 <=? ScenarioSpec.read_files_per_worker s)
  && (ScenarioSpec.warmup_ms s <=? STANDARD_WARMUP_MS)
  && (ScenarioSpec.duration_ms s <=? STANDARD_SCALE_DURATION_MS)
  && match ScenarioSpec.mode s with ScenarioMode.ClosedLoop => true | ScenarioMode.OpenLoop => false end
  && match ScenarioSpec.operation s, ScenarioSpec.fixed_operations_per_worker s with
     | (Operation.Delete | Operation.EntryInfo | Operation.List100), Some n => 1 <=? n
     | (Operation.Delete | Operation.EntryInfo | Operation.List100), None => false
     | _, Some _ => false
     | _, None => 0 <? ScenarioSpec.duration_ms s
     end.

Lemma object_size_bounds size : size ∈ object_sizes → 4096 ≤ size ≤ 2 * MIB ∧ size `mod` 4096 = 0.
Proof.
  intros H. repeat (apply elem_of_cons in H as [->|H]; [by vm_compute|]). by apply not_elem_of_nil in H.
Qed.

Lemma runnable_bounds s : runnable s = true →
  ScenarioSpec.object_size_bytes s ∈ object_sizes
  ∧ 4096 ≤ ScenarioSpec.object_size_bytes s ≤ 2 * MIB
  ∧ ScenarioSpec.object_size_bytes s `mod` 4096 = 0
  ∧ 1 ≤ ScenarioSpec.concurrency s ≤ 32 ∧ 1 ≤ ScenarioSpec.client_connections s ≤ 4
  ∧ 1 ≤ ScenarioSpec.directory_shards s ≤ DEFAULT_SHARDS ∧ 1 ≤ ScenarioSpec.read_files_per_worker s.
Proof.
  unfold runnable. rewrite !andb_true_iff, !Z.leb_le. intros H. decompose [and] H. clear H.
  match goal with H : existsb _ _ = true |- _ => apply existsb_exists in H as (z & Hz & <-%Z.eqb_eq) end.
  apply list_elem_of_In in Hz. destruct (object_size_bounds _ Hz) as [[] ?]. by split_and!.
Qed.

Lemma shape_runnable (quick : bool) r diagnostics :
  let d := if quick then 350 else STANDARD_DURATION_MS in
  let sd := if quick then 450 else STANDARD_SCALE_DURATION_MS in
  let w := if quick then 100 else STANDARD_WARMUP_MS in
  forallb runnable (specs_shape quick r d sd w diagnostics) = true.
Proof. destruct quick, diagnostics; vm_compute; reflexivity. Qed.

Lemma shape_repetition quick r d sd w diagnostics :
  ScenarioSpec.repetition <$> specs_shape quick r d sd w diagnostics
  = replicate (length (labels diagnostics)) r.
Proof. destruct quick, diagnostics; vm_compute; reflexivity. Qed.

(** ** The rounds *)

Lemma try_each_ok {E A B} (P : A → B → Prop) (f : A → res E B) l :
  (∀ x, ∃ y, f x = Ok y ∧ P x y) → ∃ l', try_each l f = Ok l' ∧ Forall2 P l l'.
Proof.
  intros Hf. induction l as [|x l (l' & Hl & Hp)]; [by exists []; split|].
  cbn [try_each]. destruct (Hf x) as (y & -> & Hy). rewrite Hl. exists (y :: l'). by split; [|constructor].
Qed.

(** The specs of round [r] of the plan. *)
Record round (diagnostics : bool) (r : Z) (l : list ScenarioSpec.t) : Prop := {
  rd_spelled : Forall spelled l;
  rd_labels : label_of <$> l = labels diagnostics;
  rd_repetition : Forall (λ s, ScenarioSpec.repetition s = r) l;
  rd_runnable : Forall (λ s, runnable s = true) l;
}.

Lemma round_of_shape quick r d sd w diagnostics l :
  Forall spelled l → erase <$> l = specs_shape quick r d sd w diagnostics →
  forallb runnable (specs_shape quick r d sd w diagnostics) = true → round diagnostics r l.
Proof.
  intros Hs He Hr. split; [done|..].
  - rewrite <- (labels_shape quick r d sd w), <- He, <- list_fmap_compose. done.
  - pose proof (shape_repetition quick r d sd w diagnostics) as Hrep.
    rewrite <- He, <- list_fmap_compose in Hrep. apply Forall_forall. intros s Hin.
    apply (list_elem_of_fmap_2 (ScenarioSpec.repetition ∘ erase)) in Hin. rewrite Hrep in Hin.
    apply elem_of_replicate_inv in Hin. exact Hin.
  - rewrite <- He in Hr. apply Forall_forall. intros s Hin. rewrite forallb_forall in Hr.
    change (runnable (erase s) = true). apply Hr, list_elem_of_In. by apply list_elem_of_fmap_2.
Qed.

Lemma suite_plan_rounds {E} quick reps diagnostics :
  ∃ rounds, suite_plan (E:=E) quick reps diagnostics = Ok (mjoin rounds)
    ∧ Forall2 (round diagnostics) (seqZ 1 (suite_repetitions quick reps)) rounds.
Proof.
  unfold suite_plan. set (d := if quick then 350 else _). set (sd := if quick then 450 else _).
  set (w := if quick then 100 else _).
  destruct (try_each_ok (E:=E) (round diagnostics)
    (λ r, repetition_specs quick r d sd w diagnostics)
    (seqZ 1 (suite_repetitions quick reps))) as (rounds & -> & Hr).
  - intros r. destruct (repetition_specs_ok quick r d sd w (E:=E) diagnostics) as (l & Hl & Hs & He).
    exists l. split; [done|]. eapply round_of_shape; [done|exact He|apply shape_runnable].
  - by exists rounds.
Qed.

Lemma rounds_keys diagnostics rs rounds : Forall2 (round diagnostics) rs rounds →
  (λ s, (ScenarioSpec.repetition s, label_of s)) <$> mjoin rounds
  = rs ≫= λ r, (r,.) <$> labels diagnostics.
Proof.
  induction 1 as [|r l rs rounds Hr _ IH]; [done|]. rewrite mjoin_cons, fmap_app, IH, bind_cons. f_equal.
  rewrite <- (rd_labels _ _ _ Hr), <- list_fmap_compose. apply list_fmap_ext.
  intros i s Hi%list_elem_of_lookup_2. cbn. f_equal. by apply (proj1 (Forall_forall _ _) (rd_repetition _ _ _ Hr)).
Qed.

Lemma rounds_all diagnostics rs rounds s : Forall2 (round diagnostics) rs rounds → s ∈ mjoin rounds →
  spelled s ∧ runnable s = true ∧ ScenarioSpec.repetition s ∈ rs ∧ label_of s ∈ labels diagnostics.
Proof.
  intros Hr (l & Hs & Hl)%list_elem_of_join.
  apply list_elem_of_lookup in Hl as [i Hl].
  destruct (Forall2_lookup_r _ _ _ _ _ Hr Hl) as (r & Hri & [H1 H2 H3 H4]).
  rewrite Forall_forall in H1, H3, H4. split_and!; [by apply H1|by apply H4|..].
  - rewrite (H3 s Hs). by eapply list_elem_of_lookup_2.
  - rewrite <- H2. by apply list_elem_of_fmap_2.
Qed.

(** Distinct keys stay distinct under a finer view of the items. *)
Lemma NoDup_fmap_finer {A B C} (f : A → B) (g : A → C) l :
  (∀ x y, x ∈ l → y ∈ l → f x = f y → g x = g y) → NoDup (g <$> l) → NoDup (f <$> l).
Proof.
  intros Hfg Hg. apply NoDup_alt. intros i j b. rewrite !list_lookup_fmap.
  intros (x & Hx & ->)%fmap_Some (y & Hy & Hxy)%fmap_Some.
  assert (g x = g y) as Hgxy by (apply Hfg; [by eapply list_elem_of_lookup_2..|done]).
  rewrite NoDup_alt in Hg. apply (Hg i j (g x)); rewrite list_lookup_fmap, fmap_Some; eauto.
Qed.

Lemma plan_ids diagnostics rounds n :
  Forall2 (round diagnostics) (seqZ 1 n) rounds → NoDup (ScenarioSpec.id <$> mjoin rounds).
Proof.
  intros Hr. eapply NoDup_fmap_finer; [|rewrite (rounds_keys _ _ _ Hr)].
  - intros x y Hx Hy Hid. apply (rounds_all _ _ _ _ Hr) in Hx as (Hsx & Hrx & Hnx%elem_of_seqZ & Hlx),
      Hy as (Hsy & Hry & Hny%elem_of_seqZ & Hly).
    destruct (spelled_inj x y) as (Hh & Hrep & Hf); try done; try lia.
    + apply runnable_bounds in Hrx. lia.
    + apply runnable_bounds in Hry. lia.
    + by apply (all_apart_spec _ (label_of x) (label_of y) (labels_apart diagnostics)).
    + unfold label_of. by rewrite Hh, Hrep, Hf.
  - apply NoDup_bind; [|intros r _; apply NoDup_fmap_2; [by intros ?? [=]|]|apply NoDup_seqZ].
    + intros r1 r2 y _ _ (? & -> & _)%list_elem_of_fmap (? & [= <- _] & _)%list_elem_of_fmap. done.
    + apply all_apart_nodup, labels_apart.
Qed.

Lemma rounds_length diagnostics rs rounds : Forall2 (round diagnostics) rs rounds →
  length (mjoin rounds) = (length rs * length (labels diagnostics))%nat.
Proof.
  induction 1 as [|r l rs rounds Hr _ IH]; [done|]. rewrite mjoin_cons, length_app, IH.
  assert (length l = length (labels diagnostics)) as -> by (rewrite <- (rd_labels _ _ _ Hr); by rewrite length_fmap).
  cbn [length]. lia.
Qed.

(** The suite is the plan, reordered.  For every seed and every number of
    repetitions the suite is built without a panic and is a permutation of the
    plan: 56 scenarios for each repetition, 90 with diagnostics, each once,
    with identifiers that are all different, so that no two scenarios share a
    directory; every scenario can run (aligned sizes, at least one worker,
    client, shard and file, windows within the published bounds, a loop that
    ends by a deadline or by a count). *)
Theorem closed_loop_suite_spec {E} quick seed repetitions diagnostics :
  0 ≤ repetitions →
  ∃ plan suite, suite_plan (E:=E) quick repetitions diagnostics = Ok plan
    ∧ closed_loop_suite (E:=E) quick seed repetitions diagnostics = Ok suite
    ∧ suite ≡ₚ plan
    ∧ blen suite = suite_repetitions quick repetitions * (if diagnostics then 90 else 56)
    ∧ NoDup (ScenarioSpec.id <$> suite)
    ∧ Forall (λ s, runnable s = true
        ∧ 1 ≤ ScenarioSpec.repetition s ≤ suite_repetitions quick repetitions) suite.
Proof.
  intros Hreps. destruct (suite_plan_rounds (E:=E) quick repetitions diagnostics) as (rounds & Hp & Hr).
  destruct (shuffle_perm (E:=E) (mjoin rounds) seed) as (suite & Hs & Hperm).
  exists (mjoin rounds), suite. split_and!; [done| |done|..].
  - unfold closed_loop_suite. by rewrite Hp.
  - unfold blen. rewrite (Permutation_length Hperm), (rounds_length _ _ _ Hr), length_seqZ, length_labels.
    unfold suite_repetitions. destruct quick, diagnostics; lia.
  - rewrite Hperm. by eapply plan_ids.
  - apply Forall_forall. intros s Hin. rewrite Hperm in Hin.
    destruct (rounds_all _ _ _ _ Hr Hin) as (_ & Hrun & Hrep%elem_of_seqZ & _). split; [done|lia].
Qed.

Lemma closed_loop_suite_spec_witness :
  ∃ plan suite, suite_plan (E:=unit) true 2 true = Ok plan
    ∧ closed_loop_suite (E:=unit) true 42 2 true = Ok suite
    ∧ suite ≡ₚ plan ∧ blen suite = 1 * 90 ∧ NoDup (ScenarioSpec.id <$> suite)
    ∧ Forall (λ s, runnable s = true ∧ 1 ≤ ScenarioSpec.repetition s ≤ 1) suite.
Proof. exact (closed_loop_suite_spec (E:=unit) true 42 2 true ltac:(discriminate)). Defined.
