(* ===== verification/BenchStats.v ===== *)
(** * Statistics of a benchmark (bench/src/stats.rs)

    Latency distributions with nearest-rank percentiles, resource deltas and
    counters of the host.  The percentiles are computed in [f64]; the theorem
    shows that for every sample that fits in memory they are the exact ones.

    What the kernel answers is an argument: the result of [getrusage], the
    entries of /sys/class/net with the contents of their counters, the clock. *)

From Stdlib Require Import Floats.SpecFloat.
From stdpp Require Import sorting.
From S2P Require Import Prelude Float64 BenchModel.

Definition P99_MINIMUM_SAMPLES : Z := 1000.
Definition P999_MINIMUM_SAMPLES : Z := 10000.

(** ** Text *)

(** [str::trim]: the characters with the White_Space property, in UTF-8. *)
Definition ascii_space (c : Z) : bool := (c =? 32) || ((9 <=? c) && (c <=? 13)).
Definition space2 (a b : Z) : bool := (a =? 0xC2) && ((b =? 0x85) || (b =? 0xA0)).
Definition space3 (a b c : Z) : bool :=
  (a =? 0xE1) && (b =? 0x9A) && (c =? 0x80)
  || (a =? 0xE2) && (b =? 0x80) && (in_range 0x80 0x8A c || in_range 0xA8 0xA9 c || (c =? 0xAF))
  || (a =? 0xE2) && (b =? 0x81) && (c =? 0x9F)
  || (a =? 0xE3) && (b =? 0x80) && (c =? 0x80).

Fixpoint trim_start (s : str) : str :=
  match s with
  | a :: s1 =>
      if ascii_space a then trim_start s1
      else
        match s1 with
        | b :: s2 =>
            if space2 a b then trim_start s2
            else match s2 with
                 | c :: s3 => if space3 a b c then trim_start s3 else s
                 | [] => s
                 end
        | [] => s
        end
  | [] => []
  end.

(** The same from the end, on the reversed text. *)
Fixpoint trim_rev (s : str) : str :=
  match s with
  | c :: s1 =>
      if ascii_space c then trim_rev s1
      else
        match s1 with
        | b :: s2 =>
            if space2 b c then trim_rev s2
            else match s2 with
                 | a :: s3 => if space3 a b c then trim_rev s3 else s
                 | [] => s
                 end
        | [] => s
        end
  | [] => []
  end.

Definition trim (s : str) : str := rev (trim_rev (rev (trim_start s))).

(** [str::parse::<u64>] *)
Fixpoint parse_digits (s : str) (acc : Z) : option Z :=
  match s with
  | [] => Some acc
  | c :: s =>
      if is_digit c then
        let acc := acc * 10 + (c - 48) in
        if acc <=? u64_max then parse_digits s acc else None
      else None
  end.

Definition parse_u64 (s : str) : option Z :=
  match s with
  | [] => None
  | 43 :: [] => None
  | 43 :: s => parse_digits s 0
  | s => parse_digits s 0
  end.

(** ** Resources *)

Module ResourceSnapshot.
Record t : Type := mk {
  user_cpu_micros : Z;
  system_cpu_micros : Z;
  max_rss_kib : Z;
  host_rx_bytes : option Z;
  host_tx_bytes : option Z;
}.
End ResourceSnapshot.

Definition subtract_options (end_ start : option Z) : option Z :=
  match end_, start with
  | Some end_, Some start => Some (saturating_sub end_ start)
  | _, _ => None
  end.

Definition delta (self end_ : ResourceSnapshot.t) : ResourceDelta.t :=
  let milliseconds (f : ResourceSnapshot.t → Z) :=
    F64.div (F64.of_Z (saturating_sub (f end_) (f self))) (F64.of_Z 1000) in
  ResourceDelta.mk (milliseconds ResourceSnapshot.user_cpu_micros)
    (milliseconds ResourceSnapshot.system_cpu_micros) (ResourceSnapshot.max_rss_kib end_)
    (subtract_options (ResourceSnapshot.host_rx_bytes end_) (ResourceSnapshot.host_rx_bytes self))
    (subtract_options (ResourceSnapshot.host_tx_bytes end_) (ResourceSnapshot.host_tx_bytes self)).

(** [libc::timeval], and the [rusage] of a successful [getrusage]. *)
Record timeval : Type := Timeval { tv_sec : Z; tv_usec : Z }.
Record rusage : Type := Rusage { ru_utime : timeval; ru_stime : timeval; ru_maxrss : Z }.

Definition timeval_micros (value : timeval) : Z :=
  let seconds := Z.max (tv_sec value) 0 in
  let micros := Z.max (tv_usec value) 0 in
  saturating_add (saturating_mul seconds 1000000) micros.

Definition process_usage (getrusage : option rusage) : Z * Z * Z :=
  match getrusage with
  | None => (0, 0, 0)
  | Some usage =>
      (timeval_micros (ru_utime usage), timeval_micros (ru_stime usage), Z.max (ru_maxrss usage) 0)
  end.

Definition read_u64 (content : option str) : option Z := content ≫= λ s, parse_u64 (trim s).

(** An entry of /sys/class/net: its name, and the contents of its counters. *)
Record interface : Type := Interface { name : str; rx_bytes : option str; tx_bytes : option str }.

Definition add_interface (totals : Z * Z * bool) (entry : interface) : Z * Z * bool :=
  let '(rx_total, tx_total, _) := totals in
  if str_eqb (name entry) (str_of "lo") then totals
  else
    match read_u64 (rx_bytes entry) with
    | None => totals
    | Some rx =>
        match read_u64 (tx_bytes entry) with
        | None => totals
        | Some tx => (saturating_add rx_total rx, saturating_add tx_total tx, true)
        end
    end.

(** [read_dir] is [None] when it fails, an entry is [None] when reading it
    does. *)
Definition network_totals (read_dir : option (list (option interface))) : option Z * option Z :=
  match read_dir with
  | None => (None, None)
  | Some entries =>
      let '(rx_total, tx_total, found) := fold_left add_interface (omap id entries) (0, 0, false) in
      if found then (Some rx_total, Some tx_total) else (None, None)
  end.

Definition capture (getrusage : option rusage) (read_dir : option (list (option interface)))
  : ResourceSnapshot.t :=
  let '(user_cpu_micros, system_cpu_micros, max_rss_kib) := process_usage getrusage in
  let '(host_rx_bytes, host_tx_bytes) := network_totals read_dir in
  ResourceSnapshot.mk user_cpu_micros system_cpu_micros max_rss_kib host_rx_bytes host_tx_bytes.

(** [now]: nanoseconds since the epoch, negative before it. *)
Definition unix_time_millis (now : Z) : Z := Z.min (Z.max now 0 / 1000000) u64_max.

(** ** Distributions *)

Definition ns_to_us (value : Z) : spec_float := F64.div (F64.of_Z value) (F64.of_Z 1000).

Definition nearest_rank {E} (values : list Z) (percentile : spec_float) : res E Z :=
  let rank := F64.as_usize (F64.ceil (F64.mul percentile (F64.of_Z (blen values)))) in
  match values !! Z.to_nat (Z.min (saturating_sub rank 1) (blen values - 1)) with
  | Some v => Ok v
  | None => Panic
  end.

(** [values[i]] *)
Definition index {E} (values : list Z) (i : nat) : res E Z :=
  match values !! i with Some v => Ok v | None => Panic end.

Definition sort_unstable (values : list Z) : list Z := merge_sort Z.le values.

Definition mean_ns (values : list Z) : spec_float :=
  F64.div (F64.sum (F64.of_Z <$> values)) (F64.of_Z (blen values)).

Definition variance_ns (values : list Z) : spec_float :=
  F64.div (F64.sum ((λ value, let delta := F64.sub (F64.of_Z value) (mean_ns values) in F64.mul delta delta)
                      <$> values))
    (F64.of_Z (blen values)).

Definition distribution {E} (values_ns : list Z) : res E Distribution.t :=
  if bool_decide (values_ns = []) then Ok Distribution.default
  else
    let values := sort_unstable values_ns in
    let? min := index values 0 in
    let? p50 := nearest_rank values (F64.lit 50 100) in
    let? p90 := nearest_rank values (F64.lit 90 100) in
    let? p95 := nearest_rank values (F64.lit 95 100) in
    let? p99 := nearest_rank values (F64.lit 99 100) in
    let? p999 := nearest_rank values (F64.lit 999 1000) in
    let? max := index values (length values - 1) in
    Ok (Distribution.mk (blen values) (ns_to_us min) (F64.div (mean_ns values) (F64.of_Z 1000))
          (ns_to_us p50) (ns_to_us p90) (ns_to_us p95) (ns_to_us p99) (ns_to_us p999) (ns_to_us max)
          (F64.div (F64.sqrt (variance_ns values)) (F64.of_Z 1000))).

Example distribution_of_four :
  distribution (E:=unit) [3000; 1000; 4000; 2000]
  = Ok (Distribution.mk 4 (F64.of_Z 1) (F64.lit 5 2) (F64.of_Z 2) (F64.of_Z 4) (F64.of_Z 4) (F64.of_Z 4)
          (F64.of_Z 4) (F64.of_Z 4) (F64.div (F64.sqrt (F64.of_Z 1250000)) (F64.of_Z 1000))).
Proof. vm_compute. reflexivity. Qed.

(** ** Order statistics *)

Lemma sorted_lookup l i j x y :
  StronglySorted Z.le l → (i ≤ j)%nat → l !! i = Some x → l !! j = Some y → x ≤ y.
Proof.
  intros Hs. induction Hs as [|z l Hs IH Hz] in i, j |- *; [done|].
  destruct i as [|i], j as [|j]; cbn; intros Hij Hx Hy; [..|lia|].
  - naive_solver.
  - injection Hx as ->. exact (proj1 (Forall_forall _ _) Hz y (list_elem_of_lookup_2 _ _ _ Hy)).
  - apply (IH i j); [lia|done..].
Qed.

Lemma filter_none {A} (P : A → Prop) `{∀ x, Decision (P x)} l : Forall (λ x, ¬ P x) l → filter P l = [].
Proof. induction 1; [done|]. by rewrite filter_cons_False by done. Qed.

Lemma sorted_counts l i v : StronglySorted Z.le l → l !! i = Some v →
  Z.of_nat i + 1 ≤ blen (filter (λ x, x ≤ v) l) ∧ blen (filter (λ x, x < v) l) ≤ Z.of_nat i.
Proof.
  intros Hs Hv. pose proof (lookup_lt_Some _ _ _ Hv) as Hi. split.
  - rewrite <- (take_drop (S i) l), filter_app, blen_app, filter_all.
    + rewrite blen_take by (unfold blen; lia). pose proof (blen_nonneg (filter (λ x, x ≤ v) (drop (S i) l))). lia.
    + apply Forall_lookup. intros j x [Hx Hj]%lookup_take_Some. by apply (sorted_lookup l j i); [|lia|..].
  - rewrite <- (take_drop i l), filter_app, (filter_none _ (drop i l)), app_nil_r.
    + unfold blen. pose proof (length_filter (λ x, x < v) (take i l)). rewrite length_take in *. lia.
    + apply Forall_lookup. intros j x Hx. rewrite lookup_drop in Hx.
      pose proof (sorted_lookup l i (i + j) v x Hs ltac:(lia) Hv Hx). lia.
Qed.

(** [v] is the percentile [a / b] by nearest rank: it is one of the values, at
    least that part of them are not above it, less than that are below it. *)
Definition percentile_of (values : list Z) (a b v : Z) : Prop :=
  v ∈ values
  ∧ a * blen values ≤ b * blen (filter (λ x, x ≤ v) values)
  ∧ b * blen (filter (λ x, x < v) values) < a * blen values.

Lemma percentile_of_sorted values a b v : 1 ≤ a ≤ b →
  sort_unstable values !! Z.to_nat (ceil_div (a * blen values) b - 1) = Some v → percentile_of values a b v.
Proof.
  intros Hab Hv. unfold sort_unstable in Hv.
  pose proof (merge_sort_Permutation Z.le values) as Hp.
  pose proof (StronglySorted_merge_sort Z.le values) as Hs.
  set (C := ceil_div _ _) in *. pose proof (proj1 (ceil_div_spec (a * blen values) b C ltac:(lia)) eq_refl) as HC.
  assert (values ≠ []) as Hne by (intros ->; cbn in Hv; done).
  assert (1 ≤ blen values) by (destruct values; [done|rewrite blen_cons; pose proof (blen_nonneg values); lia]).
  assert (1 ≤ C) by nia. destruct (sorted_counts _ _ _ Hs Hv) as [H1 H2].
  unfold percentile_of. rewrite <- Hp at 1. unfold blen in *. setoid_rewrite Hp in H1. rewrite Hp in H2.
  split_and!; [by eapply list_elem_of_lookup_2|nia|nia].
Qed.

(** ** The percentiles of a distribution are exact *)

(** [p] is near enough to [a / b] for the rank to be exact. *)
Definition faithful (p : spec_float) (a b : Z) : bool :=
  match p with
  | S754_finite false mp (-53) =>
      let d := Z.abs (Z.pos mp * b - a * 2 ^ 53) in
      (2 ^ 52 <=? Z.pos mp) && (Z.pos mp <? 2 ^ 53) && (2 * d * 2 ^ 53 <? b * Z.pos mp)
  | _ => false
  end.

Lemma rank_faithful p a b n : faithful p a b = true → 1 ≤ a ≤ b → b ≤ 1000 → 1 ≤ n ≤ 2 ^ 40 →
  F64.as_usize (F64.ceil (F64.mul p (F64.of_Z n))) = ceil_div (a * n) b.
Proof.
  unfold faithful. intros Hp Ha Hb Hn. destruct p as [| | |s mp e]; try discriminate Hp. destruct s; [discriminate Hp|].
  destruct (decide (e = -53)) as [->|He].
  - rewrite !andb_true_iff, Z.leb_le, !Z.ltb_lt in Hp. destruct Hp as [[H1 H2] H3].
    eapply rank_exact; [lia|lia|lia|reflexivity|exact H3|exact Hn].
  - exfalso. destruct e as [|e|e]; try discriminate Hp.
    repeat (destruct e as [e|e|]; try discriminate Hp). by apply He.
Qed.

Lemma nearest_rank_exact {E} values p a b :
  faithful p a b = true → 1 ≤ a ≤ b → b ≤ 1000 → 1 ≤ blen values ≤ 2 ^ 40 →
  ∃ v, nearest_rank (E:=E) (sort_unstable values) p = Ok v
    ∧ sort_unstable values !! Z.to_nat (ceil_div (a * blen values) b - 1) = Some v
    ∧ percentile_of values a b v.
Proof.
  intros Hp Ha Hb Hn. unfold nearest_rank.
  assert (Hlen : blen (sort_unstable values) = blen values).
  { unfold blen, sort_unstable. by rewrite (merge_sort_Permutation Z.le values). }
  rewrite Hlen, (rank_faithful p a b) by done. set (C := ceil_div _ _).
  pose proof (proj1 (ceil_div_spec (a * blen values) b C ltac:(lia)) eq_refl) as HC.
  assert (1 ≤ C ≤ blen values) by nia.
  replace (Z.min (saturating_sub C 1) (blen values - 1)) with (C - 1) by ulia.
  destruct (lookup_lt_is_Some_2 (sort_unstable values) (Z.to_nat (C - 1))) as [v Hv].
  { unfold blen in *. lia. }
  rewrite Hv. exists v. split_and!; [done..|]. by apply percentile_of_sorted.
Qed.

Lemma ceil_div_mono n a a' b b' : 0 ≤ n → 1 ≤ b → 1 ≤ b' → a * b' ≤ a' * b →
  ceil_div (a * n) b ≤ ceil_div (a' * n) b'.
Proof.
  intros Hn Hb Hb' Hle. set (C := ceil_div (a * n) b). set (C' := ceil_div (a' * n) b').
  pose proof (proj1 (ceil_div_spec (a * n) b C ltac:(lia)) eq_refl).
  pose proof (proj1 (ceil_div_spec (a' * n) b' C' ltac:(lia)) eq_refl).
  clearbody C C'. destruct (Z.le_gt_cases C C'); [done|exfalso].
  assert (a * n * b' ≤ a' * n * b) by nia. assert (b * b' * (C - 1) < a * n * b') by nia.
  assert (a' * n * b ≤ b * b' * C') by nia. nia.
Qed.

Lemma order_statistics {E} values :
  1 ≤ blen values ≤ 2 ^ 40 →
  ∃ lo p50 p90 p95 p99 p999 hi mean dev,
    distribution (E:=E) values
    = Ok (Distribution.mk (blen values) (ns_to_us lo) mean (ns_to_us p50) (ns_to_us p90) (ns_to_us p95)
            (ns_to_us p99) (ns_to_us p999) (ns_to_us hi) dev)
    ∧ percentile_of values 50 100 p50 ∧ percentile_of values 90 100 p90
    ∧ percentile_of values 95 100 p95 ∧ percentile_of values 99 100 p99
    ∧ percentile_of values 999 1000 p999
    ∧ lo ∈ values ∧ hi ∈ values ∧ Forall (λ x, lo ≤ x ≤ hi) values
    ∧ lo ≤ p50 ≤ p90 ∧ p90 ≤ p95 ≤ p99 ∧ p99 ≤ p999 ≤ hi.
Proof.
  intros Hn. pose proof (merge_sort_Permutation Z.le values) as Hp. fold (sort_unstable values) in Hp.
  pose proof (StronglySorted_merge_sort Z.le values) as Hs. fold (sort_unstable values) in Hs.
  pose proof (Permutation_length Hp) as Hlen.
  unfold distribution. rewrite bool_decide_eq_false_2 by (intros ->; rewrite blen_nil in Hn; lia).
  destruct (lookup_lt_is_Some_2 (sort_unstable values) 0) as [lo Hlo]; [unfold blen in *; lia|].
  destruct (lookup_lt_is_Some_2 (sort_unstable values) (length (sort_unstable values) - 1)) as [hi Hhi];
    [unfold blen in *; lia|].
  destruct (nearest_rank_exact (E:=E) values (F64.lit 50 100) 50 100) as (p50 & -> & H50 & ?); [done..|].
  destruct (nearest_rank_exact (E:=E) values (F64.lit 90 100) 90 100) as (p90 & -> & H90 & ?); [done..|].
  destruct (nearest_rank_exact (E:=E) values (F64.lit 95 100) 95 100) as (p95 & -> & H95 & ?); [done..|].
  destruct (nearest_rank_exact (E:=E) values (F64.lit 99 100) 99 100) as (p99 & -> & H99 & ?); [done..|].
  destruct (nearest_rank_exact (E:=E) values (F64.lit 999 1000) 999 1000) as (p999 & -> & H999 & ?); [done..|].
  unfold index. rewrite Hlo, Hhi. cbn [rbind].
  exists lo, p50, p90, p95, p99, p999, hi, (F64.div (mean_ns (sort_unstable values)) (F64.of_Z 1000)),
    (F64.div (F64.sqrt (variance_ns (sort_unstable values))) (F64.of_Z 1000)).
  assert (Hord : ∀ i j x y, i ≤ j → sort_unstable values !! Z.to_nat (i - 1) = Some x →
    sort_unstable values !! Z.to_nat (j - 1) = Some y → x ≤ y)
    by (intros i j x y Hij; apply sorted_lookup; [done|lia]).
  assert (Hmax : ∀ i x, sort_unstable values !! i = Some x → lo ≤ x ≤ hi).
  { intros i x Hx. pose proof (lookup_lt_Some _ _ _ Hx).
    split; [apply (sorted_lookup _ 0 i lo x Hs); [lia|done..]|].
    apply (sorted_lookup _ i (length (sort_unstable values) - 1) x hi Hs); [lia|done..]. }
  split; [by unfold blen; rewrite Hlen|].
  split_and!; try done; try (rewrite <- Hp; by eapply list_elem_of_lookup_2);
    try (by eapply Hord; [|eassumption..]; apply ceil_div_mono; lia);
    try (eapply Hmax; eassumption).
  rewrite <- Hp. apply Forall_lookup. exact Hmax.
Qed.

(** C35: A distribution reports the order statistics of its samples.  For every
    non-empty sample of up to 2^40 values it is computed without a panic, and
    although the ranks are computed in floating point, the reported minimum
    and maximum are the extremes and each percentile is exactly the one by
    nearest rank: a value of the sample with at least that share of the sample
    not above it and less than that share below it; they are in order. *)
Theorem distribution_exact {E} values :
  1 ≤ blen values ≤ 2 ^ 40 →
  ∃ lo p50 p90 p95 p99 p999 hi mean dev,
    distribution (E:=E) values
    = Ok (Distribution.mk (blen values) (ns_to_us lo) mean (ns_to_us p50) (ns_to_us p90) (ns_to_us p95)
            (ns_to_us p99) (ns_to_us p999) (ns_to_us hi) dev)
    ∧ percentile_of values 50 100 p50 ∧ percentile_of values 90 100 p90
    ∧ percentile_of values 95 100 p95 ∧ percentile_of values 99 100 p99
    ∧ percentile_of values 999 1000 p999
    ∧ lo ∈ values ∧ hi ∈ values ∧ Forall (λ x, lo ≤ x ≤ hi) values
    ∧ lo ≤ p50 ≤ p90 ∧ p90 ≤ p95 ≤ p99 ∧ p99 ≤ p999 ≤ hi.
Proof. apply order_statistics. Qed.

Lemma distribution_exact_witness :
  ∃ lo p50 p90 p95 p99 p999 hi mean dev,
    distribution (E:=unit) [3000; 1000; 4000; 2000]
    = Ok (Distribution.mk 4 (ns_to_us lo) mean (ns_to_us p50) (ns_to_us p90) (ns_to_us p95)
            (ns_to_us p99) (ns_to_us p999) (ns_to_us hi) dev)
    ∧ percentile_of [3000; 1000; 4000; 2000] 50 100 p50.
Proof.
  destruct (distribution_exact (E:=unit) [3000; 1000; 4000; 2000] ltac:(split; discriminate))
    as (lo & p50 & p90 & p95 & p99 & p999 & hi & mean & dev & H & H50 & _).
  exists lo, p50, p90, p95, p99, p999, hi, mean, dev. split; [exact H|exact H50].
Defined.
