(* ===== verification/FileSystem.v ===== *)
(** * A mounted file system

    What the benchmark harness uses of [std::path] and [std::fs]: paths by
    components, and a tree of directories, names and inodes behind the calls.
    Two names may share an inode (hard links).

    The mount is a network file system, so any call may fail, and a call that
    reports a failure may have taken effect all the same; a write that fails
    may have written a part, a read may return less than was asked for.  Which
    of this happens is decided by the arguments [fault] and [amount], indexed by
    the number of the call. *)

From stdpp Require Import gmap.
From S2P Require Import Prelude.

(** ** Paths *)

Module PathBuf.
(** The components of a path: the root directory, and the names below. *)
Record t : Type := mk { absolute : bool; names : list str }.

#[global] Instance eq_dec : EqDecision t.
Proof. solve_decision. Defined.

#[global] Instance countable : Countable t :=
  inj_countable' (λ p, (absolute p, names p)) (λ '(a, n), mk a n) ltac:(by intros []).

Definition slash : Z := 47.
Definition dot : str := [46].
Definition dotdot : str := [46; 46].

(** The pieces between the separators. *)
Fixpoint split_slash (s : str) : list str :=
  match s with
  | [] => [[]]
  | c :: s =>
      if c =? slash then [] :: split_slash s
      else match split_slash s with
           | x :: l => (c :: x) :: l
           | [] => [[c]]
           end
  end.

(** Repeated separators and [.] are dropped. *)
Definition segments (s : str) : list str := filter (λ x, x ≠ [] ∧ x ≠ dot) (split_slash s).

Definition starts_absolute (s : str) : bool := match s with c :: _ => c =? slash | [] => false end.

Definition of_str (s : str) : t := mk (starts_absolute s) (segments s).

(** [Path::join] *)
Definition join (p : t) (s : str) : t :=
  if starts_absolute s then of_str s else mk (absolute p) (names p ++ segments s).

Definition file_name (p : t) : option str :=
  match rev (names p) with
  | x :: _ => if bool_decide (x = dotdot) then None else Some x
  | [] => None
  end.

(** [Path::parent]: none for the root and for the empty path. *)
Definition parent (p : t) : option t :=
  match names p with
  | [] => None
  | _ => Some (mk (absolute p) (removelast (names p)))
  end.

(** [Path::display] *)
Definition display (p : t) : str :=
  (if absolute p then [slash] else []) ++ join_with [slash] (names p).

(** [PathBuf::push] of one component. *)
Definition push (p : t) (component : str) : t := mk (absolute p) (names p ++ [component]).

(** [Path::starts_with], by components *)
Definition starts_with (p base : t) : bool :=
  bool_decide (absolute p = absolute base) && bool_decide (names base `prefix_of` names p).
End PathBuf.

(** ** Errors *)

Module IoError.
Inductive kind : Type :=
| NotFound | AlreadyExists | InvalidInput | InvalidData | UnexpectedEof | Interrupted | Uncategorized.

#[global] Instance eq_dec : EqDecision kind.
Proof. solve_decision. Defined.

(** [message] is the text [to_string] shows. *)
Record t : Type := mk { error_kind : kind; message : str }.
End IoError.

(** ** The tree *)

Module Fs.
Record t : Type := mk {
  files : gmap PathBuf.t nat;
  inodes : gmap nat bytes;
  dirs : gset PathBuf.t;
  next_inode : nat;
  calls : nat;
}.

Definition tick (fs : t) : t := mk (files fs) (inodes fs) (dirs fs) (next_inode fs) (S (calls fs)).
Definition set_files (x : gmap PathBuf.t nat) (fs : t) : t :=
  mk x (inodes fs) (dirs fs) (next_inode fs) (calls fs).
Definition set_inodes (x : gmap nat bytes) (fs : t) : t :=
  mk (files fs) x (dirs fs) (next_inode fs) (calls fs).
Definition set_dirs (x : gset PathBuf.t) (fs : t) : t :=
  mk (files fs) (inodes fs) x (next_inode fs) (calls fs).

(** The content a name shows. *)
Definition content (fs : t) (p : PathBuf.t) : option bytes := files fs !! p ≫= λ i, inodes fs !! i.

Definition exists_ (fs : t) (p : PathBuf.t) : bool :=
  bool_decide (is_Some (files fs !! p)) || bool_decide (p ∈ dirs fs).

(** A directory can hold a new name. *)
Definition has_parent (fs : t) (p : PathBuf.t) : bool :=
  match PathBuf.parent p with Some d => bool_decide (d ∈ dirs fs) | None => false end.

Definition not_found : IoError.t := IoError.mk IoError.NotFound (str_of "No such file or directory (os error 2)").
Definition already_exists : IoError.t := IoError.mk IoError.AlreadyExists (str_of "File exists (os error 17)").
Definition is_a_directory : IoError.t := IoError.mk IoError.Uncategorized (str_of "Is a directory (os error 21)").

(** Every name leads to an inode, and no inode is ahead of the counter. *)
Record wf (fs : t) : Prop := {
  wf_files p i : files fs !! p = Some i → is_Some (inodes fs !! i);
  wf_next i : is_Some (inodes fs !! i) → (i < next_inode fs)%nat;
}.

Section calls.
Context (fault : nat → option (IoError.t * bool)) (amount : nat → nat).

(** One call: it is carried out, or fails with or without its effect. *)
Definition call {A} (effect : t → res IoError.t A * t) : st t IoError.t A := λ fs,
  let n := calls fs in
  let fs := tick fs in
  match fault n with
  | None => effect fs
  | Some (e, false) => (Err e, fs)
  | Some (e, true) => (Err e, (effect fs).2)
  end.

Definition add_file (p : PathBuf.t) (fs : t) : t :=
  mk (<[p := next_inode fs]> (files fs)) (<[next_inode fs := []]> (inodes fs)) (dirs fs)
     (S (next_inode fs)) (calls fs).

(** [OpenOptions::new().write(true).create_new(true).open(p)] *)
Definition open_create_new (p : PathBuf.t) : st t IoError.t nat :=
  call (λ fs, if exists_ fs p then (Err already_exists, fs)
              else if has_parent fs p then (Ok (next_inode fs), add_file p fs)
              else (Err not_found, fs)).

(** [File::create]: an existing file is truncated. *)
Definition create (p : PathBuf.t) : st t IoError.t nat :=
  call (λ fs, if bool_decide (p ∈ dirs fs) then (Err is_a_directory, fs)
              else match files fs !! p with
                   | Some i => (Ok i, set_inodes (<[i := []]> (inodes fs)) fs)
                   | None => if has_parent fs p then (Ok (next_inode fs), add_file p fs)
                             else (Err not_found, fs)
                   end).

Definition open (p : PathBuf.t) : st t IoError.t nat :=
  call (λ fs, match files fs !! p with Some i => (Ok i, fs) | None => (Err not_found, fs) end).

(** [write_all] at the end of a file that was just created: on a failure a
    part has been written. *)
Definition append (i : nat) (data : bytes) (fs : t) : t :=
  match inodes fs !! i with
  | Some old => set_inodes (<[i := old ++ data]> (inodes fs)) fs
  | None => fs
  end.

Definition write_all (i : nat) (data : bytes) : st t IoError.t unit := λ fs,
  let n := calls fs in
  let fs := tick fs in
  match fault n with
  | None => (Ok tt, append i data fs)
  | Some (e, _) => (Err e, append i (take (amount n) data) fs)
  end.

Definition sync_all (i : nat) : st t IoError.t unit := call (λ fs, (Ok tt, fs)).

Definition body_of (fs : t) (i : nat) : bytes := default [] (inodes fs !! i).

(** [File::metadata().len()], [fs::metadata(p).len()] *)
Definition file_len (i : nat) : st t IoError.t Z := call (λ fs, (Ok (blen (body_of fs i)), fs)).

Definition metadata_len (p : PathBuf.t) : st t IoError.t Z :=
  call (λ fs, match content fs p with
              | Some data => (Ok (blen data), fs)
              | None => if bool_decide (p ∈ dirs fs) then (Ok 4096, fs) else (Err not_found, fs)
              end).

Definition hard_link (from to_ : PathBuf.t) : st t IoError.t unit :=
  call (λ fs, match files fs !! from with
              | None => (Err not_found, fs)
              | Some i =>
                  if exists_ fs to_ then (Err already_exists, fs)
                  else if has_parent fs to_ then (Ok tt, set_files (<[to_ := i]> (files fs)) fs)
                  else (Err not_found, fs)
              end).

(** Two names of one inode are left as they are. *)
Definition rename (from to_ : PathBuf.t) : st t IoError.t unit :=
  call (λ fs, match files fs !! from with
              | None => (Err not_found, fs)
              | Some i =>
                  if bool_decide (to_ ∈ dirs fs) then (Err is_a_directory, fs)
                  else if negb (has_parent fs to_) then (Err not_found, fs)
                  else if bool_decide (files fs !! to_ = Some i) then (Ok tt, fs)
                  else (Ok tt, set_files (<[to_ := i]> (delete from (files fs))) fs)
              end).

Definition remove_file (p : PathBuf.t) : st t IoError.t unit :=
  call (λ fs, match files fs !! p with
              | Some _ => (Ok tt, set_files (delete p (files fs)) fs)
              | None => (Err (if bool_decide (p ∈ dirs fs) then is_a_directory else not_found), fs)
              end).

(** A directory and the directories above it. *)
Definition ancestors (p : PathBuf.t) : list PathBuf.t :=
  (λ k, PathBuf.mk (PathBuf.absolute p) (take k (PathBuf.names p))) <$> seq 0 (S (length (PathBuf.names p))).

Definition create_dir_all (p : PathBuf.t) : st t IoError.t unit :=
  call (λ fs, if existsb (λ d, bool_decide (is_Some (files fs !! d))) (ancestors p)
              then (Err already_exists, fs)
              else (Ok tt, set_dirs (list_to_set (ancestors p) ∪ dirs fs) fs)).

Definition create_dir (p : PathBuf.t) : st t IoError.t unit :=
  call (λ fs, if exists_ fs p then (Err already_exists, fs)
              else if has_parent fs p then (Ok tt, set_dirs ({[p]} ∪ dirs fs) fs)
              else (Err not_found, fs)).

Definition remove_dir_all (p : PathBuf.t) : st t IoError.t unit :=
  call (λ fs, if bool_decide (p ∈ dirs fs) then
                (Ok tt, set_dirs (filter (λ d, PathBuf.starts_with d p = false) (dirs fs))
                          (set_files (filter (λ f, PathBuf.starts_with f.1 p = false) (files fs)) fs))
              else (Err not_found, fs)).

(** The names in a directory. *)
Definition children (p : PathBuf.t) (fs : t) : list PathBuf.t :=
  filter (λ q, PathBuf.parent q = Some p) ((map_to_list (files fs)).*1 ++ elements (dirs fs)).

(** [read_dir]: each entry may fail on its own. *)
Definition read_dir (p : PathBuf.t) : st t IoError.t (list PathBuf.t) :=
  call (λ fs, if bool_decide (p ∈ dirs fs) then (Ok (children p fs), fs) else (Err not_found, fs)).

(** [Read::read_to_end] of a file that was just opened. *)
Definition read_to_end (i : nat) : st t IoError.t bytes := call (λ fs, (Ok (body_of fs i), fs)).

(** [pread]: nothing at the end of the file, else at least one byte and at
    most what was asked for. *)
Definition pread (i : nat) (count offset : Z) : st t IoError.t bytes := λ fs,
  let n := calls fs in
  call (λ fs, let available := drop (Z.to_nat offset) (body_of fs i) in
              (Ok (take (Nat.min (Z.to_nat count) (S (amount n))) available), fs)) fs.
End calls.
End Fs.

(** ** What a call can do *)

Section call_facts.
Context (fault : nat → option (IoError.t * bool)) (amount : nat → nat).
Import Fs.

(** A call returns what its effect returns, or fails and leaves the state
    before or after the effect: a postcondition of errors must hold of both. *)
Lemma call_outcome {A} (effect : t → res IoError.t A * t) fs (Q : A → t → Prop) (X : t → Prop) :
  match effect (tick fs) with
  | (Ok a, fs') => Q a fs'
  | (Err _, fs') => X fs'
  | (Panic, _) => False
  end → X (tick fs) → (∀ a fs', Q a fs' → X fs') →
  match call fault effect fs with
  | (Ok a, fs') => Q a fs'
  | (Err _, fs') => X fs'
  | (Panic, _) => False
  end.
Proof.
  intros Heff Hx HQ. unfold call. destruct (fault (calls fs)) as [[e []]|]; [|done..].
  destruct (effect (tick fs)) as [[a|e'|] fs']; cbn; eauto. done.
Qed.

(** Calls that only look. *)
Lemma call_looks {A} (f : t → A) fs (X : t → Prop) :
  X (tick fs) →
  match call fault (λ fs, (Ok (f fs), fs)) fs with
  | (Ok a, fs') => a = f (tick fs) ∧ X fs'
  | (Err _, fs') => X fs'
  | (Panic, _) => False
  end.
Proof.
  intros Hx. apply (call_outcome _ _ (λ a fs', a = f (tick fs) ∧ X fs') X); [done|done|]. by intros a fs' [_ ?].
Qed.

Lemma wf_tick fs : wf fs → wf (tick fs).
Proof. by intros []. Qed.

Lemma wf_fresh fs : wf fs → inodes fs !! next_inode fs = None.
Proof. intros Hw. apply eq_None_not_Some. intros Hi%(wf_next _ Hw). lia. Qed.

(** A well-formed tree stays well-formed when names move to inodes that exist
    and contents change. *)
Lemma wf_change fs fs' :
  wf fs → (∀ p i, files fs' !! p = Some i → is_Some (inodes fs' !! i)) →
  (∀ i, is_Some (inodes fs' !! i) → is_Some (inodes fs !! i) ∨ i = next_inode fs ∧ next_inode fs' = S (next_inode fs)) →
  (next_inode fs ≤ next_inode fs')%nat → wf fs'.
Proof.
  intros Hw Hf Hi Hn. split; [done|]. intros i [H|[-> H]]%Hi; [|lia].
  pose proof (wf_next _ Hw i H). lia.
Qed.
End call_facts.
