(* ===== verification/BenchMount.v ===== *)
(** * The mounted backend of the benchmark (bench/src/mount.rs)

    Reads with O_DIRECT or with the page cache dropped, the atomic put of the
    comparison backend, and the probe that chooses between the two kinds of
    reads, over [FileSystem].  Linux is the target.  [posix_fadvise] is advice
    and has no effect on contents. *)

From stdpp Require Import gmap.
From S2P Require Import Prelude Float64 Owner BenchModel FileSystem.

Module RemoteReadMode.
Inductive t : Type := Direct | FadviseDontNeed.

#[global] Instance eq_dec : EqDecision t.
Proof. solve_decision. Defined.

Definition label (self : t) : str :=
  match self with
  | Direct => str_of "o-direct"
  | FadviseDontNeed => str_of "posix-fadvise-dontneed-best-effort"
  end.
End RemoteReadMode.

Definition io_error (kind : IoError.kind) (message : str) : IoError.t := IoError.mk kind message.

Definition parent {S} (path : PathBuf.t) : st S IoError.t PathBuf.t :=
  slift (ok_or (PathBuf.parent path) (io_error IoError.InvalidInput (str_of "path has no parent"))).

Definition temporary_path (parent : PathBuf.t) (suffix : str) : PathBuf.t :=
  PathBuf.join parent (str_of ".nfs-crust-bench-tmp-" ++ suffix).

(** [let _ = m] *)
Definition ignored {S E A} (m : st S E A) : st S E unit := λ s,
  match m s with
  | (Panic, s) => (Panic, s)
  | (_, s) => (Ok tt, s)
  end.

Definition advise_dont_need (file : nat) (length : Z) : st Fs.t IoError.t unit := sret tt.

Section mount.
Context (fault : nat → option (IoError.t * bool)) (amount : nat → nat).

Notation M := (st Fs.t IoError.t).

Definition write_seed (path : PathBuf.t) (data : bytes) : M unit :=
  let! dir := parent path in
  let! _ := Fs.create_dir_all fault dir in
  let! file := Fs.create fault path in
  let! _ := Fs.write_all fault amount file data in
  let! _ := Fs.sync_all fault file in
  advise_dont_need file (blen data).

(** ** Reads *)

Definition ALIGNMENT : Z := 4096.

(** [AlignedBuffer::new]: the allocation may fail. *)
Definition aligned_buffer (size alignment : Z) : M unit := Fs.call fault (λ fs, (Ok tt, fs)).

(** The loop of [read_direct]; [body] is what the buffer holds.  A turn that is
    not interrupted reads at least one byte or ends the loop. *)
Fixpoint read_direct_loop (fuel : nat) (file : nat) (size offset : Z) (body : bytes) : M bytes :=
  if blen body <? size then
    match fuel with
    | O => spanic
    | S fuel => λ fs,
        match Fs.pread fault amount file (size - blen body) (offset + blen body) fs with
        | (Err error, fs) =>
            if bool_decide (IoError.error_kind error = IoError.Interrupted)
            then read_direct_loop fuel file size offset body fs
            else (Err error, fs)
        | (Panic, fs) => (Panic, fs)
        | (Ok chunk, fs) =>
            if bool_decide (chunk = []) then (Ok body, fs)
            else
              let body := body ++ chunk in
              if (blen body <? size) && negb (is_multiple_of (blen body) ALIGNMENT) then
                (Err (io_error IoError.InvalidData
                   (str_of "O_DIRECT returned an unaligned short read of " ++ decimal (blen body)
                    ++ str_of " bytes")), fs)
              else read_direct_loop fuel file size offset body fs
        end
    end
  else sret body.

Definition read_direct (fuel : nat) (path : PathBuf.t) (size offset : Z) : M bytes :=
  if (size =? 0) || negb (is_multiple_of size ALIGNMENT) || negb (is_multiple_of offset ALIGNMENT) then
    sfail (io_error IoError.InvalidInput
             (str_of "O_DIRECT reads require non-zero 4 KiB-aligned length and offset"))
  else
    let! file := Fs.open fault path in
    let! _ := aligned_buffer size ALIGNMENT in
    let! body := read_direct_loop fuel file size offset [] in
    if negb (blen body =? size) then
      sfail (io_error IoError.UnexpectedEof
               (str_of "O_DIRECT expected " ++ decimal size ++ str_of " bytes, read " ++ decimal (blen body)))
    else sret body.

Definition read_fadvise (path : PathBuf.t) (expected_size : Z) (known_size : bool) : M bytes :=
  let! file := Fs.open fault path in
  let! size := if known_size then sret expected_size else Fs.file_len fault file in
  let! _ := advise_dont_need file size in
  let! body := Fs.read_to_end fault file in
  let! _ := advise_dont_need file size in
  sret body.

(** [file.take(n).read_to_end] *)
Definition read_trusted_size (path : PathBuf.t) (expected_size : Z) : M bytes :=
  let! file := Fs.open fault path in
  let! _ := advise_dont_need file expected_size in
  let! whole := Fs.read_to_end fault file in
  let body := take (Z.to_nat expected_size) whole in
  if negb (blen body =? expected_size) then
    sfail (io_error IoError.UnexpectedEof
             (str_of "expected " ++ decimal expected_size ++ str_of " bytes, read " ++ decimal (blen body)))
  else sret body.

(** [seek] and [read_exact]. *)
Definition read_fadvise_range (path : PathBuf.t) (offset length : Z) : M bytes :=
  let! file := Fs.open fault path in
  let! size := Fs.file_len fault file in
  let! _ := advise_dont_need file size in
  let! whole := Fs.read_to_end fault file in
  let body := take (Z.to_nat length) (drop (Z.to_nat offset) whole) in
  if negb (blen body =? length) then
    sfail (io_error IoError.UnexpectedEof (str_of "failed to fill whole buffer"))
  else
    let! size := Fs.file_len fault file in
    let! _ := advise_dont_need file size in
    sret body.

Definition read_remote (fuel : nat) (path : PathBuf.t) (expected_size : Z) (known_size : bool)
    (mode : RemoteReadMode.t) : M bytes :=
  match mode with
  | RemoteReadMode.Direct =>
      let! size :=
        if known_size then
          let! observed := Fs.metadata_len fault path in
          if negb (observed =? expected_size) then
            sfail (io_error IoError.InvalidData
                     (str_of "file size " ++ decimal observed ++ str_of " did not match supplied size "
                      ++ decimal expected_size))
          else sret expected_size
        else Fs.metadata_len fault path in
      read_direct fuel path size 0
  | RemoteReadMode.FadviseDontNeed => read_fadvise path expected_size known_size
  end.

Definition read_remote_range (fuel : nat) (path : PathBuf.t) (offset length : Z) (mode : RemoteReadMode.t)
  : M bytes :=
  match mode with
  | RemoteReadMode.Direct => read_direct fuel path length offset
  | RemoteReadMode.FadviseDontNeed => read_fadvise_range path offset length
  end.

Definition read_remote_trusted_size (fuel : nat) (path : PathBuf.t) (expected_size : Z)
    (mode : RemoteReadMode.t) : M bytes :=
  match mode with
  | RemoteReadMode.Direct => read_direct fuel path expected_size 0
  | RemoteReadMode.FadviseDontNeed => read_trusted_size path expected_size
  end.

Definition read_cached (path : PathBuf.t) (expected_size : Z) : M bytes :=
  let! file := Fs.open fault path in
  Fs.read_to_end fault file.

Definition warm_page_cache (path : PathBuf.t) (expected_size : Z) : M unit :=
  let! body := read_cached path expected_size in
  if negb (blen body =? expected_size) then
    sfail (io_error IoError.UnexpectedEof
             (str_of "expected " ++ decimal expected_size ++ str_of " bytes, read " ++ decimal (blen body)))
  else sret tt.

(** ** The atomic put *)

(** The closure that prepares and publishes. *)
Definition prepare_and_publish (file : nat) (temporary destination : PathBuf.t) (data : bytes)
    (create_new : bool) : M unit :=
  let! _ := Fs.write_all fault amount file data in
  let! _ := Fs.sync_all fault file in
  let! observed_size := Fs.file_len fault file in
  if negb (observed_size =? blen data) then
    sfail (io_error IoError.InvalidData
             (str_of "prepared file size " ++ decimal observed_size ++ str_of " did not match "
              ++ decimal (blen data)))
  else if create_new then
    let! _ := Fs.hard_link fault temporary destination in
    ignored (Fs.remove_file fault temporary)
  else Fs.rename fault temporary destination.

Definition atomic_put (destination : PathBuf.t) (data : bytes) (create_new : bool) (temporary_suffix : str)
  : M unit :=
  let! dir := parent destination in
  let temporary := temporary_path dir temporary_suffix in
  let! file := Fs.open_create_new fault temporary in
  λ fs,
  match prepare_and_publish file temporary destination data create_new fs with
  | (Err e, fs) =>
      match ignored (Fs.remove_file fault temporary) fs with
      | (Panic, fs) => (Panic, fs)
      | (_, fs) => (Err e, fs)
      end
  | other => other
  end.

(** ** The rest *)

Definition metadata_size (path : PathBuf.t) : M Z := Fs.metadata_len fault path.
Definition delete (path : PathBuf.t) : M unit := Fs.remove_file fault path.

(** Reading an entry of the directory may fail. *)
Fixpoint count_entries (entries : list PathBuf.t) (count : Z) : M Z :=
  match entries with
  | [] => sret count
  | _ :: entries =>
      let! _ := Fs.call fault (λ fs, (Ok tt, fs)) in
      count_entries entries (saturating_add count 1)
  end.

Definition list_count (path : PathBuf.t) : M Z :=
  let! entries := Fs.read_dir fault path in
  count_entries entries 0.

Definition probe_outcome (payload : bytes) (read : res IoError.t bytes) : RemoteReadMode.t * str :=
  match read with
  | Ok body =>
      if bool_decide (body = payload)
      then (RemoteReadMode.Direct, str_of "EFS accepted an aligned 4 KiB O_DIRECT read")
      else (RemoteReadMode.FadviseDontNeed, str_of "O_DIRECT returned unexpected probe content")
  | Err error =>
      (RemoteReadMode.FadviseDontNeed, str_of "O_DIRECT probe failed: " ++ IoError.message error)
  | Panic => (RemoteReadMode.FadviseDontNeed, [])
  end.

Definition probe_remote_read_mode (fuel : nat) (root : PathBuf.t) (fs : Fs.t)
  : (RemoteReadMode.t * str) * Fs.t :=
  let probe_dir := PathBuf.join root (str_of "direct-io-probe") in
  match Fs.create_dir_all fault probe_dir fs with
  | (Err error, fs) =>
      ((RemoteReadMode.FadviseDontNeed,
        str_of "could not create probe directory: " ++ IoError.message error), fs)
  | (_, fs) =>
      let probe_path := PathBuf.join probe_dir (str_of "block.bin") in
      let payload := replicate 4096 0x5a in
      match write_seed probe_path payload fs with
      | (Err error, fs) =>
          ((RemoteReadMode.FadviseDontNeed,
            str_of "could not write direct-I/O probe: " ++ IoError.message error), fs)
      | (_, fs) =>
          let '(read, fs) := read_direct fuel probe_path (blen payload) 0 fs in
          let outcome := probe_outcome payload read in
          (outcome, (ignored (Fs.remove_dir_all fault probe_dir) fs).2)
      end
  end.
End mount.

(** ** The put is atomic

    [fs0] is the tree before, [n] the inode of the temporary file. *)

Section atomic.
Context (fault : nat → option (IoError.t * bool)) (amount : nat → nat).
Context (fs0 : Fs.t) (temporary destination : PathBuf.t) (data : bytes).
Context (Hwf : Fs.wf fs0) (Hne : destination ≠ temporary).
Import Fs.

Notation n := (next_inode fs0).

(** Everything else is as it was. *)
Record others_kept (fs : t) : Prop := {
  ok_dirs : dirs fs = dirs fs0;
  ok_files p : p ≠ temporary → p ≠ destination → files fs !! p = files fs0 !! p;
  ok_inodes i : i ≠ n → inodes fs !! i = inodes fs0 !! i;
  ok_next : next_inode fs = S n;
}.

(** The temporary file holds [body], the destination is as it was. *)
Record staged (body : bytes) (fs : t) : Prop := {
  sg_kept : others_kept fs;
  sg_temporary : files fs !! temporary = Some n;
  sg_body : inodes fs !! n = Some body;
  sg_destination : files fs !! destination = files fs0 !! destination;
}.

(** The destination is the inode of the temporary file. *)
Record published (fs : t) : Prop := {
  pb_kept : others_kept fs;
  pb_temporary : files fs !! temporary = Some n ∨ files fs !! temporary = None;
  pb_body : inodes fs !! n = Some data;
  pb_destination : files fs !! destination = Some n;
}.

(** Whatever happened to the temporary name since. *)
Record abandoned (fs : t) : Prop := {
  ab_kept : others_kept fs;
  ab_temporary : files fs !! temporary = Some n ∨ files fs !! temporary = None;
  ab_body : is_Some (inodes fs !! n);
  ab_destination : files fs !! destination = files fs0 !! destination;
}.

Lemma staged_tick body fs : staged body fs → staged body (tick fs).
Proof. by intros [[] ? ? ?]. Qed.

Lemma published_tick fs : published fs → published (tick fs).
Proof. by intros [[] ? ? ?]. Qed.

Lemma abandoned_tick fs : abandoned fs → abandoned (tick fs).
Proof. by intros [[] ? ? ?]. Qed.

Lemma staged_abandoned body fs : staged body fs → abandoned fs.
Proof. intros [Hk Ht Hb Hd]. by split; eauto. Qed.

Lemma set_files_kept fs m : others_kept fs →
  (∀ p, p ≠ temporary → p ≠ destination → m !! p = files fs !! p) → others_kept (set_files m fs).
Proof. intros [] Hm. split; cbn; [done| |done|done]. intros p H1 H2. rewrite Hm; auto. Qed.

(** Opening the temporary file. *)
Lemma open_temporary :
  match open_create_new fault temporary fs0 with
  | (Ok i, fs) => i = n ∧ staged [] fs
  | (Err _, fs) => fs = tick fs0 ∨ abandoned fs
  | (Panic, _) => False
  end.
Proof.
  apply (call_outcome fault _ fs0 (λ i fs, i = n ∧ staged [] fs) (λ fs, fs = tick fs0 ∨ abandoned fs)).
  - destruct (exists_ (tick fs0) temporary); [by left|].
    destruct (has_parent (tick fs0) temporary); [|by left]. split; [done|]. split; [split|..]; cbn; try done.
    + intros p Hp _. by rewrite lookup_insert_ne.
    + intros i Hi. by rewrite lookup_insert_ne.
    + by rewrite lookup_insert_eq.
    + by rewrite lookup_insert_eq.
    + by rewrite lookup_insert_ne.
  - by left.
  - intros i fs [_ Hs]. right. by eapply staged_abandoned.
Qed.

Lemma write_all_staged fs : staged [] fs →
  match write_all fault amount n data fs with
  | (Ok _, fs) => staged data fs
  | (Err _, fs) => abandoned fs
  | (Panic, _) => False
  end.
Proof.
  intros Hs. assert (Happ : ∀ d, staged d (append n d (tick fs))).
  { intros d. destruct Hs as [[H1 H2 H3 H4] H5 H6 H7]. unfold append. cbn. rewrite H6.
    split; [split|..]; cbn; try done.
    - intros i Hi. rewrite lookup_insert_ne by done. auto.
    - by rewrite lookup_insert_eq. }
  unfold write_all. destruct (fault (calls fs)) as [[e b]|]; [eapply staged_abandoned|]; apply Happ.
Qed.

Lemma hard_link_staged fs : staged data fs →
  match hard_link fault temporary destination fs with
  | (Ok _, fs) => published fs ∧ files fs0 !! destination = None
  | (Err _, fs) => abandoned fs ∨ published fs ∧ files fs0 !! destination = None
  | (Panic, _) => False
  end.
Proof.
  intros Hs. assert (Hab : abandoned (tick fs)) by (eapply abandoned_tick, staged_abandoned, Hs).
  apply (call_outcome fault _ fs (λ _ fs, published fs ∧ files fs0 !! destination = None)
    (λ fs, abandoned fs ∨ published fs ∧ files fs0 !! destination = None)); [|by left|by right].
  destruct Hs as [Hk H5 H6 H7]. cbn. rewrite H5. unfold exists_. cbn.
  destruct (files fs !! destination) as [i|] eqn:Hd;
    [rewrite bool_decide_eq_true_2 by eauto; by left|].
  rewrite bool_decide_eq_false_2 by (by intros []). cbn [orb].
  destruct (bool_decide (destination ∈ dirs fs)); [by left|].
  destruct (has_parent (tick fs) destination); [|by left].
  rewrite <- H7. split; [|done]. split; cbn.
  - apply (set_files_kept (tick fs)); [by destruct Hk|]. intros p _ Hp. by rewrite lookup_insert_ne.
  - left. by rewrite lookup_insert_ne.
  - done.
  - by rewrite lookup_insert_eq.
Qed.

Lemma rename_staged fs : staged data fs →
  match rename fault temporary destination fs with
  | (Ok _, fs) => published fs ∧ files fs !! temporary = None
  | (Err _, fs) => abandoned fs ∨ published fs
  | (Panic, _) => False
  end.
Proof.
  intros Hs. assert (Hab : abandoned (tick fs)) by (eapply abandoned_tick, staged_abandoned, Hs).
  apply (call_outcome fault _ fs (λ _ fs, published fs ∧ files fs !! temporary = None)
    (λ fs, abandoned fs ∨ published fs)); [|by left|naive_solver].
  destruct Hs as [Hk H5 H6 H7]. cbn. rewrite H5.
  destruct (bool_decide (destination ∈ dirs fs)); [by left|].
  destruct (has_parent (tick fs) destination); cbn [negb]; [|by left].
  rewrite bool_decide_eq_false_2.
  2: { rewrite H7. intros Hn%(wf_files _ Hwf)%(wf_next _ Hwf). lia. }
  split; [split; cbn|].
  - apply (set_files_kept (tick fs)); [by destruct Hk|].
    intros p Hp Hp'. by rewrite lookup_insert_ne, lookup_delete_ne by done.
  - right. by rewrite lookup_insert_ne, lookup_delete_eq by done.
  - done.
  - by rewrite lookup_insert_eq.
  - cbn. by rewrite lookup_insert_ne, lookup_delete_eq by done.
Qed.

(** Removing the temporary name, whether that succeeds or not. *)
Lemma remove_temporary (P : t → Prop) fs :
  P (tick fs) → P (set_files (base.delete temporary (files fs)) (tick fs)) →
  ∃ fs', ignored (remove_file fault temporary) fs = (Ok tt, fs') ∧ P fs'.
Proof.
  intros H1 H2. assert (Hc : match remove_file fault temporary fs with
    | (Ok _, fs') => P fs' | (Err _, fs') => P fs' | (Panic, _) => False end).
  { apply (call_outcome fault _ fs (λ _, P) P); [|done|done]. by destruct (files (tick fs) !! temporary). }
  unfold ignored. destruct (remove_file fault temporary fs) as [[[]|e|] fs']; [by eauto..|done].
Qed.

Lemma remove_published fs : published fs →
  ∃ fs', ignored (remove_file fault temporary) fs = (Ok tt, fs') ∧ published fs'.
Proof.
  intros Hp. apply remove_temporary; [by apply published_tick|]. destruct Hp as [Hk H1 H2 H3]. split; cbn.
  - apply (set_files_kept (tick fs)); [by destruct Hk|]. intros p Hp _. by rewrite lookup_delete_ne.
  - right. by rewrite lookup_delete_eq.
  - done.
  - by rewrite lookup_delete_ne.
Qed.

Lemma remove_abandoned fs : abandoned fs →
  ∃ fs', ignored (remove_file fault temporary) fs = (Ok tt, fs') ∧ abandoned fs'.
Proof.
  intros Hp. apply remove_temporary; [by apply abandoned_tick|]. destruct Hp as [Hk H1 H2 H3]. split; cbn.
  - apply (set_files_kept (tick fs)); [by destruct Hk|]. intros p Hp _. by rewrite lookup_delete_ne.
  - right. by rewrite lookup_delete_eq.
  - done.
  - by rewrite lookup_delete_ne.
Qed.

(** What the caller sees. *)
Definition settled (create_new : bool) (r : res IoError.t unit) (fs : t) : Prop :=
  match r with
  | Ok _ => published fs ∧ (create_new = true → files fs0 !! destination = None)
      ∧ (create_new = false → files fs !! temporary = None)
  | Err _ => abandoned fs ∨ published fs ∧ (create_new = true → files fs0 !! destination = None)
  | Panic => False
  end.

Lemma publish_settled (create_new : bool) fs : staged data fs →
  let '(r, fs') :=
    (if create_new then
       let! _ := hard_link fault temporary destination in ignored (remove_file fault temporary)
     else rename fault temporary destination) fs in
  settled create_new r fs'.
Proof.
  intros Hs. destruct create_new; cbn.
  - unfold sbind. pose proof (hard_link_staged fs Hs) as Hl.
    destruct (hard_link fault temporary destination fs) as [[[]|e|] fs1]; cbn; [|naive_solver..].
    destruct Hl as [Hp Hnone]. destruct (remove_published fs1 Hp) as (fs2 & -> & Hp2). cbn. by split_and!.
  - pose proof (rename_staged fs Hs) as Hr.
    destruct (rename fault temporary destination fs) as [[[]|e|] fs1]; cbn; naive_solver.
Qed.

Lemma prepare_settled (create_new : bool) fs : staged [] fs →
  let '(r, fs') := prepare_and_publish fault amount n temporary destination data create_new fs in
  settled create_new r fs'.
Proof.
  intros Hs. unfold prepare_and_publish, sbind at 1. pose proof (write_all_staged fs Hs) as Hw.
  destruct (write_all fault amount n data fs) as [[[]|e|] fs1]; cbn; [|by left|done].
  unfold sbind at 1. pose proof (call_looks fault (λ _, tt) fs1 (staged data) (staged_tick _ _ Hw)) as Hsync.
  unfold sync_all. destruct (call fault _ fs1) as [[[]|e|] fs2]; cbn;
    [|left; by eapply staged_abandoned|done].
  destruct Hsync as [_ Hs2]. unfold sbind at 1.
  pose proof (call_looks fault (λ fs, blen (body_of fs n)) fs2 (staged data) (staged_tick _ _ Hs2)) as Hlen.
  unfold file_len. destruct (call fault _ fs2) as [[len|e|] fs3]; cbn;
    [|left; by eapply staged_abandoned|done].
  destruct Hlen as [-> Hs3].
  assert (body_of (tick fs2) n = data) as -> by (unfold body_of; cbn; by rewrite (sg_body _ _ Hs2)).
  rewrite Z.eqb_refl. cbn [negb]. by apply publish_settled.
Qed.
End atomic.

(** What became of the tree: everything but the two names is untouched, and
    the destination shows its old content or all of the new one. *)
Definition atomically (fs fs' : Fs.t) (temporary destination : PathBuf.t) (data : bytes) (create_new : bool)
  : Prop :=
  Fs.dirs fs' = Fs.dirs fs
  ∧ (∀ p, p ≠ temporary → p ≠ destination → Fs.content fs' p = Fs.content fs p)
  ∧ (Fs.content fs' destination = Fs.content fs destination
     ∨ Fs.content fs' destination = Some data ∧ (create_new = true → Fs.content fs destination = None)).

Lemma kept_content fs0 temporary destination fs p :
  Fs.wf fs0 → others_kept fs0 temporary destination fs → p ≠ temporary → p ≠ destination →
  Fs.content fs p = Fs.content fs0 p.
Proof.
  intros Hw [_ Hf Hi _] H1 H2. unfold Fs.content. rewrite Hf by done.
  destruct (Fs.files fs0 !! p) as [i|] eqn:Hp; [|done]. cbn. apply Hi.
  intros ->. apply (Fs.wf_files _ Hw), (Fs.wf_next _ Hw) in Hp. lia.
Qed.

Lemma abandoned_atomically fs0 temporary destination data create_new fs :
  Fs.wf fs0 → abandoned fs0 temporary destination fs →
  atomically fs0 fs temporary destination data create_new.
Proof.
  intros Hw [Hk Ht Hb Hd]. split_and!; [apply Hk|intros p ??; by eapply kept_content|left].
  unfold Fs.content. rewrite Hd. destruct (Fs.files fs0 !! destination) as [i|] eqn:Hp; [|done]. cbn.
  apply (ok_inodes _ _ _ _ Hk). intros ->. apply (Fs.wf_files _ Hw), (Fs.wf_next _ Hw) in Hp. lia.
Qed.

Lemma published_atomically fs0 temporary destination data (create_new : bool) fs :
  Fs.wf fs0 → published fs0 temporary destination data fs →
  (create_new = true → Fs.files fs0 !! destination = None) →
  Fs.content fs destination = Some data ∧ atomically fs0 fs temporary destination data create_new.
Proof.
  intros Hw [Hk Ht Hb Hd] Hc. assert (Fs.content fs destination = Some data)
    by (unfold Fs.content; by rewrite Hd).
  split; [done|]. split_and!; [apply Hk|intros p ??; by eapply kept_content|right].
  split; [done|]. intros H1%Hc. unfold Fs.content. by rewrite H1.
Qed.

(** C33: The mounted backend's put is atomic.  Whatever call fails, with or
    without effect, and however much of a write gets through, a put never
    panics, changes nothing but the destination and its own temporary name, and
    leaves the destination with its old content or with all of the new one; it
    reports success only when the destination shows the new content, and with
    [create_new] it never replaces a file that was there. *)
Theorem atomic_put_atomic fault amount destination data create_new suffix dir fs :
  Fs.wf fs → PathBuf.parent destination = Some dir → destination ≠ temporary_path dir suffix →
  let temporary := temporary_path dir suffix in
  match atomic_put fault amount destination data create_new suffix fs with
  | (Ok _, fs') => atomically fs fs' temporary destination data create_new
      ∧ Fs.content fs' destination = Some data
      ∧ (create_new = true → Fs.content fs destination = None)
      ∧ (create_new = false → Fs.content fs' temporary = None)
  | (Err _, fs') => atomically fs fs' temporary destination data create_new
  | (Panic, _) => False
  end.
Proof.
  intros Hw Hdir Hne temporary. unfold atomic_put, parent, slift. rewrite Hdir. cbn [ok_or].
  unfold sbind at 1. fold temporary. unfold sbind.
  pose proof (open_temporary fault fs temporary destination Hne) as Ho.
  destruct (Fs.open_create_new fault temporary fs) as [[i|e|] fs1]; [| |done].
  2: { destruct Ho as [->|Ha]; [|by apply abandoned_atomically].
       split_and!; [done..|by left]. }
  destruct Ho as [-> Hs].
  pose proof (prepare_settled fault amount fs temporary destination data Hw Hne create_new fs1 Hs) as Hp.
  destruct (prepare_and_publish fault amount _ temporary destination data create_new fs1) as [[[]|e|] fs2];
    cbn in Hp; [..|done].
  - destruct Hp as (Hp & Hc & Ht). destruct (published_atomically _ _ _ _ create_new _ Hw Hp Hc) as [H1 H2].
    split_and!; [done|done|..].
    + intros H3%Hc. unfold Fs.content. by rewrite H3.
    + intros H3%Ht. unfold Fs.content. by rewrite H3.
  - destruct Hp as [Ha|[Hp Hc]].
    + destruct (remove_abandoned fault fs temporary destination Hne fs2 Ha) as (fs3 & -> & Ha3).
      by apply abandoned_atomically.
    + destruct (remove_published fault fs temporary destination data Hne fs2 Hp) as (fs3 & -> & Hp3).
      by apply published_atomically.
Qed.

Definition sample_root : PathBuf.t := PathBuf.of_str (str_of "/mnt").
Definition sample_destination : PathBuf.t := PathBuf.of_str (str_of "/mnt/object").

(** An object with old content; the rename is carried out and its reply lost. *)
Definition sample_fs : Fs.t :=
  Fs.mk {[sample_destination := 0%nat]} {[0%nat := [1; 2]]} {[sample_root]} 1 0.
Definition lost_rename (n : nat) : option (IoError.t * bool) :=
  if (n =? 4)%nat then Some (io_error IoError.Uncategorized (str_of "timed out"), true) else None.

Lemma sample_fs_wf : Fs.wf sample_fs.
Proof.
  split; cbn.
  - intros p i [_ <-]%lookup_singleton_Some. by rewrite lookup_singleton_eq.
  - intros i [x [<- _]%lookup_singleton_Some]. lia.
Qed.

Lemma atomic_put_atomic_witness :
  let run := atomic_put lost_rename (λ _, 0%nat) sample_destination [7; 8; 9] false (str_of "x") sample_fs in
  run.1 = Err (io_error IoError.Uncategorized (str_of "timed out"))
  ∧ Fs.content run.2 sample_destination = Some [7; 8; 9]
  ∧ match run with
    | (Ok _, fs') => atomically sample_fs fs' (temporary_path sample_root (str_of "x")) sample_destination
                       [7; 8; 9] false
        ∧ Fs.content fs' sample_destination = Some [7; 8; 9]
        ∧ (false = true → Fs.content sample_fs sample_destination = None)
        ∧ (false = false → Fs.content fs' (temporary_path sample_root (str_of "x")) = None)
    | (Err _, fs') => atomically sample_fs fs' (temporary_path sample_root (str_of "x")) sample_destination
                        [7; 8; 9] false
    | (Panic, _) => False
    end.
Proof.
  split; [vm_compute; reflexivity|]. split; [vm_compute; reflexivity|].
  apply atomic_put_atomic; [exact sample_fs_wf|reflexivity|]. apply (bool_decide_unpack _). vm_compute. exact I.
Defined.

(** ** A direct read returns the file *)

Section direct.
Context (fault : nat → option (IoError.t * bool)) (amount : nat → nat).

Definition interrupted (n : nat) : Prop :=
  ∃ e b, fault n = Some (e, b) ∧ IoError.error_kind e = IoError.Interrupted.

(** Only the number of calls changed. *)
Definition untouched (fs fs' : Fs.t) : Prop :=
  Fs.files fs' = Fs.files fs ∧ Fs.inodes fs' = Fs.inodes fs ∧ Fs.dirs fs' = Fs.dirs fs
  ∧ (Fs.calls fs ≤ Fs.calls fs')%nat.

#[export] Instance untouched_preorder : PreOrder untouched.
Proof.
  split; [by repeat split|]. intros x y z (? & ? & ? & ?) (? & ? & ? & ?). split_and!; [congruence..|lia].
Qed.

Lemma untouched_tick fs : untouched fs (Fs.tick fs).
Proof. split_and!; cbn; [done..|lia]. Qed.

(** [pread]: an error is the fault of this call, data are the next bytes. *)
Lemma pread_cases i count offset fs : 1 ≤ count →
  match Fs.pread fault amount i count offset fs with
  | (Ok chunk, fs') => fs' = Fs.tick fs
      ∧ chunk = take (length chunk) (drop (Z.to_nat offset) (Fs.body_of fs i)) ∧ blen chunk ≤ count
      ∧ (chunk = [] → drop (Z.to_nat offset) (Fs.body_of fs i) = [])
  | (Err e, fs') => fs' = Fs.tick fs ∧ ∃ b, fault (Fs.calls fs) = Some (e, b)
  | (Panic, _) => False
  end.
Proof.
  intros Hc. unfold Fs.pread, Fs.call. destruct (fault (Fs.calls fs)) as [[e []]|]; [by eauto..|].
  change (Fs.body_of (Fs.tick fs) i) with (Fs.body_of fs i).
  set (av := drop _ _). set (k := Nat.min _ _). split; [done|]. split_and!.
  - rewrite length_take. rewrite <- (take_ge av (length av)) at 1 by done.
    by rewrite take_take.
  - unfold blen. rewrite length_take. lia.
  - intros Hnil. apply (f_equal length) in Hnil. rewrite length_take in Hnil. cbn in Hnil.
    apply nil_length_inv. lia.
Qed.

Context (file : bytes) (size offset : Z) (last : nat).
Context (Hoff : 0 ≤ offset) (Hlast : ∀ m, (last ≤ m)%nat → ¬ interrupted m).

(** A prefix of the bytes asked for. *)
Definition part (body : bytes) : Prop :=
  body = take (length body) (drop (Z.to_nat offset) file) ∧ blen body ≤ size.

Lemma part_app body chunk :
  part body → blen chunk ≤ size - blen body →
  chunk = take (length chunk) (drop (Z.to_nat (offset + blen body)) file) → part (body ++ chunk).
Proof.
  intros [Hb Hl] Hc Hch. split; [|rewrite blen_app; lia].
  rewrite length_app.
  rewrite <- (take_take_drop (drop (Z.to_nat offset) file) (length body) (length chunk)).
  f_equal; [exact Hb|]. rewrite drop_drop. rewrite Hch at 1. f_equal. f_equal. unfold blen. lia.
Qed.

Lemma read_direct_loop_spec fuel i body fs :
  Fs.body_of fs i = file → part body →
  ((last - Fs.calls fs) + Z.to_nat (size - blen body) < fuel)%nat →
  match read_direct_loop fault amount fuel i size offset body fs with
  | (Ok bs, fs') => untouched fs fs' ∧ part bs
  | (Err _, fs') => untouched fs fs'
  | (Panic, _) => False
  end.
Proof.
  induction fuel as [|fuel IH] in body, fs |- *; intros Hfile Hp Hfuel; [lia|]. cbn [read_direct_loop].
  destruct (Z.ltb_spec (blen body) size) as [Hlt|Hge]; [|done].
  pose proof (pread_cases i (size - blen body) (offset + blen body) fs ltac:(lia)) as Hr.
  destruct (Fs.pread fault amount i (size - blen body) (offset + blen body) fs) as [[chunk|e|] fs1]; [| |done].
  - destruct Hr as (-> & Hch & Hlen & _). pose proof (untouched_tick fs).
    destruct (decide (chunk = [])) as [->|Hne]; [rewrite bool_decide_eq_true_2 by done; by split|].
    rewrite bool_decide_eq_false_2 by done. rewrite Hfile in Hch.
    destruct (_ && _); [done|].
    assert (1 ≤ blen chunk) by (destruct chunk; [done|rewrite blen_cons; pose proof (blen_nonneg chunk); lia]).
    specialize (IH (body ++ chunk) (Fs.tick fs) Hfile (part_app _ _ Hp Hlen Hch)).
    rewrite blen_app in IH. cbn [Fs.calls Fs.tick] in IH. specialize (IH ltac:(lia)).
    destruct (read_direct_loop _ _ _ _ _ _ _ _) as [[bs|e|] fs2]; [|by etrans|done].
    destruct IH as [? ?]. by split; [etrans|].
  - destruct Hr as (-> & b & Hf). pose proof (untouched_tick fs).
    destruct (decide (IoError.error_kind e = IoError.Interrupted)) as [Hk|Hk];
      [rewrite bool_decide_eq_true_2 by done|by rewrite bool_decide_eq_false_2 by done].
    assert (Fs.calls fs < last)%nat.
    { destruct (decide (last ≤ Fs.calls fs)%nat) as [Hle|]; [|lia]. exfalso. apply (Hlast _ Hle). by exists e, b. }
    specialize (IH body (Fs.tick fs) Hfile Hp). cbn [Fs.calls Fs.tick] in IH. specialize (IH ltac:(lia)).
    destruct (read_direct_loop _ _ _ _ _ _ _ _) as [[bs|e'|] fs2]; [|by etrans|done].
    destruct IH as [? ?]. by split; [etrans|].
Qed.

(** Without faults and with aligned transfers nothing stops the loop early. *)
Lemma read_direct_loop_complete fuel i body fs :
  (∀ m, fault m = None) → (∀ m, is_multiple_of (Z.of_nat (S (amount m))) ALIGNMENT = true) →
  is_multiple_of size ALIGNMENT = true → offset + size ≤ blen file →
  Fs.body_of fs i = file → part body → is_multiple_of (blen body) ALIGNMENT = true →
  (Z.to_nat (size - blen body) < fuel)%nat →
  ∃ bs fs', read_direct_loop fault amount fuel i size offset body fs = (Ok bs, fs') ∧ blen bs = size.
Proof.
  unfold is_multiple_of. setoid_rewrite Z.eqb_eq. intros Hno Ham Hsz Hlong.
  induction fuel as [|fuel IH] in body, fs |- *; intros Hfile Hp Hal Hfuel; [lia|]. cbn [read_direct_loop].
  destruct (Z.ltb_spec (blen body) size) as [Hlt|Hge].
  2: { exists body, fs. split; [done|]. destruct Hp. lia. }
  unfold Fs.pread, Fs.call. rewrite Hno.
  change (Fs.body_of (Fs.tick fs) i) with (Fs.body_of fs i). rewrite Hfile.
  set (av := drop _ _). set (k := Nat.min _ _). set (chunk := take k av).
  assert (Hav : size - blen body ≤ blen av) by (unfold av; rewrite blen_drop; pose proof (blen_nonneg body); lia).
  assert (Hk : Z.of_nat k = Z.min (size - blen body) (Z.of_nat (S (amount (Fs.calls fs))))) by lia.
  assert (Hck : blen chunk = Z.of_nat k) by (unfold chunk; apply blen_take; lia).
  rewrite bool_decide_eq_false_2 by (intros Hnil; rewrite Hnil, blen_nil in Hck; lia).
  assert (Hmod : blen (body ++ chunk) `mod` ALIGNMENT = 0).
  { specialize (Ham (Fs.calls fs)). rewrite blen_app, Hck, Hk. unfold ALIGNMENT in *.
    destruct (Z.min_spec (size - blen body) (Z.of_nat (S (amount (Fs.calls fs))))) as [[_ ->]|[_ ->]];
      [replace (blen body + (size - blen body)) with size by lia; done|].
    rewrite Z.add_mod, Hal, Ham by lia. done. }
  unfold is_multiple_of. rewrite Hmod, Z.eqb_refl, andb_false_r.
  apply IH; [done| |done|rewrite blen_app; lia].
  apply part_app; [done|lia|]. fold av. unfold chunk. rewrite length_take.
  rewrite <- (take_ge av (length av)) at 1 by done. by rewrite take_take.
Qed.
End direct.

(** The bytes of a file in a range. *)
Definition range (file : bytes) (offset size : Z) : bytes :=
  take (Z.to_nat size) (drop (Z.to_nat offset) file).

Lemma part_range file size offset bs : part file size offset bs → blen bs = size → bs = range file offset size.
Proof. intros [Hb _] Hs. unfold range. rewrite <- Hs. unfold blen. by rewrite Nat2Z.id. Qed.

(** A direct read returns exactly the bytes asked for.  With reads as short
    as the kernel likes, interrupted any finite number of times, a direct read
    ends without a panic and leaves the tree alone; what it returns is the
    range of the file, of the full length, and it refuses a range that is not
    aligned, that is empty or that reaches past the end of the file.  When no
    call fails and the kernel transfers whole blocks, it does succeed. *)
Theorem read_direct_exact fault amount last fuel path size offset fs :
  0 ≤ offset → 0 ≤ size → (∀ m, (last ≤ m)%nat → ¬ interrupted fault m) →
  (last + Z.to_nat size < fuel)%nat →
  match read_direct fault amount fuel path size offset fs with
  | (Ok bs, fs') => untouched fs fs' ∧ is_multiple_of size ALIGNMENT = true
      ∧ is_multiple_of offset ALIGNMENT = true ∧ 1 ≤ size
      ∧ ∃ i, Fs.files fs !! path = Some i
          ∧ bs = range (Fs.body_of fs i) offset size ∧ blen bs = size
  | (Err _, fs') => untouched fs fs'
      ∧ (∀ i, Fs.files fs !! path = Some i → offset + size ≤ blen (Fs.body_of fs i) → 1 ≤ size →
           is_multiple_of size ALIGNMENT = true → is_multiple_of offset ALIGNMENT = true →
           (∀ m, fault m = None) →
           (∀ m, is_multiple_of (Z.of_nat (S (amount m))) ALIGNMENT = true) → False)
  | (Panic, _) => False
  end.
Proof.
  intros Hoff Hsize Hlast Hfuel. unfold read_direct.
  destruct (Z.eqb_spec size 0) as [->|Hnz]; [split; [done|lia]|].
  destruct (is_multiple_of size ALIGNMENT) eqn:Hsz; [|by split].
  destruct (is_multiple_of offset ALIGNMENT) eqn:Hofz; [|by split]. cbn [orb negb].
  unfold sbind at 1, Fs.open, Fs.call. destruct (fault (Fs.calls fs)) as [[e b]|] eqn:Hf0.
  { destruct b; [destruct (Fs.files (Fs.tick fs) !! path)|]; cbn; (split; [apply untouched_tick|]);
      intros i _ _ _ _ _ Hno; by rewrite Hno in Hf0. }
  change (Fs.files (Fs.tick fs)) with (Fs.files fs).
  destruct (Fs.files fs !! path) as [i|] eqn:Hi; [|split; [apply untouched_tick|done]].
  unfold sbind at 1, aligned_buffer, Fs.call. destruct (fault (Fs.calls (Fs.tick fs))) as [[e b]|] eqn:Hf1.
  { destruct b; cbn; (split; [by etrans; apply untouched_tick|]);
      intros ? _ _ _ _ _ Hno; by rewrite Hno in Hf1. }
  set (fs2 := Fs.tick (Fs.tick fs)). assert (Hu : untouched fs fs2) by (etrans; apply untouched_tick).
  assert (Hp : part (Fs.body_of fs i) size offset []) by (split; [done|rewrite blen_nil; lia]).
  unfold sbind.
  pose proof (read_direct_loop_spec fault amount (Fs.body_of fs i) size offset last Hoff Hlast fuel i [] fs2
    eq_refl Hp ltac:(rewrite blen_nil; lia)) as Hspec.
  pose proof (λ Hno Ham Hlong, read_direct_loop_complete fault amount (Fs.body_of fs i) size offset Hoff fuel i
    [] fs2 Hno Ham Hsz Hlong eq_refl Hp eq_refl ltac:(rewrite blen_nil; lia)) as Hdone.
  destruct (read_direct_loop fault amount fuel i size offset [] fs2) as [[bs|e|] fs3]; [| |done].
  - destruct Hspec as [Hu2 Hpart]. assert (untouched fs fs3) by (by etrans).
    destruct (Z.eqb_spec (blen bs) size) as [Hbs|Hbs]; cbn.
    + split_and!; [done..|lia|]. exists i. split_and!; [done|by apply part_range|done].
    + split; [done|]. intros ? [= <-] Hlong _ _ _ Hno Ham.
      destruct (Hdone Hno Ham Hlong) as (? & ? & [= <- <-] & ?). done.
  - split; [by etrans|]. intros ? [= <-] Hlong _ _ _ Hno Ham.
    by destruct (Hdone Hno Ham Hlong) as (? & ? & ? & ?).
Qed.

(** Two blocks, read one at a time after an interruption. *)
Definition two_blocks : Fs.t :=
  Fs.mk {[sample_destination := 0%nat]} {[0%nat := replicate 4096 3 ++ replicate 4096 5]} {[sample_root]} 1 0.
Definition one_interruption (n : nat) : option (IoError.t * bool) :=
  if (n =? 2)%nat then Some (io_error IoError.Interrupted [], false) else None.

Lemma read_direct_exact_witness :
  let run := read_direct one_interruption (λ _, 4095%nat) 8200 sample_destination 8192 0 two_blocks in
  run.1 = Ok (replicate 4096 3 ++ replicate 4096 5)
  ∧ match run with
    | (Ok bs, fs') => untouched two_blocks fs' ∧ blen bs = 8192
    | _ => False
    end.
Proof.
  pose proof (read_direct_exact one_interruption (λ _, 4095%nat) 3 8200 sample_destination 8192 0 two_blocks
    ltac:(discriminate) ltac:(discriminate)) as H.
  assert (Hr : (read_direct one_interruption (λ _, 4095%nat) 8200 sample_destination 8192 0 two_blocks).1
    = Ok (replicate 4096 3 ++ replicate 4096 5)) by (vm_compute; reflexivity).
  split; [exact Hr|]. destruct (read_direct one_interruption _ 8200 sample_destination 8192 0 two_blocks) as [r fs'].
  cbn [fst] in Hr. subst r. destruct H as (Hu & _ & _ & _ & i & _ & _ & Hb).
  - intros m Hm (e & b & Hf & _). unfold one_interruption in Hf.
    destruct (Nat.eqb_spec m 2); [lia|discriminate Hf].
  - apply Nat.ltb_lt. vm_compute. reflexivity.
  - split; [exact Hu|exact Hb].
Defined.
