(* ===== verification/BenchWork.v ===== *)
(** * The work of a benchmark (bench/src/main.rs): payloads, paths, samples

    The parts of the harness that compute: which bytes are written and read,
    under which names, how an outcome becomes a sample, how samples become a
    result, and which rates the open-loop scenarios offer.

    A [Duration] is its nanoseconds. *)

From Stdlib Require Import Floats.SpecFloat.
From stdpp Require Import gmap sorting.
From S2P Require Import Prelude Float64 Errors Owner Builder Efs BenchModel BenchSuite BenchStats FileSystem BenchMount.

Definition SESSION_SLOTS : Z := 64.
Definition READ_CHUNK_BYTES : Z := 1024 * 1024.
Definition WRITE_CHUNK_BYTES : Z := 504 * 1024.
Definition RANGE_BYTES : Z := 4096.
Definition LIST_ENTRIES : Z := 100.
Definition START_DELAY : Duration := 100 * 1000000.
Definition STANDARD_OPEN_LOOP_WARMUP_MS : Z := 750.
Definition STANDARD_OPEN_LOOP_TARGET_OPERATIONS : spec_float := F64.of_Z 5000.
Definition STANDARD_OPEN_LOOP_MIN_SECONDS : spec_float := F64.of_Z 5.
Definition STANDARD_OPEN_LOOP_MAX_SECONDS : spec_float := F64.of_Z 30.
Definition QUICK_OPEN_LOOP_MAX_OUTSTANDING : Z := 32.
Definition STANDARD_OPEN_LOOP_MAX_OUTSTANDING : Z := 1024.

(** [Duration::from_millis] *)
Definition from_millis (ms : Z) : Duration := ms * 1000000.

Module BenchmarkContext.
Record t : Type := mk {
  endpoint : str;
  tls_server_name : str;
  export : str;
  mount_root : PathBuf.t;
  benchmark_relative_root : str;
  benchmark_mount_root : PathBuf.t;
  clients : list Z;  (* handles of clients of the world *)
  payloads : gmap Z bytes;
  remote_read_mode : RemoteReadMode.t;
  operation_timeout : Duration;
  keep_data : bool;
}.
End BenchmarkContext.

Module Phase.
Inductive t : Type := Warmup | Measure.
Definition label (self : t) : str :=
  match self with Warmup => str_of "warmup" | Measure => str_of "measure" end.
End Phase.

Module OperationValue.
Inductive t : Type :=
| Body (body : bytes)
| Size (size : Z)
| ReconciledSize (size : Z)
| Count (count : Z)
| Unit.
End OperationValue.

Module OperationExecution.
Record t : Type := mk {
  result : res str OperationValue.t;
  dispatch_queue : Duration;
  service : Duration;
}.
End OperationExecution.

Module SampleBatch.
Record t : Type := mk { samples : list RawSample.t; elapsed : Duration }.
End SampleBatch.

Module SampleTiming.
Record t : Type := mk {
  completion_offset : Duration;
  scheduled_offset : option Duration;
  queue : Duration;
  service : Duration;
  total : Duration;
}.
End SampleTiming.

(** ** Payloads *)

Definition PAYLOAD_SIZES : list Z := [4 * 1024; 32 * 1024; 128 * 1024; 512 * 1024; MIB; 2 * MIB].

Definition rotate_left64 (x k : Z) : Z :=
  Z.lor (wrap64 (Z.shiftl x k)) (Z.shiftr x (64 - k)).

Definition payload_byte (seed index : Z) : Z :=
  let mixed :=
    Z.lxor (rotate_left64 (wrap64 (index * 0x9e3779b97f4a7c15)) (index `mod` 63)) seed in
  Z.lxor (Z.lxor mixed (Z.shiftr mixed 17)) (Z.shiftr mixed 41) `mod` 256.

Definition payload_body (seed size : Z) : bytes := payload_byte seed <$> seqZ 0 size.

Definition build_payloads (seed : Z) (additional_sizes : list Z) : gmap Z bytes :=
  list_to_map ((λ size, (size, payload_body seed size)) <$> PAYLOAD_SIZES ++ additional_sizes).

Definition sentinel_payload (payload : bytes) : bytes := (λ byte, Z.lxor byte 0xff) <$> payload.

Definition payload (context : BenchmarkContext.t) (size : Z) : res str bytes :=
  ok_or (BenchmarkContext.payloads context !! size)
    (str_of "no payload configured for " ++ decimal size ++ str_of " bytes").

Definition range_offset (object_size : Z) : Z :=
  let midpoint := object_size / 2 in
  let aligned := midpoint / RANGE_BYTES * RANGE_BYTES in
  Z.min aligned (saturating_sub object_size RANGE_BYTES).

(** ** Paths *)

Definition scenario_mount_root (context : BenchmarkContext.t) (spec : ScenarioSpec.t) : PathBuf.t :=
  PathBuf.join (PathBuf.join (BenchmarkContext.benchmark_mount_root context) (str_of "scenarios"))
    (ScenarioSpec.id spec).

Definition scenario_relative_root (context : BenchmarkContext.t) (spec : ScenarioSpec.t) : str :=
  BenchmarkContext.benchmark_relative_root context ++ str_of "/scenarios/" ++ ScenarioSpec.id spec.

Definition shard_for (spec : ScenarioSpec.t) (worker sequence : Z) : Z :=
  wrap64 (wrap64 (worker * 17) + sequence) `mod` Z.max (ScenarioSpec.directory_shards spec) 1.

(** The remainder by [read_files_per_worker] panics when that is zero. *)
Definition operation_relative_path (context : BenchmarkContext.t) (spec : ScenarioSpec.t) (phase : Phase.t)
    (worker sequence : Z) : res str str :=
  let root := scenario_relative_root context spec in
  let slot_file (directory : str) :=
    if ScenarioSpec.read_files_per_worker spec =? 0 then Panic
    else
      let slot := sequence `mod` ScenarioSpec.read_files_per_worker spec in
      let shard := shard_for spec worker slot in
      Ok (root ++ str_of "/" ++ directory ++ str_of "/s" ++ padded 2 shard ++ str_of "/w" ++ decimal worker
          ++ str_of "-slot" ++ decimal slot ++ str_of ".bin") in
  match ScenarioSpec.operation spec with
  | Operation.Get | Operation.GetKnownSize | Operation.GetRange4k => slot_file (str_of "data")
  | Operation.PutCreateNew | Operation.Delete =>
      let shard := shard_for spec worker sequence in
      Ok (root ++ str_of "/" ++ Phase.label phase ++ str_of "/s" ++ padded 2 shard ++ str_of "/w"
          ++ decimal worker ++ str_of "-n" ++ decimal sequence ++ str_of ".bin")
  | Operation.PutOverwrite => slot_file (Phase.label phase)
  | Operation.EntryInfo => Ok (root ++ str_of "/data/s00/metadata.bin")
  | Operation.List100 => Ok (root ++ str_of "/list")
  end.

Definition operation_mount_path (context : BenchmarkContext.t) (spec : ScenarioSpec.t) (phase : Phase.t)
    (worker sequence : Z) : res str PathBuf.t :=
  let? relative := operation_relative_path context spec phase worker sequence in
  Ok (PathBuf.join (BenchmarkContext.mount_root context) relative).

Definition ascii_alphanumeric (c : Z) : bool :=
  in_range 48 57 c || in_range 65 90 c || in_range 97 122 c.

Definition safe_component (value : str) : res str str :=
  if bool_decide (value = []) || (80 <? blen value)
     || negb (forallb (λ c, ascii_alphanumeric c || (c =? 45) || (c =? 95)) value)
  then Err (str_of "run id must contain 1-80 ASCII letters, digits, hyphens, or underscores")
  else Ok value.

(** ** Outcomes *)

Definition validate_length (actual expected : bytes) : res str unit :=
  if negb (blen actual =? blen expected) then
    Err (str_of "body length " ++ decimal (blen actual) ++ str_of " did not match " ++ decimal (blen expected))
  else Ok tt.

(** [actual[i] != expected[i]], which panics out of range. *)
Fixpoint check_indices (actual expected : bytes) (indices : list Z) : res str unit :=
  match indices with
  | [] => Ok tt
  | i :: indices =>
      match actual !! Z.to_nat i, expected !! Z.to_nat i with
      | Some a, Some e =>
          if negb (a =? e) then Err (str_of "body mismatch at byte " ++ decimal i)
          else check_indices actual expected indices
      | _, _ => Panic
      end
  end.

Definition validate_sampled_body (actual expected : bytes) : res str unit :=
  let? _ := validate_length actual expected in
  if bool_decide (actual = []) then Ok tt
  else
    let last := blen actual - 1 in
    check_indices actual expected [0; last / 7; last / 3; last / 2; last * 2 / 3; last].

(** The position of the first difference; zero when there is none. *)
Fixpoint first_mismatch (i : Z) (actual expected : bytes) : Z :=
  match actual, expected with
  | a :: actual, e :: expected => if a =? e then first_mismatch (i + 1) actual expected else i
  | _, _ => 0
  end.

Definition validate_full_body (actual expected : bytes) : res str unit :=
  let? _ := validate_length actual expected in
  if bool_decide (actual = expected) then Ok tt
  else Err (str_of "body mismatch at byte " ++ decimal (first_mismatch 0 actual expected)).

(** [&payload[offset..offset + n]] *)
Definition slice_bytes (payload : bytes) (offset len : Z) : res str bytes :=
  if offset + len <=? blen payload then Ok (take (Z.to_nat len) (drop (Z.to_nat offset) payload)) else Panic.

Definition validate_value (context : BenchmarkContext.t) (spec : ScenarioSpec.t) (value : OperationValue.t)
  : res str unit :=
  let size_expected := ScenarioSpec.object_size_bytes spec in
  let mismatch :=
    match value with
    | OperationValue.Size size =>
        Err (str_of "observed size " ++ decimal size ++ str_of ", expected " ++ decimal size_expected)
    | OperationValue.ReconciledSize size =>
        Err (str_of "observed reconciled size " ++ decimal size ++ str_of ", expected " ++ decimal size_expected)
    | OperationValue.Count count =>
        Err (str_of "observed " ++ decimal count ++ str_of " entries, expected " ++ decimal LIST_ENTRIES)
    | _ => Err (str_of "operation returned an unexpected value shape")
    end in
  match ScenarioSpec.operation spec, value with
  | Operation.GetRange4k, OperationValue.Body body =>
      let? payload := payload context size_expected in
      let? expected := slice_bytes payload (range_offset size_expected) RANGE_BYTES in
      validate_sampled_body body expected
  | (Operation.Get | Operation.GetKnownSize), OperationValue.Body body =>
      let? payload := payload context size_expected in
      validate_sampled_body body payload
  | (Operation.PutCreateNew | Operation.PutOverwrite | Operation.EntryInfo), OperationValue.Size size =>
      if size =? size_expected then Ok tt else mismatch
  | Operation.PutCreateNew, OperationValue.ReconciledSize size =>
      if size =? size_expected then Ok tt else mismatch
  | Operation.Delete, OperationValue.Unit => Ok tt
  | Operation.List100, OperationValue.Count count => if count =? LIST_ENTRIES then Ok tt else mismatch
  | _, _ => mismatch
  end.

(** [.chars().take(n)]: up to the start of the next character. *)
Fixpoint take_chars (n : nat) (s : str) : str :=
  match s with
  | [] => []
  | c :: s =>
      if utf8_cont c then c :: take_chars n s
      else match n with O => [] | S n => c :: take_chars n s end
  end.

Definition sanitize_error (error : str) : str :=
  take_chars 512 ((λ c, if (c =? 10) || (c =? 13) then 32 else c) <$> error).

Definition nanos (duration : Duration) : Z := Z.min duration u64_max.

Definition sample_from_result (context : BenchmarkContext.t) (spec : ScenarioSpec.t) (worker sequence : Z)
    (timing : SampleTiming.t) (operation_result : res str OperationValue.t) : res str RawSample.t :=
  let reconciled_candidate :=
    match operation_result with Ok (OperationValue.ReconciledSize _) => true | _ => false end in
  let validated := let? value := operation_result in validate_value context spec value in
  match
    match validated with
    | Ok _ => Some (SampleStatus.ok, None)
    | Err error => Some (SampleStatus.error, Some (sanitize_error error))
    | Panic => None
    end
  with
  | None => Panic
  | Some (status, error) =>
      Ok (RawSample.mk (ScenarioSpec.id spec) worker sequence
            (nanos (SampleTiming.completion_offset timing))
            (nanos <$> SampleTiming.scheduled_offset timing) (nanos (SampleTiming.queue timing))
            (nanos (SampleTiming.service timing)) (nanos (SampleTiming.total timing)) status
            (reconciled_candidate && bool_decide (status = SampleStatus.ok)) error)
  end.

(** ** Summaries *)

(** [Duration::as_secs_f64] *)
Definition as_secs_f64 (d : Duration) : spec_float :=
  F64.add (F64.of_Z (d / 1000000000)) (F64.div (F64.of_Z (d `mod` 1000000000)) (F64.of_Z 1000000000)).

(** [f64::EPSILON], which is 2^-52. *)
Definition EPSILON : spec_float := F64.lit 1 (2 ^ 52).

Definition with_status (status : SampleStatus.t) (samples : list RawSample.t) : list RawSample.t :=
  filter (λ sample, RawSample.status sample = status) samples.

Definition str_le (a b : str) : Prop := str_leb a b = true.
#[export] Instance str_le_dec a b : Decision (str_le a b).
Proof. unfold str_le. apply _. Defined.

(** [BTreeSet<String>], in its order. *)
Definition btree_set (l : list str) : list str := merge_sort str_le (remove_dups l).

Definition elapsed_for_samples (samples : list RawSample.t) (minimum : Duration) : Duration :=
  let latest := fold_left Z.max (RawSample.completion_offset_ns <$> samples) 0 in
  Z.max latest minimum.

Definition summarize_scenario (order : Z) (spec : ScenarioSpec.t) (started_at_unix_ms : Z)
    (batch : SampleBatch.t) (resource_delta : ResourceDelta.t) (cross_backend_validation : str)
  : res str ScenarioResult.t :=
  let samples := SampleBatch.samples batch in
  let successful := with_status SampleStatus.ok samples in
  let successes := blen successful in
  let errors := blen (with_status SampleStatus.error samples) in
  let overload_drops := blen (with_status SampleStatus.dropped samples) in
  let reconciled_outcomes :=
    blen (filter (λ sample, RawSample.reconciled_outcome_unknown sample = true) successful) in
  let elapsed_seconds := F64.max (as_secs_f64 (SampleBatch.elapsed batch)) EPSILON in
  let achieved_ops_per_sec := F64.div (F64.of_Z successes) elapsed_seconds in
  let achieved_mib_per_sec :=
    F64.div (F64.mul achieved_ops_per_sec (F64.of_Z (ScenarioSpec.transferred_bytes_per_success spec)))
      (F64.mul (F64.of_Z 1024) (F64.of_Z 1024)) in
  let distinct_errors := btree_set (omap RawSample.error samples) in
  let? service_latency := distribution (RawSample.service_ns <$> successful) in
  let? queue_latency := distribution (RawSample.queue_ns <$> successful) in
  let? total_response_latency := distribution (RawSample.total_response_ns <$> successful) in
  Ok (ScenarioResult.mk order spec started_at_unix_ms elapsed_seconds successes errors errors overload_drops
        reconciled_outcomes achieved_ops_per_sec achieved_mib_per_sec service_latency queue_latency
        total_response_latency (P99_MINIMUM_SAMPLES <=? successes) (P999_MINIMUM_SAMPLES <=? successes)
        resource_delta distinct_errors cross_backend_validation).

Definition batch_issue (batch : SampleBatch.t) (phase : str) : option str :=
  let samples := SampleBatch.samples batch in
  let successes := blen (with_status SampleStatus.ok samples) in
  let errors := blen (with_status SampleStatus.error samples) in
  let drops := blen (with_status SampleStatus.dropped samples) in
  let distinct_errors := btree_set (omap RawSample.error samples) in
  if (successes =? 0) || negb (errors =? 0) || negb (drops =? 0) then
    Some (phase ++ str_of " was invalid: " ++ decimal successes ++ str_of " successes, " ++ decimal errors
          ++ str_of " errors, " ++ decimal drops ++ str_of " overload drops"
          ++ (if bool_decide (distinct_errors = []) then []
              else str_of "; distinct errors: " ++ join_with (str_of " | ") distinct_errors))
  else None.

(** ** Scenarios derived from arguments and results *)

(** [BTreeMap<u64, u32>] of the repetitions seen so far. *)
Fixpoint diagnostic_specs_loop (repetitions : gmap Z Z) (sizes : list Z) : list ScenarioSpec.t :=
  match sizes with
  | [] => []
  | size :: sizes =>
      let repetition := default 0 (repetitions !! size) + 1 in
      ((λ operation,
          ScenarioSpec.closed_loop (str_of "diagnostic-write-size") Backend.NfsCrust operation size 1 1
            DEFAULT_READ_GRANULARITY DEFAULT_SHARDS repetition 0 3000)
        <$> [Operation.PutCreateNew; Operation.PutOverwrite])
      ++ diagnostic_specs_loop (<[size := repetition]> repetitions) sizes
  end.

Definition diagnostic_write_specs (sizes : list Z) : list ScenarioSpec.t := diagnostic_specs_loop ∅ sizes.

Definition open_loop_duration_ms (rate : spec_float) (quick : bool) : Z :=
  let duration_seconds :=
    if quick then F64.of_Z 1
    else F64.clamp (F64.div STANDARD_OPEN_LOOP_TARGET_OPERATIONS rate) STANDARD_OPEN_LOOP_MIN_SECONDS
           STANDARD_OPEN_LOOP_MAX_SECONDS in
  F64.as_u64 (F64.ceil (F64.mul duration_seconds (F64.of_Z 1000))).

Definition open_loop_max_outstanding (quick : bool) : Z :=
  if quick then QUICK_OPEN_LOOP_MAX_OUTSTANDING else STANDARD_OPEN_LOOP_MAX_OUTSTANDING.

Definition repeated_rate_floor (values : list spec_float) : option spec_float :=
  match values with
  | [] => None
  | v :: values => Some (fold_left F64.min values v)
  end.

Definition calibrates (operation : Operation.t) (backend : Backend.t) (result : ScenarioResult.t) : bool :=
  let spec := ScenarioResult.spec result in
  str_eqb (ScenarioSpec.family spec) (str_of "concurrency-scaling")
  && (ScenarioSpec.object_size_bytes spec =? 128 * 1024)
  && bool_decide (ScenarioSpec.operation spec = operation)
  && bool_decide (ScenarioSpec.backend spec = backend)
  && (ScenarioResult.errors result =? 0).

(** [by_concurrency]: the rates by concurrency, in the order of the keys. *)
Definition rates_at (results : list ScenarioResult.t) (concurrency : Z) : list spec_float :=
  ScenarioResult.achieved_ops_per_sec
    <$> filter (λ r, ScenarioSpec.concurrency (ScenarioResult.spec r) = concurrency) results.

Definition by_concurrency (results : list ScenarioResult.t) : list (list spec_float) :=
  rates_at results
    <$> merge_sort Z.le (remove_dups ((λ r, ScenarioSpec.concurrency (ScenarioResult.spec r)) <$> results)).

Definition measured_peak (results : list ScenarioResult.t) (operation : Operation.t) (backend : Backend.t)
  : res str spec_float :=
  let usable := filter (λ r, calibrates operation backend r = true) results in
  let peak := fold_left F64.max (omap repeated_rate_floor (by_concurrency usable)) F64.zero in
  if F64.leb peak F64.zero then
    Err (str_of "could not derive open-loop rate for " ++ Backend.label backend ++ str_of " "
         ++ Operation.label operation)
  else Ok peak.

Section derive.
Context (quick : bool) (requested_repetitions : Z) (operation : Operation.t)
  (nfs_peak linux_peak fraction : spec_float).

Definition equal_demand_rate : spec_float :=
  F64.max (F64.mul (F64.min nfs_peak linux_peak) fraction) (F64.of_Z 1).
Definition nfs_relative_rate : spec_float := F64.max (F64.mul nfs_peak fraction) (F64.of_Z 1).
Definition linux_relative_rate : spec_float := F64.max (F64.mul linux_peak fraction) (F64.of_Z 1).

Definition rate_basis : OpenLoopRateBasis.t :=
  OpenLoopRateBasis.mk operation (128 * 1024) nfs_peak linux_peak fraction equal_demand_rate
    nfs_relative_rate linux_relative_rate.

(** [{}pct] of the fraction. *)
Definition percent : str := decimal (F64.as_u32 (F64.mul fraction (F64.of_Z 100))) ++ str_of "pct".

Definition open_spec (prefix : str) (backend : Backend.t) (repetition : Z) (rate : spec_float)
    (basis : OpenLoopLoadBasis.t) : ScenarioSpec.t :=
  ScenarioSpec.open_loop (prefix ++ percent) backend operation (128 * 1024) 1 DEFAULT_READ_GRANULARITY
    DEFAULT_SHARDS repetition (if quick then 200 else STANDARD_OPEN_LOOP_WARMUP_MS)
    (open_loop_duration_ms rate quick) rate (open_loop_max_outstanding quick) basis.

Definition fraction_specs : list ScenarioSpec.t :=
  for_in (seqZ 1 (if quick then 1 else requested_repetitions)) (λ repetition,
  for_in (if is_multiple_of repetition 2 then [Backend.LinuxRemote; Backend.NfsCrust]
          else [Backend.NfsCrust; Backend.LinuxRemote]) (λ backend,
    [open_spec (str_of "open-loop-equal-demand-") backend repetition equal_demand_rate
       OpenLoopLoadBasis.EqualDemand;
     open_spec (str_of "open-loop-equal-utilization-") backend repetition
       (match backend with Backend.NfsCrust => nfs_relative_rate | _ => linux_relative_rate end)
       OpenLoopLoadBasis.EqualUtilization])).
End derive.

Definition LOAD_FRACTIONS : list spec_float := [F64.lit 60 100; F64.lit 85 100].

Fixpoint derive_loop (quick : bool) (requested_repetitions : Z) (results : list ScenarioResult.t)
    (operations : list Operation.t) : res str (list OpenLoopRateBasis.t * list ScenarioSpec.t) :=
  match operations with
  | [] => Ok ([], [])
  | operation :: operations =>
      let? nfs_peak := measured_peak results operation Backend.NfsCrust in
      let? linux_peak := measured_peak results operation Backend.LinuxRemote in
      let? (bases, specs) := derive_loop quick requested_repetitions results operations in
      Ok ((rate_basis operation nfs_peak linux_peak <$> LOAD_FRACTIONS) ++ bases,
          for_in LOAD_FRACTIONS (fraction_specs quick requested_repetitions operation nfs_peak linux_peak)
          ++ specs)
  end.

Definition derive_open_loop_specs (results : list ScenarioResult.t) (quick : bool) (requested_repetitions : Z)
  : res str (list OpenLoopRateBasis.t * list ScenarioSpec.t) :=
  derive_loop quick requested_repetitions results [Operation.GetKnownSize; Operation.PutCreateNew].

Example open_loop_durations :
  open_loop_duration_ms (F64.of_Z 10000) false = 5000 ∧ open_loop_duration_ms (F64.of_Z 500) false = 10000
  ∧ open_loop_duration_ms (F64.of_Z 1) false = 30000 ∧ open_loop_duration_ms (F64.of_Z 1) true = 1000.
Proof. vm_compute. auto. Qed.

Example percents : percent <$> LOAD_FRACTIONS = [str_of "60pct"; str_of "85pct"].
Proof. vm_compute. reflexivity. Qed.
