(* ===== verification/BenchWorkFacts.v ===== *)
(** * The work of a benchmark is well defined

    The files an operation touches are the ones that were prepared for it, no
    two operations that create or delete share one, offsets are in range and
    aligned, and a result accounts for every sample. *)

From Stdlib Require Import Floats.SpecFloat.
From stdpp Require Import gmap sorting.
From S2P Require Import Prelude Float64 Errors Owner Builder Efs BenchModel BenchSuite BenchStats FileSystem BenchMount BenchWork.

(** ** Paths *)

Lemma padded_digits width n : digits (padded width n).
Proof.
  unfold padded, digits. apply Forall_app. split; [by apply Forall_replicate|apply decimal_digits].
Qed.

(** A path whose last part is [w<worker><mark><number>.bin] in a shard. *)
Definition shard_path (root directory : str) (shard worker : Z) (mark : str) (number : Z) : str :=
  root ++ str_of "/" ++ directory ++ str_of "/s" ++ padded 2 shard ++ str_of "/w" ++ decimal worker ++ mark
  ++ decimal number ++ str_of ".bin".

Lemma shard_path_inj root dir s1 s2 w1 w2 mark n1 n2 :
  breaks mark → mark ≠ [] → 0 ≤ w1 → 0 ≤ w2 → 0 ≤ n1 → 0 ≤ n2 →
  shard_path root dir s1 w1 mark n1 = shard_path root dir s2 w2 mark n2 → w1 = w2 ∧ n1 = n2.
Proof.
  intros Hm Hne Hw1 Hw2 Hn1 Hn2 H. unfold shard_path in H. do 4 apply app_inv_head in H.
  apply digits_app_inv in H as [_ H]; [|apply padded_digits..|done|done]. apply app_inv_head in H.
  assert (Hb : ∀ s : str, breaks (mark ++ s)) by (intros s; by destruct mark).
  apply digits_app_inv in H as [Hw H]; [|apply decimal_digits..|apply Hb|apply Hb].
  apply app_inv_head in H. apply digits_app_inv in H as [Hn _]; [|apply decimal_digits..|done|done].
  split; by apply decimal_inj.
Qed.

(** The phases have directories of their own. *)
Lemma shard_path_phase root p1 p2 s1 s2 w1 w2 mark n1 n2 :
  shard_path root (Phase.label p1) s1 w1 mark n1 = shard_path root (Phase.label p2) s2 w2 mark n2 → p1 = p2.
Proof.
  unfold shard_path. intros H. do 2 apply app_inv_head in H. by destruct p1, p2; try discriminate H.
Qed.

Definition creates_or_deletes (op : Operation.t) : bool :=
  match op with Operation.PutCreateNew | Operation.Delete => true | _ => false end.

Definition uses_slots (op : Operation.t) : bool :=
  match op with
  | Operation.Get | Operation.GetKnownSize | Operation.GetRange4k | Operation.PutOverwrite => true
  | _ => false
  end.

(** Operations do not collide.  In a scenario that creates or deletes
    files, two operations of any workers and phases that are not the same
    operation have different paths; in a scenario that reads or overwrites, the
    file of every operation is one of those that were prepared for its worker
    (the operation's number modulo the number of files), and workers do not
    share files. *)
Theorem operation_paths_sound context spec :
  let path := operation_relative_path context spec in
  let files := ScenarioSpec.read_files_per_worker spec in
  1 ≤ files →
  (∀ phase worker sequence, ∃ p, path phase worker sequence = Ok p)
  ∧ (creates_or_deletes (ScenarioSpec.operation spec) = true →
     ∀ ph1 ph2 w1 w2 q1 q2, 0 ≤ w1 → 0 ≤ w2 → 0 ≤ q1 → 0 ≤ q2 →
       path ph1 w1 q1 = path ph2 w2 q2 → ph1 = ph2 ∧ w1 = w2 ∧ q1 = q2)
  ∧ (uses_slots (ScenarioSpec.operation spec) = true →
     ∀ phase w1 w2 q1 q2, 0 ≤ w1 → 0 ≤ w2 → 0 ≤ q1 → 0 ≤ q2 →
       (path phase w1 q1 = path phase w1 (q1 `mod` files) ∧ 0 ≤ q1 `mod` files < files)
       ∧ (path phase w1 q1 = path phase w2 q2 → w1 = w2 ∧ q1 `mod` files = q2 `mod` files)).
Proof.
  intros path files Hf. unfold path, operation_relative_path. fold files.
  destruct (Z.eqb_spec files 0) as [|_]; [lia|]. split_and!.
  - intros phase worker sequence. destruct (ScenarioSpec.operation spec); eauto.
  - intros Hop ph1 ph2 w1 w2 q1 q2 Hw1 Hw2 Hq1 Hq2 H.
    assert (shard_path (scenario_relative_root context spec) (Phase.label ph1) (shard_for spec w1 q1) w1 (str_of "-n") q1
      = shard_path (scenario_relative_root context spec) (Phase.label ph2) (shard_for spec w2 q2) w2 (str_of "-n") q2) as Hp
      by (destruct (ScenarioSpec.operation spec); try discriminate Hop; by injection H).
    pose proof (shard_path_phase _ _ _ _ _ _ _ _ _ _ Hp) as ->. split; [done|].
    by apply shard_path_inj in Hp.
  - intros Hop phase w1 w2 q1 q2 Hw1 Hw2 Hq1 Hq2.
    pose proof (Z.mod_pos_bound q1 files ltac:(lia)). pose proof (Z.mod_pos_bound q2 files ltac:(lia)).
    rewrite (Z.mod_mod q1 files) by lia. split.
    + by destruct (ScenarioSpec.operation spec).
    + intros H1. set (m1 := q1 `mod` files) in *. set (m2 := q2 `mod` files) in *.
      assert (∃ dir, shard_path (scenario_relative_root context spec) dir (shard_for spec w1 m1) w1 (str_of "-slot") m1
        = shard_path (scenario_relative_root context spec) dir (shard_for spec w2 m2) w2 (str_of "-slot") m2) as [dir Hp]
        by (destruct (ScenarioSpec.operation spec); try discriminate Hop; injection H1 as H1;
            (exists (str_of "data"); exact H1) || (exists (Phase.label phase); exact H1)).
      apply shard_path_inj in Hp; try done; lia.
Qed.

(** ** Ranges *)

(** The range that is read lies in the object and is aligned as O_DIRECT
    demands. *)
Lemma range_offset_ok size : RANGE_BYTES ≤ size → size `mod` RANGE_BYTES = 0 →
  0 ≤ range_offset size ∧ range_offset size + RANGE_BYTES ≤ size ∧ range_offset size `mod` RANGE_BYTES = 0.
Proof.
  unfold range_offset, RANGE_BYTES. intros Hs Hm.
  assert (saturating_sub size 4096 = size - 4096) as -> by ulia.
  split_and!; [|lia|].
  - apply Z.min_glb; [|lia]. apply Z.mul_nonneg_nonneg; [|lia]. apply Z.div_pos; [apply Z.div_pos|]; lia.
  - destruct (Z.min_spec (size / 2 / 4096 * 4096) (size - 4096)) as [[_ ->]|[_ ->]]; [by apply Z.mod_mul|].
    rewrite Zminus_mod, Hm. done.
Qed.

(** ** Validation *)

Lemma validate_length_cases a e :
  validate_length a e = Ok tt ∧ blen a = blen e ∨ ∃ m, validate_length a e = Err m ∧ blen a ≠ blen e.
Proof. unfold validate_length. destruct (Z.eqb_spec (blen a) (blen e)); cbn; eauto. Qed.

(** The full check accepts exactly the expected bytes. *)
Lemma validate_full_body_spec a e : validate_full_body a e = Ok tt ↔ a = e.
Proof.
  unfold validate_full_body. destruct (validate_length_cases a e) as [[-> Hl]|(m & -> & Hl)]; cbn.
  - destruct (decide (a = e)); [by rewrite bool_decide_eq_true_2|by rewrite bool_decide_eq_false_2].
  - split; [done|]. by intros ->.
Qed.

Lemma check_indices_total a e js :
  blen a = blen e → Forall (λ i, 0 ≤ i < blen a) js →
  check_indices a e js ≠ Panic
  ∧ (check_indices a e js = Ok tt ↔ Forall (λ i, a !! Z.to_nat i = e !! Z.to_nat i) js).
Proof.
  intros Hl Hi. induction Hi as [|i js Hi _ [IH1 IH2]]; cbn [check_indices].
  - split; [done|]. split; [intros _; apply Forall_nil_2|done].
  - destruct (lookup_lt_is_Some_2 a (Z.to_nat i)) as [x Hx]; [unfold blen in *; lia|].
    destruct (lookup_lt_is_Some_2 e (Z.to_nat i)) as [y Hy]; [unfold blen in *; lia|].
    rewrite Hx, Hy, Forall_cons. destruct (Z.eqb_spec x y) as [->|Hne]; cbn [negb].
    + split; [done|]. rewrite IH2, Hx, Hy. naive_solver.
    + split; [done|]. split; [done|]. intros [H _]. rewrite Hx, Hy in H. congruence.
Qed.

(** The sampled check never panics, accepts the expected bytes, and accepts
    nothing that differs in length or at a sampled byte. *)
Lemma validate_sampled_body_spec a e :
  validate_sampled_body a e ≠ Panic
  ∧ (validate_sampled_body a e = Ok tt ↔
     blen a = blen e ∧
     let last := blen a - 1 in
     (a = [] ∨ Forall (λ i, a !! Z.to_nat i = e !! Z.to_nat i)
                 [0; last / 7; last / 3; last / 2; last * 2 / 3; last])).
Proof.
  unfold validate_sampled_body. destruct (validate_length_cases a e) as [[-> Hl]|(m & -> & Hl)]; cbn [rbind].
  2: { split; [done|]. split; [done|]. by intros [? _]. }
  destruct (decide (a = [])) as [->|Hne]; [rewrite bool_decide_eq_true_2 by done; naive_solver|].
  rewrite bool_decide_eq_false_2 by done.
  assert (1 ≤ blen a) by (destruct a; [done|rewrite blen_cons; pose proof (blen_nonneg a); lia]).
  destruct (check_indices_total a e [0; (blen a - 1) / 7; (blen a - 1) / 3; (blen a - 1) / 2;
    (blen a - 1) * 2 / 3; blen a - 1]) as [H1 H2]; [done| |split; [done|]; rewrite H2; naive_solver].
  assert (∀ k, 1 ≤ k → 0 ≤ (blen a - 1) / k < blen a).
  { intros k Hk. split; [apply Z.div_pos; lia|]. apply Z.div_lt_upper_bound; nia. }
  assert (0 ≤ (blen a - 1) * 2 / 3 < blen a) by (split; [apply Z.div_pos; lia|]; apply Z.div_lt_upper_bound; lia).
  repeat (apply Forall_cons_2; [lia || auto with lia|]); apply Forall_nil_2.
Qed.

(** ** Accounting *)

Lemma status_partition samples :
  blen (with_status SampleStatus.ok samples) + blen (with_status SampleStatus.error samples)
  + blen (with_status SampleStatus.dropped samples) = blen samples.
Proof.
  unfold with_status. induction samples as [|s l IH]; [done|]. rewrite !filter_cons.
  destruct (RawSample.status s) eqn:Hs; repeat case_decide; try congruence; rewrite ?blen_cons; lia.
Qed.

Lemma latencies_total {E} (f : RawSample.t → Z) samples : blen samples ≤ 2 ^ 40 →
  ∃ d, distribution (E:=E) (f <$> samples) = Ok d ∧ Distribution.count d = blen samples.
Proof.
  intros Hn. assert (Hlen : blen (f <$> samples) = blen samples) by (unfold blen; by rewrite length_fmap).
  destruct samples as [|x l]; [by eexists|].
  destruct (order_statistics (E:=E) (f <$> x :: l)) as (lo & p50 & p90 & p95 & p99 & p999 & hi & mean & dev & -> & _).
  - rewrite Hlen, blen_cons in *. pose proof (blen_nonneg l). lia.
  - eexists. split; [done|]. exact Hlen.
Qed.

Lemma filter_full {A} (P : A → Prop) `{∀ x, Decision (P x)} l : Forall P l ↔ blen (filter P l) = blen l.
Proof.
  split; [intros H1; by rewrite filter_all|]. unfold blen. induction l as [|x l IH]; [by constructor|].
  rewrite filter_cons. pose proof (length_filter P l). case_decide; cbn; intros Hl; [|lia].
  constructor; [done|]. apply IH. lia.
Qed.

Lemma filter_blen {A} (P : A → Prop) `{∀ x, Decision (P x)} l : blen (filter P l) ≤ blen l.
Proof. unfold blen. pose proof (length_filter P l). lia. Qed.

(** A phase is reported unless all of it succeeded. *)
Lemma batch_issue_None batch phase :
  batch_issue batch phase = None ↔
  SampleBatch.samples batch ≠ []
  ∧ Forall (λ s, RawSample.status s = SampleStatus.ok) (SampleBatch.samples batch).
Proof.
  set (samples := SampleBatch.samples batch). pose proof (status_partition samples) as Hpart.
  unfold batch_issue. fold samples. unfold with_status in *.
  set (a := blen (filter (λ s, RawSample.status s = SampleStatus.ok) samples)) in *.
  set (b := blen (filter (λ s, RawSample.status s = SampleStatus.error) samples)) in *.
  set (c := blen (filter (λ s, RawSample.status s = SampleStatus.dropped) samples)) in *.
  assert (0 ≤ b ∧ 0 ≤ c) as [Hb Hc] by (split; apply blen_nonneg).
  assert (Hall : Forall (λ s, RawSample.status s = SampleStatus.ok) samples ↔ a = blen samples).
  { apply filter_full. }
  assert (samples ≠ [] ↔ blen samples ≠ 0) as ->.
  { split; [intros H H'; by apply H, blen_0_nil|intros H ->; by apply H]. }
  rewrite Hall. destruct (Z.eqb_spec a 0), (Z.eqb_spec b 0), (Z.eqb_spec c 0); cbn;
    (split; intros; try done; lia).
Qed.

(** A result accounts for every sample: it is computed without a panic, the
    successes, errors and drops add up to the samples, and the latencies are
    those of the successes. *)
Theorem summary_accounts order spec started batch delta validation :
  blen (SampleBatch.samples batch) ≤ 2 ^ 40 →
  ∃ r, summarize_scenario order spec started batch delta validation = Ok r
     ∧ ScenarioResult.successes r + ScenarioResult.measurement_errors r + ScenarioResult.overload_drops r
       = blen (SampleBatch.samples batch)
     ∧ ScenarioResult.errors r = ScenarioResult.measurement_errors r
     ∧ 0 ≤ ScenarioResult.reconciled_outcomes r ≤ ScenarioResult.successes r
     ∧ Distribution.count (ScenarioResult.service_latency r) = ScenarioResult.successes r
     ∧ Distribution.count (ScenarioResult.total_response_latency r) = ScenarioResult.successes r.
Proof.
  intros Hn. set (samples := SampleBatch.samples batch) in *.
  pose proof (status_partition samples) as Hpart.
  pose proof (filter_blen (λ s, RawSample.status s = SampleStatus.ok) samples) as Hok.
  unfold summarize_scenario. fold samples. unfold with_status in *.
  set (succ := filter (λ s, RawSample.status s = SampleStatus.ok) samples) in *.
  destruct (latencies_total (E:=str) RawSample.service_ns succ) as (d1 & -> & H1); [lia|].
  destruct (latencies_total (E:=str) RawSample.queue_ns succ) as (d2 & -> & _); [lia|].
  destruct (latencies_total (E:=str) RawSample.total_response_ns succ) as (d3 & -> & H3); [lia|].
  cbn [rbind]. eexists. split; [done|]. cbn. split_and!; [done|done|apply blen_nonneg|apply filter_blen|done|done].
Qed.

(** What the counts of a result say of its samples. *)
Lemma summarize_counts order spec started batch delta validation r :
  summarize_scenario order spec started batch delta validation = Ok r →
  ScenarioResult.errors r = ScenarioResult.measurement_errors r
  ∧ ScenarioResult.successes r = blen (with_status SampleStatus.ok (SampleBatch.samples batch))
  ∧ ScenarioResult.measurement_errors r = blen (with_status SampleStatus.error (SampleBatch.samples batch))
  ∧ ScenarioResult.overload_drops r = blen (with_status SampleStatus.dropped (SampleBatch.samples batch))
  ∧ ScenarioResult.cross_backend_validation r = validation.
Proof.
  unfold summarize_scenario.
  destruct (distribution (RawSample.service_ns <$> _)) as [d1|e|]; [|done..].
  destruct (distribution (RawSample.queue_ns <$> _)) as [d2|e|]; [|done..].
  destruct (distribution (RawSample.total_response_ns <$> _)) as [d3|e|]; [|done..].
  cbn [rbind]. intros [= <-]. by split_and!.
Qed.
