(* ===== verification/BenchExec.v ===== *)
(** * Running the benchmark (bench/src/main.rs)

    One operation on either backend, the loops of workers, the preparation and
    validation of a scenario, and the run.

    [World] is what the harness acts on: the clients of the library (by their
    handles) with the server behind them, the mounted tree, the clock and the
    files it writes its artifacts to.  Workers run concurrently: which of them
    takes the next step is the argument [order], and an operation is one step.
    [display] is the text of a client error; texts of I/O errors come with
    them. *)

From Stdlib Require Import Floats.SpecFloat.
From stdpp Require Import gmap.
From S2P Require Import Prelude Float64 Errors Path Ops Rpc Owner Session Reads Writes Put Directory Efs Tls Builder BenchModel BenchSuite BenchStats FileSystem BenchMount BenchWork.

(** The files the harness appends to as it goes. *)
Module Artifact.
Inductive t : Type := RawSamples | WarmupSamples | Events.
#[global] Instance eq_dec : EqDecision t.
Proof. solve_decision. Defined.
End Artifact.

(** The events of a run with their fields; the fields of a completed scenario
    are read off its result. *)
Module Event.
Inductive t : Type :=
| RunStarted (run_id endpoint tls_server_name mount_remote_read_mode direct_io_probe : str)
| ScenarioStarted (order : Z) (spec : ScenarioSpec.t)
| ScenarioCompleted (order : Z) (result : ScenarioResult.t)
| RunCompleted (summary raw_samples : PathBuf.t) (scenario_count errors drops : Z).

Definition name (self : t) : str :=
  match self with
  | RunStarted _ _ _ _ _ => str_of "run-started"
  | ScenarioStarted _ _ => str_of "scenario-started"
  | ScenarioCompleted _ _ => str_of "scenario-completed"
  | RunCompleted _ _ _ _ _ => str_of "run-completed"
  end.
End Event.

(** A connection, the operations of its client, the mounted tree, clocks, the
    writers of the artifact files, and the JSON text of a sample and of an
    event with its time and name. *)
Module World.
Class t (W : Type) : Type := mk {
  connect : NfsClientBuilder.t → st W Error.t Z;
  get : Z → str → st W Error.t bytes;
  get_known_size : Z → str → Z → st W Error.t bytes;
  get_range : Z → str → Z → Z → st W Error.t bytes;
  put : Z → str → bytes → PutMode.t → st W Error.t unit;
  entry_info : Z → str → st W Error.t EntryInfo.t;
  delete : Z → str → st W Error.t unit;
  list_page : Z → str → Z → option ContinuationToken.t → st W Error.t ListResult.t;
  tree : W → Fs.t;
  set_tree : Fs.t → W → W;
  instant_now : W → Z * W;
  unix_time_millis : W → Z * W;
  capture : W → ResourceSnapshot.t * W;
  write_all : Artifact.t → bytes → st W str unit;
  flush : Artifact.t → st W str unit;
  sample_json : RawSample.t → bytes;
  event_json : Z → str → Event.t → bytes;
}.
End World.

(** ** Durations *)

(** [Duration::from_secs_f64]: rounded to nanoseconds, ties to even; it panics
    on a negative value, a NaN and an overflow. *)
Definition from_secs_f64 {E} (x : spec_float) : res E Duration :=
  let bounded (ns : Z) := if ns <? 2 ^ 64 * 1000000000 then Ok ns else Panic in
  match x with
  | S754_zero _ => Ok 0
  | S754_finite false m e =>
      bounded (if 0 <=? e then Z.pos m * 2 ^ e * 1000000000
               else half_even (Z.pos m * 1000000000) (2 ^ (- e)))
  | _ => Panic
  end.

(** [Duration::mul_f64] *)
Definition mul_f64 {E} (d : Duration) (x : spec_float) : res E Duration :=
  from_secs_f64 (F64.mul x (as_secs_f64 d)).

(** An operation of an open loop that was launched. *)
Module Launched.
Record t : Type := mk { worker : Z; sequence : Z; scheduled : Z; scheduled_offset : Duration }.
End Launched.

(** A worker of a closed loop. *)
Module Worker.
Record t : Type := mk { id : Z; sequence : Z; samples : list RawSample.t }.
End Worker.

(** [let x = read(); k] *)
Definition observe {W E A B} (read : W → A * W) (k : A → st W E B) : st W E B := λ w,
  let '(a, w) := read w in k a w.

(** ** Artifacts *)

Definition newline : bytes := [10].

Definition append_raw_samples {W} `{!World.t W} (writer : Artifact.t) (samples : list RawSample.t)
  : st W str unit :=
  for_each (λ sample,
    let! _ := World.write_all writer (World.sample_json sample) in
    World.write_all writer newline) samples.

(** [EventLog::emit] *)
Definition emit {W} `{!World.t W} (event : Event.t) : st W str unit :=
  observe World.unix_time_millis (λ at_unix_ms,
  let! _ := World.write_all Artifact.Events (World.event_json at_unix_ms (Event.name event) event) in
  let! _ := World.write_all Artifact.Events newline in
  World.flush Artifact.Events).

(** [Instant::saturating_duration_since] *)
Definition saturating_duration_since (later earlier : Z) : Duration := Z.max (later - earlier) 0.

Section exec.
Context {W : Type} {world : World.t W} (display : Error.t → str) (fault : nat → option (IoError.t * bool))
  (amount : nat → nat) (direct_fuel : nat).

Notation M := (st W str).

(** A call on the mount. *)
Definition on_mount {A} (m : st Fs.t IoError.t A) : st W IoError.t A := λ w,
  let '(r, fs) := m (World.tree w) in (r, World.set_tree fs w).

(** [.map_err(|error| error.to_string())] for the two kinds of errors. *)
Definition io {A} (m : st Fs.t IoError.t A) : M A := smap_err IoError.message (on_mount m).
Definition nfs {A} (m : st W Error.t A) : M A := smap_err display m.

(** ** Operations on a client *)

Definition connect_clients (endpoint tls_server_name export : str) (current_user : res Error.t AuthSys.t)
    (granularity count : Z) (operation_timeout : Duration) : M (list Z) :=
  let builder :=
    NfsClientBuilder.operation_timeout (Some operation_timeout)
      (NfsClientBuilder.read_granularity granularity
         (NfsClientBuilder.write_chunk_size WRITE_CHUNK_BYTES
            (NfsClientBuilder.read_chunk_size READ_CHUNK_BYTES
               (NfsClientBuilder.session_slots SESSION_SLOTS
                  (NfsClientBuilder.tls (TlsConfig.new tls_server_name)
                     (NfsClientBuilder.new current_user endpoint export)))))) in
  (fix connects (n : nat) (clients : list Z) : M (list Z) :=
     match n with
     | O => sret clients
     | S n => let! client := nfs (World.connect builder) in connects n (clients ++ [client])
     end) (Z.to_nat count) [].

(** The path, which the harness made of letters, digits and dashes, needs no
    escapes in the message. *)
Definition execute_nfs_create_new (client : Z) (path : str) (payload : bytes) : M OperationValue.t := λ w,
  let expected_size := blen payload in
  match World.put client path payload PutMode.IfNotExists w with
  | (Ok _, w) => (Ok (OperationValue.Size expected_size), w)
  | (Panic, w) => (Panic, w)
  | (Err original_error, w) =>
      if negb (Error.is_outcome_unknown original_error) then (Err (display original_error), w)
      else
        match World.get_known_size client path expected_size w with
        | (Ok observed, w) =>
            if bool_decide (observed = payload) then (Ok (OperationValue.ReconciledSize expected_size), w)
            else
              (Err (str_of "create-new outcome was unknown and the destination payload differed: observed "
                    ++ decimal (blen observed) ++ str_of " bytes at " ++ [34] ++ path ++ [34] ++ str_of "; original error: "
                    ++ display original_error), w)
        | (Panic, w) => (Panic, w)
        | (Err error, w) =>
            if Error.is_not_found error then
              match World.put client path payload PutMode.IfNotExists w with
              | (Ok _, w) => (Ok (OperationValue.ReconciledSize expected_size), w)
              | (Panic, w) => (Panic, w)
              | (Err retry_error, w) =>
                  (Err (str_of "create-new outcome was unknown and the destination was absent, but the single retry failed: "
                        ++ display retry_error ++ str_of "; original error: " ++ display original_error), w)
              end
            else
              (Err (str_of "create-new outcome was unknown and destination reconciliation failed: "
                    ++ display error ++ str_of "; original error: " ++ display original_error), w)
        end
  end.

(** [context.clients[worker % context.clients.len()]] *)
Definition client_for (context : BenchmarkContext.t) (worker : Z) : res str Z :=
  let clients := BenchmarkContext.clients context in
  if bool_decide (clients = []) then Panic
  else match clients !! Z.to_nat (worker `mod` blen clients) with Some c => Ok c | None => Panic end.

Definition smap {S E A B} (f : A → B) (m : st S E A) : st S E B := let! a := m in sret (f a).

Definition execute_nfs (context : BenchmarkContext.t) (spec : ScenarioSpec.t) (phase : Phase.t)
    (worker sequence : Z) : M OperationValue.t :=
  let! client := slift (client_for context worker) in
  let! path := slift (operation_relative_path context spec phase worker sequence) in
  let size := ScenarioSpec.object_size_bytes spec in
  let! payload := slift (payload context size) in
  match ScenarioSpec.operation spec with
  | Operation.Get => smap OperationValue.Body (nfs (World.get client path))
  | Operation.GetKnownSize => smap OperationValue.Body (nfs (World.get_known_size client path size))
  | Operation.GetRange4k =>
      let offset := range_offset size in
      smap OperationValue.Body (nfs (World.get_range client path offset (offset + RANGE_BYTES)))
  | Operation.PutCreateNew => execute_nfs_create_new client path payload
  | Operation.PutOverwrite =>
      smap (λ _, OperationValue.Size size) (nfs (World.put client path payload PutMode.Overwrite))
  | Operation.EntryInfo =>
      smap (λ info, OperationValue.Size (EntryInfo.size info)) (nfs (World.entry_info client path))
  | Operation.Delete => smap (λ _, OperationValue.Unit) (nfs (World.delete client path))
  | Operation.List100 =>
      smap (λ result, OperationValue.Count (blen (ListResult.entries result)))
        (nfs (World.list_page client path LIST_ENTRIES None))
  end.

(** ** Operations on the mount *)

(** The closure given to [spawn_blocking]. *)
Definition mount_operation (context : BenchmarkContext.t) (spec : ScenarioSpec.t) (path : PathBuf.t)
    (payload : bytes) (temporary_suffix : str) : st Fs.t IoError.t OperationValue.t :=
  let object_size := ScenarioSpec.object_size_bytes spec in
  let backend := ScenarioSpec.backend spec in
  let remote_read_mode := BenchmarkContext.remote_read_mode context in
  match ScenarioSpec.operation spec with
  | Operation.Get =>
      smap OperationValue.Body
        (match backend with
         | Backend.LinuxCached => read_cached fault path object_size
         | _ => read_remote fault amount direct_fuel path object_size false remote_read_mode
         end)
  | Operation.GetKnownSize =>
      smap OperationValue.Body
        (match backend with
         | Backend.LinuxCached => read_cached fault path object_size
         | Backend.LinuxRemoteTrustedSize =>
             read_remote_trusted_size fault amount direct_fuel path object_size remote_read_mode
         | _ => read_remote fault amount direct_fuel path object_size true remote_read_mode
         end)
  | Operation.GetRange4k =>
      smap OperationValue.Body
        (read_remote_range fault amount direct_fuel path (range_offset object_size) RANGE_BYTES remote_read_mode)
  | Operation.PutCreateNew =>
      smap (λ _, OperationValue.Size (blen payload)) (atomic_put fault amount path payload true temporary_suffix)
  | Operation.PutOverwrite =>
      smap (λ _, OperationValue.Size (blen payload)) (atomic_put fault amount path payload false temporary_suffix)
  | Operation.EntryInfo => smap OperationValue.Size (metadata_size fault path)
  | Operation.Delete => smap (λ _, OperationValue.Unit) (BenchMount.delete fault path)
  | Operation.List100 => smap OperationValue.Count (list_count fault path)
  end.

(** A panic of the blocking task is reported by its join handle.  Object sizes
    fit in [usize], which has 64 bits. *)
Definition execute_mount (context : BenchmarkContext.t) (spec : ScenarioSpec.t) (phase : Phase.t)
    (worker sequence : Z) : M OperationExecution.t :=
  observe World.instant_now (λ dispatched,
  let! path := slift (operation_mount_path context spec phase worker sequence) in
  match payload context (ScenarioSpec.object_size_bytes spec) with
  | Err error => sret (OperationExecution.mk (Err error) 0 0)
  | Panic => spanic
  | Ok payload =>
      let temporary_suffix :=
        Phase.label phase ++ str_of "-" ++ decimal worker ++ str_of "-" ++ decimal sequence in
      observe World.instant_now (λ started w,
      let '(io_result, w) := io (mount_operation context spec path payload temporary_suffix) w in
      let '(completed, w) := World.instant_now w in
      match io_result with
      | Panic =>
          (Ok (OperationExecution.mk (Err (str_of "blocking task failed")) 0
                 (saturating_duration_since completed dispatched)), w)
      | _ =>
          (Ok (OperationExecution.mk io_result (saturating_duration_since started dispatched)
                 (saturating_duration_since completed started)), w)
      end)
  end).

Definition execute_operation (context : BenchmarkContext.t) (spec : ScenarioSpec.t) (phase : Phase.t)
    (worker sequence : Z) : M OperationExecution.t :=
  match ScenarioSpec.backend spec with
  | Backend.NfsCrust =>
      observe World.instant_now (λ started w,
      match execute_nfs context spec phase worker sequence w with
      | (Panic, w) => (Panic, w)
      | (result, w) =>
          let '(now, w) := World.instant_now w in
          (Ok (OperationExecution.mk result 0 (saturating_duration_since now started)), w)
      end)
  | _ => execute_mount context spec phase worker sequence
  end.

(** ** Closed loop *)

(** One turn of a worker's loop: [None] when the loop breaks. *)
Definition worker_turn (context : BenchmarkContext.t) (spec : ScenarioSpec.t) (phase : Phase.t)
    (start deadline : Z) (fixed_operations : option Z) (worker : Worker.t) : M (option Worker.t) :=
  let! stop :=
    match fixed_operations with
    | Some limit => sret (limit <=? Worker.sequence worker)
    | None => observe World.instant_now (λ now, sret (deadline <=? now))
    end in
  if stop then sret None
  else
    observe World.instant_now (λ operation_started,
    let! execution :=
      execute_operation context spec phase (Worker.id worker) (Worker.sequence worker) in
    observe World.instant_now (λ operation_completed,
    let timing :=
      SampleTiming.mk (saturating_duration_since operation_completed start) None
        (OperationExecution.dispatch_queue execution) (OperationExecution.service execution)
        (saturating_duration_since operation_completed operation_started) in
    let! sample := slift (sample_from_result context spec (Worker.id worker) (Worker.sequence worker) timing
                            (OperationExecution.result execution)) in
    sret (Some (Worker.mk (Worker.id worker) (saturating_add (Worker.sequence worker) 1)
                  (Worker.samples worker ++ [sample]))))).

Context (order : nat → nat).

(** The workers that still run; the samples of those that were joined. *)
Fixpoint closed_loop_turns (fuel : nat) (context : BenchmarkContext.t) (spec : ScenarioSpec.t)
    (phase : Phase.t) (start deadline : Z) (fixed_operations : option Z) (turn : nat)
    (workers : list Worker.t) (samples : list RawSample.t) : M (list RawSample.t) :=
  match workers with
  | [] => sret samples
  | _ =>
      match fuel with
      | O => spanic
      | S fuel => λ w,
          let i := (order turn `mod` length workers)%nat in
          match workers !! i with
          | None => (Panic, w)
          | Some worker =>
              match worker_turn context spec phase start deadline fixed_operations worker w with
              | (Ok (Some worker), w) =>
                  closed_loop_turns fuel context spec phase start deadline fixed_operations (S turn)
                    (<[i := worker]> workers) samples w
              | (Ok None, w) =>
                  closed_loop_turns fuel context spec phase start deadline fixed_operations (S turn)
                    (base.delete i workers) (samples ++ Worker.samples worker) w
              | (Err error, w) => (Err error, w)
              | (Panic, w) => (Err (str_of "worker task failed"), w)
              end
          end
      end
  end.

Definition run_closed_loop (fuel : nat) (context : BenchmarkContext.t) (spec : ScenarioSpec.t)
    (phase : Phase.t) (duration_override_ms : option Z) : M SampleBatch.t :=
  observe World.instant_now (λ now,
  let start := now + START_DELAY in
  let fixed_operations :=
    match duration_override_ms with
    | Some _ => None
    | None => ScenarioSpec.fixed_operations_per_worker spec
    end in
  let duration_ms := default (ScenarioSpec.duration_ms spec) duration_override_ms in
  let deadline := start + from_millis duration_ms in
  let workers := (λ id, Worker.mk id 0 []) <$> seqZ 0 (ScenarioSpec.concurrency spec) in
  let! samples := closed_loop_turns fuel context spec phase start deadline fixed_operations 0 workers [] in
  sret (SampleBatch.mk samples (elapsed_for_samples samples (from_millis duration_ms)))).

(** ** Open loop *)

(** The body of a launched task. *)
Definition launched_task (context : BenchmarkContext.t) (spec : ScenarioSpec.t) (phase : Phase.t)
    (start max_outstanding : Z) (task : Launched.t) : M RawSample.t :=
  observe World.instant_now (λ operation_started,
  let queue := saturating_duration_since operation_started (Launched.scheduled task) in
  let operation_sequence := Launched.sequence task / max_outstanding in
  let! execution := execute_operation context spec phase (Launched.worker task) operation_sequence in
  observe World.instant_now (λ operation_completed,
  let timing :=
    SampleTiming.mk (saturating_duration_since operation_completed start)
      (Some (Launched.scheduled_offset task))
      (saturating_add queue (OperationExecution.dispatch_queue execution))
      (OperationExecution.service execution)
      (saturating_duration_since operation_completed (Launched.scheduled task)) in
  slift (sample_from_result context spec (Launched.worker task) (Launched.sequence task) timing
           (OperationExecution.result execution)))).

(** [tasks.join_next()] for [n] of the tasks in flight, whichever complete. *)
Fixpoint join_tasks (n : nat) (context : BenchmarkContext.t) (spec : ScenarioSpec.t) (phase : Phase.t)
    (start max_outstanding : Z) (turn : nat) (tasks : list Launched.t) (samples : list RawSample.t)
  : M (list Launched.t * list RawSample.t) := λ w,
  match n with
  | O => (Ok (tasks, samples), w)
  | S n =>
      match next_completion (order turn) tasks with
      | None => (Ok (tasks, samples), w)
      | Some (task, tasks) =>
          match launched_task context spec phase start max_outstanding task w with
          | (Ok sample, w) =>
              join_tasks n context spec phase start max_outstanding (S turn) tasks (samples ++ [sample]) w
          | (Err error, w) => (Err error, w)
          | (Panic, w) => (Err (str_of "open-loop task failed"), w)
          end
      end
  end.

Definition dropped_sample (spec : ScenarioSpec.t) (worker sequence : Z) (scheduled_offset : Duration)
  : RawSample.t :=
  RawSample.mk (ScenarioSpec.id spec) worker sequence (nanos scheduled_offset)
    (Some (nanos scheduled_offset)) 0 0 0 SampleStatus.dropped false (Some (str_of "outstanding-cap-reached")).

(** The launching loop; [completed turn] tasks are found complete before the
    launch of that turn. *)
Fixpoint open_loop_turns (fuel : nat) (completed : nat → nat) (context : BenchmarkContext.t)
    (spec : ScenarioSpec.t) (phase : Phase.t) (start max_outstanding : Z)
    (interval launch_window : Duration) (sequence : Z) (tasks : list Launched.t)
    (samples : list RawSample.t) : M (list Launched.t * list RawSample.t) :=
  let! scheduled_offset := slift (mul_f64 interval (F64.of_Z sequence)) in
  if launch_window <=? scheduled_offset then sret (tasks, samples)
  else
    match fuel with
    | O => spanic
    | S fuel =>
        let! (tasks, samples) :=
          join_tasks (completed fuel) context spec phase start max_outstanding fuel tasks samples in
        if max_outstanding =? 0 then spanic
        else
          let worker := sequence `mod` max_outstanding in
          let '(tasks, samples) :=
            if max_outstanding <=? blen tasks
            then (tasks, samples ++ [dropped_sample spec worker sequence scheduled_offset])
            else (tasks ++ [Launched.mk worker sequence (start + scheduled_offset) scheduled_offset], samples) in
          open_loop_turns fuel completed context spec phase start max_outstanding interval launch_window
            (saturating_add sequence 1) tasks samples
    end.

Definition run_open_loop (fuel : nat) (completed : nat → nat) (context : BenchmarkContext.t)
    (spec : ScenarioSpec.t) (phase : Phase.t) (duration_ms : Z) : M SampleBatch.t :=
  let! offered_rate := slift (ok_or (ScenarioSpec.offered_rate_ops_per_sec spec)
                                (str_of "open-loop rate missing")) in
  let! max_outstanding := slift (ok_or (ScenarioSpec.max_outstanding spec)
                                   (str_of "outstanding cap missing")) in
  let! interval := slift (from_secs_f64 (F64.div (F64.of_Z 1) offered_rate)) in
  let launch_window := from_millis duration_ms in
  observe World.instant_now (λ now,
  let start := now + START_DELAY in
  let! (tasks, samples) :=
    open_loop_turns fuel completed context spec phase start max_outstanding interval launch_window 0 [] [] in
  let! (_, samples) :=
    join_tasks (length tasks) context spec phase start max_outstanding fuel tasks samples in
  sret (SampleBatch.mk samples (elapsed_for_samples samples launch_window))).

(** ** Preparation *)

Definition shard_dir (phase shard : str) (root : PathBuf.t) : PathBuf.t :=
  PathBuf.join (PathBuf.join root phase) shard.

Definition shard_name (shard : Z) : str := str_of "s" ++ padded 2 shard.

Definition mount_path_of (context : BenchmarkContext.t) (spec : ScenarioSpec.t) (phase : Phase.t)
    (worker sequence : Z) : M PathBuf.t :=
  slift (operation_mount_path context spec phase worker sequence).

Definition seed_files (context : BenchmarkContext.t) (spec : ScenarioSpec.t) (phase : Phase.t)
    (count : Z) (data : bytes) (after : PathBuf.t → M unit) : M unit :=
  for_each (λ worker,
    for_each (λ sequence,
      let! path := mount_path_of context spec phase worker sequence in
      let! _ := io (write_seed fault amount path data) in
      after path) (seqZ 0 count)) (seqZ 0 (ScenarioSpec.concurrency spec)).

Definition prepare_scenario (context : BenchmarkContext.t) (spec : ScenarioSpec.t) : M unit :=
  let root := scenario_mount_root context spec in
  let shards := seqZ 0 (ScenarioSpec.directory_shards spec) in
  let files := ScenarioSpec.read_files_per_worker spec in
  let done (_ : PathBuf.t) : M unit := sret tt in
  let! present := λ w, (Ok (Fs.exists_ (World.tree w) root), w) in
  let! _ := if present then io (Fs.remove_dir_all fault root) else sret tt in
  let! _ := io (Fs.create_dir_all fault root) in
  let! _ := for_each (λ phase, for_each (λ shard,
              io (Fs.create_dir_all fault (shard_dir (Phase.label phase) (shard_name shard) root))) shards)
              [Phase.Warmup; Phase.Measure] in
  let! _ := for_each (λ shard,
              io (Fs.create_dir_all fault (shard_dir (str_of "data") (shard_name shard) root))) shards in
  let! payload := slift (payload context (ScenarioSpec.object_size_bytes spec)) in
  match ScenarioSpec.operation spec with
  | Operation.Get | Operation.GetKnownSize | Operation.GetRange4k =>
      seed_files context spec Phase.Measure files payload (λ path,
        match ScenarioSpec.backend spec with
        | Backend.LinuxCached => io (warm_page_cache fault path (blen payload))
        | _ => sret tt
        end)
  | Operation.PutOverwrite =>
      let sentinel := sentinel_payload payload in
      for_each (λ phase, seed_files context spec phase files sentinel done) [Phase.Warmup; Phase.Measure]
  | Operation.EntryInfo =>
      let! path := mount_path_of context spec Phase.Measure 0 0 in
      io (write_seed fault amount path payload)
  | Operation.Delete =>
      let! count := slift (ok_or (ScenarioSpec.fixed_operations_per_worker spec)
                             (str_of "delete scenario requires fixed count")) in
      seed_files context spec Phase.Measure count payload done
  | Operation.List100 =>
      let! list_root := mount_path_of context spec Phase.Measure 0 0 in
      let! _ := io (Fs.create_dir_all fault list_root) in
      for_each (λ index,
        io (write_seed fault amount (PathBuf.join list_root (str_of "entry-" ++ padded 3 index)) payload))
        (seqZ 0 LIST_ENTRIES)
  | Operation.PutCreateNew => sret tt
  end.

(** ** Validation across backends *)

Context (current_user : res Error.t AuthSys.t).

Definition validation_client (context : BenchmarkContext.t) : M Z :=
  let! clients := connect_clients (BenchmarkContext.endpoint context) (BenchmarkContext.tls_server_name context)
                    (BenchmarkContext.export context) current_user DEFAULT_READ_GRANULARITY 1
                    (BenchmarkContext.operation_timeout context) in
  match clients with
  | client :: _ => sret client
  | [] => spanic
  end.

(** A path that the mount must not show any more. *)
Definition check_absent_mount (context : BenchmarkContext.t) (spec : ScenarioSpec.t) (worker sequence : Z)
  : M unit :=
  let! path := mount_path_of context spec Phase.Measure worker sequence in
  λ w,
  match on_mount (Fs.metadata_len fault path) w with
  | (Err error, w) =>
      if bool_decide (IoError.error_kind error = IoError.NotFound) then (Ok tt, w)
      else (Err (str_of "could not verify " ++ PathBuf.display path ++ str_of ": " ++ IoError.message error), w)
  | (Ok _, w) => (Err (str_of "deleted path still exists: " ++ PathBuf.display path), w)
  | (Panic, w) => (Panic, w)
  end.

Definition check_absent_nfs (context : BenchmarkContext.t) (spec : ScenarioSpec.t) (client worker sequence : Z)
  : M unit :=
  let! path := slift (operation_relative_path context spec Phase.Measure worker sequence) in
  λ w,
  match World.entry_info client path w with
  | (Err error, w) =>
      if Error.is_not_found error then (Ok tt, w)
      else (Err (str_of "could not verify " ++ path ++ str_of ": " ++ display error), w)
  | (Ok _, w) => (Err (str_of "deleted path still exists: " ++ path), w)
  | (Panic, w) => (Panic, w)
  end.

Definition over_operations (spec : ScenarioSpec.t) (count : Z) (check : Z → Z → M unit) : M unit :=
  for_each (λ worker, for_each (check worker) (seqZ 0 count)) (seqZ 0 (ScenarioSpec.concurrency spec)).

Definition cross_validate_delete (context : BenchmarkContext.t) (spec : ScenarioSpec.t) : M str :=
  let! count := slift (ok_or (ScenarioSpec.fixed_operations_per_worker spec)
                         (str_of "delete scenario did not declare its path count")) in
  let! _ :=
    match ScenarioSpec.backend spec with
    | Backend.NfsCrust => over_operations spec count (check_absent_mount context spec)
    | _ =>
        let! client := validation_client context in
        over_operations spec count (check_absent_nfs context spec client)
    end in
  sret (str_of "passed: opposite backend confirmed " ++ decimal (count * ScenarioSpec.concurrency spec)
        ++ str_of " deleted path(s) absent").

Definition verify_publication (context : BenchmarkContext.t) (spec : ScenarioSpec.t) (payload : bytes)
    (client : option Z) (relative_path : str) : M unit :=
  let! observed :=
    match client with
    | None =>
        io (read_remote fault amount direct_fuel
              (PathBuf.join (BenchmarkContext.mount_root context) relative_path) (blen payload) true
              (BenchmarkContext.remote_read_mode context))
    | Some client =>
        nfs (World.get_known_size client relative_path (ScenarioSpec.object_size_bytes spec))
    end in
  slift (validate_full_body observed payload).

(** The files a write scenario leaves. *)
Definition publications (context : BenchmarkContext.t) (spec : ScenarioSpec.t) : M (list str) :=
  slift
    (match ScenarioSpec.operation spec with
     | Operation.PutOverwrite =>
         try_each (for_in (seqZ 0 (ScenarioSpec.concurrency spec)) (λ worker,
                   for_in (seqZ 0 (ScenarioSpec.read_files_per_worker spec)) (λ slot, [(worker, slot)])))
           (λ '(worker, slot), operation_relative_path context spec Phase.Measure worker slot)
     | _ =>
         let? path := operation_relative_path context spec Phase.Measure 0 0 in Ok [path]
     end).

Definition cross_validate (context : BenchmarkContext.t) (spec : ScenarioSpec.t) : M str :=
  let operation := ScenarioSpec.operation spec in
  if bool_decide (operation = Operation.Delete) then cross_validate_delete context spec
  else if negb (Operation.is_write operation) then
    sret (match operation with
          | Operation.Get | Operation.GetKnownSize | Operation.GetRange4k =>
              str_of "payload length and sampled bytes validated after every read"
          | Operation.EntryInfo => str_of "metadata size validated after every lookup"
          | Operation.List100 => str_of "every listing returned exactly 100 entries"
          | _ => str_of "not applicable"
          end)
  else
    let! payload := slift (payload context (ScenarioSpec.object_size_bytes spec)) in
    let! paths := publications context spec in
    match ScenarioSpec.backend spec with
    | Backend.NfsCrust =>
        let! _ := for_each (verify_publication context spec payload None) paths in
        sret (str_of "passed: Linux remote reads fully verified " ++ decimal (blen paths)
              ++ str_of " nfs-crust publication(s)")
    | _ =>
        let! client := validation_client context in
        let! _ := for_each (verify_publication context spec payload (Some client)) paths in
        sret (str_of "passed: nfs-crust fully verified " ++ decimal (blen paths)
              ++ str_of " Linux publication(s)")
    end.

(** ** A scenario *)

(** [result.errors += 1; result.distinct_errors.push(issue)] *)
Definition add_error (issue : str) (r : ScenarioResult.t) : ScenarioResult.t :=
  ScenarioResult.mk (ScenarioResult.order r) (ScenarioResult.spec r) (ScenarioResult.started_at_unix_ms r)
    (ScenarioResult.actual_elapsed_seconds r) (ScenarioResult.successes r)
    (ScenarioResult.measurement_errors r) (saturating_add (ScenarioResult.errors r) 1)
    (ScenarioResult.overload_drops r) (ScenarioResult.reconciled_outcomes r)
    (ScenarioResult.achieved_ops_per_sec r) (ScenarioResult.achieved_mib_per_sec r)
    (ScenarioResult.service_latency r) (ScenarioResult.queue_latency r)
    (ScenarioResult.total_response_latency r) (ScenarioResult.p99_sample_sufficient r)
    (ScenarioResult.p999_sample_sufficient r) (ScenarioResult.resource_delta r)
    (ScenarioResult.distinct_errors r ++ [issue]) (ScenarioResult.cross_backend_validation r).

Definition with_clients (context : BenchmarkContext.t) (clients : list Z) : BenchmarkContext.t :=
  BenchmarkContext.mk (BenchmarkContext.endpoint context) (BenchmarkContext.tls_server_name context)
    (BenchmarkContext.export context) (BenchmarkContext.mount_root context)
    (BenchmarkContext.benchmark_relative_root context) (BenchmarkContext.benchmark_mount_root context) clients
    (BenchmarkContext.payloads context) (BenchmarkContext.remote_read_mode context)
    (BenchmarkContext.operation_timeout context) (BenchmarkContext.keep_data context).

Context (fuel : nat) (completed : nat → nat).

Definition run_phase (context : BenchmarkContext.t) (spec : ScenarioSpec.t) (phase : Phase.t) : M SampleBatch.t :=
  match ScenarioSpec.mode spec, phase with
  | ScenarioMode.ClosedLoop, Phase.Warmup =>
      run_closed_loop fuel context spec phase (Some (ScenarioSpec.warmup_ms spec))
  | ScenarioMode.ClosedLoop, Phase.Measure => run_closed_loop fuel context spec phase None
  | ScenarioMode.OpenLoop, Phase.Warmup =>
      run_open_loop fuel completed context spec phase (ScenarioSpec.warmup_ms spec)
  | ScenarioMode.OpenLoop, Phase.Measure =>
      run_open_loop fuel completed context spec phase (ScenarioSpec.duration_ms spec)
  end.

(** What the validations add to a result. *)
Definition conclude (cross_validation : str + str) (warmup_issue : option str) (result : ScenarioResult.t)
  : ScenarioResult.t :=
  let result :=
    match cross_validation with
    | inl error => add_error (str_of "cross-backend validation: " ++ error) result
    | inr _ => result
    end in
  let result := match warmup_issue with Some issue => add_error issue result | None => result end in
  if ScenarioResult.successes result =? 0
  then add_error (str_of "measurement completed without a successful operation") result
  else result.

Definition run_scenario (context : BenchmarkContext.t) (spec : ScenarioSpec.t) (number : Z)
  : M ScenarioResult.t :=
  let! _ := prepare_scenario context spec in
  let! clients :=
    match ScenarioSpec.backend spec with
    | Backend.NfsCrust =>
        connect_clients (BenchmarkContext.endpoint context) (BenchmarkContext.tls_server_name context)
          (BenchmarkContext.export context) current_user (ScenarioSpec.read_granularity_bytes spec)
          (ScenarioSpec.client_connections spec) (BenchmarkContext.operation_timeout context)
    | _ => sret (BenchmarkContext.clients context)
    end in
  let context := with_clients context clients in
  let! _ := emit (Event.ScenarioStarted number spec) in
  let! warmup_issue :=
    if negb (ScenarioSpec.warmup_ms spec =? 0) then
      let! warmup := run_phase context spec Phase.Warmup in
      let! _ := append_raw_samples Artifact.WarmupSamples (SampleBatch.samples warmup) in
      let! _ := World.flush Artifact.WarmupSamples in
      sret (batch_issue warmup (str_of "warmup"))
    else sret None in
  observe World.capture (λ resources_before,
  observe World.unix_time_millis (λ started_at_unix_ms,
  let! batch := run_phase context spec Phase.Measure in
  observe World.capture (λ resources_after,
  let! cross_validation := λ w,
    match cross_validate context spec w with
    | (Ok message, w) => (Ok (inr message), w)
    | (Err error, w) => (Ok (inl error), w)
    | (Panic, w) => (Panic, w)
    end in
  let! result := slift (summarize_scenario number spec started_at_unix_ms batch
                          (BenchStats.delta resources_before resources_after)
                          (match cross_validation with
                           | inr message => message
                           | inl error => str_of "FAILED: " ++ error
                           end)) in
  let result := conclude cross_validation warmup_issue result in
  let! _ := append_raw_samples Artifact.RawSamples (SampleBatch.samples batch) in
  let! _ := World.flush Artifact.RawSamples in
  let! _ := emit (Event.ScenarioCompleted number result) in
  let! _ :=
    if negb (BenchmarkContext.keep_data context) then
      let scenario_mount_root := scenario_mount_root context spec in
      smap_err (λ error, str_of "failed to remove scenario data " ++ PathBuf.display scenario_mount_root
                         ++ str_of ": " ++ error)
        (io (Fs.remove_dir_all fault scenario_mount_root))
    else sret tt in
  sret result))).
End exec.
