(* ===== verification/BenchRun.v ===== *)
(** * The run of the benchmark (bench/src/main.rs, [run] and its checks)

    The arguments are checked, the scenarios run one after the other, the
    summary is published by a rename, and the data are removed however the run
    ends. *)

From Stdlib Require Import Floats.SpecFloat.
From stdpp Require Import gmap.
From S2P Require Import Prelude Float64 Errors Path Ops Rpc Owner Session Reads Writes Put Directory Builder Efs BenchModel BenchSuite BenchStats FileSystem BenchMount BenchWork BenchExec.

Section run.
Context {W : Type} {world : World.t W} (display : Error.t → str) (fault : nat → option (IoError.t * bool))
  (amount : nat → nat) (direct_fuel : nat) (order : nat → nat) (current_user : res Error.t AuthSys.t)
  (fuel : nat) (completed : nat → nat).
(** [fs::canonicalize], the working directory, the host and the JSON encoder. *)
Context (canonicalize : PathBuf.t → st W IoError.t PathBuf.t) (current_dir : PathBuf.t)
  (host_metadata : HostMetadata.t) (to_json : RunSummary.t → bytes).

Notation M := (st W str).
Notation io := (io (W:=W)).

(** ** The arguments *)

Definition path_exists (p : PathBuf.t) : M bool := λ w, (Ok (Fs.exists_ (World.tree w) p), w).
Definition is_dir (p : PathBuf.t) : M bool := λ w, (Ok (bool_decide (p ∈ Fs.dirs (World.tree w))), w).

(** The loop that climbs to an ancestor that exists; every turn drops a
    component. *)
Fixpoint climb (turns : nat) (existing : PathBuf.t) (missing : list str) : M (PathBuf.t * list str) :=
  let! found := path_exists existing in
  if found then sret (existing, missing)
  else
    match PathBuf.file_name existing, PathBuf.parent existing, turns with
    | Some component, Some up, S turns => climb turns up (missing ++ [component])
    | _, _, _ => sfail (str_of "path has no existing ancestor")
    end.

Definition canonicalize_new_path (path : PathBuf.t) : M PathBuf.t :=
  if bool_decide (PathBuf.dotdot ∈ PathBuf.names path) then
    sfail (str_of "output directory must not contain parent-directory components")
  else
    let absolute :=
      if PathBuf.absolute path then path
      else PathBuf.mk (PathBuf.absolute current_dir) (PathBuf.names current_dir ++ PathBuf.names path) in
    let! (existing, missing) := climb (length (PathBuf.names absolute)) absolute [] in
    let! resolved := smap_err IoError.message (canonicalize existing) in
    sret (fold_left PathBuf.push (rev missing) resolved).

Definition in_1_2048 (size : Z) : bool := (1 <=? size) && (size <=? 2048).

Definition validate_args (args : Args.t) : M unit :=
  let require (ok : bool) (message : str) : M unit := if ok then sret tt else sfail message in
  let mount := PathBuf.of_str (Args.mount_root args) in
  let output := PathBuf.of_str (Args.output_dir args) in
  let sweep := Args.write_size_sweep_kib args in
  let! _ := require ((1 <=? Args.repetitions args) && (Args.repetitions args <=? 20))
              (str_of "repetitions must be between 1 and 20") in
  let! _ := require (negb (bool_decide (Args.closed_loop_limit args = Some 0)))
              (str_of "closed-loop-limit must be greater than zero") in
  let! _ := require (negb (Args.operation_timeout_seconds args =? 0))
              (str_of "operation-timeout-seconds must be greater than zero") in
  let! _ := require (bool_decide (sweep = []) || bool_decide (is_Some (Args.closed_loop_limit args)))
              (str_of "write-size-sweep-kib requires closed-loop-limit diagnostic mode") in
  let! _ := require (forallb in_1_2048 sweep)
              (str_of "write-size-sweep-kib values must be between 1 and 2048") in
  let! mount_is_dir := is_dir mount in
  let! _ := require mount_is_dir (str_of "mount root is not a directory: " ++ Args.mount_root args) in
  let! _ := require (negb (bool_decide (trim (Args.run_id args) = []))) (str_of "run id must not be empty") in
  let! _ := require (negb (bool_decide (trim (Args.tls_server_name args) = [])))
              (str_of "TLS server name must not be empty") in
  let! output_exists := path_exists output in
  let! _ := require (negb output_exists)
              (str_of "output directory already exists; use a fresh path: " ++ Args.output_dir args) in
  let! mount_root := smap_err IoError.message (canonicalize mount) in
  let! output_dir := canonicalize_new_path output in
  require (negb (PathBuf.starts_with output_dir mount_root || PathBuf.starts_with mount_root output_dir))
    (str_of "output directory and NFS mount must not overlap").

(** ** The scenarios *)

Notation run_scenario :=
  (run_scenario display fault amount direct_fuel order current_user fuel completed).

(** One after the other; the number of a scenario is its place. *)
Fixpoint run_specs (context : BenchmarkContext.t) (specs : list ScenarioSpec.t)
    (results : list ScenarioResult.t) : M (list ScenarioResult.t) :=
  match specs with
  | [] => sret results
  | spec :: specs =>
      let! result := run_scenario context spec (blen results + 1) in
      run_specs context specs (results ++ [result])
  end.

Definition closed_loop_specs (args : Args.t) (diagnostic_write_sizes : list Z) : M (list ScenarioSpec.t) :=
  let! specs := slift (closed_loop_suite (Args.quick args) (Args.seed args) (Args.repetitions args)
                         (Args.diagnostics args)) in
  let specs :=
    match Args.closed_loop_limit args with
    | Some limit => take (Z.to_nat limit) specs
    | None => specs
    end in
  sret (specs ++ diagnostic_write_specs diagnostic_write_sizes).

Definition invalid (result : ScenarioResult.t) : bool :=
  negb (ScenarioResult.errors result =? 0) || negb (ScenarioResult.overload_drops result =? 0)
  || starts_with (str_of "FAILED") (ScenarioResult.cross_backend_validation result).

Definition run_metadata (args : Args.t) (started_at_unix_ms completed_at_unix_ms : Z)
    (benchmark_relative_root : str) (remote_read_mode : RemoteReadMode.t) (direct_io_probe : str)
  : RunMetadata.t :=
  RunMetadata.mk (Args.run_id args) started_at_unix_ms completed_at_unix_ms (Args.endpoint args)
    (Args.tls_server_name args) (Args.export args) (Args.mount_root args) benchmark_relative_root
    (Args.source_revision args) (Args.source_dirty args) (Args.seed args) (Args.quick args)
    (Args.diagnostics args) (if Args.quick args then 1 else Args.repetitions args)
    (RemoteReadMode.label remote_read_mode) direct_io_probe host_metadata.

Definition harness_config : HarnessConfig.t :=
  HarnessConfig.mk SESSION_SLOTS READ_CHUNK_BYTES WRITE_CHUNK_BYTES DEFAULT_READ_GRANULARITY
    LARGE_READ_GRANULARITY DEFAULT_READ_FILES_PER_WORKER (str_of "nanoseconds")
    (str_of "nearest-rank-per-scenario-repetition") P99_MINIMUM_SAMPLES P999_MINIMUM_SAMPLES
    (str_of "public API or matched syscall operation; payload checks excluded") (str_of "tls").

(** The summary is written next to its name and renamed. *)
Definition publish_summary (output_dir : PathBuf.t) (summary : RunSummary.t) : M unit :=
  let summary_path := PathBuf.join output_dir (str_of "summary.json") in
  let summary_partial_path := PathBuf.join output_dir (str_of "summary.json.partial") in
  let! file := io (Fs.create fault summary_partial_path) in
  let! _ := io (Fs.write_all fault amount file (to_json summary)) in
  io (Fs.rename fault summary_partial_path summary_path).

(** [.sum::<u64>()], in a build without overflow checks. *)
Definition sum_u64 (l : list Z) : Z := fold_left (λ total n, wrap64 (total + n)) l 0.

(** From the probe to the verdict, with the benchmark directory in place. *)
Definition run_in_root (args : Args.t) (started_at_unix_ms : Z) (benchmark_relative_root : str)
    (benchmark_mount_root : PathBuf.t) : M unit :=
  let! (remote_read_mode, direct_io_probe) := λ w,
    let '(probe, fs) := probe_remote_read_mode fault amount direct_fuel benchmark_mount_root (World.tree w) in
    (Ok probe, World.set_tree fs w) in
  if negb (bool_decide (remote_read_mode = RemoteReadMode.Direct)) && negb (Args.quick args) then
    sfail (str_of "publishable runs require O_DIRECT for remote Linux reads: " ++ direct_io_probe)
  else
    let! _ := emit (Event.RunStarted (Args.run_id args) (Args.endpoint args) (Args.tls_server_name args)
                      (RemoteReadMode.label remote_read_mode) direct_io_probe) in
    let diagnostic_write_sizes := (λ size, size * 1024) <$> Args.write_size_sweep_kib args in
    let context :=
      BenchmarkContext.mk (Args.endpoint args) (Args.tls_server_name args) (Args.export args)
        (PathBuf.of_str (Args.mount_root args)) benchmark_relative_root benchmark_mount_root []
        (build_payloads (Args.seed args) diagnostic_write_sizes) remote_read_mode
        (Args.operation_timeout_seconds args * 1000000000) (Args.keep_data args) in
    let! specs := closed_loop_specs args diagnostic_write_sizes in
    let! results := run_specs context specs [] in
    let! (rate_basis, open_loop_specs) :=
      match Args.closed_loop_limit args with
      | Some _ => sret ([], [])
      | None => slift (derive_open_loop_specs results (Args.quick args) (Args.repetitions args))
      end in
    let! results := run_specs context open_loop_specs results in
    let! _ := World.flush Artifact.RawSamples in
    let! _ := World.flush Artifact.WarmupSamples in
    observe World.unix_time_millis (λ completed_at_unix_ms,
    let summary :=
      RunSummary.mk 4
        (run_metadata args started_at_unix_ms completed_at_unix_ms benchmark_relative_root remote_read_mode
           direct_io_probe)
        harness_config rate_basis results in
    let! _ := publish_summary (PathBuf.of_str (Args.output_dir args)) summary in
    let output_dir := PathBuf.of_str (Args.output_dir args) in
    let! _ := emit (Event.RunCompleted (PathBuf.join output_dir (str_of "summary.json"))
                      (PathBuf.join output_dir (str_of "raw-samples.jsonl")) (blen results)
                      (sum_u64 (ScenarioResult.errors <$> results))
                      (sum_u64 (ScenarioResult.overload_drops <$> results))) in
    let failures := blen (filter (λ result, invalid result = true) results) in
    if negb (failures =? 0)
    then sfail (decimal failures ++ str_of " benchmark scenarios failed validation")
    else sret tt).

(** [BenchmarkDataGuard]: dropped however the run ends. *)
Definition with_data_guard (path : PathBuf.t) (keep : bool) (body : M unit) : M unit := λ w,
  let '(r, w) := body w in
  (r, if keep then w else (ignored (io (Fs.remove_dir_all fault path)) w).2).

Definition run (args : Args.t) : M unit :=
  let output_dir := PathBuf.of_str (Args.output_dir args) in
  let! _ := validate_args args in
  let! _ := match PathBuf.parent output_dir with
            | Some parent => io (Fs.create_dir_all fault parent)
            | None => sret tt
            end in
  let! _ := io (Fs.create_dir fault output_dir) in
  let! _ := for_each (λ name, let! _ := io (Fs.create fault (PathBuf.join output_dir name)) in sret tt)
              [str_of "raw-samples.jsonl"; str_of "warmup-samples.jsonl"; str_of "events.jsonl"] in
  observe World.unix_time_millis (λ started_at_unix_ms,
  let! safe_run_id := slift (safe_component (Args.run_id args)) in
  let benchmark_relative_root := str_of "nfs-crust-bench-" ++ safe_run_id in
  let benchmark_mount_root :=
    PathBuf.join (PathBuf.of_str (Args.mount_root args)) benchmark_relative_root in
  let! _ := smap_err (λ error, str_of "refusing to replace benchmark root "
                               ++ PathBuf.display benchmark_mount_root ++ str_of ": " ++ error)
              (io (Fs.create_dir fault benchmark_mount_root)) in
  with_data_guard benchmark_mount_root (Args.keep_data args)
    (run_in_root args started_at_unix_ms benchmark_relative_root benchmark_mount_root)).
End run.
