(* ===== verification/BenchFacts.v ===== *)
(** * What the harness guarantees

    Every operation a loop starts gives exactly one sample, for every
    interleaving of the workers; an open loop keeps within its cap; a create
    whose outcome was lost is reported as a success only when the object is
    there; a scenario without errors was validated, and a run succeeds only if
    all of its scenarios are. *)

From Stdlib Require Import Floats.SpecFloat.
From stdpp Require Import gmap.
From S2P Require Import Prelude Proto Float64 Errors Path Ops Rpc Owner Session Reads ReadPipeline Writes Put Directory Builder Efs BenchModel BenchSuite BenchStats FileSystem BenchMount BenchWork BenchWorkFacts BenchExec BenchRun.

(** ** Inversion of successful runs *)

Lemma sbind_ok {S E A B} (m : st S E A) (k : A → st S E B) s b s'' :
  sbind m k s = (Ok b, s'') → ∃ a s', m s = (Ok a, s') ∧ k a s' = (Ok b, s'').
Proof. unfold sbind. destruct (m s) as [[a|e|] s'] eqn:Hm; naive_solver. Qed.

Lemma slift_ok {S E A} (r : res E A) (s s' : S) a : slift r s = (Ok a, s') → r = Ok a ∧ s' = s.
Proof. unfold slift. naive_solver. Qed.

Lemma observe_ok {W E A B} (read : W → A * W) (k : A → st W E B) w b w'' :
  observe read k w = (Ok b, w'') → ∃ a w', read w = (a, w') ∧ k a w' = (Ok b, w'').
Proof. unfold observe. destruct (read w) as [a w'] eqn:Hr; eauto. Qed.

(** ** Samples *)

Lemma sample_of context spec worker sequence timing r s :
  sample_from_result context spec worker sequence timing r = Ok s →
  RawSample.worker s = worker ∧ RawSample.sequence s = sequence
  ∧ (RawSample.status s = SampleStatus.ok → ∃ v, r = Ok v ∧ validate_value context spec v = Ok tt)
  ∧ RawSample.status s ≠ SampleStatus.dropped.
Proof.
  unfold sample_from_result. destruct r as [v|e|]; cbn [rbind]; [|intros [= <-]; by split_and!|done].
  destruct (validate_value context spec v) as [[]|e|] eqn:Hv; [..|done]; intros [= <-]; cbn.
  - split_and!; eauto.
  - by split_and!.
Qed.

(** ** Open loop *)

Section loops.
Context {W : Type} {world : World.t W} (display : Error.t → str) (fault : nat → option (IoError.t * bool))
  (amount : nat → nat) (direct_fuel : nat) (order : nat → nat).

Notation launched := (λ t, (Launched.worker t, Launched.sequence t)).
Notation sampled := (λ s, (RawSample.worker s, RawSample.sequence s)).

Lemma launched_task_ok context spec phase start mo task w s w' :
  launched_task display fault amount direct_fuel context spec phase start mo task w = (Ok s, w') →
  sampled s = launched task ∧ RawSample.status s ≠ SampleStatus.dropped.
Proof.
  unfold launched_task. intros (t0 & w0 & _ & H)%observe_ok.
  apply sbind_ok in H as (ex & w1 & _ & H). apply observe_ok in H as (t1 & w2 & _ & H).
  apply slift_ok in H as [H _]. apply sample_of in H as (-> & -> & _ & ?). done.
Qed.

Definition one_sample_each (tasks : list Launched.t) (samples : list RawSample.t)
    (operations : list (Z * Z)) : Prop :=
  (sampled <$> samples) ++ (launched <$> tasks) ≡ₚ operations.

Lemma join_tasks_ok n context spec phase start mo turn tasks samples w tasks' samples' w' ops :
  join_tasks display fault amount direct_fuel order n context spec phase start mo turn tasks samples w
  = (Ok (tasks', samples'), w') →
  one_sample_each tasks samples ops →
  one_sample_each tasks' samples' ops
  ∧ length tasks' = (length tasks - n)%nat
  ∧ with_status SampleStatus.dropped samples' = with_status SampleStatus.dropped samples.
Proof.
  unfold one_sample_each.
  induction n as [|n IH] in turn, tasks, samples, w |- *; cbn [join_tasks]; intros H Hops.
  { injection H as <- <- <-. split_and!; [done|lia|done]. }
  pose proof (next_completion_spec (order turn) tasks) as Hn.
  destruct (next_completion (order turn) tasks) as [[task rest]|].
  2: { subst tasks. injection H as <- <- <-. by split_and!. }
  destruct (launched_task _ _ _ _ _ _ _ _ _ _ _) as [[s|e|] w1] eqn:Ht; [|done..].
  apply launched_task_ok in Ht as [Ht Hd].
  destruct (IH _ _ _ _ H) as (H1 & H2 & H3).
  { rewrite <- Hops, fmap_app, <- app_assoc. f_equiv. cbn. rewrite Ht. by rewrite Hn. }
  pose proof (Permutation_length Hn) as Hlen. cbn in Hlen. split_and!; [done|lia|].
  rewrite H3. unfold with_status. by rewrite filter_app, filter_cons_False, app_nil_r by done.
Qed.

(** The worker and the number of each of the first [n] operations. *)
Definition first_operations (mo n : Z) : list (Z * Z) := (λ q, (q `mod` mo, q)) <$> seqZ 0 n.

Lemma first_operations_snoc mo n : 0 ≤ n →
  first_operations mo (n + 1) = first_operations mo n ++ [(n `mod` mo, n)].
Proof.
  intros Hn. unfold first_operations. rewrite seqZ_app by lia. by rewrite fmap_app.
Qed.

(** Offsets up to the end of the launch window. *)
Definition window_ends (interval window : Duration) (n : Z) : Prop :=
  (∃ off, mul_f64 (E:=str) interval (F64.of_Z n) = Ok off ∧ window ≤ off)
  ∧ ∀ q, 0 ≤ q < n → ∃ off, mul_f64 (E:=str) interval (F64.of_Z q) = Ok off ∧ off < window.

Lemma open_loop_turns_ok fuel completed context spec phase start mo interval window :
  ∀ sequence tasks samples w tasks' samples' w',
  open_loop_turns display fault amount direct_fuel order fuel completed context spec phase start mo interval
    window sequence tasks samples w = (Ok (tasks', samples'), w') →
  0 ≤ sequence → sequence + Z.of_nat fuel ≤ usize_max →
  one_sample_each tasks samples (first_operations mo sequence) → blen tasks ≤ mo →
  (∀ q, 0 ≤ q < sequence → ∃ off, mul_f64 (E:=str) interval (F64.of_Z q) = Ok off ∧ off < window) →
  ∃ n, sequence ≤ n ∧ window_ends interval window n
    ∧ one_sample_each tasks' samples' (first_operations mo n) ∧ blen tasks' ≤ mo.
Proof.
  induction fuel as [|fuel IH]; intros sequence tasks samples w tasks' samples' w' H Hs Hu Hops Hmo Hw;
    cbn [open_loop_turns] in H; apply sbind_ok in H as (off & w1 & Hoff & H);
    apply slift_ok in Hoff as [Hoff ->]; destruct (Z.leb_spec window off) as [Hle|Hlt].
  1, 3: injection H as <- <- <-; exists sequence; split_and!; [lia|by split; [eauto|]|done|done].
  - done.
  - apply sbind_ok in H as ([tasks1 samples1] & w2 & Hj & H).
    destruct (join_tasks_ok _ _ _ _ _ _ _ _ _ _ _ _ _ _ Hj Hops) as (Hops1 & Hlen1 & _).
    destruct (Z.eqb_spec mo 0) as [|Hmo0]; [done|].
    assert (blen tasks1 ≤ mo) by (unfold blen in *; lia).
    assert (Hsat : saturating_add sequence 1 = sequence + 1) by (unfold saturating_add; lia).
    rewrite Hsat in H.
    assert (Hw' : ∀ q, 0 ≤ q < sequence + 1 →
      ∃ off, mul_f64 (E:=str) interval (F64.of_Z q) = Ok off ∧ off < window).
    { intros q Hq. destruct (decide (q = sequence)) as [->|]; [by eauto|]. apply Hw. lia. }
    destruct (Z.leb_spec mo (blen tasks1)) as [Hcap|Hroom]; eapply IH in H as (n & Hn & ?); try lia; try done.
    + exists n. split; [lia|done].
    + unfold one_sample_each in *. rewrite first_operations_snoc by lia.
      rewrite <- Hops1, fmap_app, <- app_assoc, <- app_assoc. f_equiv. cbn. by rewrite Permutation_app_comm.
    + exists n. split; [lia|done].
    + unfold one_sample_each in *. rewrite first_operations_snoc by lia.
      rewrite <- Hops1, fmap_app, app_assoc. done.
    + rewrite blen_app, blen_cons, blen_nil. lia.
Qed.

(** ** Operations return *)

Definition returns {S E A} (m : st S E A) : Prop := ∀ s, (m s).1 ≠ Panic.

(** No operation of the library panics. *)
Class TotalWorld : Prop := {
  tw_get c p : returns (World.get c p);
  tw_get_known_size c p n : returns (World.get_known_size c p n);
  tw_get_range c p a b : returns (World.get_range c p a b);
  tw_put c p d m : returns (World.put c p d m);
  tw_entry_info c p : returns (World.entry_info c p);
  tw_delete c p : returns (World.delete c p);
  tw_list_page c p n t : returns (World.list_page c p n t);
}.

(** The scenario can run in the context: it has a payload of its size, files
    and, for the library's backend, clients. *)
Record equipped (context : BenchmarkContext.t) (spec : ScenarioSpec.t) : Prop := {
  eq_files : 1 ≤ ScenarioSpec.read_files_per_worker spec;
  eq_clients : ScenarioSpec.backend spec = Backend.NfsCrust → BenchmarkContext.clients context ≠ [];
  eq_payload : ∃ body, BenchmarkContext.payloads context !! ScenarioSpec.object_size_bytes spec = Some body
    ∧ blen body = ScenarioSpec.object_size_bytes spec;
  eq_size : RANGE_BYTES ≤ ScenarioSpec.object_size_bytes spec;
  eq_aligned : ScenarioSpec.object_size_bytes spec `mod` RANGE_BYTES = 0;
}.

Lemma returns_smap {S E A B} (f : A → B) (m : st S E A) : returns m → returns (smap f m).
Proof. intros Hm s. specialize (Hm s). unfold smap, sbind. by destruct (m s) as [[]]. Qed.

Lemma returns_nfs {A} (m : st W Error.t A) : returns m → returns (nfs display m).
Proof. intros Hm w. specialize (Hm w). unfold nfs, smap_err. by destruct (m w) as [[]]. Qed.

Context `{!TotalWorld}.

Lemma create_new_returns client path payload : returns (execute_nfs_create_new display client path payload).
Proof.
  intros w. unfold execute_nfs_create_new. pose proof (tw_put client path payload PutMode.IfNotExists w) as H1.
  destruct (World.put client path payload PutMode.IfNotExists w) as [[[]|e|] w1]; [done| |done].
  destruct (negb (Error.is_outcome_unknown e)); [done|].
  pose proof (tw_get_known_size client path (blen payload) w1) as H2.
  destruct (World.get_known_size client path (blen payload) w1) as [[b|e2|] w2]; [by case_bool_decide| |done].
  destruct (Error.is_not_found e2); [|done].
  pose proof (tw_put client path payload PutMode.IfNotExists w2) as H3.
  by destruct (World.put client path payload PutMode.IfNotExists w2) as [[[]|e3|] w3].
Qed.

Lemma client_for_ok context worker :
  BenchmarkContext.clients context ≠ [] → ∃ c, client_for context worker = Ok c.
Proof.
  intros Hne. unfold client_for. rewrite bool_decide_eq_false_2 by done.
  set (l := BenchmarkContext.clients context) in *.
  assert (1 ≤ blen l) by (destruct l; [done|rewrite blen_cons; pose proof (blen_nonneg l); lia]).
  pose proof (Z.mod_pos_bound worker (blen l) ltac:(lia)).
  destruct (lookup_lt_is_Some_2 l (Z.to_nat (worker `mod` blen l))) as [c ->]; [unfold blen in *; lia|eauto].
Qed.

Lemma path_ok context spec phase worker sequence : 1 ≤ ScenarioSpec.read_files_per_worker spec →
  ∃ p, operation_relative_path context spec phase worker sequence = Ok p.
Proof.
  intros Hf. unfold operation_relative_path. destruct (Z.eqb_spec (ScenarioSpec.read_files_per_worker spec) 0); [lia|].
  destruct (ScenarioSpec.operation spec); eauto.
Qed.

Lemma execute_nfs_returns context spec phase worker sequence :
  equipped context spec → ScenarioSpec.backend spec = Backend.NfsCrust →
  returns (execute_nfs display context spec phase worker sequence).
Proof.
  intros [Hf Hc (body & Hb & _) _ _] Hback w. unfold execute_nfs, sbind, slift, payload.
  destruct (client_for_ok context worker (Hc Hback)) as [c ->].
  destruct (path_ok context spec phase worker sequence Hf) as [p ->]. rewrite Hb. cbn [ok_or].
  destruct (ScenarioSpec.operation spec).
  - apply returns_smap, returns_nfs, tw_get.
  - apply returns_smap, returns_nfs, tw_get_known_size.
  - apply returns_smap, returns_nfs, tw_get_range.
  - apply create_new_returns.
  - apply returns_smap, returns_nfs, tw_put.
  - apply returns_smap, returns_nfs, tw_entry_info.
  - apply returns_smap, returns_nfs, tw_delete.
  - apply returns_smap, returns_nfs, tw_list_page.
Qed.

Lemma execute_operation_ok context spec phase worker sequence w : equipped context spec →
  ∃ ex w', execute_operation display fault amount direct_fuel context spec phase worker sequence w = (Ok ex, w')
    ∧ OperationExecution.result ex ≠ Panic.
Proof.
  intros Heq.
  assert (Hmount : ∃ ex w', execute_mount fault amount direct_fuel context spec phase worker sequence w = (Ok ex, w')
    ∧ OperationExecution.result ex ≠ Panic).
  { unfold execute_mount, observe. destruct (World.instant_now w) as [t0 w0].
    unfold sbind, slift, operation_mount_path, payload.
    destruct (path_ok context spec phase worker sequence (eq_files _ _ Heq)) as [p ->]. cbn [rbind].
    destruct (eq_payload _ _ Heq) as (body & -> & _). cbn [ok_or].
    destruct (World.instant_now w0) as [t1 w1]. destruct (io _ w1) as [r w2].
    destruct (World.instant_now w2) as [t2 w3]. destruct r as [v|e|]; by eexists _, _. }
  unfold execute_operation. destruct (ScenarioSpec.backend spec) eqn:Hb; [|exact Hmount..].
  unfold observe. destruct (World.instant_now w) as [t0 w0].
  pose proof (execute_nfs_returns context spec phase worker sequence Heq Hb w0) as Hr.
  destruct (execute_nfs display context spec phase worker sequence w0) as [[v|e|] w1]; [..|done];
    destruct (World.instant_now w1) as [t1 w2]; by eexists _, _.
Qed.

Lemma validate_value_total context spec v : equipped context spec → validate_value context spec v ≠ Panic.
Proof.
  intros [Hf Hc (body & Hb & Hlen) Hs Ha]. unfold validate_value, payload. rewrite Hb. cbn [ok_or].
  assert (Hslice : ∃ e, slice_bytes body (range_offset (ScenarioSpec.object_size_bytes spec)) RANGE_BYTES = Ok e).
  { destruct (range_offset_ok _ Hs Ha) as (_ & Hr & _). unfold slice_bytes. rewrite Hlen.
    destruct (Z.leb_spec (range_offset (ScenarioSpec.object_size_bytes spec) + RANGE_BYTES)
      (ScenarioSpec.object_size_bytes spec)); [eauto|lia]. }
  destruct Hslice as [e He].
  destruct (ScenarioSpec.operation spec), v; cbn [rbind]; rewrite ?He; cbn [rbind];
    try done; try (apply validate_sampled_body_spec); by destruct (_ =? _).
Qed.

Lemma sample_ok context spec worker sequence timing r : equipped context spec → r ≠ Panic →
  ∃ s, sample_from_result context spec worker sequence timing r = Ok s.
Proof.
  intros Heq Hr. unfold sample_from_result. destruct r as [v|e|]; cbn [rbind]; [|eauto|done].
  pose proof (validate_value_total context spec v Heq).
  destruct (validate_value context spec v) as [[]|e|]; [eauto..|done].
Qed.

(** ** Closed loop *)

(** What a turn of a worker with a fixed number of operations does. *)
Definition turned (limit : Z) (worker : Worker.t) (next : option Worker.t) : Prop :=
  match next with
  | None => limit ≤ Worker.sequence worker
  | Some worker' =>
      Worker.sequence worker < limit ∧ Worker.id worker' = Worker.id worker
      ∧ Worker.sequence worker' = Worker.sequence worker + 1
      ∧ ∃ s, Worker.samples worker' = Worker.samples worker ++ [s]
          ∧ sampled s = (Worker.id worker, Worker.sequence worker)
  end.

Lemma worker_turn_ok context spec phase start deadline limit worker w :
  equipped context spec → limit ≤ usize_max →
  ∃ next w', worker_turn display fault amount direct_fuel context spec phase start deadline (Some limit) worker w
    = (Ok next, w') ∧ turned limit worker next.
Proof.
  intros Heq Hl. unfold worker_turn, sbind at 1, sret.
  destruct (Z.leb_spec limit (Worker.sequence worker)) as [|Hlt]; [by eexists None, _|].
  unfold observe. destruct (World.instant_now w) as [t0 w0]. unfold sbind at 1.
  destruct (execute_operation_ok context spec phase (Worker.id worker) (Worker.sequence worker) w0 Heq)
    as (ex & w1 & -> & Hr).
  destruct (World.instant_now w1) as [t1 w2]. unfold sbind, slift.
  edestruct (sample_ok context spec (Worker.id worker) (Worker.sequence worker)) as [s Hs]; [done..|].
  rewrite Hs. eexists (Some _), _. split; [done|]. cbn.
  apply sample_of in Hs as (? & ? & _). split_and!; [lia|done|unfold saturating_add; lia|].
  exists s. split; [done|]. congruence.
Qed.

(** The operations a worker still has to do, and all it accounts for. *)
Definition remaining (limit : Z) (worker : Worker.t) : list (Z * Z) :=
  (λ q, (Worker.id worker, q)) <$> seqZ (Worker.sequence worker) (limit - Worker.sequence worker).
Definition accounted (limit : Z) (worker : Worker.t) : list (Z * Z) :=
  (sampled <$> Worker.samples worker) ++ remaining limit worker.
Definition turns_left (limit : Z) (worker : Worker.t) : nat := S (Z.to_nat (limit - Worker.sequence worker)).

Lemma turned_accounted limit worker next : turned limit worker next →
  match next with
  | None => accounted limit worker = sampled <$> Worker.samples worker
  | Some worker' => accounted limit worker' = accounted limit worker
      ∧ turns_left limit worker = S (turns_left limit worker')
  end.
Proof.
  unfold turned, accounted, remaining, turns_left. destruct next as [worker'|].
  - intros (Hlt & -> & -> & s & -> & Hs). split; [|lia].
    rewrite fmap_app, <- app_assoc. f_equal. cbn. rewrite Hs.
    rewrite (seqZ_cons (Worker.sequence worker)) by lia. cbn.
    repeat f_equal; lia.
  - intros Hle. rewrite seqZ_nil by lia. by rewrite app_nil_r.
Qed.

Lemma insert_delete_Permutation {A} (l : list A) i x y :
  l !! i = Some y → <[i := x]> l ≡ₚ x :: base.delete i l.
Proof.
  intros Hi%lookup_lt_Some. rewrite insert_take_drop, delete_take_drop by done.
  by rewrite Permutation_middle.
Qed.

(** Whatever the order of the turns, every worker does all of its operations. *)
Lemma closed_loop_turns_ok context spec phase start deadline limit :
  equipped context spec → limit ≤ usize_max →
  ∀ fuel turn workers samples w ops,
  (sum_list_with (turns_left limit) workers ≤ fuel)%nat →
  (sampled <$> samples) ++ (workers ≫= accounted limit) ≡ₚ ops →
  ∃ samples' w', closed_loop_turns display fault amount direct_fuel order fuel context spec phase start deadline
      (Some limit) turn workers samples w = (Ok samples', w')
    ∧ sampled <$> samples' ≡ₚ ops.
Proof.
  intros Heq Hl. induction fuel as [|fuel IH]; intros turn workers samples w ops Hf Hops.
  - destruct workers as [|v workers]; [|cbn in Hf; unfold turns_left in Hf; lia].
    exists samples, w. split; [done|]. by rewrite app_nil_r in Hops.
  - destruct workers as [|v workers].
    { exists samples, w. split; [done|]. by rewrite app_nil_r in Hops. }
    cbn [closed_loop_turns]. set (i := (order turn `mod` length (v :: workers))%nat).
    destruct (lookup_lt_is_Some_2 (v :: workers) i) as [worker Hi].
    { apply Nat.mod_upper_bound. done. }
    rewrite Hi.
    destruct (worker_turn_ok context spec phase start deadline limit worker w Heq Hl) as (next & w' & -> & Ht).
    apply turned_accounted in Ht. pose proof (delete_Permutation _ _ _ Hi) as Hd.
    rewrite Hd in Hops, Hf. rewrite bind_cons in Hops. cbn [sum_list_with] in Hf.
    destruct next as [worker'|].
    + destruct Ht as [Ha Hlt]. apply IH.
      * rewrite (insert_delete_Permutation _ _ _ _ Hi). cbn [sum_list_with]. lia.
      * rewrite (insert_delete_Permutation _ _ _ _ Hi), bind_cons, Ha. exact Hops.
    + rewrite Ht in Hops. apply IH.
      * unfold turns_left at 1 in Hf. lia.
      * rewrite fmap_app, <- app_assoc. exact Hops.
Qed.

(** The operations of a closed loop: each worker's, each once. *)
Definition all_operations (concurrency limit : Z) : list (Z * Z) :=
  for_in (seqZ 0 concurrency) (λ worker, (λ q, (worker, q)) <$> seqZ 0 limit).

Lemma initial_accounted concurrency limit :
  ((λ id, Worker.mk id 0 []) <$> seqZ 0 concurrency) ≫= accounted limit = all_operations concurrency limit.
Proof.
  unfold all_operations. induction (seqZ 0 concurrency) as [|id l IH]; [done|].
  rewrite fmap_cons, bind_cons, IH. cbn. unfold accounted, remaining. cbn. by rewrite Z.sub_0_r.
Qed.

Lemma initial_turns concurrency limit :
  sum_list_with (turns_left limit) ((λ id, Worker.mk id 0 []) <$> seqZ 0 concurrency)
  = (Z.to_nat concurrency * S (Z.to_nat limit))%nat.
Proof.
  assert (Hl : ∀ l : list Z, sum_list_with (turns_left limit) ((λ id, Worker.mk id 0 []) <$> l)
    = (length l * S (Z.to_nat limit))%nat).
  { induction l as [|id l IH]; [done|]. rewrite fmap_cons. cbn [sum_list_with length]. rewrite IH.
    unfold turns_left. cbn [Worker.sequence]. rewrite Z.sub_0_r. lia. }
  by rewrite Hl, length_seqZ.
Qed.

(** A closed loop with a fixed number of operations returns, and whatever
    the interleaving of its workers and whatever the outcomes of the
    operations, its samples are exactly one for each of the operations of each
    worker: none is lost, none is counted twice. *)
Theorem closed_loop_complete fuel context spec phase w limit
    (Heq : equipped context spec)
    (Hfix : ScenarioSpec.fixed_operations_per_worker spec = Some limit)
    (Hlimit : limit ≤ usize_max)
    (Hfuel : (Z.to_nat (ScenarioSpec.concurrency spec) * S (Z.to_nat limit) ≤ fuel)%nat) :
  ∃ batch w', run_closed_loop display fault amount direct_fuel order fuel context spec phase None w = (Ok batch, w')
    ∧ (sampled <$> SampleBatch.samples batch) ≡ₚ all_operations (ScenarioSpec.concurrency spec) limit.
Proof.
  unfold run_closed_loop, observe. destruct (World.instant_now w) as [t w0]. rewrite Hfix. cbn zeta.
  edestruct (closed_loop_turns_ok context spec phase (t + START_DELAY)
    (t + START_DELAY + from_millis (default (ScenarioSpec.duration_ms spec) None)) limit Heq Hlimit fuel 0
    ((λ id, Worker.mk id 0 []) <$> seqZ 0 (ScenarioSpec.concurrency spec)) [] w0) as (samples & w1 & Hrun & Hs).
  - by rewrite initial_turns.
  - by rewrite initial_accounted.
  - unfold sbind. rewrite Hrun. by eexists _, _.
Qed.

(** ** An open loop returns *)

Lemma launched_task_returns context spec phase start mo task w : equipped context spec →
  ∃ s w', launched_task display fault amount direct_fuel context spec phase start mo task w = (Ok s, w').
Proof.
  intros Heq. unfold launched_task, observe. destruct (World.instant_now w) as [t0 w0]. unfold sbind.
  destruct (execute_operation_ok context spec phase (Launched.worker task) (Launched.sequence task / mo) w0 Heq)
    as (ex & w1 & -> & Hr).
  destruct (World.instant_now w1) as [t1 w2]. unfold slift.
  edestruct (sample_ok context spec (Launched.worker task) (Launched.sequence task)) as [s Hs]; [done..|].
  rewrite Hs. by eexists _, _.
Qed.

Lemma join_tasks_returns n context spec phase start mo : equipped context spec →
  ∀ turn tasks samples w, ∃ tasks' samples' w',
  join_tasks display fault amount direct_fuel order n context spec phase start mo turn tasks samples w
  = (Ok (tasks', samples'), w').
Proof.
  intros Heq. induction n as [|n IH]; intros turn tasks samples w; cbn [join_tasks]; [by eexists _, _, _|].
  destruct (next_completion (order turn) tasks) as [[task rest]|]; [|by eexists _, _, _].
  destruct (launched_task_returns context spec phase start mo task w Heq) as (s & w' & ->). apply IH.
Qed.

Lemma open_loop_turns_returns fuel completed context spec phase start mo interval window n :
  equipped context spec → 0 < mo → window_ends interval window n → n ≤ usize_max →
  ∀ sequence tasks samples w, 0 ≤ sequence ≤ n → (Z.to_nat (n - sequence) ≤ fuel)%nat →
  ∃ tasks' samples' w',
  open_loop_turns display fault amount direct_fuel order fuel completed context spec phase start mo interval
    window sequence tasks samples w = (Ok (tasks', samples'), w').
Proof.
  intros Heq Hmo [(last & Hlast & Hge) Hbefore] Hn.
  induction fuel as [|fuel IH]; intros sequence tasks samples w Hs Hf; cbn [open_loop_turns]; unfold sbind at 1, slift.
  - assert (sequence = n) as -> by lia. rewrite Hlast. destruct (Z.leb_spec window last); [|lia]. by eexists _, _, _.
  - destruct (decide (sequence = n)) as [->|Hne].
    { rewrite Hlast. destruct (Z.leb_spec window last); [|lia]. by eexists _, _, _. }
    destruct (Hbefore sequence ltac:(lia)) as (off & -> & Hlt). destruct (Z.leb_spec window off); [lia|].
    unfold sbind.
    destruct (join_tasks_returns (completed fuel) context spec phase start mo Heq fuel tasks samples w)
      as (tasks1 & samples1 & w1 & ->).
    destruct (Z.eqb_spec mo 0); [lia|].
    assert (Hsat : saturating_add sequence 1 = sequence + 1) by (unfold saturating_add; lia).
    rewrite Hsat. destruct (mo <=? blen tasks1); apply IH; lia.
Qed.

(** Only one number ends a window. *)
Lemma window_ends_unique interval window n m :
  0 ≤ n → 0 ≤ m → window_ends interval window n → window_ends interval window m → n = m.
Proof.
  intros Hn Hm [(x & Hx & Hgx) Hbn] [(y & Hy & Hgy) Hbm].
  destruct (Z.lt_trichotomy n m) as [Hlt|[->|Hlt]]; [|done|].
  - destruct (Hbm n ltac:(lia)) as (off & Ho & ?). assert (x = off) by congruence. lia.
  - destruct (Hbn m ltac:(lia)) as (off & Ho & ?). assert (y = off) by congruence. lia.
Qed.

(** An open loop returns, and every launch its window has room for is
    accounted for by exactly one sample, of the operation or of its drop, under
    the worker the launch number gives: whatever the order and the time of the
    completions. *)
Theorem open_loop_accounts fuel completed context spec phase duration_ms w rate mo interval n
    (Heq : equipped context spec)
    (Hrate : ScenarioSpec.offered_rate_ops_per_sec spec = Some rate)
    (Hcap : ScenarioSpec.max_outstanding spec = Some mo) (Hmo : 0 < mo)
    (Hint : from_secs_f64 (E:=str) (F64.div (F64.of_Z 1) rate) = Ok interval)
    (Hwin : window_ends interval (from_millis duration_ms) n)
    (Hn : 0 ≤ n) (Hfuel : n ≤ Z.of_nat fuel ≤ usize_max) :
  ∃ batch w', run_open_loop display fault amount direct_fuel order fuel completed context spec phase duration_ms w
      = (Ok batch, w')
    ∧ (sampled <$> SampleBatch.samples batch) ≡ₚ first_operations mo n.
Proof.
  unfold run_open_loop. rewrite Hrate, Hcap. unfold sbind at 1 2 3, slift. cbn [ok_or]. rewrite Hint.
  unfold observe. destruct (World.instant_now w) as [t w0].
  destruct (open_loop_turns_returns fuel completed context spec phase (t + START_DELAY) mo interval
    (from_millis duration_ms) n Heq Hmo Hwin ltac:(lia) 0 [] [] w0) as (tasks & samples & w1 & Ht); [lia..|].
  unfold sbind. rewrite Ht.
  destruct (join_tasks_returns (length tasks) context spec phase (t + START_DELAY) mo Heq fuel tasks samples w1)
    as (tasks' & samples' & w2 & Hj).
  rewrite Hj. eexists _, _. split; [done|]. cbn [SampleBatch.samples].
  apply open_loop_turns_ok in Ht as (n' & Hn' & Hw & Hacc & _); [|lia|lia|exact (perm_nil _)|rewrite blen_nil; lia|lia].
  assert (n' = n) as -> by (eapply window_ends_unique; eauto; lia).
  destruct (join_tasks_ok _ _ _ _ _ _ _ _ _ _ _ _ _ _ Hj Hacc) as (Hres & Hlen & _).
  assert (tasks' = []) as -> by (apply nil_length_inv; lia).
  unfold one_sample_each in Hres. by rewrite app_nil_r in Hres.
Qed.
End loops.

(** ** What a result without errors means *)

Section honest.
Context {W : Type} {world : World.t W} (display : Error.t → str) (fault : nat → option (IoError.t * bool))
  (amount : nat → nat) (direct_fuel : nat) (order : nat → nat) (current_user : res Error.t AuthSys.t)
  (fuel : nat) (completed : nat → nat).

Notation run_phase := (run_phase display fault amount direct_fuel order fuel completed).
Notation cross_validate := (cross_validate display fault amount direct_fuel current_user).
Notation run_scenario := (run_scenario display fault amount direct_fuel order current_user fuel completed).

(** All operations of a phase succeeded, and there were some. *)
Definition clean (batch : SampleBatch.t) : Prop :=
  SampleBatch.samples batch ≠ []
  ∧ Forall (λ s, RawSample.status s = SampleStatus.ok) (SampleBatch.samples batch).

(** The result stands for a clean warm-up, a clean measurement whose successes
    it counts, and a validation that passed. *)
Definition validated (context : BenchmarkContext.t) (spec : ScenarioSpec.t) (r : ScenarioResult.t) : Prop :=
  ∃ clients, let context := with_clients context clients in
  (ScenarioSpec.warmup_ms spec ≠ 0 →
     ∃ warmup w w', run_phase context spec Phase.Warmup w = (Ok warmup, w') ∧ clean warmup)
  ∧ (∃ batch w w', run_phase context spec Phase.Measure w = (Ok batch, w') ∧ clean batch
       ∧ ScenarioResult.successes r = blen (SampleBatch.samples batch))
  ∧ ∃ message w w', cross_validate context spec w = (Ok message, w')
       ∧ ScenarioResult.cross_backend_validation r = message.

Lemma errors_add issue r : 0 ≤ ScenarioResult.errors r → ScenarioResult.errors (add_error issue r) ≠ 0.
Proof. cbn. unfold saturating_add, usize_max, u64_max. lia. Qed.

Lemma add_error_nonneg issue r : 0 ≤ ScenarioResult.errors r → 0 ≤ ScenarioResult.errors (add_error issue r).
Proof. cbn. unfold saturating_add, usize_max, u64_max. lia. Qed.

Lemma conclude_clean cross warmup_issue r : 0 ≤ ScenarioResult.errors r →
  ScenarioResult.errors (conclude cross warmup_issue r) = 0 →
  (∃ message, cross = inr message) ∧ warmup_issue = None ∧ conclude cross warmup_issue r = r
  ∧ ScenarioResult.successes r ≠ 0.
Proof.
  intros Hr. unfold conclude.
  set (r1 := match cross with inl _ => _ | inr _ => _ end).
  set (r2 := match warmup_issue with Some _ => _ | None => _ end).
  assert (0 ≤ ScenarioResult.errors r1) by (unfold r1; destruct cross; [by apply add_error_nonneg|done]).
  assert (0 ≤ ScenarioResult.errors r2) by (unfold r2; destruct warmup_issue; [by apply add_error_nonneg|done]).
  destruct (Z.eqb_spec (ScenarioResult.successes r2) 0) as [|Hs]; [by intros ?%errors_add|].
  unfold r2 in *. destruct warmup_issue; [by intros ?%errors_add|].
  unfold r1 in *. destruct cross as [e|m]; [by intros ?%errors_add|]. intros _. eauto.
Qed.

Lemma all_ok samples :
  blen (with_status SampleStatus.error samples) = 0 → blen (with_status SampleStatus.dropped samples) = 0 →
  blen (with_status SampleStatus.ok samples) = blen samples
  ∧ Forall (λ s, RawSample.status s = SampleStatus.ok) samples.
Proof.
  intros H1 H2. pose proof (status_partition samples) as Hp.
  assert (Hn : blen (with_status SampleStatus.ok samples) = blen samples) by lia.
  split; [done|]. exact (proj2 (filter_full _ _) Hn).
Qed.

Lemma scenario_validated context spec number w r w' :
  run_scenario context spec number w = (Ok r, w') → invalid r = false → validated context spec r.
Proof.
  unfold BenchExec.run_scenario. intros Hrun Hvalid.
  apply sbind_ok in Hrun as (_ & w1 & _ & Hrun). apply sbind_ok in Hrun as (clients & w2 & _ & Hrun).
  exists clients. set (context' := with_clients context clients) in *.
  apply sbind_ok in Hrun as (_ & w3 & _ & Hrun). apply sbind_ok in Hrun as (issue & w4 & Hwarm & Hrun).
  apply observe_ok in Hrun as (before & w5 & _ & Hrun). apply observe_ok in Hrun as (started & w6 & _ & Hrun).
  apply sbind_ok in Hrun as (batch & w7 & Hbatch & Hrun). apply observe_ok in Hrun as (after & w8 & _ & Hrun).
  apply sbind_ok in Hrun as (cross & w9 & Hcross & Hrun). apply sbind_ok in Hrun as (r0 & w10 & Hsum & Hrun).
  apply slift_ok in Hsum as [Hsum _]. apply summarize_counts in Hsum as (He & Hsucc & Hme & Hdrop & Hcv).
  apply sbind_ok in Hrun as (_ & w11 & _ & Hrun). apply sbind_ok in Hrun as (_ & w12 & _ & Hrun).
  apply sbind_ok in Hrun as (_ & w13 & _ & Hrun). apply sbind_ok in Hrun as (_ & w14 & _ & Hrun).
  injection Hrun as <- _. unfold invalid in Hvalid. rewrite !orb_false_iff, !negb_false_iff, !Z.eqb_eq in Hvalid.
  destruct Hvalid as ((Hz & Hd) & _).
  destruct (conclude_clean _ _ _ ltac:(rewrite He, Hme; apply blen_nonneg) Hz)
    as ((message & ->) & -> & Hr & Hs).
  rewrite Hr in *. rewrite Hdrop in Hd. rewrite He, Hme in Hz.
  destruct (all_ok _ Hz Hd) as [Hn Hall].
  split_and!.
  - intros Hw. destruct (Z.eqb_spec (ScenarioSpec.warmup_ms spec) 0) as [|_]; [done|]. cbn [negb] in Hwarm.
    apply sbind_ok in Hwarm as (warmup & v1 & Hphase & Hwarm). apply sbind_ok in Hwarm as (_ & v2 & _ & Hwarm).
    apply sbind_ok in Hwarm as (_ & v3 & _ & Hwarm).
    injection Hwarm as Hwarm _. eexists warmup, _, _. split; [exact Hphase|]. by apply batch_issue_None in Hwarm.
  - eexists batch, _, _. split; [exact Hbatch|]. split; [|lia]. split; [|done].
    intros Hnil. rewrite Hnil in Hsucc. by rewrite Hsucc in Hs.
  - destruct (cross_validate context' spec w8) as [[m|e|] w15] eqn:Hc; [|done..].
    injection Hcross as <- _. eexists m, _, _. by split.
Qed.

(** C34: A scenario whose result is not marked invalid was really measured:
    its warm-up, if it has one, and its measurement ran to their ends, had
    operations, and all of them succeeded; the result counts exactly them; and
    the validation by the other backend passed. *)
Theorem scenario_honest context spec number w r w'
    (Hrun : run_scenario context spec number w = (Ok r, w')) (Hvalid : invalid r = false) :
  validated context spec r.
Proof. by eapply scenario_validated. Qed.

(** ** What a passed validation means *)

Lemma for_each_ok {S E A} (f : A → st S E unit) l s s' :
  for_each f l s = (Ok tt, s') → Forall (λ x, ∃ v v', f x v = (Ok tt, v')) l.
Proof.
  induction l as [|x l IH] in s |- *; cbn [for_each]; intros H; [by apply Forall_nil_2|].
  apply sbind_ok in H as ([] & v & Hx & H). constructor; [by eauto|]. by eapply IH.
Qed.

(** Reading a publication through the backend that did not write it. *)
Definition read_back (context : BenchmarkContext.t) (spec : ScenarioSpec.t) (payload : bytes) (path : str)
  : Prop :=
  ∃ w w',
  match ScenarioSpec.backend spec with
  | Backend.NfsCrust =>
      io (read_remote fault amount direct_fuel (PathBuf.join (BenchmarkContext.mount_root context) path)
            (blen payload) true (BenchmarkContext.remote_read_mode context)) w = (Ok payload, w')
  | _ => ∃ client, World.get_known_size client path (ScenarioSpec.object_size_bytes spec) w = (Ok payload, w')
  end.

Lemma verify_publication_ok context spec payload client path w w' :
  verify_publication display fault amount direct_fuel context spec payload client path w = (Ok tt, w') →
  match client with
  | None =>
      ∃ v, io (read_remote fault amount direct_fuel (PathBuf.join (BenchmarkContext.mount_root context) path)
                 (blen payload) true (BenchmarkContext.remote_read_mode context)) w = (Ok payload, v)
  | Some c => ∃ v, World.get_known_size c path (ScenarioSpec.object_size_bytes spec) w = (Ok payload, v)
  end.
Proof.
  unfold verify_publication. intros (observed & v & Hr & Hv)%sbind_ok.
  apply slift_ok in Hv as [->%validate_full_body_spec _]. destruct client as [c|]; [|eauto].
  unfold nfs, smap_err in Hr. destruct (World.get_known_size _ _ _ w) as [[b|e|] u]; [|done..].
  injection Hr as -> <-. eauto.
Qed.

Lemma elem_of_for_in {A B} x (y : B) (l : list A) f : x ∈ l → y ∈ f x → y ∈ for_in l f.
Proof.
  intros Hx Hy. unfold for_in. apply list_elem_of_join. exists (f x). split; [done|].
  by apply list_elem_of_fmap_2.
Qed.

Lemma try_each_elem {E A B} (f : A → res E B) l l' x :
  try_each l f = Ok l' → x ∈ l → ∃ y, f x = Ok y ∧ y ∈ l'.
Proof.
  induction l as [|z l IH] in l' |- *; cbn [try_each]; [by intros _ ?%not_elem_of_nil|].
  destruct (f z) as [y|e|] eqn:Hz; cbn [rbind]; [|done..].
  destruct (try_each l f) as [ys|e|] eqn:Hl; cbn [rbind]; [|done..].
  intros [= <-] [->|Hx]%elem_of_cons; [exists y; split; [done|apply list_elem_of_here]|].
  destruct (IH ys eq_refl Hx) as (y' & Hy & ?). exists y'. split; [done|]. by apply list_elem_of_further.
Qed.

(** The validation of a write scenario passes only if every file it checks was
    read, whole, with the bytes of the payload; the files of an overwrite
    scenario are all of its slots. *)
Theorem cross_validate_sound context spec w message w' :
  cross_validate context spec w = (Ok message, w') → Operation.is_write (ScenarioSpec.operation spec) = true →
  ∃ body paths,
    payload context (ScenarioSpec.object_size_bytes spec) = Ok body
    ∧ Forall (read_back context spec body) paths
    ∧ match ScenarioSpec.operation spec with
      | Operation.PutOverwrite =>
          ∀ worker slot, 0 ≤ worker < ScenarioSpec.concurrency spec →
          0 ≤ slot < ScenarioSpec.read_files_per_worker spec →
          ∃ path, operation_relative_path context spec Phase.Measure worker slot = Ok path ∧ path ∈ paths
      | _ => ∃ path, operation_relative_path context spec Phase.Measure 0 0 = Ok path ∧ path ∈ paths
      end.
Proof.
  unfold BenchExec.cross_validate. intros H Hw.
  rewrite bool_decide_eq_false_2 in H by (intros E; by rewrite E in Hw). rewrite Hw in H. cbn [negb] in H.
  apply sbind_ok in H as (body & w1 & Hb & H). apply slift_ok in Hb as [Hb ->].
  apply sbind_ok in H as (paths & w2 & Hp & H). apply slift_ok in Hp as [Hp ->].
  exists body, paths. split; [done|]. split.
  - assert (Hall : ∃ client, (client = None ↔ ScenarioSpec.backend spec = Backend.NfsCrust)
        ∧ Forall (λ path, ∃ v v', verify_publication display fault amount direct_fuel context spec body client path v
                    = (Ok tt, v')) paths).
    { destruct (ScenarioSpec.backend spec) eqn:Hback.
      1: apply sbind_ok in H as ([] & w3 & H%for_each_ok & _); by exists None.
      all: apply sbind_ok in H as (client & w3 & _ & H);
        apply sbind_ok in H as ([] & w4 & H%for_each_ok & _); by exists (Some client). }
    destruct Hall as (client & Hc & Hall). eapply Forall_impl; [exact Hall|]. cbn.
    intros path (v & v' & Hv%verify_publication_ok). unfold read_back.
    destruct client as [c|], (ScenarioSpec.backend spec); try (by naive_solver).
  - destruct (ScenarioSpec.operation spec) eqn:Hop; try done.
    + destruct (operation_relative_path _ _ _ 0 0) as [path|e|]; [|done..]. injection Hp as <-.
      exists path. split; [done|]. apply list_elem_of_here.
    + intros worker slot Hwk Hsl. apply (try_each_elem _ _ _ (worker, slot) Hp).
      apply (elem_of_for_in worker); [apply elem_of_seqZ; lia|].
      apply (elem_of_for_in slot); [apply elem_of_seqZ; lia|]. apply list_elem_of_here.
Qed.

(** ** A run that succeeds *)

Context (canonicalize : PathBuf.t → st W IoError.t PathBuf.t) (current_dir : PathBuf.t)
  (host_metadata : HostMetadata.t) (to_json : RunSummary.t → bytes).

Notation run_specs := (run_specs display fault amount direct_fuel order current_user fuel completed).

Lemma run_specs_ok context specs results w results' w' :
  run_specs context specs results w = (Ok results', w') →
  ∃ new, results' = results ++ new
    ∧ Forall2 (λ spec r, ∃ n v v', run_scenario context spec n v = (Ok r, v')) specs new.
Proof.
  induction specs as [|spec specs IH] in results, w |- *; cbn [BenchRun.run_specs]; intros H.
  { injection H as <- <-. exists []. by rewrite app_nil_r. }
  apply sbind_ok in H as (r & w1 & Hr & H). apply IH in H as (new & -> & Hnew).
  exists (r :: new). rewrite <- app_assoc. split; [done|]. constructor; eauto.
Qed.

Lemma all_validated context specs rs :
  Forall2 (λ spec r, ∃ n v v', run_scenario context spec n v = (Ok r, v')) specs rs →
  Forall (λ r, invalid r = false) rs → Forall2 (validated context) specs rs.
Proof.
  induction 1 as [|spec r specs rs (n & u & u' & Hr) _ IH]; intros Hvalid; [constructor|].
  inversion_clear Hvalid. constructor; [|by apply IH]. by eapply scenario_validated.
Qed.

(** The run returns without an error only after it published a summary with
    one result for each scenario of the suite, in the order of the suite, the
    derived open-loop scenarios after the closed-loop ones, and every one of
    the results stands for a validated scenario. *)
Theorem run_succeeds_validated args w w' :
  run display fault amount direct_fuel order current_user fuel completed canonicalize current_dir host_metadata
    to_json args w = (Ok tt, w') →
  ∃ context closed open_loop summary v1 v2 v3 v4,
    closed_loop_specs (W:=W) args ((λ size, size * 1024) <$> Args.write_size_sweep_kib args) v1 = (Ok closed, v2)
    ∧ publish_summary fault amount to_json (PathBuf.of_str (Args.output_dir args)) summary v3 = (Ok tt, v4)
    ∧ Forall2 (validated context) (closed ++ open_loop) (RunSummary.scenarios summary)
    ∧ (is_Some (Args.closed_loop_limit args) → open_loop = []).
Proof.
  unfold run. intros (_ & w1 & _ & H)%sbind_ok. apply sbind_ok in H as (_ & w2 & _ & H).
  apply sbind_ok in H as (_ & w3 & _ & H). apply sbind_ok in H as (_ & w4 & _ & H).
  apply observe_ok in H as (started & w5 & _ & H). apply sbind_ok in H as (id & w6 & _ & H).
  apply sbind_ok in H as (_ & w7 & _ & H). unfold with_data_guard in H.
  destruct (run_in_root _ _ _ _ _ _ _ _ _ _ _ _ _ _ w7) as [r w8] eqn:Hrun. injection H as -> _.
  unfold run_in_root in Hrun. apply sbind_ok in Hrun as ([mode probe] & v0 & _ & H).
  destruct (negb _ && negb _); [done|]. apply sbind_ok in H as (_ & v1 & _ & H).
  apply sbind_ok in H as (closed & v2 & Hspecs & H). apply sbind_ok in H as (results & v3 & Hclosed & H).
  apply sbind_ok in H as ([basis open_loop] & v4 & Hopen & H). apply sbind_ok in H as (results' & v5 & Hol & H).
  apply sbind_ok in H as (_ & v51 & _ & H). apply sbind_ok in H as (_ & v52 & _ & H).
  apply observe_ok in H as (time & v6 & _ & H). apply sbind_ok in H as ([] & v7 & Hpub & H).
  apply sbind_ok in H as (_ & v8 & _ & H).
  apply run_specs_ok in Hclosed as (new1 & -> & H1). apply run_specs_ok in Hol as (new2 & -> & H2).
  cbn [app] in *. destruct (Z.eqb_spec (blen (filter (λ r, invalid r = true) (new1 ++ new2))) 0) as [Hz|]; [|done].
  eexists _, closed, open_loop, _, _, _, _, _. split; [exact Hspecs|]. split; [exact Hpub|]. split.
  - cbn [RunSummary.scenarios].
    assert (Hvalid : Forall (λ r, invalid r = false) (new1 ++ new2)).
    { apply blen_0_nil in Hz. apply Forall_forall. intros r Hr. destruct (invalid r) eqn:Hi; [|done].
      assert (Hin : r ∈ filter (λ r, invalid r = true) (new1 ++ new2)) by (by apply list_elem_of_filter).
      rewrite Hz in Hin. by apply not_elem_of_nil in Hin. }
    exact (all_validated _ _ _ (Forall2_app H1 H2) Hvalid).
  - intros [limit Hl]. rewrite Hl in Hopen. by injection Hopen.
Qed.
End honest.

(** ** The artifacts *)

(** A writer that succeeds has appended what it was given; a flush, the clock
    and the encoders change no artifact. *)
Class ArtifactContract {W : Type} {world : World.t W} (contents : Artifact.t → W → bytes) : Prop := {
  ac_write file b w w' : World.write_all file b w = (Ok tt, w') →
    ∀ f, contents f w' = if bool_decide (f = file) then contents f w ++ b else contents f w;
  ac_flush file w r w' : World.flush file w = (r, w') → ∀ f, contents f w' = contents f w;
  ac_clock w f : contents f (World.unix_time_millis w).2 = contents f w;
}.

Section artifacts.
Context {W : Type} {world : World.t W} (contents : Artifact.t → W → bytes) `{!ArtifactContract contents}.

Definition sample_line (sample : RawSample.t) : bytes := World.sample_json sample ++ newline.

(** The samples of a batch are appended in order, one line each, and nothing
    else is touched. *)
Lemma append_raw_samples_lines file samples w w' :
  append_raw_samples file samples w = (Ok tt, w') →
  ∀ f, contents f w' = if bool_decide (f = file) then contents f w ++ mjoin (sample_line <$> samples) else contents f w.
Proof.
  unfold append_raw_samples. induction samples as [|sample samples IH] in w |- *.
  { intros [= <-] f. cbn. rewrite app_nil_r. by destruct (bool_decide _). }
  cbn [for_each]. intros ([] & w2 & H & Hrest)%sbind_ok f. apply sbind_ok in H as ([] & w1 & H1 & H2).
  rewrite (IH _ Hrest f), (ac_write _ _ _ _ H2 f), (ac_write _ _ _ _ H1 f), fmap_cons, mjoin_cons. unfold sample_line.
  destruct (bool_decide (f = file)); [|done]. by rewrite <- !app_assoc.
Qed.

(** An event is one line of the event log. *)
Lemma emit_line event w w' :
  emit event w = (Ok tt, w') →
  (∀ f, f ≠ Artifact.Events → contents f w' = contents f w)
  ∧ contents Artifact.Events w' = contents Artifact.Events w
      ++ World.event_json (World.unix_time_millis w).1 (Event.name event) event ++ newline.
Proof.
  unfold emit, observe. pose proof (ac_clock w) as Hc. destruct (World.unix_time_millis w) as [at_ms w1]. cbn [fst snd] in *.
  intros ([] & w2 & H1 & H)%sbind_ok. apply sbind_ok in H as ([] & w3 & H2 & H3). split.
  - intros f Hf. rewrite (ac_flush _ _ _ _ H3), (ac_write _ _ _ _ H2), (ac_write _ _ _ _ H1).
    by rewrite bool_decide_eq_false_2.
  - rewrite (ac_flush _ _ _ _ H3), (ac_write _ _ _ _ H2), (ac_write _ _ _ _ H1).
    rewrite bool_decide_eq_true_2, Hc by done. by rewrite <- app_assoc.
Qed.
End artifacts.

(** ** Creating a file when the outcome may be lost *)

(** What the client promises of a create-new put and of a read: the put never
    replaces an object, and when it reports an unknown outcome it either took
    effect whole or not at all. *)
Class CreateContract {W : Type} {world : World.t W} (objects : W → gmap str bytes) : Prop := {
  cc_put c p d w :
    match World.put c p d PutMode.IfNotExists w with
    | (Ok _, w') => objects w !! p = None ∧ objects w' = <[p := d]> (objects w)
    | (Err e, w') =>
        objects w' = objects w
        ∨ Error.is_outcome_unknown e = true ∧ objects w !! p = None ∧ objects w' = <[p := d]> (objects w)
    | (Panic, w') => objects w' = objects w
    end;
  cc_get c p n w :
    match World.get_known_size c p n w with
    | (Ok b, w') => objects w' = objects w ∧ objects w !! p = Some b
    | (Err e, w') => objects w' = objects w ∧ (Error.is_not_found e = true → objects w !! p = None)
    | (Panic, w') => objects w' = objects w
    end;
}.

Section create_new.
Context {W : Type} {world : World.t W} (display : Error.t → str) (objects : W → gmap str bytes)
  {contract : CreateContract objects}.

(** An operation that creates a file never replaces one and touches nothing
    else; when it succeeds the file has exactly the payload, also after a lost
    outcome; a success that is not marked as reconciled created the file. *)
Theorem create_new_sound client path payload w r w' :
  execute_nfs_create_new display client path payload w = (r, w') →
  (objects w' = objects w ∨ objects w !! path = None ∧ objects w' = <[path := payload]> (objects w))
  ∧ ∀ v, r = Ok v → objects w' !! path = Some payload
      ∧ (v = OperationValue.ReconciledSize (blen payload)
         ∨ v = OperationValue.Size (blen payload) ∧ objects w !! path = None).
Proof.
  unfold execute_nfs_create_new. pose proof (cc_put client path payload w) as H1.
  destruct (World.put client path payload PutMode.IfNotExists w) as [[[]|e|] w1].
  - intros [= <- <-]. destruct H1 as [Hn ->]. split; [by right|]. intros v [= <-].
    rewrite lookup_insert_eq. by auto.
  - destruct (Error.is_outcome_unknown e); cbn [negb].
    2: { intros [= <- <-]. destruct H1 as [->|[? _]]; [|done]. split; [by left|done]. }
    assert (H1' : objects w1 = objects w ∨ objects w !! path = None ∧ objects w1 = <[path := payload]> (objects w))
      by naive_solver.
    clear H1. pose proof (cc_get client path (blen payload) w1) as H2.
    destruct (World.get_known_size client path (blen payload) w1) as [[b|e2|] w2].
    + destruct H2 as [Heq Hb]. case_bool_decide as Hp; intros [= <- <-]; rewrite Heq; (split; [done|]); [|done].
      intros v [= <-]. subst b. by auto.
    + destruct H2 as [Heq Hnf]. destruct (Error.is_not_found e2).
      2: { intros [= <- <-]. rewrite Heq. by split. }
      assert (Hw : objects w2 = objects w ∧ objects w !! path = None).
      { rewrite Heq. specialize (Hnf eq_refl). destruct H1' as [Hw|[_ Hw]]; rewrite Hw in *; [done|].
        by rewrite lookup_insert_eq in Hnf. }
      destruct Hw as [Hw Hnone]. pose proof (cc_put client path payload w2) as H3.
      destruct (World.put client path payload PutMode.IfNotExists w2) as [[[]|e3|] w3]; intros [= <- <-];
        rewrite Hw in H3.
      * destruct H3 as [_ ->]. split; [by right|]. intros v [= <-]. rewrite lookup_insert_eq. by auto.
      * split; [|done]. naive_solver.
      * split; [by left|done].
    + intros [= <- <-]. rewrite H2. by split.
  - intros [= <- <-]. split; [by left|done].
Qed.
End create_new.

(** ** A world to run in: clients and a mount of one tree *)

Module Loopback.
Record t : Type := mk { tree : Fs.t; clock : Z }.

Definition no_fault : nat → option (IoError.t * bool) := λ _, None.
Definition whole : nat → nat := λ _, Z.to_nat 65536.
Definition mount_root : PathBuf.t := PathBuf.of_str (str_of "/mnt").
Definition full (p : str) : PathBuf.t := PathBuf.join mount_root p.
Definition missing : Error.t := Error.nfs NfsStatus.NOENT OpCode.Lookup.

(** A call on the tree, as a client's operation. *)
Definition via {A} (m : st Fs.t IoError.t A) : st t Error.t A := λ w,
  match m (tree w) with
  | (Ok a, fs) => (Ok a, mk fs (clock w))
  | (_, fs) => (Err missing, mk fs (clock w))
  end.

#[global] Instance world : World.t t := {
  World.connect _ := sret 7;
  World.get _ p := via (read_cached no_fault (full p) 0);
  World.get_known_size _ p n := via (read_cached no_fault (full p) n);
  World.get_range _ p a b := via (read_fadvise_range no_fault (full p) a (b - a));
  World.put _ p d m :=
    via (atomic_put no_fault whole (full p) d (match m with PutMode.IfNotExists => true | _ => false end) []);
  World.entry_info _ p := via (smap (EntryInfo.mk EntryKind.File) (metadata_size no_fault (full p)));
  World.delete _ p := via (BenchMount.delete no_fault (full p));
  World.list_page _ _ _ _ := sfail missing;
  World.tree := tree;
  World.set_tree fs w := mk fs (clock w);
  World.instant_now w := (clock w, mk (tree w) (clock w + 20000000));
  World.unix_time_millis w := (clock w, w);
  World.capture w := (ResourceSnapshot.mk 0 0 0 None None, w);
  World.write_all _ _ := sret tt;
  World.flush _ := sret tt;
  World.sample_json _ := [];
  World.event_json _ _ _ := [];
}.

Lemma returns_via {A} (m : st Fs.t IoError.t A) : returns (via m).
Proof. intros w. unfold via. by destruct (m (tree w)) as [[] ?]. Qed.

#[global] Instance total : TotalWorld.
Proof. split; intros; try (apply returns_via). by intros ?. Qed.

Definition start : t :=
  mk (Fs.mk ∅ ∅ {[ PathBuf.of_str (str_of "/"); mount_root ]} 0 0) 0.

Definition context : BenchmarkContext.t :=
  BenchmarkContext.mk (str_of "host") (str_of "host") (str_of "/") mount_root (str_of "b") (full (str_of "b")) [7]
    {[ 4 := [1; 2; 3; 4]; 4096 := replicate (Z.to_nat 4096) 7 ]} RemoteReadMode.FadviseDontNeed 0 false.

(** Two workers that each overwrite a file of the given size three times, after
    a warm-up. *)
Definition overwrites (size : Z) : ScenarioSpec.t :=
  ScenarioSpec.mk (str_of "d") (str_of "d") Backend.NfsCrust Operation.PutOverwrite ScenarioMode.ClosedLoop size 2 1
    4096 1 1 1 100 0 (Some 3) None None None.

(** A thousand operations per second for three milliseconds, two at a time. *)
Definition offered : ScenarioSpec.t :=
  ScenarioSpec.mk (str_of "o") (str_of "o") Backend.NfsCrust Operation.PutOverwrite ScenarioMode.OpenLoop 4096 2 1
    4096 1 1 1 0 3 None (Some (F64.of_Z 1000)) (Some 2) None.

Definition user : res Error.t AuthSys.t := Err missing.

Definition result : res str ScenarioResult.t * t :=
  run_scenario (λ _, []) no_fault whole 8 id user 20 id context (overwrites 4) 1 start.

Lemma equipped_overwrite spec :
  ScenarioSpec.object_size_bytes spec = 4096 → ScenarioSpec.read_files_per_worker spec = 1 → equipped context spec.
Proof.
  intros Hs Hf. split; rewrite ?Hs, ?Hf; [done|done|eexists; by split|done|done].
Qed.

Lemma result_valid : match result with (Ok r, _) => negb (invalid r) | _ => false end = true.
Proof. vm_compute. reflexivity. Qed.
End Loopback.

(** ** Witnesses *)

Lemma closed_loop_complete_witness :
  ∃ batch w', run_closed_loop (λ _, []) Loopback.no_fault Loopback.whole 8 (λ n, (n * n)%nat) 8 Loopback.context
      (Loopback.overwrites 4096) Phase.Measure None Loopback.start = (Ok batch, w')
    ∧ ((λ s, (RawSample.worker s, RawSample.sequence s)) <$> SampleBatch.samples batch)
      ≡ₚ [(0, 0); (0, 1); (0, 2); (1, 0); (1, 1); (1, 2)].
Proof.
  exact (closed_loop_complete (λ _, []) Loopback.no_fault Loopback.whole 8 (λ n, (n * n)%nat) 8 Loopback.context
    (Loopback.overwrites 4096) Phase.Measure Loopback.start 3
    (Loopback.equipped_overwrite (Loopback.overwrites 4096) eq_refl eq_refl)
    eq_refl ltac:(vm_compute; done) ltac:(vm_compute; lia)).
Defined.

Lemma offered_window :
  from_secs_f64 (E:=str) (F64.div (F64.of_Z 1) (F64.of_Z 1000)) = Ok 1000000
  ∧ window_ends 1000000 (from_millis 3) 3.
Proof.
  split; [vm_compute; reflexivity|]. split.
  - exists 3000000. split; [vm_compute; reflexivity|vm_compute; discriminate].
  - intros q Hq. exists (q * 1000000). assert (Hc : q = 0 ∨ q = 1 ∨ q = 2) by lia.
    destruct Hc as [->|[->| ->]]; (split; [vm_compute; reflexivity|vm_compute; reflexivity]).
Qed.

Lemma open_loop_accounts_witness :
  ∃ batch w', run_open_loop (λ _, []) Loopback.no_fault Loopback.whole 8 id 5 (λ n, n) Loopback.context
      Loopback.offered Phase.Measure 3 Loopback.start = (Ok batch, w')
    ∧ ((λ s, (RawSample.worker s, RawSample.sequence s)) <$> SampleBatch.samples batch)
      ≡ₚ [(0, 0); (1, 1); (0, 2)].
Proof.
  exact (open_loop_accounts (λ _, []) Loopback.no_fault Loopback.whole 8 id 5 (λ n, n) Loopback.context
    Loopback.offered Phase.Measure 3 Loopback.start (F64.of_Z 1000) 2 1000000 3
    (Loopback.equipped_overwrite Loopback.offered eq_refl eq_refl) eq_refl eq_refl ltac:(lia) (proj1 offered_window)
    (proj2 offered_window) ltac:(lia) ltac:(vm_compute; done)).
Defined.

Lemma scenario_honest_witness :
  ∃ r w', Loopback.result = (Ok r, w') ∧ invalid r = false
    ∧ validated (λ _, []) Loopback.no_fault Loopback.whole 8 id Loopback.user 20 id Loopback.context
        (Loopback.overwrites 4) r.
Proof.
  pose proof Loopback.result_valid as Hv. destruct Loopback.result as [[r|e|] w'] eqn:Hr; [|done..].
  apply negb_true_iff in Hv. exists r, w'. split; [exact eq_refl|]. split; [exact Hv|].
  exact (scenario_honest (λ _, []) Loopback.no_fault Loopback.whole 8 id Loopback.user 20 id Loopback.context
    (Loopback.overwrites 4) 1 Loopback.start r w' Hr Hv).
Defined.
